(* ===== verification/_CoqProject ===== *)
-Q . S2P
Prelude.v
Constants.v
Str.v
Types.v
Names.v
NameCodec.v
Rdata.v
Message.v
Async.v
Scheduler.v
Order.v
Lru.v
Cache.v
Prefetch.v
Server.v
Dnssec.v
Denial.v
Blocklist.v
RootHints.v
Rtt.v
Upstream.v
Exchange.v
Resolver.v
Resolution.v
Completeness.v
Adversary.v
Validation.v
NetAddr.v
Config.v
BlocklistTests.v
App.v
Process.v
Served.v
Concurrency.v
Transport.v
Cli.v
TrustAnchor.v
Installer.v
Program.v
