(* ===== verification/Prelude.v ===== *)
(** * FastDNS: a verification library

    FastDNS is a recursive DNS server written in Rust.  A query comes in over
    UDP or TCP (src/server), is answered from the cache (src/resolver/cache.rs)
    or by walking the name servers from the roots down
    (src/resolver/recursive.rs), with DNSSEC checks on the way (src/dnssec), and
    everything that crosses the network goes through the message codec
    (src/dns).  The program (src/main.rs) reads a configuration (src/config.rs),
    starts the servers and the HTTP endpoints (src/api.rs), and loads a block
    list (src/blocklist.rs).  This library models all of these and proves what
    makes them correct; where the code does something else, the theorem says
    what it does.

    ** Files and the code they model

    The foundations:
    - this file: outcomes of Rust code ([outcome]: value, error, panic, no
      return), machine-width integers as [Z] with their wrap-around, slices with
      their panics, the tactics and hint databases ([safe], [width]) that the
      components share, and the multiset order;
    - [Async]: async functions as trees of actions on shared state, of mutexes and
      of spawned tasks, with their run without interference and a weakest
      precondition that holds with it;
    - [Scheduler]: many tasks over one state, with a step of any of them, and what
      holds of any tasks: adequacy of the weakest precondition, freedom from
      deadlock by an order of the mutexes, the end of every schedule, and what
      follows when a mutex is never given back;
    - [Str], [Order], [Lru], [NetAddr]: what the source uses of Rust's standard
      library (strings, UTF-8 validity, lexicographic order, sorting, the text of
      socket addresses) and of the crate [lru].  The latter is an interface: the
      classes [LruOps] and [LruLaws] state its documented behaviour, an association
      list in order of use implements it, and the caches are proved against the
      interface.

    The messages:
    - [Constants]: src/dns/constants.rs and src/dns/error.rs, the registries
      (record types, classes, response codes) and the errors;
    - [Types]: the records and the sum type of src/dns/types.rs;
    - [Names] and [NameCodec]: the name functions of types.rs, lines 564 to 784
      (decode_domain_name with compression pointers, encode_domain_name,
      labels_to_string and the comparisons) and their theorems;
    - [Rdata]: parse_rdata and the parser of each record type;
    - [Message]: header, question, resource record and message from and to bytes,
      EDNS, and src/dns/wire.rs.

    The servers:
    - [Cache]: src/resolver/cache.rs, one definition per method.  The clock is a
      function from the number of the reading to nanoseconds, so that a method
      that calls [Instant::now] several times reads different times;
    - [Prefetch]: the task of src/server/udp.rs that looks up a list of domains at
      the start, with its semaphore and its timeouts;
    - [Server]: src/server/udp.rs and src/server/tcp.rs, the handling of one
      datagram and of one connection, over the interfaces [Resolver] (what the
      server asks of the resolver) and [TcpStream] (bytes to read and write).

    DNSSEC and the block list:
    - [Dnssec] and [Denial]: the synchronous part of src/dnssec/mod.rs, over the
      interface [Crypto] for the cryptographic libraries;
    - [Validation]: the asynchronous part (validate_response and the walk up the
      chain of trust, which fetches keys), over the interface [Net];
    - [TrustAnchor]: the constants of src/dnssec/trust_anchor.rs;
    - [Blocklist]: src/blocklist.rs, over the interfaces [Unicode] (letter case)
      and [Sources] (HTTP client and file reads); [BlocklistTests]: the unit tests
      of that file, run on the model.

    The resolver (src/resolver/root_hints.rs and src/resolver/recursive.rs):
    - [RootHints]: the table of root servers;
    - [Rtt]: the table of round-trip times, its file, and the health checks;
    - [Upstream]: the resolver's state, the pool of TCP connections, and a query to
      several servers with the times it records, over the interface [Env] (sockets,
      clocks, random numbers, and which of the running tasks ends next);
    - [Exchange]: theorems on the pool, and the exchange with a network that does
      not change;
    - [Resolver]: the resolution itself, from resolve_with_ad down to one
      iteration, its caches, the follow-up of referrals and aliases, the DNSSEC
      checks and the periodic tasks; its last definition implements the interface
      of [Server];
    - [Resolution], [Completeness], [Adversary]: its soundness and termination, its
      completeness on a well-behaved network, and what a hostile one can do.

    The program:
    - [Config]: src/config.rs, over the interface [ConfigFiles];
    - [App]: main in server mode, src/api.rs, and the receive loops with their
      permits and tasks, as a state with a step per event, over the interface
      [Engine], which the resolver implements;
    - [Process]: the process around [App]: the worker threads of the runtime, the
      sockets that may not be bound, the signal, the wait of main for its servers,
      the pause and the end; the Windows service;
    - [Served]: the invariant that joins cache, resolver and process;
    - [Concurrency]: the resolver's tasks under [Scheduler], in any order of their
      actions;
    - [Transport]: src/transport (DNS over TLS and HTTPS), and the resolution over
      HTTPS;
    - [Cli]: the modes that do one thing and exit: one query, the health check
      (src/health.rs), the arguments of the installed service;
    - [Installer]: the installation as a service (src/main.rs) and
      src/system_dns.rs, over the interface [System] for commands and files;
    - [Program]: main from the arguments to the exit code, with all modes.

    A Rust struct is a Record, an enum an Inductive in a Module of its name, a
    function a Definition of its name, or [Type_method] and the like where two
    methods share it; a loop with early returns is a Fixpoint; [Result] is
    [outcome] with the source's error type; [&mut self] is state passing, and in
    the resolver the monad [RM].  Names on the wire are lists of bytes, [u8] to
    [u64] are [Z], [usize] is [nat], [f64] is the Standard Library's [spec_float].

    ** What the theorems show

    - Names: the decoder is the declarative reading of RFC 1035 ([name_at]), it
      never panics, and it diverges on a pointer to a copy of itself; text and
      wire forms round trip.
    - Messages: what is encoded decodes unchanged, what was decoded is well typed
      and, if all its records are parsed and it is not too long, encodes to bytes
      with the same meaning, the encoder is the concatenation
      of the parts or an error; the inputs on which the code panics are given
      exactly.
    - Cache: the invariant of every reachable cache (rule induction over
      [cache_step]), what a lookup answers, to the second, that an inserted record is found until
      its time is over, serve-stale, and the insertion that is lost.
    - Servers: every packet sent answers the query it was sent for; what the reply
      holds, truncation, the AD bit; UDP and TCP agree; framing.
    - Resolver: whatever the servers answer, a resolution returns aliases from the
      name asked for and records of the type asked for; without DNSSEC it always
      ends, on a network without packets on which the decoder hangs; where a chain
      of delegations leads to the answer, all servers that answer agree and none
      truncates, it finds it.  With DNSSEC a hostile zone can keep it busy for ever, an unparsable
      signature gives the AD flag, and any record of a response is cached.  No
      pooled connection is used twice at a time.
    - DNSSEC: the key tag is that of RFC 4034, the signed data are canonical, when
      an RRset is Secure, the validity window, DS matching; canonical order and
      coverage of NSEC records, type bitmaps, base32hex; that no denial of
      existence is ever validated; that the walk up the chain ends Secure only at a
      pinned key, and that the validation of a response has its verdicts inverted.
    - Block list: the order in which custom records, whitelist and block list
      decide; what loading and refreshing do to the set; when parsing panics.
    - Round-trip times: the file reads back as written but is never used; the
      penalty of a dead server.
    - Concurrency: the cache's invariant and the answers' correctness under every
      interleaving; that, on a network without packets on which the decoder hangs,
      the mutexes are taken in one order, so that no task waits for ever, and
      without DNSSEC every question gets a result; that the
      sequential meaning of a resolution is one of its schedules; and that one
      reply over TCP, decoded under a mutex, ends the service for all clients.
    - Program: when main serves and with what; that tasks stay within their
      permits; that every packet answers a datagram and goes to its sender; that
      whatever has happened, what a client is told about a name is a chain for it;
      that most options, the block list among them, change no reply; that 1025
      small datagrams end the UDP service, and 512 silent connections the TCP one.
    - Process: that it puts out what its servers do; that a signal brings it to its
      end as long as no thread is lost, and that it ends for no other reason but a
      failed bind or a panic of the receive loop, after the pause; that one datagram
      takes a thread and with it that end, and as many as there are threads take all
      service; the exit code of every mode; that the prefetch looks up each domain
      once, how many at a time, and when it is over.
    - Installation: the file of the service reads back as the arguments; the DNS
      settings are changed whether or not the daemon runs.

    ** Fuel

    [decode_loop] takes as fuel one more than the length of the message: the loop
    of the source visits positions of the message only, so that a run longer than
    that visits a position twice and never ends: [decode_domain_name_safe] proves that
    it answers [Diverge] only when no fuel is enough.  [bitmap_loop], [lower_loop],
    [signer_loop], [delegation_loop] and [load_loop] take the length of their input,
    at most plus one; each round moves on by at least one byte.
    [resolve_recursive] takes the nesting of its calls: without DNSSEC twelve are
    enough ([resolution_terminates]); with DNSSEC no number is
    ([resolution_may_not_end]).  [validate_dnssec_chain] takes eleven and
    [validate_chain] twelve, as the source stops at a depth of ten.  The loop of the
    iterations has the source's own bound.

    ** What is not modelled

    In [App] and [Process] a task runs to its end when its turn comes;
    [Concurrency] has the steps in between, for the resolver, and drops a prefetch
    or a refresh of stale records half done when its time is up.  There the tasks
    of one query run one after the other in the order in which they end, and on
    their own after the first answer, and the addresses of name servers are
    resolved one after the other: a scheduler whose tasks wait for each other
    would be needed for more.

    Not modelled are the mutex of the map of server health, which one task alone
    takes; the order in which a sort touches the table of times; a signal that
    comes before its handler is installed; TLS, HTTP, serde, clap and tracing,
    which are libraries, and clients of them where the code only sets them up;
    what is printed; the path of the file of round-trip times on Windows; the
    panics of the Windows service when it cannot be registered; and src/dot.rs
    and src/tls.rs, which no module declaration names and which are therefore
    not part of the program. *)

From stdpp Require Export base option list numbers.
From stdpp Require Export gmap.
From Stdlib Require Export ZArith Lia.

#[global] Open Scope Z_scope.
#[global] Set Default Goal Selector "!".

(** ** Outcomes of Rust code

    A Rust function of the source either returns a value, returns an error
    of type [E], panics (slice index out of range, overflow of a checked
    operation) or never returns.  [Diverge] is what a definition with fuel
    yields when the fuel runs out; every such definition comes with a lemma
    that says which fuel makes [Diverge] mean non-termination. *)
Inductive outcome (E A : Type) : Type :=
  | Ok (a : A)
  | Err (e : E)
  | Panic
  | Diverge.
Arguments Ok {E A} a.
Arguments Err {E A} e.
Arguments Panic {E A}.
Arguments Diverge {E A}.

#[export] Instance outcome_ret {E} : MRet (outcome E) := fun A a => Ok a.
#[export] Instance outcome_bind {E} : MBind (outcome E) := fun A B f c =>
  match c with
  | Ok a => f a
  | Err e => Err e
  | Panic => Panic
  | Diverge => Diverge
  end.
#[export] Instance outcome_fmap {E} : FMap (outcome E) := fun A B f c =>
  match c with
  | Ok a => Ok (f a)
  | Err e => Err e
  | Panic => Panic
  | Diverge => Diverge
  end.

(** [Result::ok] on an outcome: an error becomes [None], a panic or a
    divergence stays what it is. *)
Definition outcome_ok {E A} (c : outcome E A) : outcome E (option A) :=
  match c with
  | Ok a => Ok (Some a)
  | Err _ => Ok None
  | Panic => Panic
  | Diverge => Diverge
  end.

(** The computation returns to its caller, with a value or with an error. *)
Definition returns {E A} (c : outcome E A) : Prop :=
  match c with
  | Ok _ | Err _ => True
  | Panic | Diverge => False
  end.

(** The computation does not panic. *)
Definition safe {E A} (c : outcome E A) : Prop := c ≠ Panic.

(** ** Machine integers

    Unsigned integers are [Z] with their range as a predicate; the
    conversions that truncate in the source are written out. *)
Definition u8 (x : Z) : Z := x mod 256.
Definition u16 (x : Z) : Z := x mod 65536.
Definition u32 (x : Z) : Z := x mod 4294967296.

Definition is_u8 (x : Z) : Prop := 0 <= x < 256.
Definition is_u16 (x : Z) : Prop := 0 <= x < 65536.
Definition is_u32 (x : Z) : Prop := 0 <= x < 4294967296.
Create HintDb width.
#[export] Hint Unfold is_u8 is_u16 is_u32 u8 u16 u32 : width.

Abbreviation bytes := (list Z).
Definition bytes_ok (l : bytes) : Prop := Forall is_u8 l.

(** [bool as u16] *)
Definition bit (b : bool) : Z := if b then 1 else 0.

(** [u16::from_be_bytes], [u32::from_be_bytes] and their inverses. *)
Definition be16 (a b : Z) : Z := a * 256 + b.
Definition be32 (a b c d : Z) : Z := ((a * 256 + b) * 256 + c) * 256 + d.
Definition to_be16 (x : Z) : bytes := [x / 256 mod 256; x mod 256].
Definition to_be32 (x : Z) : bytes :=
  [x / 16777216 mod 256; x / 65536 mod 256; x / 256 mod 256; x mod 256].

(** ** Slices

    [idx l i] is [l[i]], [slice l a b] is [&l[a..b]], [slice_from l a] is
    [&l[a..]]: out of range they panic.  [write_slice l a b src] is
    [l[a..b].copy_from_slice(src)], which also panics when the lengths
    differ. *)
Section slices.
Context {E : Type}.

Definition idx {A} (l : list A) (i : nat) : outcome E A :=
  match l !! i with
  | Some x => Ok x
  | None => Panic
  end.

Definition slice {A} (l : list A) (a b : nat) : outcome E (list A) :=
  if decide (a <= b /\ b <= length l)%nat then Ok (take (b - a) (drop a l)) else Panic.

Definition slice_from {A} (l : list A) (a : nat) : outcome E (list A) :=
  if decide (a <= length l)%nat then Ok (drop a l) else Panic.

Definition write_slice {A} (l : list A) (a b : nat) (src : list A) : outcome E (list A) :=
  if decide (a <= b /\ b <= length l /\ b - a = length src)%nat
  then Ok (take a l ++ src ++ drop b l)
  else Panic.

Definition rd_u16 (l : bytes) (i : nat) : outcome E Z :=
  a ← idx l i; b ← idx l (i + 1); Ok (be16 a b).

Definition rd_u32 (l : bytes) (i : nat) : outcome E Z :=
  a ← idx l i; b ← idx l (i + 1); c ← idx l (i + 2); d ← idx l (i + 3);
  Ok (be32 a b c d).
End slices.

(** ** Tactics *)

(** Split the goal and the hypotheses on matches and [decide]s, closing what
    the discriminations close. *)
Ltac split_cases :=
  repeat (case_match || case_decide); simplify_eq/=; try done.

(** Evaluate the bind of the outcome monad one step in a hypothesis. *)
Ltac inv_bind H :=
  match type of H with
  | mbind _ ?c = _ => let E := fresh "E" in destruct c eqn:E; simplify_eq/=
  end.

Ltac width := autounfold with width in *; lia.

(** ** Lemmas on outcomes *)

Lemma bind_Ok {E A B} (c : outcome E A) (f : A → outcome E B) b :
  c ≫= f = Ok b ↔ ∃ a, c = Ok a ∧ f a = Ok b.
Proof. destruct c; naive_solver. Qed.

Lemma returns_bind {E A B} (c : outcome E A) (f : A → outcome E B) :
  returns c → (∀ a, c = Ok a → returns (f a)) → returns (c ≫= f).
Proof. destruct c; naive_solver. Qed.

(** ** Lemmas on integers *)

Lemma u8_id x : is_u8 x → u8 x = x.
Proof. intros; apply Z.mod_small; width. Qed.
Lemma u16_id x : is_u16 x → u16 x = x.
Proof. intros; apply Z.mod_small; width. Qed.
Lemma u32_id x : is_u32 x → u32 x = x.
Proof. intros; apply Z.mod_small; width. Qed.

Lemma u16_range x : is_u16 (u16 x).
Proof. unfold is_u16, u16. apply Z.mod_pos_bound. lia. Qed.
Lemma u32_range x : is_u32 (u32 x).
Proof. unfold is_u32, u32. apply Z.mod_pos_bound. lia. Qed.

Lemma be16_range a b : is_u8 a → is_u8 b → is_u16 (be16 a b).
Proof. unfold be16. width. Qed.
Lemma be32_range a b c d :
  is_u8 a → is_u8 b → is_u8 c → is_u8 d → is_u32 (be32 a b c d).
Proof. unfold be32. width. Qed.

Lemma to_be16_bytes x : bytes_ok (to_be16 x).
Proof. unfold bytes_ok, to_be16. repeat constructor; apply Z.mod_pos_bound; lia. Qed.
Lemma to_be32_bytes x : bytes_ok (to_be32 x).
Proof. unfold bytes_ok, to_be32. repeat constructor; apply Z.mod_pos_bound; lia. Qed.
#[export] Hint Resolve to_be16_bytes to_be32_bytes u16_range u32_range : width.

Lemma be16_to_be16 x : is_u16 x → be16 (x / 256 mod 256) (x mod 256) = x.
Proof. unfold be16, is_u16. intros. Z.div_mod_to_equations. lia. Qed.
Lemma to_be16_be16 a b : is_u8 a → is_u8 b → to_be16 (be16 a b) = [a; b].
Proof.
  unfold to_be16, be16, is_u8. intros.
  f_equal; [|f_equal]; Z.div_mod_to_equations; lia.
Qed.
Lemma be32_to_be32 x :
  is_u32 x →
  be32 (x / 16777216 mod 256) (x / 65536 mod 256) (x / 256 mod 256) (x mod 256) = x.
Proof. unfold be32, is_u32. intros. Z.div_mod_to_equations. lia. Qed.
Lemma to_be32_be32 a b c d :
  is_u8 a → is_u8 b → is_u8 c → is_u8 d → to_be32 (be32 a b c d) = [a; b; c; d].
Proof.
  unfold to_be32, be32, is_u8. intros.
  repeat f_equal; Z.div_mod_to_equations; lia.
Qed.

(** Bit operations on one byte, as arithmetic. *)
Lemma lor_shiftl_add x y n : 0 ≤ n → 0 ≤ y < 2 ^ n → Z.lor (Z.shiftl x n) y = x * 2 ^ n + y.
Proof.
  intros Hn Hy. rewrite <-Z.shiftl_mul_pow2 by done.
  assert (Hand : Z.land (Z.shiftl x n) y = 0).
  { apply Z.bits_inj'. intros i Hi. rewrite Z.land_spec, Z.bits_0, Z.shiftl_spec by done.
    destruct (decide (i < n)).
    - by rewrite Z.testbit_neg_r by lia.
    - assert (Z.testbit y i = false) as ->; [|by rewrite andb_false_r].
      rewrite <-(Z.mod_small y (2 ^ n)) by done. apply Z.mod_pow2_bits_high. lia. }
  rewrite <-Z.lxor_lor by done. by rewrite Z.add_nocarry_lxor.
Qed.

Lemma land_ones_mod x n : 0 ≤ n → Z.land x (2 ^ n - 1) = x mod 2 ^ n.
Proof. intros. rewrite <-Z.land_ones by done. by rewrite Z.ones_equiv. Qed.

(** Facts about all bytes, by enumeration. *)
Lemma forall_u8 (P : Z → Prop) `{∀ x, Decision (P x)} :
  bool_decide (Forall P (seqZ 0 256)) = true → ∀ b, is_u8 b → P b.
Proof.
  intros Hall%bool_decide_eq_true b Hb. rewrite Forall_forall in Hall.
  apply Hall, elem_of_seqZ. width.
Qed.

(** ** Lemmas on slices *)

Section slice_lemmas.
Context {E : Type}.

Lemma idx_app_r {A} (pre post : list A) x i :
  i = length pre → idx (E:=E) (pre ++ x :: post) i = Ok x.
Proof.
  intros ->. unfold idx. by rewrite list_lookup_middle.
Qed.

Lemma idx_Ok {A} (l : list A) i x : idx (E:=E) l i = Ok x ↔ l !! i = Some x.
Proof. unfold idx. destruct (l !! i); naive_solver. Qed.

Lemma idx_in_range {A} (l : list A) i :
  (i < length l)%nat → ∃ x, idx (E:=E) l i = Ok x ∧ l !! i = Some x.
Proof.
  intros [x Hx]%lookup_lt_is_Some_2. exists x. by rewrite idx_Ok.
Qed.

Lemma slice_middle {A} (pre mid post : list A) a b :
  a = length pre → b = (length pre + length mid)%nat →
  slice (E:=E) (pre ++ mid ++ post) a b = Ok mid.
Proof.
  intros -> ->. unfold slice. rewrite decide_True by (rewrite !length_app; lia).
  rewrite drop_app_length, take_app_le by lia. f_equal. apply firstn_all2. lia.
Qed.

Lemma slice_in_range {A} (l : list A) a b :
  (a ≤ b)%nat → (b ≤ length l)%nat → slice (E:=E) l a b = Ok (take (b - a) (drop a l)).
Proof. intros. unfold slice. by rewrite decide_True. Qed.

Lemma slice_from_in_range {A} (l : list A) a :
  (a ≤ length l)%nat → slice_from (E:=E) l a = Ok (drop a l).
Proof. intros. unfold slice_from. by rewrite decide_True. Qed.

Lemma write_slice_in_range {A} (l : list A) a b src :
  (a ≤ b)%nat → (b ≤ length l)%nat → (b - a = length src)%nat →
  write_slice (E:=E) l a b src = Ok (take a l ++ src ++ drop b l).
Proof. intros. unfold write_slice. by rewrite decide_True. Qed.

(** Writing right behind what was already written. *)
Lemma write_slice_next (done src rest : bytes) a b :
  a = length done → b = (length done + length src)%nat → (length src ≤ length rest)%nat →
  write_slice (E:=E) (done ++ rest) a b src = Ok ((done ++ src) ++ drop (length src) rest).
Proof.
  intros -> -> Hle. rewrite write_slice_in_range by (rewrite ?length_app; lia).
  rewrite take_app_length, <-!app_assoc. do 3 f_equal.
  rewrite drop_app_ge by lia. f_equal. lia.
Qed.

(** Reading inside the part of a list that follows a known prefix. *)
Lemma idx_app_ge {A} (pre l : list A) i :
  (length pre ≤ i)%nat → idx (E:=E) (pre ++ l) i = idx l (i - length pre).
Proof. intros. unfold idx. by rewrite lookup_app_r. Qed.

(** Reading at a place where the rest of the data is known. *)
Lemma drop_next {A} (l w post : list A) i n :
  drop i l = w ++ post → n = length w → drop (i + n) l = post.
Proof. intros H ->. by rewrite <-drop_drop, H, drop_app_length. Qed.

Lemma idx_drop {A} (l : list A) i k : idx (E:=E) l (i + k) = idx (drop i l) k.
Proof. unfold idx. by rewrite lookup_drop. Qed.

Lemma rd_u16_drop l i x post :
  drop i l = to_be16 x ++ post → is_u16 x → rd_u16 (E:=E) l i = Ok x.
Proof.
  intros H Hx. unfold rd_u16. rewrite <-(Nat.add_0_r i) at 1. rewrite !idx_drop, H.
  simpl. by rewrite be16_to_be16.
Qed.

Lemma rd_u32_drop l i x post :
  drop i l = to_be32 x ++ post → is_u32 x → rd_u32 (E:=E) l i = Ok x.
Proof.
  intros H Hx. unfold rd_u32. rewrite <-(Nat.add_0_r i) at 1. rewrite !idx_drop, H.
  simpl. by rewrite be32_to_be32.
Qed.

Lemma slice_drop {A} (l w post : list A) a b :
  drop a l = w ++ post → b = (a + length w)%nat → (a ≤ length l)%nat →
  slice (E:=E) l a b = Ok w.
Proof.
  intros H -> Ha. assert (length (drop a l) = length l - a)%nat as Hl by apply length_drop.
  rewrite H, length_app in Hl. rewrite slice_in_range, H by lia.
  by rewrite Nat.add_sub', take_app_length.
Qed.

Lemma rd_u16_app (pre post : bytes) x i :
  is_u16 x → i = length pre → rd_u16 (E:=E) (pre ++ to_be16 x ++ post) i = Ok x.
Proof.
  intros Hx ->. unfold rd_u16. rewrite !(idx_app_ge pre) by lia.
  rewrite Nat.sub_diag, Nat.add_sub'. simpl. by rewrite be16_to_be16.
Qed.

Lemma rd_u32_app (pre post : bytes) x i :
  is_u32 x → i = length pre → rd_u32 (E:=E) (pre ++ to_be32 x ++ post) i = Ok x.
Proof.
  intros Hx ->. unfold rd_u32. rewrite !(idx_app_ge pre) by lia.
  rewrite Nat.sub_diag, !Nat.add_sub'. simpl.
  by rewrite be32_to_be32.
Qed.

Lemma rd_u16_in_range (l : bytes) i :
  (i + 2 ≤ length l)%nat → bytes_ok l → ∃ x, rd_u16 (E:=E) l i = Ok x ∧ is_u16 x.
Proof.
  intros Hi Hl. unfold rd_u16.
  destruct (idx_in_range l i) as (a & -> & Ha); [lia|].
  destruct (idx_in_range l (i + 1)) as (b & -> & Hb); [lia|].
  eexists; split; [reflexivity|]. unfold bytes_ok in Hl. rewrite Forall_lookup in Hl.
  apply be16_range; eauto.
Qed.

Lemma rd_u32_in_range (l : bytes) i :
  (i + 4 ≤ length l)%nat → bytes_ok l → ∃ x, rd_u32 (E:=E) l i = Ok x ∧ is_u32 x.
Proof.
  intros Hi Hl. unfold rd_u32.
  destruct (idx_in_range l i) as (a & -> & Ha); [lia|].
  destruct (idx_in_range l (i + 1)) as (b & -> & Hb); [lia|].
  destruct (idx_in_range l (i + 2)) as (c & -> & Hc); [lia|].
  destruct (idx_in_range l (i + 3)) as (d & -> & Hd); [lia|].
  eexists; split; [reflexivity|]. unfold bytes_ok in Hl. rewrite Forall_lookup in Hl.
  apply be32_range; eauto.
Qed.
End slice_lemmas.

(** ** Computations that do not panic *)

Section safe.
Context {E : Type}.

Lemma safe_Ok {A} (a : A) : safe (Ok (E:=E) a).
Proof. done. Qed.
Lemma safe_Err {A} e : safe (Err (E:=E) (A:=A) e).
Proof. done. Qed.
Lemma safe_bind {A B} (c : outcome E A) (f : A → outcome E B) :
  safe c → (∀ a, c = Ok a → safe (f a)) → safe (c ≫= f).
Proof. unfold safe. destruct c; naive_solver. Qed.
Lemma safe_outcome_ok {A} (c : outcome E A) : safe c → safe (outcome_ok c).
Proof. unfold safe. by destruct c. Qed.
Lemma safe_idx {A} (l : list A) i : (i < length l)%nat → safe (idx (E:=E) l i).
Proof. intros Hi. by destruct (idx_in_range (E:=E) l i Hi) as (x & -> & _). Qed.
Lemma safe_rd_u16 l i : (i + 2 ≤ length l)%nat → safe (rd_u16 (E:=E) l i).
Proof.
  intros Hi. unfold rd_u16.
  repeat (apply safe_bind; [apply safe_idx; lia|intros ? _]). apply safe_Ok.
Qed.
Lemma safe_rd_u32 l i : (i + 4 ≤ length l)%nat → safe (rd_u32 (E:=E) l i).
Proof.
  intros Hi. unfold rd_u32.
  repeat (apply safe_bind; [apply safe_idx; lia|intros ? _]). apply safe_Ok.
Qed.
Lemma safe_slice_from {A} (l : list A) a : (a ≤ length l)%nat → safe (slice_from (E:=E) l a).
Proof. intros. by rewrite slice_from_in_range. Qed.
Lemma safe_slice {A} (l : list A) a b :
  (a ≤ b)%nat → (b ≤ length l)%nat → safe (slice (E:=E) l a b).
Proof. intros. by rewrite slice_in_range. Qed.
Lemma safe_write_slice {A} (l : list A) a b src :
  (a ≤ b)%nat → (b ≤ length l)%nat → (b - a = length src)%nat →
  safe (write_slice (E:=E) l a b src).
Proof. intros. by rewrite write_slice_in_range. Qed.
End safe.

Create HintDb safe.
#[export] Hint Resolve safe_Ok safe_Err safe_outcome_ok : safe.
#[export] Hint Extern 1 (safe (idx _ _)) => apply safe_idx; lia : safe.
#[export] Hint Extern 1 (safe (rd_u16 _ _)) => apply safe_rd_u16; lia : safe.
#[export] Hint Extern 1 (safe (rd_u32 _ _)) => apply safe_rd_u32; lia : safe.
#[export] Hint Extern 1 (safe (slice_from _ _)) => apply safe_slice_from; lia : safe.
#[export] Hint Extern 1 (safe (slice _ _ _)) => apply safe_slice; lia : safe.

(** Prove that a chain of binds and conditionals does not panic. *)
Ltac safe_steps :=
  repeat first
    [ solve [auto with safe]
    | apply safe_bind; [|let a := fresh "a" in let H := fresh "H" in intros a H]
    | case_match | case_decide ].

(** ** Lemmas on lists *)

Lemma Forall2_in_r {A B} (P : A → B → Prop) l k y :
  Forall2 P l k → y ∈ k → ∃ x, x ∈ l ∧ P x y.
Proof.
  intros H [i Hi]%list_elem_of_lookup. eapply Forall2_lookup_r in H as (x & Hx & HP); [|exact Hi].
  exists x. split; [by eapply list_elem_of_lookup_2|done].
Qed.
Lemma Forall2_in_l {A B} (P : A → B → Prop) l k x :
  Forall2 P l k → x ∈ l → ∃ y, y ∈ k ∧ P x y.
Proof.
  intros H [i Hi]%list_elem_of_lookup. eapply Forall2_lookup_l in H as (y & Hy & HP); [|exact Hi].
  exists y. split; [by eapply list_elem_of_lookup_2|done].
Qed.

Lemma filter_none {A} (P : A → Prop) `{∀ x, Decision (P x)} l :
  Forall (λ x, ¬ P x) l → filter P l = [].
Proof. induction 1 as [|x l Hx _ IH]; [done|]. by rewrite filter_cons_False. Qed.
Lemma filter_all {A} (P : A → Prop) `{∀ x, Decision (P x)} l :
  Forall P l → filter P l = l.
Proof. induction 1 as [|x l Hx _ IH]; [done|]. by rewrite filter_cons_True, IH. Qed.

Lemma filter_partition_perm {A} (P : A → Prop) `{∀ x, Decision (P x)} (l : list A) :
  filter P l ++ filter (λ x, ¬ P x) l ≡ₚ l.
Proof.
  induction l as [|x l IH]; [done|]. destruct (decide (P x)).
  - rewrite filter_cons_True, filter_cons_False by tauto. cbn. by rewrite IH.
  - rewrite filter_cons_False, filter_cons_True by done.
    by rewrite <-Permutation_middle, IH.
Qed.

(** ** Lemmas on byte lists *)

Lemma bytes_ok_app l k : bytes_ok (l ++ k) ↔ bytes_ok l ∧ bytes_ok k.
Proof. apply Forall_app. Qed.
Lemma bytes_ok_cons x l : bytes_ok (x :: l) ↔ is_u8 x ∧ bytes_ok l.
Proof. apply Forall_cons. Qed.
Lemma bytes_ok_take n l : bytes_ok l → bytes_ok (take n l).
Proof. apply Forall_take. Qed.
Lemma bytes_ok_drop n l : bytes_ok l → bytes_ok (drop n l).
Proof. apply Forall_drop. Qed.
Lemma bytes_ok_lookup l i x : bytes_ok l → l !! i = Some x → is_u8 x.
Proof. unfold bytes_ok. rewrite Forall_lookup. eauto. Qed.
#[export] Hint Resolve bytes_ok_take bytes_ok_drop bytes_ok_lookup : width.

(** ** Multisets

    An element of a list is replaced by any number of smaller ones, wherever it stands. *)

Section multiset.
Context {A : Type} (R : A → A → Prop).

Definition replaces (l' l : list A) : Prop :=
  ∃ a rest new, l ≡ₚ a :: rest ∧ l' ≡ₚ new ++ rest ∧ Forall (λ b, R b a) new.

#[local] Instance replaces_proper : Proper ((≡ₚ) ==> (≡ₚ) ==> iff) replaces.
Proof.
  intros l1 l1' E1 l2 l2' E2. unfold replaces. by setoid_rewrite E1; setoid_rewrite E2.
Qed.

Lemma Acc_replaces_perm l l' : l ≡ₚ l' → Acc replaces l → Acc replaces l'.
Proof. intros E [H]. constructor. intros k Hk. apply H. by rewrite E. Qed.

Lemma Acc_replaces_app new l :
  Forall (λ b, ∀ l, Acc replaces l → Acc replaces (b :: l)) new → Acc replaces l → Acc replaces (new ++ l).
Proof. induction 1; cbn; auto. Qed.

Lemma Acc_replaces_cons a l : Acc R a → Acc replaces l → Acc replaces (a :: l).
Proof.
  intros Ha. revert l. induction Ha as [a _ IHa]. intros l Hl. induction Hl as [l Hl IHl].
  constructor. intros k (b & rest & new & El & Ek & Hnew).
  apply (Acc_replaces_perm (new ++ rest)); [done|].
  assert ((a = b ∧ l ≡ₚ rest) ∨ ∃ rest', rest ≡ₚ a :: rest' ∧ l ≡ₚ b :: rest') as [[-> E]|(rest' & Er & E)].
  { assert (a ∈ b :: rest) as [->|Hin]%elem_of_cons by (rewrite <-El; left).
    - left. split; [done|]. by apply Permutation_cons_inv in El.
    - right. apply elem_of_Permutation in Hin as [rest' Er]. exists rest'. split; [done|].
      rewrite Er, Permutation_swap in El. by apply Permutation_cons_inv in El. }
  - apply Acc_replaces_app; [|apply (Acc_replaces_perm l); [done|by constructor]].
    eapply Forall_impl; [done|]. auto.
  - apply (Acc_replaces_perm (a :: (new ++ rest'))).
    { by rewrite Er, <-Permutation_middle. }
    apply IHl. exists b, rest', new. done.
Qed.

Lemma Acc_replaces l : Forall (Acc R) l → Acc replaces l.
Proof.
  induction 1; [|by apply Acc_replaces_cons]. constructor.
  intros k (a & rest & new & El & _). by apply Permutation_nil_cons in El.
Qed.
End multiset.
