(* ===== verification/Constants.v ===== *)
(** * DNS protocol constants (src/dns/constants.rs)

    The numeric registries of the protocol as inductive types with the
    source's constructors, one Module per [enum], with the conversions of
    each [impl]; and the size and time constants. *)

From stdpp Require Import strings.
From S2P Require Import Prelude.
#[local] Open Scope Z_scope.

Module RecordType.

Inductive t : Type :=
  | A | NS | MD | MF | CNAME | SOA | MB | MG | MR | NULL | WKS | PTR | HINFO
  | MINFO | MX | TXT | RP | AFSDB | X25 | ISDN | RT | NSAP | NSAPPTR | SIG
  | KEY | PX | GPOS | AAAA | LOC | NXT | SRV | SSHFP | RRSIG | NSEC | DNSKEY
  | NSEC3 | TLSA | CAA | Unknown (v : Z).

#[global] Instance t_eq_dec : EqDecision t.
Proof. solve_decision. Defined.

Definition from_u16 (value : Z) : t :=
  match value with
  | 1 => A
  | 2 => NS
  | 3 => MD
  | 4 => MF
  | 5 => CNAME
  | 6 => SOA
  | 7 => MB
  | 8 => MG
  | 9 => MR
  | 10 => NULL
  | 11 => WKS
  | 12 => PTR
  | 13 => HINFO
  | 14 => MINFO
  | 15 => MX
  | 16 => TXT
  | 17 => RP
  | 18 => AFSDB
  | 19 => X25
  | 20 => ISDN
  | 21 => RT
  | 22 => NSAP
  | 23 => NSAPPTR
  | 24 => SIG
  | 25 => KEY
  | 26 => PX
  | 27 => GPOS
  | 28 => AAAA
  | 29 => LOC
  | 30 => NXT
  | 33 => SRV
  | 44 => SSHFP
  | 46 => RRSIG
  | 47 => NSEC
  | 48 => DNSKEY
  | 50 => NSEC3
  | 52 => TLSA
  | 257 => CAA
  | _ => Unknown value
  end.

Definition to_u16 (self : t) : Z :=
  match self with
  | A => 1
  | NS => 2
  | MD => 3
  | MF => 4
  | CNAME => 5
  | SOA => 6
  | MB => 7
  | MG => 8
  | MR => 9
  | NULL => 10
  | WKS => 11
  | PTR => 12
  | HINFO => 13
  | MINFO => 14
  | MX => 15
  | TXT => 16
  | RP => 17
  | AFSDB => 18
  | X25 => 19
  | ISDN => 20
  | RT => 21
  | NSAP => 22
  | NSAPPTR => 23
  | SIG => 24
  | KEY => 25
  | PX => 26
  | GPOS => 27
  | AAAA => 28
  | LOC => 29
  | NXT => 30
  | SRV => 33
  | SSHFP => 44
  | RRSIG => 46
  | NSEC => 47
  | DNSKEY => 48
  | NSEC3 => 50
  | TLSA => 52
  | CAA => 257
  | Unknown v => v
  end.

Definition name (self : t) : string :=
  match self with
  | A => "A"
  | NS => "NS"
  | CNAME => "CNAME"
  | SOA => "SOA"
  | PTR => "PTR"
  | MX => "MX"
  | TXT => "TXT"
  | AAAA => "AAAA"
  | SRV => "SRV"
  | RRSIG => "RRSIG"
  | NSEC => "NSEC"
  | DNSKEY => "DNSKEY"
  | CAA => "CAA"
  | _ => "TYPE??"
  end.

Lemma to_u16_from_u16 v : to_u16 (from_u16 v) = v.
Proof. destruct v as [|p|p]; try done. do 9 (try (destruct p; try reflexivity)). Qed.

Lemma from_u16_to_u16 r :
  (∀ v, r = Unknown v → from_u16 v = Unknown v) → from_u16 (to_u16 r) = r.
Proof. intros H. destruct r; solve [reflexivity | exact (H _ eq_refl)]. Qed.

End RecordType.

Module Class.

Inductive t : Type :=
  | IN | CS | CH | HS | None | Any | Unknown (v : Z).

#[global] Instance t_eq_dec : EqDecision t.
Proof. solve_decision. Defined.

Definition from_u16 (value : Z) : t :=
  match value with
  | 1 => IN
  | 2 => CS
  | 3 => CH
  | 4 => HS
  | 254 => None
  | 255 => Any
  | _ => Unknown value
  end.

Definition to_u16 (self : t) : Z :=
  match self with
  | IN => 1
  | CS => 2
  | CH => 3
  | HS => 4
  | None => 254
  | Any => 255
  | Unknown v => v
  end.

Lemma class_to_from v : to_u16 (from_u16 v) = v.
Proof. destruct v as [|p|p]; try done. do 9 (try (destruct p; try reflexivity)). Qed.

Lemma class_from_to r :
  (∀ v, r = Unknown v → from_u16 v = Unknown v) → from_u16 (to_u16 r) = r.
Proof. intros H. destruct r; solve [reflexivity | exact (H _ eq_refl)]. Qed.

End Class.

Module ResponseCode.

Inductive t : Type :=
  | NoError | FormErr | ServFail | NXDomain | NotImp | Refused | YXDomain
  | YXRRSet | NXRRSet | NotAuth | NotZone | Unknown (v : Z).

#[global] Instance t_eq_dec : EqDecision t.
Proof. solve_decision. Defined.

Definition from_u8 (value : Z) : t :=
  match value with
  | 0 => NoError
  | 1 => FormErr
  | 2 => ServFail
  | 3 => NXDomain
  | 4 => NotImp
  | 5 => Refused
  | 6 => YXDomain
  | 7 => YXRRSet
  | 8 => NXRRSet
  | 9 => NotAuth
  | 10 => NotZone
  | _ => Unknown value
  end.

Definition to_u8 (self : t) : Z :=
  match self with
  | NoError => 0
  | FormErr => 1
  | ServFail => 2
  | NXDomain => 3
  | NotImp => 4
  | Refused => 5
  | YXDomain => 6
  | YXRRSet => 7
  | NXRRSet => 8
  | NotAuth => 9
  | NotZone => 10
  | Unknown v => v
  end.

Lemma to_u8_from_u8 v : to_u8 (from_u8 v) = v.
Proof. destruct v as [|p|p]; try done. do 9 (try (destruct p; try reflexivity)). Qed.

Lemma from_u8_to_u8 r :
  (∀ v, r = Unknown v → from_u8 v = Unknown v) → from_u8 (to_u8 r) = r.
Proof. intros H. destruct r; solve [reflexivity | exact (H _ eq_refl)]. Qed.

End ResponseCode.

Module Opcode.

Inductive t : Type :=
  | Query | IQuery | Status | Notify | Update | Unknown (v : Z).

#[global] Instance t_eq_dec : EqDecision t.
Proof. solve_decision. Defined.

Definition from_u8 (value : Z) : t :=
  match value with
  | 0 => Query
  | 1 => IQuery
  | 2 => Status
  | 4 => Notify
  | 5 => Update
  | _ => Unknown value
  end.

End Opcode.

Definition MAX_UDP_PAYLOAD : nat := 4096.
Definition MAX_EDNS_PAYLOAD : Z := 8192.
Definition UDP_TIMEOUT_SECS : Z := 5.
Definition MAX_RETRIES : Z := 3.
Definition DEFAULT_TTL : Z := 3600.
Definition DNS_PORT : Z := 53.

(** The two conversions of a registry are inverse, the [Unknown] constructor
    standing for exactly the codes the registry does not list. *)
Definition codec_spec {T} (from : Z → T) (to : T → Z) (unknown : Z → T) : Prop :=
  (∀ v, to (from v) = v) ∧
  (∀ r, (∀ v, r = unknown v → from v = unknown v) → from (to r) = r) ∧
  (∀ v w, from v = from w → v = w).

Lemma codec_spec_intro {T} (from : Z → T) (to : T → Z) (unknown : Z → T) :
  (∀ v, to (from v) = v) →
  (∀ r, (∀ v, r = unknown v → from v = unknown v) → from (to r) = r) →
  codec_spec from to unknown.
Proof.
  intros H1 H2. split_and!; [done..|]. intros v w H. by rewrite <-(H1 v), <-(H1 w), H.
Qed.

(** Every 16-bit record type, every class and every response code survives
    the conversion to its enumeration and back, distinct codes stay distinct, and an
    enumerated value other than an [Unknown] that shadows a listed code comes back
    unchanged from its number. *)
Theorem registries_roundtrip :
  codec_spec RecordType.from_u16 RecordType.to_u16 RecordType.Unknown ∧
  codec_spec Class.from_u16 Class.to_u16 Class.Unknown ∧
  codec_spec ResponseCode.from_u8 ResponseCode.to_u8 ResponseCode.Unknown.
Proof.
  split_and!; apply codec_spec_intro;
    eauto using RecordType.to_u16_from_u16, RecordType.from_u16_to_u16,
      Class.class_to_from, Class.class_from_to,
      ResponseCode.to_u8_from_u8, ResponseCode.from_u8_to_u8.
Qed.
