(* ===== verification/Str.v ===== *)
(** * Byte strings

    The source's [&str] and [String] are UTF-8 byte strings, here [str]: a
    list of bytes.  This file holds the operations of Rust's standard
    library on them that the source uses (ASCII case, [split], [join],
    [trim_end_matches], [from_utf8]) with their lemmas. *)

From S2P Require Import Prelude.
#[local] Open Scope Z_scope.

Abbreviation str := (list Z).

(** ['.'] *)
Definition DOT : Z := 46.

(** [u8::to_ascii_lowercase], [make_ascii_lowercase] *)
Definition to_ascii_lowercase (b : Z) : Z :=
  if decide (65 <= b <= 90) then b + 32 else b.

Definition is_ascii_alphabetic (b : Z) : bool :=
  bool_decide (65 <= b <= 90 \/ 97 <= b <= 122).

Definition ascii_lower (l : str) : str := map to_ascii_lowercase l.

(** [[u8]::eq_ignore_ascii_case], [str::eq_ignore_ascii_case] *)
Definition eq_ignore_ascii_case (a b : str) : bool :=
  bool_decide (ascii_lower a = ascii_lower b).

(** [str::split(c)] for a one-byte separator: at least one piece. *)
Fixpoint split_on (c : Z) (l : str) : list str :=
  match l with
  | [] => [[]]
  | x :: l' =>
    if decide (x = c) then [] :: split_on c l'
    else match split_on c l' with
         | [] => [[x]]
         | p :: ps => (x :: p) :: ps
         end
  end.

(** [parts.join(sep)] *)
Fixpoint join (sep : str) (parts : list str) : str :=
  match parts with
  | [] => []
  | [p] => p
  | p :: ps => p ++ sep ++ join sep ps
  end.

(** [str::trim_start_matches(c)] and [str::trim_end_matches(c)] *)
Fixpoint trim_start_matches (c : Z) (l : str) : str :=
  match l with
  | [] => []
  | x :: l' => if decide (x = c) then trim_start_matches c l' else l
  end.
Definition trim_end_matches (c : Z) (l : str) : str :=
  reverse (trim_start_matches c (reverse l)).

(** [std::str::from_utf8]: the byte ranges of the validation table of the
    standard library (no overlong form, no surrogate, at most U+10FFFF). *)
Definition between (lo b hi : Z) : bool := bool_decide (lo <= b <= hi).
Definition utf8_cont (b : Z) : bool := between 128 b 191.
Definition utf8_lead2 (a b : Z) : bool := between 194 a 223 && utf8_cont b.
Definition utf8_lead3 (a b : Z) : bool :=
  (bool_decide (a = 224) && between 160 b 191) ||
  (between 225 a 236 && utf8_cont b) ||
  (bool_decide (a = 237) && between 128 b 159) ||
  (between 238 a 239 && utf8_cont b).
Definition utf8_lead4 (a b : Z) : bool :=
  (bool_decide (a = 240) && between 144 b 191) ||
  (between 241 a 243 && utf8_cont b) ||
  (bool_decide (a = 244) && between 128 b 143).

Fixpoint utf8_valid (l : bytes) : bool :=
  match l with
  | [] => true
  | a :: l1 =>
    if a <? 128 then utf8_valid l1 else
    match l1 with
    | b :: l2 =>
      if utf8_lead2 a b then utf8_valid l2 else
      match l2 with
      | c :: l3 =>
        if utf8_lead3 a b && utf8_cont c then utf8_valid l3 else
        match l3 with
        | d :: l4 =>
          if utf8_lead4 a b && utf8_cont c && utf8_cont d then utf8_valid l4 else false
        | [] => false
        end
      | [] => false
      end
    | [] => false
    end
  end.

Definition is_ascii (l : bytes) : Prop := Forall (λ b, 0 <= b < 128) l.

(** ** Lemmas *)

Lemma to_ascii_lowercase_idemp b :
  to_ascii_lowercase (to_ascii_lowercase b) = to_ascii_lowercase b.
Proof. unfold to_ascii_lowercase. repeat case_decide; lia. Qed.

Lemma to_ascii_lowercase_u8 b : is_u8 b → is_u8 (to_ascii_lowercase b).
Proof. unfold to_ascii_lowercase. case_decide; width. Qed.

Lemma to_ascii_lowercase_small b : b < 65 → to_ascii_lowercase b = b.
Proof. unfold to_ascii_lowercase. case_decide; lia. Qed.

Lemma to_ascii_lowercase_dot b : to_ascii_lowercase b = DOT ↔ b = DOT.
Proof. unfold to_ascii_lowercase, DOT. case_decide; lia. Qed.

Lemma ascii_lower_idemp l : ascii_lower (ascii_lower l) = ascii_lower l.
Proof.
  unfold ascii_lower. rewrite map_map. apply map_ext. apply to_ascii_lowercase_idemp.
Qed.

Lemma length_ascii_lower l : length (ascii_lower l) = length l.
Proof. apply length_map. Qed.

Lemma ascii_lower_app l k : ascii_lower (l ++ k) = ascii_lower l ++ ascii_lower k.
Proof. apply map_app. Qed.

Lemma ascii_lower_bytes l : bytes_ok l → bytes_ok (ascii_lower l).
Proof.
  unfold bytes_ok, ascii_lower. rewrite !Forall_forall. intros H x.
  rewrite list_elem_of_In, in_map_iff. intros (y & <- & Hy).
  apply to_ascii_lowercase_u8, H. by apply list_elem_of_In.
Qed.

Lemma eq_ignore_ascii_case_true a b :
  eq_ignore_ascii_case a b = true ↔ ascii_lower a = ascii_lower b.
Proof. apply bool_decide_eq_true. Qed.

Lemma split_on_nonempty c l : split_on c l ≠ [].
Proof. destruct l; simpl; [done|]. case_decide; [done|]. by destruct (split_on c l). Qed.

(** Splitting a piece free of the separator, then the rest. *)
Lemma split_on_app c p l :
  c ∉ p → split_on c (p ++ c :: l) = p :: split_on c l.
Proof.
  induction p as [|x p IH]; intros Hp; simpl.
  - by rewrite decide_True.
  - apply not_elem_of_cons in Hp as [Hx Hp]. rewrite decide_False by done.
    by rewrite IH.
Qed.

Lemma split_on_free c p : c ∉ p → split_on c p = [p].
Proof.
  induction p as [|x p IH]; intros Hp; simpl; [done|].
  apply not_elem_of_cons in Hp as [Hx Hp]. rewrite decide_False by done. by rewrite IH.
Qed.

Lemma split_on_join c ps :
  ps ≠ [] → Forall (λ p, c ∉ p) ps → split_on c (join [c] ps) = ps.
Proof.
  intros Hne Hps. induction Hps as [|p ps Hp Hps IH]; [done|].
  destruct ps as [|q ps]; simpl.
  - by apply split_on_free.
  - rewrite split_on_app by done. f_equal. by apply IH.
Qed.

Lemma join_cons sep p q ps : join sep (p :: q :: ps) = p ++ sep ++ join sep (q :: ps).
Proof. done. Qed.

Lemma join_split_on c l : join [c] (split_on c l) = l.
Proof.
  induction l as [|x l IH]; simpl; [done|].
  case_decide as Hx.
  - subst. destruct (split_on c l) as [|p ps] eqn:E; [by apply split_on_nonempty in E|].
    rewrite join_cons, IH. done.
  - destruct (split_on c l) as [|p ps] eqn:E; [by apply split_on_nonempty in E|].
    destruct ps; simpl in *; by f_equal.
Qed.

Lemma split_on_pieces_free c l : Forall (λ p, c ∉ p) (split_on c l).
Proof.
  induction l as [|x l IH]; simpl.
  - repeat constructor. set_solver.
  - case_decide.
    + constructor; [set_solver|done].
    + destruct (split_on c l); inversion IH; subst; repeat constructor; set_solver.
Qed.

Lemma trim_end_matches_id c l :
  last l ≠ Some c → trim_end_matches c l = l.
Proof.
  intros H. unfold trim_end_matches. destruct (reverse l) as [|x k] eqn:E.
  - apply (f_equal reverse) in E. by rewrite reverse_involutive in E.
  - simpl. rewrite decide_False.
    + by rewrite <-E, reverse_involutive.
    + intros ->. apply H. apply (f_equal reverse) in E.
      rewrite reverse_involutive, reverse_cons in E. subst. by rewrite last_snoc.
Qed.

Lemma trim_end_matches_snoc c l : trim_end_matches c (l ++ [c]) = trim_end_matches c l.
Proof.
  unfold trim_end_matches. rewrite reverse_app. simpl. by rewrite decide_True.
Qed.

Lemma last_join_free c ps :
  ps ≠ [] → Forall (λ p, p ≠ [] ∧ c ∉ p) ps → last (join [c] ps) ≠ Some c.
Proof.
  intros Hne Hps. induction Hps as [|p ps [Hp1 Hp2] Hps IH]; [done|].
  assert (Hlast : ∀ l : str, l ≠ [] → c ∉ l → last l ≠ Some c).
  { intros l _ Hl Hc. apply Hl. by apply last_Some_elem_of. }
  destruct ps as [|q ps]; [by apply Hlast|].
  rewrite join_cons, app_assoc, last_app. case_match eqn:E; [by apply IH|].
  apply last_None in E. inversion Hps as [|? ? [Hq _] _]; subst.
  destruct q, ps; simpl in E; done.
Qed.

Lemma utf8_valid_ascii l : is_ascii l → utf8_valid l = true.
Proof.
  induction 1 as [|b l Hb _ IH]; simpl; [done|]. by rewrite (proj2 (Z.ltb_lt _ _)) by lia.
Qed.
