(* ===== verification/Types.v ===== *)
(** * Data of a DNS message (src/dns/types.rs, src/dns/error.rs)

    The records and tagged unions the rest of the development computes
    with: header, question, resource record, parsed RDATA, message, EDNS0
    records, and the errors.  Machine integers are [Z], byte vectors are
    lists of [Z], Rust [String]s are UTF-8 byte lists ([Str.str]). *)

From stdpp Require Import strings pretty.
From S2P Require Import Prelude Str.
#[local] Open Scope Z_scope.

(** [struct Header] *)
Record Header := mkHeader {
  h_id : Z;
  h_qr : bool;
  h_opcode : Z;
  h_aa : bool;
  h_tc : bool;
  h_rd : bool;
  h_ra : bool;
  h_z : Z;
  h_ad : bool;
  h_cd : bool;
  h_rcode : Z;
  h_qdcount : Z;
  h_ancount : Z;
  h_nscount : Z;
  h_arcount : Z;
}.
#[export] Instance Header_eq_dec : EqDecision Header.
Proof. solve_decision. Defined.

(** [struct Question] *)
Record Question := mkQuestion {
  q_name : bytes;
  q_type : Z;
  q_class : Z;
}.
#[export] Instance Question_eq_dec : EqDecision Question.
Proof. solve_decision. Defined.

(** [enum RData]; addresses are kept as their octets. *)
Module RData.
Inductive t : Type :=
  | A (octets : bytes)
  | AAAA (octets : bytes)
  | CNAME (name : bytes)
  | NS (name : bytes)
  | PTR (name : bytes)
  | MX (preference : Z) (exchange : bytes)
  | SOA (mname rname : bytes) (serial refresh retry expire minimum : Z)
  | TXT (strings : list str)
  | SRV (priority weight port : Z) (target : bytes)
  | RRSIG (type_covered algorithm labels original_ttl signature_expiration
           signature_inception key_tag : Z) (signer_name signature : bytes)
  | DNSKEY (flags protocol algorithm : Z) (public_key : bytes)
  | NSEC (next_domain type_bit_maps : bytes)
  | DS (key_tag algorithm digest_type : Z) (digest : bytes)
  | NSEC3 (hash_algorithm flags iterations : Z) (salt next_hashed_owner type_bit_maps : bytes)
  | Unknown (original : bytes).
#[global] Instance t_eq_dec : EqDecision t.
Proof. solve_decision. Defined.
End RData.

(** [struct ResourceRecord] *)
Record ResourceRecord := mkRR {
  rr_name : bytes;
  rr_rtype : Z;
  rr_rclass : Z;
  rr_ttl : Z;
  rr_rdlength : Z;
  rr_rdata : bytes;
  rr_parsed : option RData.t;
}.
#[export] Instance ResourceRecord_eq_dec : EqDecision ResourceRecord.
Proof. solve_decision. Defined.

(** [struct Message] *)
Record Message := mkMessage {
  m_header : Header;
  m_questions : list Question;
  m_answers : list ResourceRecord;
  m_authorities : list ResourceRecord;
  m_additionals : list ResourceRecord;
}.
#[export] Instance Message_eq_dec : EqDecision Message.
Proof. solve_decision. Defined.

(** [enum EdnsOption], [struct OptRecord] *)
Module EdnsOption.
Inductive t : Type :=
  | Nsid
  | ClientSubnet (family source_mask scope_mask : Z) (address : bytes)
  | Cookie (client server : bytes)
  | Padding (data : bytes)
  | Other (code : Z) (data : bytes).
End EdnsOption.

Record OptRecord := mkOptRecord {
  o_udp_payload_size : Z;
  o_ext_rcode : Z;
  o_edns_version : Z;
  o_dnssec_ok : bool;
  o_options : list EdnsOption.t;
}.

(** [std::io::Error]: the kind the source tests for, and its text. *)
Inductive io_kind := IoUnexpectedEof | IoOther.
Record io_error := mkIoError { io_err_kind : io_kind; io_err_text : string }.

(** [enum DnsError] *)
Module DnsError.
Inductive t : Type :=
  | Malformed (msg : string)
  | NxDomain (soa : list ResourceRecord) (ad : bool)
  | Transport (msg : string)
  | BufferTooSmall (need have : nat)
  | UnknownRecordType (rtype : Z)
  | InvalidPointer (offset : nat)
  | InvalidLabel (msg : string)
  | UnexpectedEof
  | Io (e : io_error).

(** [impl fmt::Display for DnsError] *)
Definition fmt (self : t) : string :=
  (match self with
   | Malformed msg => "malformed DNS message: " +:+ msg
   | NxDomain _ _ => "NXDOMAIN"
   | Transport msg => "transport error: " +:+ msg
   | BufferTooSmall need have =>
     "buffer too small: need " +:+ pretty need +:+ " bytes, have " +:+ pretty have
   | UnknownRecordType t => "unknown record type: " +:+ pretty t
   | InvalidPointer p => "invalid compression pointer at offset " +:+ pretty p
   | InvalidLabel msg => "invalid label: " +:+ msg
   | UnexpectedEof => "unexpected end of data"
   | Io e => "I/O error: " +:+ io_err_text e
   end)%string.
End DnsError.

(** [type DnsResult<T> = Result<T, DnsError>], with the two ways a call can
    fail to return. *)
Abbreviation DnsResult := (outcome DnsError.t).

(** ** Well-formedness: every field within its width *)

Record header_ok (h : Header) : Prop := {
  header_ok_id : is_u16 (h_id h);
  header_ok_opcode : 0 <= h_opcode h < 16;
  header_ok_z : 0 <= h_z h < 4;
  header_ok_rcode : 0 <= h_rcode h < 16;
  header_ok_qdcount : is_u16 (h_qdcount h);
  header_ok_ancount : is_u16 (h_ancount h);
  header_ok_nscount : is_u16 (h_nscount h);
  header_ok_arcount : is_u16 (h_arcount h);
}.
