(* ===== verification/Names.v ===== *)
(** * Domain names (src/dns/types.rs, lines 564-784)

    Encoding and decoding of domain names in label format, comparison,
    label counting and suffixes.  The loops of the source are [Fixpoint]s
    with fuel; [decode_domain_name] runs its loop with one unit of fuel more
    than the message has bytes, and [decode_fuel_enough] shows that running
    out of it means that the loop of the source never ends. *)

From stdpp Require Import strings.
From S2P Require Import Prelude Str Types.
#[local] Open Scope Z_scope.

(** ** Encoding *)

(** [encoded.iter_mut().rev().take(n)] with [make_ascii_lowercase] on each. *)
Definition lower_last (n : nat) (encoded : bytes) : bytes :=
  take (length encoded - n) encoded ++ ascii_lower (drop (length encoded - n) encoded).

Fixpoint encode_labels (labels : list str) (encoded : bytes) : DnsResult bytes :=
  match labels with
  | [] => Ok (encoded ++ [0])
  | label :: rest =>
    if decide (label = []) then
      Err (DnsError.InvalidLabel "empty label in domain name")
    else if decide (63 < length label)%nat then
      Err (DnsError.InvalidLabel "label exceeds 63 characters")
    else
      let len_byte := u8 (Z.of_nat (length label)) in
      let encoded := encoded ++ [len_byte] in
      let encoded := encoded ++ label in
      encode_labels rest (lower_last (length label) encoded)
  end.

Definition encode_domain_name (name : str) : DnsResult bytes :=
  let name := trim_end_matches DOT name in
  if decide (name = []) then Ok [0] else encode_labels (split_on DOT name) [].

(** The loop over the bytes of one label of [encode_domain_name_mixed]; the
    remainder by [mask.len()] panics on an empty mask. *)
Fixpoint mix_label (mask : list bool) (label : str) (bit_idx : nat) (encoded : bytes)
    : DnsResult (bytes * nat) :=
  match label with
  | [] => Ok (encoded, bit_idx)
  | b :: rest =>
    if is_ascii_alphabetic b then
      if decide (mask = []) then Panic else
      let flip := default false (mask !! (bit_idx `mod` length mask)%nat) in
      let bit_idx := S bit_idx in
      if flip
      then mix_label mask rest bit_idx (encoded ++ [Z.lxor b 32])
      else mix_label mask rest bit_idx (encoded ++ [b])
    else mix_label mask rest bit_idx (encoded ++ [b])
  end.

Fixpoint encode_labels_mixed (mask : list bool) (labels : list str) (bit_idx : nat)
    (encoded : bytes) : DnsResult bytes :=
  match labels with
  | [] => Ok (encoded ++ [0])
  | label :: rest =>
    if decide (label = []) then
      Err (DnsError.InvalidLabel "empty label in domain name")
    else if decide (63 < length label)%nat then
      Err (DnsError.InvalidLabel "label exceeds 63 characters")
    else
      '(encoded, bit_idx) ←
        mix_label mask label bit_idx (encoded ++ [u8 (Z.of_nat (length label))]);
      encode_labels_mixed mask rest bit_idx encoded
  end.

Definition encode_domain_name_mixed (name : str) (mask : list bool) : DnsResult bytes :=
  let name := trim_end_matches DOT name in
  if decide (name = []) then Ok [0] else encode_labels_mixed mask (split_on DOT name) 0 [].

(** ** Decoding *)

(** The [loop] of [decode_domain_name]. *)
Fixpoint decode_loop (fuel : nat) (data : bytes) (offset pos : nat)
    (jumped : bool) (jump_pos : nat) (result : bytes) : DnsResult (bytes * nat) :=
  match fuel with
  | O => Diverge
  | S fuel =>
    if decide (length data <= pos)%nat then Err DnsError.UnexpectedEof else
    byte ← idx data pos;
    if decide (byte = 0) then
      let result := result ++ [0] in
      let pos := (pos + 1)%nat in
      let jump_pos := if jumped then jump_pos else pos in
      Ok (result, jump_pos)
    else if decide (Z.land byte 192 = 192) then
      if decide (length data <= pos + 1)%nat then Err DnsError.UnexpectedEof else
      low ← idx data (pos + 1);
      let ptr := Z.to_nat (Z.lor (Z.shiftl (Z.land byte 63) 8) low) in
      if decide (offset <= ptr)%nat then Err (DnsError.InvalidPointer ptr) else
      let jump_pos := if jumped then jump_pos else (pos + 2)%nat in
      decode_loop fuel data offset ptr true jump_pos result
    else
      let len := Z.to_nat byte in
      if decide (63 < len)%nat then Err (DnsError.InvalidLabel "label exceeds 63 bytes") else
      let pos := (pos + 1)%nat in
      if decide (length data < pos + len)%nat then Err DnsError.UnexpectedEof else
      seg ← slice data pos (pos + len);
      decode_loop fuel data offset (pos + len) jumped jump_pos (result ++ [byte] ++ seg)
  end.

Definition decode_domain_name (data : bytes) (offset : nat) : DnsResult (bytes * nat) :=
  decode_loop (S (length data)) data offset offset false 0 [].

(** ** Printing *)

(** The [while] loop of [labels_to_string]. *)
Fixpoint labels_loop (fuel : nat) (labels : bytes) (i : nat) (parts : list str) : list str :=
  match fuel with
  | O => parts
  | S fuel =>
    match labels !! i with
    | None => parts
    | Some b =>
      let len := Z.to_nat b in
      if decide (len = 0)%nat then parts else
      let i := (i + 1)%nat in
      if decide (length labels < i + len)%nat then parts else
      let s := take len (drop i labels) in
      let parts := if utf8_valid s then parts ++ [s] else parts in
      labels_loop fuel labels (i + len) parts
    end
  end.

Definition labels_to_string (labels : bytes) : str :=
  let parts := labels_loop (S (length labels)) labels 0 [] in
  if decide (parts = []) then [DOT] else join [DOT] parts.

(** ** Comparison *)

(** The [for] loop over one label of [domain_names_equal], on the two rests. *)
Fixpoint match_label (n : nat) (a b : bytes) : option (bytes * bytes) :=
  match n with
  | O => Some (a, b)
  | S n =>
    match a, b with
    | x :: a, y :: b =>
      if decide (to_ascii_lowercase x = to_ascii_lowercase y) then match_label n a b else None
    | _, _ => None
    end
  end.

Fixpoint names_equal_loop (fuel : nat) (a b : bytes) : bool :=
  match fuel with
  | O => false
  | S fuel =>
    match a, b with
    | [], [] => true
    | [], _ | _, [] => false
    | la :: a, lb :: b =>
      if decide (la ≠ lb) then false else
      if decide (la = 0) then true else
      match match_label (Z.to_nat la) a b with
      | None => false
      | Some (a, b) => names_equal_loop fuel a b
      end
    end
  end.

Definition domain_names_equal (a b : bytes) : bool := names_equal_loop (S (length a)) a b.

(** ** Labels *)

Fixpoint count_labels_loop (fuel : nat) (name : bytes) (i count : nat) : nat :=
  match fuel with
  | O => count
  | S fuel =>
    match name !! i with
    | None => count
    | Some b =>
      let len := Z.to_nat b in
      if decide (len = 0)%nat then count
      else count_labels_loop fuel name (i + (1 + len)) (count + 1)
    end
  end.

Definition count_labels (name : bytes) : nat := count_labels_loop (S (length name)) name 0 0.

Fixpoint name_prefix_loop (fuel : nat) (name : bytes) (skip i count : nat) (result : bytes)
    : DnsResult bytes :=
  match fuel with
  | O => Ok result
  | S fuel =>
    match name !! i with
    | None => Ok result
    | Some b =>
      let len := Z.to_nat b in
      if decide (len = 0)%nat then Ok (result ++ [0]) else
      result ← (if decide (skip <= count)%nat
                then s ← slice name (i + 1) (i + 1 + len); Ok (result ++ [b] ++ s)
                else Ok result);
      name_prefix_loop fuel name skip (i + (1 + len)) (count + 1) result
    end
  end.

Definition name_prefix (name : bytes) (n : nat) : DnsResult bytes :=
  let total := count_labels name in
  if decide (total <= n)%nat then Ok name else
  let skip := (total - n)%nat in
  result ← name_prefix_loop (S (length name)) name skip 0 0 [];
  Ok (if decide (last result = Some 0) then result else result ++ [0]).

(** ** Specification: names as sequences of labels *)

Definition label_ok (l : str) : Prop := bytes_ok l ∧ (1 <= length l <= 63)%nat.
Definition labels_ok (ls : list str) : Prop := Forall label_ok ls.

Definition label_wire (l : str) : bytes := Z.of_nat (length l) :: l.

(** The uncompressed wire form: length-prefixed labels, then the root. *)
Definition labels_wire (ls : list str) : bytes := concat (map label_wire ls).
Definition name_wire (ls : list str) : bytes := labels_wire ls ++ [0].

(** ** Lemmas on the wire form *)

Lemma labels_wire_cons l ls : labels_wire (l :: ls) = label_wire l ++ labels_wire ls.
Proof. done. Qed.
Lemma labels_wire_app ls ks : labels_wire (ls ++ ks) = labels_wire ls ++ labels_wire ks.
Proof. unfold labels_wire. by rewrite map_app, concat_app. Qed.
Lemma name_wire_cons l ls : name_wire (l :: ls) = Z.of_nat (length l) :: l ++ name_wire ls.
Proof. unfold name_wire. rewrite labels_wire_cons. simpl. by rewrite <-app_assoc. Qed.
Lemma name_wire_nil : name_wire [] = [0].
Proof. done. Qed.
Lemma name_wire_app ls ks : name_wire (ls ++ ks) = labels_wire ls ++ name_wire ks.
Proof. unfold name_wire. by rewrite labels_wire_app, app_assoc. Qed.
Lemma name_wire_nonempty ls : (1 ≤ length (name_wire ls))%nat.
Proof. unfold name_wire. rewrite length_app. simpl. lia. Qed.

Lemma labels_ok_cons l ls : labels_ok (l :: ls) ↔ label_ok l ∧ labels_ok ls.
Proof. apply Forall_cons. Qed.
Lemma labels_ok_app ls ks : labels_ok (ls ++ ks) ↔ labels_ok ls ∧ labels_ok ks.
Proof. apply Forall_app. Qed.

Lemma label_wire_bytes l : label_ok l → bytes_ok (label_wire l).
Proof. intros [Hb Hl]. apply bytes_ok_cons. split; [width|done]. Qed.
Lemma labels_wire_bytes ls : labels_ok ls → bytes_ok (labels_wire ls).
Proof.
  induction 1; [constructor|]. apply bytes_ok_app. eauto using label_wire_bytes.
Qed.
Lemma name_wire_bytes ls : labels_ok ls → bytes_ok (name_wire ls).
Proof.
  intros. apply bytes_ok_app. split; [by apply labels_wire_bytes|].
  repeat constructor; width.
Qed.

(** There are at most as many labels as bytes. *)
Lemma length_labels_wire ls : (length ls ≤ length (labels_wire ls))%nat.
Proof.
  induction ls as [|l ls IH]; [done|].
  rewrite labels_wire_cons, length_app. simpl. lia.
Qed.

Lemma label_ok_lower l : label_ok l → label_ok (ascii_lower l).
Proof.
  intros [Hb Hl]. split; [by apply ascii_lower_bytes|]. by rewrite length_ascii_lower.
Qed.
Lemma labels_ok_lower ls : labels_ok ls → labels_ok (map ascii_lower ls).
Proof. induction 1; constructor; eauto using label_ok_lower. Qed.
Create HintDb names.
#[export] Hint Resolve label_ok_lower labels_ok_lower name_wire_bytes labels_wire_bytes : names.

(** A label the encoder accepts: its length fits the wire format. *)
Definition encodable (l : str) : Prop := (1 ≤ length l ≤ 63)%nat.

Lemma label_ok_encodable l : label_ok l → encodable l.
Proof. by intros [_ ?]. Qed.
Lemma labels_ok_encodable ls : labels_ok ls → Forall encodable ls.
Proof. intros H. eapply Forall_impl; [apply H|apply label_ok_encodable]. Qed.
Lemma encodable_lower ls : Forall encodable (map ascii_lower ls) ↔ Forall encodable ls.
Proof.
  rewrite Forall_map. apply Forall_iff. intros l. unfold compose, encodable.
  by rewrite length_ascii_lower.
Qed.

(** Lowercasing a wire name lowercases its labels: a length byte is below 'A'. *)
Lemma ascii_lower_name_wire ls :
  Forall encodable ls → ascii_lower (name_wire ls) = name_wire (map ascii_lower ls).
Proof.
  induction 1 as [|l ls Hl Hls IH]; [done|]. unfold encodable in Hl.
  simpl map. rewrite !name_wire_cons. simpl.
  rewrite to_ascii_lowercase_small by lia. by rewrite length_ascii_lower, ascii_lower_app, IH.
Qed.

(** The wire form determines the labels. *)
Lemma name_wire_inj ls ks :
  labels_ok ls → labels_ok ks → name_wire ls = name_wire ks → ls = ks.
Proof.
  intros Hls. revert ks. induction Hls as [|l ls [Hb Hl] Hls IH]; intros ks Hks.
  - destruct Hks as [|k ks [_ Hk] _]; [done|]. rewrite name_wire_cons. intros [= H]. lia.
  - destruct Hks as [|k ks [_ Hk] Hks].
    + rewrite name_wire_cons. intros [= H]. lia.
    + rewrite !name_wire_cons. intros [= Hlen H].
      apply app_inj_1 in H as [-> H]; [|lia]. f_equal. by apply IH.
Qed.

(** ** Lemmas on encoding *)

Lemma lower_last_snoc enc l : lower_last (length l) (enc ++ l) = enc ++ ascii_lower l.
Proof.
  unfold lower_last. rewrite length_app, Nat.add_sub.
  by rewrite take_app_length, drop_app_length.
Qed.

Lemma encode_labels_Ok ls enc :
  Forall encodable ls →
  encode_labels ls enc = Ok (enc ++ name_wire (map ascii_lower ls)).
Proof.
  intros Hls. revert enc. induction Hls as [|l ls Hl Hls IH]; intros enc; [done|].
  simpl. unfold encodable in Hl.
  rewrite decide_False by (intros ->; simpl in Hl; lia). rewrite decide_False by lia.
  rewrite lower_last_snoc, IH, name_wire_cons, length_ascii_lower.
  rewrite u8_id by width. by rewrite <-!app_assoc.
Qed.

Lemma encode_labels_inv ls enc r :
  encode_labels ls enc = Ok r → Forall encodable ls.
Proof.
  revert enc. induction ls as [|l ls IH]; intros enc; simpl; [constructor|].
  repeat case_decide; try done. intros H'%IH. constructor; [|done].
  unfold encodable. destruct l; simpl in *; [done|lia].
Qed.

Lemma encode_labels_Err ls enc :
  ¬ Forall encodable ls → ∃ msg, encode_labels ls enc = Err (DnsError.InvalidLabel msg).
Proof.
  revert enc. induction ls as [|l ls IH]; intros enc H; simpl; [by destruct H|].
  repeat case_decide; eauto. apply IH. intros Hls. apply H. constructor; [|done].
  unfold encodable. destruct l; simpl in *; [done|lia].
Qed.

(** [b ^ 0x20] on a letter. *)
Lemma lxor_case b :
  65 ≤ b ≤ 122 → Z.lxor b 32 = if decide (97 ≤ b) then b - 32 else
                               if decide (b ≤ 95) then b + 32 else 64.
Proof.
  intros Hb. assert (H : b ∈ seqZ 65 58) by (apply elem_of_seqZ; lia). clear Hb. revert b H.
  apply Forall_forall. refine (bool_decide_unpack _ _). vm_compute. exact I.
Qed.

Lemma mix_label_lower mask l bit enc :
  mask ≠ [] →
  ∃ enc' bit', mix_label mask l bit enc = Ok (enc ++ enc', bit') ∧
    ascii_lower enc' = ascii_lower l ∧ length enc' = length l.
Proof.
  intros Hm. revert bit enc. induction l as [|b l IH]; intros bit enc; simpl.
  { exists [], bit. by rewrite app_nil_r. }
  assert (Hpush : ∀ c, to_ascii_lowercase c = to_ascii_lowercase b → ∀ bit,
    ∃ enc' bit', mix_label mask l bit (enc ++ [c]) = Ok (enc ++ enc', bit') ∧
      ascii_lower enc' = ascii_lower (b :: l) ∧ length enc' = length (b :: l)).
  { intros c Hc bit0. destruct (IH bit0 (enc ++ [c])) as (enc' & bit' & -> & Hlow & Hlen).
    exists (c :: enc'), bit'. rewrite <-app_assoc. simpl.
    split_and!; [done| |by f_equal]. simpl. by rewrite Hc, Hlow. }
  destruct (is_ascii_alphabetic b) eqn:Hb; [|by apply Hpush].
  rewrite decide_False by done. case_match; [|by apply Hpush]. apply Hpush.
  apply bool_decide_eq_true in Hb. unfold to_ascii_lowercase.
  rewrite lxor_case by lia. repeat case_decide; lia.
Qed.

Lemma encode_labels_mixed_Ok mask ls bit enc :
  mask ≠ [] → Forall encodable ls →
  ∃ ks, encode_labels_mixed mask ls bit enc = Ok (enc ++ name_wire ks) ∧
    map ascii_lower ks = map ascii_lower ls.
Proof.
  intros Hm Hls. revert bit enc. induction Hls as [|l ls Hl Hls IH]; intros bit enc.
  { exists []. done. }
  simpl. unfold encodable in Hl.
  rewrite decide_False by (intros ->; simpl in Hl; lia). rewrite decide_False by lia.
  rewrite u8_id by width.
  destruct (mix_label_lower mask l bit (enc ++ [Z.of_nat (length l)])) as
    (l' & bit' & -> & Hlow & Hlen); [done|]. simpl.
  destruct (IH bit' ((enc ++ [Z.of_nat (length l)]) ++ l')) as (ks & -> & Hks).
  exists (l' :: ks). rewrite name_wire_cons, Hlen, <-!app_assoc. simpl. by rewrite Hlow, Hks.
Qed.

Lemma encode_labels_mixed_Err mask ls bit enc :
  mask ≠ [] → ¬ Forall encodable ls →
  ∃ msg, encode_labels_mixed mask ls bit enc = Err (DnsError.InvalidLabel msg).
Proof.
  intros Hm. revert bit enc. induction ls as [|l ls IH]; intros bit enc H; [by destruct H|].
  simpl. repeat case_decide; eauto.
  destruct (mix_label_lower mask l bit (enc ++ [u8 (Z.of_nat (length l))])) as
    (l' & bit' & -> & _); [done|]. simpl. apply IH. intros Hls. apply H.
  constructor; [|done]. unfold encodable. destruct l; simpl in *; [done|lia].
Qed.

(** ** Lemmas on printing *)

(** Reading the label that follows a known prefix. *)
Lemma lookup_label pre l rest :
  (pre ++ Z.of_nat (length l) :: l ++ rest) !! length pre = Some (Z.of_nat (length l)).
Proof. by rewrite list_lookup_middle. Qed.

Lemma app_label_assoc pre l rest :
  pre ++ Z.of_nat (length l) :: l ++ rest = (pre ++ label_wire l) ++ rest.
Proof. unfold label_wire. by rewrite <-app_assoc. Qed.

Lemma length_app_label pre l :
  length (pre ++ label_wire l) = (length pre + 1 + length l)%nat.
Proof. rewrite length_app. simpl. lia. Qed.

Lemma take_drop_label pre l rest :
  take (length l) (drop (length pre + 1) (pre ++ Z.of_nat (length l) :: l ++ rest)) = l.
Proof.
  rewrite drop_app_ge by lia. replace (length pre + 1 - length pre)%nat with 1%nat by lia.
  simpl. by rewrite drop_0, take_app_length.
Qed.

(** The printable labels of a name: the loop drops a label that is not UTF-8. *)
Definition printable (ls : list str) : list str := filter (λ l, utf8_valid l = true) ls.

Lemma labels_loop_wire fuel pre ls post parts :
  labels_ok ls → (length ls < fuel)%nat →
  labels_loop fuel (pre ++ name_wire ls ++ post) (length pre) parts = parts ++ printable ls.
Proof.
  intros Hls. revert fuel pre parts.
  induction Hls as [|l ls [Hb Hl] Hls IH]; intros fuel pre parts Hf;
    (destruct fuel as [|fuel]; [lia|]); cbn [labels_loop].
  { rewrite name_wire_nil. cbn [app]. rewrite list_lookup_middle by done. simpl. by rewrite app_nil_r. }
  rewrite name_wire_cons. cbn [app]. rewrite <-app_assoc, lookup_label. cbn zeta.
  rewrite Nat2Z.id, decide_False by lia.
  rewrite decide_False by (rewrite !length_app; simpl; rewrite length_app; lia).
  rewrite take_drop_label, app_label_assoc, <-length_app_label, IH by (simpl in Hf; lia).
  unfold printable. rewrite filter_cons. case_match eqn:Hu; simpl.
  - by rewrite <-app_assoc.
  - done.
Qed.

Lemma labels_to_string_wire ls :
  labels_ok ls →
  labels_to_string (name_wire ls) =
  (if decide (printable ls = []) then [DOT] else join [DOT] (printable ls)).
Proof.
  intros Hls. unfold labels_to_string.
  pose proof (labels_loop_wire (S (length (name_wire ls))) [] ls [] [] Hls) as H.
  cbn [app length] in H. rewrite app_nil_r in H. rewrite H; [done|].
  unfold name_wire. rewrite length_app. pose proof (length_labels_wire ls). lia.
Qed.

(** A name the program can print and read back. *)
Definition text_label (l : str) : Prop := utf8_valid l = true ∧ DOT ∉ l.

Lemma printable_all ls : Forall text_label ls → printable ls = ls.
Proof.
  induction 1 as [|l ls [Hl _] _ IH]; [done|].
  unfold printable in *. rewrite filter_cons, decide_True by done. by rewrite IH.
Qed.

Lemma encode_labels_to_string ls :
  labels_ok ls → Forall text_label ls →
  encode_domain_name (labels_to_string (name_wire ls)) = Ok (name_wire (map ascii_lower ls)).
Proof.
  intros Hok Htext. rewrite labels_to_string_wire, printable_all by done.
  destruct (decide (ls = [])) as [->|Hne]; [done|].
  assert (Hfree : Forall (λ p, p ≠ [] ∧ DOT ∉ p) ls).
  { eapply Forall_impl; [by apply Forall_and; split; [apply Hok|apply Htext]|].
    simpl. intros l [[_ Hl] [_ Hd]]. split; [|done]. destruct l; simpl in *; [lia|done]. }
  unfold encode_domain_name.
  rewrite trim_end_matches_id by by apply last_join_free.
  rewrite decide_False.
  - rewrite split_on_join; [|done|by eapply Forall_impl; [apply Hfree|naive_solver]].
    apply encode_labels_Ok. eapply Forall_impl; [apply Hok|]. by intros l [_ ?].
  - intros E. destruct Hfree as [|p ps [Hp _] _]; [done|].
    destruct ps; simpl in E; destruct p; simpl in E; done.
Qed.

(** ** Lemmas on comparison *)

Lemma match_label_app n x y a b :
  length x = n → length y = n →
  match_label n (x ++ a) (y ++ b) =
  if decide (ascii_lower x = ascii_lower y) then Some (a, b) else None.
Proof.
  revert n y. induction x as [|c x IH]; intros n y <-; destruct y as [|d y]; try done.
  intros [= Hlen]. simpl. rewrite (IH _ y) by done.
  repeat case_decide; simplify_eq/=; done || congruence.
Qed.

Lemma names_equal_loop_wire fuel ls ks :
  labels_ok ls → labels_ok ks → (length ls < fuel)%nat →
  names_equal_loop fuel (name_wire ls) (name_wire ks) =
  bool_decide (map ascii_lower ls = map ascii_lower ks).
Proof.
  intros Hls. revert fuel ks. induction Hls as [|l ls [Hb Hl] Hls IH]; intros fuel ks Hks Hf;
    (destruct fuel as [|fuel]; [lia|]); cbn [names_equal_loop].
  - destruct Hks as [|k ks [_ Hk] _]; [done|].
    rewrite name_wire_nil, name_wire_cons. rewrite decide_True by lia. done.
  - rewrite name_wire_cons. destruct Hks as [|k ks [_ Hk] Hks].
    { rewrite name_wire_nil. rewrite decide_True by lia. done. }
    rewrite name_wire_cons. case_decide as Hlen.
    + rewrite bool_decide_eq_false_2; [done|]. simpl. intros [= Hx _].
      apply (f_equal length) in Hx. rewrite !length_ascii_lower in Hx. lia.
    + rewrite decide_False by lia. rewrite Nat2Z.id, match_label_app by lia.
      simpl in Hf. case_decide as Hx.
      * rewrite IH by (done || lia). apply bool_decide_ext. simpl. split; congruence.
      * rewrite bool_decide_eq_false_2; [done|]. simpl. congruence.
Qed.

Lemma domain_names_equal_wire ls ks :
  labels_ok ls → labels_ok ks →
  domain_names_equal (name_wire ls) (name_wire ks) = true ↔
  map ascii_lower ls = map ascii_lower ks.
Proof.
  intros Hls Hks. unfold domain_names_equal. rewrite names_equal_loop_wire; try done.
  - apply bool_decide_eq_true.
  - unfold name_wire. rewrite length_app. pose proof (length_labels_wire ls). simpl. lia.
Qed.

(** ** Lemmas on counting and suffixes *)

Lemma count_labels_loop_wire fuel pre ls count :
  labels_ok ls → (length ls < fuel)%nat →
  count_labels_loop fuel (pre ++ name_wire ls) (length pre) count = (count + length ls)%nat.
Proof.
  intros Hls. revert fuel pre count. induction Hls as [|l ls [Hb Hl] Hls IH];
    intros fuel pre count Hf; (destruct fuel as [|fuel]; [lia|]); cbn [count_labels_loop].
  { rewrite name_wire_nil, list_lookup_middle by done. simpl. lia. }
  rewrite name_wire_cons, lookup_label. cbn zeta. rewrite Nat2Z.id, decide_False by lia.
  rewrite app_label_assoc. replace (length pre + (1 + length l))%nat
    with (length (pre ++ label_wire l)) by (rewrite length_app_label; lia).
  rewrite IH by (simpl in Hf; lia). simpl. lia.
Qed.

Lemma count_labels_wire ls : labels_ok ls → count_labels (name_wire ls) = length ls.
Proof.
  intros Hls. unfold count_labels. apply (count_labels_loop_wire _ [] ls 0 Hls).
  unfold name_wire. rewrite length_app. pose proof (length_labels_wire ls). simpl. lia.
Qed.

Lemma name_prefix_loop_wire fuel skip pre ls count result :
  labels_ok ls → (length ls < fuel)%nat →
  name_prefix_loop fuel (pre ++ name_wire ls) skip (length pre) count result =
  Ok (result ++ name_wire (drop (skip - count) ls)).
Proof.
  intros Hls. revert fuel pre count result. induction Hls as [|l ls [Hb Hl] Hls IH];
    intros fuel pre count result Hf; (destruct fuel as [|fuel]; [lia|]);
    cbn [name_prefix_loop].
  { rewrite name_wire_nil, list_lookup_middle by done. simpl. by rewrite drop_nil. }
  simpl in Hf. rewrite name_wire_cons, lookup_label. cbn zeta.
  rewrite Nat2Z.id, decide_False by lia.
  assert (Hslice : slice (E:=DnsError.t) (pre ++ Z.of_nat (length l) :: l ++ name_wire ls)
            (length pre + 1) (length pre + 1 + length l) = Ok l).
  { rewrite slice_in_range by (rewrite ?length_app; simpl; rewrite ?length_app; lia).
    replace (length pre + 1 + length l - (length pre + 1))%nat with (length l) by lia.
    by rewrite take_drop_label. }
  rewrite Hslice. rewrite app_label_assoc. replace (length pre + (1 + length l))%nat
    with (length (pre ++ label_wire l)) by (rewrite length_app_label; lia).
  case_decide as Hs; simpl; rewrite IH by lia.
  - replace (skip - count)%nat with 0%nat by lia.
    replace (skip - (count + 1))%nat with 0%nat by lia.
    rewrite !drop_0, name_wire_cons, <-!app_assoc. done.
  - replace (skip - count)%nat with (S (skip - (count + 1))) by lia. done.
Qed.

Lemma last_name_wire pre ls : last (pre ++ name_wire ls) = Some 0.
Proof. unfold name_wire. by rewrite app_assoc, last_snoc. Qed.

Lemma name_prefix_wire ls n :
  labels_ok ls → name_prefix (name_wire ls) n = Ok (name_wire (drop (length ls - n) ls)).
Proof.
  intros Hls. unfold name_prefix. rewrite count_labels_wire by done. cbn zeta.
  case_decide as Hn.
  - replace (length ls - n)%nat with 0%nat by lia. by rewrite drop_0.
  - pose proof (name_prefix_loop_wire (S (length (name_wire ls))) (length ls - n) [] ls 0 [] Hls)
      as H. cbn [app length] in H. rewrite H.
    + simpl. rewrite Nat.sub_0_r, decide_True; [done|]. apply (last_name_wire []).
    + unfold name_wire. rewrite length_app. pose proof (length_labels_wire ls). simpl. lia.
Qed.
