(* ===== verification/NameCodec.v ===== *)
(** * The name decoder: specification, non-termination, safety

    [name_at data bound pos ls e] says, without a loop, that the labels [ls]
    are written at position [pos] of [data], pointers being followed only
    below [bound], and that the name occupies the bytes up to [e].
    [decode_domain_name] is shown to compute exactly this, and to loop
    forever exactly when its walk over the message revisits a position. *)

From stdpp Require Import strings.
From S2P Require Import Prelude Str Types Names.
#[local] Open Scope Z_scope.

(** ** The walk of the loop over the message *)

(** Where the loop continues after looking at [pos]; [None] when it returns. *)
Definition decode_next (data : bytes) (offset pos : nat) : option nat :=
  byte ← data !! pos;
  if decide (byte = 0) then None
  else if decide (Z.land byte 192 = 192) then
    low ← data !! (pos + 1)%nat;
    let ptr := Z.to_nat (Z.lor (Z.shiftl (Z.land byte 63) 8) low) in
    if decide (offset <= ptr)%nat then None else Some ptr
  else
    let len := Z.to_nat byte in
    if decide (63 < len)%nat then None
    else if decide (length data < pos + 1 + len)%nat then None
    else Some (pos + 1 + len)%nat.

Fixpoint walk (data : bytes) (offset : nat) (n : nat) (pos : nat) : option nat :=
  match n with
  | O => Some pos
  | S n => pos ← decode_next data offset pos; walk data offset n pos
  end.

(** ** Declarative names *)

Definition pointer (hi lo : Z) : nat := Z.to_nat ((hi - 192) * 256 + lo).

Inductive name_at (data : bytes) (bound : nat) : nat → list str → nat → Prop :=
  | name_root pos :
      data !! pos = Some 0 →
      name_at data bound pos [] (pos + 1)
  | name_label pos l ls e :
      label_ok l →
      data !! pos = Some (Z.of_nat (length l)) →
      take (length l) (drop (pos + 1) data) = l →
      name_at data bound (pos + 1 + length l) ls e →
      name_at data bound pos (l :: ls) e
  | name_pointer pos hi lo ls e :
      data !! pos = Some hi → 192 ≤ hi →
      data !! (pos + 1)%nat = Some lo →
      (pointer hi lo < bound)%nat →
      name_at data bound (pointer hi lo) ls e →
      name_at data bound pos ls (pos + 2).

(** ** Facts about one byte *)

Lemma land_192 b : is_u8 b → Z.land b 192 = 192 ↔ 192 ≤ b.
Proof. revert b. apply (forall_u8 (λ b, Z.land b 192 = 192 ↔ 192 ≤ b)). by vm_compute. Qed.

Lemma land_63 b : is_u8 b → 192 ≤ b → Z.land b 63 = b - 192.
Proof.
  revert b. apply (forall_u8 (λ b, 192 ≤ b → Z.land b 63 = b - 192)). by vm_compute.
Qed.

Lemma pointer_bits hi lo :
  is_u8 hi → is_u8 lo → 192 ≤ hi →
  Z.to_nat (Z.lor (Z.shiftl (Z.land hi 63) 8) lo) = pointer hi lo.
Proof.
  intros Hhi Hlo H. unfold pointer. rewrite lor_shiftl_add by width.
  by rewrite land_63.
Qed.

(** ** The loop against its walk *)

(** The loop returned, whatever the fuel left. *)
Ltac returned := eexists; split; [|intros; reflexivity]; done.

Lemma decode_loop_step data offset pos jumped jp result :
  match decode_next data offset pos with
  | Some pos' => ∃ jumped' jp' result',
      ∀ f, decode_loop (S f) data offset pos jumped jp result =
           decode_loop f data offset pos' jumped' jp' result'
  | None => ∃ r, r ≠ Diverge ∧
      ∀ f, decode_loop (S f) data offset pos jumped jp result = r
  end.
Proof.
  unfold decode_next. cbn [decode_loop]. unfold idx, slice.
  destruct (data !! pos) as [b|] eqn:Hb; simpl.
  - apply lookup_lt_Some in Hb as Hlt. destruct (decide (length data ≤ pos)%nat); [lia|].
    case_decide; [returned|]. case_decide.
    + destruct (data !! (pos + 1)%nat) as [lo|] eqn:Hlo; simpl.
      * apply lookup_lt_Some in Hlo as Hlt2.
        destruct (decide (length data ≤ pos + 1)%nat); [lia|].
        case_decide; [returned|]. by eexists _, _, _.
      * apply lookup_ge_None in Hlo.
        destruct (decide (length data ≤ pos + 1)%nat); [returned|lia].
    + case_decide; [returned|]. case_decide; [returned|].
      rewrite decide_True by lia. by eexists _, _, _.
  - apply lookup_ge_None in Hb. destruct (decide (length data ≤ pos)%nat); [returned|lia].
Qed.

Lemma decode_loop_walk fuel data offset pos jumped jp result :
  decode_loop fuel data offset pos jumped jp result = Diverge ↔
  is_Some (walk data offset fuel pos).
Proof.
  revert pos jumped jp result. induction fuel as [|fuel IH]; intros; [naive_solver|].
  pose proof (decode_loop_step data offset pos jumped jp result) as H.
  cbn [walk]. destruct (decode_next data offset pos) as [pos'|]; cbn [mbind option_bind].
  - destruct H as (j' & p' & r' & H). rewrite H. apply IH.
  - destruct H as (r & Hr & H). rewrite H. split; [done|by intros [? ?]].
Qed.

(** More fuel does not change a result. *)
Lemma decode_loop_mono fuel fuel' data offset pos jumped jp result :
  (fuel ≤ fuel')%nat →
  decode_loop fuel data offset pos jumped jp result ≠ Diverge →
  decode_loop fuel' data offset pos jumped jp result =
  decode_loop fuel data offset pos jumped jp result.
Proof.
  revert fuel' pos jumped jp result. induction fuel as [|fuel IH]; intros fuel' * Hle; [done|].
  destruct fuel' as [|fuel']; [lia|].
  pose proof (decode_loop_step data offset pos jumped jp result) as H.
  destruct (decode_next data offset pos) as [pos'|].
  - destruct H as (j' & p' & r' & H). rewrite !H. apply IH. lia.
  - destruct H as (r & Hr & H). by rewrite !H.
Qed.

(** ** A walk longer than the message revisits a position *)

Lemma decode_next_lt data offset pos pos' :
  decode_next data offset pos = Some pos' → (pos < length data)%nat.
Proof.
  unfold decode_next. destruct (data !! pos) eqn:E; [|done]. intros _.
  by apply lookup_lt_Some in E.
Qed.

Lemma walk_add data offset n m pos :
  walk data offset (n + m) pos = walk data offset n pos ≫= walk data offset m.
Proof.
  revert pos. induction n as [|n IH]; intros pos; [done|]. simpl.
  destruct (decode_next data offset pos) as [p|]; simpl; [apply IH|done].
Qed.

Lemma walk_le data offset n m pos :
  (n ≤ m)%nat → is_Some (walk data offset m pos) → is_Some (walk data offset n pos).
Proof.
  intros Hle. replace m with (n + (m - n))%nat by lia. rewrite walk_add.
  destruct (walk data offset n pos); [eauto|]. by intros [? ?].
Qed.

Lemma walk_cycle data offset d p :
  (0 < d)%nat → walk data offset d p = Some p → ∀ m, is_Some (walk data offset m p).
Proof.
  intros Hd Hcycle m. induction (lt_wf m) as [m _ IH].
  destruct (decide (m < d)%nat) as [Hm|Hm].
  - apply walk_le with d; [lia|eauto].
  - replace m with (d + (m - d))%nat by lia. rewrite walk_add, Hcycle. simpl. apply IH. lia.
Qed.

(** The positions a walk visits. *)
Definition visited (data : bytes) (offset n pos : nat) : list nat :=
  omap (λ k, walk data offset k pos) (seq 0 n).

Lemma visited_lookup data offset n pos k :
  is_Some (walk data offset n pos) → (k < n)%nat →
  visited data offset n pos !! k = walk data offset k pos.
Proof.
  intros Hn Hk. assert (Hall : ∀ k, (k < n)%nat → is_Some (walk data offset k pos)).
  { intros j Hj. apply walk_le with n; [lia|done]. }
  unfold visited. clear Hn. assert (H : ∀ s m, (s + m ≤ n)%nat → (k < m)%nat →
    omap (λ k, walk data offset k pos) (seq s m) !! k = walk data offset (s + k) pos);
    [|by apply (H 0%nat n)].
  clear Hk. revert k. intros k s m. revert k s.
  induction m as [|m IH]; intros k s Hs Hk; [lia|]. cbn [seq].
  destruct (Hall s) as [q Hq]; [lia|]. simpl. rewrite Hq.
  destruct k as [|k]; simpl; [by rewrite Nat.add_0_r|].
  rewrite IH by lia. f_equal. lia.
Qed.

Lemma length_visited data offset n pos :
  is_Some (walk data offset n pos) → length (visited data offset n pos) = n.
Proof.
  intros Hn. unfold visited. rewrite <-(length_seq n 0) at 2.
  assert (Hall : ∀ k, k ∈ seq 0 n → is_Some (walk data offset k pos)).
  { intros j Hj%elem_of_seq. apply walk_le with n; [lia|done]. }
  induction (seq 0 n) as [|k l IH]; [done|]. simpl.
  destruct (Hall k) as [q ->]; [set_solver|]. simpl. f_equal. apply IH. set_solver.
Qed.

Lemma pigeonhole (l : list nat) (n : nat) :
  (∀ x, x ∈ l → x < n)%nat → (n < length l)%nat →
  ∃ i j x, (i < j)%nat ∧ l !! i = Some x ∧ l !! j = Some x.
Proof.
  intros Hl Hlen. assert (Hdup : ¬ NoDup l).
  { intros Hnd. assert (length l ≤ length (seq 0 n))%nat; [|rewrite length_seq in *; lia].
    apply submseteq_length, NoDup_submseteq; [done|].
    intros x Hx. apply elem_of_seq. specialize (Hl x Hx). lia. }
  clear Hl Hlen. induction l as [|x l IH]; [by destruct Hdup; constructor|].
  destruct (decide (x ∈ l)) as [[j Hj]%list_elem_of_lookup|Hx].
  - exists 0%nat, (S j), x. split_and!; [lia|done|done].
  - destruct IH as (i & j & y & Hij & Hi & Hj).
    + intros Hnd. apply Hdup. by constructor.
    + exists (S i), (S j), y. split_and!; [lia|done|done].
Qed.

Lemma walk_forever data offset pos :
  is_Some (walk data offset (S (length data)) pos) →
  ∀ m, is_Some (walk data offset m pos).
Proof.
  set (n := S (length data)). intros Hn m.
  destruct (pigeonhole (visited data offset n pos) (length data)) as (i & j & p & Hij & Hi & Hj).
  - intros x [k Hk]%list_elem_of_lookup.
    assert (k < n)%nat as Hkn.
    { apply lookup_lt_Some in Hk. by rewrite length_visited in Hk. }
    rewrite visited_lookup in Hk by done.
    destruct (walk_le data offset (S k) n pos) as [q Hq]; [lia|done|].
    rewrite <-Nat.add_1_r, walk_add, Hk in Hq. simpl in Hq.
    destruct (decode_next data offset x) eqn:E; [|done]. by eapply decode_next_lt.
  - rewrite length_visited by done. unfold n. lia.
  - assert (j < n)%nat.
    { apply lookup_lt_Some in Hj. by rewrite length_visited in Hj. }
    rewrite visited_lookup in Hi, Hj by (done || lia).
    destruct (decide (m ≤ i)%nat).
    + apply walk_le with i; [done|by rewrite Hi].
    + replace m with (i + (m - i))%nat by lia. rewrite walk_add, Hi. simpl.
      apply walk_cycle with (j - i)%nat; [lia|].
      replace j with (i + (j - i))%nat in Hj by lia. by rewrite walk_add, Hi in Hj.
Qed.

(** The fuel of [decode_domain_name] is exact. *)
Lemma decode_fuel_enough data offset pos jumped jp result :
  decode_loop (S (length data)) data offset pos jumped jp result = Diverge →
  ∀ fuel, decode_loop fuel data offset pos jumped jp result = Diverge.
Proof.
  rewrite decode_loop_walk. intros Hwalk fuel. rewrite decode_loop_walk.
  by apply walk_forever.
Qed.

Lemma decode_loop_enough fuel data offset pos jumped jp result :
  decode_loop fuel data offset pos jumped jp result ≠ Diverge →
  decode_loop (S (length data)) data offset pos jumped jp result =
  decode_loop fuel data offset pos jumped jp result.
Proof.
  intros H. destruct (decide (fuel ≤ S (length data))%nat).
  - by apply decode_loop_mono.
  - destruct (decode_loop (S (length data)) data offset pos jumped jp result) eqn:E.
    4: by rewrite (decode_fuel_enough _ _ _ _ _ _ E fuel) in H.
    all: rewrite <-E; symmetry; apply decode_loop_mono; [lia|by rewrite E].
Qed.

(** ** The loop computes the declarative names *)

Lemma decode_loop_sound fuel data bound pos jumped jp result nm e :
  bytes_ok data →
  decode_loop fuel data bound pos jumped jp result = Ok (nm, e) →
  ∃ ls e', name_at data bound pos ls e' ∧ nm = result ++ name_wire ls ∧
           e = (if jumped then jp else e').
Proof.
  intros Hdata. revert pos jumped jp result.
  induction fuel as [|fuel IH]; intros pos jumped jp result; [done|]. cbn [decode_loop].
  case_decide; [done|]. unfold idx. destruct (data !! pos) as [b|] eqn:Hb; [|done].
  pose proof (bytes_ok_lookup _ _ _ Hdata Hb) as Hb8. cbn [mbind outcome_bind].
  case_decide as Hz.
  { intros [= <- <-]. subst b. exists [], (pos + 1)%nat. split_and!; [by constructor|done|done]. }
  case_decide as Hp; rewrite land_192 in Hp by done.
  - case_decide; [done|]. destruct (data !! (pos + 1)%nat) as [lo|] eqn:Hlo; [|done].
    pose proof (bytes_ok_lookup _ _ _ Hdata Hlo) as Hlo8. cbn [mbind outcome_bind].
    rewrite pointer_bits by done. case_decide; [done|].
    intros (ls & e' & Hat & -> & ->)%IH. exists ls, (pos + 2)%nat.
    split_and!; [by eapply name_pointer; eauto; lia|done|done].
  - case_decide; [done|]. case_decide; [done|]. rewrite slice_in_range by lia.
    replace (pos + 1 + Z.to_nat b - (pos + 1))%nat with (Z.to_nat b) by lia.
    cbn [mbind outcome_bind].
    set (l := take (Z.to_nat b) (drop (pos + 1) data)).
    assert (Hl : length l = Z.to_nat b).
    { unfold l. rewrite length_take, length_drop. lia. }
    intros (ls & e' & Hat & -> & ->)%IH. exists (l :: ls), e'. split_and!; [|..|done].
    + apply name_label.
      * split; [by unfold l; eauto with width|]. width.
      * rewrite Hl, Z2Nat.id by width. done.
      * by rewrite Hl.
      * by rewrite Hl.
    + rewrite name_wire_cons, Hl, Z2Nat.id by width. by rewrite <-!app_assoc.
Qed.

Lemma decode_loop_complete data bound pos ls e :
  bytes_ok data → name_at data bound pos ls e →
  ∃ fuel, ∀ jumped jp result,
    decode_loop fuel data bound pos jumped jp result =
    Ok (result ++ name_wire ls, if jumped then jp else e).
Proof.
  intros Hdata. induction 1 as [pos Hz|pos l ls e [Hl8 Hl] Hlen Htake Hat [fuel IH]
                               |pos hi lo ls e Hhi H192 Hlo Hptr Hat [fuel IH]].
  - exists 1%nat. intros. cbn [decode_loop]. apply lookup_lt_Some in Hz as Hlt.
    rewrite decide_False by lia. rewrite (proj2 (idx_Ok _ _ _) Hz). simpl.
    by rewrite name_wire_nil.
  - exists (S fuel). intros. cbn [decode_loop]. apply lookup_lt_Some in Hlen as Hlt.
    rewrite decide_False by lia. rewrite (proj2 (idx_Ok _ _ _) Hlen).
    cbn [mbind outcome_bind]. rewrite decide_False by lia.
    rewrite decide_False by (rewrite land_192 by width; lia).
    rewrite Nat2Z.id, decide_False by lia.
    assert (pos + 1 + length l ≤ length data)%nat.
    { apply (f_equal length) in Htake. rewrite length_take, length_drop in Htake. lia. }
    rewrite decide_False by lia. rewrite slice_in_range by lia.
    replace (pos + 1 + length l - (pos + 1))%nat with (length l) by lia.
    cbn [mbind outcome_bind]. rewrite IH, Htake, name_wire_cons, <-!app_assoc. done.
  - exists (S fuel). intros. cbn [decode_loop]. apply lookup_lt_Some in Hhi as Hlt.
    apply lookup_lt_Some in Hlo as Hlt2.
    pose proof (bytes_ok_lookup _ _ _ Hdata Hhi). pose proof (bytes_ok_lookup _ _ _ Hdata Hlo).
    rewrite decide_False by lia. rewrite (proj2 (idx_Ok _ _ _) Hhi).
    cbn [mbind outcome_bind]. rewrite decide_False by lia.
    rewrite decide_True by (by rewrite land_192). rewrite decide_False by lia.
    rewrite (proj2 (idx_Ok _ _ _) Hlo). cbn [mbind outcome_bind].
    rewrite pointer_bits by done. rewrite decide_False by lia. apply IH.
Qed.

Lemma decode_name_iff data offset nm e :
  bytes_ok data →
  decode_domain_name data offset = Ok (nm, e) ↔
  ∃ ls, name_at data offset offset ls e ∧ nm = name_wire ls.
Proof.
  intros Hdata. unfold decode_domain_name. split.
  - intros (ls & e' & Hat & -> & ->)%decode_loop_sound; [|done]. eauto.
  - intros (ls & Hat & ->). apply decode_loop_complete in Hat as [fuel Hf]; [|done].
    rewrite (decode_loop_enough fuel) by (by rewrite Hf). by rewrite Hf.
Qed.

Lemma name_at_labels_ok data bound pos ls e : name_at data bound pos ls e → labels_ok ls.
Proof. induction 1; [constructor|by constructor|done]. Qed.

Lemma name_at_end data bound pos ls e :
  name_at data bound pos ls e → (pos < e ≤ length data)%nat.
Proof.
  induction 1 as [pos H|pos l ls e ? H ? ? ?|pos hi lo ls e ? ? H].
  all: apply lookup_lt_Some in H; lia.
Qed.

(** What a successful decoding gives to the rest of the parser. *)
Lemma decode_name_Ok data offset nm e :
  bytes_ok data → decode_domain_name data offset = Ok (nm, e) →
  ∃ ls, nm = name_wire ls ∧ labels_ok ls ∧ (offset < e ≤ length data)%nat.
Proof.
  intros Hdata (ls & Hat & ->)%decode_name_iff; [|done]. exists ls.
  pose proof (name_at_end _ _ _ _ _ Hat).
  split_and!; [done|by eapply name_at_labels_ok|lia|lia].
Qed.

(** An uncompressed name inside a message. *)
Lemma name_at_wire pre ls post bound :
  labels_ok ls →
  name_at (pre ++ name_wire ls ++ post) bound (length pre) ls (length pre + length (name_wire ls)).
Proof.
  intros Hls. revert pre. induction Hls as [|l ls Hl Hls IH]; intros pre.
  - rewrite name_wire_nil. apply name_root. cbn [app]. by rewrite list_lookup_middle.
  - rewrite name_wire_cons. cbn [app]. rewrite <-app_assoc. apply name_label.
    + done.
    + apply lookup_label.
    + apply take_drop_label.
    + rewrite app_label_assoc, <-length_app_label. specialize (IH (pre ++ label_wire l)).
      rewrite length_app_label in IH. rewrite length_app_label.
      cbn [length]. rewrite length_app.
      by replace (length pre + S (length l + length (name_wire ls)))%nat
        with (length pre + 1 + length l + length (name_wire ls))%nat by lia.
Qed.

Lemma decode_name_wire pre ls post :
  labels_ok ls → bytes_ok (pre ++ name_wire ls ++ post) →
  decode_domain_name (pre ++ name_wire ls ++ post) (length pre) =
  Ok (name_wire ls, (length pre + length (name_wire ls))%nat).
Proof. intros Hls Hb. apply decode_name_iff; [done|]. eauto using name_at_wire. Qed.

(** The loop never panics. *)
Lemma decode_loop_no_panic fuel data bound pos jumped jp result :
  decode_loop fuel data bound pos jumped jp result ≠ Panic.
Proof.
  revert pos jumped jp result. induction fuel as [|fuel IH]; intros; [done|]. cbn [decode_loop].
  case_decide; [done|]. destruct (idx_in_range (E:=DnsError.t) data pos) as (b & -> & _); [lia|].
  cbn [mbind outcome_bind]. case_decide; [done|]. case_decide.
  - case_decide; [done|].
    destruct (idx_in_range (E:=DnsError.t) data (pos + 1)) as (c & -> & _); [lia|].
    cbn [mbind outcome_bind]. case_decide; [done|]. apply IH.
  - case_decide; [done|]. case_decide; [done|]. rewrite slice_in_range by lia. apply IH.
Qed.

(** Without pointers the loop returns. *)
Lemma walk_increasing data offset n pos q :
  Forall (λ b, is_u8 b ∧ b < 192) data → walk data offset n pos = Some q →
  (pos + n ≤ q)%nat.
Proof.
  intros Hdata. revert pos. induction n as [|n IH]; intros pos; simpl; [intros [= ->]; lia|].
  destruct (decode_next data offset pos) as [p|] eqn:E; simpl; [|done].
  intros H%IH. enough (pos < p)%nat by lia. clear H. unfold decode_next in E.
  destruct (data !! pos) as [b|] eqn:Hb; [|done]. simpl in E.
  rewrite Forall_lookup in Hdata. apply Hdata in Hb as [Hb8 Hb192].
  case_decide; [done|]. rewrite decide_False in E by (rewrite land_192 by done; lia).
  repeat case_decide; simplify_eq. lia.
Qed.

Lemma decode_returns_without_pointers data offset :
  Forall (λ b, is_u8 b ∧ b < 192) data → returns (decode_domain_name data offset).
Proof.
  intros Hdata. unfold decode_domain_name.
  pose proof (decode_loop_no_panic (S (length data)) data offset offset false 0 []) as Hp.
  destruct (decode_loop _ _ _ _ _ _ _) eqn:E; [done|done|done|].
  apply decode_loop_walk in E as [q Hq].
  replace (S (length data)) with (length data + 1)%nat in Hq by lia.
  rewrite walk_add in Hq. destruct (walk data offset (length data) offset) as [p|] eqn:Hw; [|done].
  apply walk_increasing in Hw; [|done]. simpl in Hq.
  destruct (decode_next data offset p) eqn:En; [|done]. apply decode_next_lt in En. lia.
Qed.

(** A pointer cycle below the name makes the loop run forever. *)
Lemma decode_cycle data offset pos n d :
  walk data offset n offset = Some pos → walk data offset (S d) pos = Some pos →
  decode_domain_name data offset = Diverge.
Proof.
  intros Hn Hd. apply decode_loop_walk.
  destruct (decide (S (length data) ≤ n)%nat).
  - apply walk_le with n; eauto.
  - replace (S (length data)) with (n + (S (length data) - n))%nat by lia.
    rewrite walk_add, Hn. apply walk_cycle with (S d); [lia|done].
Qed.

(** ** Properties of the name codec *)

(** C1: [decode_domain_name] implements the declarative reading of RFC 1035 section 4.1.4
    with the source's pointer rule (a pointer must point below the start of the name):
    it succeeds with [nm] ending at [e] if and only if some labels [ls] are written at
    the offset, [nm] is their uncompressed wire form and [e] is the end of the name in
    the message. *)
Theorem decode_domain_name_spec data offset nm e :
  bytes_ok data →
  decode_domain_name data offset = Ok (nm, e) ↔
  ∃ ls, name_at data offset offset ls e ∧ nm = name_wire ls.
Proof. apply decode_name_iff. Qed.

Lemma decode_domain_name_spec_witness :
  decode_domain_name [3; 99; 111; 109; 0; 1; 97; 192; 0; 7] 5 =
    Ok ([1; 97; 3; 99; 111; 109; 0], 9%nat) ∧
  ∃ ls, name_at [3; 99; 111; 109; 0; 1; 97; 192; 0; 7] 5 5 ls 9 ∧
        [1; 97; 3; 99; 111; 109; 0] = name_wire ls.
Proof.
  split; [by vm_compute|].
  apply (decode_domain_name_spec _ 5); [|by vm_compute].
  repeat constructor; by vm_compute.
Defined.

(** The decoder runs forever on a compression pointer that points at a copy of
    itself: when the two bytes at [offset] are a pointer to a position [p] below
    [offset] that holds the same two bytes, the test [ptr >= offset] lets every jump
    pass, and no number of iterations of the loop returns. *)
Theorem decode_pointer_cycle_diverges data offset hi lo :
  bytes_ok data → 192 ≤ hi →
  data !! offset = Some hi → data !! (offset + 1)%nat = Some lo →
  (pointer hi lo < offset)%nat →
  data !! pointer hi lo = Some hi → data !! (pointer hi lo + 1)%nat = Some lo →
  decode_domain_name data offset = Diverge ∧
  ∀ fuel, decode_loop fuel data offset offset false 0 [] = Diverge.
Proof.
  intros Hdata Hhi H1 H2 Hp H3 H4.
  pose proof (bytes_ok_lookup _ _ _ Hdata H1). pose proof (bytes_ok_lookup _ _ _ Hdata H2).
  assert (Hnext : ∀ q, data !! q = Some hi → data !! (q + 1)%nat = Some lo →
            decode_next data offset q = Some (pointer hi lo)).
  { intros q Hq Hq1. unfold decode_next. rewrite Hq. simpl.
    rewrite decide_False by lia. rewrite decide_True by (by rewrite land_192).
    rewrite Hq1. simpl. rewrite pointer_bits by done. by rewrite decide_False by lia. }
  assert (Hd : decode_domain_name data offset = Diverge).
  { apply decode_cycle with (pointer hi lo) 1%nat 0%nat; simpl; by rewrite Hnext. }
  split; [done|]. by apply decode_fuel_enough.
Qed.

Lemma decode_pointer_cycle_diverges_witness :
  decode_domain_name [192; 0; 192; 0] 2 = Diverge ∧
  ∀ fuel, decode_loop fuel [192; 0; 192; 0] 2 2 false 0 [] = Diverge.
Proof.
  apply (decode_pointer_cycle_diverges _ _ 192 0); try (by vm_compute).
  - repeat constructor; by vm_compute.
  - apply Nat.ltb_lt. by vm_compute.
Defined.

(** The decoder never panics, its fuel is exact ([Diverge] is returned only when no
    number of iterations suffices), and on a message without compression pointers it
    always returns. *)
Theorem decode_domain_name_safe data offset :
  decode_domain_name data offset ≠ Panic ∧
  (decode_domain_name data offset = Diverge →
   ∀ fuel, decode_loop fuel data offset offset false 0 [] = Diverge) ∧
  (Forall (λ b, is_u8 b ∧ b < 192) data → returns (decode_domain_name data offset)).
Proof.
  split_and!.
  - apply decode_loop_no_panic.
  - apply decode_fuel_enough.
  - apply decode_returns_without_pointers.
Qed.

Lemma decode_domain_name_safe_witness :
  returns (decode_domain_name [3; 99; 111; 109; 0] 0) ∧
  (decode_domain_name [192; 0; 192; 0] 2 = Diverge ∧
   decode_loop 1000 [192; 0; 192; 0] 2 2 false 0 [] = Diverge).
Proof.
  split.
  - apply (decode_domain_name_safe [3; 99; 111; 109; 0] 0).
    repeat constructor; by vm_compute.
  - split; [by vm_compute|]. apply (decode_domain_name_safe [192; 0; 192; 0] 2). by vm_compute.
Defined.

(** C39: printing a wire name and encoding the text again gives the same name in lower
    case, for every name whose labels are valid UTF-8 without a dot; and the encoder
    accepts exactly the names whose labels have 1 to 63 bytes. *)
Theorem name_text_roundtrip ls name :
  (labels_ok ls → Forall text_label ls →
   encode_domain_name (labels_to_string (name_wire ls)) =
   Ok (name_wire (map ascii_lower ls))) ∧
  (trim_end_matches DOT name ≠ [] →
   let labels := split_on DOT (trim_end_matches DOT name) in
   (Forall encodable labels →
    encode_domain_name name = Ok (name_wire (map ascii_lower labels))) ∧
   (¬ Forall encodable labels →
    ∃ msg, encode_domain_name name = Err (DnsError.InvalidLabel msg))).
Proof.
  split; [apply encode_labels_to_string|]. intros Hne. cbn zeta. unfold encode_domain_name.
  rewrite decide_False by done. split; intros H.
  - by apply encode_labels_Ok.
  - by apply encode_labels_Err.
Qed.

Lemma name_text_roundtrip_witness :
  encode_domain_name (labels_to_string (name_wire [[87]; [99; 79; 109]])) =
    Ok (name_wire [[119]; [99; 111; 109]]) ∧
  encode_domain_name [65; 46; 98; 46] = Ok (name_wire [[97]; [98]]).
Proof.
  split.
  - apply (name_text_roundtrip [[87]; [99; 79; 109]] []).
    + repeat constructor; by vm_compute.
    + repeat constructor; refine (bool_decide_unpack _ _); by vm_compute.
  - apply (name_text_roundtrip [] [65; 46; 98; 46]); [by vm_compute|].
    repeat constructor; by vm_compute.
Defined.

(** 0x20 encoding only changes letter case: for every nonempty mask the mixed-case
    encoder accepts the same names as the plain one, and lowercasing its output gives
    exactly the plain encoding. *)
Theorem mixed_case_equivalent name mask :
  mask ≠ [] →
  (∀ nm, encode_domain_name name = Ok nm →
     ∃ nm', encode_domain_name_mixed name mask = Ok nm' ∧ ascii_lower nm' = ascii_lower nm) ∧
  (∀ e, encode_domain_name name = Err e → ∃ e', encode_domain_name_mixed name mask = Err e').
Proof.
  intros Hm. unfold encode_domain_name, encode_domain_name_mixed. case_decide; [naive_solver|].
  set (ls := split_on _ _). destruct (decide (Forall encodable ls)) as [Hls|Hls].
  - rewrite encode_labels_Ok by done. split; [|done]. intros nm [= <-].
    destruct (encode_labels_mixed_Ok mask ls 0 [] Hm Hls) as (ks & -> & Hks).
    eexists. split; [done|]. cbn [app].
    rewrite !ascii_lower_name_wire.
    + by rewrite Hks, map_map, (map_ext _ _ ascii_lower_idemp).
    + by rewrite encodable_lower.
    + by rewrite <-encodable_lower, Hks, encodable_lower.
  - destruct (encode_labels_Err ls [] Hls) as [msg ->].
    destruct (encode_labels_mixed_Err mask ls 0 [] Hm Hls) as [msg' ->]. naive_solver.
Qed.

Lemma mixed_case_equivalent_witness :
  ∃ nm', encode_domain_name_mixed [97; 46; 98] [true; false] = Ok nm' ∧
         ascii_lower nm' = ascii_lower [1; 97; 1; 98; 0].
Proof. apply (mixed_case_equivalent [97; 46; 98] [true; false]); [done|by vm_compute]. Defined.

(** On well-formed names [domain_names_equal] is equality of the label sequences up
    to ASCII case; [count_labels] is the number of labels, and [name_prefix] keeps the
    last [n] labels without panicking. *)
Theorem name_operations_spec ls ks n :
  labels_ok ls → labels_ok ks →
  (domain_names_equal (name_wire ls) (name_wire ks) = true ↔
   map ascii_lower ls = map ascii_lower ks) ∧
  count_labels (name_wire ls) = length ls ∧
  name_prefix (name_wire ls) n = Ok (name_wire (drop (length ls - n) ls)).
Proof.
  intros Hls Hks. split_and!.
  - by apply domain_names_equal_wire.
  - by apply count_labels_wire.
  - by apply name_prefix_wire.
Qed.

Lemma name_operations_spec_witness :
  domain_names_equal (name_wire [[65]; [99]]) (name_wire [[97]; [67]]) = true ∧
  name_prefix (name_wire [[65]; [99]]) 1 = Ok (name_wire [[99]]).
Proof.
  split.
  - apply (name_operations_spec [[65]; [99]] [[97]; [67]] 1);
      repeat constructor; by vm_compute.
  - apply (name_operations_spec [[65]; [99]] [[97]; [67]] 1);
      repeat constructor; by vm_compute.
Defined.
