(* ===== verification/Rdata.v ===== *)
(** * RDATA (src/dns/types.rs, lines 788-1189)

    Parsing the RDATA of a record inside its message, and rebuilding the
    RDATA without compression pointers.  A parser returns [Option<RData>] in
    the source; here [DnsResult (option RData.t)], because decoding a name
    may run forever and slicing the type bit map of an NSEC record may
    panic. *)

From S2P Require Import Prelude Str Types Names NameCodec.
#[local] Open Scope Z_scope.

(** ** Parsing *)

Definition decode_domain_name_at (msg : bytes) (offset : nat) : DnsResult (bytes * nat) :=
  decode_domain_name msg offset.

Definition parse_a_rdata (rdata : bytes) : DnsResult (option RData.t) :=
  if decide (length rdata = 4)%nat then
    a ← idx rdata 0; b ← idx rdata 1; c ← idx rdata 2; d ← idx rdata 3;
    Ok (Some (RData.A [a; b; c; d]))
  else Ok None.

Definition parse_aaaa_rdata (rdata : bytes) : DnsResult (option RData.t) :=
  if decide (length rdata = 16)%nat then Ok (Some (RData.AAAA rdata)) else Ok None.

Definition parse_name_rdata (rdata msg : bytes) (rdata_offset : nat) (ctor : bytes → RData.t)
    : DnsResult (option RData.t) :=
  if decide (rdata = []) then Ok None else
  r ← outcome_ok (decode_domain_name_at msg rdata_offset);
  match r with
  | Some (name, _) => Ok (Some (ctor name))
  | None => Ok None
  end.

Definition parse_mx_rdata (rdata msg : bytes) (rdata_offset : nat) : DnsResult (option RData.t) :=
  if decide (length rdata < 3)%nat then Ok None else
  preference ← rd_u16 rdata 0;
  let exchange_offset := (rdata_offset + 2)%nat in
  r ← outcome_ok (decode_domain_name_at msg exchange_offset);
  match r with
  | Some (exchange, _) => Ok (Some (RData.MX preference exchange))
  | None => Ok None
  end.

Definition parse_soa_rdata (rdata msg : bytes) (rdata_offset : nat) : DnsResult (option RData.t) :=
  r ← outcome_ok (decode_domain_name_at msg rdata_offset);
  match r with
  | None => Ok None
  | Some (mname, off) =>
    r ← outcome_ok (decode_domain_name_at msg off);
    match r with
    | None => Ok None
    | Some (rname, off) =>
      let data_start := (off - rdata_offset)%nat in
      if decide (length rdata < data_start + 20)%nat then Ok None else
      serial ← rd_u32 rdata data_start;
      refresh ← rd_u32 rdata (data_start + 4);
      retry ← rd_u32 rdata (data_start + 8);
      expire ← rd_u32 rdata (data_start + 12);
      minimum ← rd_u32 rdata (data_start + 16);
      Ok (Some (RData.SOA mname rname serial refresh retry expire minimum))
    end
  end.

(** The [while] loop of [parse_txt_rdata]; each round consumes a byte, so
    [length rdata] rounds are enough. *)
Fixpoint parse_txt_loop (fuel : nat) (rdata : bytes) (pos : nat) (parts : list str)
    : option (list str) :=
  match fuel with
  | O => Some parts
  | S fuel =>
    match rdata !! pos with
    | None => Some parts
    | Some b =>
      let len := Z.to_nat b in
      let pos := (pos + 1)%nat in
      if decide (length rdata < pos + len)%nat then None else
      let s := take len (drop pos rdata) in
      let parts := if utf8_valid s then parts ++ [s] else parts in
      parse_txt_loop fuel rdata (pos + len) parts
    end
  end.

Definition parse_txt_rdata (rdata : bytes) : DnsResult (option RData.t) :=
  Ok (RData.TXT <$> parse_txt_loop (S (length rdata)) rdata 0 []).

Definition parse_srv_rdata (rdata msg : bytes) (rdata_offset : nat) : DnsResult (option RData.t) :=
  if decide (length rdata < 7)%nat then Ok None else
  priority ← rd_u16 rdata 0;
  weight ← rd_u16 rdata 2;
  port ← rd_u16 rdata 4;
  let target_offset := (rdata_offset + 6)%nat in
  r ← outcome_ok (decode_domain_name_at msg target_offset);
  match r with
  | Some (target, _) => Ok (Some (RData.SRV priority weight port target))
  | None => Ok None
  end.

Definition parse_rrsig_rdata (rdata msg : bytes) (rdata_offset : nat)
    : DnsResult (option RData.t) :=
  if decide (length rdata < 18)%nat then Ok None else
  type_covered ← rd_u16 rdata 0;
  algorithm ← idx rdata 2;
  labels ← idx rdata 3;
  original_ttl ← rd_u32 rdata 4;
  signature_expiration ← rd_u32 rdata 8;
  signature_inception ← rd_u32 rdata 12;
  key_tag ← rd_u16 rdata 16;
  let signer_name_offset := (rdata_offset + 18)%nat in
  r ← outcome_ok (decode_domain_name_at msg signer_name_offset);
  match r with
  | None => Ok None
  | Some (signer_name, end_offset) =>
    let sig_start := (end_offset - rdata_offset)%nat in
    if decide (length rdata < sig_start)%nat then Ok None else
    signature ← slice_from rdata sig_start;
    Ok (Some (RData.RRSIG type_covered algorithm labels original_ttl signature_expiration
                signature_inception key_tag signer_name signature))
  end.

Definition parse_dnskey_rdata (rdata : bytes) : DnsResult (option RData.t) :=
  if decide (length rdata < 4)%nat then Ok None else
  flags ← rd_u16 rdata 0;
  protocol ← idx rdata 2;
  algorithm ← idx rdata 3;
  public_key ← slice_from rdata 4;
  Ok (Some (RData.DNSKEY flags protocol algorithm public_key)).

Definition parse_nsec_rdata (rdata msg : bytes) (rdata_offset : nat)
    : DnsResult (option RData.t) :=
  r ← outcome_ok (decode_domain_name_at msg rdata_offset);
  match r with
  | None => Ok None
  | Some (next_domain, end_offset) =>
    let bitmaps_start := (end_offset - rdata_offset)%nat in
    type_bit_maps ← slice_from rdata bitmaps_start;
    Ok (Some (RData.NSEC next_domain type_bit_maps))
  end.

Definition parse_ds_rdata (rdata : bytes) : DnsResult (option RData.t) :=
  if decide (length rdata < 4)%nat then Ok None else
  key_tag ← rd_u16 rdata 0;
  algorithm ← idx rdata 2;
  digest_type ← idx rdata 3;
  digest ← slice_from rdata 4;
  Ok (Some (RData.DS key_tag algorithm digest_type digest)).

Definition parse_rdata (rtype : Z) (rdata msg : bytes) (rdata_offset : nat)
    : DnsResult (option RData.t) :=
  match rtype with
  | 1 => parse_a_rdata rdata
  | 28 => parse_aaaa_rdata rdata
  | 5 => parse_name_rdata rdata msg rdata_offset RData.CNAME
  | 2 => parse_name_rdata rdata msg rdata_offset RData.NS
  | 12 => parse_name_rdata rdata msg rdata_offset RData.PTR
  | 15 => parse_mx_rdata rdata msg rdata_offset
  | 6 => parse_soa_rdata rdata msg rdata_offset
  | 16 => parse_txt_rdata rdata
  | 33 => parse_srv_rdata rdata msg rdata_offset
  | 46 => parse_rrsig_rdata rdata msg rdata_offset
  | 48 => parse_dnskey_rdata rdata
  | 43 => parse_ds_rdata rdata
  | 47 => parse_nsec_rdata rdata msg rdata_offset
  | _ => if decide (Z.of_nat (length rdata) <= 65535)
         then Ok (Some (RData.Unknown rdata)) else Ok None
  end.

(** ** Rebuilding *)

Definition decompressed_rdata (parsed : RData.t) : bytes :=
  match parsed with
  | RData.A ip => ip
  | RData.AAAA ip => ip
  | RData.CNAME name | RData.NS name | RData.PTR name => name
  | RData.MX preference exchange => to_be16 preference ++ exchange
  | RData.SOA mname rname serial refresh retry expire minimum =>
    mname ++ rname ++ to_be32 serial ++ to_be32 refresh ++ to_be32 retry ++
    to_be32 expire ++ to_be32 minimum
  | RData.TXT strings => concat (map (λ s, (u8 (Z.of_nat (length s))) :: s) strings)
  | RData.SRV priority weight port target =>
    to_be16 priority ++ to_be16 weight ++ to_be16 port ++ target
  | RData.RRSIG type_covered algorithm labels original_ttl signature_expiration
      signature_inception key_tag signer_name signature =>
    to_be16 type_covered ++ [algorithm] ++ [labels] ++ to_be32 original_ttl ++
    to_be32 signature_expiration ++ to_be32 signature_inception ++ to_be16 key_tag ++
    signer_name ++ signature
  | RData.DNSKEY flags protocol algorithm public_key =>
    to_be16 flags ++ [protocol] ++ [algorithm] ++ public_key
  | RData.NSEC next_domain type_bit_maps => next_domain ++ type_bit_maps
  | RData.DS key_tag algorithm digest_type digest =>
    to_be16 key_tag ++ [algorithm] ++ [digest_type] ++ digest
  | RData.NSEC3 hash_algorithm flags iterations salt next_hashed_owner type_bit_maps =>
    [hash_algorithm] ++ [flags] ++ to_be16 iterations ++ [u8 (Z.of_nat (length salt))] ++
    salt ++ next_hashed_owner ++ type_bit_maps
  | RData.Unknown original => original
  end.

(** ** Specification: well-formed parsed RDATA of a type *)

Definition name_ok (nm : bytes) : Prop := ∃ ls, labels_ok ls ∧ nm = name_wire ls.
Definition string_ok (s : str) : Prop :=
  bytes_ok s ∧ (length s <= 255)%nat ∧ utf8_valid s = true.
Definition rest_ok (l : bytes) : Prop := bytes_ok l.

(** The types [parse_rdata] has a parser for. *)
Definition parsed_types : list Z := [1; 28; 5; 2; 12; 15; 6; 16; 33; 46; 48; 43; 47].

Definition rdata_ok (rtype : Z) (rd : RData.t) : Prop :=
  match rd with
  | RData.A ip => rtype = 1 ∧ bytes_ok ip ∧ length ip = 4%nat
  | RData.AAAA ip => rtype = 28 ∧ bytes_ok ip ∧ length ip = 16%nat
  | RData.CNAME n => rtype = 5 ∧ name_ok n
  | RData.NS n => rtype = 2 ∧ name_ok n
  | RData.PTR n => rtype = 12 ∧ name_ok n
  | RData.MX p n => rtype = 15 ∧ is_u16 p ∧ name_ok n
  | RData.SOA m r a b c d e =>
    rtype = 6 ∧ name_ok m ∧ name_ok r ∧ is_u32 a ∧ is_u32 b ∧ is_u32 c ∧ is_u32 d ∧ is_u32 e
  | RData.TXT ss => rtype = 16 ∧ Forall string_ok ss
  | RData.SRV p w o n => rtype = 33 ∧ is_u16 p ∧ is_u16 w ∧ is_u16 o ∧ name_ok n
  | RData.RRSIG tc a l o e i k n s =>
    rtype = 46 ∧ is_u16 tc ∧ is_u8 a ∧ is_u8 l ∧ is_u32 o ∧ is_u32 e ∧ is_u32 i ∧ is_u16 k ∧
    name_ok n ∧ rest_ok s
  | RData.DNSKEY f p a k => rtype = 48 ∧ is_u16 f ∧ is_u8 p ∧ is_u8 a ∧ rest_ok k
  | RData.NSEC n b => rtype = 47 ∧ name_ok n ∧ rest_ok b
  | RData.DS k a t d => rtype = 43 ∧ is_u16 k ∧ is_u8 a ∧ is_u8 t ∧ rest_ok d
  | RData.NSEC3 _ _ _ _ _ _ => False
  | RData.Unknown o => (rtype ∉ parsed_types) ∧ bytes_ok o ∧ Z.of_nat (length o) <= 65535
  end.

(** ** Lemmas on names inside a message *)

Lemma name_ok_bytes nm : name_ok nm → bytes_ok nm.
Proof. intros (ls & Hls & ->). by apply name_wire_bytes. Qed.
Lemma name_ok_nonempty nm : name_ok nm → (1 ≤ length nm)%nat.
Proof. intros (ls & _ & ->). apply name_wire_nonempty. Qed.

Lemma decode_at msg pre nm post off :
  msg = pre ++ nm ++ post → off = length pre → name_ok nm → bytes_ok msg →
  decode_domain_name_at msg off = Ok (nm, (off + length nm)%nat).
Proof. intros -> -> (ls & Hls & ->) Hb. by apply decode_name_wire. Qed.

Lemma decode_at_ok msg off nm e :
  bytes_ok msg → decode_domain_name_at msg off = Ok (nm, e) →
  name_ok nm ∧ (off < e ≤ length msg)%nat.
Proof.
  intros Hb (ls & -> & Hls & He)%decode_name_Ok; [|done]. split; [by exists ls|done].
Qed.

(** [outcome_ok] never yields an error; a parser that matches on it returns. *)
Lemma outcome_ok_Ok {E A} (c : outcome E A) a : c = Ok a → outcome_ok c = Ok (Some a).
Proof. by intros ->. Qed.

Lemma outcome_ok_inv {E A} (c : outcome E A) a : outcome_ok c = Ok (Some a) → c = Ok a.
Proof. destruct c; naive_solver. Qed.

(** ** Round trip *)

Lemma slice_from_app {E A} (pre l : list A) n :
  n = length pre → slice_from (E:=E) (pre ++ l) n = Ok l.
Proof.
  intros ->. rewrite slice_from_in_range by (rewrite length_app; lia). by rewrite drop_app_length.
Qed.

(** Rewrite the decoding of a name at a known place in the message. *)
Ltac decode_name pre' nm' post' :=
  match goal with
  | |- context [decode_domain_name_at ?m ?o] =>
    rewrite (decode_at m pre' nm' post' o);
    [cbn [outcome_ok mbind outcome_bind]
    |subst; by rewrite <-?app_assoc
    |subst; rewrite ?length_app; simpl; lia
    |done|done]
  end.

(** Evaluate the reads of fixed-width fields at the head of the data. *)
Ltac read_fields :=
  unfold rd_u16, rd_u32, idx;
  cbn [decompressed_rdata lookup list_lookup Nat.add app mbind outcome_bind to_be16 to_be32];
  rewrite ?be32_to_be32, ?be16_to_be16 by done.

Section wire.
Context (pre post msg : bytes) (off : nat) (Hoff : off = length pre) (Hb : bytes_ok msg).

Lemma parse_name_rdata_wire ctor nm :
  msg = pre ++ nm ++ post → name_ok nm →
  parse_name_rdata nm msg off ctor = Ok (Some (ctor nm)).
Proof.
  intros Hmsg Hn. unfold parse_name_rdata. pose proof (name_ok_nonempty _ Hn).
  rewrite decide_False by (intros ->; simpl in *; lia). by decode_name pre nm post.
Qed.

Lemma parse_mx_rdata_wire p nm rdata :
  rdata = to_be16 p ++ nm → msg = pre ++ rdata ++ post → is_u16 p → name_ok nm →
  parse_mx_rdata rdata msg off = Ok (Some (RData.MX p nm)).
Proof.
  intros -> Hmsg Hp Hn. unfold parse_mx_rdata. pose proof (name_ok_nonempty _ Hn).
  rewrite decide_False by (simpl; lia). read_fields.
  by decode_name (pre ++ to_be16 p) nm post.
Qed.

Lemma parse_srv_rdata_wire p w o nm rdata :
  rdata = to_be16 p ++ to_be16 w ++ to_be16 o ++ nm → msg = pre ++ rdata ++ post →
  is_u16 p → is_u16 w → is_u16 o → name_ok nm →
  parse_srv_rdata rdata msg off = Ok (Some (RData.SRV p w o nm)).
Proof.
  intros -> Hmsg Hp Hw Ho Hn. unfold parse_srv_rdata. pose proof (name_ok_nonempty _ Hn).
  rewrite decide_False by (simpl; lia). read_fields.
  by decode_name (pre ++ to_be16 p ++ to_be16 w ++ to_be16 o) nm post.
Qed.

Lemma parse_soa_rdata_wire m r a b c d e rdata :
  rdata = decompressed_rdata (RData.SOA m r a b c d e) → msg = pre ++ rdata ++ post →
  name_ok m → name_ok r → is_u32 a → is_u32 b → is_u32 c → is_u32 d → is_u32 e →
  parse_soa_rdata rdata msg off = Ok (Some (RData.SOA m r a b c d e)).
Proof.
  intros -> Hmsg Hm Hr ?????. cbn [decompressed_rdata] in *. unfold parse_soa_rdata.
  set (nums := to_be32 a ++ _) in *.
  decode_name pre m (r ++ nums ++ post). decode_name (pre ++ m) r (nums ++ post).
  replace (off + length m + length r - off)%nat with (length (m ++ r))
    by (rewrite length_app; lia).
  rewrite !app_assoc. rewrite decide_False by (rewrite !length_app; simpl; lia).
  unfold rd_u32. rewrite !(idx_app_ge (m ++ r)) by lia.
  rewrite !Nat.sub_diag, <-!Nat.add_assoc, !Nat.add_sub'. subst nums.
  simpl. by rewrite !be32_to_be32.
Qed.

Lemma parse_rrsig_rdata_wire tc a l o e i k nm s rdata :
  rdata = decompressed_rdata (RData.RRSIG tc a l o e i k nm s) → msg = pre ++ rdata ++ post →
  is_u16 tc → is_u32 o → is_u32 e → is_u32 i → is_u16 k → name_ok nm →
  parse_rrsig_rdata rdata msg off = Ok (Some (RData.RRSIG tc a l o e i k nm s)).
Proof.
  intros Hrd Hmsg ????? Hn. cbn [decompressed_rdata] in *.
  set (fixed := to_be16 tc ++ [a] ++ [l] ++ to_be32 o ++ to_be32 e ++ to_be32 i ++ to_be16 k).
  unfold parse_rrsig_rdata. rewrite decide_False by (subst; simpl; lia).
  rewrite Hrd. read_fields.
  match goal with |- context [slice_from ?l _] => change l with (fixed ++ nm ++ s) end.
  decode_name (pre ++ fixed) nm (s ++ post).
  replace (off + 18 + length nm - off)%nat with (length (fixed ++ nm))
    by (rewrite length_app; simpl; lia).
  rewrite app_assoc, decide_False by (rewrite length_app; lia).
  by rewrite slice_from_app by done.
Qed.

Lemma parse_nsec_rdata_wire nm bm rdata :
  rdata = nm ++ bm → msg = pre ++ rdata ++ post → name_ok nm →
  parse_nsec_rdata rdata msg off = Ok (Some (RData.NSEC nm bm)).
Proof.
  intros -> Hmsg Hn. unfold parse_nsec_rdata. decode_name pre nm (bm ++ post).
  rewrite slice_from_app by lia. done.
Qed.
End wire.

Lemma parse_txt_loop_wire fuel ss pre parts :
  Forall string_ok ss → (length (decompressed_rdata (RData.TXT ss)) < fuel)%nat →
  parse_txt_loop fuel (pre ++ decompressed_rdata (RData.TXT ss)) (length pre) parts =
  Some (parts ++ ss).
Proof.
  intros Hss. revert fuel pre parts.
  induction Hss as [|s ss (Hb & Hlen & Hutf) Hss IH]; intros [|fuel] pre parts Hf;
    cbn [decompressed_rdata map concat] in *; try (simpl in Hf; lia).
  { cbn [parse_txt_loop]. rewrite lookup_ge_None_2 by (rewrite app_nil_r; lia).
    by rewrite app_nil_r. }
  rewrite u8_id in * by width. cbn [length app] in *. rewrite length_app in Hf.
  cbn [parse_txt_loop]. rewrite list_lookup_middle by done. rewrite Nat2Z.id.
  rewrite decide_False by (rewrite length_app; cbn [length]; rewrite length_app; lia).
  rewrite take_drop_label, Hutf, app_label_assoc.
  specialize (IH fuel (pre ++ label_wire s) (parts ++ [s])).
  rewrite length_app_label in IH. rewrite IH by lia.
  by rewrite <-app_assoc.
Qed.

Lemma parse_rdata_unknown rtype rdata msg off :
  (rtype ∉ parsed_types) →
  parse_rdata rtype rdata msg off =
  if decide (Z.of_nat (length rdata) <= 65535) then Ok (Some (RData.Unknown rdata)) else Ok None.
Proof.
  intros H. unfold parse_rdata, parsed_types in *.
  repeat case_match; try done; subst; exfalso; apply H; set_solver.
Qed.

Lemma parse_rdata_wire rtype rd pre post :
  rdata_ok rtype rd → bytes_ok (pre ++ decompressed_rdata rd ++ post) →
  parse_rdata rtype (decompressed_rdata rd) (pre ++ decompressed_rdata rd ++ post) (length pre) =
  Ok (Some rd).
Proof.
  intros Hrd Hb.
  destruct rd; simpl in Hrd; destruct_and?; subst rtype || idtac; cbn [parse_rdata]; try done.
  - do 5 (destruct octets as [|? octets]; try done).
  - unfold parse_aaaa_rdata. by rewrite decide_True.
  - by eapply parse_name_rdata_wire.
  - by eapply parse_name_rdata_wire.
  - by eapply parse_name_rdata_wire.
  - by eapply parse_mx_rdata_wire.
  - by eapply parse_soa_rdata_wire.
  - unfold parse_txt_rdata.
    pose proof (parse_txt_loop_wire _ strings [] [] H0 (Nat.lt_succ_diag_r _)) as Htxt.
    cbn [app length] in Htxt. by rewrite Htxt.
  - by eapply parse_srv_rdata_wire.
  - by eapply parse_rrsig_rdata_wire.
  - unfold parse_dnskey_rdata. rewrite decide_False by (simpl; lia). read_fields.
    by rewrite slice_from_in_range by (simpl; lia).
  - by eapply parse_nsec_rdata_wire.
  - unfold parse_ds_rdata. rewrite decide_False by (simpl; lia). read_fields.
    by rewrite slice_from_in_range by (simpl; lia).
  - rewrite parse_rdata_unknown by done. by rewrite decide_True.
Qed.

(** What a parser returns is well-formed RDATA of the type it was asked for. *)
Lemma parse_txt_loop_ok fuel rdata pos parts ss :
  bytes_ok rdata → Forall string_ok parts →
  parse_txt_loop fuel rdata pos parts = Some ss → Forall string_ok ss.
Proof.
  intros Hb. revert pos parts. induction fuel as [|fuel IH]; intros pos parts Hp; simpl.
  { by intros [= <-]. }
  destruct (rdata !! pos) as [b|] eqn:Hbyte; [|by intros [= <-]].
  pose proof (bytes_ok_lookup _ _ _ Hb Hbyte). case_decide; [done|]. apply IH.
  destruct (utf8_valid _) eqn:Hutf; [|done]. apply Forall_app. split; [done|].
  apply Forall_singleton. split_and!; [auto with width| |done]. rewrite length_take. width.
Qed.

Section ok.
Context (rdata msg : bytes) (off : nat) (Hr : bytes_ok rdata) (Hb : bytes_ok msg).

Lemma parse_name_rdata_ok ctor rd :
  parse_name_rdata rdata msg off ctor = Ok (Some rd) → ∃ nm, rd = ctor nm ∧ name_ok nm.
Proof using Hb.
  unfold parse_name_rdata. case_decide; [done|].
  destruct (decode_domain_name_at msg off) as [[nm e]|[]| |] eqn:E; try done.
  apply decode_at_ok in E as [? _]; [|done]. intros [= <-]. eauto.
Qed.

Lemma rd_u16_ok i x : rd_u16 (E:=DnsError.t) rdata i = Ok x → is_u16 x.
Proof using Hr.
  unfold rd_u16. intros (a & Ha%idx_Ok & (b & Hbb%idx_Ok & [= <-])%bind_Ok)%bind_Ok.
  apply be16_range; eauto with width.
Qed.
Lemma rd_u32_ok i x : rd_u32 (E:=DnsError.t) rdata i = Ok x → is_u32 x.
Proof using Hr.
  unfold rd_u32.
  intros (a & Ha%idx_Ok & (b & Hbb%idx_Ok & (c & Hc%idx_Ok & (d & Hd%idx_Ok & [= <-])
    %bind_Ok)%bind_Ok)%bind_Ok)%bind_Ok.
  apply be32_range; eauto with width.
Qed.
Lemma idx_ok i x : idx (E:=DnsError.t) rdata i = Ok x → is_u8 x.
Proof using Hr. intros H%idx_Ok. eauto with width. Qed.
Lemma slice_from_ok i l : slice_from (E:=DnsError.t) rdata i = Ok l → bytes_ok l.
Proof using Hr. unfold slice_from. case_decide; [|done]. intros [= <-]. auto with width. Qed.
Lemma decode_ok o x : outcome_ok (decode_domain_name_at msg o) = Ok (Some x) → name_ok x.1.
Proof using Hb. intros H%outcome_ok_inv. destruct x. by apply decode_at_ok in H as [? _]. Qed.
End ok.

(** Take a chain of binds apart, with what each step says of its value. *)
Ltac inv_parse Hr Hb :=
  repeat match goal with
  | H : _ ≫= _ = Ok _ |- _ => apply bind_Ok in H as (? & ? & H)
  | H : match ?x with Some _ => _ | None => _ end = Ok _ |- _ => destruct x eqn:?; simplify_eq/=
  | H : match ?x with pair _ _ => _ end = Ok _ |- _ => destruct x eqn:?; simplify_eq/=
  | H : (if decide ?P then _ else _) = Ok _ |- _ => destruct (decide P); simplify_eq/=
  | H : rd_u16 _ _ = Ok _ |- _ => apply (rd_u16_ok _ Hr) in H
  | H : rd_u32 _ _ = Ok _ |- _ => apply (rd_u32_ok _ Hr) in H
  | H : idx _ _ = Ok _ |- _ => apply (idx_ok _ Hr) in H
  | H : slice_from _ _ = Ok _ |- _ => apply (slice_from_ok _ Hr) in H
  | H : outcome_ok _ = Ok (Some _) |- _ => apply (decode_ok _ Hb) in H; simpl in H
  | H : Ok _ = Ok _ |- _ => injection H as H
  end.

Lemma parse_rdata_ok rtype rdata msg off rd :
  bytes_ok rdata → bytes_ok msg →
  parse_rdata rtype rdata msg off = Ok (Some rd) → rdata_ok rtype rd.
Proof.
  intros Hr Hb H. destruct (decide (rtype ∈ parsed_types)) as [Hin|Hni].
  - unfold parsed_types in Hin. rewrite !elem_of_cons, elem_of_nil in Hin.
    destruct_or! Hin; try done; subst rtype; cbn [parse_rdata] in H;
      try (apply parse_name_rdata_ok in H as (nm & -> & ?); [|done]; done).
    + unfold parse_a_rdata in H. inv_parse Hr Hb. subst. simpl.
      split_and!; [done|by repeat apply Forall_cons_2|done].
    + unfold parse_aaaa_rdata in H. inv_parse Hr Hb. subst. simpl. done.
    + unfold parse_mx_rdata in H. inv_parse Hr Hb. subst. simpl. done.
    + unfold parse_soa_rdata in H. inv_parse Hr Hb. subst. simpl. done.
    + unfold parse_txt_rdata in H. injection H as H. apply fmap_Some in H as (ss & H & ->).
      simpl. split; [done|]. 
      apply (parse_txt_loop_ok (S (length rdata)) rdata 0 [] ss Hr); [constructor|exact H].
    + unfold parse_srv_rdata in H. inv_parse Hr Hb. subst. simpl. done.
    + unfold parse_rrsig_rdata in H. inv_parse Hr Hb. subst. simpl. done.
    + unfold parse_dnskey_rdata in H. inv_parse Hr Hb. subst. simpl. done.
    + unfold parse_ds_rdata in H. inv_parse Hr Hb. subst. simpl. done.
    + unfold parse_nsec_rdata in H. inv_parse Hr Hb. subst. simpl. done.
  - rewrite parse_rdata_unknown in H by done. case_decide; simplify_eq. done.
Qed.

(** ** Panics *)

Lemma safe_decode_at msg off : safe (decode_domain_name_at msg off).
Proof. apply decode_loop_no_panic. Qed.
#[export] Hint Resolve safe_decode_at : safe.

Lemma parse_rdata_safe rtype rdata msg off :
  rtype ≠ 47 → safe (parse_rdata rtype rdata msg off).
Proof.
  intros H. destruct (decide (rtype ∈ parsed_types)) as [Hin|Hni].
  - unfold parsed_types in Hin. rewrite !elem_of_cons, elem_of_nil in Hin.
    destruct_or! Hin; try done; subst rtype; cbn [parse_rdata];
      unfold parse_a_rdata, parse_aaaa_rdata, parse_name_rdata, parse_mx_rdata, parse_soa_rdata,
        parse_txt_rdata, parse_srv_rdata, parse_rrsig_rdata, parse_dnskey_rdata, parse_ds_rdata;
      safe_steps.
  - rewrite parse_rdata_unknown by done. by case_decide.
Qed.

Lemma parse_nsec_panic rdata msg off :
  parse_nsec_rdata rdata msg off = Panic ↔
  ∃ nm e, decode_domain_name msg off = Ok (nm, e) ∧ (length rdata < e - off)%nat.
Proof.
  unfold parse_nsec_rdata, decode_domain_name_at. split.
  - pose proof (safe_decode_at msg off) as Hs. unfold decode_domain_name_at in Hs.
    destruct (decode_domain_name msg off) as [[nm e]|[]| |] eqn:E; try done.
    cbn [outcome_ok mbind outcome_bind]. unfold slice_from. case_decide; [done|].
    intros _. exists nm, e. split; [done|lia].
  - intros (nm & e & -> & Hlen). cbn [outcome_ok mbind outcome_bind].
    unfold slice_from. by rewrite decide_False by lia.
Qed.

(** ** Properties *)

(** C28: for every well-formed parsed RDATA of one of the thirteen parsed types (or of an
    unknown type), parsing the bytes [decompressed_rdata] builds from it, anywhere inside
    a message, gives the same value back. *)
Theorem rdata_roundtrip rtype rd pre post :
  rdata_ok rtype rd → bytes_ok (pre ++ decompressed_rdata rd ++ post) →
  parse_rdata rtype (decompressed_rdata rd) (pre ++ decompressed_rdata rd ++ post) (length pre) =
  Ok (Some rd).
Proof. apply parse_rdata_wire. Qed.

Lemma rdata_roundtrip_witness :
  let soa := RData.SOA [1; 97; 0] [0] 1 2 3 4 (2 ^ 32 - 1) in
  parse_rdata 6 (decompressed_rdata soa) ([7; 7] ++ decompressed_rdata soa ++ [9]) 2 =
  Ok (Some soa).
Proof.
  cbn zeta. apply (rdata_roundtrip 6 (RData.SOA [1; 97; 0] [0] 1 2 3 4 (2 ^ 32 - 1)) [7; 7] [9]).
  - assert (name_ok [1; 97; 0]) by (exists [[97]]; split; [repeat constructor; by vm_compute|done]).
    assert (name_ok [0]) by (exists []; split; [constructor|done]).
    simpl. repeat split; (done || width).
  - repeat constructor; by vm_compute.
Defined.

(** Parsing canonicalises: whatever [parse_rdata] returns for RDATA of a message, its
    uncompressed form is well-formed RDATA of the same type, and parsing that form again in
    any message gives the same value, so storing a record and sending it again is stable. *)
Theorem parse_rdata_canonical rtype rdata msg off rd pre post :
  bytes_ok rdata → bytes_ok msg → bytes_ok (pre ++ decompressed_rdata rd ++ post) →
  parse_rdata rtype rdata msg off = Ok (Some rd) →
  rdata_ok rtype rd ∧
  parse_rdata rtype (decompressed_rdata rd) (pre ++ decompressed_rdata rd ++ post) (length pre) =
  Ok (Some rd).
Proof.
  intros Hr Hb Hb' Hrd%parse_rdata_ok; [|done|done]. split; [done|]. by apply parse_rdata_wire.
Qed.

Lemma parse_rdata_canonical_witness :
  rdata_ok 5 (RData.CNAME [1; 97; 1; 98; 0]) ∧
  parse_rdata 5 [1; 97; 1; 98; 0] [1; 97; 1; 98; 0] 0 = Ok (Some (RData.CNAME [1; 97; 1; 98; 0])).
Proof.
  apply (parse_rdata_canonical 5 [1; 97; 192; 0] [1; 98; 0; 1; 97; 192; 0] 3
           (RData.CNAME [1; 97; 1; 98; 0]) [] []);
    [repeat constructor; by vm_compute..|by vm_compute].
Defined.

(** [parse_rdata] panics on exactly one class of input: an NSEC record whose next
    domain name, decoded in the whole message, ends behind the record's own RDATA. *)
Theorem parse_rdata_panics_iff rtype rdata msg off :
  parse_rdata rtype rdata msg off = Panic ↔
  rtype = 47 ∧
  ∃ nm e, decode_domain_name msg off = Ok (nm, e) ∧ (length rdata < e - off)%nat.
Proof.
  split.
  - intros H. destruct (decide (rtype = 47)) as [->|Hne].
    + split; [done|]. by apply parse_nsec_panic.
    + by destruct (parse_rdata_safe rtype rdata msg off Hne).
  - intros [-> H]. by apply parse_nsec_panic.
Qed.
