(* ===== verification/Message.v ===== *)
(** * Messages on the wire (src/dns/types.rs, lines 8-562; src/dns/wire.rs)

    Header, question, record and message, read from and written to byte
    buffers.  A writer gets the buffer and returns the new buffer with the
    number of bytes written; [buf[offset..]] passed as [&mut] is the
    sub-buffer that is put back behind the part before it. *)

From stdpp Require Import strings.
From S2P Require Import Prelude Constants Str Types Names NameCodec Rdata.
#[local] Open Scope Z_scope.

(** ** Header *)

Definition Header_new_query (id : Z) (rd : bool) : Header :=
  mkHeader id false 0 false false rd false 0 false false 0 0 0 0 0.

Definition Header_new_response (id rcode : Z) : Header :=
  mkHeader id true 0 false false true true 0 false false rcode 0 0 0 0.

(** [(flags >> n) & 1 == 1] *)
Definition flag_bit (flags n : Z) : bool := bool_decide (Z.land (Z.shiftr flags n) 1 = 1).

Definition Header_from_bytes (data : bytes) : DnsResult Header :=
  if decide (length data < 12)%nat then Err (DnsError.BufferTooSmall 12 (length data)) else
  id ← rd_u16 data 0;
  flags ← rd_u16 data 2;
  qdcount ← rd_u16 data 4;
  ancount ← rd_u16 data 6;
  nscount ← rd_u16 data 8;
  arcount ← rd_u16 data 10;
  Ok {|
    h_id := id;
    h_qr := flag_bit flags 15;
    h_opcode := u8 (Z.land (Z.shiftr flags 11) 15);
    h_aa := flag_bit flags 10;
    h_tc := flag_bit flags 9;
    h_rd := flag_bit flags 8;
    h_ra := flag_bit flags 7;
    h_z := u8 (Z.land (Z.shiftr flags 6) 3);
    h_ad := flag_bit flags 5;
    h_cd := flag_bit flags 4;
    h_rcode := u8 (Z.land flags 15);
    h_qdcount := qdcount;
    h_ancount := ancount;
    h_nscount := nscount;
    h_arcount := arcount |}.

(** [x << n] on a [u16] *)
Definition shl16 (x n : Z) : Z := u16 (Z.shiftl x n).

Definition header_flags (self : Header) : Z :=
  Z.lor (Z.lor (Z.lor (Z.lor (Z.lor (Z.lor (Z.lor (Z.lor (Z.lor
    (shl16 (bit (h_qr self)) 15)
    (shl16 (h_opcode self) 11))
    (shl16 (bit (h_aa self)) 10))
    (shl16 (bit (h_tc self)) 9))
    (shl16 (bit (h_rd self)) 8))
    (shl16 (bit (h_ra self)) 7))
    (shl16 (h_z self) 6))
    (shl16 (bit (h_ad self)) 5))
    (shl16 (bit (h_cd self)) 4))
    (h_rcode self).

Definition Header_to_bytes (self : Header) (buf : bytes) : DnsResult (bytes * nat) :=
  if decide (length buf < 12)%nat then Err (DnsError.BufferTooSmall 12 (length buf)) else
  buf ← write_slice buf 0 2 (to_be16 (h_id self));
  buf ← write_slice buf 2 4 (to_be16 (header_flags self));
  buf ← write_slice buf 4 6 (to_be16 (h_qdcount self));
  buf ← write_slice buf 6 8 (to_be16 (h_ancount self));
  buf ← write_slice buf 8 10 (to_be16 (h_nscount self));
  buf ← write_slice buf 10 12 (to_be16 (h_arcount self));
  Ok (buf, 12%nat).

(** ** Question *)

Definition Question_new (name : str) (qtype qclass : Z) : DnsResult Question :=
  encoded ← encode_domain_name name;
  Ok (mkQuestion encoded qtype qclass).

Definition Question_from_bytes (data : bytes) (offset : nat) : DnsResult (Question * nat) :=
  '(qname, off) ← decode_domain_name data offset;
  if decide (length data < off + 4)%nat then Err DnsError.UnexpectedEof else
  qtype ← rd_u16 data off;
  qclass ← rd_u16 data (off + 2);
  Ok (mkQuestion qname qtype qclass, (off + 4)%nat).

Definition Question_to_bytes (self : Question) (buf : bytes) : DnsResult (bytes * nat) :=
  let total := (length (q_name self) + 4)%nat in
  if decide (length buf < total)%nat then Err (DnsError.BufferTooSmall total (length buf)) else
  let off := length (q_name self) in
  buf ← write_slice buf 0 off (q_name self);
  buf ← write_slice buf off (off + 2) (to_be16 (q_type self));
  buf ← write_slice buf (off + 2) (off + 4) (to_be16 (q_class self));
  Ok (buf, total).

Definition Question_name_str (self : Question) : str := labels_to_string (q_name self).

(** ** Resource record *)

Definition ResourceRecord_from_bytes (data : bytes) (offset : nat)
    : DnsResult (ResourceRecord * nat) :=
  '(name, off) ← decode_domain_name data offset;
  if decide (length data < off + 10)%nat then Err DnsError.UnexpectedEof else
  rtype ← rd_u16 data off;
  rclass ← rd_u16 data (off + 2);
  ttl ← rd_u32 data (off + 4);
  rdlength ← rd_u16 data (off + 8);
  let rdlen := Z.to_nat rdlength in
  let data_start := (off + 10)%nat in
  if decide (length data < data_start + rdlen)%nat then Err DnsError.UnexpectedEof else
  raw_rdata ← slice data data_start (data_start + rdlen);
  parsed ← parse_rdata rtype raw_rdata data data_start;
  let '(rdata, rdlength) :=
    match parsed with
    | Some p =>
      let decompressed := decompressed_rdata p in
      (decompressed, u16 (Z.of_nat (length decompressed)))
    | None => (raw_rdata, rdlength)
    end in
  Ok (mkRR name rtype rclass ttl rdlength rdata parsed, (data_start + rdlen)%nat).

Definition ResourceRecord_to_bytes (self : ResourceRecord) (buf : bytes)
    : DnsResult (bytes * nat) :=
  let rdlength := Z.to_nat (rr_rdlength self) in
  let total := (length (rr_name self) + 10 + rdlength)%nat in
  if decide (length buf < total)%nat then Err (DnsError.BufferTooSmall total (length buf)) else
  let off := length (rr_name self) in
  buf ← write_slice buf 0 off (rr_name self);
  buf ← write_slice buf off (off + 2) (to_be16 (rr_rtype self));
  buf ← write_slice buf (off + 2) (off + 4) (to_be16 (rr_rclass self));
  buf ← write_slice buf (off + 4) (off + 8) (to_be32 (rr_ttl self));
  buf ← write_slice buf (off + 8) (off + 10) (to_be16 (rr_rdlength self));
  let off := (off + 10)%nat in
  buf ← write_slice buf off (off + rdlength) (rr_rdata self);
  Ok (buf, (off + rdlength)%nat).

Definition ResourceRecord_name_str (self : ResourceRecord) : str := labels_to_string (rr_name self).

(** ** Message *)

(** The [for _ in 0..count] loops of [Message::from_bytes]. *)
Fixpoint read_items {A} (f : bytes → nat → DnsResult (A * nat)) (count : nat) (data : bytes)
    (offset : nat) : DnsResult (list A * nat) :=
  match count with
  | O => Ok ([], offset)
  | S count =>
    '(x, off) ← f data offset;
    '(xs, offset) ← read_items f count data off;
    Ok (x :: xs, offset)
  end.

Definition Message_from_bytes (data : bytes) : DnsResult Message :=
  header ← Header_from_bytes data;
  let offset := 12%nat in
  '(questions, offset) ←
    read_items Question_from_bytes (Z.to_nat (h_qdcount header)) data offset;
  '(answers, offset) ←
    read_items ResourceRecord_from_bytes (Z.to_nat (h_ancount header)) data offset;
  '(authorities, offset) ←
    read_items ResourceRecord_from_bytes (Z.to_nat (h_nscount header)) data offset;
  '(additionals, offset) ←
    read_items ResourceRecord_from_bytes (Z.to_nat (h_arcount header)) data offset;
  Ok (mkMessage header questions answers authorities additionals).

(** The loops [offset += x.to_bytes(&mut buf[offset..])?] of [Message::to_bytes]. *)
Fixpoint write_items {A} (f : A → bytes → DnsResult (bytes * nat)) (xs : list A) (buf : bytes)
    (offset : nat) : DnsResult (bytes * nat) :=
  match xs with
  | [] => Ok (buf, offset)
  | x :: xs =>
    sub ← slice_from buf offset;
    '(sub, n) ← f x sub;
    write_items f xs (take offset buf ++ sub) (offset + n)
  end.

(** The header that is written: the counts are those of the sections. *)
Definition counted_header (self : Message) : Header :=
  let h := m_header self in
  mkHeader (h_id h) (h_qr h) (h_opcode h) (h_aa h) (h_tc h) (h_rd h) (h_ra h) (h_z h) (h_ad h)
    (h_cd h) (h_rcode h)
    (u16 (Z.of_nat (length (m_questions self)))) (u16 (Z.of_nat (length (m_answers self))))
    (u16 (Z.of_nat (length (m_authorities self)))) (u16 (Z.of_nat (length (m_additionals self)))).

Definition Message_to_bytes (self : Message) (buf : bytes) : DnsResult (bytes * nat) :=
  let header := counted_header self in
  '(buf, offset) ← Header_to_bytes header buf;
  '(buf, offset) ← write_items Question_to_bytes (m_questions self) buf offset;
  '(buf, offset) ← write_items ResourceRecord_to_bytes (m_answers self) buf offset;
  '(buf, offset) ← write_items ResourceRecord_to_bytes (m_authorities self) buf offset;
  write_items ResourceRecord_to_bytes (m_additionals self) buf offset.

Definition Message_answer_records (self : Message) (rtype : Z) : list ResourceRecord :=
  filter (λ r, rr_rtype r = rtype) (m_answers self).
Definition Message_authority_records (self : Message) (rtype : Z) : list ResourceRecord :=
  filter (λ r, rr_rtype r = rtype) (m_authorities self).
Definition Message_additional_records (self : Message) (rtype : Z) : list ResourceRecord :=
  filter (λ r, rr_rtype r = rtype) (m_additionals self).

(** ** EDNS0 *)

Definition OptRecord_new (dnssec_ok : bool) : OptRecord :=
  mkOptRecord (u16 MAX_EDNS_PAYLOAD) 0 0 dnssec_ok [].

Definition OptRecord_to_resource_record (self : OptRecord) : ResourceRecord :=
  let rdata := [] in
  mkRR [0] 41 (o_udp_payload_size self)
    (Z.lor (Z.lor (u32 (Z.shiftl (o_ext_rcode self) 24)) (u32 (Z.shiftl (o_edns_version self) 16)))
       (u32 (Z.shiftl (bit (o_dnssec_ok self)) 15)))
    (u16 (Z.of_nat (length rdata))) rdata None.

(** ** Wire helpers *)

Definition MAX_DNS_MESSAGE_SIZE : nat := Z.to_nat 8192.

Definition encode_message (msg : Message) : DnsResult bytes :=
  let buf := replicate MAX_DNS_MESSAGE_SIZE 0 in
  '(buf, len) ← Message_to_bytes msg buf;
  Ok (take len buf).

Definition decode_message (data : bytes) : DnsResult Message := Message_from_bytes data.

(** ** Specification: the wire form of each part *)

Definition header_wire (h : Header) : bytes :=
  to_be16 (h_id h) ++ to_be16 (header_flags h) ++ to_be16 (h_qdcount h) ++
  to_be16 (h_ancount h) ++ to_be16 (h_nscount h) ++ to_be16 (h_arcount h).

Definition question_wire (q : Question) : bytes :=
  q_name q ++ to_be16 (q_type q) ++ to_be16 (q_class q).

Definition rr_wire (r : ResourceRecord) : bytes :=
  rr_name r ++ to_be16 (rr_rtype r) ++ to_be16 (rr_rclass r) ++ to_be32 (rr_ttl r) ++
  to_be16 (rr_rdlength r) ++ rr_rdata r.

Definition message_wire (m : Message) : bytes :=
  header_wire (counted_header m) ++ concat (map question_wire (m_questions m)) ++
  concat (map rr_wire (m_answers m)) ++ concat (map rr_wire (m_authorities m)) ++
  concat (map rr_wire (m_additionals m)).

(** The length field of a record is the length of its data. *)
Definition rdlength_exact (r : ResourceRecord) : Prop :=
  rr_rdlength r = Z.of_nat (length (rr_rdata r)).

(** A header whose reserved bit 7 agrees with its RA flag, as both are
    written to the same bit. *)
Definition z_agrees (h : Header) : Prop := Z.testbit (h_z h) 1 = h_ra h.

(** ** Bits of the flag word *)

#[local] Arguments Z.testbit : simpl never.
#[local] Arguments Z.modulo : simpl never.

Lemma flag_bit_testbit flags n : 0 ≤ n → flag_bit flags n = Z.testbit flags n.
Proof.
  intros Hn. unfold flag_bit.
  assert (E : Z.land (Z.shiftr flags n) 1 = Z.b2z (Z.testbit flags n)).
  { rewrite Z.testbit_spec', <-Z.shiftr_div_pow2 by done. by apply (land_ones_mod _ 1). }
  rewrite E. by destruct (Z.testbit flags n).
Qed.

Lemma testbit_high x n i : 0 ≤ x < 2 ^ n → 0 ≤ n ≤ i → Z.testbit x i = false.
Proof.
  intros Hx Hn. rewrite <-(Z.mod_small x (2 ^ n)) by done. apply Z.mod_pow2_bits_high. lia.
Qed.

Lemma testbit_bit b i : Z.testbit (bit b) i = bool_decide (i = 0) && b.
Proof.
  destruct (decide (i = 0)) as [->|]; [by destruct b|]. rewrite bool_decide_eq_false_2 by done.
  destruct (decide (i < 0)); [by rewrite Z.testbit_neg_r|].
  apply (testbit_high _ 1); [|lia]. destruct b; simpl; lia.
Qed.

Lemma testbit_shl16 x n i :
  0 ≤ n → 0 ≤ i → Z.testbit (shl16 x n) i = bool_decide (i < 16) && Z.testbit x (i - n).
Proof.
  intros Hn Hi. unfold shl16, u16. change 65536 with (2 ^ 16).
  destruct (decide (i < 16)).
  - rewrite Z.mod_pow2_bits_low by done. rewrite Z.shiftl_spec by done.
    by rewrite bool_decide_eq_true_2.
  - rewrite Z.mod_pow2_bits_high by lia. by rewrite bool_decide_eq_false_2.
Qed.

(** The bits of the flag word, by position. *)
Lemma header_flags_bits h i :
  0 ≤ i → Z.testbit (header_flags h) i =
  bool_decide (i < 16) &&
  ((bool_decide (i = 15) && h_qr h) || Z.testbit (h_opcode h) (i - 11) ||
   (bool_decide (i = 10) && h_aa h) || (bool_decide (i = 9) && h_tc h) ||
   (bool_decide (i = 8) && h_rd h) || (bool_decide (i = 7) && h_ra h) ||
   Z.testbit (h_z h) (i - 6) || (bool_decide (i = 5) && h_ad h) ||
   (bool_decide (i = 4) && h_cd h)) || Z.testbit (h_rcode h) i.
Proof.
  intros Hi. unfold header_flags. rewrite !Z.lor_spec, !testbit_shl16, !testbit_bit by done.
  assert (Hd : ∀ k, bool_decide (i - k = 0) = bool_decide (i = k))
    by (intros; apply bool_decide_ext; lia).
  rewrite !Hd. by destruct (bool_decide (i < 16)).
Qed.

Lemma header_flags_nonneg h : header_ok h → 0 ≤ header_flags h.
Proof.
  intros []. unfold header_flags. rewrite !Z.lor_nonneg.
  pose proof (u16_range) as Hr. unfold is_u16 in Hr. unfold shl16.
  split_and!; (apply Hr || lia).
Qed.

Lemma header_flags_u16 h : header_ok h → is_u16 (header_flags h).
Proof.
  intros Hh. pose proof (header_flags_nonneg h Hh). split; [done|].
  change 65536 with (2 ^ 16). apply Z.bounded_iff_bits_nonneg; [lia|done|].
  intros i Hi. rewrite header_flags_bits by lia. rewrite bool_decide_eq_false_2 by lia.
  destruct Hh. apply (testbit_high _ 4); lia.
Qed.

(** A field of [n] bits at position [k]. *)
Lemma field_bits flags k n i :
  0 ≤ flags → 0 ≤ k → 0 ≤ n ≤ 8 → 0 ≤ i →
  Z.testbit (u8 (Z.land (Z.shiftr flags k) (2 ^ n - 1))) i =
  bool_decide (i < n) && Z.testbit flags (i + k).
Proof.
  intros Hf Hk Hn Hi. rewrite land_ones_mod by lia.
  assert (2 ^ n ≤ 2 ^ 8) by (apply Z.pow_le_mono_r; lia).
  assert (0 < 2 ^ n) by (apply Z.pow_pos_nonneg; lia).
  rewrite u8_id by (unfold is_u8; pose proof (Z.mod_pos_bound (Z.shiftr flags k) (2 ^ n)); lia).
  destruct (decide (i < n)).
  - rewrite Z.mod_pow2_bits_low by done. rewrite Z.shiftr_spec by done.
    by rewrite bool_decide_eq_true_2.
  - rewrite Z.mod_pow2_bits_high by lia. by rewrite bool_decide_eq_false_2.
Qed.

Lemma header_opcode_bits flags i :
  0 ≤ flags →
  Z.testbit (u8 (Z.land (Z.shiftr flags 11) 15)) (i - 11) =
  bool_decide (11 ≤ i < 15) && Z.testbit flags i.
Proof.
  intros Hf. destruct (decide (i < 11)).
  - rewrite Z.testbit_neg_r by lia. by rewrite bool_decide_eq_false_2 by lia.
  - rewrite (field_bits flags 11 4), Z.sub_add by lia. f_equal. apply bool_decide_ext. lia.
Qed.
Lemma header_z_bits flags i :
  0 ≤ flags →
  Z.testbit (u8 (Z.land (Z.shiftr flags 6) 3)) (i - 6) =
  bool_decide (6 ≤ i < 8) && Z.testbit flags i.
Proof.
  intros Hf. destruct (decide (i < 6)).
  - rewrite Z.testbit_neg_r by lia. by rewrite bool_decide_eq_false_2 by lia.
  - rewrite (field_bits flags 6 2), Z.sub_add by lia. f_equal. apply bool_decide_ext. lia.
Qed.
Lemma header_rcode_bits flags i :
  0 ≤ flags → 0 ≤ i →
  Z.testbit (u8 (Z.land flags 15)) i = bool_decide (i < 4) && Z.testbit flags i.
Proof.
  intros. rewrite <-(Z.shiftr_0_r flags) at 1.
  rewrite (field_bits flags 0 4) by lia. by rewrite Z.add_0_r.
Qed.

(** Two words are equal when their sixteen bits are. *)
Lemma u16_bits_eq x y :
  is_u16 x → is_u16 y →
  (∀ i, i ∈ seqZ 0 16 → Z.testbit x i = Z.testbit y i) → x = y.
Proof.
  intros Hx Hy H. apply Z.bits_inj'. intros i Hi. destruct (decide (i < 16)).
  - apply H, elem_of_seqZ. lia.
  - rewrite !(testbit_high _ 16) by (width || lia). done.
Qed.

Lemma header_ok_of_flags flags :
  is_u16 flags →
  0 ≤ u8 (Z.land (Z.shiftr flags 11) 15) < 16 ∧ 0 ≤ u8 (Z.land (Z.shiftr flags 6) 3) < 4 ∧
  0 ≤ u8 (Z.land flags 15) < 16.
Proof.
  intros Hf. change 15 with (2 ^ 4 - 1). change 3 with (2 ^ 2 - 1).
  rewrite !land_ones_mod by lia.
  pose proof (Z.mod_pos_bound (Z.shiftr flags 11) (2 ^ 4)).
  pose proof (Z.mod_pos_bound (Z.shiftr flags 6) (2 ^ 2)).
  pose proof (Z.mod_pos_bound flags (2 ^ 4)).
  change (2 ^ 4) with 16 in *. change (2 ^ 2) with 4 in *.
  rewrite !u8_id by width. lia.
Qed.

(** Writing the fields of a flag word gives the word back. *)
Lemma header_flags_of_fields flags h :
  is_u16 flags → header_ok h →
  h_qr h = flag_bit flags 15 → h_opcode h = u8 (Z.land (Z.shiftr flags 11) 15) →
  h_aa h = flag_bit flags 10 → h_tc h = flag_bit flags 9 → h_rd h = flag_bit flags 8 →
  h_ra h = flag_bit flags 7 → h_z h = u8 (Z.land (Z.shiftr flags 6) 3) →
  h_ad h = flag_bit flags 5 → h_cd h = flag_bit flags 4 → h_rcode h = u8 (Z.land flags 15) →
  header_flags h = flags.
Proof.
  intros Hf Hh E15 E11 E10 E9 E8 E7 E6 E5 E4 E0. pose proof Hf as [Hpos _].
  apply u16_bits_eq; [by apply header_flags_u16|done|]. intros i Hi%elem_of_seqZ.
  rewrite header_flags_bits by lia.
  rewrite E15, E11, E10, E9, E8, E7, E6, E5, E4, E0, !flag_bit_testbit by lia.
  rewrite header_opcode_bits, header_z_bits, (header_rcode_bits flags) by lia.
  generalize (Z.testbit flags) as tb. intros tb.
  assert (Hdec : i ∈ seqZ 0 16) by (apply elem_of_seqZ; lia). clear - Hdec.
  cbv [seqZ] in Hdec. simpl in Hdec. rewrite !elem_of_cons, elem_of_nil in Hdec.
  destruct_or! Hdec; try done; subst i; vm_compute; by destruct (tb _).
Qed.

(** The bits of the narrow fields outside their width are zero. *)
Lemma header_narrow h i :
  header_ok h →
  (i < 0 ∨ 4 ≤ i → Z.testbit (h_opcode h) i = false ∧ Z.testbit (h_rcode h) i = false) ∧
  (i < 0 ∨ 2 ≤ i → Z.testbit (h_z h) i = false).
Proof.
  intros [].
  split; intros [?|?]; rewrite ?Z.testbit_neg_r by done; try done;
    rewrite ?(testbit_high _ 4), ?(testbit_high _ 2) by lia; done.
Qed.

(** Two fields of at most [n] bits are equal when those bits are. *)
Lemma small_bits_eq x y n :
  0 ≤ n → 0 ≤ x < 2 ^ n → 0 ≤ y < 2 ^ n →
  (∀ i, 0 ≤ i < n → Z.testbit x i = Z.testbit y i) → x = y.
Proof.
  intros Hn Hx Hy H. apply Z.bits_inj'. intros i Hi. destruct (decide (i < n)).
  - by apply H.
  - by rewrite !(testbit_high _ n) by lia.
Qed.

(** Simplify a known bit of the flag word of a header. *)
Ltac flag_case h Hok :=
  rewrite ?flag_bit_testbit, header_flags_bits by lia;
  repeat match goal with
  | |- context [Z.testbit (h_opcode h) ?i] =>
    rewrite (proj1 (proj1 (header_narrow h i Hok) ltac:(lia)))
  | |- context [Z.testbit (h_rcode h) ?i] =>
    rewrite (proj2 (proj1 (header_narrow h i Hok) ltac:(lia)))
  | |- context [Z.testbit (h_z h) ?i] => rewrite (proj2 (header_narrow h i Hok) ltac:(lia))
  end;
  repeat match goal with
  | |- context [bool_decide ?P] =>
    first [rewrite (bool_decide_eq_true_2 P) by lia | rewrite (bool_decide_eq_false_2 P) by lia]
  end;
  rewrite ?andb_true_l, ?andb_false_l, ?orb_false_l, ?orb_false_r.

Lemma flags_fields h :
  header_ok h → let f := header_flags h in
  flag_bit f 15 = h_qr h ∧ flag_bit f 10 = h_aa h ∧ flag_bit f 9 = h_tc h ∧
  flag_bit f 8 = h_rd h ∧ flag_bit f 7 = h_ra h || Z.testbit (h_z h) 1 ∧
  flag_bit f 5 = h_ad h ∧ flag_bit f 4 = h_cd h.
Proof.
  intros Hok f. subst f. split_and!; flag_case h Hok; try done.
Qed.

Lemma flags_opcode h :
  header_ok h → u8 (Z.land (Z.shiftr (header_flags h) 11) 15) = h_opcode h.
Proof.
  intros Hok. pose proof (header_flags_u16 h Hok) as Hf. pose proof Hok as [].
  apply (small_bits_eq _ _ 4); [lia|apply (header_ok_of_flags _ Hf)|lia|]. intros i Hi.
  rewrite (field_bits _ 11 4) by (width || lia). flag_case h Hok.
  by replace (i + 11 - 11) with i by lia.
Qed.

Lemma flags_rcode h : header_ok h → u8 (Z.land (header_flags h) 15) = h_rcode h.
Proof.
  intros Hok. pose proof (header_flags_u16 h Hok) as Hf. pose proof Hok as [].
  apply (small_bits_eq _ _ 4); [lia|apply (header_ok_of_flags _ Hf)|lia|]. intros i Hi.
  rewrite header_rcode_bits by (width || lia). flag_case h Hok. done.
Qed.

(** What arrives as the reserved field: its own bits, and RA in the upper one. *)
Definition merged_z (h : Header) : Z := Z.lor (h_z h) (2 * bit (h_ra h)).

Lemma flags_z h :
  header_ok h → u8 (Z.land (Z.shiftr (header_flags h) 6) 3) = merged_z h.
Proof.
  intros Hok. pose proof (header_flags_u16 h Hok) as Hf. pose proof Hok as [].
  assert (Hm : 0 ≤ merged_z h < 4).
  { unfold merged_z. assert (Hz : h_z h ∈ seqZ 0 4) by (apply elem_of_seqZ; lia).
    cbv [seqZ] in Hz. simpl in Hz. rewrite !elem_of_cons, elem_of_nil in Hz.
    destruct_or! Hz; try done; rewrite Hz; destruct (h_ra h); by vm_compute. }
  apply (small_bits_eq _ _ 2); [lia|apply (header_ok_of_flags _ Hf)|done|]. intros i Hi.
  rewrite (field_bits _ 6 2) by (width || lia).
  unfold merged_z. rewrite Z.lor_spec, Z.mul_comm, <-(Z.shiftl_mul_pow2 _ 1), Z.shiftl_spec by lia.
  rewrite testbit_bit.
  assert (i = 0 ∨ i = 1) as [-> | ->] by lia; flag_case h Hok; simpl.
  - done.
  - by rewrite orb_comm.
Qed.

(** What reading a written header gives. *)
Definition merged_header (h : Header) : Header :=
  mkHeader (h_id h) (h_qr h) (h_opcode h) (h_aa h) (h_tc h) (h_rd h)
    (h_ra h || Z.testbit (h_z h) 1) (merged_z h) (h_ad h) (h_cd h) (h_rcode h)
    (h_qdcount h) (h_ancount h) (h_nscount h) (h_arcount h).

(** ** Lemmas on reading and writing *)

Lemma be16_be16 a b : is_u8 a → is_u8 b → to_be16 (be16 a b) = [a; b].
Proof. apply to_be16_be16. Qed.

Lemma header_wire_length h : length (header_wire h) = 12%nat.
Proof. done. Qed.

Lemma Header_from_wire h post :
  header_ok h → Header_from_bytes (header_wire h ++ post) = Ok (merged_header h).
Proof.
  intros Hok. unfold Header_from_bytes. rewrite decide_False by (simpl; lia).
  unfold header_wire. pose proof (header_flags_u16 h Hok). pose proof Hok as [].
  unfold rd_u16, idx. cbn [lookup list_lookup Nat.add app mbind outcome_bind to_be16].
  rewrite !be16_to_be16 by done.
  destruct (flags_fields h Hok) as (-> & -> & -> & -> & -> & -> & ->).
  rewrite flags_opcode, flags_rcode, flags_z by done. done.
Qed.

Lemma Header_from_bytes_ok data h :
  bytes_ok data → Header_from_bytes data = Ok h →
  header_ok h ∧ z_agrees h ∧ header_wire h = take 12 data ∧ (12 ≤ length data)%nat.
Proof.
  intros Hb. unfold Header_from_bytes. case_decide as Hlen; [done|].
  do 12 (destruct data as [|? data]; [simpl in Hlen; lia|]).
  unfold rd_u16, idx. cbn [lookup list_lookup Nat.add app mbind outcome_bind].
  rewrite !bytes_ok_cons in Hb. destruct_and! Hb.
  match goal with |- context [flag_bit ?f 15] =>
    assert (Hf : is_u16 f) by (by apply be16_range); set (flags := f) in * end.
  intros [= <-]. pose proof (header_ok_of_flags _ Hf) as (? & ? & ?).
  set (h := mkHeader _ _ _ _ _ _ _ _ _ _ _ _ _ _ _).
  assert (Hok : header_ok h) by (split; try done; by apply be16_range).
  split_and!; [done| | |simpl; lia].
  - unfold z_agrees. cbn [h h_z h_ra]. rewrite flag_bit_testbit by done.
    by rewrite (field_bits flags 6 2) by (width || lia).
  - unfold header_wire. rewrite (header_flags_of_fields flags) by done.
    subst flags. cbn [h h_id h_qdcount h_ancount h_nscount h_arcount take].
    by rewrite !to_be16_be16.
Qed.

(** Writers whose output is a fixed byte string, if it fits. *)
Definition writes {A} (f : A → bytes → DnsResult (bytes * nat)) (w : bytes) (x : A) : Prop :=
  ∀ buf, f x buf =
    if decide (length buf < length w)%nat
    then Err (DnsError.BufferTooSmall (length w) (length buf))
    else Ok (w ++ drop (length w) buf, length w).

(** Two consecutive writes at the front of what is left of a buffer. *)
Ltac write_fields :=
  repeat (rewrite write_slice_next by (rewrite ?length_app, ?length_drop; simpl; lia);
          cbn [mbind outcome_bind]).

Lemma write_slice_first {E} (src buf : bytes) b :
  b = length src → (length src ≤ length buf)%nat →
  write_slice (E:=E) buf 0 b src = Ok (src ++ drop (length src) buf).
Proof. intros ->. apply (write_slice_next []); done. Qed.

Lemma Header_writes h : writes Header_to_bytes (header_wire h) h.
Proof.
  intros buf. unfold Header_to_bytes. rewrite header_wire_length. case_decide; [done|].
  rewrite write_slice_first by (simpl; lia). cbn [mbind outcome_bind].
  write_fields. unfold header_wire. rewrite !drop_drop, <-!app_assoc. done.
Qed.

(** Equality of two concatenations with the same parts. *)
Ltac app_eq :=
  repeat match goal with
  | |- ?a ++ _ = ?a ++ _ => apply (f_equal (app a))
  | |- drop ?n _ = drop ?m _ => apply (f_equal2 drop); [simpl; lia|done]
  | |- Ok _ = Ok _ => apply f_equal
  | |- pair _ _ = pair _ _ => apply f_equal2; [|simpl; lia]
  end.

Lemma Question_writes q : writes Question_to_bytes (question_wire q) q.
Proof.
  intros buf. unfold Question_to_bytes, question_wire. rewrite !length_app.
  cbn [to_be16 length]. replace (2 + 2)%nat with 4%nat by lia. case_decide; [done|].
  rewrite write_slice_first by lia. cbn [mbind outcome_bind].
  write_fields. rewrite !drop_drop, <-!app_assoc. app_eq.
Qed.

Lemma ResourceRecord_writes r :
  rdlength_exact r → writes ResourceRecord_to_bytes (rr_wire r) r.
Proof.
  intros Hr buf. unfold ResourceRecord_to_bytes, rr_wire. rewrite Hr, Nat2Z.id.
  rewrite !length_app. cbn [to_be16 to_be32 length].
  replace (length (rr_name r) + (2 + (2 + (4 + (2 + length (rr_rdata r))))))%nat
    with (length (rr_name r) + 10 + length (rr_rdata r))%nat by lia.
  case_decide; [done|]. rewrite write_slice_first by lia. cbn [mbind outcome_bind].
  write_fields. rewrite !drop_drop, <-!app_assoc. app_eq.
Qed.

(** A step that appends [w] to what is written, when there is room, and else
    reports a buffer that is too small. *)
Definition appends (c : DnsResult (bytes * nat)) (dn w rest : bytes) : Prop :=
  if decide (length rest < length w)%nat
  then ∃ need have, c = Err (DnsError.BufferTooSmall need have) ∧ (have < need)%nat
  else c = Ok (dn ++ w ++ drop (length w) rest, (length dn + length w)%nat).

Lemma appends_nil dn rest : appends (Ok (dn ++ rest, length dn)) dn [] rest.
Proof.
  unfold appends. rewrite decide_False by (simpl; lia). cbn [length app].
  by rewrite drop_0, Nat.add_0_r.
Qed.

Lemma appends_bind c (f : bytes * nat → DnsResult (bytes * nat)) dn w1 w2 rest :
  appends c dn w1 rest →
  (∀ dn' rest', appends (f (dn' ++ rest', length dn')) dn' w2 rest') →
  appends (c ≫= f) dn (w1 ++ w2) rest.
Proof.
  unfold appends. rewrite length_app. intros H1 H2. case_decide.
  { destruct H1 as (n & h & -> & ?). rewrite decide_True by lia. cbn. eauto. }
  rewrite H1. cbn [mbind outcome_bind]. rewrite app_assoc, <-(length_app dn w1).
  specialize (H2 (dn ++ w1) (drop (length w1) rest)). rewrite length_drop in H2.
  repeat case_decide; try lia; [done|].
  rewrite H2, drop_drop, <-!app_assoc, !length_app. app_eq.
Qed.

Lemma writes_appends {A} (f : A → bytes → DnsResult (bytes * nat)) w x dn rest :
  writes f w x →
  appends (sub ← slice_from (dn ++ rest) (length dn); '(sub, n) ← f x sub;
           Ok (take (length dn) (dn ++ rest) ++ sub, (length dn + n)%nat)) dn w rest.
Proof.
  intros Hw. unfold appends. rewrite slice_from_app by done. cbn [mbind outcome_bind].
  rewrite Hw. case_decide; [|cbn; by rewrite take_app_length]. cbn. eauto.
Qed.

(** Writing a sequence of items behind what is already written. *)
Lemma write_items_appends {A} (f : A → bytes → DnsResult (bytes * nat)) (w : A → bytes) xs dn rest :
  Forall (λ x, writes f (w x) x) xs →
  appends (write_items f xs (dn ++ rest) (length dn)) dn (concat (map w xs)) rest.
Proof.
  intros Hw. revert dn rest. induction Hw as [|x xs Hx Hxs IH]; intros dn rest.
  { apply appends_nil. }
  cbn [map concat].
  replace (write_items f (x :: xs) (dn ++ rest) (length dn))
    with ((sub ← slice_from (dn ++ rest) (length dn); '(sub, n) ← f x sub;
           Ok (take (length dn) (dn ++ rest) ++ sub, (length dn + n)%nat))
          ≫= λ p, write_items f xs p.1 p.2).
  - apply appends_bind; [by apply writes_appends|]. intros dn' rest'. apply IH.
  - cbn [write_items]. rewrite slice_from_app by done. cbn [mbind outcome_bind].
    by destruct (f x rest) as [[]| | |].
Qed.

(** Every record of the message has an exact length field. *)
Definition rdlengths_exact (m : Message) : Prop :=
  Forall rdlength_exact (m_answers m) ∧ Forall rdlength_exact (m_authorities m) ∧
  Forall rdlength_exact (m_additionals m).

Lemma records_write rs :
  Forall rdlength_exact rs → Forall (λ r, writes ResourceRecord_to_bytes (rr_wire r) r) rs.
Proof. intros H. eapply Forall_impl; [exact H|]. apply ResourceRecord_writes. Qed.

Lemma Message_to_bytes_appends m buf :
  rdlengths_exact m → appends (Message_to_bytes m buf) [] (message_wire m) buf.
Proof.
  intros (Han & Hau & Had). unfold Message_to_bytes, message_wire.
  apply appends_bind.
  { unfold appends. rewrite Header_writes. case_decide; [|done].
    eexists _, _. split; [done|]. rewrite header_wire_length in *. lia. }
  intros d1 r1. apply appends_bind.
  { apply write_items_appends, Forall_true, Question_writes. }
  intros d2 r2. apply appends_bind.
  { by apply write_items_appends, records_write. }
  intros d3 r3. apply appends_bind.
  { by apply write_items_appends, records_write. }
  intros d4 r4. by apply write_items_appends, records_write.
Qed.

Lemma encode_into n m :
  rdlengths_exact m →
  let c := '(buf, len) ← Message_to_bytes m (replicate n 0); Ok (take len buf) in
  if decide (n < length (message_wire m))%nat
  then ∃ need have, c = Err (DnsError.BufferTooSmall need have) ∧ (have < need)%nat
  else c = Ok (message_wire m).
Proof.
  intros Hm c. subst c.
  pose proof (Message_to_bytes_appends m (replicate n 0) Hm) as H.
  unfold appends in H. rewrite length_replicate in H. case_decide.
  - destruct H as (need & have & -> & ?). cbn [mbind outcome_bind]. eauto.
  - rewrite H. cbn [mbind outcome_bind app]. change (length [] + ?n)%nat with n.
    by rewrite take_app_length.
Qed.

Lemma encode_message_wire m :
  rdlengths_exact m →
  if decide (MAX_DNS_MESSAGE_SIZE < length (message_wire m))%nat
  then ∃ need have, encode_message m = Err (DnsError.BufferTooSmall need have) ∧ (have < need)%nat
  else encode_message m = Ok (message_wire m).
Proof. apply encode_into. Qed.

(** Whatever the items do, what is already written stays. *)
Lemma write_items_prefix {A} (f : A → bytes → DnsResult (bytes * nat)) xs dn k rest buf n :
  write_items f xs (dn ++ rest) (length dn + k) = Ok (buf, n) →
  ∃ rest', buf = dn ++ rest' ∧ (length dn ≤ n)%nat.
Proof.
  revert k rest. induction xs as [|x xs IH]; intros k rest; cbn [write_items].
  { intros [= <- <-]. exists rest. split; [done|lia]. }
  intros (sub & _ & ([sub' n'] & _ & H)%bind_Ok)%bind_Ok.
  rewrite take_app_add, <-app_assoc, <-Nat.add_assoc in H. by eapply IH.
Qed.

(** An encoding begins with the twelve bytes of the header. *)
Lemma encode_message_header m data :
  encode_message m = Ok data →
  ∃ rest, data = header_wire (counted_header m) ++ rest.
Proof.
  unfold encode_message. generalize MAX_DNS_MESSAGE_SIZE. intros N.
  intros ([buf len] & H & [= <-])%bind_Ok. unfold Message_to_bytes in H.
  apply bind_Ok in H as ([b0 o0] & Hh & H). rewrite Header_writes in Hh. case_decide; [done|].
  injection Hh as <- <-. set (hw := header_wire _) in *.
  apply bind_Ok in H as ([b1 o1] & H1 & H).
  assert (Hstep : ∀ A (f : A → bytes → DnsResult (bytes * nat)) xs r o b' o',
    write_items f xs (hw ++ r) o = Ok (b', o') → (length hw ≤ o)%nat →
    ∃ r', b' = hw ++ r' ∧ (length hw ≤ o')%nat).
  { intros A f xs r o b' o' Hw Ho. replace o with (length hw + (o - length hw))%nat in Hw by lia.
    by eapply write_items_prefix. }
  apply Hstep in H1 as (r1 & -> & Ho1); [|done].
  apply bind_Ok in H as ([b2 o2] & H2 & H). apply Hstep in H2 as (r2 & -> & Ho2); [|done].
  apply bind_Ok in H as ([b3 o3] & H3 & H). apply Hstep in H3 as (r3 & -> & Ho3); [|done].
  apply Hstep in H as (r4 & -> & Ho4); [|done].
  exists (take (len - length hw) r4). by rewrite take_app_ge by done.
Qed.

(** ** Reading what was written *)

Definition question_ok (q : Question) : Prop :=
  name_ok (q_name q) ∧ is_u16 (q_type q) ∧ is_u16 (q_class q).

(** A record as the parser produces it: its data is the uncompressed form of
    its parsed value, and its length field is exact. *)
Definition rr_ok (r : ResourceRecord) : Prop :=
  name_ok (rr_name r) ∧ is_u16 (rr_rtype r) ∧ is_u16 (rr_rclass r) ∧ is_u32 (rr_ttl r) ∧
  rdlength_exact r ∧ is_u16 (rr_rdlength r) ∧
  ∃ rd, rr_parsed r = Some rd ∧ rdata_ok (rr_rtype r) rd ∧ rr_rdata r = decompressed_rdata rd.

Record message_ok (m : Message) : Prop := {
  message_ok_header : header_ok (m_header m);
  message_ok_z : z_agrees (m_header m);
  message_ok_questions : Forall question_ok (m_questions m);
  message_ok_answers : Forall rr_ok (m_answers m);
  message_ok_authorities : Forall rr_ok (m_authorities m);
  message_ok_additionals : Forall rr_ok (m_additionals m);
  message_ok_counts : m_header m = counted_header m;
  message_ok_qdcount : is_u16 (Z.of_nat (length (m_questions m)));
  message_ok_ancount : is_u16 (Z.of_nat (length (m_answers m)));
  message_ok_nscount : is_u16 (Z.of_nat (length (m_authorities m)));
  message_ok_arcount : is_u16 (Z.of_nat (length (m_additionals m)));
}.

(** A reader that finds [x] wherever [w] is written. *)
Definition reads {A} (f : bytes → nat → DnsResult (A * nat)) (w : bytes) (x : A) : Prop :=
  ∀ pre post, bytes_ok (pre ++ w ++ post) →
    f (pre ++ w ++ post) (length pre) = Ok (x, (length pre + length w)%nat).

Lemma decode_name_in pre nm post :
  name_ok nm → bytes_ok (pre ++ nm ++ post) →
  decode_domain_name (pre ++ nm ++ post) (length pre) = Ok (nm, (length pre + length nm)%nat).
Proof. intros Hn Hb. by eapply decode_at. Qed.

Lemma drop_behind (pre nm post : bytes) : drop (length pre + length nm) (pre ++ nm ++ post) = post.
Proof. by rewrite app_assoc, <-length_app, drop_app_length. Qed.

Lemma Question_reads q : question_ok q → reads Question_from_bytes (question_wire q) q.
Proof.
  intros (Hn & Ht & Hc) pre post. unfold question_wire. rewrite <-!app_assoc. intros Hb.
  unfold Question_from_bytes. rewrite decode_name_in by done. cbn [mbind outcome_bind].
  pose proof (drop_behind pre (q_name q) (to_be16 (q_type q) ++ to_be16 (q_class q) ++ post)) as H0.
  pose proof (drop_next _ _ _ _ 2 H0 eq_refl) as H1.
  rewrite decide_False by (rewrite !length_app; simpl; lia).
  rewrite (rd_u16_drop _ _ _ _ H0), (rd_u16_drop _ _ _ _ H1) by done. cbn [mbind outcome_bind].
  destruct q as [qn qt qc]. cbn [q_name q_type q_class] in *. rewrite !length_app. cbn [length to_be16].
  do 2 f_equal. lia.
Qed.

Lemma rr_rdlength_nat r : rdlength_exact r → Z.to_nat (rr_rdlength r) = length (rr_rdata r).
Proof. intros ->. apply Nat2Z.id. Qed.

Lemma ResourceRecord_reads r : rr_ok r → reads ResourceRecord_from_bytes (rr_wire r) r.
Proof.
  intros (Hn & Ht & Hc & Httl & Hlen & Hl16 & rd & Hp & Hrd & Hdata) pre post.
  unfold rr_wire. rewrite <-!app_assoc. intros Hb.
  unfold ResourceRecord_from_bytes. rewrite decode_name_in by done. cbn [mbind outcome_bind].
  match type of Hb with bytes_ok (_ ++ _ ++ ?rest) => pose proof (drop_behind pre (rr_name r) rest) as H0 end.
  pose proof (drop_next _ _ _ _ 2 H0 eq_refl) as H1.
  pose proof (drop_next _ _ _ _ 2 H1 eq_refl) as H2.
  pose proof (drop_next _ _ _ _ 4 H2 eq_refl) as H3.
  pose proof (drop_next _ _ _ _ 2 H3 eq_refl) as H4.
  rewrite decide_False by (rewrite !length_app; simpl; lia).
  rewrite <-Nat.add_assoc in H2, H3, H4. rewrite <-Nat.add_assoc in H3, H4.
  rewrite <-Nat.add_assoc in H4. cbn [Nat.add] in *.
  rewrite (rd_u16_drop _ _ _ _ H0), (rd_u16_drop _ _ _ _ H1), (rd_u32_drop _ _ _ _ H2),
    (rd_u16_drop _ _ _ _ H3) by done. cbn [mbind outcome_bind].
  rewrite (rr_rdlength_nat r Hlen).
  rewrite decide_False by (rewrite !length_app; simpl; lia).
  rewrite (slice_drop _ _ _ _ _ H4) by (done || (rewrite !length_app; simpl; lia)).
  cbn [mbind outcome_bind]. rewrite Hdata.
  set (fixed := to_be16 (rr_rtype r) ++ to_be16 (rr_rclass r) ++ to_be32 (rr_ttl r) ++
                to_be16 (rr_rdlength r)).
  pose proof (parse_rdata_wire (rr_rtype r) rd (pre ++ rr_name r ++ fixed) post Hrd) as Hparse.
  assert (Hf : length fixed = 10%nat) by done.
  rewrite !length_app, Hf, Nat.add_assoc, <-!app_assoc in Hparse. subst fixed.
  rewrite <-!app_assoc in Hparse. rewrite Hdata in Hb.
  rewrite Hparse by done. cbn [mbind outcome_bind].
  destruct r as [n t c ttl len data p]. cbn [rr_name rr_rtype rr_rclass rr_ttl rr_rdlength rr_rdata rr_parsed] in *.
  subst. rewrite u16_id by (by rewrite <-Hlen). rewrite <-Hlen, !length_app. cbn [length to_be16 to_be32].
  do 2 f_equal. lia.
Qed.

Lemma read_items_reads {A} (f : bytes → nat → DnsResult (A * nat)) (w : A → bytes) xs pre post :
  Forall (λ x, reads f (w x) x) xs → bytes_ok (pre ++ concat (map w xs) ++ post) →
  read_items f (length xs) (pre ++ concat (map w xs) ++ post) (length pre) =
  Ok (xs, (length pre + length (concat (map w xs)))%nat).
Proof.
  intros Hxs. revert pre. induction Hxs as [|x xs Hx Hxs IH]; intros pre Hb.
  { cbn. by rewrite Nat.add_0_r. }
  cbn [map concat length read_items] in *. rewrite <-app_assoc in *. rewrite Hx by done.
  cbn [mbind outcome_bind].
  specialize (IH (pre ++ w x)). rewrite <-app_assoc, length_app in IH. rewrite IH by done.
  cbn [mbind outcome_bind]. rewrite length_app. do 2 f_equal. lia.
Qed.

Lemma read_counted {A} (f : bytes → nat → DnsResult (A * nat)) (w : A → bytes) xs msg pre post n :
  msg = pre ++ concat (map w xs) ++ post → n = length pre →
  Forall (λ x, reads f (w x) x) xs → bytes_ok msg → is_u16 (Z.of_nat (length xs)) →
  read_items f (Z.to_nat (u16 (Z.of_nat (length xs)))) msg n =
  Ok (xs, (n + length (concat (map w xs)))%nat).
Proof.
  intros -> -> Hxs Hb Hlen. rewrite u16_id, Nat2Z.id by done. by apply read_items_reads.
Qed.

Lemma merged_header_id h : z_agrees h → header_ok h → merged_header h = h.
Proof.
  intros Hz []. unfold merged_header, merged_z, z_agrees in *. rewrite Hz.
  assert (Hzz : h_z h ∈ seqZ 0 4) by (apply elem_of_seqZ; lia).
  cbv [seqZ] in Hzz. simpl in Hzz. rewrite !elem_of_cons, elem_of_nil in Hzz.
  rewrite orb_diag. destruct h; simpl in *; f_equal.
  by destruct_or! Hzz; subst; vm_compute.
Qed.

Lemma Message_reads m :
  message_ok m → bytes_ok (message_wire m) → Message_from_bytes (message_wire m) = Ok m.
Proof.
  intros Hm Hb. destruct Hm as [Hh Hz Hq Han Hau Had Hc Hqn Hann Haun Hadn].
  assert (Hqr : Forall (λ q, reads Question_from_bytes (question_wire q) q) (m_questions m))
    by (eapply Forall_impl; [exact Hq|apply Question_reads]).
  assert (Hrr : ∀ rs, Forall rr_ok rs →
            Forall (λ r, reads ResourceRecord_from_bytes (rr_wire r) r) rs)
    by (intros rs Hrs; eapply Forall_impl; [exact Hrs|apply ResourceRecord_reads]).
  assert (H0 : Header_from_bytes (message_wire m) = Ok (m_header m)).
  { unfold message_wire. rewrite Header_from_wire by (by rewrite <-Hc).
    by rewrite <-Hc, merged_header_id. }
  unfold Message_from_bytes. rewrite H0. cbn [mbind outcome_bind].
  assert (Hcounts : h_qdcount (m_header m) = u16 (Z.of_nat (length (m_questions m))) ∧
    h_ancount (m_header m) = u16 (Z.of_nat (length (m_answers m))) ∧
    h_nscount (m_header m) = u16 (Z.of_nat (length (m_authorities m))) ∧
    h_arcount (m_header m) = u16 (Z.of_nat (length (m_additionals m)))) by (by rewrite Hc).
  destruct Hcounts as (-> & -> & -> & ->).
  set (hw := header_wire (counted_header m)).
  set (qw := concat (map question_wire (m_questions m))).
  set (aw := concat (map rr_wire (m_answers m))).
  set (uw := concat (map rr_wire (m_authorities m))).
  set (dw := concat (map rr_wire (m_additionals m))).
  assert (Hw : message_wire m = hw ++ qw ++ aw ++ uw ++ dw) by done.
  assert (Hhw : length hw = 12%nat) by done.
  rewrite (read_counted Question_from_bytes question_wire _ _ hw (aw ++ uw ++ dw)) by done.
  cbn [mbind outcome_bind].
  rewrite (read_counted ResourceRecord_from_bytes rr_wire _ _ (hw ++ qw) (uw ++ dw));
    [|by rewrite Hw, <-!app_assoc|rewrite !length_app; unfold qw; lia|auto..].
  cbn [mbind outcome_bind].
  rewrite (read_counted ResourceRecord_from_bytes rr_wire _ _ (hw ++ qw ++ aw) dw);
    [|by rewrite Hw, <-!app_assoc|rewrite !length_app; unfold qw, aw; lia|auto..].
  cbn [mbind outcome_bind].
  rewrite (read_counted ResourceRecord_from_bytes rr_wire _ _ (hw ++ qw ++ aw ++ uw) []);
    [|by rewrite Hw, app_nil_r, <-!app_assoc
     |rewrite !length_app; unfold qw, aw, uw; lia|auto..].
  cbn [mbind outcome_bind]. by destruct m.
Qed.

(** ** What the parser guarantees *)

Lemma rdata_ok_bytes rtype rd : rdata_ok rtype rd → bytes_ok (decompressed_rdata rd).
Proof.
  assert (Hb : ∀ x l, is_u8 x → bytes_ok l → bytes_ok (x :: l)) by (intros; by apply Forall_cons_2).
  destruct rd; cbn [rdata_ok decompressed_rdata]; intros H; destruct_and?; try done;
    rewrite ?bytes_ok_app, ?bytes_ok_cons;
    repeat match goal with |- _ ∧ _ => split end;
    auto using name_ok_bytes, to_be16_bytes, to_be32_bytes.
  - match goal with H : Forall string_ok _ |- _ => induction H as [|s ss (Hs & Hl & _) Hss IH] end;
      [constructor|]. cbn [map concat]. apply bytes_ok_app. split; [|by apply IH].
    apply Hb; [|done]. rewrite u8_id; width.
  - constructor.
  - constructor.
  - constructor.
  - constructor.
  - constructor.
  - constructor.
Qed.

Lemma rr_wire_bytes r : rr_ok r → bytes_ok (rr_wire r).
Proof.
  intros (Hn & _ & _ & _ & _ & _ & rd & _ & Hrd & Hdata). unfold rr_wire. rewrite Hdata.
  rewrite !bytes_ok_app.
  eauto 10 using name_ok_bytes, to_be16_bytes, to_be32_bytes, rdata_ok_bytes.
Qed.
Lemma question_wire_bytes q : question_ok q → bytes_ok (question_wire q).
Proof.
  intros (Hn & _ & _). unfold question_wire. rewrite !bytes_ok_app.
  eauto using name_ok_bytes, to_be16_bytes.
Qed.

Lemma items_wire_bytes {A} (w : A → bytes) xs :
  Forall (λ x, bytes_ok (w x)) xs → bytes_ok (concat (map w xs)).
Proof. induction 1; [constructor|]. apply bytes_ok_app. done. Qed.

Lemma message_wire_bytes m : message_ok m → bytes_ok (message_wire m).
Proof.
  intros []. unfold message_wire, header_wire. rewrite !bytes_ok_app.
  split_and!; auto using to_be16_bytes; apply items_wire_bytes; eapply Forall_impl;
    eauto using rr_wire_bytes, question_wire_bytes.
Qed.

Lemma Question_from_bytes_ok data offset q e :
  bytes_ok data → Question_from_bytes data offset = Ok (q, e) → question_ok q.
Proof.
  intros Hb. unfold Question_from_bytes. intros H.
  apply bind_Ok in H as ([nm off] & Hd & H). apply decode_at_ok in Hd as [Hn _]; [|done].
  inv_parse Hb Hb. by subst.
Qed.

(** A record as the parser gives it: the fields have their widths, and a value that was parsed
    is one of the record's type, whose uncompressed form replaces the data. *)
Definition rr_typed (r : ResourceRecord) : Prop :=
  name_ok (rr_name r) ∧ is_u16 (rr_rtype r) ∧ is_u16 (rr_rclass r) ∧ is_u32 (rr_ttl r) ∧
  is_u16 (rr_rdlength r) ∧
  match rr_parsed r with
  | Some rd => rdata_ok (rr_rtype r) rd ∧ rr_rdata r = decompressed_rdata rd ∧
               rr_rdlength r = u16 (Z.of_nat (length (rr_rdata r)))
  | None => bytes_ok (rr_rdata r) ∧ rdlength_exact r
  end.

Lemma slice_bytes_ok {E} l a b (x : bytes) : bytes_ok l → slice (E:=E) l a b = Ok x → bytes_ok x.
Proof. intros Hl. unfold slice. case_decide; [|done]. intros [= <-]. auto with width. Qed.

Lemma ResourceRecord_from_bytes_typed data offset r e :
  bytes_ok data → ResourceRecord_from_bytes data offset = Ok (r, e) → rr_typed r.
Proof.
  intros Hb. unfold ResourceRecord_from_bytes. intros H.
  apply bind_Ok in H as ([nm off] & Hd & H). apply decode_at_ok in Hd as [Hn _]; [|done].
  case_decide; [done|].
  apply bind_Ok in H as (rtype & Ht & H). apply (rd_u16_ok _ Hb) in Ht.
  apply bind_Ok in H as (rclass & Hc & H). apply (rd_u16_ok _ Hb) in Hc.
  apply bind_Ok in H as (ttl & Httl & H). apply (rd_u32_ok _ Hb) in Httl.
  apply bind_Ok in H as (rdl & Hrdl & H). apply (rd_u16_ok _ Hb) in Hrdl.
  case_decide as Hlen; [done|]. apply bind_Ok in H as (raw & Hraw & H). apply bind_Ok in H as (parsed & Hp & H).
  pose proof (slice_bytes_ok _ _ _ _ Hb Hraw) as Hrawb. destruct parsed as [rd|]; injection H as <- <-; unfold rr_typed; cbn.
  - apply parse_rdata_ok in Hp; [|done|done]. split_and!; try done; apply u16_range.
  - split_and!; try done. unfold rdlength_exact. cbn. unfold slice in Hraw. case_decide; [|done].
    injection Hraw as <-. rewrite length_take, length_drop. width.
Qed.

(** A record that was parsed in full and whose length field did not wrap. *)
Definition rr_faithful (r : ResourceRecord) : Prop :=
  is_Some (rr_parsed r) ∧ rdlength_exact r.

Lemma ResourceRecord_from_bytes_ok data offset r e :
  bytes_ok data → ResourceRecord_from_bytes data offset = Ok (r, e) → rr_faithful r → rr_ok r.
Proof.
  intros Hb (? & ? & ? & ? & ? & Hp)%ResourceRecord_from_bytes_typed [[rd Hrd] Hlen]; [|done].
  rewrite Hrd in Hp. destruct Hp as (? & ? & _). split_and!; try done. by exists rd.
Qed.

Lemma read_items_ok {A} (f : bytes → nat → DnsResult (A * nat)) (P : A → Prop) data :
  (∀ off x e, f data off = Ok (x, e) → P x) →
  ∀ n off xs e, read_items f n data off = Ok (xs, e) → Forall P xs ∧ length xs = n.
Proof.
  intros Hf. induction n as [|n IH]; intros off xs e; cbn [read_items].
  { intros [= <- _]. done. }
  intros ([x off'] & Hx & ([xs' e'] & Hxs & [= <- _])%bind_Ok)%bind_Ok.
  apply IH in Hxs as [? ?]. split; [constructor; eauto|simpl; lia].
Qed.

(** A decoded message, whatever the network sent, is well typed. *)
Definition message_typed (m : Message) : Prop :=
  header_ok (m_header m) ∧ Forall question_ok (m_questions m) ∧
  Forall rr_typed (m_answers m) ∧ Forall rr_typed (m_authorities m) ∧
  Forall rr_typed (m_additionals m) ∧
  Z.of_nat (length (m_questions m)) = h_qdcount (m_header m) ∧
  Z.of_nat (length (m_answers m)) = h_ancount (m_header m) ∧
  Z.of_nat (length (m_authorities m)) = h_nscount (m_header m) ∧
  Z.of_nat (length (m_additionals m)) = h_arcount (m_header m).

Lemma Message_from_bytes_typed data m :
  bytes_ok data → Message_from_bytes data = Ok m → message_typed m.
Proof.
  intros Hb H. unfold Message_from_bytes in H.
  apply bind_Ok in H as (h & Hh & H). apply Header_from_bytes_ok in Hh as (Hok & _ & _ & _); [|done].
  apply bind_Ok in H as ([qs o1] & Hq & H).
  apply (read_items_ok _ question_ok) in Hq as [Hq Lq]; [|eauto using Question_from_bytes_ok].
  apply bind_Ok in H as ([an o2] & Han & H). apply bind_Ok in H as ([au o3] & Hau & H).
  apply bind_Ok in H as ([ad o4] & Had & [= <-]).
  apply (read_items_ok _ rr_typed) in Han as [Han Lan]; [|eauto using ResourceRecord_from_bytes_typed].
  apply (read_items_ok _ rr_typed) in Hau as [Hau Lau]; [|eauto using ResourceRecord_from_bytes_typed].
  apply (read_items_ok _ rr_typed) in Had as [Had Lad]; [|eauto using ResourceRecord_from_bytes_typed].
  pose proof Hok as []. unfold message_typed. cbn. rewrite Lq, Lan, Lau, Lad.
  split_and!; try done; width.
Qed.

(** A message whose records were all parsed in full and fit their length fields. *)
Definition message_faithful (m : Message) : Prop :=
  Forall rr_faithful (m_answers m) ∧ Forall rr_faithful (m_authorities m) ∧
  Forall rr_faithful (m_additionals m).

Lemma Message_from_bytes_ok data m :
  bytes_ok data → Message_from_bytes data = Ok m → message_faithful m → message_ok m.
Proof.
  intros Hb H (Fan & Fau & Fad). unfold Message_from_bytes in H.
  apply bind_Ok in H as (h & Hh & H). apply Header_from_bytes_ok in Hh as (Hok & Hz & _ & _); [|done].
  apply bind_Ok in H as ([qs o1] & Hq & H).
  apply (read_items_ok _ question_ok) in Hq as [Hq Lq]; [|eauto using Question_from_bytes_ok].
  apply bind_Ok in H as ([an o2] & Han & H). apply bind_Ok in H as ([au o3] & Hau & H).
  apply bind_Ok in H as ([ad o4] & Had & [= <-]). cbn [m_answers m_authorities m_additionals] in *.
  assert (Hrr : ∀ n off rs e, read_items ResourceRecord_from_bytes n data off = Ok (rs, e) →
            Forall rr_faithful rs → Forall rr_ok rs ∧ length rs = n).
  { intros n off rs e Hrs Hf.
    apply (read_items_ok _ (λ r, rr_faithful r → rr_ok r)) in Hrs as [Hrs L];
      [|eauto using ResourceRecord_from_bytes_ok].
    split; [|done]. apply Forall_forall. intros r Hr. rewrite !Forall_forall in *. eauto. }
  apply Hrr in Han as [Han Lan]; [|done]. apply Hrr in Hau as [Hau Lau]; [|done].
  apply Hrr in Had as [Had Lad]; [|done]. pose proof Hok as [].
  assert (Hz2 : ∀ x, is_u16 x → Z.of_nat (Z.to_nat x) = x) by (intros; width).
  split; cbn [m_header m_questions m_answers m_authorities m_additionals]; try done;
    rewrite ?Lq, ?Lan, ?Lau, ?Lad, ?Hz2; try done.
  unfold counted_header. cbn [m_header m_questions m_answers m_authorities m_additionals].
  rewrite Lq, Lan, Lau, Lad, !Hz2, !u16_id by done. by destruct h.
Qed.

Lemma message_ok_exact m : message_ok m → rdlengths_exact m.
Proof.
  assert (H : ∀ rs, Forall rr_ok rs → Forall rdlength_exact rs).
  { intros rs Hrs. eapply Forall_impl; [exact Hrs|]. by intros r (_ & _ & _ & _ & ? & _). }
  intros []. split_and!; auto.
Qed.

(** ** Properties of the message codec *)

(** Reading a header and writing it back is the identity on the twelve bytes, for every
    header that can arrive; and a header that is written and read back keeps every field
    except that RA and the upper reserved bit, which share bit 7, arrive merged: the header
    comes back unchanged exactly when the two agree. *)
Theorem header_roundtrip data h h' buf :
  (bytes_ok data → Header_from_bytes data = Ok h → (12 ≤ length buf)%nat →
   Header_to_bytes h buf = Ok (take 12 data ++ drop 12 buf, 12%nat)) ∧
  (header_ok h' →
   Header_from_bytes (header_wire h') = Ok (merged_header h') ∧
   (merged_header h' = h' ↔ z_agrees h')).
Proof.
  split.
  - intros Hb (_ & _ & Hw & _)%Header_from_bytes_ok Hlen; [|done].
    rewrite Header_writes, header_wire_length, decide_False by lia. by rewrite Hw.
  - intros Hok. split.
    + rewrite <-(app_nil_r (header_wire h')). by apply Header_from_wire.
    + split; [|intros; by apply merged_header_id]. unfold z_agrees. intros H.
      pose proof (f_equal h_ra H) as Hra. pose proof (f_equal h_z H) as Hz.
      unfold merged_header, merged_z in Hra, Hz. cbn [h_ra h_z] in Hra, Hz.
      apply (f_equal (λ z, Z.testbit z 1)) in Hz. rewrite Z.lor_spec in Hz.
      destruct (h_ra h'), (Z.testbit (h_z h') 1); done.
Qed.

Lemma header_roundtrip_witness :
  Header_to_bytes (merged_header (Header_new_response 513 0)) (replicate 12 7) =
    Ok ([2; 1; 129; 128; 0; 0; 0; 0; 0; 0; 0; 0], 12%nat) ∧
  (merged_header (Header_new_response 513 3) = Header_new_response 513 3 ↔
   z_agrees (Header_new_response 513 3)).
Proof.
  split.
  - apply (header_roundtrip [2; 1; 129; 128; 0; 0; 0; 0; 0; 0; 0; 0] _
             (Header_new_query 0 true) (replicate 12 7)); [|by vm_compute|simpl; lia].
    repeat constructor; by vm_compute.
  - apply (header_roundtrip [] (Header_new_query 0 true) (Header_new_response 513 3) []).
    split; simpl; (lia || width).
Defined.

(** [encode_message] writes exactly the concatenation of the parts, in order and without
    compression, when it fits the 8192-byte buffer; a longer message is refused with
    [BufferTooSmall], and there is no panic, provided that every record's length field is the
    length of its data. *)
Theorem encode_message_spec m :
  rdlengths_exact m →
  if decide (MAX_DNS_MESSAGE_SIZE < length (message_wire m))%nat
  then ∃ need have, encode_message m = Err (DnsError.BufferTooSmall need have) ∧ (have < need)%nat
  else encode_message m = Ok (message_wire m).
Proof. apply encode_message_wire. Qed.

Definition sample_query : Message :=
  mkMessage (Header_new_query 7 true) [mkQuestion [1; 97; 0] 1 1] [] []
    [OptRecord_to_resource_record (OptRecord_new true)].

Lemma encode_message_spec_witness :
  rdlengths_exact sample_query ∧
  if decide (MAX_DNS_MESSAGE_SIZE < length (message_wire sample_query))%nat
  then ∃ need have, encode_message sample_query = Err (DnsError.BufferTooSmall need have) ∧
       (have < need)%nat
  else encode_message sample_query = Ok (message_wire sample_query).
Proof.
  assert (H : rdlengths_exact sample_query) by (repeat constructor).
  split; [exact H|]. exact (encode_message_spec sample_query H).
Defined.

(** C2: decoding the encoding of a well-formed message gives the message back, header, every
    question and every record with its parsed data. *)
Theorem message_roundtrip m :
  message_ok m → (length (message_wire m) ≤ MAX_DNS_MESSAGE_SIZE)%nat →
  ∃ data, encode_message m = Ok data ∧ decode_message data = Ok m.
Proof.
  intros Hm Hlen. exists (message_wire m).
  pose proof (encode_message_wire m (message_ok_exact m Hm)) as He. case_decide; [lia|].
  split; [done|]. by apply Message_reads, message_wire_bytes.
Qed.

(** A reply with one address, its header as it arrives. *)
Definition sample_reply : Message :=
  mkMessage (mkHeader 7 true 0 false false true true 2 false false 0 1 1 0 0)
    [mkQuestion [1; 97; 0] 1 1]
    [mkRR [1; 97; 0] 1 1 300 4 [192; 0; 2; 1] (Some (RData.A [192; 0; 2; 1]))] [] [].

Lemma sample_reply_ok : message_ok sample_reply.
Proof.
  assert (Hn : name_ok [1; 97; 0]) by (exists [[97]]; split; [repeat constructor; by vm_compute|done]).
  split; cbn; try (by split); try (width || (split; cbn; (lia || width))).
  - constructor; [|constructor]. split_and!; cbn; (done || width).
  - constructor; [|constructor]. unfold rr_ok. cbn. split_and!; try (done || width).
    exists (RData.A [192; 0; 2; 1]). split; [done|]. split; [|done]. cbn.
    split_and!; [done|repeat constructor; by vm_compute|done].
  - constructor.
  - constructor.
Qed.

Lemma message_roundtrip_witness :
  ∃ data, encode_message sample_reply = Ok data ∧ decode_message data = Ok sample_reply.
Proof.
  apply (message_roundtrip sample_reply sample_reply_ok). apply Nat.leb_le. by vm_compute.
Defined.

(** A record of a message that fits the encoding buffer fits its length field. *)
Lemma rr_typed_faithful r :
  rr_typed r → is_Some (rr_parsed r) → (length (rr_wire r) ≤ MAX_DNS_MESSAGE_SIZE)%nat → rr_faithful r.
Proof.
  intros (_ & _ & _ & _ & _ & Hp) [rd Hrd] Hlen. split; [by exists rd|]. rewrite Hrd in Hp.
  destruct Hp as (_ & _ & Hp). unfold rdlength_exact. rewrite Hp. unfold rr_wire in Hlen.
  rewrite !length_app in Hlen. unfold MAX_DNS_MESSAGE_SIZE in Hlen. apply u16_id. unfold is_u16. lia.
Qed.

Lemma records_faithful rs n :
  Forall rr_typed rs → Forall (λ r, is_Some (rr_parsed r)) rs →
  (length (concat (map rr_wire rs)) ≤ n)%nat → (n ≤ MAX_DNS_MESSAGE_SIZE)%nat → Forall rr_faithful rs.
Proof.
  intros Ht Hp. revert n. induction Ht as [|r rs Hr _ IH]; intros n; [constructor|]. cbn. rewrite length_app.
  apply Forall_cons in Hp as [Hpr Hp]. intros Hlen Hn. constructor; [apply rr_typed_faithful; [done..|lia]|].
  apply (IH Hp n); lia.
Qed.

(** Every record has a parsed value. *)
Definition all_parsed (m : Message) : Prop :=
  Forall (λ r, is_Some (rr_parsed r)) (m_answers m ++ m_authorities m ++ m_additionals m).

Lemma decoded_faithful data m :
  bytes_ok data → decode_message data = Ok m → all_parsed m →
  (length (message_wire m) ≤ MAX_DNS_MESSAGE_SIZE)%nat → message_faithful m.
Proof.
  intros Hb Hd Hp Hlen. apply Message_from_bytes_typed in Hd as (_ & _ & Tan & Tau & Tad & _); [|done].
  unfold all_parsed in Hp. rewrite !Forall_app in Hp. destruct Hp as (Pan & Pau & Pad).
  unfold message_wire in Hlen. rewrite !length_app in Hlen.
  split_and!; (eapply records_faithful; [done|done|reflexivity|lia]).
Qed.

(** C27: a message that was decoded, all of whose records were parsed, and that in its expanded form
    is not longer than the encoding buffer of 8192 bytes, can be encoded again, and decodes to the
    same message, although the compressed names of the original were expanded. *)
Theorem decode_encode_stable data m :
  bytes_ok data → decode_message data = Ok m → all_parsed m →
  (length (message_wire m) ≤ MAX_DNS_MESSAGE_SIZE)%nat →
  ∃ data', encode_message m = Ok data' ∧ decode_message data' = Ok m.
Proof.
  intros Hb Hd Hp Hlen. pose proof (decoded_faithful _ _ Hb Hd Hp Hlen) as Hf.
  apply Message_from_bytes_ok in Hd as Hok; [|done|done]. exists (message_wire m).
  pose proof (encode_message_wire m (message_ok_exact m Hok)) as Hw. rewrite decide_False in Hw by lia.
  split; [done|]. by apply Message_reads, message_wire_bytes.
Qed.

(** A reply with a compressed owner name and a compressed CNAME target. *)
Definition sample_packet : bytes :=
  [0; 7; 129; 128; 0; 1; 0; 1; 0; 0; 0; 0; 1; 97; 1; 98; 0; 0; 5; 0; 1;
   192; 12; 0; 5; 0; 1; 0; 0; 0; 9; 0; 4; 1; 99; 192; 14].
Definition sample_decoded : Message :=
  mkMessage (mkHeader 7 true 0 false false true true 2 false false 0 1 1 0 0)
    [mkQuestion [1; 97; 1; 98; 0] 5 1]
    [mkRR [1; 97; 1; 98; 0] 5 1 9 5 [1; 99; 1; 98; 0] (Some (RData.CNAME [1; 99; 1; 98; 0]))] [] [].

Lemma decode_encode_stable_witness :
  ∃ data', encode_message sample_decoded = Ok data' ∧ decode_message data' = Ok sample_decoded.
Proof.
  apply (decode_encode_stable sample_packet).
  - repeat constructor; by vm_compute.
  - by vm_compute.
  - repeat constructor; cbn; eauto.
  - apply Nat.leb_le. by vm_compute.
Defined.

(** C3: whatever bytes arrive, a message that decodes is well typed: its counts are those of its
    sections, every name is well formed, every field has its width, and the value a record was
    parsed to is one of the record's own type, whose uncompressed form is the record's data. *)
Theorem decode_message_typed data m :
  bytes_ok data → decode_message data = Ok m → message_typed m.
Proof. apply Message_from_bytes_typed. Qed.

Lemma decode_message_typed_witness : rr_typed (mkRR [1; 97; 1; 98; 0] 5 1 9 5 [1; 99; 1; 98; 0]
  (Some (RData.CNAME [1; 99; 1; 98; 0]))).
Proof.
  assert (H : message_typed sample_decoded).
  { apply (decode_message_typed sample_packet); [repeat constructor; by vm_compute|by vm_compute]. }
  destruct H as (_ & _ & H & _). by apply Forall_cons in H as [H _].
Defined.

(** The parser is not total: there are packets of 29 and 20 bytes on which it panics and
    loops forever; and a record whose length field differs from the length of its data makes
    the writer panic whenever the buffer has room. *)
Theorem message_codec_failures :
  (∃ data, length data = 29%nat ∧ bytes_ok data ∧ decode_message data = Panic) ∧
  (∃ data, length data = 20%nat ∧ bytes_ok data ∧ decode_message data = Diverge) ∧
  (∀ r buf, Z.to_nat (rr_rdlength r) ≠ length (rr_rdata r) →
     (length (rr_name r) + 10 + Z.to_nat (rr_rdlength r) ≤ length buf)%nat →
     ResourceRecord_to_bytes r buf = Panic).
Proof.
  split_and!.
  - exists [0; 0; 128; 0; 0; 0; 0; 1; 0; 0; 0; 0; 0; 0; 47; 0; 1; 0; 0; 0; 0; 0; 1; 3; 97; 98; 99; 0; 0].
    split_and!; [done| |by vm_compute]. repeat constructor; by vm_compute.
  - exists [192; 0; 0; 0; 0; 1; 0; 0; 0; 0; 0; 0; 192; 0; 0; 1; 0; 1; 0; 0].
    split_and!; [done| |by vm_compute]. repeat constructor; by vm_compute.
  - intros r buf Hne Hlen. unfold ResourceRecord_to_bytes. rewrite decide_False by lia.
    rewrite write_slice_first by lia. cbn [mbind outcome_bind].
    write_fields. unfold write_slice. by rewrite decide_False by lia.
Qed.
