(* ===== verification/Async.v ===== *)
(** * Asynchronous code

    The [async] functions of the source as trees: each node is one action on
    the shared state, the taking or the release of a mutex, or the start of a
    task of its own, and what follows depends on the value the action gives.
    Between two nodes another task may run.

    [run] lets a tree run to its end without another task in between, which is
    how the files on the resolver reason about one resolution; [Scheduler]
    runs many at a time.  [wp] is the weakest precondition that holds in both:
    an invariant of the shared state that every action keeps, and what is true
    of the result.  [timeout] drops a tree half-way. *)

From stdpp Require Import gmap.
From S2P Require Import Prelude Types.
#[local] Open Scope Z_scope.

(** ** Trees *)

(** The mutexes of [RecursiveResolver]. *)
Inductive Mutex :=
  | CacheLock | NsCacheLock | DelegationLock | StatsLock | RttLock | PoolLock | TruncationLock.
#[export] Instance Mutex_eq_dec : EqDecision Mutex.
Proof. solve_decision. Defined.

(** Code over the shared state [S] with a result in [A]: done; one action; [lock().await] and the
    drop of its guard; [tokio::spawn] of a task whose result nobody awaits. *)
Inductive RM (S A : Type) : Type :=
  | Done (r : DnsResult A)
  | Act {B : Type} (f : S → B * S) (k : B → RM S A)
  | Lock (m : Mutex) (k : RM S A)
  | Unlock (m : Mutex) (k : RM S A)
  | Fork (t : RM S unit) (k : RM S A).
Arguments Done {S A} r.
Arguments Act {S A B} f k.
Arguments Lock {S A} m k.
Arguments Unlock {S A} m k.
Arguments Fork {S A} t k.

(** Without another task in between; a task that is spawned runs first. *)
Fixpoint run {S A : Type} (c : RM S A) (s : S) : DnsResult A * S :=
  match c with
  | Done r => (r, s)
  | Act f k => let '(b, s) := f s in run (k b) s
  | Lock _ k | Unlock _ k => run k s
  | Fork t k => run k (run t s).2
  end.
Coercion run : RM >-> Funclass.

(** [h] goes on with whatever [c] ends with. *)
Fixpoint handle {S A B : Type} (h : DnsResult A → RM S B) (c : RM S A) : RM S B :=
  match c with
  | Done r => h r
  | Act f k => Act f (λ b, handle h (k b))
  | Lock m k => Lock m (handle h k)
  | Unlock m k => Unlock m (handle h k)
  | Fork t k => Fork t (handle h k)
  end.

#[export] Instance RM_ret {S} : MRet (RM S) := λ A a, Done (Ok a).
#[export] Instance RM_bind {S} : MBind (RM S) := λ A B f,
  handle (λ r, match r with
               | Ok a => f a
               | Err e => Done (Err e)
               | Panic => Done Panic
               | Diverge => Done Diverge
               end).

Definition act {S A} (f : S → A * S) : RM S A := Act f (λ a, Done (Ok a)).
Definition lift {S A} (r : DnsResult A) : RM S A := Done r.
Definition throw {S A} (e : DnsError.t) : RM S A := Done (Err e).
(** A [match] on the result of a call that goes on after an error. *)
Definition try {S A} (c : RM S A) : RM S (option A) := handle (λ r, Done (outcome_ok r)) c.
(** A [Result] as a value: on with either; a panic is none. *)
Definition catch {S A} (c : RM S A) : RM S (A + DnsError.t) :=
  handle (λ r, match r with
               | Ok a => Done (Ok (inl a))
               | Err e => Done (Ok (inr e))
               | Panic => Done Panic
               | Diverge => Done Diverge
               end) c.
(** What a task ends with, be it a panic: the value of its [JoinHandle]. *)
Definition attempt {S A} (c : RM S A) : RM S (DnsResult A) := handle (λ r, Done (Ok r)) c.
(** A task of its own. *)
Definition fork {S A} (c : RM S A) : RM S unit := Fork (handle (λ _, Done (Ok ())) c) (Done (Ok ())).

(** A block that holds a guard: the mutex is taken first and released however the block ends,
    unless it runs for ever. *)
Definition with_lock {S A} (m : Mutex) (c : RM S A) : RM S A :=
  Lock m (handle (λ r, match r with Diverge => Done Diverge | _ => Unlock m (Done r) end) c).

(** The mutexes that a resolution waits for itself; the others are taken, but for the sorting of the
    servers, by the tasks that it spawns. *)
Definition awaited (m : Mutex) : bool :=
  match m with
  | CacheLock | NsCacheLock | DelegationLock | StatsLock => true
  | RttLock | PoolLock | TruncationLock => false
  end.

Fixpoint release {S A : Type} (held : list Mutex) (c : RM S A) : RM S A :=
  match held with
  | [] => c
  | m :: held => Unlock m (release held c)
  end.

(** [tokio::time::timeout] around code that holds the mutexes [held], the latest first: when the
    time is up, as [elapsed] says, the code is dropped where it waits, with its guards, and [e] is
    what comes out.  Tasks that it has spawned go on: a drop while it waits for one of them shows
    when it next waits for a mutex, or at its end without a value. *)
Fixpoint timeout {S A : Type} (elapsed : S → bool * S) (e : DnsError.t) (held : list Mutex) (c : RM S A) : RM S A :=
  match c with
  | Done (Err e') => Act elapsed (λ late, Done (Err (if (late : bool) then e else e')))
  | Done r => Done r
  | Act f k => Act f (λ b, timeout elapsed e held (k b))
  | Lock m k =>
    if awaited m then
      Act elapsed (λ late, if (late : bool) then release held (Done (Err e))
                           else Lock m (timeout elapsed e (m :: held) k))
    else Lock m (timeout elapsed e (m :: held) k)
  | Unlock m k => Unlock m (timeout elapsed e (tail held) k)
  | Fork t k => Fork t (timeout elapsed e held k)
  end.

(** ** Runs *)

Section runs.
Context {S : Type}.

Lemma run_handle {A B} (h : DnsResult A → RM S B) (c : RM S A) s :
  handle h c s = h (c s).1 (c s).2.
Proof.
  revert s. induction c as [A r|A X f k IH|A m k IH|A m k IH|A t IHt k IH]; intros s; cbn; [done| |auto..].
  destruct (f s). apply IH.
Qed.

Lemma run_bind {A B} (c : RM S A) (f : A → RM S B) s :
  (c ≫= f) s = match c s with
               | (Ok a, s) => f a s
               | (Err e, s) => (Err e, s)
               | (Panic, s) => (Panic, s)
               | (Diverge, s) => (Diverge, s)
               end.
Proof. unfold mbind, RM_bind. rewrite run_handle. by destruct (c s) as [[]]. Qed.

Lemma bind_step {A B} (c : RM S A) (f : A → RM S B) s a s' :
  c s = (Ok a, s') → (c ≫= f) s = f a s'.
Proof. intros E. by rewrite run_bind, E. Qed.

Lemma run_node {A B} (f : S → B * S) (k : B → RM S A) s : Act f k s = k (f s).1 (f s).2.
Proof. cbn. by destruct (f s). Qed.
Lemma run_act {A} (f : S → A * S) s : act f s = (Ok (f s).1, (f s).2).
Proof. cbn. by destruct (f s). Qed.
Lemma run_try {A} (c : RM S A) s : try c s = (outcome_ok (c s).1, (c s).2).
Proof. unfold try. by rewrite run_handle. Qed.
Lemma run_catch {A} (c : RM S A) s :
  catch c s = match c s with
              | (Ok a, s) => (Ok (inl a), s)
              | (Err e, s) => (Ok (inr e), s)
              | (Panic, s) => (Panic, s)
              | (Diverge, s) => (Diverge, s)
              end.
Proof. unfold catch. rewrite run_handle. by destruct (c s) as [[]]. Qed.
Lemma run_attempt {A} (c : RM S A) s : attempt c s = (Ok (c s).1, (c s).2).
Proof. unfold attempt. by rewrite run_handle. Qed.
Lemma run_fork {A} (c : RM S A) s : fork c s = (Ok (), (c s).2).
Proof. unfold fork. cbn. by rewrite run_handle. Qed.
Lemma run_with_lock {A} m (c : RM S A) s : with_lock m c s = c s.
Proof. unfold with_lock. cbn. rewrite run_handle. by destruct (c s) as [[]]. Qed.
End runs.

(** ** Weakest preconditions *)

(** Every action of [c], and of the tasks it spawns, keeps [I], and what [c] ends with satisfies
    [Φ], whatever other code that keeps [I] does in between. *)
Fixpoint wp {S A : Type} (I : S → Prop) (c : RM S A) (Φ : DnsResult A → Prop) : Prop :=
  match c with
  | Done r => Φ r
  | Act f k => ∀ s, I s → I (f s).2 ∧ wp I (k (f s).1) Φ
  | Lock _ k | Unlock _ k => wp I k Φ
  | Fork t k => wp I t (λ _, True) ∧ wp I k Φ
  end.

Section wp.
Context {S : Type} (I : S → Prop).

Lemma wp_mono {A} (c : RM S A) (Φ Ψ : DnsResult A → Prop) :
  wp I c Φ → (∀ r, Φ r → Ψ r) → wp I c Ψ.
Proof.
  intros Hc HΦ. induction c as [A r|A X f k IH|A m k IH|A m k IH|A t IHt k IH]; cbn in *; [auto| |eauto..|].
  - intros s Hs. destruct (Hc s Hs). eauto.
  - destruct Hc. eauto.
Qed.

Lemma wp_handle {A B} (h : DnsResult A → RM S B) (c : RM S A) Φ :
  wp I c (λ r, wp I (h r) Φ) → wp I (handle h c) Φ.
Proof.
  induction c as [A r|A X f k IH|A m k IH|A m k IH|A t IHt k IH]; cbn; [auto| |auto..|].
  - intros Hc s Hs. destruct (Hc s Hs). auto.
  - intros []. auto.
Qed.

(** A run is an execution without interference. *)
Lemma wp_run {A} (c : RM S A) Φ s : wp I c Φ → I s → I (c s).2 ∧ Φ (c s).1.
Proof.
  revert s. induction c as [A r|A X f k IH|A m k IH|A m k IH|A t IHt k IH]; intros s; cbn; [auto| |auto..|].
  - intros Hc Hs. destruct (Hc s Hs) as [Hs' Hk]. destruct (f s). by apply IH.
  - intros [Ht Hk] Hs. apply IH; [done|]. by apply (IHt (λ _, True)).
Qed.

(** The invariant and the result may be shown one after the other. *)
Lemma wp_strengthen {A} (c : RM S A) Φ :
  wp I c (λ _, True) → wp (λ _, True) c Φ → wp I c Φ.
Proof.
  induction c as [A r|A X f k IH|A m k IH|A m k IH|A t IHt k IH]; cbn; [auto| |auto..|].
  - intros Hi Hf s Hs. destruct (Hi s Hs), (Hf s (Logic.I)). auto.
  - intros [] []. auto.
Qed.

Lemma wp_and {A} (c : RM S A) Φ Ψ : wp I c Φ → wp I c Ψ → wp I c (λ r, Φ r ∧ Ψ r).
Proof.
  induction c as [A r|A X f k IH|A m k IH|A m k IH|A t IHt k IH]; cbn; [auto| |auto..|].
  - intros Hi Hf s Hs. destruct (Hi s Hs), (Hf s Hs). auto.
  - intros [] []. auto.
Qed.

Lemma wp_act {A} (f : S → A * S) (Φ : DnsResult A → Prop) :
  (∀ s, I s → I (f s).2 ∧ Φ (Ok (f s).1)) → wp I (act f) Φ.
Proof. done. Qed.

Lemma wp_bind {A B} (c : RM S A) (f : A → RM S B) Φ :
  wp I c (λ r, match r with
               | Ok a => wp I (f a) Φ
               | Err e => Φ (Err e)
               | Panic => Φ Panic
               | Diverge => Φ Diverge
               end) →
  wp I (c ≫= f) Φ.
Proof. intros Hc. apply wp_handle. eapply wp_mono; [exact Hc|]. by intros []. Qed.

Lemma wp_try {A} (c : RM S A) Φ : wp I c (λ r, Φ (outcome_ok r)) → wp I (try c) Φ.
Proof. intros Hc. by apply wp_handle. Qed.
Lemma wp_catch {A} (c : RM S A) Φ :
  wp I c (λ r, match r with
               | Ok a => Φ (Ok (inl a))
               | Err e => Φ (Ok (inr e))
               | Panic => Φ Panic
               | Diverge => Φ Diverge
               end) → wp I (catch c) Φ.
Proof. intros Hc. apply wp_handle. eapply wp_mono; [exact Hc|]. by intros []. Qed.
Lemma wp_attempt {A} (c : RM S A) Φ : wp I c (λ r, Φ (Ok r)) → wp I (attempt c) Φ.
Proof. intros Hc. by apply wp_handle. Qed.
Lemma wp_fork {A} (c : RM S A) (Φ : DnsResult unit → Prop) : wp I c (λ _, True) → Φ (Ok ()) → wp I (fork c) Φ.
Proof. intros Hc HΦ. split; [by apply wp_handle|done]. Qed.

Lemma wp_with_lock {A} m (c : RM S A) Φ : wp I c Φ → wp I (with_lock m c) Φ.
Proof. intros Hc. apply wp_handle. eapply wp_mono; [exact Hc|]. by intros []. Qed.

Lemma wp_release {A} held (c : RM S A) Φ : wp I c Φ → wp I (release held c) Φ.
Proof. induction held as [|m held IH]; cbn; auto. Qed.

(** Code that is dropped half-way has kept what it keeps. *)
Lemma wp_timeout {A} elapsed e held (c : RM S A) Φ :
  (∀ s, I s → I (elapsed s).2) → Φ (Err e) → wp I c Φ → wp I (timeout elapsed e held c) Φ.
Proof.
  intros Hel He. revert held. induction c as [A r|A X f k IH|A m k IH|A m k IH|A t IHt k IH]; intros held; cbn.
  - intros Hr. destruct r; try done. intros s Hs. split; [by apply Hel|]. by destruct (elapsed s).1.
  - intros Hc s Hs. destruct (Hc s Hs). auto.
  - intros Hc. destruct (awaited m); cbn; [|auto]. intros s Hs. split; [by apply Hel|].
    destruct (elapsed s).1; [by apply wp_release|cbn; auto].
  - auto.
  - intros []. auto.
Qed.
End wp.

(** *** Values *)

(** [c] keeps [I], and every value that it returns satisfies [Q]. *)
Definition gives {S A : Type} (I : S → Prop) (c : RM S A) (Q : A → Prop) : Prop :=
  wp I c (λ r, ∀ a, r = Ok a → Q a).
Abbreviation keeps I c := (gives I c (λ _, True)).
Abbreviation ensures := (gives (λ _, True)).

Section gives.
Context {S : Type} {I : S → Prop}.

Lemma gives_run {A} (c : RM S A) (Q : A → Prop) s a s' :
  gives I c Q → I s → c s = (Ok a, s') → I s' ∧ Q a.
Proof. intros Hc Hs E. destruct (wp_run _ c _ s Hc Hs) as [Hi Hr]. rewrite E in Hi, Hr. by split; [|apply Hr]. Qed.

Lemma gives_ret {A} (a : A) (Q : A → Prop) : Q a → gives I (mret a) Q.
Proof. by intros HQ b [= <-]. Qed.
Lemma gives_throw {A} e (Q : A → Prop) : gives I (throw e) Q.
Proof. by intros b. Qed.
Lemma gives_lift {A} (r : DnsResult A) (Q : A → Prop) : (∀ a, r = Ok a → Q a) → gives I (lift r) Q.
Proof. done. Qed.
Lemma gives_act {A} (f : S → A * S) (Q : A → Prop) :
  (∀ s, I s → I (f s).2 ∧ Q (f s).1) → gives I (act f) Q.
Proof. intros HQ s Hs. destruct (HQ s Hs). split; [done|]. by intros a [= <-]. Qed.

Lemma gives_weaken {A} (c : RM S A) (P Q : A → Prop) :
  gives I c P → (∀ a, P a → Q a) → gives I c Q.
Proof. intros Hc HPQ. eapply wp_mono; [exact Hc|]. auto. Qed.
Lemma gives_keeps {A} (c : RM S A) (Q : A → Prop) : gives I c Q → keeps I c.
Proof. intros Hc. by eapply gives_weaken. Qed.

Lemma gives_bind {A B} (c : RM S A) (f : A → RM S B) P Q :
  gives I c P → (∀ a, P a → gives I (f a) Q) → gives I (c ≫= f) Q.
Proof.
  intros Hc Hf. apply wp_bind. eapply wp_mono; [exact Hc|]. intros [a| | |] Hr; try done. by apply Hf, Hr.
Qed.
(** When the first value does not matter. *)
Lemma gives_then {A B} (c : RM S A) (f : A → RM S B) Q :
  keeps I c → (∀ a, gives I (f a) Q) → gives I (c ≫= f) Q.
Proof. intros Hc Hf. eapply gives_bind; [exact Hc|auto]. Qed.

Lemma gives_with_lock {A} m (c : RM S A) Q : gives I c Q → gives I (with_lock m c) Q.
Proof. apply wp_with_lock. Qed.
Lemma gives_try {A} (c : RM S A) (Q : A → Prop) :
  gives I c Q → gives I (try c) (λ r, ∀ a, r = Some a → Q a).
Proof.
  intros Hc. apply wp_try. eapply wp_mono; [exact Hc|]. intros [a| | |] Hr o; try done; intros [= <-]; [|done].
  intros a' [= <-]. by apply Hr.
Qed.
Lemma gives_catch {A} (c : RM S A) (Q : A → Prop) :
  gives I c Q → gives I (catch c) (λ r, ∀ a, r = inl a → Q a).
Proof.
  intros Hc. apply wp_catch. eapply wp_mono; [exact Hc|].
  intros [a| | |] Hr o; try done; intros [= <-]; [|done]. intros a' [= <-]. by apply Hr.
Qed.
Lemma gives_attempt {A} (c : RM S A) (Q : A → Prop) :
  gives I c Q → gives I (attempt c) (λ r, ∀ a, r = Ok a → Q a).
Proof. intros Hc. apply wp_attempt. eapply wp_mono; [exact Hc|]. by intros r Hr o [= <-]. Qed.
Lemma gives_fork {A} (c : RM S A) : keeps I c → keeps I (fork c).
Proof. intros Hc. apply wp_fork; [|done]. by eapply wp_mono. Qed.

Lemma gives_timeout {A} elapsed e held (c : RM S A) (Q : A → Prop) :
  (∀ s, I s → I (elapsed s).2) → gives I c Q → gives I (timeout elapsed e held c) Q.
Proof. intros Hel Hc. by apply wp_timeout. Qed.

Lemma keeps_try {A} (c : RM S A) : keeps I c → keeps I (try c).
Proof. intros Hc. eapply gives_keeps, gives_try, Hc. Qed.
Lemma keeps_catch {A} (c : RM S A) : keeps I c → keeps I (catch c).
Proof. intros Hc. eapply gives_keeps, gives_catch, Hc. Qed.
Lemma keeps_attempt {A} (c : RM S A) : keeps I c → keeps I (attempt c).
Proof. intros Hc. eapply gives_keeps, gives_attempt, Hc. Qed.

(** *** Without an invariant *)

Lemma ensures_True {A} (c : RM S A) : ensures c (λ _, True).
Proof. unfold gives. induction c; cbn; [auto..|]. split; [|done]. by eapply wp_mono. Qed.
Lemma ensures_bind_any {A B} (c : RM S A) (f : A → RM S B) Q :
  (∀ a, ensures (f a) Q) → ensures (c ≫= f) Q.
Proof. intros Hf. eapply wp_bind, wp_mono; [apply ensures_True|]. intros [a| | |] _; [apply Hf|done..]. Qed.
(** A result that is known under a condition. *)
Lemma ensures_impl (P : Prop) `{!Decision P} {A} (c : RM S A) (Q : A → Prop) :
  (P → ensures c Q) → ensures c (λ a, P → Q a).
Proof.
  intros Hc. destruct (decide P) as [HP|HP].
  - eapply wp_mono; [by apply Hc|]. intros r Hr a Ha _. by apply Hr.
  - eapply wp_mono; [apply ensures_True|]. done.
Qed.

(** The invariant and the values may be shown one after the other. *)
Lemma gives_strengthen {A} (c : RM S A) Q : keeps I c → ensures c Q → gives I c Q.
Proof. intros Hk He. apply wp_strengthen; [by eapply wp_mono|done]. Qed.
End gives.

Create HintDb gives.
#[export] Hint Resolve gives_throw : gives.

(** *** Termination *)

(** Code that does not run forever. *)
Definition halts {E A} (c : outcome E A) : Prop := c ≠ Diverge.
Definition ends {S A} (c : RM S A) : Prop := wp (λ _, True) c halts.

Section ends.
Context {S : Type}.

Lemma ends_run {A} (c : RM S A) s : ends c → halts (c s).1.
Proof. intros Hc. by apply (wp_run _ c _ s Hc). Qed.
Lemma ends_timeout {A} elapsed e held (c : RM S A) : ends c → ends (timeout elapsed e held c).
Proof. by apply wp_timeout. Qed.
Lemma ends_ret {A} (a : A) : ends (S:=S) (mret a).
Proof. done. Qed.
Lemma ends_throw {A} e : ends (S:=S) (A:=A) (throw e).
Proof. done. Qed.
Lemma ends_lift {A} (r : DnsResult A) : halts r → ends (S:=S) (lift r).
Proof. done. Qed.
Lemma ends_act {A} (f : S → A * S) : ends (act f).
Proof. by apply wp_act. Qed.
(** With what is known of the first value. *)
Lemma ends_bind_ensures {A B} (c : RM S A) (f : A → RM S B) P :
  ends c → ensures c P → (∀ a, P a → ends (f a)) → ends (c ≫= f).
Proof.
  intros Hc HP Hf. apply wp_bind. eapply wp_mono; [exact (wp_and _ _ _ _ Hc HP)|].
  intros [a| | |] [Hr Ha]; try done. by apply Hf, Ha.
Qed.
Lemma ends_bind {A B} (c : RM S A) (f : A → RM S B) : ends c → (∀ a, ends (f a)) → ends (c ≫= f).
Proof. intros Hc Hf. eapply ends_bind_ensures; [done|apply ensures_True|auto]. Qed.
Lemma ends_try {A} (c : RM S A) : ends c → ends (try c).
Proof. intros Hc. apply wp_try. eapply wp_mono; [exact Hc|]. by intros []. Qed.
Lemma ends_catch {A} (c : RM S A) : ends c → ends (catch c).
Proof. intros Hc. apply wp_catch. eapply wp_mono; [exact Hc|]. by intros []. Qed.
Lemma ends_attempt {A} (c : RM S A) : ends (attempt c).
Proof.
  apply wp_attempt. eapply wp_mono; [exact (ensures_True c)|]. done.
Qed.
Lemma ends_fork {A} (c : RM S A) : ends (fork c).
Proof. apply wp_fork; [|done]. eapply wp_mono; [exact (ensures_True c)|done]. Qed.
Lemma ends_with_lock {A} m (c : RM S A) : ends c → ends (with_lock m c).
Proof. apply wp_with_lock. Qed.
Lemma ends_with_lock_inv {A} m (c : RM S A) : ends (with_lock m c) → ends c.
Proof.
  unfold ends. cbn. induction c as [A r|A X f k IH|A n k IH|A n k IH|A t _ k IH]; cbn; [by destruct r| |auto..|].
  - intros Hk s Hs. destruct (Hk s Hs). auto.
  - intros []. auto.
Qed.
End ends.

Create HintDb ends.
#[export] Hint Resolve ends_ret ends_throw ends_try ends_catch ends_attempt ends_fork ends_with_lock : ends.
(** Also under the name of an action. *)
#[export] Hint Extern 1 (ends _) => apply ends_act : ends.

(** Runs are unfolded by the lemmas above only. *)
#[global] Arguments run : simpl never.
