(* ===== verification/Scheduler.v ===== *)
(** * Many tasks at once

    The runtime of the program: tasks in the sense of [Async], each at some
    point of its code, over one shared state and one set of mutexes.  A step
    lets one task take its next action; which task is up to the scheduler, and
    a mutex that is taken goes to any task that waits for it.

    Three things are shown for any tasks: a weakest precondition holds under
    every interleaving ([adequacy]); tasks that take their mutexes in the order
    of [rank] and give them back never wait for each other in a circle
    ([no_deadlock]); and no schedule is infinite when no task arrives
    ([moves_end]). *)

From stdpp Require Import gmap.
From S2P Require Import Prelude Types Async.
#[local] Open Scope nat_scope.

#[export] Instance Mutex_countable : Countable Mutex.
Proof.
  refine (inj_countable' (λ m, match m with
      | CacheLock => 0 | NsCacheLock => 1 | DelegationLock => 2 | StatsLock => 3
      | RttLock => 4 | PoolLock => 5 | TruncationLock => 6 end)
    (λ n, match n with
      | 0 => CacheLock | 1 => NsCacheLock | 2 => DelegationLock | 3 => StatsLock
      | 4 => RttLock | 5 => PoolLock | _ => TruncationLock end) _).
  by intros [].
Defined.

(** ** Steps *)

Section scheduler.
Context {S L A : Type}.

(** A task with a label that a client waits for, or one whose result nobody awaits. *)
Inductive Thread :=
  | Client (l : L) (c : RM S A)
  | Task (c : RM S unit).

(** [w_held] gives the task that holds a mutex, by its place in [w_threads]. *)
Record World := mkWorld {
  w_state : S;
  w_held : gmap Mutex nat;
  w_threads : list Thread;
}.

(** The next action of the [i]-th task, with the tasks it spawns; none when it has ended or waits
    for a mutex. *)
Definition code_step {B} (i : nat) (c : RM S B) (s : S) (held : gmap Mutex nat)
    : option (RM S B * S * gmap Mutex nat * list Thread) :=
  match c with
  | Done _ => None
  | Act f k => Some (k (f s).1, (f s).2, held, [])
  | Lock m k => match held !! m with Some _ => None | None => Some (k, s, <[m := i]> held, []) end
  | Unlock m k => if decide (held !! m = Some i) then Some (k, s, delete m held, []) else None
  | Fork t k => Some (k, s, held, [Task t])
  end.

Definition thread_step (i : nat) (th : Thread) (s : S) (held : gmap Mutex nat)
    : option (Thread * S * gmap Mutex nat * list Thread) :=
  match th with
  | Client l c => '(c, s, held, new) ← code_step i c s held; Some (Client l c, s, held, new)
  | Task c => '(c, s, held, new) ← code_step i c s held; Some (Task c, s, held, new)
  end.

Definition step (i : nat) (w : World) : option World :=
  th ← w_threads w !! i;
  '(th, s, held, new) ← thread_step i th (w_state w) (w_held w);
  Some (mkWorld s held (<[i := th]> (w_threads w) ++ new)).

Definition arrive (th : Thread) (w : World) : World :=
  mkWorld (w_state w) (w_held w) (w_threads w ++ [th]).

Definition moves (w w' : World) : Prop := ∃ i, step i w = Some w'.

Definition ended (th : Thread) : Prop :=
  match th with Client _ (Done _) | Task (Done _) => True | _ => False end.

(** Any schedule of the tasks, with tasks that arrive at any time. *)
Inductive reachable (arrivals : Thread → Prop) (w : World) : World → Prop :=
  | reach_start : reachable arrivals w w
  | reach_step i w1 w2 : reachable arrivals w w1 → step i w1 = Some w2 → reachable arrivals w w2
  | reach_arrive th w1 : reachable arrivals w w1 → arrivals th → reachable arrivals w (arrive th w1).

Definition idle (s : S) : World := mkWorld s ∅ [].

(** One schedule; a task whose turn comes while it waits is passed over. *)
Fixpoint turns (schedule : list nat) (w : World) : World :=
  match schedule with
  | [] => w
  | i :: schedule => turns schedule (default w (step i w))
  end.

Lemma step_inv i w w' :
  step i w = Some w' →
  ∃ th th' s held new, w_threads w !! i = Some th ∧
    thread_step i th (w_state w) (w_held w) = Some (th', s, held, new) ∧
    w' = mkWorld s held (<[i := th']> (w_threads w) ++ new).
Proof.
  unfold step. intros (th & Eth & E)%bind_Some. apply bind_Some in E as ([[[th' s] held] new] & E & [= <-]).
  by eexists _, _, _, _, _.
Qed.

Lemma step_Some i w th r :
  w_threads w !! i = Some th → thread_step i th (w_state w) (w_held w) = Some r → is_Some (step i w).
Proof. unfold step. intros -> E. cbn. rewrite E. destruct r as [[[??]?]?]. by eexists. Qed.

Lemma turns_moves schedule w : rtc moves w (turns schedule w).
Proof.
  revert w. induction schedule as [|i schedule IH]; intros w; cbn; [done|].
  destruct (step i w) as [w'|] eqn:E; [|apply IH]. eapply rtc_l; [by exists i|apply IH].
Qed.

Lemma reachable_rtc arrivals w w1 w2 :
  reachable arrivals w w1 → rtc moves w1 w2 → reachable arrivals w w2.
Proof. intros Hw Hr. revert Hw. induction Hr as [|? ? ? [i Hi]]; eauto using reach_step. Qed.

(** ** Invariants of all tasks *)

(** A predicate on the tasks that their actions keep, and the tasks they spawn satisfy. *)
Lemma Forall_step (P Q : Thread → Prop) i th' new (threads : list Thread) :
  Forall P threads → (∀ th, P th → Q th) → Q th' → Forall Q new → Forall Q (<[i := th']> threads ++ new).
Proof. intros HP HPQ Hth Hnew. apply Forall_app. split; [apply Forall_insert; [by eapply Forall_impl|done]|done]. Qed.

(** *** Weakest preconditions *)

Section adequacy.
Context (I : S → Prop) (Φ : L → DnsResult A → Prop).

Definition thread_wp (th : Thread) : Prop :=
  match th with
  | Client l c => wp I c (Φ l)
  | Task c => wp I c (λ _, True)
  end.

Definition sound_world (w : World) : Prop := I (w_state w) ∧ Forall thread_wp (w_threads w).

Lemma code_step_wp {B} i (c : RM S B) s held c' s' held' new Ψ :
  wp I c Ψ → I s → code_step i c s held = Some (c', s', held', new) →
  I s' ∧ wp I c' Ψ ∧ Forall thread_wp new.
Proof.
  destruct c; cbn; intros Hc Hs; repeat case_match; intros [= <- <- <- <-]; try done.
  - by destruct (Hc s Hs).
  - destruct Hc. split_and!; [done..|]. by constructor.
Qed.

Lemma step_sound i w w' : sound_world w → step i w = Some w' → sound_world w'.
Proof.
  intros [Hs Hth] (th & th' & s & held & new & Ei & E & ->)%step_inv.
  pose proof (proj1 (Forall_lookup _ _) Hth _ _ Ei) as Hwp.
  assert (I s ∧ thread_wp th' ∧ Forall thread_wp new) as (Hs' & Hth' & Hnew).
  { destruct th as [l c|c]; apply bind_Some in E as ([[[c' s'] held'] new'] & Ec & [= <- <- <- <-]);
      by eapply code_step_wp in Ec. }
  split; [done|]. by apply (Forall_step thread_wp).
Qed.

(** A weakest precondition of every task is one of all schedules. *)
Lemma adequacy arrivals w w' :
  (∀ th, arrivals th → thread_wp th) → sound_world w → reachable arrivals w w' → sound_world w'.
Proof.
  intros Ha Hw. induction 1 as [|i w1 w2 _ IH E|th w1 _ [Hs Hth] Hin]; [done|by eapply step_sound|].
  split; [done|]. apply Forall_app. split; [done|]. constructor; [by apply Ha|done].
Qed.

Lemma sound_idle s : I s → sound_world (idle s).
Proof. intros Hs. by split; [|constructor]. Qed.

(** What a client is given. *)
Lemma sound_client w i l r : sound_world w → w_threads w !! i = Some (Client l (Done r)) → Φ l r.
Proof. intros [_ Hth] E. exact (proj1 (Forall_lookup _ _) Hth _ _ E). Qed.
End adequacy.

(** ** Mutexes

    The order in which the resolver takes its mutexes, and the tasks that keep to it. *)

(** The mutexes that may be taken while another is held have the higher rank. *)
Definition rank (m : Mutex) : nat :=
  match m with
  | CacheLock | DelegationLock | TruncationLock => 0
  | NsCacheLock | StatsLock | RttLock | PoolLock => 1
  end.

Definition above (m : Mutex) (held : list Mutex) : Prop := Forall (λ h, rank h < rank m) held.

(** The actions of [c], which starts with the mutexes [held] in its hands, the latest first: it
    takes a mutex above those it holds, gives back the latest, spawns tasks, which end with
    none, when it holds none, and ends as [Φ] says. *)
Fixpoint locks {B : Type} (held : list Mutex) (c : RM S B) (Φ : DnsResult B → list Mutex → Prop) : Prop :=
  match c with
  | Done r => Φ r held
  | Act f k => ∀ s, locks held (k (f s).1) Φ
  | Lock m k => above m held ∧ locks (m :: held) k Φ
  | Unlock m k => match held with h :: held => h = m ∧ locks held k Φ | [] => False end
  | Fork t k => held = [] ∧ locks [] t (λ _ held, held = []) ∧ locks held k Φ
  end.

(** Code that gives back what it takes. *)
Definition orderly {B} (held : list Mutex) (c : RM S B) : Prop := locks held c (λ _ held', held' = held).

Lemma locks_mono {B} held (c : RM S B) (Φ Ψ : DnsResult B → list Mutex → Prop) :
  locks held c Φ → (∀ r held, Φ r held → Ψ r held) → locks held c Ψ.
Proof.
  intros Hc HΦ. revert held Hc. induction c as [B r|B X f k IH|B m k IH|B m k IH|B t _ k IH]; intros held; cbn;
    [auto|eauto| | |].
  - intros []. eauto.
  - destruct held; [done|]. intros []. eauto.
  - intros (? & ? & ?). eauto.
Qed.

Lemma locks_handle {B B'} (h : DnsResult B → RM S B') held (c : RM S B) Φ :
  locks held c (λ r held, locks held (h r) Φ) → locks held (handle h c) Φ.
Proof.
  revert held. induction c as [B r|B X f k IH|B m k IH|B m k IH|B t _ k IH]; intros held; cbn; [auto|auto| | |].
  - intros []. auto.
  - destruct held; [done|]. intros []. auto.
  - intros (? & ? & ?). auto.
Qed.

Lemma locks_and {B} held (c : RM S B) Φ Ψ :
  locks held c Φ → wp (λ _, True) c Ψ → locks held c (λ r held, Φ r held ∧ Ψ r).
Proof.
  revert held. induction c as [B r|B X f k IH|B m k IH|B m k IH|B t _ k IH]; intros held; cbn; [auto| | | |].
  - intros Hk Hw s. destruct (Hw s I). auto.
  - intros []. auto.
  - destruct held; [done|]. intros []. auto.
  - intros (? & ? & ?) []. auto.
Qed.

(** Orderly code goes on with orderly code. *)
Lemma orderly_handle {B B'} (h : DnsResult B → RM S B') held (c : RM S B) :
  orderly held c → (∀ r, orderly held (h r)) → orderly held (handle h c).
Proof. intros Hc Hh. apply locks_handle. eapply locks_mono; [exact Hc|]. intros r ? ->. apply Hh. Qed.

Lemma orderly_ret {B} held (a : B) : orderly held (mret a).
Proof. done. Qed.
Lemma orderly_throw {B} held e : orderly (B:=B) held (throw e).
Proof. done. Qed.
Lemma orderly_lift {B} held (r : DnsResult B) : orderly held (lift r).
Proof. done. Qed.
Lemma orderly_act {B} held (f : S → B * S) : orderly held (act f).
Proof. done. Qed.
Lemma orderly_bind {B B'} held (c : RM S B) (f : B → RM S B') :
  orderly held c → (∀ a, orderly held (f a)) → orderly held (c ≫= f).
Proof. intros Hc Hf. apply orderly_handle; [done|]. by intros []. Qed.
Lemma orderly_try {B} held (c : RM S B) : orderly held c → orderly held (try c).
Proof. intros Hc. by apply orderly_handle. Qed.
Lemma orderly_catch {B} held (c : RM S B) : orderly held c → orderly held (catch c).
Proof. intros Hc. apply orderly_handle; [done|]. by intros []. Qed.
Lemma orderly_attempt {B} held (c : RM S B) : orderly held c → orderly held (attempt c).
Proof. intros Hc. by apply orderly_handle. Qed.
Lemma orderly_fork {B} (c : RM S B) : orderly [] c → orderly [] (fork c).
Proof. intros Hc. split; [done|]. split; [|done]. by apply orderly_handle. Qed.
Lemma locks_release {B} held (c : RM S B) Φ : locks [] c Φ → locks held (release held c) Φ.
Proof. intros Hc. induction held as [|m held IH]; cbn; [done|]. by split. Qed.

(** Code that is dropped gives back what it holds. *)
Lemma locks_timeout {B} elapsed e held (c : RM S B) :
  locks held c (λ _ held, held = []) → locks held (timeout elapsed e held c) (λ _ held, held = []).
Proof.
  revert held. induction c as [B r|B X f k IH|B m k IH|B m k IH|B t _ k IH]; intros held; cbn.
  - intros ->. by destruct r.
  - auto.
  - intros [Hm Hk]. destruct (awaited m); cbn; [|auto]. intros s.
    destruct (elapsed s).1; [by apply locks_release|]. split; [done|]. by apply IH.
  - destruct held as [|h held]; [done|]. intros []. auto.
  - intros (? & ? & ?). auto.
Qed.
Lemma orderly_timeout {B} elapsed e (c : RM S B) : orderly [] c → orderly [] (timeout elapsed e [] c).
Proof. apply locks_timeout. Qed.

(** A block that hangs would hold its mutex for ever. *)
Lemma orderly_with_lock {B} held m (c : RM S B) :
  above m held → ends c → orderly (m :: held) c → orderly held (with_lock m c).
Proof.
  intros Hm He Hc. split; [done|]. apply locks_handle. eapply locks_mono; [exact (locks_and _ _ _ _ Hc He)|].
  intros [a|e| |] held' [-> Hr]; [by split..|done].
Qed.

(** *** Worlds *)

Definition finishing (held : list Mutex) (th : Thread) : Prop :=
  NoDup held ∧
  match th with
  | Client _ c => locks held c (λ _ held, held = [])
  | Task c => locks held c (λ _ held, held = [])
  end.

(** A mutex is held exactly when a task has it in its hands. *)
Definition holds (stacks : list (list Mutex)) (held : gmap Mutex nat) : Prop :=
  ∀ m i, held !! m = Some i ↔ ∃ hs, stacks !! i = Some hs ∧ m ∈ hs.

Definition disciplined (w : World) : Prop :=
  ∃ stacks, Forall2 finishing stacks (w_threads w) ∧ holds stacks (w_held w).

Lemma orderly_finishing (th : Thread) :
  match th with Client _ c => orderly [] c | Task c => orderly [] c end → finishing [] th.
Proof. intros Hth. split; [constructor|]. by destruct th. Qed.

Lemma above_not_in m held : above m held → m ∉ held.
Proof. intros Hm Hin. pose proof (proj1 (Forall_forall _ _) Hm _ Hin). cbn in *. lia. Qed.

(** The stack of the task that steps. *)
Lemma holds_push stacks held i hs m :
  holds stacks held → stacks !! i = Some hs → held !! m = None →
  holds (<[i := m :: hs]> stacks) (<[m := i]> held).
Proof.
  unfold holds. intros Hh Hi Hm m' j. pose proof (lookup_lt_Some _ _ _ Hi). destruct (decide (m' = m)) as [->|Hne].
  - rewrite lookup_insert_eq. split.
    + intros [= <-]. exists (m :: hs). split; [by apply list_lookup_insert_eq|by left].
    + intros (hs' & Hj & Hin). destruct (decide (i = j)) as [->|Hij]; [done|].
      rewrite list_lookup_insert_ne in Hj by done. exfalso.
      assert (held !! m = Some j) as E by (apply Hh; eauto). by rewrite E in Hm.
  - rewrite lookup_insert_ne, Hh by done. destruct (decide (i = j)) as [->|Hij].
    + rewrite list_lookup_insert_eq, Hi by done. split; intros (hs' & [= <-] & Hin).
      * exists (m :: hs). split; [done|by right].
      * exists hs. split; [done|]. by apply elem_of_cons in Hin as [->|?].
    + by rewrite list_lookup_insert_ne.
Qed.

Lemma holds_pop stacks held i hs m :
  holds stacks held → stacks !! i = Some (m :: hs) → m ∉ hs →
  holds (<[i := hs]> stacks) (delete m held).
Proof.
  unfold holds. intros Hh Hi Hm m' j. pose proof (lookup_lt_Some _ _ _ Hi). destruct (decide (m' = m)) as [->|Hne].
  - rewrite lookup_delete_eq. split; [done|]. intros (hs' & Hj & Hin).
    destruct (decide (i = j)) as [->|Hij].
    + rewrite list_lookup_insert_eq in Hj by done. by injection Hj as ->.
    + rewrite list_lookup_insert_ne in Hj by done. exfalso.
      assert (held !! m = Some i) as E by (apply Hh; exists (m :: hs); split; [done|by left]).
      assert (held !! m = Some j) as E' by (apply Hh; eauto). rewrite E in E'. by injection E'.
  - rewrite lookup_delete_ne, Hh by done. destruct (decide (i = j)) as [->|Hij].
    + rewrite list_lookup_insert_eq, Hi by done. split; intros (hs' & [= <-] & Hin).
      * exists hs. split; [done|]. by apply elem_of_cons in Hin as [->|?].
      * exists (m :: hs). split; [done|by right].
    + by rewrite list_lookup_insert_ne.
Qed.

Lemma holds_same stacks held i hs : holds stacks held → stacks !! i = Some hs → holds (<[i := hs]> stacks) held.
Proof. intros Hh Hi. by rewrite list_insert_id. Qed.

Lemma holds_new stacks held n : holds stacks held → holds (stacks ++ replicate n []) held.
Proof.
  unfold holds. intros Hh m i. rewrite Hh. split; intros (hs & Hi & Hin); exists hs; (split; [|done]).
  - by apply lookup_app_l_Some.
  - apply lookup_app_Some in Hi as [Hi|[_ Hi]]; [done|]. apply lookup_replicate in Hi as [-> _]. by inversion Hin.
Qed.

Lemma code_step_finishing {B} i (c : RM S B) s held c' s' held' new stacks hs :
  locks hs c (λ _ held, held = []) → NoDup hs → holds stacks held → stacks !! i = Some hs →
  code_step i c s held = Some (c', s', held', new) →
  ∃ hs', NoDup hs' ∧ locks hs' c' (λ _ held, held = []) ∧ holds (<[i := hs']> stacks) held' ∧
    Forall2 finishing (replicate (length new) []) new.
Proof.
  intros Hc Hnd Hh Hi. destruct c as [r|X f k|m k|m k|t k]; cbn in *; [done|..].
  - intros [= <- <- <- <-]. exists hs. split_and!; [done|done|by apply holds_same|constructor].
  - destruct (held !! m) eqn:Em; [done|]. intros [= <- <- <- <-]. destruct Hc as [Hm Hk]. exists (m :: hs).
    split_and!; [|done|by apply holds_push|constructor]. constructor; [by apply above_not_in|done].
  - case_decide; [|done]. intros [= <- <- <- <-]. destruct hs as [|h hs]; [done|]. destruct Hc as [-> Hk].
    apply NoDup_cons in Hnd as [Hm Hnd]. exists hs. split_and!; [done|done|by apply holds_pop|constructor].
  - intros [= <- <- <- <-]. destruct Hc as (_ & Ht & Hk). exists hs. split_and!; [done|done|by apply holds_same|].
    constructor; [|constructor]. split; [constructor|done].
Qed.

Lemma step_disciplined i w w' : disciplined w → step i w = Some w' → disciplined w'.
Proof.
  intros (stacks & Hf & Hh) (th & th' & s & held & new & Ei & E & ->)%step_inv.
  destruct (Forall2_lookup_r _ _ _ _ _ Hf Ei) as (hs & Ehs & Hnd & Hth).
  assert (∃ hs', finishing hs' th' ∧ holds (<[i := hs']> stacks) held ∧
    Forall2 finishing (replicate (length new) []) new) as (hs' & Hth' & Hh' & Hnew).
  { destruct th as [l c|c]; apply bind_Some in E as ([[[c' s'] held'] new'] & Ec & [= <- <- <- <-]);
      destruct (code_step_finishing _ _ _ _ _ _ _ _ _ _ Hth Hnd Hh Ehs Ec) as (hs' & ? & ? & ? & ?);
      by exists hs'. }
  exists (<[i := hs']> stacks ++ replicate (length new) []). split; [|by apply holds_new].
  apply Forall2_app; [|done]. by apply Forall2_insert.
Qed.

Lemma reachable_disciplined arrivals w w' :
  (∀ th, arrivals th → finishing [] th) → disciplined w → reachable arrivals w w' → disciplined w'.
Proof.
  intros Ha Hw. induction 1 as [|i w1 w2 _ IH E|th w1 _ (stacks & Hf & Hh) Hin]; [done|by eapply step_disciplined|].
  exists (stacks ++ replicate 1 []). split; [|by apply holds_new].
  apply Forall2_app; [done|]. constructor; [by apply Ha|constructor].
Qed.

Lemma disciplined_idle s : disciplined (idle s).
Proof. exists []. split; [constructor|]. intros m i. cbn. rewrite lookup_empty. split; [done|]. by intros (? & ? & _). Qed.

(** What a task waits for. *)
Definition waits (th : Thread) : option Mutex :=
  match th with
  | Client _ (Lock m _) | Task (Lock m _) => Some m
  | _ => None
  end.

(** A task that cannot step has ended, or waits for a mutex that is held. *)
Lemma stuck_waits w stacks i th :
  Forall2 finishing stacks (w_threads w) → holds stacks (w_held w) → w_threads w !! i = Some th →
  step i w = None → ended th ∨ ∃ m, waits th = Some m ∧ is_Some (w_held w !! m).
Proof.
  intros Hf Hh Ei Hstep. destruct (Forall2_lookup_r _ _ _ _ _ Hf Ei) as (hs & Ehs & Hnd & Hth).
  assert (thread_step i th (w_state w) (w_held w) = None) as E.
  { destruct (thread_step i th _ _) eqn:E; [|done]. destruct (step_Some _ _ _ _ Ei E) as [w' Hw]. by rewrite Hw in Hstep. }
  assert (∀ m, m ∈ hs → w_held w !! m = Some i) as Hin by (intros m Hm; apply Hh; eauto).
  destruct th as [l c|c]; (destruct c as [r|X f k|m k|m k|t k]; cbn in *; [by left|done| | |done]).
  1, 3: right; exists m; split; [done|]; by destruct (w_held w !! m).
  all: destruct hs as [|h hs]; [done|]; destruct Hth as [-> _]; rewrite decide_True in E by (apply Hin; by left); done.
Qed.

(** The holder of a mutex that waits for one waits for one of a higher rank. *)
Lemma waits_above w stacks i th m m' :
  Forall2 finishing stacks (w_threads w) → holds stacks (w_held w) → w_threads w !! i = Some th →
  w_held w !! m = Some i → ¬ ended th ∧ (waits th = Some m' → rank m < rank m').
Proof.
  intros Hf Hh Ei Hm. destruct (Forall2_lookup_r _ _ _ _ _ Hf Ei) as (hs & Ehs & Hnd & Hth).
  apply Hh in Hm as (hs' & Ehs' & Hin). rewrite Ehs in Ehs'. injection Ehs' as <-.
  assert (hs ≠ []) as Hne by (intros ->; inversion Hin).
  destruct th as [l c|c]; destruct c as [r|X f k|n k|n k|t k]; cbn in *;
    try (by destruct Hne); (split; [by intros []|]); intros Em; try discriminate Em.
  all: injection Em as <-; destruct Hth as [Ha _]; exact (proj1 (Forall_forall _ _) Ha _ Hin).
Qed.

Lemma waits_lt w : 
  disciplined w → (∀ i, step i w = None) → ∀ i th m, w_threads w !! i = Some th → waits th ≠ Some m.
Proof.
  intros (stacks & Hf & Hh) Hstuck.
  assert (∀ n i th m, 1 - rank m < n → w_threads w !! i = Some th → waits th ≠ Some m) as Hall.
  2: { intros i th m. apply (Hall 2). lia. }
  induction n as [|n IH]; intros i th m Hn Ei Hw; [lia|].
  destruct (stuck_waits _ _ _ _ Hf Hh Ei (Hstuck i)) as [He|(m' & Em & j & Ej)].
  { destruct th as [l c|c]; by destruct c. }
  rewrite Hw in Em. injection Em as <-.
  destruct (proj1 (Hh m j) Ej) as (hs & Ehs & Hin).
  destruct (Forall2_lookup_l _ _ _ _ _ Hf Ehs) as (th' & Eth' & _).
  destruct (stuck_waits _ _ _ _ Hf Hh Eth' (Hstuck j)) as [He|(m' & Em & _)].
  { by destruct (proj1 (waits_above _ _ _ _ _ m Hf Hh Eth' Ej)). }
  pose proof (proj2 (waits_above _ _ _ _ _ m' Hf Hh Eth' Ej) Em) as Hr.
  apply (IH j th' m'); [|done|done]. destruct m, m'; cbn in *; lia.
Qed.

(** When every task has ended no mutex is held. *)
Lemma ended_free w : disciplined w → Forall ended (w_threads w) → w_held w = ∅.
Proof.
  intros (stacks & Hf & Hh) He. apply map_empty. intros m. destruct (w_held w !! m) as [i|] eqn:Em; [|done].
  pose proof Em as (hs & Ehs & Hin)%Hh. destruct (Forall2_lookup_l _ _ _ _ _ Hf Ehs) as (th & Eth & _).
  destruct (waits_above w stacks i th m m Hf Hh Eth Em) as [Hn _]. destruct Hn. by eapply Forall_lookup in He.
Qed.

(** When no task can step, every task has ended. *)
Lemma no_deadlock w : disciplined w → (∀ i, step i w = None) → Forall ended (w_threads w).
Proof.
  intros Hd Hstuck. apply Forall_lookup. intros i th Ei. pose proof Hd as (stacks & Hf & Hh).
  destruct (stuck_waits _ _ _ _ Hf Hh Ei (Hstuck i)) as [He|(m & Em & _)]; [done|].
  by destruct (waits_lt w Hd Hstuck i th m Ei).
Qed.

(** ** Every schedule ends *)

Lemma insert_perm {B} (l : list B) i x y : l !! i = Some x → <[i := y]> l ≡ₚ y :: delete i l.
Proof.
  intros Ei. pose proof (lookup_lt_Some _ _ _ Ei).
  rewrite insert_take_drop, delete_take_drop by done. by rewrite <-Permutation_middle.
Qed.

(** Code with a result of any type. *)
Inductive Code : Type :=
  | code (B : Type) (c : RM S B).

Definition code_of (th : Thread) : Code := match th with Client _ c => code _ c | Task c => code _ c end.

(** What is left of a task after one action, and what it spawns. *)
Definition part (x y : Code) : Prop :=
  let 'code _ c := y in
  match c with
  | Done _ => False
  | Act f k => ∃ b, x = code _ (k b)
  | Lock _ k | Unlock _ k => x = code _ k
  | Fork t k => x = code _ t ∨ x = code _ k
  end.

Lemma part_acc (x : Code) : Acc part x.
Proof.
  destruct x as [B c]. induction c as [B r|B X f k IH|B m k IH|B m k IH|B t IHt k IH]; constructor;
    intros y; unfold part; cbn; [done| | | |]; [intros [b ->]| | |intros [-> | ->]]; try intros ->; auto.
Qed.

Lemma code_step_part {B} i (c : RM S B) s held c' s' held' new :
  code_step i c s held = Some (c', s', held', new) →
  part (code _ c') (code _ c) ∧ Forall (λ x, part x (code _ c)) (code_of <$> new).
Proof.
  destruct c; cbn; repeat case_match; intros [= <- <- <- <-]; try (split; [|constructor]; done).
  - split; [by eexists|constructor].
  - split; [by right|]. constructor; [by left|constructor].
Qed.

Lemma step_replaces i w w' :
  step i w = Some w' → replaces part (code_of <$> w_threads w') (code_of <$> w_threads w).
Proof.
  intros (th & th' & s & held & new & Ei & E & ->)%step_inv.
  exists (code_of th), (code_of <$> delete i (w_threads w)), (code_of <$> th' :: new).
  split_and!.
  - rewrite <-fmap_cons. apply fmap_Permutation. by apply delete_Permutation.
  - cbn [w_threads]. rewrite <-fmap_app. apply fmap_Permutation.
    rewrite (insert_perm _ _ _ _ Ei), <-app_comm_cons. constructor. apply Permutation_app_comm.
  - destruct th as [l c|c]; apply bind_Some in E as ([[[c' s'] held'] new'] & Ec & [= <- <- <- <-]);
      apply code_step_part in Ec as [Hc Hnew]; by constructor.
Qed.

(** There is no infinite schedule without arrivals. *)
Lemma moves_end w : Acc (flip moves) w.
Proof.
  assert (Acc (replaces part) (code_of <$> w_threads w)) as Ha.
  { apply Acc_replaces, Forall_true, part_acc. }
  remember (code_of <$> w_threads w) as cs eqn:Ecs. revert w Ecs.
  induction Ha as [cs _ IH]; intros w ->. constructor. intros w' [i Hi].
  eapply IH; [|done]. by eapply step_replaces.
Qed.

Lemma stuck_dec w : (∃ w', moves w w') ∨ ∀ i, step i w = None.
Proof.
  destruct (decide (Exists (λ i, is_Some (step i w)) (seq 0 (length (w_threads w))))) as [He|Hn].
  - left. apply Exists_exists in He as (i & _ & w' & E). by exists w', i.
  - right. intros i. destruct (step i w) as [w'|] eqn:E; [|done]. destruct Hn. apply Exists_exists.
    exists i. split; [|by eexists]. apply elem_of_seq. unfold step in E.
    apply bind_Some in E as (th & Eth & _). apply lookup_lt_Some in Eth. lia.
Qed.

(** Every world comes to rest. *)
Lemma comes_to_rest w : ∃ w', rtc moves w w' ∧ ∀ i, step i w' = None.
Proof.
  induction (moves_end w) as [w _ IH]. destruct (stuck_dec w) as [[w' Hw]|Hs].
  - destruct (IH w' Hw) as (w2 & Hr & Hs). exists w2. split; [by eapply rtc_l|done].
  - by exists w.
Qed.

(** A client's task stays where it is, with its label. *)
Lemma moves_client w w' i l c :
  rtc moves w w' → w_threads w !! i = Some (Client l c) → ∃ c', w_threads w' !! i = Some (Client l c').
Proof.
  intros Hr. revert c. induction Hr as [w|w w1 w' [j Hj] _ IH]; intros c Ei; [by exists c|].
  apply step_inv in Hj as (th & th' & s & held & new & Ej & E & ->).
  pose proof (lookup_lt_Some _ _ _ Ei). destruct (decide (j = i)) as [->|Hne].
  - rewrite Ei in Ej. injection Ej as <-. apply bind_Some in E as ([[[c' s'] held'] new'] & _ & [= <- <- <- <-]).
    apply (IH c'). apply lookup_app_l_Some. by rewrite list_lookup_insert_eq.
  - apply (IH c). apply lookup_app_l_Some. by rewrite list_lookup_insert_ne.
Qed.

(** ** Runs are schedules *)

(** The task at [i], with the mutexes [held] in its hands and all others free. *)
Definition alone (held : list Mutex) (i : nat) (th : Thread) (w : World) : Prop :=
  w_threads w !! i = Some th ∧ ∀ m j, w_held w !! m = Some j ↔ j = i ∧ m ∈ held.

(** The other tasks are where they were. *)
Definition others_kept (i : nat) (w w' : World) : Prop :=
  ∀ j th, j ≠ i → w_threads w !! j = Some th → w_threads w' !! j = Some th.

Section alone.
Context {B : Type} (wrap : RM S B → Thread) (i : nat).
Hypothesis Hwrap : ∀ c s held, thread_step i (wrap c) s held =
  '(c, s, held, new) ← code_step i c s held; Some (wrap c, s, held, new).

(** One step of it. *)
Definition goes_to (c : RM S B) (hs : list Mutex) (s : S) (w w1 : World) : Prop :=
  moves w w1 ∧ alone hs i (wrap c) w1 ∧ w_state w1 = s ∧ others_kept i w w1.

Lemma alone_step w c c' s held new hs hs' :
  alone hs i (wrap c) w → code_step i c (w_state w) (w_held w) = Some (c', s, held, new) →
  (∀ m j, held !! m = Some j ↔ j = i ∧ m ∈ hs') →
  goes_to c' hs' s w (mkWorld s held (<[i := wrap c']> (w_threads w) ++ new)).
Proof.
  intros [Ei _] Ec Hheld. pose proof (lookup_lt_Some _ _ _ Ei) as Hlt. split_and!; [|split; [|done]|done|].
  - exists i. unfold step. rewrite Ei. cbn. by rewrite Hwrap, Ec.
  - apply lookup_app_l_Some. by rewrite list_lookup_insert_eq.
  - intros j th Hj Ej. apply lookup_app_l_Some. by rewrite list_lookup_insert_ne.
Qed.

Lemma alone_act {X} w (f : S → X * S) k hs :
  alone hs i (wrap (Act f k)) w → ∃ w1, goes_to (k (f (w_state w)).1) hs (f (w_state w)).2 w w1.
Proof. intros Hw. eexists. eapply alone_step; [done|done|apply Hw]. Qed.

Lemma alone_lock w m k hs :
  alone hs i (wrap (Lock m k)) w → m ∉ hs → ∃ w1, goes_to k (m :: hs) (w_state w) w w1.
Proof.
  intros Hw Hnot. eexists. eapply (alone_step _ _ _ _ (<[m := i]> (w_held w)) []); [done| |].
  - cbn. destruct (w_held w !! m) as [j|] eqn:Ej; [|done]. by apply Hw in Ej as [_ Hin].
  - intros m' j. destruct (decide (m = m')) as [->|Hne].
    + rewrite lookup_insert_eq, elem_of_cons. split; [by intros [= ->]; auto|by intros [-> _]].
    + rewrite lookup_insert_ne, (proj2 Hw), elem_of_cons by done. split; intros [-> Hin]; [by auto|].
      by destruct Hin as [->|].
Qed.

Lemma alone_unlock w m k hs :
  alone (m :: hs) i (wrap (Unlock m k)) w → m ∉ hs → ∃ w1, goes_to k hs (w_state w) w w1.
Proof.
  intros Hw Hnot. eexists. eapply (alone_step _ _ _ _ (delete m (w_held w)) []); [done| |].
  - cbn. rewrite decide_True; [done|]. apply Hw. split; [done|by left].
  - intros m' j. destruct (decide (m = m')) as [->|Hne].
    + rewrite lookup_delete_eq. by split; [|intros [_ ?]].
    + rewrite lookup_delete_ne, (proj2 Hw), elem_of_cons by done. split; intros [-> Hin]; [|by auto].
      by destruct Hin as [->|].
Qed.

Lemma alone_fork w t k :
  alone [] i (wrap (Fork t k)) w →
  ∃ w1, goes_to k [] (w_state w) w w1 ∧ alone [] (length (w_threads w)) (Task t) w1.
Proof.
  intros Hw. eexists. split; [eapply (alone_step _ _ _ _ (w_held w) [Task t]); [done|done|apply Hw]|].
  split; [|intros m j; cbn; rewrite (proj2 Hw), !elem_of_nil; tauto].
  cbn. rewrite lookup_app_r; rewrite length_insert; [|done]. by rewrite Nat.sub_diag.
Qed.

(** It can run to the end with the result and the state [out]. *)
Definition runs_to (out : DnsResult B * S) (w : World) : Prop :=
  ∃ w', rtc moves w w' ∧ w_state w' = out.2 ∧ alone [] i (wrap (Done out.1)) w' ∧ others_kept i w w'.

Lemma runs_to_step c hs s out w w1 : goes_to c hs s w w1 → runs_to out w1 → runs_to out w.
Proof.
  intros (Hm & _ & _ & Ho) (w' & Hr & Hs & Hw & Ho'). exists w'. split_and!; [by eapply rtc_l|done|done|].
  by intros j th Hj Hth%Ho%Ho'.
Qed.
End alone.

(** A task that runs without interference, and after each spawn the new task first, does what [run]
    computes. *)
Lemma run_schedule {B} (wrap : RM S B → Thread) i (c : RM S B) hs w :
  (∀ c s held, thread_step i (wrap c) s held =
    '(c, s, held, new) ← code_step i c s held; Some (wrap c, s, held, new)) →
  locks hs c (λ _ held, held = []) → NoDup hs → alone hs i (wrap c) w →
  runs_to wrap i (run c (w_state w)) w.
Proof.
  revert wrap i hs w. induction c as [B r|B X f k IH|B m k IH|B m k IH|B t IHt k IH];
    intros wrap i hs w Hwrap Hc Hnd Hw; cbn in Hc.
  - subst hs. exists w. split_and!; [constructor|done|done|by intros j th].
  - destruct (alone_act _ _ Hwrap _ _ _ _ Hw) as (w1 & Hg). pose proof Hg as (_ & Hw1 & Hs & _).
    rewrite run_node, <-Hs. eapply runs_to_step; [exact Hg|]. by eapply IH.
  - destruct Hc as [Hm Hk]. pose proof (above_not_in _ _ Hm) as Hnot.
    destruct (alone_lock _ _ Hwrap _ _ _ _ Hw Hnot) as (w1 & Hg). pose proof Hg as (_ & Hw1 & Hs & _).
    eapply runs_to_step; [exact Hg|]. unfold run. fold (run k (w_state w)). rewrite <-Hs.
    eapply IH; [done|done|by constructor|done].
  - destruct hs as [|h hs]; [done|]. destruct Hc as [-> Hk]. apply NoDup_cons in Hnd as [Hnot Hnd].
    destruct (alone_unlock _ _ Hwrap _ _ _ _ Hw Hnot) as (w1 & Hg). pose proof Hg as (_ & Hw1 & Hs & _).
    eapply runs_to_step; [exact Hg|]. unfold run. fold (run k (w_state w)). rewrite <-Hs. by eapply IH.
  - destruct Hc as (-> & Ht & Hk). pose proof (lookup_lt_Some _ _ _ (proj1 Hw)) as Hlt.
    destruct (alone_fork _ _ Hwrap _ _ _ Hw) as (w1 & (Hm & Hw1 & Hs1 & Ho) & Hwt).
    destruct (IHt Task (length (w_threads w)) [] w1) as (w2 & Hr2 & Hs2 & [_ Hh2] & Ho2); [done|done|constructor|done|].
    destruct (IH wrap i [] w2 Hwrap Hk Hnd) as (w' & Hr & Hs & Hw' & Ho').
    { split; [apply Ho2; [lia|apply Hw1]|]. intros m j. rewrite Hh2, !elem_of_nil. tauto. }
    rewrite Hs2, Hs1 in Hs, Hw'. exists w'. split_and!; [by eapply rtc_l; [|etrans]|exact Hs|exact Hw'|].
    intros j th Hj Ej. apply Ho'; [done|]. apply Ho2; [|by apply Ho]. apply lookup_lt_Some in Ej. lia.
Qed.

(** ** A mutex that is never given back *)

(** A task that takes no step while [m] is held: it has ended, or waits for [m]. *)
Definition blocked (m : Mutex) (th : Thread) : Prop := ended th ∨ waits th = Some m.

#[export] Instance ended_dec th : Decision (ended th).
Proof. destruct th as [l []|[]]; cbn; apply _. Defined.
#[export] Instance blocked_dec m th : Decision (blocked m th).
Proof. unfold blocked. apply _. Defined.

(** The task at [i] holds [m] and is blocked by it. *)
Definition jammed (m : Mutex) (i : nat) (w : World) : Prop :=
  w_held w !! m = Some i ∧ ∃ th, w_threads w !! i = Some th ∧ blocked m th.

Lemma blocked_stuck m j th s (held : gmap Mutex nat) :
  is_Some (held !! m) → blocked m th → thread_step j th s held = None.
Proof.
  intros [i Hm]. destruct th as [l c|c]; destruct c as [r|X f k|n k|n k|t k]; cbn; intros [He|He]; try done;
    injection He as ->; by rewrite Hm.
Qed.

Lemma jammed_stuck m i w : jammed m i w → step i w = None.
Proof.
  intros (Hm & th & Ei & Hth). unfold step. rewrite Ei. cbn. by rewrite (blocked_stuck m) by eauto.
Qed.

Lemma code_step_held {B} j (c : RM S B) s held c' s' held' new m i :
  code_step j c s held = Some (c', s', held', new) → held !! m = Some i → i ≠ j → held' !! m = Some i.
Proof.
  destruct c as [r|X f k|n k|n k|t k]; cbn; intros E Hm Hne; repeat case_match; simplify_eq; try done.
  - rewrite lookup_insert_ne; [done|]. intros ->. congruence.
  - rewrite lookup_delete_ne; [done|]. intros ->. congruence.
Qed.

Lemma step_jammed m i j w w' : jammed m i w → step j w = Some w' → jammed m i w'.
Proof.
  intros Hj E. assert (i ≠ j) as Hne by (intros ->; by rewrite (jammed_stuck _ _ _ Hj) in E).
  destruct Hj as (Hm & th0 & Ei & Hth). apply step_inv in E as (th & th' & s & held & new & Ej & E & ->). split.
  - destruct th as [l c|c]; apply bind_Some in E as ([[[c' s'] held'] new'] & Ec & [= <- <- <- <-]);
      by apply (code_step_held j _ _ _ _ _ _ _ m i Ec).
  - exists th0. split; [|done]. apply lookup_app_l_Some. by rewrite list_lookup_insert_ne.
Qed.

Lemma reachable_jammed arrivals m i w w' : jammed m i w → reachable arrivals w w' → jammed m i w'.
Proof.
  intros Hj. induction 1 as [|j w1 w2 _ IH E|th w1 _ (Hm & th0 & Ei & Hth) _]; [done|by eapply step_jammed|].
  split; [done|]. exists th0. split; [by apply lookup_app_l_Some|done].
Qed.

(** [wp] for code that never gets past the taking of [m]. *)
Fixpoint wp_without {B : Type} (m : Mutex) (I : S → Prop) (c : RM S B) (Φ : DnsResult B → Prop) : Prop :=
  match c with
  | Done r => Φ r
  | Act f k => ∀ s, I s → I (f s).2 ∧ wp_without m I (k (f s).1) Φ
  | Lock m' k => m' ≠ m → wp_without m I k Φ
  | Unlock _ k => wp_without m I k Φ
  | Fork t k => wp_without m I t (λ _, True) ∧ wp_without m I k Φ
  end.

Lemma wp_without_mono {B} m I (c : RM S B) (Φ Ψ : DnsResult B → Prop) :
  wp_without m I c Φ → (∀ r, Φ r → Ψ r) → wp_without m I c Ψ.
Proof.
  intros Hc HΦ. induction c as [B r|B X f k IH|B n k IH|B n k IH|B t _ k IH]; cbn in *; [auto| |eauto..|].
  - intros s Hs. destruct (Hc s Hs). eauto.
  - destruct Hc. eauto.
Qed.

Lemma wp_without_handle {B B'} m I (h : DnsResult B → RM S B') (c : RM S B) Φ :
  wp_without m I c (λ r, wp_without m I (h r) Φ) → wp_without m I (handle h c) Φ.
Proof.
  induction c as [B r|B X f k IH|B n k IH|B n k IH|B t _ k IH]; cbn; [auto| |auto..|].
  - intros Hc s Hs. destruct (Hc s Hs). auto.
  - intros []. auto.
Qed.

Lemma wp_without_timeout {B} m I elapsed e held (c : RM S B) (Φ : DnsResult B → Prop) :
  (∀ s, I s → I (elapsed s).2) → Φ (Err e) → wp_without m I c Φ → wp_without m I (timeout elapsed e held c) Φ.
Proof.
  intros Hel He. revert held. induction c as [B r|B X f k IH|B n k IH|B n k IH|B t _ k IH]; intros held; cbn.
  - intros Hr. destruct r; try done. intros s Hs. split; [by apply Hel|]. by destruct (elapsed s).1.
  - intros Hc s Hs. destruct (Hc s Hs). auto.
  - intros Hc. destruct (awaited n); cbn; [|auto]. intros s Hs. split; [by apply Hel|].
    destruct (elapsed s).1; [|cbn; auto]. clear - He. induction held; cbn; auto.
  - auto.
  - intros []. auto.
Qed.

(** Code that keeps [I] keeps it all the more. *)
Lemma wp_wp_without {B} m I (c : RM S B) Φ : wp I c Φ → wp_without m I c Φ.
Proof.
  induction c as [B r|B X f k IH|B n k IH|B n k IH|B t IHt k IH]; cbn; [auto| |auto..|].
  - intros Hc s Hs. destruct (Hc s Hs). auto.
  - intros []. auto.
Qed.

Section without.
Context (m : Mutex) (I : S → Prop).

(** The values that are returned. *)
Definition gives_without {B} (c : RM S B) (Q : B → Prop) : Prop :=
  wp_without m I c (λ r, ∀ a, r = Ok a → Q a).

Lemma gives_without_bind {B B'} (c : RM S B) (f : B → RM S B') P Q :
  gives_without c P → (∀ a, P a → gives_without (f a) Q) → gives_without (c ≫= f) Q.
Proof.
  intros Hc Hf. apply wp_without_handle. eapply wp_without_mono; [exact Hc|].
  intros [a| | |] Hr; try done. by apply Hf, Hr.
Qed.
Lemma gives_without_keeps {B} (c : RM S B) Q : gives I c Q → gives_without c Q.
Proof. apply wp_wp_without. Qed.
Lemma gives_without_then {B B'} (c : RM S B) (f : B → RM S B') Q :
  keeps I c → (∀ a, gives_without (f a) Q) → gives_without (c ≫= f) Q.
Proof. intros Hc Hf. eapply gives_without_bind; [by apply gives_without_keeps|auto]. Qed.
Lemma gives_without_with_lock {B} n (c : RM S B) Q :
  (n ≠ m → gives_without c Q) → gives_without (with_lock n c) Q.
Proof.
  intros Hc Hn. apply wp_without_handle. eapply wp_without_mono; [exact (Hc Hn)|]. by intros [].
Qed.
Lemma gives_without_attempt {B} (c : RM S B) (Q : B → Prop) :
  gives_without c Q → gives_without (attempt c) (λ r, ∀ a, r = Ok a → Q a).
Proof.
  intros Hc. apply wp_without_handle. eapply wp_without_mono; [exact Hc|]. by intros r Hr o [= <-].
Qed.
Lemma gives_without_catch {B} (c : RM S B) (Q : B → Prop) :
  gives_without c Q → gives_without (catch c) (λ r, ∀ a, r = inl a → Q a).
Proof.
  intros Hc. apply wp_without_handle. eapply wp_without_mono; [exact Hc|].
  intros [a|e| |] Hr o; try done; intros [= <-]; [|done]. intros a' [= <-]. by apply Hr.
Qed.
Lemma gives_without_try {B} (c : RM S B) (Q : B → Prop) :
  gives_without c Q → gives_without (try c) (λ r, ∀ a, r = Some a → Q a).
Proof.
  intros Hc. apply wp_without_handle. eapply wp_without_mono; [exact Hc|].
  intros [a|e| |] Hr o; try done; intros [= <-]; [|done]. intros a' [= <-]. by apply Hr.
Qed.

(** The tasks that come after the first [n], which are blocked. *)
Context (i n : nat) (Φ : L → DnsResult A → Prop).

Definition thread_wp_without (th : Thread) : Prop :=
  match th with
  | Client l c => wp_without m I c (Φ l)
  | Task c => wp_without m I c (λ _, True)
  end.

Definition sound_without (w : World) : Prop :=
  jammed m i w ∧ I (w_state w) ∧ n <= length (w_threads w) ∧
  ∀ j th, w_threads w !! j = Some th → if decide (j < n) then blocked m th else thread_wp_without th.

Lemma code_step_without {B} j (c : RM S B) s held c' s' held' new Ψ :
  held !! m = Some i → wp_without m I c Ψ → I s → code_step j c s held = Some (c', s', held', new) →
  I s' ∧ wp_without m I c' Ψ ∧ Forall thread_wp_without new.
Proof.
  intros Hm. destruct c as [r|X f k|o k|o k|t k]; cbn; intros Hc Hs; repeat case_match; intros [= <- <- <- <-]; try done.
  - by destruct (Hc s Hs).
  - split; [done|]. split; [|constructor]. apply Hc. intros ->. congruence.
  - destruct Hc. split_and!; [done..|]. by constructor.
Qed.

Lemma step_sound_without j w w' : sound_without w → step j w = Some w' → sound_without w'.
Proof.
  intros (Hj & Hs & Hn & Hth) E. pose proof (step_jammed _ _ _ _ _ Hj E) as Hj'.
  apply step_inv in E as (th & th' & s & held & new & Ej & E & ->).
  pose proof (Hth _ _ Ej) as Hwp. destruct Hj as [Hm _].
  case_decide as Hjn; [by rewrite (blocked_stuck m) in E by eauto|].
  assert (I s ∧ thread_wp_without th' ∧ Forall thread_wp_without new) as (Hs' & Hth' & Hnew).
  { destruct th as [l c|c]; apply bind_Some in E as ([[[c' s'] held'] new'] & Ec & [= <- <- <- <-]);
      by eapply code_step_without in Ec. }
  split; [done|]. split; [done|]. split; [cbn; rewrite length_app, length_insert; lia|].
  intros k th0. cbn. intros [E0|[Hlen E0]]%lookup_app_Some.
  - destruct (decide (j = k)) as [->|Hjk].
    + rewrite list_lookup_insert_eq in E0 by (by apply lookup_lt_Some in Ej). injection E0 as <-.
      by rewrite decide_False.
    + rewrite list_lookup_insert_ne in E0 by done. by apply (Hth k).
  - rewrite length_insert in Hlen. rewrite decide_False by lia. by eapply Forall_lookup in E0.
Qed.

Lemma adequacy_without arrivals w w' :
  (∀ th, arrivals th → thread_wp_without th) → sound_without w → reachable arrivals w w' → sound_without w'.
Proof.
  intros Ha Hw Hr. pose proof (reachable_jammed _ m i _ _ (proj1 Hw) Hr) as Hj. revert Hj.
  induction Hr as [|j w1 w2 Hr IH E|th w1 Hr IH Hin]; intros Hj; [done| |].
  - eapply step_sound_without; [|done]. apply IH. by eapply reachable_jammed; [apply Hw|].
  - destruct IH as (_ & Hs & Hn & Hth); [by eapply reachable_jammed; [apply Hw|]|].
    split; [done|]. split; [done|]. split; [cbn; rewrite length_app; lia|].
    intros k th0. cbn. intros [E0|[Hlen E0]]%lookup_app_Some; [by apply (Hth k)|].
    apply list_lookup_singleton_Some in E0 as [_ <-]. rewrite decide_False by lia. by apply Ha.
Qed.
End without.
End scheduler.
Arguments Thread : clear implicits.
Arguments World : clear implicits.

Create HintDb orderly.
#[export] Hint Resolve orderly_ret orderly_throw orderly_lift : orderly.
(** Also under the name of an action. *)
#[export] Hint Extern 1 (orderly _ _) => apply orderly_act : orderly.
