(* ===== verification/Order.v ===== *)
(** * Lexicographic comparison

    [Ord] on byte strings and on sequences of labels: the comparison of two
    lists by their first difference, the shorter one first. *)

From stdpp Require Import sorting.
From S2P Require Import Prelude.
#[local] Open Scope Z_scope.

Fixpoint lex_cmp {A} (cmp : A → A → comparison) (a b : list A) : comparison :=
  match a, b with
  | [], [] => Eq
  | [], _ :: _ => Lt
  | _ :: _, [] => Gt
  | x :: a, y :: b =>
    match cmp x y with
    | Eq => lex_cmp cmp a b
    | c => c
    end
  end.

(** [Ord for Vec<u8>] *)
Definition bytes_cmp : bytes → bytes → comparison := lex_cmp Z.compare.

(** A comparison that is a total order. *)
Class LawfulCmp {A} (cmp : A → A → comparison) : Prop := {
  cmp_eq x y : cmp x y = Eq ↔ x = y;
  cmp_swap x y : cmp y x = CompOpp (cmp x y);
  cmp_lt_trans x y z : cmp x y = Lt → cmp y z = Lt → cmp x z = Lt;
}.

#[export] Instance Z_compare_lawful : LawfulCmp Z.compare.
Proof.
  split.
  - apply Z.compare_eq_iff.
  - intros. apply Z.compare_antisym.
  - intros x y z. rewrite !Z.compare_lt_iff. lia.
Qed.

Section lawful.
Context {A} (cmp : A → A → comparison) `{!LawfulCmp cmp}.

Lemma cmp_refl x : cmp x x = Eq.
Proof. by apply (cmp_eq (cmp:=cmp)). Qed.

Lemma cmp_gt_lt x y : cmp x y = Gt ↔ cmp y x = Lt.
Proof. rewrite (cmp_swap (cmp:=cmp) x y). destruct (cmp x y); naive_solver. Qed.

#[export] Instance lex_cmp_lawful : LawfulCmp (lex_cmp cmp).
Proof.
  split.
  - intros a. induction a as [|x a IH]; intros [|y b]; simpl; try done.
    destruct (cmp x y) eqn:E.
    + apply (cmp_eq (cmp:=cmp)) in E as ->. rewrite IH. split; [by intros ->|by intros [= ->]].
    + split; [done|]. intros [= -> ->]. by rewrite cmp_refl in E.
    + split; [done|]. intros [= -> ->]. by rewrite cmp_refl in E.
  - intros a. induction a as [|x a IH]; intros [|y b]; simpl; try done.
    rewrite (cmp_swap (cmp:=cmp) x y). destruct (cmp x y); simpl; auto.
  - intros a. induction a as [|x a IH]; intros [|y b] [|z c]; simpl; try done.
    destruct (cmp x y) eqn:E1; [apply (cmp_eq (cmp:=cmp)) in E1 as ->| |done].
    + destruct (cmp y z); [|done..]. apply IH.
    + intros _. destruct (cmp y z) eqn:E2; [apply (cmp_eq (cmp:=cmp)) in E2 as ->; by rewrite E1| |done].
      intros _. by rewrite (cmp_lt_trans (cmp:=cmp) x y z).
Qed.

(** The order of a comparison. *)
Definition cmp_le (x y : A) : Prop := cmp x y ≠ Gt.
#[export] Instance cmp_le_dec x y : Decision (cmp_le x y).
Proof. unfold cmp_le. solve_decision. Defined.

#[export] Instance cmp_le_total : Total cmp_le.
Proof.
  intros x y. unfold cmp_le. rewrite (cmp_swap (cmp:=cmp) x y). destruct (cmp x y); naive_solver.
Qed.
#[export] Instance cmp_le_antisymm : AntiSymm (=) cmp_le.
Proof.
  intros x y. unfold cmp_le. rewrite (cmp_swap (cmp:=cmp) x y).
  destruct (cmp x y) eqn:E; simpl; try done. intros _ _. by apply (cmp_eq (cmp:=cmp)).
Qed.
#[export] Instance cmp_le_trans : Transitive cmp_le.
Proof.
  intros x y z. unfold cmp_le. intros Hxy Hyz Hxz.
  destruct (cmp x y) eqn:E1; [apply (cmp_eq (cmp:=cmp)) in E1 as ->; done| |done].
  destruct (cmp y z) eqn:E2; [apply (cmp_eq (cmp:=cmp)) in E2 as ->; by rewrite E1 in Hxz| |done].
  by rewrite (cmp_lt_trans (cmp:=cmp) x y z) in Hxz.
Qed.
End lawful.

#[export] Instance bytes_cmp_lawful : LawfulCmp bytes_cmp.
Proof. apply lex_cmp_lawful. apply _. Qed.

(** [Vec<Vec<u8>>::sort] *)
Definition sort_bytes (l : list bytes) : list bytes := merge_sort (cmp_le bytes_cmp) l.

Lemma sort_bytes_perm l : sort_bytes l ≡ₚ l.
Proof. apply merge_sort_Permutation. Qed.

(** Sorting forgets the order of its input. *)
Lemma sort_bytes_proper l k : l ≡ₚ k → sort_bytes l = sort_bytes k.
Proof.
  intros Hp. eapply (StronglySorted_unique (cmp_le bytes_cmp)).
  - apply StronglySorted_merge_sort; apply _.
  - apply StronglySorted_merge_sort; apply _.
  - by rewrite !sort_bytes_perm.
Qed.
