(* ===== verification/Lru.v ===== *)
(** * The LRU map the caches are built on

    The source uses the [lru] crate.  Its operations are a class, with the
    documented behaviour as laws about [lru_peek]: the caches of the
    development are proved against this interface.  The association list at
    the end, most recently used first, is an instance. *)

From S2P Require Import Prelude.
#[local] Open Scope Z_scope.

(** [lru_get] is [get] and [get_mut]: it promotes the key and yields the value;
    [lru_modify] is the write through the reference [get_mut] returned. *)
Class LruOps (K : Type) (C : Type → Type) := {
  lru_new : ∀ {V}, nat → C V;
  lru_cap : ∀ {V}, C V → nat;
  lru_len : ∀ {V}, C V → nat;
  lru_peek : ∀ {V}, K → C V → option V;
  lru_get : ∀ {V}, K → C V → option V * C V;
  lru_modify : ∀ {V}, K → V → C V → C V;
  lru_put : ∀ {V}, K → V → C V → C V;
  lru_pop : ∀ {V}, K → C V → C V;
  lru_clear : ∀ {V}, C V → C V;
  lru_iter : ∀ {V}, C V → list (K * V);
}.

(** [lru_ok] holds of every container the operations produce. *)
Class LruLaws (K : Type) (C : Type → Type) `{EqDecision K, LruOps K C} := {
  lru_ok : ∀ {V}, C V → Prop;
  lru_new_ok {V} n : (0 < n)%nat → lru_ok (lru_new (V:=V) n);
  lru_get_ok {V} k (c : C V) : lru_ok c → lru_ok (lru_get k c).2;
  lru_modify_ok {V} k v (c : C V) : lru_ok c → lru_ok (lru_modify k v c);
  lru_put_ok {V} k v (c : C V) : lru_ok c → lru_ok (lru_put k v c);
  lru_pop_ok {V} k (c : C V) : lru_ok c → lru_ok (lru_pop k c);
  lru_clear_ok {V} (c : C V) : lru_ok c → lru_ok (lru_clear c);
  lru_len_cap {V} (c : C V) : lru_ok c → (lru_len c ≤ lru_cap c)%nat;
  lru_cap_new {V} n : lru_cap (lru_new (V:=V) n) = n;
  lru_cap_get {V} k (c : C V) : lru_cap (lru_get k c).2 = lru_cap c;
  lru_cap_modify {V} k v (c : C V) : lru_cap (lru_modify k v c) = lru_cap c;
  lru_cap_put {V} k v (c : C V) : lru_cap (lru_put k v c) = lru_cap c;
  lru_cap_pop {V} k (c : C V) : lru_cap (lru_pop k c) = lru_cap c;
  lru_cap_clear {V} (c : C V) : lru_cap (lru_clear c) = lru_cap c;
  lru_peek_new {V} k n : lru_peek k (lru_new (V:=V) n) = None;
  lru_peek_clear {V} k (c : C V) : lru_peek k (lru_clear c) = None;
  lru_get_peek {V} k (c : C V) : (lru_get k c).1 = lru_peek k c;
  lru_peek_get {V} k k' (c : C V) : lru_peek k' (lru_get k c).2 = lru_peek k' c;
  lru_peek_modify {V} k k' v (c : C V) :
    lru_peek k' (lru_modify k v c) =
    if decide (k' = k) then (λ _, v) <$> lru_peek k c else lru_peek k' c;
  lru_peek_put {V} k v (c : C V) : lru_ok c → lru_peek k (lru_put k v c) = Some v;
  lru_peek_put_ne {V} k k' v (c : C V) :
    lru_ok c → k' ≠ k → lru_peek k' (lru_put k v c) = lru_peek k' c ∨ lru_peek k' (lru_put k v c) = None;
  lru_peek_put_room {V} k k' v (c : C V) :
    lru_ok c → k' ≠ k → (lru_len c < lru_cap c)%nat → lru_peek k' (lru_put k v c) = lru_peek k' c;
  lru_peek_pop {V} k k' (c : C V) :
    lru_peek k' (lru_pop k c) = if decide (k' = k) then None else lru_peek k' c;
  lru_iter_peek {V} k v (c : C V) : lru_ok c → (k, v) ∈ lru_iter c ↔ lru_peek k c = Some v;
}.

(** ** Derived facts *)

Section lemmas.
Context {K : Type} {C : Type → Type} `{LruLaws K C}.

(** Popping a list of keys. *)
Definition lru_pop_all {V} (ks : list K) (c : C V) : C V := foldl (λ c k, lru_pop k c) c ks.

Lemma lru_pop_all_peek {V} ks k (c : C V) :
  lru_peek k (lru_pop_all ks c) = if decide (k ∈ ks) then None else lru_peek k c.
Proof.
  unfold lru_pop_all. revert c. induction ks as [|k' ks IH]; intros c; cbn [foldl].
  { by rewrite decide_False by apply not_elem_of_nil. }
  rewrite IH, lru_peek_pop. destruct (decide (k = k')) as [->|Hne].
  - rewrite (decide_True _ _ (P:=k' ∈ k' :: ks)) by set_solver. by case_decide.
  - destruct (decide (k ∈ ks)); [rewrite decide_True by set_solver|rewrite decide_False by set_solver];
      done.
Qed.

Lemma lru_pop_all_ok {V} ks (c : C V) : lru_ok c → lru_ok (lru_pop_all ks c).
Proof. unfold lru_pop_all. revert c. induction ks; intros c ?; cbn; auto using lru_pop_ok. Qed.

Lemma lru_pop_all_cap {V} ks (c : C V) : lru_cap (lru_pop_all ks c) = lru_cap c.
Proof.
  unfold lru_pop_all. revert c. induction ks as [|k ks IH]; intros c; [done|].
  cbn [foldl]. by rewrite IH, lru_cap_pop.
Qed.

(** [get] as a promotion that no later lookup can tell. *)
Lemma lru_get_spec {V} k (c : C V) :
  lru_ok c →
  ∃ c', lru_get k c = (lru_peek k c, c') ∧ lru_ok c' ∧ lru_cap c' = lru_cap c ∧
        ∀ k', lru_peek k' c' = lru_peek k' c.
Proof.
  intros Hok. exists (lru_get k c).2. split_and!.
  - rewrite <-lru_get_peek. by destruct (lru_get k c).
  - by apply lru_get_ok.
  - apply lru_cap_get.
  - intros. apply lru_peek_get.
Qed.

(** What one finds after a [put] was there before or is the new value. *)
Lemma lru_put_inv {V} k v k' v' (c : C V) :
  lru_ok c → lru_peek k' (lru_put k v c) = Some v' →
  (k' = k ∧ v' = v) ∨ (k' ≠ k ∧ lru_peek k' c = Some v').
Proof.
  intros Hok Hp. destruct (decide (k' = k)) as [->|Hne].
  - rewrite lru_peek_put in Hp by done. naive_solver.
  - right. split; [done|]. by destruct (lru_peek_put_ne k k' v c Hok Hne) as [<-|E]; [|rewrite E in Hp].
Qed.

Lemma lru_modify_inv {V} k v k' v' (c : C V) :
  lru_peek k' (lru_modify k v c) = Some v' →
  (k' = k ∧ v' = v) ∨ (k' ≠ k ∧ lru_peek k' c = Some v').
Proof.
  rewrite lru_peek_modify. case_decide; [|naive_solver]. destruct (lru_peek k c); naive_solver.
Qed.

Lemma lru_pop_inv {V} k k' v' (c : C V) :
  lru_peek k' (lru_pop k c) = Some v' → k' ≠ k ∧ lru_peek k' c = Some v'.
Proof. rewrite lru_peek_pop. case_decide; naive_solver. Qed.
End lemmas.

(** ** The association-list instance *)

Record alru (K V : Type) := mkAlru { al_cap : nat; al_items : list (K * V) }.
Arguments mkAlru {K V}.
Arguments al_cap {K V}.
Arguments al_items {K V}.

Section alru.
Context {K : Type} `{EqDecision K}.

Fixpoint al_find {V} (k : K) (l : list (K * V)) : option V :=
  match l with
  | [] => None
  | (k', v) :: l => if decide (k' = k) then Some v else al_find k l
  end.
Definition al_remove {V} (k : K) (l : list (K * V)) : list (K * V) := filter (λ p, p.1 ≠ k) l.
Definition al_set {V} (k : K) (v : V) (l : list (K * V)) : list (K * V) :=
  map (λ p, if decide (p.1 = k) then (k, v) else p) l.

#[export] Instance alru_ops : LruOps K (alru K) := {
  lru_new V n := mkAlru n [];
  lru_cap V c := al_cap c;
  lru_len V c := length (al_items c);
  lru_peek V k c := al_find k (al_items c);
  lru_get V k c :=
    match al_find k (al_items c) with
    | Some v => (Some v, mkAlru (al_cap c) ((k, v) :: al_remove k (al_items c)))
    | None => (None, c)
    end;
  lru_modify V k v c := mkAlru (al_cap c) (al_set k v (al_items c));
  lru_put V k v c := mkAlru (al_cap c) (take (al_cap c) ((k, v) :: al_remove k (al_items c)));
  lru_pop V k c := mkAlru (al_cap c) (al_remove k (al_items c));
  lru_clear V c := mkAlru (al_cap c) [];
  lru_iter V c := al_items c;
}.

Definition alru_ok {V} (c : alru K V) : Prop :=
  (0 < al_cap c)%nat ∧ NoDup (al_items c).*1 ∧ (length (al_items c) ≤ al_cap c)%nat.

Lemma al_find_elem {V} k v (l : list (K * V)) :
  NoDup l.*1 → (k, v) ∈ l ↔ al_find k l = Some v.
Proof.
  induction l as [|[k' v'] l IH]; simpl; [set_solver|]. rewrite NoDup_cons. intros [Hni Hnd].
  rewrite elem_of_cons, IH by done. case_decide; subst; [|naive_solver].
  split; [|naive_solver]. intros [[= ->]|Hf]; [done|].
  exfalso. apply Hni. apply IH in Hf; [|done]. apply list_elem_of_fmap. by exists (k, v).
Qed.

Lemma al_find_remove {V} k k' (l : list (K * V)) :
  al_find k' (al_remove k l) = if decide (k' = k) then None else al_find k' l.
Proof.
  unfold al_remove. induction l as [|[j v] l IH]; [by case_decide|].
  destruct (decide (j = k)) as [->|Hj].
  - rewrite filter_cons_False by (simpl; tauto). rewrite IH. cbn [al_find].
    repeat case_decide; subst; done.
  - rewrite filter_cons_True by done. cbn [al_find]. rewrite IH.
    repeat case_decide; subst; done.
Qed.

Lemma al_find_set {V} k k' v (l : list (K * V)) :
  al_find k' (al_set k v l) =
  if decide (k' = k) then (λ _, v) <$> al_find k l else al_find k' l.
Proof.
  induction l as [|[j w] l IH]; simpl; [by case_decide|]. rewrite IH.
  repeat (case_decide; simpl; subst); try done.
Qed.

Lemma al_remove_keys {V} k (l : list (K * V)) : k ∉ (al_remove k l).*1.
Proof.
  intros ([j v] & -> & Hin)%list_elem_of_fmap. apply list_elem_of_filter in Hin as [? _]. done.
Qed.

Lemma al_remove_NoDup {V} k (l : list (K * V)) : NoDup l.*1 → NoDup (al_remove k l).*1.
Proof.
  unfold al_remove. induction l as [|[j v] l IH]; [done|]. cbn [fmap list_fmap fst].
  rewrite NoDup_cons. intros [Hni Hnd]. destruct (decide (j = k)) as [->|Hj].
  { rewrite filter_cons_False by (simpl; tauto). by apply IH. }
  rewrite filter_cons_True by done. cbn [fmap list_fmap fst]. rewrite NoDup_cons.
  split; [|by apply IH]. intros ([j' v'] & -> & Hin)%list_elem_of_fmap.
  apply Hni, list_elem_of_fmap. exists (j', v'). split; [done|].
  by apply list_elem_of_filter in Hin as [_ ?].
Qed.

Lemma al_remove_length {V} k (l : list (K * V)) : (length (al_remove k l) ≤ length l)%nat.
Proof. apply length_filter. Qed.

Lemma al_remove_absent {V} k (l : list (K * V)) : al_find k l = None → al_remove k l = l.
Proof.
  unfold al_remove. induction l as [|[j v] l IH]; [done|]. simpl. case_decide; [done|]. intros.
  rewrite filter_cons_True by done. by rewrite IH.
Qed.

Lemma al_remove_present {V} k v (l : list (K * V)) :
  al_find k l = Some v → (S (length (al_remove k l)) ≤ length l)%nat.
Proof.
  unfold al_remove. induction l as [|[j w] l IH]; [done|]. cbn [al_find].
  intros Hf. destruct (decide (j = k)) as [->|Hj].
  - rewrite filter_cons_False by (simpl; tauto). pose proof (al_remove_length k l).
    unfold al_remove in *. cbn [length]. lia.
  - rewrite filter_cons_True by done. cbn [length]. specialize (IH Hf). lia.
Qed.

Lemma al_set_keys {V} k v (l : list (K * V)) : (al_set k v l).*1 = l.*1.
Proof.
  induction l as [|[j w] l IH]; [done|]. unfold al_set in *. cbn [map]. rewrite !fmap_cons, IH.
  cbn [fst]. by case_decide; subst.
Qed.

Lemma al_find_take {V} n k (l : list (K * V)) :
  al_find k (take n l) = al_find k l ∨ al_find k (take n l) = None.
Proof.
  revert n. induction l as [|[j v] l IH]; intros n; [by destruct n; left|].
  destruct n; [by right|]. cbn [take al_find]. case_decide; auto.
Qed.

#[export] Program Instance alru_laws : LruLaws K (alru K) := { lru_ok V c := alru_ok c }.
Next Obligation. intros V n Hn. split_and!; simpl; [done|constructor|lia]. Qed.
Next Obligation.
  intros V k c (Hc & Hnd & Hl). unfold lru_get. cbn.
  destruct (al_find k (al_items c)) eqn:E; [|done]. split_and!; cbn; [done| |].
  - constructor; [apply al_remove_keys|by apply al_remove_NoDup].
  - pose proof (al_remove_present _ _ _ E). lia.
Qed.
Next Obligation.
  intros V k v c (Hc & Hnd & Hl). split_and!; [done| |].
  - change (NoDup (al_set k v (al_items c)).*1). by rewrite al_set_keys.
  - cbn. unfold al_set. by rewrite length_map.
Qed.
Next Obligation.
  intros V k v c (Hc & Hnd & Hl). split_and!; [done| |].
  - cbn [lru_put alru_ops al_items]. rewrite fmap_take. eapply sublist_NoDup; [|apply sublist_take].
    constructor; [apply al_remove_keys|by apply al_remove_NoDup].
  - cbn [lru_put alru_ops al_items al_cap]. rewrite length_take. lia.
Qed.
Next Obligation.
  intros V k c (Hc & Hnd & Hl). split_and!; cbn; [done|by apply al_remove_NoDup|].
  pose proof (al_remove_length k (al_items c)). lia.
Qed.
Next Obligation. intros V c (Hc & Hnd & Hl). split_and!; cbn; [done|constructor|lia]. Qed.
Next Obligation. by intros V c (Hc & Hnd & Hl). Qed.
Next Obligation. done. Qed.
Next Obligation. intros V k c. cbn. by destruct (al_find k (al_items c)). Qed.
Next Obligation. done. Qed.
Next Obligation. done. Qed.
Next Obligation. done. Qed.
Next Obligation. done. Qed.
Next Obligation. done. Qed.
Next Obligation. done. Qed.
Next Obligation. intros V k c. cbn. by destruct (al_find k (al_items c)). Qed.
Next Obligation.
  intros V k k' c. cbn. destruct (al_find k (al_items c)) eqn:E; [|done]. cbn.
  rewrite al_find_remove. repeat case_decide; subst; done.
Qed.
Next Obligation. intros V k k' v c. apply al_find_set. Qed.
Next Obligation.
  intros V k v c (Hc & _ & _). cbn. destruct (al_cap c); [lia|]. cbn. by rewrite decide_True.
Qed.
Next Obligation.
  intros V k k' v c (Hc & _ & _) Hne. cbn. destruct (al_cap c) as [|n]; [lia|]. cbn.
  rewrite decide_False by done. pose proof (al_find_remove k k' (al_items c)) as E.
  rewrite decide_False in E by done. rewrite <-E. apply al_find_take.
Qed.
Next Obligation.
  intros V k k' v c (Hc & _ & _) Hne Hroom. cbn in *. destruct (al_cap c) as [|n]; [lia|]. cbn.
  rewrite decide_False by done. pose proof (al_remove_length k (al_items c)).
  rewrite take_ge by lia. rewrite al_find_remove. by rewrite decide_False.
Qed.
Next Obligation. intros V k k' c. apply al_find_remove. Qed.
Next Obligation. intros V k v c (_ & Hnd & _). by apply al_find_elem. Qed.
End alru.
