(* ===== verification/Cache.v ===== *)
(** * The record cache (src/resolver/cache.rs)

    [DnsCache] with its fresh and its stale store, over any LRU map
    ([Lru.LruOps]).  Instants are nanoseconds ([Z]).  Every call of
    [Instant::now()] may read another time: an operation gets the sequence
    [clk] of the readings it makes, in the order in which it makes them. *)

From S2P Require Import Prelude Types Lru.
#[local] Open Scope Z_scope.

(** ** Constants *)

Definition SEC : Z := 1000000000.
Definition MAX_CACHE_ENTRIES : nat := Z.to_nat 100000.
Definition STALE_MAX_AGE : Z := 6 * 3600 * SEC.
Definition STALE_MAX_ENTRIES : nat := Z.to_nat 50000.
Definition MAX_RECORDS_PER_KEY : nat := 16.

(** ** Data *)

(** (encoded name, type, class) *)
Abbreviation cache_key := (bytes * Z * Z)%type.

Record CacheEntry := mkEntry { ce_record : ResourceRecord; ce_expires_at : Z }.

Definition is_expired (now : Z) (self : CacheEntry) : bool :=
  bool_decide (ce_expires_at self <= now).

Definition ttl_remaining (now : Z) (self : CacheEntry) : Z :=
  u32 (Z.max 0 (ce_expires_at self - now) / SEC).

(** [Instant::duration_since], which saturates at zero. *)
Definition duration_since (now earlier : Z) : Z := Z.max 0 (now - earlier).

(** [rec.ttl = ttl] *)
Definition with_ttl (ttl : Z) (rec : ResourceRecord) : ResourceRecord :=
  mkRR (rr_name rec) (rr_rtype rec) (rr_rclass rec) ttl (rr_rdlength rec) (rr_rdata rec)
    (rr_parsed rec).

Record DnsCache (C : Type → Type) := mkCache {
  c_entries : C (list CacheEntry);
  c_stale : C (list CacheEntry);
  c_max_entries : nat;
  c_hits : Z;
  c_misses : Z;
}.
Arguments mkCache {C}.
Arguments c_entries {C}.
Arguments c_stale {C}.
Arguments c_max_entries {C}.
Arguments c_hits {C}.
Arguments c_misses {C}.

(** ** Operations *)

Section operations.
Context {C : Type → Type} `{LruOps cache_key C}.

Definition cache_new : DnsCache C :=
  mkCache (lru_new MAX_CACHE_ENTRIES) (lru_new STALE_MAX_ENTRIES) MAX_CACHE_ENTRIES 0 0.

Definition with_max_entries (max : nat) : DnsCache C :=
  mkCache (lru_new (Nat.max max 1)) (lru_new (Nat.min (Nat.max (max / 5) (Z.to_nat 1000)) STALE_MAX_ENTRIES))
    max 0 0.

Definition insert (self : DnsCache C) (clk : nat → Z) (name : bytes) (rtype rclass ttl : Z)
    (rdata : bytes) (rdlength : Z) : DnsCache C :=
  if decide (ttl = 0) then self else
  let ttl := Z.min ttl 86400 in
  let expires_at := clk 0%nat + ttl * SEC in
  let record := mkRR name rtype rclass ttl rdlength rdata None in
  let key := (name, rtype, rclass) in
  let entry := mkEntry record expires_at in
  match lru_get key (c_entries self) with
  | (Some vec, entries) =>
    if existsb (λ e, bool_decide (rr_rdata (ce_record e) = rr_rdata (ce_record entry))) vec then
      mkCache entries (c_stale self) (c_max_entries self) (c_hits self) (c_misses self)
    else
      let vec := if decide (MAX_RECORDS_PER_KEY <= length vec)%nat then drop 1 vec else vec in
      mkCache (lru_modify key (vec ++ [entry]) entries) (c_stale self) (c_max_entries self)
        (c_hits self) (c_misses self)
  | (None, entries) =>
    mkCache (lru_put key [entry] entries) (c_stale self) (c_max_entries self)
      (c_hits self) (c_misses self)
  end.

(** The [for e in entries.drain(..)] loop: (fresh, stale). *)
Fixpoint split_expired (clk : nat → Z) (i : nat) (entries : list CacheEntry)
    : list CacheEntry * list CacheEntry :=
  match entries with
  | [] => ([], [])
  | e :: entries =>
    let '(fresh, stale) := split_expired clk (S i) entries in
    if is_expired (clk i) e then (fresh, e :: stale) else (e :: fresh, stale)
  end.

(** The [map] over the fresh entries, with the minimum it accumulates. *)
Fixpoint fresh_records (clk : nat → Z) (i : nat) (entries : list CacheEntry) (min_ttl : Z)
    : list ResourceRecord * Z :=
  match entries with
  | [] => ([], min_ttl)
  | e :: entries =>
    let ttl_rem := ttl_remaining (clk i) e in
    let min_ttl := Z.min min_ttl ttl_rem in
    let '(recs, min_ttl) := fresh_records clk (S i) entries min_ttl in
    (with_ttl ttl_rem (ce_record e) :: recs, min_ttl)
  end.

Definition u64 (x : Z) : Z := x mod 2 ^ 64.

Definition lookup_cache (self : DnsCache C) (clk : nat → Z) (name : bytes) (rtype rclass : Z)
    : option (list ResourceRecord * Z) * DnsCache C :=
  let key := (name, rtype, rclass) in
  match lru_get key (c_entries self) with
  | (Some es, entries) =>
    let '(fresh, stale) := split_expired clk 0 es in
    let stale_entries :=
      if decide (stale = []) then c_stale self else lru_put key stale (c_stale self) in
    if decide (fresh = []) then
      (None, mkCache (lru_pop key entries) stale_entries (c_max_entries self)
               (c_hits self) (u64 (c_misses self + 1)))
    else
      let entries := lru_modify key fresh entries in
      let r := fresh_records clk (length es) fresh (2 ^ 32 - 1) in
      (Some r, mkCache entries stale_entries (c_max_entries self)
                 (u64 (c_hits self + 1)) (c_misses self))
  | (None, entries) =>
    (None, mkCache entries (c_stale self) (c_max_entries self)
             (c_hits self) (u64 (c_misses self + 1)))
  end.

Definition lookup_stale (self : DnsCache C) (clk : nat → Z) (name : bytes) (rtype rclass : Z)
    : option (list ResourceRecord) * DnsCache C :=
  let key := (name, rtype, rclass) in
  match lru_get key (c_stale self) with
  | (Some es, stale) =>
    let now := clk 0%nat in
    let usable := filter (λ e, duration_since now (ce_expires_at e) < STALE_MAX_AGE) es in
    if decide (usable = []) then
      (None, mkCache (c_entries self) (lru_pop key stale) (c_max_entries self)
               (c_hits self) (c_misses self))
    else
      (Some (map (λ e, with_ttl 0 (ce_record e)) usable),
       mkCache (c_entries self) stale (c_max_entries self) (c_hits self) (c_misses self))
  | (None, stale) =>
    (None, mkCache (c_entries self) stale (c_max_entries self) (c_hits self) (c_misses self))
  end.

Fixpoint insert_records (self : DnsCache C) (clk : nat → Z) (records : list ResourceRecord)
    : DnsCache C :=
  match records with
  | [] => self
  | rec :: records =>
    insert_records
      (insert self clk (rr_name rec) (rr_rtype rec) (rr_rclass rec) (rr_ttl rec)
         (rr_rdata rec) (rr_rdlength rec))
      (λ i, clk (if decide (rr_ttl rec = 0) then i else S i)) records
  end.

Definition purge_expired (self : DnsCache C) (clk : nat → Z) : DnsCache C :=
  let now := clk 0%nat in
  let too_old :=
    map fst (filter (λ p : cache_key * list CacheEntry,
      Forall (λ e, STALE_MAX_AGE <= duration_since now (ce_expires_at e)) p.2)
      (lru_iter (c_stale self))) in
  mkCache (c_entries self) (lru_pop_all too_old (c_stale self)) (c_max_entries self)
    (c_hits self) (c_misses self).

Definition clear (self : DnsCache C) : DnsCache C :=
  mkCache (lru_clear (c_entries self)) (lru_clear (c_stale self)) (c_max_entries self) 0 0.

Definition cache_len (self : DnsCache C) : nat := lru_len (c_entries self).
Definition is_empty (self : DnsCache C) : bool :=
  bool_decide (lru_len (c_entries self) = 0%nat) && bool_decide (lru_len (c_stale self) = 0%nat).
Definition stale_len (self : DnsCache C) : nat := lru_len (c_stale self).
Definition hits (self : DnsCache C) : Z := c_hits self.
Definition misses (self : DnsCache C) : Z := c_misses self.
End operations.

(** ** Specification *)

(** What the fresh store may hold under a key at time [T]. *)
Definition entry_ok (key : cache_key) (T : Z) (e : CacheEntry) : Prop :=
  (rr_name (ce_record e), rr_rtype (ce_record e), rr_rclass (ce_record e)) = key ∧
  rr_parsed (ce_record e) = None ∧ 1 <= rr_ttl (ce_record e) <= 86400 ∧
  ce_expires_at e <= T + 86400 * SEC.

Definition entry_rdata (e : CacheEntry) : bytes := rr_rdata (ce_record e).

Definition entries_ok (key : cache_key) (T : Z) (es : list CacheEntry) : Prop :=
  es ≠ [] ∧ (length es <= MAX_RECORDS_PER_KEY)%nat ∧ NoDup (entry_rdata <$> es) ∧
  Forall (entry_ok key T) es.

(** A clock whose readings do not go back. *)
Definition monotone (clk : nat → Z) : Prop := ∀ i j, (i <= j)%nat → clk i <= clk j.
Definition clock_between (T T' : Z) (clk : nat → Z) : Prop := ∀ i, T <= clk i <= T'.

(** ** Lemmas on the loops *)

Lemma entry_ok_mono key T T' e : T ≤ T' → entry_ok key T e → entry_ok key T' e.
Proof. unfold entry_ok, SEC. intros ? (? & ? & ? & ?). split_and!; try done; lia. Qed.

Lemma entries_ok_sublist key T es fs :
  fs `sublist_of` es → fs ≠ [] → entries_ok key T es → entries_ok key T fs.
Proof.
  intros Hs Hne (_ & Hl & Hnd & Hall). split_and!; [done| | |].
  - apply sublist_length in Hs. lia.
  - eapply sublist_NoDup; [done|]. by apply fmap_sublist.
  - apply Forall_forall. intros e He. rewrite Forall_forall in Hall. apply Hall.
    by eapply elem_of_sublist.
Qed.

Lemma entries_ok_mono key T T' es : T ≤ T' → entries_ok key T es → entries_ok key T' es.
Proof.
  intros HT (? & ? & ? & Hall). split_and!; try done.
  eapply Forall_impl; [exact Hall|]. intros e. by apply entry_ok_mono.
Qed.

Lemma split_expired_spec clk i es fresh stale :
  split_expired clk i es = (fresh, stale) →
  fresh `sublist_of` es ∧ stale `sublist_of` es ∧
  (∀ e, e ∈ es → e ∈ fresh ∨ e ∈ stale) ∧
  (∀ e, e ∈ fresh → ∃ j, es !! j = Some e ∧ clk (i + j)%nat < ce_expires_at e) ∧
  (∀ e, e ∈ stale → ∃ j, es !! j = Some e ∧ ce_expires_at e ≤ clk (i + j)%nat).
Proof.
  revert i fresh stale. induction es as [|e es IH]; intros i fresh stale; cbn [split_expired].
  { intros [= <- <-]. split_and!; [apply sublist_nil_l|apply sublist_nil_l|..];
      intros e He; by apply not_elem_of_nil in He. }
  destruct (split_expired clk (S i) es) as [fr st] eqn:E. apply IH in E as (Hf & Hs & Hor & Hff & Hss).
  assert (Hshift : ∀ e' (P : Z → Prop), (∃ j, es !! j = Some e' ∧ P (clk (S i + j)%nat)) →
                   ∃ j, (e :: es) !! j = Some e' ∧ P (clk (i + j)%nat)).
  { intros e' P (j & Hj & HP). exists (S j). split; [done|]. by rewrite <-Nat.add_succ_comm. }
  unfold is_expired. case_bool_decide as Hexp; intros [= <- <-].
  - split_and!; [by apply sublist_cons|by apply sublist_skip| | |].
    { intros e' [->|He']%elem_of_cons; rewrite !elem_of_cons; [by auto|].
      destruct (Hor e' He'); auto. }
    + intros e' He'. by apply (Hshift e' (λ t, t < _)), Hff.
    + intros e' [->|He']%elem_of_cons; [exists 0%nat; by rewrite Nat.add_0_r|].
      by apply (Hshift e' (λ t, _ ≤ t)), Hss.
  - split_and!; [by apply sublist_skip|by apply sublist_cons| | |].
    { intros e' [->|He']%elem_of_cons; rewrite !elem_of_cons; [by auto|].
      destruct (Hor e' He'); auto. }
    + intros e' [->|He']%elem_of_cons; [exists 0%nat; rewrite Nat.add_0_r; split; [done|lia]|].
      by apply (Hshift e' (λ t, t < _)), Hff.
    + intros e' He'. by apply (Hshift e' (λ t, _ ≤ t)), Hss.
Qed.

(** On a clock that stands still, the split is a pair of filters. *)
Lemma split_expired_const now i es :
  split_expired (λ _, now) i es =
  (filter (λ e, now < ce_expires_at e) es, filter (λ e, ce_expires_at e <= now) es).
Proof.
  revert i. induction es as [|e es IH]; intros i; cbn [split_expired]; [done|]. rewrite IH.
  unfold is_expired. case_bool_decide.
  - rewrite filter_cons_False, filter_cons_True by lia. done.
  - rewrite filter_cons_True, filter_cons_False by lia. done.
Qed.

(** The entries with the numbers of the readings of the clock at which they are looked at. *)
Definition dated (i : nat) (es : list CacheEntry) : list (nat * CacheEntry) := zip (seq i (length es)) es.

(** The entries that are still good when they are looked at, and those that are not. *)
Definition live (clk : nat → Z) (es : list CacheEntry) : list CacheEntry :=
  (filter (λ p, clk p.1 < ce_expires_at p.2) (dated 0 es)).*2.
Definition dead (clk : nat → Z) (es : list CacheEntry) : list CacheEntry :=
  (filter (λ p, ce_expires_at p.2 <= clk p.1) (dated 0 es)).*2.

Lemma split_expired_dated clk i es :
  split_expired clk i es =
  ((filter (λ p, clk p.1 < ce_expires_at p.2) (dated i es)).*2,
   (filter (λ p, ce_expires_at p.2 <= clk p.1) (dated i es)).*2).
Proof.
  unfold dated. revert i. induction es as [|e es IH]; intros i; [done|].
  cbn [split_expired length seq zip_with]. rewrite IH. unfold is_expired. case_bool_decide.
  - by rewrite filter_cons_False, filter_cons_True by (cbn; lia).
  - by rewrite filter_cons_True, filter_cons_False by (cbn; lia).
Qed.

Lemma fresh_records_dated clk i es m :
  (fresh_records clk i es m).1 = (λ p, with_ttl (ttl_remaining (clk p.1) p.2) (ce_record p.2)) <$> dated i es.
Proof.
  unfold dated. revert i m. induction es as [|e es IH]; intros i m; [done|].
  cbn [fresh_records length seq zip_with fmap list_fmap]. rewrite <-(IH (S i) (Z.min m (ttl_remaining (clk i) e))).
  by destruct (fresh_records _ _ _ _).
Qed.

Lemma dated_in i es p : p ∈ dated i es → (i ≤ p.1)%nat ∧ p.2 ∈ es.
Proof.
  destruct p as [j e]. intros Hin. split.
  - apply elem_of_zip_l, elem_of_seq in Hin. cbn. lia.
  - by apply elem_of_zip_r in Hin.
Qed.

Lemma fresh_records_spec clk i es m recs ttl :
  fresh_records clk i es m = (recs, ttl) →
  Forall2 (λ e r, ∃ j, (i ≤ j)%nat ∧ r = with_ttl (ttl_remaining (clk j) e) (ce_record e)) es recs ∧
  Forall (λ r, ttl ≤ rr_ttl r) recs ∧ ttl ≤ m ∧
  (ttl = m ∨ ∃ r, r ∈ recs ∧ rr_ttl r = ttl).
Proof.
  revert i m recs ttl. induction es as [|e es IH]; intros i m recs ttl; cbn [fresh_records].
  { intros [= <- <-]. repeat constructor; lia. }
  destruct (fresh_records clk (S i) es _) as [rs t] eqn:E. apply IH in E as (H2 & Hall & Hm & Hmin).
  intros [= <- <-]. split_and!.
  - constructor; [by exists i|]. eapply Forall2_impl; [exact H2|].
    intros e' r (j & Hj & ->). exists j. split; [lia|done].
  - constructor; [simpl; lia|done].
  - lia.
  - destruct Hmin as [->|(r & Hr & <-)]; [|right; exists r; split; [by right|done]].
    destruct (Z.min_spec m (ttl_remaining (clk i) e)) as [[_ ->]|[_ ->]]; [by left|].
    right. eexists. split; [left|done].
Qed.

Lemma ttl_remaining_bounds now e :
  ce_expires_at e - now < 2 ^ 32 * SEC →
  0 ≤ ttl_remaining now e ∧ ttl_remaining now e * SEC ≤ Z.max 0 (ce_expires_at e - now) ∧
  Z.max 0 (ce_expires_at e - now) < (ttl_remaining now e + 1) * SEC.
Proof.
  unfold ttl_remaining, SEC. intros Hb. rewrite u32_id.
  - Z.div_mod_to_equations. lia.
  - unfold is_u32. Z.div_mod_to_equations. lia.
Qed.

Lemma entry_matches_ttl key T e ttl : entry_ok key T e →
  (rr_name (with_ttl ttl (ce_record e)), rr_rtype (with_ttl ttl (ce_record e)),
   rr_rclass (with_ttl ttl (ce_record e))) = key.
Proof. by intros (? & _). Qed.

Lemma live_in clk es e : e ∈ live clk es → e ∈ es.
Proof. intros (p & -> & [_ Hin]%list_elem_of_filter)%list_elem_of_fmap. by apply dated_in in Hin as [_ ?]. Qed.

Lemma live_nil clk es : live clk es = [] → Forall (λ p, ce_expires_at p.2 ≤ clk p.1) (dated 0 es).
Proof.
  intros Hl%fmap_nil_inv. apply Forall_forall. intros p Hp. destruct (decide (clk p.1 < ce_expires_at p.2)); [|lia].
  assert (p ∈ filter (λ p, clk p.1 < ce_expires_at p.2) (dated 0 es)) as Hin by by apply list_elem_of_filter.
  rewrite Hl in Hin. by apply not_elem_of_nil in Hin.
Qed.
Lemma live_nil_dead clk es : live clk es = [] → dead clk es = es.
Proof.
  intros Hl%live_nil. unfold dead. rewrite filter_all by done. unfold dated. apply snd_zip. by rewrite length_seq.
Qed.

(** The records of an answer, with the seconds they have left. *)
Lemma records_left name rtype rclass clk T (ps : list (nat * CacheEntry)) :
  (∀ p, p ∈ ps → entry_ok (name, rtype, rclass) T p.2 ∧ ce_expires_at p.2 - clk p.1 ≤ 86400 * SEC) →
  (λ p, with_ttl (ttl_remaining (clk p.1) p.2) (ce_record p.2)) <$> ps =
  (λ p, mkRR name rtype rclass (Z.max 0 (ce_expires_at p.2 - clk p.1) / SEC)
     (rr_rdlength (ce_record p.2)) (rr_rdata (ce_record p.2)) None) <$> ps.
Proof.
  intros Hp. apply list_fmap_ext. intros i p Hi. destruct (Hp p) as [(Hk & Hu & _) Hb]; [by eapply list_elem_of_lookup_2|].
  unfold with_ttl, ttl_remaining. injection Hk as -> -> ->. rewrite Hu. f_equal. apply u32_id.
  unfold is_u32, SEC in *. Z.div_mod_to_equations. lia.
Qed.

(** ** Invariant and reachable caches *)

Section invariant.
Context {C : Type → Type} `{LruLaws cache_key C}.

Record cache_ok (T : Z) (c : DnsCache C) : Prop := {
  cache_ok_entries : lru_ok (c_entries c);
  cache_ok_stale : lru_ok (c_stale c);
  cache_ok_fresh_at : ∀ key es, lru_peek key (c_entries c) = Some es → entries_ok key T es;
  cache_ok_stale_at : ∀ key es, lru_peek key (c_stale c) = Some es →
    entries_ok key T es ∧ Forall (λ e, ce_expires_at e <= T) es;
}.

(** One operation of the cache, begun at [T] and over at [T']. *)
Inductive cache_step (T T' : Z) (c : DnsCache C) : DnsCache C → Prop :=
  | step_insert clk name rtype rclass ttl rdata rdlength :
    clock_between T T' clk → is_u32 ttl →
    cache_step T T' c (insert c clk name rtype rclass ttl rdata rdlength)
  | step_lookup clk name rtype rclass :
    clock_between T T' clk → cache_step T T' c (lookup_cache c clk name rtype rclass).2
  | step_lookup_stale clk name rtype rclass :
    clock_between T T' clk → cache_step T T' c (lookup_stale c clk name rtype rclass).2
  | step_insert_records clk records :
    clock_between T T' clk → Forall (λ r, is_u32 (rr_ttl r)) records →
    cache_step T T' c (insert_records c clk records)
  | step_purge clk : clock_between T T' clk → cache_step T T' c (purge_expired c clk)
  | step_clear : cache_step T T' c (clear c).

Inductive cache_reachable : Z → DnsCache C → Prop :=
  | reach_new T : cache_reachable T cache_new
  | reach_with_max T max : cache_reachable T (with_max_entries max)
  | reach_step T T' c c' :
    cache_reachable T c → T <= T' → cache_step T T' c c' → cache_reachable T' c'.

Lemma cache_ok_mono T T' c : T ≤ T' → cache_ok T c → cache_ok T' c.
Proof.
  intros HT [He Hs Hf Hst]. split; [done|done| |].
  - intros key es Hes. eapply entries_ok_mono; eauto.
  - intros key es Hes. destruct (Hst key es Hes) as [? Hall]. split.
    + by eapply entries_ok_mono.
    + eapply Forall_impl; [exact Hall|]. intros; simpl in *; lia.
Qed.

Lemma cache_ok_new T n m mx h ms :
  (0 < n)%nat → (0 < m)%nat → cache_ok T (mkCache (C:=C) (lru_new n) (lru_new m) mx h ms).
Proof.
  intros. split; cbn; auto using lru_new_ok; intros key es; by rewrite lru_peek_new.
Qed.

(** The list that [insert] stores under a key. *)
Lemma entries_ok_push key T es e :
  entries_ok key T es → entry_ok key T e → (entry_rdata e ∉ entry_rdata <$> es) →
  entries_ok key T
    ((if decide (MAX_RECORDS_PER_KEY <= length es)%nat then drop 1 es else es) ++ [e]).
Proof.
  intros (Hne & Hl & Hnd & Hall) He Hni. unfold MAX_RECORDS_PER_KEY in *.
  split_and!.
  - intros [_ Habs]%app_nil. done.
  - rewrite length_app. cbn [length].
    case_decide; rewrite ?length_drop; unfold MAX_RECORDS_PER_KEY; lia.
  - rewrite fmap_app. apply NoDup_app. split_and!; [|intros x Hx Hin|apply NoDup_singleton].
    + case_decide; [|done]. eapply sublist_NoDup; [done|]. apply fmap_sublist, sublist_drop.
    + apply list_elem_of_singleton in Hin as ->. apply Hni. case_decide; [|done].
      eapply elem_of_sublist; [done|]. apply fmap_sublist, sublist_drop.
  - apply Forall_app. split; [|by apply Forall_singleton]. case_decide; [|done].
    by apply Forall_drop.
Qed.

Lemma existsb_rdata rd es :
  existsb (λ e, bool_decide (rr_rdata (ce_record e) = rd)) es = true ↔ rd ∈ entry_rdata <$> es.
Proof.
  rewrite existsb_exists, list_elem_of_fmap. split.
  - intros (e & Hin & Heq%bool_decide_eq_true). exists e. split; [done|].
    by apply list_elem_of_In.
  - intros (e & -> & Hin%list_elem_of_In). exists e. split; [done|]. by apply bool_decide_eq_true.
Qed.

Lemma insert_ok T c clk name rtype rclass ttl rdata rdlength :
  (∀ i, clk i ≤ T) → is_u32 ttl → cache_ok T c →
  cache_ok T (insert c clk name rtype rclass ttl rdata rdlength).
Proof.
  intros Hclk Httl Hok. unfold insert. case_decide as Hz; [done|].
  destruct Hok as [He Hs Hf Hst]. set (key := (name, rtype, rclass)).
  set (e := mkEntry _ _). pose proof (Hclk 0%nat) as Hc0.
  assert (Hentry : entry_ok key T e).
  { unfold entry_ok, key, e, SEC. cbn. unfold is_u32 in Httl. split_and!; try done; lia. }
  destruct (lru_get_spec key (c_entries c) He) as (en & -> & Hen & _ & Hpeek).
  destruct (lru_peek key (c_entries c)) as [es|] eqn:E.
  - destruct (existsb _ es) eqn:Hdup.
    + split; cbn; [done|done| |done]. intros k fs. rewrite Hpeek. apply Hf.
    + split; cbn; [by apply lru_modify_ok|done| |done]. intros k fs Hfs.
      apply lru_modify_inv in Hfs as [[-> ->]|[Hne Hfs]]; [|rewrite Hpeek in Hfs; by apply Hf].
      apply entries_ok_push; [by apply Hf|done|].
      intros Hin%existsb_rdata. unfold entry_rdata in Hin. cbn in Hin, Hdup. by rewrite Hdup in Hin.
  - split; cbn; [by apply lru_put_ok|done| |done]. intros k fs Hfs.
    apply lru_put_inv in Hfs as [[-> ->]|[Hne Hfs]]; [| |done].
    + split_and!; [done|simpl; unfold MAX_RECORDS_PER_KEY; lia|apply NoDup_singleton|].
      by apply Forall_singleton.
    + apply Hf. by rewrite <-Hpeek.
Qed.

Lemma insert_records_ok T c clk records :
  (∀ i, clk i ≤ T) → Forall (λ r, is_u32 (rr_ttl r)) records → cache_ok T c →
  cache_ok T (insert_records c clk records).
Proof.
  intros Hclk Hr. revert c clk Hclk. induction Hr as [|r records Hr Hrs IH]; intros c clk Hclk Hok;
    [done|]. cbn [insert_records]. apply IH; [|by apply insert_ok]. intros i. apply Hclk.
Qed.

Lemma lookup_cache_ok T c clk name rtype rclass :
  (∀ i, clk i ≤ T) → cache_ok T c → cache_ok T (lookup_cache c clk name rtype rclass).2.
Proof.
  intros Hclk [He Hs Hf Hst]. unfold lookup_cache. set (key := (name, rtype, rclass)).
  destruct (lru_get_spec key (c_entries c) He) as (en & -> & Hen & _ & Hpeek).
  assert (Hf' : ∀ k es, lru_peek k en = Some es → entries_ok k T es)
    by (intros k es; rewrite Hpeek; apply Hf).
  destruct (lru_peek key (c_entries c)) as [es|] eqn:E; [|by split].
  specialize (Hf key es E).
  destruct (split_expired clk 0 es) as [fresh stale] eqn:Hsplit.
  apply split_expired_spec in Hsplit as (Hfr & Hsl & _ & _ & Hexp).
  set (st := if decide (stale = []) then _ else _).
  assert (Hstale : lru_ok st ∧ ∀ k fs, lru_peek k st = Some fs →
            entries_ok k T fs ∧ Forall (λ e, ce_expires_at e ≤ T) fs).
  { subst st. case_decide; [done|]. split; [by apply lru_put_ok|]. intros k fs Hfs.
    apply lru_put_inv in Hfs as [[-> ->]|[_ Hfs]]; [|by apply Hst|done].
    split; [by eapply entries_ok_sublist|]. apply Forall_forall. intros e (j & _ & Hj)%Hexp.
    pose proof (Hclk (0 + j)%nat). lia. }
  destruct Hstale as [Hst1 Hst2]. case_decide; split; cbn; try done.
  - by apply lru_pop_ok.
  - intros k fs [_ Hfs]%lru_pop_inv. by apply Hf'.
  - by apply lru_modify_ok.
  - intros k fs [[-> ->]|[_ Hfs]]%lru_modify_inv; [|by apply Hf']. by eapply entries_ok_sublist.
Qed.

(** Records come out of the cache unparsed. *)
Lemma lookup_cache_unparsed T c clk name rtype rclass recs ttl :
  cache_ok T c → (lookup_cache c clk name rtype rclass).1 = Some (recs, ttl) →
  Forall (λ r, rr_parsed r = None) recs.
Proof.
  intros [He _ Hf _]. unfold lookup_cache. set (key := (name, rtype, rclass)).
  destruct (lru_get_spec key (c_entries c) He) as (en & -> & _).
  destruct (lru_peek key (c_entries c)) as [es|] eqn:E; [|done].
  destruct (Hf key es E) as (_ & _ & _ & Hall). rewrite Forall_forall in Hall.
  destruct (split_expired clk 0 es) as [fresh stale] eqn:Hsp.
  apply split_expired_spec in Hsp as (Hfr & _). case_decide; [done|]. cbn [fst].
  destruct (fresh_records _ _ _ _) as [rs m] eqn:Hrec. intros [= -> ->].
  apply fresh_records_spec in Hrec as (H2 & _). apply Forall_forall.
  intros r (e & Hin & j & _ & ->)%(Forall2_in_r _ _ _ _ H2). simpl.
  apply (Hall e). by eapply elem_of_sublist.
Qed.

Lemma lookup_stale_ok T c clk name rtype rclass :
  cache_ok T c → cache_ok T (lookup_stale c clk name rtype rclass).2.
Proof.
  intros [He Hs Hf Hst]. unfold lookup_stale. set (key := (name, rtype, rclass)).
  destruct (lru_get_spec key (c_stale c) Hs) as (en & -> & Hen & _ & Hpeek).
  destruct (lru_peek key (c_stale c)) as [es|]; [|split; cbn; try done; intros ??; rewrite Hpeek; auto].
  case_decide; split; cbn; try done.
  - by apply lru_pop_ok.
  - intros k fs [_ Hfs]%lru_pop_inv. rewrite Hpeek in Hfs. by apply Hst.
  - intros ??; rewrite Hpeek; auto.
Qed.

Lemma purge_expired_ok T c clk : cache_ok T c → cache_ok T (purge_expired c clk).
Proof.
  intros [He Hs Hf Hst]. unfold purge_expired. split; cbn; try done.
  - by apply lru_pop_all_ok.
  - intros k fs. rewrite lru_pop_all_peek. case_decide; [done|]. apply Hst.
Qed.

Lemma clear_ok T c : cache_ok T c → cache_ok T (clear c).
Proof.
  intros [He Hs Hf Hst]. split; cbn; try by apply lru_clear_ok.
  - intros k es. by rewrite lru_peek_clear.
  - intros k es. by rewrite lru_peek_clear.
Qed.

Lemma cache_step_ok T T' c c' : T ≤ T' → cache_step T T' c c' → cache_ok T c → cache_ok T' c'.
Proof.
  intros HT Hstep Hok%(cache_ok_mono T T'); [|done].
  assert (Hle : ∀ clk, clock_between T T' clk → ∀ i, clk i ≤ T') by (intros clk Hc i; apply Hc).
  destruct Hstep; eauto using insert_ok, insert_records_ok, lookup_cache_ok, lookup_stale_ok,
    purge_expired_ok, clear_ok.
Qed.

Lemma cache_reachable_ok T c : cache_reachable T c → cache_ok T c.
Proof.
  induction 1; [..|by eapply cache_step_ok].
  - apply cache_ok_new; unfold MAX_CACHE_ENTRIES, STALE_MAX_ENTRIES; lia.
  - apply cache_ok_new; unfold STALE_MAX_ENTRIES; lia.
Qed.

(** The capacities never change. *)
Lemma insert_cap c clk name rtype rclass ttl rdata rdlength :
  lru_cap (c_entries (insert c clk name rtype rclass ttl rdata rdlength)) = lru_cap (c_entries c) ∧
  lru_cap (c_stale (insert c clk name rtype rclass ttl rdata rdlength)) = lru_cap (c_stale c).
Proof.
  unfold insert. case_decide; [done|].
  pose proof (lru_cap_get (name, rtype, rclass) (c_entries c)) as Hg.
  destruct (lru_get _ _) as [[es|] en]; cbn in Hg; [destruct (existsb _ _)|]; cbn;
    rewrite ?lru_cap_modify, ?lru_cap_put; done.
Qed.

Lemma cache_step_cap T T' c c' :
  cache_step T T' c c' →
  lru_cap (c_entries c') = lru_cap (c_entries c) ∧ lru_cap (c_stale c') = lru_cap (c_stale c).
Proof.
  intros [clk n t r ttl rd rl _ _|clk n t r _|clk n t r _|clk rs _ _|clk _|].
  - apply insert_cap.
  - unfold lookup_cache. pose proof (lru_cap_get (n, t, r) (c_entries c)) as Hg.
    destruct (lru_get _ _) as [[es|] en]; cbn in Hg; [destruct (split_expired _ _ _)|done].
    repeat case_decide; cbn; rewrite ?lru_cap_pop, ?lru_cap_modify, ?lru_cap_put; done.
  - unfold lookup_stale. pose proof (lru_cap_get (n, t, r) (c_stale c)) as Hg.
    destruct (lru_get _ _) as [[es|] en]; cbn in Hg; [case_decide|]; cbn;
      rewrite ?lru_cap_pop; done.
  - revert c clk. induction rs as [|rec rs IH]; intros c clk; [done|]. cbn [insert_records].
    destruct (IH (insert c clk (rr_name rec) (rr_rtype rec) (rr_rclass rec) (rr_ttl rec)
      (rr_rdata rec) (rr_rdlength rec)) (λ i, clk (if decide (rr_ttl rec = 0) then i else S i)))
      as [-> ->].
    apply insert_cap.
  - unfold purge_expired. cbn. by rewrite lru_pop_all_cap.
  - cbn. by rewrite !lru_cap_clear.
Qed.

(** ** Lookups *)

Lemma split_expired_all clk i es stale : split_expired clk i es = ([], stale) → stale = es.
Proof.
  revert i stale. induction es as [|e es IH]; intros i stale; cbn [split_expired]; [by intros [= <-]|].
  destruct (split_expired clk (S i) es) as [fr st] eqn:E. case_match; [|done].
  intros [= -> <-]. f_equal. by eapply IH.
Qed.

Lemma fresh_record_ttl key T clk e j :
  monotone clk → T ≤ clk 0%nat → entry_ok key T e → clk 0%nat < ce_expires_at e →
  0 ≤ ttl_remaining (clk j) e ≤ 86400 ∧
  ttl_remaining (clk j) e * SEC ≤ ce_expires_at e - clk 0%nat.
Proof.
  intros Hm HT (_ & _ & _ & Hexp) Hlt. pose proof (Hm 0%nat j (Nat.le_0_l j)) as Hj.
  pose proof (ttl_remaining_bounds (clk j) e) as Hb. unfold SEC in *. lia.
Qed.

(** A lookup on a clock that stands still. *)
Lemma lookup_cache_const c now name rtype rclass :
  lru_ok (c_entries c) →
  (lookup_cache c (λ _, now) name rtype rclass).1 =
  match lru_peek (name, rtype, rclass) (c_entries c) with
  | None => None
  | Some es =>
    let fresh := filter (λ e, now < ce_expires_at e) es in
    if decide (fresh = []) then None
    else Some (fresh_records (λ _, now) (length es) fresh (2 ^ 32 - 1))
  end.
Proof.
  intros Hok. unfold lookup_cache.
  destruct (lru_get_spec (name, rtype, rclass) (c_entries c) Hok) as (en & -> & _).
  destruct (lru_peek _ _) as [es|]; [|done]. rewrite split_expired_const. by case_decide.
Qed.

Lemma fresh_records_const now i es m :
  (fresh_records (λ _, now) i es m).1 = map (λ e, with_ttl (ttl_remaining now e) (ce_record e)) es.
Proof.
  revert i m. induction es as [|e es IH]; intros i m; [done|]. cbn [fresh_records map].
  rewrite <-(IH (S i) (Z.min m (ttl_remaining now e))). by destruct (fresh_records _ _ _ _).
Qed.

Lemma insert_lru_ok c clk name rtype rclass ttl rdata rdlength :
  lru_ok (c_entries c) → lru_ok (c_entries (insert c clk name rtype rclass ttl rdata rdlength)).
Proof.
  intros He. unfold insert. case_decide; [done|].
  destruct (lru_get_spec (name, rtype, rclass) (c_entries c) He) as (en & -> & Hen & _).
  destruct (lru_peek _ _); [destruct (existsb _ _)|]; cbn; auto using lru_modify_ok, lru_put_ok.
Qed.

(** What a lookup finds after an insertion. *)
Lemma insert_peek c clk name rtype rclass ttl rdata rdlength :
  lru_ok (c_entries c) → ttl ≠ 0 →
  let key := (name, rtype, rclass) in
  let e := mkEntry (mkRR name rtype rclass (Z.min ttl 86400) rdlength rdata None)
             (clk 0%nat + Z.min ttl 86400 * SEC) in
  let c' := insert c clk name rtype rclass ttl rdata rdlength in
  (∀ es, lru_peek key (c_entries c) = Some es → rdata ∈ entry_rdata <$> es →
     ∀ k, lru_peek k (c_entries c') = lru_peek k (c_entries c)) ∧
  ((∀ es, lru_peek key (c_entries c) = Some es → rdata ∉ entry_rdata <$> es) →
     ∃ es, lru_peek key (c_entries c') = Some (es ++ [e])).
Proof.
  intros Hok Hz key e c'. subst c'. unfold insert. rewrite decide_False by done.
  fold key. destruct (lru_get_spec key (c_entries c) Hok) as (en & -> & Hen & _ & Hpeek).
  cbn [ce_record rr_rdata]. split.
  - intros es -> Hin. apply existsb_rdata in Hin. rewrite Hin. cbn. apply Hpeek.
  - intros Hni. destruct (lru_peek key (c_entries c)) as [es|] eqn:E.
    + destruct (existsb _ es) eqn:Hdup; [by apply existsb_rdata, (Hni es eq_refl) in Hdup|].
      cbn. rewrite lru_peek_modify, decide_True, Hpeek, E by done. cbn. eauto.
    + cbn. rewrite lru_peek_put by done. by exists [].
Qed.
End invariant.

(** ** Properties *)

Section properties.
Context {C : Type → Type} `{LruLaws cache_key C}.

(** C26: in every cache that a sequence of operations can reach, a key holds at least one and
    at most sixteen records, with pairwise different data, all of the key's name, type and
    class, with a TTL between one second and a day that ends at most a day from now; the
    stale store only holds expired records; and neither store outgrows its capacity, which
    no operation changes. *)
Theorem cache_invariant T (c : DnsCache C) :
  cache_reachable T c →
  cache_ok T c ∧ (lru_len (c_entries c) ≤ lru_cap (c_entries c))%nat ∧
  (lru_len (c_stale c) ≤ lru_cap (c_stale c))%nat ∧
  ∀ T' c', cache_step T T' c c' →
    lru_cap (c_entries c') = lru_cap (c_entries c) ∧ lru_cap (c_stale c') = lru_cap (c_stale c).
Proof.
  intros Hr%cache_reachable_ok. split_and!; [done|..].
  - apply lru_len_cap, Hr.
  - apply lru_len_cap, Hr.
  - intros T' c'. apply cache_step_cap.
Qed.

(** C4: the result of a lookup, exactly.  With [live es] the records of the key that have not
    expired when their turn comes, and [dead es] the others: when there are live ones, the answer
    holds just these, in their order, each with the whole seconds that it has left when its TTL is
    computed, which is at most a day, and with the least of these TTLs; they stay under the key, and
    the expired ones, if any, go to the stale store.  When all have expired there is no answer, the
    key leaves the fresh store and its records are in the stale store; without the key there is no
    answer and both stores stay as they are.  Hits and misses are counted, and no other key of the
    fresh store is touched. *)
Theorem lookup_spec T (c : DnsCache C) clk name rtype rclass :
  cache_ok T c → monotone clk → T ≤ clk 0%nat →
  let key := (name, rtype, rclass) in
  let '(answer, c') := lookup_cache c clk name rtype rclass in
  (∀ k, k ≠ key → lru_peek k (c_entries c') = lru_peek k (c_entries c)) ∧
  match lru_peek key (c_entries c) with
  | None =>
    answer = None ∧ c_hits c' = c_hits c ∧ c_misses c' = u64 (c_misses c + 1) ∧
    lru_peek key (c_entries c') = None ∧ c_stale c' = c_stale c
  | Some es =>
    if decide (live clk es = []) then
      answer = None ∧ c_hits c' = c_hits c ∧ c_misses c' = u64 (c_misses c + 1) ∧
      Forall (λ p, ce_expires_at p.2 ≤ clk p.1) (dated 0 es) ∧
      lru_peek key (c_entries c') = None ∧ lru_peek key (c_stale c') = Some es
    else
      ∃ ttl,
        let records := (λ p, mkRR name rtype rclass (Z.max 0 (ce_expires_at p.2 - clk p.1) / SEC)
          (rr_rdlength (ce_record p.2)) (rr_rdata (ce_record p.2)) None) <$> dated (length es) (live clk es) in
        answer = Some (records, ttl) ∧ c_hits c' = u64 (c_hits c + 1) ∧ c_misses c' = c_misses c ∧
        (∃ r, r ∈ records ∧ rr_ttl r = ttl) ∧
        (∀ r, r ∈ records → ttl ≤ rr_ttl r ∧ 0 ≤ rr_ttl r ≤ 86400) ∧
        lru_peek key (c_entries c') = Some (live clk es) ∧
        if decide (dead clk es = []) then c_stale c' = c_stale c
        else lru_peek key (c_stale c') = Some (dead clk es)
  end.
Proof.
  intros [He Hs Hf Hst] Hm HT key. unfold lookup_cache. fold key.
  destruct (lru_get_spec key (c_entries c) He) as (en & -> & Hen & _ & Hpk).
  destruct (lru_peek key (c_entries c)) as [es|] eqn:E.
  2: { split_and!; try done; intros; by rewrite ?Hpk. }
  destruct (Hf key es E) as (Hne & _ & _ & Hall). rewrite Forall_forall in Hall.
  rewrite split_expired_dated. fold (live clk es) (dead clk es). case_decide as Hd.
  - assert (Forall (λ p, ce_expires_at p.2 ≤ clk p.1) (dated 0 es)) as Hexp by by apply live_nil.
    rewrite (live_nil_dead _ _ Hd), decide_False by done. cbn.
    split; [intros k Hk; by rewrite lru_peek_pop, decide_False, Hpk|]. split_and!; try done.
    + by rewrite lru_peek_pop, decide_True.
    + by apply lru_peek_put.
  - destruct (fresh_records clk (length es) (live clk es) (2 ^ 32 - 1)) as [recs ttl] eqn:Hrec.
    pose proof (fresh_records_dated clk (length es) (live clk es) (2 ^ 32 - 1)) as Hr. rewrite Hrec in Hr. cbn [fst] in Hr.
    apply fresh_records_spec in Hrec as (H2 & Hmin & _ & Hex). rewrite Forall_forall in Hmin.
    assert (∀ p, p ∈ dated (length es) (live clk es) → entry_ok key T p.2 ∧ ce_expires_at p.2 - clk p.1 ≤ 86400 * SEC) as Hp.
    { intros p [Hj Hin]%dated_in. apply live_in in Hin. pose proof (Hall _ Hin) as Hok. split; [done|].
      destruct Hok as (_ & _ & _ & Hle). pose proof (Hm 0%nat p.1). unfold SEC in *. lia. }
    rewrite (records_left _ _ _ _ T _ Hp) in Hr. subst recs. cbn [c_entries c_stale c_hits c_misses]. cbv zeta beta iota.
    rewrite lru_peek_modify, decide_True, Hpk, E by done. cbn [fmap option_fmap option_map].
    split; [intros k Hk; by rewrite lru_peek_modify, decide_False, Hpk|]. exists ttl. split_and!; try done.
    + destruct Hex as [->|Hex]; [|done]. exfalso. 
      destruct (live clk es) as [|e l] eqn:El; [done|]. cbn in Hmin.
      destruct (Hp (length es, e)) as [_ Hb]; [left|]. cbn in Hb.
      specialize (Hmin _ ltac:(left)). cbn in Hmin. unfold SEC in *. Z.div_mod_to_equations. lia.
    + intros r Hin. split; [by apply Hmin|]. apply list_elem_of_fmap in Hin as (p & -> & Hin).
      destruct (Hp p Hin) as [_ Hb]. cbn. unfold SEC in *. Z.div_mod_to_equations. lia.
    + case_decide; [done|]. by apply lru_peek_put.
Qed.

Lemma insert_lookup_found (c : DnsCache C) t t' name rtype rclass ttl rdata rdlength T :
  cache_ok T c → is_u32 ttl → 0 < ttl → t ≤ t' < t + Z.min ttl 86400 * SEC →
  (∀ es, lru_peek (name, rtype, rclass) (c_entries c) = Some es → rdata ∉ entry_rdata <$> es) →
  let c' := insert c (λ _, t) name rtype rclass ttl rdata rdlength in
  ∃ recs min_ttl,
    (lookup_cache c' (λ _, t') name rtype rclass).1 = Some (recs, min_ttl) ∧
    mkRR name rtype rclass ((t + Z.min ttl 86400 * SEC - t') / SEC) rdlength rdata None ∈ recs.
Proof.
  intros [He _ _ _] Httl Hpos Ht Hnew c'.
  destruct (insert_peek c (λ _, t) name rtype rclass ttl rdata rdlength He) as [_ Hins]; [lia|].
  destruct (Hins Hnew) as [es Hes]. clear Hins.
  set (e := mkEntry _ _) in Hes. subst c'. set (c' := insert _ _ _ _ _ _ _ _) in *.
  assert (Hok : lru_ok (c_entries c')) by (by apply insert_lru_ok).
  assert (Hin : e ∈ filter (λ e, t' < ce_expires_at e) (es ++ [e])).
  { apply list_elem_of_filter. split; [simpl; lia|]. apply elem_of_app. right. by left. }
  rewrite lookup_cache_const, Hes by done. cbn zeta.
  set (fresh := filter _ _) in *. rewrite decide_False by (intros E; rewrite E in Hin; by apply elem_of_nil in Hin).
  pose proof (fresh_records_const t' (length (es ++ [e])) fresh (2 ^ 32 - 1)) as Hrecs.
  destruct (fresh_records _ _ _ _) as [recs m]. cbn [fst] in Hrecs. exists recs, m. split; [done|].
  rewrite Hrecs. apply list_elem_of_fmap. exists e. split; [|done].
  unfold with_ttl, ttl_remaining. cbn. f_equal. rewrite Z.max_r, u32_id; [done| |lia].
  unfold is_u32, SEC in *. Z.div_mod_to_equations. lia.
Qed.

(** A record with new data that is inserted with a positive TTL is answered by every
    lookup before the TTL, clamped to a day, is over, with the whole seconds that are left. *)
Theorem insert_then_lookup (c : DnsCache C) t t' name rtype rclass ttl rdata rdlength T :
  cache_ok T c → is_u32 ttl → 0 < ttl → t ≤ t' < t + Z.min ttl 86400 * SEC →
  (∀ es, lru_peek (name, rtype, rclass) (c_entries c) = Some es → rdata ∉ entry_rdata <$> es) →
  let c' := insert c (λ _, t) name rtype rclass ttl rdata rdlength in
  ∃ recs min_ttl,
    (lookup_cache c' (λ _, t') name rtype rclass).1 = Some (recs, min_ttl) ∧
    mkRR name rtype rclass ((t + Z.min ttl 86400 * SEC - t') / SEC) rdlength rdata None ∈ recs.
Proof. apply insert_lookup_found. Qed.

(** Inserting data that a key already holds changes no stored entry, whatever its new TTL:
    it does not extend the life of the stored copy.  If all copies under the key have expired,
    the insertion is lost and the next lookup misses. *)
Theorem insert_duplicate_lost (c : DnsCache C) t name rtype rclass ttl rdata rdlength T es :
  cache_ok T c → lru_peek (name, rtype, rclass) (c_entries c) = Some es →
  rdata ∈ entry_rdata <$> es →
  let c' := insert c (λ _, t) name rtype rclass ttl rdata rdlength in
  (∀ k, lru_peek k (c_entries c') = lru_peek k (c_entries c)) ∧
  (Forall (λ e, ce_expires_at e ≤ t) es → (lookup_cache c' (λ _, t) name rtype rclass).1 = None).
Proof.
  intros [He _ _ _] Hes Hin c'.
  assert (Hpeek : ∀ k, lru_peek k (c_entries c') = lru_peek k (c_entries c)).
  { destruct (decide (ttl = 0)) as [->|Hz]; [by subst c'; unfold insert; rewrite decide_True|].
    by apply (insert_peek c (λ _, t) name rtype rclass ttl rdata rdlength He Hz) with es. }
  split; [done|]. intros Hexp.
  assert (Hok : lru_ok (c_entries c')) by (by apply insert_lru_ok).
  rewrite lookup_cache_const by done. rewrite Hpeek, Hes. cbn zeta. apply decide_True.
  apply filter_none. eapply Forall_impl; [exact Hexp|]. intros e He'. simpl in *. lia.
Qed.

(** Serve-stale: when a lookup finds all records of a key expired, they can afterwards be
    had from the stale store, with TTL zero, exactly those whose expiry is less than six hours
    ago; when none is left the stale entry is dropped and the answer is nothing.  No record that
    is still valid ever comes from the stale store. *)
Theorem serve_stale (c : DnsCache C) now now' name rtype rclass es T :
  cache_ok T c → lru_peek (name, rtype, rclass) (c_entries c) = Some es →
  Forall (λ e, ce_expires_at e ≤ now) es → T ≤ now ≤ now' →
  let '(r, c') := lookup_cache c (λ _, now) name rtype rclass in
  let usable := filter (λ e, now' - ce_expires_at e < 6 * 3600 * SEC) es in
  let '(s, c'') := lookup_stale c' (λ _, now') name rtype rclass in
  r = None ∧
  s = (if decide (usable = []) then None
       else Some (map (λ e, with_ttl 0 (ce_record e)) usable)) ∧
  (usable = [] → lru_peek (name, rtype, rclass) (c_stale c'') = None) ∧
  ∀ e, e ∈ usable → ce_expires_at e ≤ now'.
Proof.
  intros [He Hs Hf Hst] Hes Hexp Hnow. unfold lookup_cache.
  destruct (lru_get_spec (name, rtype, rclass) (c_entries c) He) as (en & -> & _). rewrite Hes.
  rewrite split_expired_const. rewrite filter_none, filter_all; [|done|].
  2:{ eapply Forall_impl; [exact Hexp|]. intros e He'. simpl in *. lia. }
  destruct (Hf _ es Hes) as (Hne & _). rewrite (decide_False (P:=es = [])) by done.
  rewrite decide_True by done. cbn zeta. unfold lookup_stale. cbn [c_stale].
  set (st := lru_put _ es (c_stale c)).
  assert (Hst' : lru_ok st) by (by apply lru_put_ok).
  destruct (lru_get_spec (name, rtype, rclass) st Hst') as (sn & -> & _ & _ & Hpk).
  subst st. rewrite lru_peek_put by done.
  assert (Huse : ∀ l, Forall (λ e, ce_expires_at e ≤ now) l →
    filter (λ e, duration_since now' (ce_expires_at e) < STALE_MAX_AGE) l =
    filter (λ e, now' - ce_expires_at e < 6 * 3600 * SEC) l).
  { intros l. induction 1 as [|e l Hle Hl IH]; [done|]. rewrite !filter_cons, IH.
    unfold duration_since, STALE_MAX_AGE. rewrite Z.max_r by lia. done. }
  rewrite Huse by done. set (usable := filter _ es).
  assert (Hin : ∀ e, e ∈ usable → ce_expires_at e ≤ now').
  { intros e [_ He']%list_elem_of_filter. rewrite Forall_forall in Hexp. specialize (Hexp e He').
    simpl in Hexp. lia. }
  case_decide as Hu; split_and!; try done. cbn. by rewrite lru_peek_pop, decide_True.
Qed.
End properties.

(** *** The cache over the association list, at concrete inputs *)

#[local] Abbreviation C0 := (alru cache_key).
Definition sample_cache : DnsCache C0 := insert (with_max_entries 10) (λ _, 5) [1; 97; 0] 1 1 300 [1; 2; 3; 4] 4.

Lemma sample_cache_reachable : cache_reachable 5 sample_cache.
Proof.
  apply (reach_step 0 5 (with_max_entries 10)); [constructor|lia|].
  constructor; [split; lia|width].
Qed.

Lemma cache_invariant_witness : (lru_len (c_entries sample_cache) ≤ lru_cap (c_entries sample_cache))%nat.
Proof. apply (cache_invariant 5 sample_cache sample_cache_reachable). Defined.

Lemma lookup_spec_witness :
  ∃ ttl c', lookup_cache sample_cache (λ n, 6 + Z.of_nat n) [1; 97; 0] 1 1 =
    (Some ([mkRR [1; 97; 0] 1 1 299 4 [1; 2; 3; 4] None], ttl), c') ∧ 0 ≤ 299 ∧ ttl ≤ 299.
Proof.
  pose proof (lookup_spec 5 sample_cache (λ n, 6 + Z.of_nat n) [1; 97; 0] 1 1
    (cache_reachable_ok 5 _ sample_cache_reachable)
    ltac:(intros i j Hij; cbv beta; lia) ltac:(by vm_compute)) as H. cbv zeta in H.
  destruct (lookup_cache _ _ _ _ _) as [answer c']. destruct H as [_ H].
  assert (lru_peek ([1; 97; 0], 1, 1) (c_entries sample_cache) =
    Some [mkEntry (mkRR [1; 97; 0] 1 1 300 4 [1; 2; 3; 4] None) 300000000005]) as E by by vm_compute.
  rewrite E in H. rewrite decide_False in H by (by vm_compute). destruct H as (ttl & -> & _ & _ & _ & Hr & _).
  exists ttl, c'. split; [by vm_compute|]. split; [lia|]. exact (proj1 (Hr _ ltac:(by left))).
Defined.

Lemma insert_then_lookup_witness :
  ∃ recs min_ttl,
    (lookup_cache (insert (with_max_entries (C:=C0) 10) (λ _, 5) [1; 97; 0] 1 1 300 [1; 2; 3; 4] 4)
       (λ _, 100 * SEC) [1; 97; 0] 1 1).1 = Some (recs, min_ttl) ∧
    mkRR [1; 97; 0] 1 1 200 4 [1; 2; 3; 4] None ∈ recs.
Proof.
  apply (insert_then_lookup (with_max_entries (C:=C0) 10) 5 (100 * SEC) [1; 97; 0] 1 1 300 [1; 2; 3; 4] 4 0);
    [|width|lia|unfold SEC; lia|done].
  apply cache_reachable_ok. constructor.
Defined.

Lemma insert_duplicate_lost_witness :
  (lookup_cache (insert sample_cache (λ _, 400 * SEC) [1; 97; 0] 1 1 3600 [1; 2; 3; 4] 4)
     (λ _, 400 * SEC) [1; 97; 0] 1 1).1 = None.
Proof.
  eapply (insert_duplicate_lost sample_cache (400 * SEC) [1; 97; 0] 1 1 3600 [1; 2; 3; 4] 4 5);
    [apply cache_reachable_ok, sample_cache_reachable|reflexivity|left|].
  repeat constructor. by vm_compute.
Defined.

Lemma serve_stale_witness :
  (lookup_stale (lookup_cache sample_cache (λ _, 400 * SEC) [1; 97; 0] 1 1).2 (λ _, 500 * SEC)
     [1; 97; 0] 1 1).1 = Some [mkRR [1; 97; 0] 1 1 0 4 [1; 2; 3; 4] None].
Proof.
  pose proof (serve_stale sample_cache (400 * SEC) (500 * SEC) [1; 97; 0] 1 1 _ 5
    (cache_reachable_ok 5 _ sample_cache_reachable) eq_refl) as H.
  destruct H as (_ & H & _); [repeat constructor; by vm_compute|unfold SEC; lia|exact H].
Defined.
