(* ===== verification/Prefetch.v ===== *)
(** * The prefetch at the start (src/server/udp.rs, lines 69-105)

    The task that [run_server] spawns when there are domains to prefetch: it
    pushes a future per domain to a [FuturesUnordered], waits for one to end
    whenever it holds twice as many as may run, and for all in the end.  Each
    future takes a permit of a semaphore, which serves them in their order,
    and looks its domain up for A and AAAA, each with a timeout.

    The futures are polled only while the task waits for one to end.  The
    lookups themselves are those of the resolver; here they are over when
    they say so, and [Process] says what they do, and that one that computes
    for ever keeps the whole task.  A run of the task keeps a log of when the
    lookups of a domain have begun and ended. *)

From S2P Require Import Prelude Cache.
#[local] Open Scope Z_scope.

(** ** The state *)

Definition CONCURRENT_PREFETCH : nat := 50.
Definition PER_DOMAIN_TIMEOUT : Z := 3 * SEC.

(** A future with a permit: its domain, when its timeouts are over, and which of its lookups are
    still open. *)
Record Running := mkRunning {
  rn_domain : nat;
  rn_deadline : Z;
  rn_a : bool;
  rn_aaaa : bool;
}.

(** How many domains the loop has pushed, the futures that wait for a permit, the first one to get
    it first, and those with one. *)
Record Prefetcher := mkPrefetcher {
  pf_next : nat;
  pf_queued : list nat;
  pf_running : list Running;
}.

Definition prefetcher_new : Prefetcher := mkPrefetcher 0 [] [].

(** [tasks.len()] *)
Definition pf_len (pf : Prefetcher) : nat := (length (pf_queued pf) + length (pf_running pf))%nat.

Definition is_open (r : Running) : bool := rn_a r || rn_aaaa r.

(** ** Steps *)

Inductive pf_event :=
  (** The loop pushes the next domain; a future gets its permit. *)
  | Push
  | Start
  (** A lookup of the [i]-th running future ends, or is dropped with its timeout. *)
  | Lookup (i : nat) (aaaa : bool)
  | Expire (i : nat)
  (** The [i]-th running future ends and gives its permit back. *)
  | Finish (i : nat).

Section prefetch.
Context (n : nat).

(** The task is in [tasks.next().await]. *)
Definition awaiting (pf : Prefetcher) : Prop :=
  (CONCURRENT_PREFETCH * 2 <= pf_len pf)%nat ∨ (n <= pf_next pf)%nat.
#[export] Instance awaiting_dec pf : Decision (awaiting pf).
Proof. unfold awaiting. apply _. Defined.

Definition pf_done (pf : Prefetcher) : Prop :=
  (n <= pf_next pf)%nat ∧ pf_queued pf = [] ∧ pf_running pf = [].

Definition pf_step (now : Z) (e : pf_event) (pf : Prefetcher) : option Prefetcher :=
  match e with
  | Push =>
    if decide (awaiting pf) then None
    else Some (mkPrefetcher (S (pf_next pf)) (pf_queued pf ++ [pf_next pf]) (pf_running pf))
  | Start =>
    match pf_queued pf with
    | d :: queued =>
      if decide (awaiting pf ∧ length (pf_running pf) < CONCURRENT_PREFETCH)%nat then
        Some (mkPrefetcher (pf_next pf) queued (pf_running pf ++ [mkRunning d (now + PER_DOMAIN_TIMEOUT) true true]))
      else None
    | [] => None
    end
  | Lookup i aaaa =>
    r ← pf_running pf !! i;
    if decide (awaiting pf ∧ (if aaaa : bool then rn_aaaa r else rn_a r) = true) then
      Some (mkPrefetcher (pf_next pf) (pf_queued pf)
              (<[i := mkRunning (rn_domain r) (rn_deadline r) (rn_a r && aaaa) (rn_aaaa r && negb aaaa)]> (pf_running pf)))
    else None
  | Expire i =>
    r ← pf_running pf !! i;
    if decide (awaiting pf ∧ is_open r = true ∧ rn_deadline r <= now) then
      Some (mkPrefetcher (pf_next pf) (pf_queued pf)
              (<[i := mkRunning (rn_domain r) (rn_deadline r) false false]> (pf_running pf)))
    else None
  | Finish i =>
    r ← pf_running pf !! i;
    if decide (awaiting pf ∧ is_open r = false) then
      Some (mkPrefetcher (pf_next pf) (pf_queued pf) (delete i (pf_running pf)))
    else None
  end.

(** What the task does by itself takes no time: time passes when it can only wait for a lookup,
    and not past the timeout of an open one. *)
Definition settled (now : Z) (pf : Prefetcher) : Prop :=
  pf_step now Push pf = None ∧ pf_step now Start pf = None ∧ Forall (λ r, is_open r = true) (pf_running pf).

(** What has happened to a domain: its lookups have begun, or the one of them that [aaaa] tells has
    ended, by itself or dropped with its timeout. *)
Inductive pf_entry :=
  | Begun (now : Z) (domain : nat)
  | Ended (now : Z) (domain : nat) (aaaa dropped : bool).

(** The lookups of a future that are open. *)
Definition open_of (r : Running) : list (nat * bool) :=
  (if rn_a r then [(rn_domain r, false)] else []) ++ (if rn_aaaa r then [(rn_domain r, true)] else []).

(** What a step adds to the log. *)
Definition entries (now : Z) (e : pf_event) (pf : Prefetcher) : list pf_entry :=
  match e with
  | Start => Begun now <$> take 1 (pf_queued pf)
  | Lookup i aaaa => if pf_running pf !! i is Some r then [Ended now (rn_domain r) aaaa false] else []
  | Expire i => if pf_running pf !! i is Some r then (λ l, Ended now l.1 l.2 true) <$> open_of r else []
  | Push | Finish _ => []
  end.

(** The runs of the task from its start at [t0]: the time, the state and the log. *)
Inductive pf_run (t0 : Z) : Z → Prefetcher → list pf_entry → Prop :=
  | pf_new : pf_run t0 t0 prefetcher_new []
  | pf_do now e pf pf' log :
    pf_run t0 now pf log → pf_step now e pf = Some pf' → pf_run t0 now pf' (log ++ entries now e pf)
  | pf_wait now now' pf log :
    pf_run t0 now pf log → now <= now' → settled now pf → Forall (λ r, now' <= rn_deadline r) (pf_running pf) →
    pf_run t0 now' pf log.

(** ** Bounds *)

(** The whole seconds it takes to work through [m] domains, fifty at a time. *)
Definition rounds (m : nat) : Z := PER_DOMAIN_TIMEOUT * Z.of_nat (m / 50).

(** How many futures have got a permit so far. *)
Definition started (pf : Prefetcher) : nat := (pf_next pf - length (pf_queued pf))%nat.

Record pf_ok (t0 now : Z) (pf : Prefetcher) : Prop := {
  ok_next : (length (pf_queued pf) <= pf_next pf <= n)%nat;
  ok_queued : pf_queued pf = seq (started pf) (length (pf_queued pf));
  ok_len : (pf_len pf <= 100)%nat;
  ok_permits : (length (pf_running pf) <= 50)%nat;
  ok_distinct : NoDup (rn_domain <$> pf_running pf);
  ok_running : Forall (λ r, (rn_domain r < started pf)%nat ∧
                            rn_deadline r <= t0 + rounds (rn_domain r) + PER_DOMAIN_TIMEOUT) (pf_running pf);
  ok_time : (started pf < n)%nat → now <= t0 + rounds (started pf);
  ok_end : pf_running pf ≠ [] → now <= t0 + rounds (n + 49);
}.

Lemma rounds_mono i j : (i <= j)%nat → rounds i <= rounds j.
Proof. intros Hij. unfold rounds. pose proof (Nat.Div0.div_le_mono i j 50 Hij). unfold PER_DOMAIN_TIMEOUT, SEC. nia. Qed.

Lemma rounds_next i : rounds (i + 50) = rounds i + PER_DOMAIN_TIMEOUT.
Proof.
  unfold rounds. replace (i + 50)%nat with (i + 1 * 50)%nat by lia. rewrite Nat.div_add by done. lia.
Qed.

(** Among fifty numbers below [m] there is one below [m - 49]. *)
Lemma fifty_below (l : list nat) m :
  NoDup l → (50 <= length l)%nat → Forall (λ i, (i < m)%nat) l → ∃ i, i ∈ l ∧ (i + 50 <= m)%nat.
Proof.
  intros Hnd Hlen Hlt. destruct (decide (Exists (λ i, (i + 50 <= m)%nat) l)) as [He|Hn].
  { by apply Exists_exists in He. }
  exfalso. apply not_Exists_Forall in Hn; [|intros; apply _].
  assert (l ⊆+ seq (m - 49) 49) as Hsub.
  { apply NoDup_submseteq; [done|]. intros i Hi. rewrite Forall_forall in Hlt, Hn.
    specialize (Hlt i Hi). specialize (Hn i Hi). cbn in Hlt, Hn. apply elem_of_seq. lia. }
  apply submseteq_length in Hsub. rewrite length_seq in Hsub. lia.
Qed.

Lemma fmap_delete {A B} (f : A → B) i (l : list A) : f <$> delete i l = delete i (f <$> l).
Proof. revert i. induction l as [|x l IH]; intros [|i]; cbn; f_equal; auto. Qed.

Lemma Forall_delete {A} (P : A → Prop) i (l : list A) : Forall P l → Forall P (delete i l).
Proof.
  rewrite !Forall_forall. intros Hl x Hx. apply Hl. eapply elem_of_sublist; [exact Hx|apply sublist_delete].
Qed.

Lemma new_ok t0 : pf_ok t0 t0 prefetcher_new.
Proof. split; cbn; try done; try lia; [by apply NoDup_nil|]. intros _. unfold rounds. cbn. lia. Qed.

Lemma push_ok t0 now pf pf' : pf_ok t0 now pf → pf_step now Push pf = Some pf' → pf_ok t0 now pf'.
Proof.
  intros [Hn Hq Hl Hp Hd Hr Ht He]. cbn. unfold awaiting, pf_len in *. unfold CONCURRENT_PREFETCH in *.
  case_decide as Ha; [done|]. intros [= <-].
  set (pf' := mkPrefetcher _ _ _). assert (started pf' = started pf) as Es.
  { unfold started, pf'. cbn. rewrite length_app. cbn. lia. }
  split; rewrite ?Es; cbn; rewrite ?length_app; cbn; [lia| |unfold pf_len; cbn; rewrite ?length_app; cbn; lia|done..].
  rewrite seq_app, <-Hq. f_equal. cbn. f_equal. unfold started. lia.
Qed.

Lemma start_ok t0 now pf pf' : pf_ok t0 now pf → pf_step now Start pf = Some pf' → pf_ok t0 now pf'.
Proof.
  intros [Hn Hq Hl Hp Hd Hr Ht He]. cbn. unfold pf_len in *. destruct (pf_queued pf) as [|d queued] eqn:Eq; [done|].
  case_decide as Ha; [|done]. destruct Ha as [_ Ha]. unfold CONCURRENT_PREFETCH in Ha. intros [= <-].
  cbn [length seq] in Hq, Hn, Hl. injection Hq as Hd0 Hq. subst d.
  set (pf' := mkPrefetcher _ _ _). assert (started pf' = S (started pf)) as Es.
  { unfold started, pf'. cbn. rewrite Eq. cbn. lia. }
  assert (started pf < n)%nat as Hlt by (unfold started; rewrite Eq; cbn; lia). specialize (Ht Hlt).
  split; rewrite ?Es; cbn; rewrite ?length_app; cbn; [lia|done|unfold pf_len; cbn; rewrite ?length_app; cbn; lia|lia| | | |].
  - rewrite fmap_app. apply NoDup_app. split_and!; [done| |by apply NoDup_singleton].
    intros i Hi. cbn. rewrite list_elem_of_singleton. intros ->. apply list_elem_of_fmap in Hi as (r & Er & Hin).
    rewrite Forall_forall in Hr. destruct (Hr r Hin). lia.
  - apply Forall_app. split; [eapply Forall_impl; [exact Hr|]; cbn; intros r []; split; [lia|done]|].
    constructor; [|constructor]. cbn. unfold PER_DOMAIN_TIMEOUT in *. split; [lia|]. lia.
  - intros _. etrans; [exact Ht|]. pose proof (rounds_mono (started pf) (S (started pf))). lia.
  - intros _. etrans; [exact Ht|]. pose proof (rounds_mono (started pf) (n + 49)). lia.
Qed.

(** A running future that changes, but for its domain and its timeout. *)
Lemma update_ok t0 now pf i r r' :
  pf_ok t0 now pf → pf_running pf !! i = Some r → rn_domain r' = rn_domain r → rn_deadline r' = rn_deadline r →
  pf_ok t0 now (mkPrefetcher (pf_next pf) (pf_queued pf) (<[i := r']> (pf_running pf))).
Proof.
  intros [Hn Hq Hl Hp Hd Hr Ht He] Ei Edom Edl. split; cbn; rewrite ?length_insert; try done.
  - rewrite list_fmap_insert, Edom, list_insert_id; [done|]. by rewrite list_lookup_fmap, Ei.
  - pose proof (proj1 (Forall_lookup _ _) Hr _ _ Ei) as Hri. apply Forall_insert; [exact Hr|].
    unfold started in *. cbn in *. by rewrite Edom, Edl.
  - intros _. apply He. intros E. by rewrite E in Ei.
Qed.

Lemma finish_ok t0 now pf i r :
  pf_ok t0 now pf → pf_running pf !! i = Some r →
  pf_ok t0 now (mkPrefetcher (pf_next pf) (pf_queued pf) (delete i (pf_running pf))).
Proof.
  intros [Hn Hq Hl Hp Hd Hr Ht He] Ei.
  assert (length (delete i (pf_running pf)) <= length (pf_running pf))%nat as Hlen
    by (apply sublist_length, sublist_delete).
  split; cbn; try done.
  - unfold pf_len in *. cbn. lia.
  - lia.
  - rewrite fmap_delete. eapply sublist_NoDup; [exact Hd|apply sublist_delete].
  - by apply Forall_delete.
  - intros Hne. apply He. intros E. by rewrite E in Ei.
Qed.

Lemma step_ok t0 now e pf pf' : pf_ok t0 now pf → pf_step now e pf = Some pf' → pf_ok t0 now pf'.
Proof.
  intros Hok. destruct e as [| |i aaaa|i|i]; [by apply push_ok|by apply start_ok|..]; cbn;
    intros (r & Ei & E)%bind_Some; (case_decide; [|done]); injection E as <-.
  1-2: by eapply update_ok.
  by eapply finish_ok.
Qed.

(** When the task can only wait, all permits are taken or all domains have got theirs. *)
Lemma settled_full t0 now pf :
  pf_ok t0 now pf → settled now pf → (started pf < n)%nat → length (pf_running pf) = 50%nat.
Proof.
  intros [Hn Hq Hl Hp Hd Hr Ht He] (Hpush & Hstart & _) Hs. unfold pf_step in Hpush, Hstart.
  destruct (decide (awaiting pf)) as [Ha|]; [|done]. unfold started in Hs.
  assert (pf_queued pf ≠ []) as Hne.
  { intros E. rewrite E in Hs, Hn. cbn in Hs, Hn. unfold awaiting, pf_len, CONCURRENT_PREFETCH in Ha.
    rewrite E in Ha. cbn in Ha. lia. }
  destruct (pf_queued pf) as [|d queued]; [done|]. destruct (decide (_ ∧ _)) as [|Hc]; [done|].
  unfold CONCURRENT_PREFETCH in Hc. destruct (decide (length (pf_running pf) < 50)%nat); [|lia]. by destruct Hc.
Qed.

Lemma wait_ok t0 now now' pf :
  pf_ok t0 now pf → now <= now' → settled now pf → Forall (λ r, now' <= rn_deadline r) (pf_running pf) →
  pf_ok t0 now' pf.
Proof.
  intros Hok Hnow Hset Hdl. pose proof (settled_full _ _ _ Hok Hset) as Hfull.
  destruct Hok as [Hn Hq Hl Hp Hd Hr Ht He]. split; try done.
  - intros Hs. destruct (fifty_below (rn_domain <$> pf_running pf) (started pf)) as (i & Hi & Hle); [done| | |].
    + rewrite length_fmap. by rewrite Hfull.
    + apply Forall_fmap. eapply Forall_impl; [exact Hr|]. cbn. tauto.
    + apply list_elem_of_fmap in Hi as (r & -> & Hin). rewrite Forall_forall in Hr, Hdl.
      specialize (Hr r Hin) as [_ Hr]. specialize (Hdl r Hin). cbn in Hdl.
      pose proof (rounds_mono _ _ Hle). rewrite rounds_next in *. lia.
  - intros Hne. destruct (pf_running pf) as [|r running]; [done|].
    apply Forall_cons in Hr as [[Hlt Hr] _]. apply Forall_cons in Hdl as [Hdl _].
    assert (rounds (rn_domain r + 50) <= rounds (n + 49)) by (apply rounds_mono; unfold started in *; lia).
    rewrite rounds_next in *. lia.
Qed.

Lemma run_ok t0 now pf log : pf_run t0 now pf log → pf_ok t0 now pf.
Proof. induction 1; [by apply new_ok|by eapply step_ok|by eapply wait_ok]. Qed.

(** ** The log *)

Definition begun (log : list pf_entry) : list nat :=
  omap (λ x, match x with Begun _ domain => Some domain | Ended _ _ _ _ => None end) log.
Definition ended (log : list pf_entry) : list (nat * bool) :=
  omap (λ x, match x with Begun _ _ => None | Ended _ domain aaaa _ => Some (domain, aaaa) end) log.
(** The lookups of these domains, for A and for AAAA. *)
Definition both (domains : list nat) : list (nat * bool) := domains ≫= λ d, [(d, false); (d, true)].
Definition open_lookups_of (pf : Prefetcher) : list (nat * bool) := pf_running pf ≫= open_of.

(** A lookup that has ended has begun, has had at most its three seconds, and when it was dropped
    it has had all of them. *)
Definition timed (log : list pf_entry) : Prop :=
  ∀ now domain aaaa dropped, Ended now domain aaaa dropped ∈ log →
    ∃ t, Begun t domain ∈ log ∧ t <= now <= t + PER_DOMAIN_TIMEOUT ∧ (dropped = true → now = t + PER_DOMAIN_TIMEOUT).

Record log_ok (now : Z) (pf : Prefetcher) (log : list pf_entry) : Prop := {
  log_begun : begun log = seq 0 (started pf);
  log_ended : ended log ++ open_lookups_of pf ≡ₚ both (begun log);
  log_running : Forall (λ r, Begun (rn_deadline r - PER_DOMAIN_TIMEOUT) (rn_domain r) ∈ log ∧
                             rn_deadline r - PER_DOMAIN_TIMEOUT <= now <= rn_deadline r) (pf_running pf);
  log_timed : timed log;
}.

Lemma begun_app l k : begun (l ++ k) = begun l ++ begun k.
Proof. apply omap_app. Qed.
Lemma ended_app l k : ended (l ++ k) = ended l ++ ended k.
Proof. apply omap_app. Qed.

Lemma bind_insert {A B} (f : A → list B) (l : list A) i x y :
  l !! i = Some x → f x ++ (<[i := y]> l ≫= f) ≡ₚ f y ++ (l ≫= f).
Proof.
  revert i. induction l as [|z l IH]; intros [|i] E; simplify_eq/=.
  - solve_Permutation.
  - rewrite Permutation_app_swap_app, (IH _ E). solve_Permutation.
Qed.
Lemma bind_delete {A B} (f : A → list B) (l : list A) i x :
  l !! i = Some x → f x ++ (delete i l ≫= f) ≡ₚ l ≫= f.
Proof.
  revert i. induction l as [|z l IH]; intros [|i] E; simplify_eq/=; [done|].
  by rewrite Permutation_app_swap_app, (IH _ E).
Qed.

(** A running future ends some of its lookups. *)
Lemma log_ends now pf log i r r' (xs : list pf_entry) :
  log_ok now pf log → pf_running pf !! i = Some r →
  rn_domain r' = rn_domain r → rn_deadline r' = rn_deadline r →
  begun xs = [] → open_of r ≡ₚ ended xs ++ open_of r' →
  Forall (λ x, ∃ aaaa dropped, x = Ended now (rn_domain r) aaaa dropped ∧ (dropped = true → now = rn_deadline r)) xs →
  log_ok now (mkPrefetcher (pf_next pf) (pf_queued pf) (<[i := r']> (pf_running pf))) (log ++ xs).
Proof.
  intros [Hb He Hr Ht] Ei Edom Edl Hxs Ho Hx. pose proof (proj1 (Forall_lookup _ _) Hr _ _ Ei) as [Hin Hnow].
  assert (begun (log ++ xs) = begun log) as Eb by (by rewrite begun_app, Hxs, app_nil_r).
  split.
  - by rewrite Eb, Hb.
  - rewrite Eb, <-He. rewrite ended_app. unfold open_lookups_of in *. cbn [pf_running].
    rewrite <-app_assoc.
    apply Permutation_app_head. apply (Permutation_app_inv_l (open_of r)).
    rewrite Permutation_app_swap_app, (bind_insert open_of _ _ _ r' Ei), app_assoc. by rewrite <-Ho.
  - cbn. apply Forall_insert; [|rewrite Edom, Edl; split; [apply elem_of_app; by left|done]].
    eapply Forall_impl; [exact Hr|]. cbn. intros r0 [? ?]. split; [apply elem_of_app; by left|done].
  - intros t d aaaa dropped [Hin'|Hin']%elem_of_app.
    + destruct (Ht _ _ _ _ Hin') as (t1 & ? & ? & ?). exists t1. split; [apply elem_of_app; by left|done].
    + rewrite Forall_forall in Hx. destruct (Hx _ Hin') as (aaaa' & dropped' & [= -> -> -> ->] & Hd).
      exists (rn_deadline r - PER_DOMAIN_TIMEOUT). split; [apply elem_of_app; by left|]. split; [lia|]. intros ?%Hd. lia.
Qed.

Lemma log_start t0 now pf pf' log :
  pf_ok t0 now pf → log_ok now pf log → pf_step now Start pf = Some pf' → log_ok now pf' (log ++ entries now Start pf).
Proof.
  intros [Hn Hq _ _ _ _ _ _] [Hb He Hr Ht]. cbn. destruct (pf_queued pf) as [|d queued] eqn:Eq; [done|].
  case_decide; [|done]. intros [= <-]. cbn [length seq] in Hq, Hn. injection Hq as Hd _. subst d.
  assert (PER_DOMAIN_TIMEOUT = 3 * SEC) as Etime by done.
  assert (0 < SEC) by done. cbn [take fmap list_fmap].
  set (pf' := mkPrefetcher _ _ _). assert (started pf' = S (started pf)) as Es.
  { unfold started, pf'. cbn. rewrite Eq. cbn. lia. }
  split.
  - rewrite Es, begun_app, Hb. cbn. by rewrite <-seq_S.
  - rewrite begun_app, ended_app. unfold open_lookups_of, both in *. cbn. rewrite !bind_app, <-He. cbn.
    by rewrite app_nil_r, app_assoc.
  - cbn. apply Forall_app. split.
    + eapply Forall_impl; [exact Hr|]. cbn. intros r [? ?]. split; [apply elem_of_app; by left|done].
    + constructor; [|constructor]. cbn [rn_deadline rn_domain]. split; [|lia]. apply elem_of_app. right.
      apply list_elem_of_singleton. f_equal. lia.
  - intros t d aaaa dropped [Hin|Hin%list_elem_of_singleton]%elem_of_app; [|done].
    destruct (Ht _ _ _ _ Hin) as (t1 & ? & ? & ?). exists t1. split; [apply elem_of_app; by left|done].
Qed.

Lemma log_step t0 now e pf pf' log :
  pf_ok t0 now pf → log_ok now pf log → pf_step now e pf = Some pf' → log_ok now pf' (log ++ entries now e pf).
Proof.
  intros Hok Hlog. destruct e as [| |i aaaa|i|i]; [|by eapply log_start|..].
  - destruct Hlog as [Hb He Hr Ht]. destruct Hok. cbn. case_decide; [done|]. intros [= <-]. rewrite app_nil_r.
    split; [|done..]. rewrite Hb. f_equal. unfold started in *. cbn. rewrite length_app. cbn. lia.
  - cbn. intros (r & Ei & E)%bind_Some. rewrite Ei. case_decide as Ha; [|done]. injection E as <-. destruct Ha as [_ Ha].
    apply (log_ends now pf log i r); [done..| |].
    + destruct r as [d dl [] []], aaaa; cbn in *; try done; solve_Permutation.
    + constructor; [|constructor]. by eexists _, _.
  - cbn. intros (r & Ei & E)%bind_Some. rewrite Ei. case_decide as Ha; [|done]. injection E as <-. destruct Ha as (_ & _ & Ha).
    pose proof (proj1 (Forall_lookup _ _) (log_running _ _ _ Hlog) _ _ Ei) as [_ Hnow].
    apply (log_ends now pf log i r); [done..| | |].
    + by destruct r as [d dl [] []].
    + by destruct r as [d dl [] []].
    + destruct r as [d dl [] []]; cbn in *; repeat constructor; eexists _, _; (split; [reflexivity|lia]).
  - cbn. intros (r & Ei & E)%bind_Some. case_decide as Ha; [|done]. injection E as <-. destruct Ha as [_ Ha].
    rewrite app_nil_r. destruct Hlog as [Hb He Hr Ht]. split; [done| |by apply Forall_delete|done].
    rewrite <-He. apply Permutation_app_head. unfold open_lookups_of. cbn [pf_running].
    rewrite <-(bind_delete open_of _ _ _ Ei). by destruct r as [d dl [] []].
Qed.

Lemma run_log t0 now pf log : pf_run t0 now pf log → log_ok now pf log.
Proof.
  induction 1 as [|now e pf pf' log Hrun IH Hs|now now' pf log Hrun IH Hle Hset Hdl].
  - split; [done..|constructor|]. by intros ? ? ? ? ?%elem_of_nil.
  - eapply log_step; [by eapply run_ok|done..].
  - destruct IH as [Hb He Hr Ht]. split; [done..| |done]. rewrite Forall_forall in *. intros r Hin.
    destruct (Hr r Hin) as [? ?]. specialize (Hdl r Hin). cbn in Hdl. split; [done|lia].
Qed.

(** ** Progress *)

(** What is left to do. *)
Definition open_lookups (r : Running) : nat := (if rn_a r then 1 else 0) + (if rn_aaaa r then 1 else 0).
Definition work (pf : Prefetcher) : nat :=
  (5 * (n - pf_next pf) + 4 * length (pf_queued pf) + sum_list_with (λ r, 1 + open_lookups r) (pf_running pf))%nat.

Lemma sum_insert {A} (f : A → nat) (l : list A) i x y :
  l !! i = Some x → (sum_list_with f (<[i := y]> l) + f x = sum_list_with f l + f y)%nat.
Proof.
  revert i. induction l as [|z l IH]; intros [|i]; simpl; [done|done|intros [= ->]; lia|].
  intros Ei%IH. lia.
Qed.
Lemma sum_delete {A} (f : A → nat) (l : list A) i x :
  l !! i = Some x → (sum_list_with f (delete i l) + f x = sum_list_with f l)%nat.
Proof.
  revert i. induction l as [|z l IH]; intros [|i]; simpl; [done|done|intros [= ->]; lia|].
  intros Ei%IH. lia.
Qed.

(** Every step does some of it, so that there are at most five for each domain. *)
Lemma step_work now e pf pf' : pf_step now e pf = Some pf' → (work pf' < work pf)%nat.
Proof.
  unfold work. destruct e as [| |i aaaa|i|i]; cbn.
  - case_decide as Ha; [done|]. intros [= <-]. unfold awaiting in Ha. cbn. rewrite length_app. cbn. lia.
  - destruct (pf_queued pf) as [|d queued]; [done|]. case_decide; [|done]. intros [= <-]. cbn.
    rewrite sum_list_with_app. cbn. lia.
  - intros (r & Ei & E)%bind_Some. case_decide as Ha; [|done]. injection E as <-. cbn.
    pose proof (sum_insert (λ r, S (open_lookups r)) _ _ _
      (mkRunning (rn_domain r) (rn_deadline r) (rn_a r && aaaa) (rn_aaaa r && negb aaaa)) Ei) as Hs.
    unfold open_lookups in *. cbn in Hs. destruct Ha as [_ Ha]. destruct r as [d dl [] []], aaaa; cbn in *; try done; lia.
  - intros (r & Ei & E)%bind_Some. case_decide as Ha; [|done]. injection E as <-. cbn.
    pose proof (sum_insert (λ r, S (open_lookups r)) _ _ _ (mkRunning (rn_domain r) (rn_deadline r) false false) Ei) as Hs.
    unfold open_lookups, is_open in *. cbn in Hs. destruct Ha as (_ & Ha & _). destruct r as [d dl [] []]; cbn in *; try done; lia.
  - intros (r & Ei & E)%bind_Some. case_decide as Ha; [|done]. injection E as <-. cbn.
    pose proof (sum_delete (λ r, S (open_lookups r)) _ _ _ Ei) as Hs. cbn in Hs. lia.
Qed.

Lemma run_work t0 now pf log : pf_run t0 now pf log → (work pf <= 5 * n)%nat.
Proof. induction 1 as [|now e pf pf' log _ IH Hs%step_work|]; [unfold work; cbn; lia|lia|done]. Qed.

Lemma least_deadline (l : list Running) :
  l ≠ [] → ∃ i r, l !! i = Some r ∧ Forall (λ r', rn_deadline r <= rn_deadline r') l.
Proof.
  induction l as [|x l IH]; [done|]. intros _. destruct (decide (l = [])) as [->|Hne].
  { exists 0%nat, x. split; [done|]. constructor; [done|constructor]. }
  destruct (IH Hne) as (i & r & Ei & Hr). destruct (decide (rn_deadline x <= rn_deadline r)).
  - exists 0%nat, x. split; [done|]. constructor; [done|]. eapply Forall_impl; [exact Hr|]. cbn. lia.
  - exists (S i), r. split; [done|]. constructor; [lia|done].
Qed.

(** Until all is done there is a next step, at once or when the next timeout is over. *)
Lemma progress t0 now pf log :
  pf_run t0 now pf log → ¬ pf_done pf → ∃ now' e pf', pf_run t0 now' pf log ∧ pf_step now' e pf = Some pf'.
Proof.
  intros Hrun Hd. destruct (pf_step now Push pf) as [pf'|] eqn:Ep; [by exists now, Push, pf'|].
  destruct (pf_step now Start pf) as [pf'|] eqn:Es; [by exists now, Start, pf'|].
  assert (awaiting pf) as Ha by (cbn in Ep; by case_decide).
  destruct (decide (Forall (λ r, is_open r = true) (pf_running pf))) as [Ho|Hn].
  2: { apply not_Forall_Exists in Hn; [|intros; apply _]. apply Exists_exists in Hn as (r & Hin & Hr).
       apply list_elem_of_lookup in Hin as [i Ei]. apply not_true_is_false in Hr.
       exists now, (Finish i). eexists. split; [done|]. cbn. rewrite Ei. cbn. by rewrite decide_True. }
  destruct (decide (pf_running pf = [])) as [Er|Hne].
  { destruct Hd. cbn in Es. destruct (pf_queued pf) as [|d queued] eqn:Eq.
    - split_and!; [|done|done]. destruct Ha as [Ha|Ha]; [|done]. unfold pf_len in Ha. rewrite Eq, Er in Ha.
      unfold CONCURRENT_PREFETCH in Ha. cbn in Ha. lia.
    - rewrite decide_True in Es; [done|]. split; [done|]. rewrite Er. unfold CONCURRENT_PREFETCH. cbn. lia. }
  destruct (least_deadline _ Hne) as (i & r & Ei & Hr).
  exists (Z.max now (rn_deadline r)), (Expire i). eexists. split.
  - destruct (decide (rn_deadline r <= now)); [by rewrite Z.max_l by lia|]. rewrite Z.max_r by lia.
    eapply pf_wait; [done|lia|done|done].
  - cbn. rewrite Ei. cbn. rewrite decide_True; [done|]. split_and!; [done| |lia].
    exact (proj1 (Forall_lookup _ _) Ho _ _ Ei).
Qed.

End prefetch.

(** ** Examples *)

(** One domain: its lookup for A ends after a second, the other is dropped after three. *)
Definition one_log : list pf_entry := [Begun 5 0; Ended (5 + SEC) 0 false false; Ended (5 + PER_DOMAIN_TIMEOUT) 0 true true].
Lemma one_domain_run : pf_run 1 5 (5 + PER_DOMAIN_TIMEOUT) (mkPrefetcher 1 [] []) one_log.
Proof.
  set (running a aaaa := mkPrefetcher 1 [] [mkRunning 0 (5 + PER_DOMAIN_TIMEOUT) a aaaa]).
  assert (pf_run 1 5 5 (mkPrefetcher 1 [0%nat] []) []) as H1 by exact (pf_do 1 5 5 Push _ _ _ (pf_new 1 5) eq_refl).
  assert (pf_run 1 5 5 (running true true) (take 1 one_log)) as H2 by exact (pf_do 1 5 5 Start _ _ _ H1 eq_refl).
  assert (pf_run 1 5 (5 + SEC) (running true true) (take 1 one_log)) as H3
    by (eapply pf_wait; [exact H2|done|by repeat constructor|by repeat constructor]).
  assert (pf_run 1 5 (5 + SEC) (running false true) (take 2 one_log)) as H4
    by exact (pf_do 1 5 _ (Lookup 0 false) _ _ _ H3 eq_refl).
  assert (pf_run 1 5 (5 + PER_DOMAIN_TIMEOUT) (running false true) (take 2 one_log)) as H5
    by (eapply pf_wait; [exact H4|done|by repeat constructor|by repeat constructor]).
  assert (pf_run 1 5 (5 + PER_DOMAIN_TIMEOUT) (running false false) one_log) as H6
    by exact (pf_do 1 5 _ (Expire 0) _ _ _ H5 eq_refl).
  exact (pf_do 1 5 _ (Finish 0) _ _ _ H6 eq_refl).
Qed.

