(* ===== verification/Server.v ===== *)
(** * The DNS servers (src/server/udp.rs, src/server/tcp.rs)

    The handlers of one UDP datagram and of one TCP connection, against the
    interface [Resolver] of the recursive resolver.  A handler yields the
    resolver's new state, the packets it sends (in order, whether or not the
    socket accepts them, as the source ignores the result of [send_to]) and
    its own result. *)

From stdpp Require Import strings.
From Stdlib Require String.
From S2P Require Import Prelude Constants Str Types Names NameCodec Rdata Message.
#[local] Open Scope Z_scope.

(** ** The interface of the resolver *)

Class Resolver (S : Type) := {
  (** [resolve_with_ad]: records and AD flag, or an error. *)
  resolve_with_ad : S → str → Z → Z → DnsResult (list ResourceRecord * bool) * S;
  (** [resolve_dnssec]: a cache-only lookup. *)
  resolve_dnssec : S → str → Z → Z → list ResourceRecord * S;
}.

(** ** Helpers of the handlers *)

Definition MAX_CONCURRENT_QUERIES : nat := Z.to_nat 1024.

Definition build_response (req_header : Header) (question : Question)
    (answers additionals : list ResourceRecord) (ad : bool) : Message :=
  let h := Header_new_response (h_id req_header) 0 in
  let header := mkHeader (h_id h) (h_qr h) (h_opcode h) (h_aa h) (h_tc h) (h_rd req_header) true
                  (h_z h) ad (h_cd h) (h_rcode h) (h_qdcount h) (h_ancount h) (h_nscount h)
                  (h_arcount h) in
  let cnames := filter (λ rec, rr_rtype rec = 5) answers in
  let finals := filter (λ rec, rr_rtype rec ≠ 5) answers in
  mkMessage header [question] (cnames ++ finals) [] additionals.

Definition client_wants_dnssec (request : Message) : bool :=
  existsb (λ r, bool_decide (rr_rtype r = 41) &&
                bool_decide (Z.land (Z.shiftr (rr_ttl r) 15) 1 = 1)) (m_additionals request).

Definition dnssec_opt_record : ResourceRecord := mkRR [0] 41 4096 (Z.shiftl 1 15) 0 [] None.

Definition extract_zone (name : str) : str :=
  let labels := split_on DOT (trim_end_matches DOT name) in
  if decide (2 <= length labels)%nat
  then nth (length labels - 2) labels [] ++ [DOT] ++ nth (length labels - 1) labels []
  else trim_end_matches DOT name.

Definition quick_error_response (query_data : bytes) (rcode : Z) : DnsResult (option bytes) :=
  if decide (length query_data < 2)%nat then Ok None else
  id ← rd_u16 query_data 0;
  let header := Header_new_response id rcode in
  questions ← (if decide (12 <= length query_data)%nat then
                 a ← idx query_data 4;
                 b ← idx query_data 5;
                 if decide (0 < be16 (Z.land a 15) b) then
                   r ← outcome_ok (Question_from_bytes query_data 12);
                   Ok match r with Some (q, _) => [q] | None => [] end
                 else Ok []
               else Ok []);
  outcome_ok (encode_message (mkMessage header questions [] [] [])).

Definition record_type_name (rtype : Z) : string :=
  match rtype with
  | 1 => "A"
  | 2 => "NS"
  | 5 => "CNAME"
  | 15 => "MX"
  | 16 => "TXT"
  | 28 => "AAAA"
  | 33 => "SRV"
  | 255 => "ANY"
  | _ => "TYPE??"
  end.

(** [e.to_string().contains("NXDOMAIN")] *)
Definition names_nxdomain (e : DnsError.t) : bool :=
  match String.index 0 "NXDOMAIN" (DnsError.fmt e) with Some _ => true | None => false end.

Definition error_rcode (e : DnsError.t) : Z := if names_nxdomain e then 3 else 2.

(** The NXDOMAIN reply, with the SOA in the authority section. *)
Definition nxdomain_response (request : Message) (question : Question)
    (soa : list ResourceRecord) (ad : bool) : Message :=
  let h := Header_new_response (h_id (m_header request)) 3 in
  let header := mkHeader (h_id h) (h_qr h) (h_opcode h) (h_aa h) (h_tc h)
                  (h_rd (m_header request)) true (h_z h) ad (h_cd h) (h_rcode h)
                  (h_qdcount h) (h_ancount h) (h_nscount h) (h_arcount h) in
  let additionals := if client_wants_dnssec request then [dnssec_opt_record] else [] in
  mkMessage header [question] [] soa additionals.

(** [truncated.header.tc = true] and the three [clear]s *)
Definition truncate_response (response : Message) : Message :=
  let h := m_header response in
  mkMessage (mkHeader (h_id h) (h_qr h) (h_opcode h) (h_aa h) true (h_rd h) (h_ra h) (h_z h)
               (h_ad h) (h_cd h) (h_rcode h) (h_qdcount h) (h_ancount h) (h_nscount h)
               (h_arcount h))
    (m_questions response) [] [] [].

(** ** Handlers *)

Section handlers.
Context {S : Type} `{Resolver S}.

(** The records a client that set DO gets in the additional section. *)
Definition dnssec_additionals (resolver : S) (qname : str) (qclass : Z) (wants_dnssec : bool)
    : DnsResult (list ResourceRecord) * S :=
  if wants_dnssec then
    let zone := extract_zone qname in
    let '(keys, resolver) := resolve_with_ad resolver zone 48 qclass in
    match keys with
    | Ok _ | Err _ =>
      let dnskeys := match keys with Ok (dnskeys, _) => dnskeys | _ => [] end in
      let '(rrsigs, resolver) := resolve_dnssec resolver qname 46 qclass in
      (Ok (dnskeys ++ rrsigs ++ [dnssec_opt_record]), resolver)
    | Panic => (Panic, resolver)
    | Diverge => (Diverge, resolver)
    end
  else (Ok [], resolver).

(** The result of a handler. *)
Record handled := mkHandled {
  hd_resolver : S;
  hd_sent : list bytes;
  hd_result : DnsResult unit;
}.

(** [if let Some(response) = r { let _ = socket.send_to(&response, src).await; }; Ok(())] *)
Definition send_reply (resolver : S) (r : DnsResult (option bytes)) : handled :=
  match r with
  | Ok (Some response) => mkHandled resolver [response] (Ok ())
  | Ok None => mkHandled resolver [] (Ok ())
  | Err e => mkHandled resolver [] (Err e)
  | Panic => mkHandled resolver [] Panic
  | Diverge => mkHandled resolver [] Diverge
  end.

Definition handle_query (resolver : S) (query_data : bytes) : handled :=
  match decode_message query_data with
  | Panic => mkHandled resolver [] Panic
  | Diverge => mkHandled resolver [] Diverge
  | Err e => send_reply resolver (quick_error_response query_data 1)
  | Ok request =>
    match h_qr (m_header request), m_questions request with
    | true, _ | _, [] => mkHandled resolver [] (Ok ())
    | false, question :: _ =>
      let qname := Question_name_str question in
      let qtype := q_type question in
      let qclass := q_class question in
      let wants_dnssec := client_wants_dnssec request in
      let '(result, resolver) := resolve_with_ad resolver qname qtype qclass in
      match result with
      | Ok (records, ad_flag) =>
        let '(additionals, resolver) := dnssec_additionals resolver qname qclass wants_dnssec in
        send_reply resolver
          (additionals ← additionals;
           let response := build_response (m_header request) question records additionals
                             (wants_dnssec && ad_flag) in
           response_bytes ← encode_message response;
           if decide (MAX_UDP_PAYLOAD < length response_bytes)%nat then
             truncated_bytes ← encode_message (truncate_response response);
             Ok (Some (take (min (length truncated_bytes) MAX_UDP_PAYLOAD) truncated_bytes))
           else Ok (Some response_bytes))
      | Err (DnsError.NxDomain soa ad) =>
        send_reply resolver
          (outcome_ok (encode_message (nxdomain_response request question soa ad)))
      | Err e => send_reply resolver (quick_error_response query_data (error_rcode e))
      | Panic => mkHandled resolver [] Panic
      | Diverge => mkHandled resolver [] Diverge
      end
    end
  end.
End handlers.
Arguments mkHandled {S}.
Arguments hd_resolver {S}.
Arguments hd_sent {S}.
Arguments hd_result {S}.

(** What the receive loop does with one datagram: hand it to a task that
    runs [handle_query], or reply at once when no permit is left. *)
Inductive recv_action :=
  | SpawnQuery (data : bytes)
  | SendBusy (response : bytes)
  | Drop.

Definition handle_recv (result : nat + io_error) (buf : bytes) (permits : nat)
    : DnsResult recv_action :=
  match result with
  | inl len =>
    data ← slice buf 0 len;
    if decide (0 < permits)%nat then Ok (SpawnQuery data)
    else
      r ← quick_error_response data 2;
      Ok (match r with Some response => SendBusy response | None => Drop end)
  | inr e => Ok Drop
  end.

(** ** TCP (src/server/tcp.rs) *)

(** The stream of the async runtime: exact reads, and writes, which fail
    with an I/O error. *)
Class TcpStream (T : Type) := {
  read_exact : T → nat → (bytes + io_error) * T;
  write_all : T → bytes → option io_error * T;
  flush : T → option io_error * T;
}.

Definition MAX_TCP_MESSAGE : nat := Z.to_nat 65535.
Definition MAX_CONNECTIONS : nat := 512.

Section tcp.
Context {S T : Type} `{Resolver S} `{TcpStream T}.

Definition write_tcp_response (stream : T) (data : bytes) : DnsResult unit * T :=
  if decide (MAX_TCP_MESSAGE < length data)%nat
  then (Err (DnsError.BufferTooSmall (length data) MAX_TCP_MESSAGE), stream)
  else
    let len_prefix := to_be16 (u16 (Z.of_nat (length data))) in
    let buf := len_prefix ++ data in
    let '(r, stream) := write_all stream buf in
    match r with
    | Some e => (Err (DnsError.Io e), stream)
    | None =>
      let '(r, stream) := flush stream in
      match r with
      | Some e => (Err (DnsError.Io e), stream)
      | None => (Ok (), stream)
      end
    end.

(** [map_err] of the two reads *)
Definition read_error (msg : string) (e : io_error) : DnsError.t :=
  match io_err_kind e with
  | IoUnexpectedEof => DnsError.Malformed msg
  | IoOther => DnsError.Io e
  end.

(** The reply to a query that was read in full: [None] when there is none. *)
Definition tcp_reply (resolver : S) (query_data : bytes) : DnsResult (option bytes) * S :=
  match decode_message query_data with
  | Panic => (Panic, resolver)
  | Diverge => (Diverge, resolver)
  | Err e => (quick_error_response query_data 1, resolver)
  | Ok request =>
    match h_qr (m_header request), m_questions request with
    | true, _ | _, [] => (Ok None, resolver)
    | false, question :: _ =>
      let qname := Question_name_str question in
      let qtype := q_type question in
      let qclass := q_class question in
      let wants_dnssec := client_wants_dnssec request in
      let '(result, resolver) := resolve_with_ad resolver qname qtype qclass in
      match result with
      | Ok (records, ad_flag) =>
        let '(additionals, resolver) := dnssec_additionals resolver qname qclass wants_dnssec in
        (additionals ← additionals;
         response_bytes ← encode_message (build_response (m_header request) question records
                            additionals (wants_dnssec && ad_flag));
         Ok (Some response_bytes), resolver)
      | Err (DnsError.NxDomain soa ad) =>
        (bytes ← encode_message (nxdomain_response request question soa ad); Ok (Some bytes),
         resolver)
      | Err e =>
        (r ← quick_error_response query_data (error_rcode e);
         match r with
         | Some response => Ok (Some response)
         | None => Err (DnsError.Malformed "Failed to build error response")
         end, resolver)
      | Panic => (Panic, resolver)
      | Diverge => (Diverge, resolver)
      end
    end
  end.

Definition handle_tcp_connection (stream : T) (resolver : S) : DnsResult unit * T * S :=
  let '(r, stream) := read_exact stream 2 in
  match r with
  | inr e => (Err (read_error "TCP connection closed before length prefix" e), stream, resolver)
  | inl len_buf =>
    let msg_len := Z.to_nat (be16 (nth 0 len_buf 0) (nth 1 len_buf 0)) in
    if decide (MAX_TCP_MESSAGE < msg_len \/ msg_len = 0)%nat
    then (Err (DnsError.Malformed "Invalid TCP message length"), stream, resolver)
    else
      let '(r, stream) := read_exact stream msg_len in
      match r with
      | inr e => (Err (read_error "TCP connection closed before message body" e), stream, resolver)
      | inl query_data =>
        let '(reply, resolver) := tcp_reply resolver query_data in
        match reply with
        | Ok (Some response_bytes) =>
          let '(r, stream) := write_tcp_response stream response_bytes in (r, stream, resolver)
        | Ok None => (Ok (), stream, resolver)
        | Err e => (Err e, stream, resolver)
        | Panic => (Panic, stream, resolver)
        | Diverge => (Diverge, stream, resolver)
        end
      end
  end.
End tcp.

(** ** Replies *)

(** A packet that answers [query]: same id, and the QR bit set. *)
Definition answers_query (query packet : bytes) : Prop :=
  take 2 packet = take 2 query ∧ ∃ b, packet !! 2%nat = Some b ∧ Z.testbit b 7 = true.

Definition rcode_of (packet : bytes) : option Z := (λ b, Z.land b 15) <$> packet !! 3%nat.

Lemma flags_byte_bits h i :
  0 ≤ i < 8 →
  Z.testbit (header_flags h / 256 mod 256) i = Z.testbit (header_flags h) (i + 8) ∧
  Z.testbit (header_flags h mod 256) i = Z.testbit (header_flags h) i.
Proof.
  intros Hi. change 256 with (2 ^ 8). split.
  - rewrite Z.mod_pow2_bits_low by lia. by rewrite Z.div_pow2_bits by lia.
  - by rewrite Z.mod_pow2_bits_low by lia.
Qed.

(** An encoded response answers the query whose id it carries. *)
Lemma encoded_answers query m data :
  to_be16 (h_id (m_header m)) = take 2 query → h_qr (m_header m) = true →
  encode_message m = Ok data → answers_query query data.
Proof.
  intros Hid Hqr (rest & ->)%encode_message_header. unfold header_wire. split.
  - rewrite <-Hid. done.
  - eexists. split; [done|]. rewrite (proj1 (flags_byte_bits _ 7 ltac:(lia))).
    rewrite header_flags_bits by lia. cbn [counted_header h_qr]. by rewrite Hqr.
Qed.

(** The AD bit of an encoded message. *)
Lemma encoded_ad m data b :
  h_rcode (m_header m) < 16 → 0 ≤ h_rcode (m_header m) →
  h_opcode (m_header m) = 0 → h_z (m_header m) = 0 →
  encode_message m = Ok data → data !! 3%nat = Some b → Z.testbit b 5 = h_ad (m_header m).
Proof.
  intros Hr1 Hr2 Ho Hz (rest & ->)%encode_message_header. unfold header_wire. intros [= <-].
  rewrite (proj2 (flags_byte_bits _ 5 ltac:(lia))). rewrite header_flags_bits by lia.
  cbn [counted_header h_qr h_opcode h_aa h_tc h_rd h_ra h_z h_ad h_cd h_rcode]. rewrite Ho, Hz.
  rewrite (testbit_high (h_rcode _) 4) by lia.
  rewrite !(bool_decide_eq_false_2 (5 = _)) by lia. by destruct (h_ad (m_header m)).
Qed.

Lemma decoded_id query request :
  bytes_ok query → decode_message query = Ok request →
  to_be16 (h_id (m_header request)) = take 2 query.
Proof.
  intros Hb (h & Hh & H)%bind_Ok.
  apply bind_Ok in H as ([qs o1] & _ & H). apply bind_Ok in H as ([an o2] & _ & H).
  apply bind_Ok in H as ([au o3] & _ & H). apply bind_Ok in H as ([ad o4] & _ & [= <-]).
  apply Header_from_bytes_ok in Hh as (_ & _ & Hw & _); [|done].
  apply (f_equal (take 2)) in Hw. rewrite take_take in Hw. done.
Qed.

Lemma quick_error_answers query rcode p :
  bytes_ok query → quick_error_response query rcode = Ok (Some p) → answers_query query p.
Proof.
  intros Hb. unfold quick_error_response. case_decide as Hlen; [done|].
  intros (id & Hid & (qs & _ & He)%bind_Ok)%bind_Ok. apply outcome_ok_inv in He.
  apply (encoded_answers query) in He; [done| |done]. cbn.
  destruct query as [|a [|b query]]; [simpl in Hlen; lia..|].
  cbn in Hid. injection Hid as <-. rewrite !bytes_ok_cons in Hb. destruct_and! Hb.
  by rewrite to_be16_be16.
Qed.

Lemma answers_query_take query packet n :
  (3 ≤ n)%nat → answers_query query packet → answers_query query (take n packet).
Proof.
  intros Hn [Ht (b & Hb & Hbit)]. split.
  - rewrite take_take. by replace (2 `min` n)%nat with 2%nat by lia.
  - exists b. split; [|done]. by rewrite lookup_take_lt by lia.
Qed.

(** ** Properties of the servers *)

Section properties.
Context {S : Type} `{Resolver S}.

(** A reply of a chain that ends in an encoding, for the UDP handler. *)
Lemma send_reply_sent (s : S) r p : p ∈ hd_sent (send_reply s r) → r = Ok (Some p).
Proof.
  unfold send_reply. destruct r as [[response|]| | |]; cbn; try (by intros ?%elem_of_nil).
  by intros ->%list_elem_of_singleton.
Qed.

Lemma send_reply_length (s : S) r : (length (hd_sent (send_reply s r)) ≤ 1)%nat.
Proof. unfold send_reply. destruct r as [[response|]| | |]; cbn; lia. Qed.

Lemma truncate_id m : h_id (m_header (truncate_response m)) = h_id (m_header m).
Proof. done. Qed.

(** The UDP handler sends at most one packet for a datagram, and every packet it sends
    carries the id of the query and has the QR bit set, whatever the resolver answers. *)
Theorem udp_replies_answer resolver query :
  bytes_ok query →
  (length (hd_sent (handle_query resolver query)) ≤ 1)%nat ∧
  ∀ p, p ∈ hd_sent (handle_query resolver query) → answers_query query p.
Proof.
  intros Hb. unfold handle_query.
  destruct (decode_message query) as [request|e| |] eqn:Hd;
    try (cbn; split; [lia|by intros p ?%elem_of_nil]).
  2:{ split; [apply send_reply_length|]. intros p Hp%send_reply_sent. by eapply quick_error_answers. }
  pose proof (decoded_id query request Hb Hd) as Hid.
  destruct (h_qr (m_header request)); [cbn; split; [lia|by intros p ?%elem_of_nil]|].
  destruct (m_questions request) as [|question qs]; [cbn; split; [lia|by intros p ?%elem_of_nil]|].
  destruct (resolve_with_ad _ _ _ _) as [[[records ad]|e| |] s'];
    try (cbn; split; [lia|by intros p ?%elem_of_nil]).
  - destruct (dnssec_additionals _ _ _ _) as [adds s''].
    split; [apply send_reply_length|]. intros p Hp%send_reply_sent.
    apply bind_Ok in Hp as (ads & _ & (bs & Henc & Hp)%bind_Ok). case_decide.
    + apply bind_Ok in Hp as (tr & Htr & [= <-]).
      assert (Hans : answers_query query tr) by (by apply (encoded_answers query _ tr) in Htr).
      destruct (decide (3 ≤ min (length tr) MAX_UDP_PAYLOAD)%nat); [by apply answers_query_take|].
      exfalso. apply encode_message_header in Htr as (rest & ->).
      rewrite length_app, header_wire_length in n. unfold MAX_UDP_PAYLOAD in n. lia.
    + injection Hp as <-. by apply (encoded_answers query _ bs) in Henc.
  - destruct e; (split; [apply send_reply_length|]); intros p Hp%send_reply_sent;
      try by eapply quick_error_answers.
    apply outcome_ok_inv in Hp. by apply (encoded_answers query _ p) in Hp.
Qed.

(** The cases of a handler that decoded one question. *)
Lemma handle_query_decoded resolver query request question qs :
  decode_message query = Ok request → h_qr (m_header request) = false →
  m_questions request = question :: qs →
  handle_query resolver query =
  let '(result, s) := resolve_with_ad resolver (Question_name_str question) (q_type question)
                        (q_class question) in
  match result with
  | Ok (records, ad_flag) =>
    let wants := client_wants_dnssec request in
    let '(additionals, s) := dnssec_additionals s (Question_name_str question) (q_class question) wants in
    send_reply s
      (additionals ← additionals;
       let response := build_response (m_header request) question records additionals
                         (wants && ad_flag) in
       response_bytes ← encode_message response;
       if decide (MAX_UDP_PAYLOAD < length response_bytes)%nat then
         truncated_bytes ← encode_message (truncate_response response);
         Ok (Some (take (min (length truncated_bytes) MAX_UDP_PAYLOAD) truncated_bytes))
       else Ok (Some response_bytes))
  | Err (DnsError.NxDomain soa ad) =>
    send_reply s (outcome_ok (encode_message (nxdomain_response request question soa ad)))
  | Err e => send_reply s (quick_error_response query (error_rcode e))
  | Panic => mkHandled s [] Panic
  | Diverge => mkHandled s [] Diverge
  end.
Proof. intros Hd Hqr Hq. unfold handle_query. by rewrite Hd, Hqr, Hq. Qed.

Lemma message_wire_truncate_le m :
  (length (message_wire (truncate_response m)) ≤ length (message_wire m))%nat.
Proof. unfold message_wire. rewrite !length_app. cbn. lia. Qed.

Lemma build_response_exact h q records additionals ad :
  Forall rdlength_exact records → Forall rdlength_exact additionals →
  rdlengths_exact (build_response h q records additionals ad).
Proof.
  intros Hr Ha. split_and!; [|constructor|done]. cbn. apply Forall_app.
  rewrite Forall_forall in Hr. split; apply Forall_forall; intros r [_ Hin]%list_elem_of_filter; auto.
Qed.
Lemma truncate_exact m : rdlengths_exact (truncate_response m).
Proof. repeat constructor. Qed.

(** What a client that has set DO gets besides the answer: the keys of its zone, as far as they
    can be resolved, the cached signatures for the name, and an OPT record with the DO bit and a
    payload of 4096 bytes; another client gets nothing. *)
Inductive additional_records (s : S) (qname : str) (qclass : Z) : bool → list ResourceRecord → S → Prop :=
  | no_additionals : additional_records s qname qclass false [] s
  | dnssec_records keys s1 rrsigs s2 :
    resolve_with_ad s (extract_zone qname) 48 qclass = (keys, s1) → keys ≠ Panic → keys ≠ Diverge →
    resolve_dnssec s1 qname 46 qclass = (rrsigs, s2) →
    additional_records s qname qclass true
      (match keys with Ok (dnskeys, _) => dnskeys | _ => [] end ++ rrsigs ++ [mkRR [0] 41 4096 32768 0 [] None]) s2.

Lemma dnssec_additionals_records s qname qclass wants additionals s' :
  additional_records s qname qclass wants additionals s' →
  dnssec_additionals s qname qclass wants = (Ok additionals, s').
Proof. destruct 1 as [|keys s1 rrsigs s2 Ek Hp Hd Er]; [done|]. cbn. rewrite Ek, Er. by destruct keys as [[]| | |]. Qed.

(** The reply to a question of a request: a response to its id with recursion available, RD and
    the question echoed, and AD for a client that has set DO and an answer that is vouched for; with
    the records, CNAMEs first, or none and the TC bit. *)
Definition full_reply (request : Message) (question : Question) (records additionals : list ResourceRecord) (ad : bool)
    : Message :=
  mkMessage (mkHeader (h_id (m_header request)) true 0 false false (h_rd (m_header request)) true 0 ad false 0 0 0 0 0)
    [question] (filter (λ r, rr_rtype r = 5) records ++ filter (λ r, rr_rtype r ≠ 5) records) [] additionals.
Definition cut_reply (request : Message) (question : Question) (ad : bool) : Message :=
  mkMessage (mkHeader (h_id (m_header request)) true 0 false true (h_rd (m_header request)) true 0 ad false 0 0 0 0 0)
    [question] [] [] [].

(** C7: the reply to a question that the resolver answers, as the bytes that are sent: all the
    records of the answer, CNAMEs first and in the order of each kind, with what a client that has
    set DO gets besides, as one packet of at most 4096 bytes; a longer reply is replaced by the bare
    question with the TC bit; and when the full reply does not even fit the 8192-byte encoding
    buffer, nothing is sent at all. *)
Theorem udp_answer_spec resolver s s' query request question qs records ad additionals :
  decode_message query = Ok request → h_qr (m_header request) = false →
  m_questions request = question :: qs →
  resolve_with_ad resolver (Question_name_str question) (q_type question) (q_class question) =
    (Ok (records, ad), s) →
  additional_records s (Question_name_str question) (q_class question) (client_wants_dnssec request) additionals s' →
  Forall rdlength_exact (records ++ additionals) →
  let full := full_reply request question records additionals (client_wants_dnssec request && ad) in
  let cut := cut_reply request question (client_wants_dnssec request && ad) in
  m_answers full ≡ₚ records ∧
  hd_resolver (handle_query resolver query) = s' ∧
  if decide (MAX_DNS_MESSAGE_SIZE < length (message_wire full))%nat then
    hd_sent (handle_query resolver query) = [] ∧
    ∃ need have, hd_result (handle_query resolver query) = Err (DnsError.BufferTooSmall need have)
  else if decide (MAX_UDP_PAYLOAD < length (message_wire full))%nat then
    hd_sent (handle_query resolver query) = [take MAX_UDP_PAYLOAD (message_wire cut)]
  else hd_sent (handle_query resolver query) = [message_wire full].
Proof.
  intros Hd Hqr Hq Hres Hadd [Hr Ha]%Forall_app full cut. split.
  { cbn. apply filter_partition_perm. }
  rewrite (handle_query_decoded _ _ _ _ _ Hd Hqr Hq), Hres. cbv zeta beta iota.
  rewrite (dnssec_additionals_records _ _ _ _ _ _ Hadd). cbn [mbind outcome_bind].
  change (build_response _ _ _ _ _) with full. change (truncate_response full) with cut.
  assert (rdlengths_exact full) as Hex by by apply build_response_exact.
  pose proof (encode_message_wire full Hex) as He.
  pose proof (encode_message_wire cut (truncate_exact full)) as Ht.
  pose proof (message_wire_truncate_le full : length (message_wire cut) ≤ _)%nat as Hle.
  destruct (decide (MAX_DNS_MESSAGE_SIZE < length (message_wire full))%nat).
  - destruct He as (n & h & -> & _). cbn. split; [done|]. split; [done|]. by exists n, h.
  - rewrite decide_False in Ht by lia. rewrite He. cbn [mbind outcome_bind]. case_decide; [|done].
    rewrite Ht. cbn [mbind outcome_bind send_reply hd_resolver hd_sent]. split; [done|]. f_equal.
    destruct (decide (length (message_wire cut) ≤ MAX_UDP_PAYLOAD)%nat).
    + rewrite Nat.min_l by done. by rewrite !take_ge by lia.
    + by rewrite Nat.min_r by lia.
Qed.

(** The AD bit of a UDP reply: on a positive answer it is set only when the client set DO
    and the resolver vouches for the answer; on NXDOMAIN it follows the resolver alone, whether
    or not the client asked. *)
Theorem udp_ad_bit resolver s query request question qs p b :
  decode_message query = Ok request → h_qr (m_header request) = false →
  m_questions request = question :: qs →
  p ∈ hd_sent (handle_query resolver query) → p !! 3%nat = Some b →
  (∀ records ad,
     resolve_with_ad resolver (Question_name_str question) (q_type question) (q_class question) =
       (Ok (records, ad), s) →
     Z.testbit b 5 = client_wants_dnssec request && ad) ∧
  (∀ soa ad,
     resolve_with_ad resolver (Question_name_str question) (q_type question) (q_class question) =
       (Err (DnsError.NxDomain soa ad), s) →
     Z.testbit b 5 = ad).
Proof.
  intros Hd Hqr Hq Hp Hb. rewrite (handle_query_decoded _ _ _ _ _ Hd Hqr Hq) in Hp.
  split; [intros records ad Hres|intros soa ad Hres]; rewrite Hres in Hp; cbn zeta iota beta in Hp.
  - destruct (dnssec_additionals _ _ _ _) as [adds s'']. apply send_reply_sent in Hp.
    apply bind_Ok in Hp as (ads & _ & (bs & Henc & Hp)%bind_Ok). case_decide.
    + apply bind_Ok in Hp as (tr & Htr & [= <-]).
      rewrite lookup_take_Some in Hb. destruct Hb as [Hb _].
      by apply (encoded_ad _ _ b) in Htr.
    + injection Hp as <-. by apply (encoded_ad _ _ b) in Henc.
  - apply send_reply_sent, outcome_ok_inv in Hp. by apply (encoded_ad _ _ b) in Hp.
Qed.

(** UDP and TCP give the same answer: they leave the resolver in the same state, they
    agree on when there is no reply, and a reply that TCP sends in at most 4096 bytes is the
    packet that UDP sends. *)
Theorem udp_tcp_agree resolver query :
  let u := handle_query resolver query in
  let '(t, s) := tcp_reply resolver query in
  hd_resolver u = s ∧ (t = Ok None → hd_sent u = []) ∧
  ∀ p, t = Ok (Some p) → (length p ≤ MAX_UDP_PAYLOAD)%nat → hd_sent u = [p] ∧ hd_result u = Ok ().
Proof.
  cbn zeta. unfold handle_query, tcp_reply.
  assert (Hsr : ∀ (s : S) r, hd_resolver (send_reply s r) = s)
    by (intros s r; by destruct r as [[]| | |]).
  destruct (decode_message query) as [request|e| |]; try done.
  2:{ split; [apply Hsr|]. split; [by intros ->|by intros p ->]. }
  destruct (h_qr (m_header request)); [done|]. destruct (m_questions request) as [|question qs]; [done|].
  destruct (resolve_with_ad _ _ _ _) as [[[records ad]|e| |] s']; try done.
  - destruct (dnssec_additionals _ _ _ _) as [adds s'']. split; [apply Hsr|].
    destruct adds as [adds| | |]; cbn [mbind outcome_bind]; try done.
    destruct (encode_message _) as [bs| | |]; cbn [mbind outcome_bind]; try done.
    split; [done|]. intros p [= <-] Hp. by rewrite decide_False by lia.
  - assert (Hquick : ∀ r : DnsResult (option bytes),
      (r ≫= (λ o, match o with Some x => Ok (Some x) | None => Err (DnsError.Malformed
                 "Failed to build error response") end) = Ok None → hd_sent (send_reply s' r) = []) ∧
      ∀ p, r ≫= (λ o, match o with Some x => Ok (Some x) | None => Err (DnsError.Malformed
                 "Failed to build error response") end) = Ok (Some p) →
        (length p ≤ MAX_UDP_PAYLOAD)%nat →
        hd_sent (send_reply s' r) = [p] ∧ hd_result (send_reply s' r) = Ok ())
      by (intros [[]| | |]; split; try done; by intros p [= <-]).
    destruct e; (split; [apply Hsr|]); try apply Hquick.
    destruct (encode_message _) as [bs| | |]; split; try done; by intros p [= <-].
Qed.
End properties.

(** ** The receive loop and the TCP framing *)

(** With a permit free the datagram goes to a task; without one the server answers at once,
    with the id of the query and SERVFAIL, unless the datagram has no id to echo. *)
Theorem handle_recv_spec len buf permits :
  bytes_ok buf → (len ≤ length buf)%nat →
  ((0 < permits)%nat → handle_recv (inl len) buf permits = Ok (SpawnQuery (take len buf))) ∧
  (permits = 0%nat → ∀ r, handle_recv (inl len) buf permits = Ok r →
     ((len < 2)%nat → r = Drop) ∧
     (r = Drop ∨ ∃ p, r = SendBusy p ∧ answers_query (take len buf) p ∧ rcode_of p = Some 2)).
Proof.
  intros Hb Hlen. unfold handle_recv. rewrite slice_in_range, drop_0, Nat.sub_0_r by lia.
  cbn [mbind outcome_bind]. split.
  { intros Hp. by rewrite decide_True. }
  intros -> r. rewrite decide_False by lia. intros (o & Hq & [= <-])%bind_Ok. split.
  - intros Hlt. unfold quick_error_response in Hq.
    rewrite decide_True in Hq by (rewrite length_take; lia). by injection Hq as <-.
  - destruct o as [p|]; [|by left]. right. exists p. split; [done|]. split.
    { eapply quick_error_answers; [|exact Hq]. auto with width. }
    unfold quick_error_response in Hq. case_decide; [done|].
    apply bind_Ok in Hq as (id & _ & (qs & _ & He)%bind_Ok). apply outcome_ok_inv in He.
    apply encode_message_header in He as (rest & ->). unfold rcode_of, header_wire. cbn.
    f_equal.
Qed.

(** A stream in memory: what is left to read, and what was written. *)
Record mem_stream := mkMem { ms_input : bytes; ms_output : bytes }.

#[export] Instance mem_tcp : TcpStream mem_stream := {
  read_exact st n :=
    if decide (n <= length (ms_input st))%nat
    then (inl (take n (ms_input st)), mkMem (drop n (ms_input st)) (ms_output st))
    else (inr (mkIoError IoUnexpectedEof "failed to fill whole buffer"), mkMem [] (ms_output st));
  write_all st data := (None, mkMem (ms_input st) (ms_output st ++ data));
  flush st := (None, st);
}.

(** The framing of RFC 1035 section 4.2.2. *)
Definition tcp_frame (data : bytes) : bytes := to_be16 (Z.of_nat (length data)) ++ data.

(** On a stream that holds a framed query the TCP handler consumes exactly that frame and
    writes the frame of the reply, from which reading two bytes and then as many as they say
    gives the reply back; a stream that ends early, or a length of zero, is an error and nothing
    is written. *)
Theorem tcp_framing {S} `{Resolver S} (resolver s : S) query rest out reply :
  (0 < length query ≤ MAX_TCP_MESSAGE)%nat →
  (tcp_reply resolver query = (Ok (Some reply), s) → (length reply ≤ MAX_TCP_MESSAGE)%nat →
   handle_tcp_connection (mkMem (tcp_frame query ++ rest) out) resolver =
     (Ok (), mkMem rest (out ++ tcp_frame reply), s) ∧
   rd_u16 (E:=DnsError.t) (tcp_frame reply) 0 = Ok (Z.of_nat (length reply)) ∧
   drop 2 (tcp_frame reply) = reply) ∧
  (∀ input n body,
     (length input < 2)%nat ∨
     (input = to_be16 n ++ body ∧ is_u16 n ∧ (n = 0 ∨ Z.of_nat (length body) < n)) →
     ∃ msg input', handle_tcp_connection (mkMem input out) resolver =
       (Err (DnsError.Malformed msg), mkMem input' out, resolver)).
Proof.
  intros Hq. assert (Hmax : Z.of_nat MAX_TCP_MESSAGE = 65535) by done.
  assert (H16 : ∀ n, is_u16 n → be16 (nth 0 (to_be16 n) 0) (nth 1 (to_be16 n) 0) = n)
    by (intros; by apply be16_to_be16).
  assert (Htake : ∀ n body, take 2 (to_be16 n ++ body) = to_be16 n) by done.
  unfold handle_tcp_connection. split.
  - intros Ht Hr. unfold tcp_frame. rewrite <-app_assoc. cbn [read_exact mem_tcp ms_input ms_output].
    rewrite decide_True by (rewrite !length_app; simpl; lia). rewrite Htake, H16 by width.
    rewrite Nat2Z.id. rewrite decide_False by lia. cbn [ms_input].
    change (drop 2 (to_be16 (Z.of_nat (length query)) ++ query ++ rest)) with (query ++ rest).
    rewrite decide_True by (rewrite length_app; lia). rewrite take_app_length, drop_app_length, Ht.
    unfold write_tcp_response. rewrite decide_False by lia.
    cbn [write_all flush mem_tcp ms_input ms_output]. rewrite u16_id by width.
    split; [done|]. split; [|done]. apply (rd_u16_drop _ _ _ reply); [done|width].
  - intros input n body Hin. cbn [read_exact mem_tcp ms_input ms_output]. case_decide as H2.
    2:{ eexists _, _. reflexivity. }
    destruct Hin as [?|(-> & Hn & Hbad)]; [lia|]. rewrite Htake, H16 by done. case_decide as Hlen.
    { eexists _, _. reflexivity. }
    change (drop 2 (to_be16 n ++ body)) with body. cbn [ms_input].
    rewrite decide_False by width. eexists _, _. reflexivity.
Qed.

(** *** Concrete inputs *)

(** A resolver that always gives the same answer. *)
Record canned := mkCanned { canned_answer : DnsResult (list ResourceRecord * bool) }.
#[export] Instance canned_resolver : Resolver canned := {
  resolve_with_ad s _ _ _ := (canned_answer s, s);
  resolve_dnssec s _ _ _ := ([], s);
}.

Definition sample_answer : canned :=
  mkCanned (Ok ([mkRR [1; 97; 0] 1 1 300 4 [192; 0; 2; 1] None; mkRR [1; 97; 0] 5 1 9 2 [1; 0] None],
                true)).
Definition sample_query_bytes : bytes := [0; 7; 1; 0; 0; 1; 0; 0; 0; 0; 0; 0; 1; 97; 0; 0; 1; 0; 1].
Definition sample_request : Message :=
  mkMessage (mkHeader 7 false 0 false false true false 0 false false 0 1 0 0 0)
    [mkQuestion [1; 97; 0] 1 1] [] [] [].

Lemma udp_replies_answer_witness :
  (∀ p, p ∈ hd_sent (handle_query sample_answer sample_query_bytes) → answers_query sample_query_bytes p) ∧
  length (hd_sent (handle_query sample_answer sample_query_bytes)) = 1%nat.
Proof.
  split; [|by vm_compute]. apply udp_replies_answer. repeat constructor; by vm_compute.
Defined.

Lemma udp_answer_spec_witness :
  hd_sent (handle_query sample_answer sample_query_bytes) =
    [message_wire (full_reply sample_request (mkQuestion [1; 97; 0] 1 1)
      [mkRR [1; 97; 0] 1 1 300 4 [192; 0; 2; 1] None; mkRR [1; 97; 0] 5 1 9 2 [1; 0] None] [] false)].
Proof.
  assert (Hd : decode_message sample_query_bytes = Ok sample_request) by (by vm_compute).
  assert (Hex : Forall rdlength_exact ([mkRR [1; 97; 0] 1 1 300 4 [192; 0; 2; 1] None;
    mkRR [1; 97; 0] 5 1 9 2 [1; 0] None] ++ [])) by (repeat constructor).
  destruct (udp_answer_spec (H:=canned_resolver) sample_answer sample_answer sample_answer sample_query_bytes sample_request
    (mkQuestion [1; 97; 0] 1 1) []
    [mkRR [1; 97; 0] 1 1 300 4 [192; 0; 2; 1] None; mkRR [1; 97; 0] 5 1 9 2 [1; 0] None] true []
    Hd eq_refl eq_refl eq_refl ltac:(apply no_additionals) Hex)
    as (_ & _ & H).
  rewrite !decide_False in H by (apply Nat.nlt_ge, Nat.leb_le; by vm_compute). exact H.
Defined.

Lemma udp_ad_bit_witness :
  ∃ p b, p ∈ hd_sent (handle_query sample_answer sample_query_bytes) ∧ p !! 3%nat = Some b ∧
         Z.testbit b 5 = false.
Proof.
  assert (Hd : decode_message sample_query_bytes = Ok sample_request) by (by vm_compute).
  destruct (hd_sent (handle_query sample_answer sample_query_bytes)) as [|p l] eqn:E;
    [by vm_compute in E|].
  exists p, 128. assert (Hp : p !! 3%nat = Some 128) by (vm_compute in E; by injection E as <- _).
  split; [by left|]. split; [exact Hp|].
  apply (udp_ad_bit sample_answer sample_answer sample_query_bytes sample_request
    (mkQuestion [1; 97; 0] 1 1) [] p 128 Hd eq_refl eq_refl) with
    (records := [mkRR [1; 97; 0] 1 1 300 4 [192; 0; 2; 1] None; mkRR [1; 97; 0] 5 1 9 2 [1; 0] None])
    (ad := true); [rewrite E; by left|exact Hp|reflexivity].
Defined.

Lemma handle_recv_spec_witness :
  handle_recv (inl 3%nat) [0; 7; 1; 0] 1 = Ok (SpawnQuery [0; 7; 1]) ∧
  (∀ r, handle_recv (inl 3%nat) [0; 7; 1; 0] 0 = Ok r →
     r = Drop ∨ ∃ p, r = SendBusy p ∧ answers_query [0; 7; 1] p ∧ rcode_of p = Some 2).
Proof.
  assert (Hb : bytes_ok [0; 7; 1; 0]) by (repeat constructor; by vm_compute).
  split.
  - apply (handle_recv_spec 3 [0; 7; 1; 0] 1 Hb); simpl; lia.
  - intros r Hr. apply (handle_recv_spec 3 [0; 7; 1; 0] 0 Hb); [simpl; lia|done|exact Hr].
Defined.

Lemma tcp_framing_witness :
  ∃ reply, handle_tcp_connection (mkMem (tcp_frame sample_query_bytes ++ [1]) []) sample_answer =
    (Ok (), mkMem [1] ([] ++ tcp_frame reply), sample_answer).
Proof.
  destruct (tcp_reply sample_answer sample_query_bytes) as [[[reply|]| | |] s] eqn:E;
    try (by vm_compute in E).
  exists reply.
  apply (tcp_framing sample_answer sample_answer sample_query_bytes [1] [] reply).
  - split; [simpl; lia|]. apply Nat.leb_le. by vm_compute.
  - vm_compute in E. injection E as <- _. by vm_compute.
  - vm_compute in E. injection E as <- _. apply Nat.leb_le. by vm_compute.
Defined.
