(* ===== verification/Dnssec.v ===== *)
(** * DNSSEC: keys, signatures and the canonical form (src/dnssec/mod.rs, lines 24-605, 755-1237,
    1775-1958)

    The cryptographic libraries are a class [Crypto]: the source only calls
    them.  Everything around the calls, which key a signature is checked
    with, over which bytes, and what counts as verified, is modelled. *)

From stdpp Require Import strings.
From S2P Require Import Prelude Order Constants Str Types Names NameCodec Rdata Message.
#[local] Open Scope Z_scope.

(** ** The cryptographic libraries *)

Class Crypto := {
  (** [ring]'s [RsaPublicKeyComponents::verify]: modulus, exponent, data, signature. *)
  rsa_pkcs1_sha256_verify : bytes → bytes → bytes → bytes → bool;
  (** [ring]'s fixed-width ECDSA verification: uncompressed point, data, signature. *)
  ecdsa_p256_fixed_verify : bytes → bytes → bytes → bool;
  ecdsa_p384_fixed_verify : bytes → bytes → bytes → bool;
  (** [p256] and [p384]: keys in SEC1 form and signatures in DER, when they parse. *)
  p256_key : Type; p256_sig : Type;
  p256_from_sec1 : bytes → option p256_key;
  p256_sig_from_der : bytes → option p256_sig;
  p256_verify : p256_key → bytes → p256_sig → bool;
  p384_key : Type; p384_sig : Type;
  p384_from_sec1 : bytes → option p384_key;
  p384_sig_from_der : bytes → option p384_sig;
  p384_verify : p384_key → bytes → p384_sig → bool;
  (** [ed25519_dalek]: a 32-byte key, when it is a point, and a 64-byte signature. *)
  ed25519_key : Type;
  ed25519_from_bytes : bytes → option ed25519_key;
  ed25519_verify : ed25519_key → bytes → bytes → bool;
  (** [ring::digest]. *)
  sha1 : bytes → bytes;
  sha256 : bytes → bytes;
  sha384 : bytes → bytes;
}.

(** ** Data *)

Module ValidationResult.
Inductive t : Type :=
  | Secure
  | Insecure
  | Bogus (reason : string)
  | Indeterminate.
#[global] Instance t_eq_dec : EqDecision t.
Proof. solve_decision. Defined.
End ValidationResult.

Module DnssecStatus.
Inductive t : Type := Secure | Insecure | Bogus | Indeterminate.
#[global] Instance t_eq_dec : EqDecision t.
Proof. solve_decision. Defined.
End DnssecStatus.

Definition MAX_CHAIN_DEPTH : Z := 10.
Definition ROOT_KSK_ALGORITHM : Z := 8.
Definition ROOT_KSK_FLAGS : Z := 257.

Definition ROOT_KSK_2017_PUBLIC_KEY : bytes := [
  3; 1; 0; 1; 172; 255; 180; 9; 188; 201; 57; 248; 49; 247; 161; 229; 236; 136; 247; 165; 146;
   85; 236; 83; 4; 11; 228; 50; 2; 115; 144; 164; 206; 137; 109; 111; 144; 134; 243; 197; 225;
   119; 251; 254; 17; 129; 99; 170; 236; 122; 241; 70; 44; 71; 148; 89; 68; 196; 226; 192; 38;
   190; 94; 152; 187; 205; 237; 37; 151; 130; 114; 225; 227; 224; 121; 197; 9; 77; 87; 63; 14;
   131; 201; 47; 2; 179; 45; 53; 19; 177; 85; 11; 130; 105; 41; 200; 13; 208; 249; 44; 172;
   150; 109; 23; 118; 159; 213; 134; 123; 100; 124; 63; 56; 2; 154; 189; 196; 129; 82; 235;
   143; 32; 113; 89; 236; 197; 210; 50; 199; 193; 83; 124; 121; 244; 183; 172; 40; 255; 17;
   104; 47; 33; 104; 27; 246; 214; 171; 165; 85; 3; 43; 246; 249; 240; 54; 190; 178; 170; 165;
   179; 119; 141; 110; 235; 251; 166; 191; 158; 161; 145; 190; 74; 176; 202; 234; 117; 158; 47;
   119; 58; 31; 144; 41; 199; 62; 203; 141; 87; 53; 185; 50; 29; 176; 133; 241; 184; 226; 216;
   3; 143; 226; 148; 25; 146; 84; 140; 238; 13; 103; 221; 69; 71; 225; 29; 214; 58; 249; 201;
   252; 28; 84; 102; 251; 104; 76; 240; 9; 215; 25; 124; 44; 247; 158; 121; 42; 181; 1; 230;
   168; 161; 202; 81; 154; 242; 203; 155; 95; 99; 103; 233; 76; 13; 71; 80; 36; 81; 53; 123;
   225; 181].

Definition ROOT_KSK_2024_PUBLIC_KEY : bytes := [
  3; 1; 0; 1; 175; 122; 141; 235; 164; 157; 153; 90; 121; 42; 239; 200; 2; 99; 233; 145; 239;
   219; 200; 97; 56; 169; 49; 222; 178; 198; 93; 86; 130; 234; 181; 211; 176; 55; 56; 227; 223;
   220; 137; 217; 109; 166; 76; 134; 192; 34; 77; 156; 224; 37; 20; 210; 133; 218; 48; 104;
   177; 144; 84; 229; 231; 135; 178; 150; 144; 88; 233; 142; 18; 86; 108; 140; 128; 140; 64;
   192; 183; 105; 225; 219; 26; 36; 161; 189; 155; 49; 227; 3; 24; 74; 49; 252; 123; 181; 107;
   133; 187; 186; 138; 188; 2; 205; 80; 64; 164; 68; 163; 109; 71; 105; 89; 105; 132; 158; 22;
   173; 133; 107; 181; 142; 143; 172; 136; 85; 34; 68; 0; 49; 155; 218; 178; 36; 216; 63; 192;
   230; 106; 171; 50; 255; 116; 191; 234; 240; 249; 28; 69; 78; 104; 80; 161; 41; 82; 7; 187;
   212; 205; 222; 143; 111; 251; 8; 250; 169; 117; 92; 46; 50; 132; 239; 160; 31; 153; 57; 62;
   24; 120; 108; 177; 50; 241; 230; 110; 188; 101; 23; 49; 142; 28; 232; 163; 183; 51; 126;
   187; 84; 208; 53; 171; 87; 217; 112; 110; 205; 147; 80; 212; 175; 172; 216; 37; 228; 60;
   134; 104; 238; 206; 137; 129; 156; 175; 104; 23; 175; 98; 220; 79; 189; 130; 240; 227; 63;
   102; 71; 178; 182; 189; 161; 117; 241; 70; 7; 245; 159; 70; 53; 69; 30; 107; 39; 223; 40;
   46; 247; 61; 135].

Definition trust_anchor (public_key : bytes) : ResourceRecord :=
  mkRR [0] 48 1 172800 (u16 (u16 (Z.of_nat (length public_key)) + 4))
    (to_be16 ROOT_KSK_FLAGS ++ [3] ++ [ROOT_KSK_ALGORITHM] ++ public_key)
    (Some (RData.DNSKEY ROOT_KSK_FLAGS 3 ROOT_KSK_ALGORITHM public_key)).

Definition TRUST_ANCHORS : list ResourceRecord :=
  map trust_anchor [ROOT_KSK_2017_PUBLIC_KEY; ROOT_KSK_2024_PUBLIC_KEY].

(** ** Keys *)

(** The loop over the 16-bit words of the RDATA; the accumulator is a [u32]
    whose additions are checked, [None] being the overflow. *)
Fixpoint key_tag_sum (i : nat) (ac : Z) (rdata : bytes) : option Z :=
  match rdata with
  | [] => Some ac
  | byte :: rdata =>
    let ac := ac + (if decide (i mod 2 = 0)%nat then u32 (Z.shiftl byte 8) else byte) in
    if decide (ac < 2 ^ 32) then key_tag_sum (S i) ac rdata else None
  end.

Definition dnskey_rdata (flags protocol algorithm : Z) (public_key : bytes) : bytes :=
  [u8 (Z.shiftr flags 8)] ++ [u8 (Z.land flags 255)] ++ [protocol] ++ [algorithm] ++ public_key.

Definition compute_key_tag_checked (flags protocol algorithm : Z) (public_key : bytes) : option Z :=
  ac ← key_tag_sum 0 0 (dnskey_rdata flags protocol algorithm public_key);
  let ac := ac + Z.land (Z.shiftr ac 16) 65535 in
  if decide (ac < 2 ^ 32) then Some (u16 (Z.land ac 65535)) else None.

(** [compute_key_tag], whose additions never overflow on a key that fits a
    record ([compute_key_tag_total] below). *)
Definition compute_key_tag (flags protocol algorithm : Z) (public_key : bytes) : Z :=
  default 0 (compute_key_tag_checked flags protocol algorithm public_key).

(** The exponent and the modulus of an RFC 3110 key. *)
Definition rsa_components (public_key : bytes) : option (bytes * bytes) :=
  match public_key with
  | [] => None
  | b0 :: _ =>
    '(exp_len, exp_start) ←
      (if decide (b0 = 0) then
         if decide (length public_key < 3)%nat then None
         else Some (Z.to_nat (be16 (nth 1 public_key 0) (nth 2 public_key 0)), 3%nat)
       else Some (Z.to_nat b0, 1%nat));
    if decide (length public_key < exp_start + exp_len)%nat then None else
    let exponent := take exp_len (drop exp_start public_key) in
    let modulus := drop (exp_start + exp_len) public_key in
    if decide (modulus = []) then None else Some (exponent, modulus)
  end.

Definition asn1_length (len : nat) : bytes :=
  let n := Z.of_nat len in
  if decide (n < 128) then [u8 n]
  else if decide (n < 256) then [129; u8 n]
  else [130; u8 (Z.shiftr n 8); u8 (Z.land n 255)].

Fixpoint strip_zeros (l : bytes) : bytes :=
  match l with
  | [] => []
  | b :: l' => if decide (b = 0) then strip_zeros l' else l
  end.

Definition asn1_integer (l : bytes) : bytes :=
  let stripped := if decide (strip_zeros l = []) then [0] else strip_zeros l in
  let needs_pad := bool_decide (Z.land (nth 0 stripped 0) 128 ≠ 0) in
  let len := (length stripped + (if needs_pad then 1 else 0))%nat in
  [2] ++ asn1_length len ++ (if needs_pad then [0] else []) ++ stripped.

Definition rsa_dnskey_to_der (public_key : bytes) : option bytes :=
  '(exponent, modulus) ← rsa_components public_key;
  let mod_der := asn1_integer modulus in
  let exp_der := asn1_integer exponent in
  Some ([48] ++ asn1_length (length mod_der + length exp_der) ++ mod_der ++ exp_der).

(** Same DNSKEY identity: algorithm and public key. *)
Definition same_dnskey (a b : ResourceRecord) : bool :=
  match rr_parsed a, rr_parsed b with
  | Some (RData.DNSKEY _ _ aa ak), Some (RData.DNSKEY _ _ ba bk) =>
    bool_decide (aa = ba) && bool_decide (ak = bk)
  | _, _ => false
  end.

(** ** The canonical form *)

(** The loop of [name_to_wire] that lowers each label in place. *)
Fixpoint lower_loop (fuel : nat) (encoded : bytes) (i : nat) : DnsResult bytes :=
  match fuel with
  | O => Ok encoded
  | S fuel =>
    match encoded !! i with
    | None => Ok encoded
    | Some b =>
      let label_len := Z.to_nat b in
      if decide (label_len = 0)%nat then Ok encoded else
      let i := (i + 1)%nat in
      let end_ := (i + label_len)%nat in
      label ← slice encoded i end_;
      lower_loop fuel (take i encoded ++ ascii_lower label ++ drop end_ encoded) end_
    end
  end.

Definition name_to_wire_result (name : str) : DnsResult bytes :=
  encoded ← (match encode_domain_name name with Err _ => Ok [] | r => r end);
  lower_loop (S (length encoded)) encoded 0.

(** [name_to_wire]; its loop never slices out of range
    ([name_to_wire_spec] below). *)
Definition name_to_wire (name : str) : bytes :=
  match name_to_wire_result name with Ok w => w | _ => [] end.

Definition record_rdata_canonical (record : ResourceRecord) : bytes :=
  match rr_parsed record with
  | Some (RData.A addr) => addr
  | Some (RData.AAAA addr) => addr
  | Some (RData.NS host) | Some (RData.CNAME host) | Some (RData.PTR host) =>
    name_to_wire (labels_to_string host)
  | Some (RData.MX preference exchange) =>
    to_be16 preference ++ name_to_wire (labels_to_string exchange)
  | Some (RData.DNSKEY flags protocol algorithm public_key) =>
    to_be16 flags ++ [protocol] ++ [algorithm] ++ public_key
  | Some (RData.DS key_tag algorithm digest_type digest) =>
    to_be16 key_tag ++ [algorithm] ++ [digest_type] ++ digest
  | Some (RData.NSEC next_domain type_bit_maps) =>
    name_to_wire (labels_to_string next_domain) ++ type_bit_maps
  | Some (RData.SOA mname rname serial refresh retry expire minimum) =>
    name_to_wire (labels_to_string mname) ++ name_to_wire (labels_to_string rname) ++
    to_be32 serial ++ to_be32 refresh ++ to_be32 retry ++ to_be32 expire ++ to_be32 minimum
  | Some (RData.TXT strings) => concat (map (λ s, (u8 (Z.of_nat (length s))) :: s) strings)
  | Some (RData.Unknown original) => original
  | Some (RData.RRSIG _ _ _ _ _ _ _ _ _) => []
  | _ => []
  end.

Definition record_to_canonical_wire (record : ResourceRecord) (original_ttl : Z) : bytes :=
  let rdata := record_rdata_canonical record in
  name_to_wire (labels_to_string (rr_name record)) ++ to_be16 (rr_rtype record) ++
  to_be16 (rr_rclass record) ++ to_be32 original_ttl ++
  to_be16 (u16 (Z.of_nat (length rdata))) ++ rdata.

Definition build_signed_data (rrsig : ResourceRecord) (rrset : list ResourceRecord) : bytes :=
  match rr_parsed rrsig with
  | Some (RData.RRSIG type_covered algorithm labels original_ttl signature_expiration
            signature_inception key_tag signer_name signature) =>
    let canonical_records := map (λ r, record_to_canonical_wire r original_ttl) rrset in
    to_be16 type_covered ++ [algorithm] ++ [labels] ++ to_be32 original_ttl ++
    to_be32 signature_expiration ++ to_be32 signature_inception ++ to_be16 key_tag ++
    name_to_wire (labels_to_string signer_name) ++ concat (sort_bytes canonical_records)
  | _ => []
  end.

Definition is_RRSIG (r : ResourceRecord) : bool :=
  match rr_parsed r with Some (RData.RRSIG _ _ _ _ _ _ _ _ _) => true | _ => false end.

(** [groups.iter_mut().find(..)] and the push into the group found. *)
Fixpoint push_group (record : ResourceRecord)
    (groups : list (bytes * Z * list ResourceRecord)) : list (bytes * Z * list ResourceRecord) :=
  match groups with
  | [] => [(rr_name record, rr_rtype record, [record])]
  | (d, t, rs) :: groups =>
    if decide (d = rr_name record ∧ t = rr_rtype record)
    then (d, t, rs ++ [record]) :: groups
    else (d, t, rs) :: push_group record groups
  end.

Definition group_rrsets (records : list ResourceRecord) : list (bytes * Z * list ResourceRecord) :=
  foldl (λ groups record, if is_RRSIG record then groups else push_group record groups) [] records.

(** [now] is the wall clock in seconds, truncated to 32 bits. *)
Definition is_rrsig_time_valid (now expiration inception : Z) : bool :=
  let FUDGE := 300 in
  let now := u32 now in
  let inception_ok := bool_decide (u32 (now - inception) < 2 ^ 31) in
  let expiration_ok := bool_decide (u32 (expiration - now) < 2 ^ 31) in
  (inception_ok || bool_decide (inception <= u32 (now + FUDGE))) && expiration_ok.

(** ** Signatures *)

Section crypto.
Context `{Crypto}.

Definition verify_rsa_sha256 (public_key signed_data sig : bytes) : bool :=
  match rsa_components public_key with
  | None => false
  | Some (exponent, modulus) => rsa_pkcs1_sha256_verify modulus exponent signed_data sig
  end.

Definition verify_ecdsa_p256 (public_key signed_data sig : bytes) : bool :=
  if decide (length public_key ≠ 64)%nat then
    if decide (length public_key = 65%nat ∧ nth 0 public_key 0 = 4) then
      match p256_from_sec1 public_key, p256_sig_from_der sig with
      | Some vk, Some sig => p256_verify vk signed_data sig
      | _, _ => false
      end
    else false
  else ecdsa_p256_fixed_verify ([4] ++ public_key) signed_data sig.

Definition verify_ecdsa_p384 (public_key signed_data sig : bytes) : bool :=
  if decide (length public_key ≠ 96)%nat then
    if decide (length public_key = 97%nat ∧ nth 0 public_key 0 = 4) then
      match p384_from_sec1 public_key, p384_sig_from_der sig with
      | Some vk, Some sig => p384_verify vk signed_data sig
      | _, _ => false
      end
    else false
  else ecdsa_p384_fixed_verify ([4] ++ public_key) signed_data sig.

Definition verify_ed25519 (public_key signed_data sig : bytes) : bool :=
  if decide (length public_key ≠ 32)%nat then false else
  match ed25519_from_bytes public_key with
  | None => false
  | Some key =>
    if decide (length sig ≠ 64)%nat then false else ed25519_verify key signed_data sig
  end.

Definition verify_signature (algorithm : Z) (public_key signed_data sig : bytes) : bool :=
  match algorithm with
  | 8 => verify_rsa_sha256 public_key signed_data sig
  | 13 => verify_ecdsa_p256 public_key signed_data sig
  | 14 => verify_ecdsa_p384 public_key signed_data sig
  | 15 => verify_ed25519 public_key signed_data sig
  | _ => false
  end.

Definition verify_ds (ds dnskey : ResourceRecord) (owner : str) : bool :=
  match rr_parsed ds, rr_parsed dnskey with
  | Some (RData.DS ds_tag ds_algo digest_type digest),
    Some (RData.DNSKEY flags protocol dk_algo public_key) =>
    let computed_tag := compute_key_tag flags protocol dk_algo public_key in
    if decide (computed_tag ≠ ds_tag ∨ dk_algo ≠ ds_algo) then false else
    let owner_wire := name_to_wire owner in
    let input := owner_wire ++ dnskey_rdata flags protocol dk_algo public_key in
    match digest_type with
    | 2 => bool_decide (sha256 input = digest)
    | 4 => bool_decide (sha384 input = digest)
    | _ => false
    end
  | _, _ => false
  end.

Definition rrsig_verified_by (now : Z) (rrsig dk : ResourceRecord) (rrset : list ResourceRecord)
    : bool :=
  match rr_parsed rrsig with
  | Some (RData.RRSIG _ algorithm _ _ expiration inception key_tag _ signature) =>
    match rr_parsed dk with
    | Some (RData.DNSKEY flags protocol dk_algo public_key) =>
      bool_decide (dk_algo = algorithm) &&
      bool_decide (compute_key_tag flags protocol dk_algo public_key = key_tag) &&
      is_rrsig_time_valid now expiration inception &&
      verify_signature algorithm public_key (build_signed_data rrsig rrset) signature
    | _ => false
    end
  | _ => false
  end.

Definition verify_rrset_signed (now : Z) (records : list ResourceRecord) (rrset_type : Z)
    (signing_keys : list ResourceRecord) : bool :=
  let rrset := filter (λ r, rr_rtype r = rrset_type) records in
  if decide (rrset = []) then false else
  existsb (λ r,
    match rr_parsed r with
    | Some (RData.RRSIG type_covered _ _ _ _ _ _ _ _) =>
      bool_decide (type_covered = rrset_type) &&
      existsb (λ dk, rrsig_verified_by now r dk rrset) signing_keys
    | _ => false
    end) records.

(** The loop over the keys of [validate_rrset]. *)
Fixpoint some_key_verifies (algorithm key_tag : Z) (signed_data signature : bytes)
    (dnskeys : list ResourceRecord) : bool :=
  match dnskeys with
  | [] => false
  | dk :: dnskeys =>
    match rr_parsed dk with
    | Some (RData.DNSKEY flags protocol dk_algo public_key) =>
      if decide (dk_algo ≠ algorithm) then
        some_key_verifies algorithm key_tag signed_data signature dnskeys
      else if decide (compute_key_tag flags protocol dk_algo public_key ≠ key_tag) then
        some_key_verifies algorithm key_tag signed_data signature dnskeys
      else if verify_signature algorithm public_key signed_data signature then true
      else some_key_verifies algorithm key_tag signed_data signature dnskeys
    | _ => some_key_verifies algorithm key_tag signed_data signature dnskeys
    end
  end.

Definition validate_rrset (now : Z) (rrsig : ResourceRecord) (records dnskeys : list ResourceRecord)
    : ValidationResult.t :=
  match rr_parsed rrsig with
  | Some (RData.RRSIG _ algorithm _ _ signature_expiration signature_inception key_tag _ signature) =>
    if negb (is_rrsig_time_valid now signature_expiration signature_inception)
    then ValidationResult.Bogus "RRSIG time window invalid"
    else
      let signed_data := build_signed_data rrsig records in
      if some_key_verifies algorithm key_tag signed_data signature dnskeys
      then ValidationResult.Secure
      else ValidationResult.Bogus "No matching DNSKEY found for RRSIG"
  | _ => ValidationResult.Indeterminate
  end.

Definition validate_dnskeys_against_ds (dnskeys ds_records : list ResourceRecord) : bool :=
  if decide (dnskeys = [] ∨ ds_records = []) then false else
  forallb (λ ds, existsb (λ dk, verify_ds ds dk []) dnskeys) ds_records.
End crypto.

(** ** Zones *)

Definition is_root_zone (name : bytes) : bool :=
  bool_decide (length name = 1%nat) && bool_decide (nth 0 name 0 = 0).

Definition parent_zone (name : bytes) : option bytes :=
  if is_root_zone name then None
  else if decide (length name <= 1)%nat then Some [0]
  else
    let first_label_len := Z.to_nat (nth 0 name 0) in
    if decide (length name <= 1 + first_label_len)%nat then Some [0]
    else
      let parent := drop (1 + first_label_len) name in
      if decide (parent = [] ∨ (length parent = 1%nat ∧ nth 0 parent 0 = 0)) then Some [0]
      else Some parent.

(** The signatures of the NSEC records are looked for, but what is found
    does not matter. *)
Definition validate_negative_dnssec (soa_records nsec_records nsec3_records rrsigs dnskeys
    : list ResourceRecord) (qname : bytes) (qtype : Z) : ValidationResult.t :=
  if decide (nsec_records ≠ []) then ValidationResult.Secure
  else if decide (nsec3_records ≠ []) then ValidationResult.Secure
  else if decide (rrsigs ≠ []) then ValidationResult.Indeterminate
  else ValidationResult.Indeterminate.

Definition validate_dnskeys_against_root_anchor (dnskeys : list ResourceRecord) : bool :=
  existsb (λ dk, existsb (λ ta, same_dnskey dk ta) TRUST_ANCHORS) dnskeys.

(** ** Specification: the key tag of RFC 4034, appendix B *)

Fixpoint rfc_sum (rdata : bytes) : Z :=
  match rdata with
  | [] => 0
  | [hi] => hi * 256
  | hi :: lo :: rdata => hi * 256 + lo + rfc_sum rdata
  end.

Definition rfc_key_tag (rdata : bytes) : Z :=
  let s := rfc_sum rdata in (s + s / 65536 mod 65536) mod 65536.

Lemma rfc_sum_bound rdata :
  bytes_ok rdata → 0 ≤ rfc_sum rdata ≤ 65280 * Z.of_nat (length rdata).
Proof.
  intros Hb. remember (length rdata) as n eqn:Hn. revert rdata Hn Hb.
  induction n as [n IH] using lt_wf_ind. intros [|a [|b rdata]] Hn Hb; cbn [length rfc_sum] in *.
  - lia.
  - rewrite !bytes_ok_cons in Hb. width.
  - rewrite !bytes_ok_cons in Hb. destruct Hb as (Ha & Hbb & Hr).
    specialize (IH (length rdata) ltac:(lia) rdata eq_refl Hr). width.
Qed.

Lemma key_tag_sum_pairs i ac rdata :
  Nat.Even i → bytes_ok rdata → 0 ≤ ac →
  ac + 65280 * Z.of_nat (length rdata) < 2 ^ 32 →
  key_tag_sum i ac rdata = Some (ac + rfc_sum rdata).
Proof.
  remember (length rdata) as n eqn:Hn. revert rdata Hn i ac.
  induction n as [n IH] using lt_wf_ind.
  intros [|a [|b rdata]] Hn i ac Hi Hb Hac Hlt; cbn [length rfc_sum key_tag_sum] in *.
  - by rewrite Z.add_0_r.
  - rewrite !bytes_ok_cons in Hb. destruct Hb as (Ha & _).
    rewrite (decide_True (P:=(i mod 2 = 0)%nat)) by (destruct Hi as [k ->]; by rewrite Nat.mul_comm, Nat.Div0.mod_mul).
    rewrite Z.shiftl_mul_pow2, u32_id by (width || lia). rewrite decide_True by width. done.
  - rewrite !bytes_ok_cons in Hb. destruct Hb as (Ha & Hbb & Hr).
    rewrite (decide_True (P:=(i mod 2 = 0)%nat)) by (destruct Hi as [k ->]; by rewrite Nat.mul_comm, Nat.Div0.mod_mul).
    rewrite Z.shiftl_mul_pow2, u32_id by (width || lia). rewrite decide_True by width.
    rewrite (decide_False (P:=(S i mod 2 = 0)%nat)).
    2:{ destruct Hi as [k ->]. rewrite Nat.mul_comm. intros E%Nat.Div0.mod_divides.
        destruct E as [c E]. lia. }
    rewrite decide_True by width.
    rewrite (IH (length rdata)); [f_equal; lia|lia|done| |done|width|width].
    destruct Hi as [k ->]. exists (S k). lia.
Qed.

Lemma compute_key_tag_rfc flags protocol algorithm public_key :
  is_u16 flags → is_u8 protocol → is_u8 algorithm → bytes_ok public_key →
  Z.of_nat (length public_key) <= 65531 →
  compute_key_tag_checked flags protocol algorithm public_key =
  Some (rfc_key_tag (to_be16 flags ++ [protocol] ++ [algorithm] ++ public_key)).
Proof.
  intros Hf Hp Ha Hb Hlen. unfold compute_key_tag_checked.
  assert (Hr : dnskey_rdata flags protocol algorithm public_key =
               to_be16 flags ++ [protocol] ++ [algorithm] ++ public_key).
  { unfold dnskey_rdata, to_be16, u8. rewrite Z.shiftr_div_pow2 by lia.
    change 255 with (2 ^ 8 - 1). rewrite land_ones_mod by lia. change (2 ^ 8) with 256.
    by rewrite Zmod_mod. }
  rewrite Hr. set (rdata := to_be16 flags ++ _).
  assert (Hrd : bytes_ok rdata).
  { subst rdata. rewrite !bytes_ok_app, !bytes_ok_cons.
    split_and!; try done; [apply to_be16_bytes|constructor|constructor]. }
  assert (Hrl : Z.of_nat (length rdata) = Z.of_nat (length public_key) + 4)
    by (subst rdata; rewrite !length_app; simpl; lia).
  rewrite key_tag_sum_pairs; [|by exists 0%nat|done|lia|lia]. cbn [mbind option_bind].
  pose proof (rfc_sum_bound rdata Hrd). rewrite Z.add_0_l.
  set (s := rfc_sum rdata) in *. change 65535 with (2 ^ 16 - 1).
  rewrite !land_ones_mod by lia. rewrite Z.shiftr_div_pow2 by lia.
  change (2 ^ 16) with 65536. unfold u16, rfc_key_tag. fold s.
  rewrite Zmod_mod. rewrite decide_True; [done|].
  pose proof (Z.mod_pos_bound (s / 65536) 65536). lia.
Qed.

(** ** Lemmas on the canonical form *)

Lemma lower_loop_wire fuel pre ls :
  Forall encodable ls → (length (name_wire ls) < fuel)%nat →
  lower_loop fuel (pre ++ name_wire ls) (length pre) = Ok (pre ++ name_wire (map ascii_lower ls)).
Proof.
  intros Hls. revert fuel pre. induction Hls as [|l ls Hl Hls IH]; intros [|fuel] pre Hf; try lia; unfold encodable in *.
  { rewrite name_wire_nil. cbn [lower_loop map]. rewrite list_lookup_middle by done. done. }
  rewrite name_wire_cons in *. cbn [length] in Hf. rewrite length_app in Hf.
  cbn [lower_loop map]. rewrite list_lookup_middle by done. rewrite Nat2Z.id.
  rewrite decide_False by lia.
  rewrite slice_in_range by (rewrite ?length_app; cbn [length]; rewrite ?length_app; lia).
  replace (length pre + 1 + length l - (length pre + 1))%nat with (length l) by lia.
  rewrite take_drop_label. cbn [mbind outcome_bind].
  rewrite !app_label_assoc. rewrite <-length_app_label.
  assert (Hd : drop (length (pre ++ label_wire l)) ((pre ++ label_wire l) ++ name_wire ls) = name_wire ls)
    by apply drop_app_length.
  rewrite Hd. replace (take (length pre + 1) ((pre ++ label_wire l) ++ name_wire ls))
    with (pre ++ [Z.of_nat (length l)]).
  2:{ unfold label_wire. rewrite <-app_assoc, take_app_add. done. }
  specialize (IH fuel (pre ++ label_wire (ascii_lower l))).
  assert (Hlw : length (pre ++ label_wire (ascii_lower l)) = length (pre ++ label_wire l))
    by (rewrite !length_app_label; by rewrite length_ascii_lower).
  rewrite <-Hlw.
  replace ((pre ++ [Z.of_nat (length l)]) ++ ascii_lower l ++ name_wire ls)
    with ((pre ++ label_wire (ascii_lower l)) ++ name_wire ls)
    by (unfold label_wire; rewrite <-!app_assoc, length_ascii_lower; done).
  rewrite IH by lia. unfold label_wire. rewrite name_wire_cons, <-!app_assoc.
  by rewrite length_ascii_lower.
Qed.

(** [name_to_wire] returns the encoding, which is lower case already, or nothing. *)
Lemma name_to_wire_total name :
  name_to_wire_result name =
  Ok (match encode_domain_name name with Ok w => w | _ => [] end).
Proof.
  unfold name_to_wire_result, encode_domain_name. case_decide; [by vm_compute|].
  set (ls := split_on _ _). destruct (decide (Forall encodable ls)) as [Hls|Hls].
  - rewrite encode_labels_Ok by done. cbn [mbind outcome_bind app].
    assert (Hlow : Forall encodable (map ascii_lower ls)) by (by apply encodable_lower).
    pose proof (lower_loop_wire _ [] _ Hlow (Nat.lt_succ_diag_r _)) as H0. cbn [app length] in H0.
    rewrite H0. rewrite map_map. by rewrite (map_ext _ _ ascii_lower_idemp).
  - destruct (encode_labels_Err ls [] Hls) as [msg ->]. done.
Qed.

Lemma name_to_wire_wire ls :
  labels_ok ls → Forall text_label ls →
  name_to_wire (labels_to_string (name_wire ls)) = name_wire (map ascii_lower ls).
Proof.
  intros Hls Ht. unfold name_to_wire. rewrite name_to_wire_total.
  by rewrite encode_labels_to_string by done.
Qed.

(** ** Lemmas on signatures *)

Lemma existsb_elem {A} (f : A → bool) l : existsb f l = true ↔ ∃ x, x ∈ l ∧ f x = true.
Proof. rewrite existsb_exists. split; intros (x & Hx & ?); exists x; (split; [by apply list_elem_of_In|done]). Qed.

Section crypto_lemmas.
Context `{Crypto}.

(** The key [dk] verifies: its algorithm and tag match, and the signature is good. *)
Definition key_verifies (algorithm key_tag : Z) (signed_data signature : bytes)
    (dk : ResourceRecord) : Prop :=
  ∃ flags protocol public_key,
    rr_parsed dk = Some (RData.DNSKEY flags protocol algorithm public_key) ∧
    compute_key_tag flags protocol algorithm public_key = key_tag ∧
    verify_signature algorithm public_key signed_data signature = true.

Lemma some_key_verifies_iff algorithm key_tag signed_data signature dnskeys :
  some_key_verifies algorithm key_tag signed_data signature dnskeys = true ↔
  ∃ dk, dk ∈ dnskeys ∧ key_verifies algorithm key_tag signed_data signature dk.
Proof.
  induction dnskeys as [|dk dnskeys IH]; cbn [some_key_verifies].
  { split; [done|]. by intros (dk & ?%elem_of_nil & _). }
  assert (Hskip : ¬ key_verifies algorithm key_tag signed_data signature dk →
    (∃ dk', dk' ∈ dk :: dnskeys ∧ key_verifies algorithm key_tag signed_data signature dk') ↔
    ∃ dk', dk' ∈ dnskeys ∧ key_verifies algorithm key_tag signed_data signature dk').
  { intros Hno. split.
    - intros (dk' & [->|Hin]%elem_of_cons & Hk); [done|eauto].
    - intros (dk' & Hin & Hk). exists dk'. split; [by right|done]. }
  unfold key_verifies in Hskip at 1.
  destruct (rr_parsed dk) as [[| | | | | | | | | |flags protocol algo pk| | | |]|] eqn:E;
    try (rewrite IH, Hskip; [done|intros (f & p & k & Hk & _); congruence]).
  case_decide as Ha; [rewrite IH, Hskip; [done|intros (f & p & k & Hk & _); congruence]|].
  assert (algo = algorithm) as -> by (by destruct (decide (algo = algorithm))).
  case_decide as Ht.
  { rewrite IH, Hskip; [done|]. intros (f & p & k & [= -> -> ->] & ? & _). done. }
  destruct (verify_signature algorithm pk signed_data signature) eqn:Hv.
  - split; [|done]. intros _. exists dk. split; [by left|]. exists flags, protocol, pk.
    split_and!; [done| |done]. by destruct (decide (compute_key_tag flags protocol algorithm pk = key_tag)).
  - rewrite IH, Hskip; [done|]. intros (f & p & k & [= -> -> ->] & _ & Hv'). congruence.
Qed.

Lemma rrsig_verified_by_iff now rrsig dk rrset :
  rrsig_verified_by now rrsig dk rrset = true ↔
  ∃ tc algorithm labels ottl expiration inception key_tag signer signature,
    rr_parsed rrsig = Some (RData.RRSIG tc algorithm labels ottl expiration inception key_tag
                              signer signature) ∧
    is_rrsig_time_valid now expiration inception = true ∧
    key_verifies algorithm key_tag (build_signed_data rrsig rrset) signature dk.
Proof.
  unfold rrsig_verified_by, key_verifies. split.
  - destruct (rr_parsed rrsig) as [[]|]; try done. destruct (rr_parsed dk) as [[]|]; try done.
    rewrite !andb_true_iff, !bool_decide_eq_true. intros [[[-> ?] ?] ?]. naive_solver.
  - intros (tc & a & l & o & e & i & k & s & sg & -> & Ht & f & p & pk & -> & Hk & Hv).
    by rewrite Ht, Hv, !bool_decide_eq_true_2.
Qed.
End crypto_lemmas.

(** ** Properties *)

(** C37: the key tag is the one of RFC 4034, appendix B, and its 32-bit additions never
    overflow, for every key that fits a record. *)
Theorem key_tag_rfc4034 flags protocol algorithm public_key :
  is_u16 flags → is_u8 protocol → is_u8 algorithm → bytes_ok public_key →
  Z.of_nat (length public_key) <= 65531 →
  compute_key_tag_checked flags protocol algorithm public_key =
    Some (compute_key_tag flags protocol algorithm public_key) ∧
  compute_key_tag flags protocol algorithm public_key =
    rfc_key_tag (to_be16 flags ++ [protocol] ++ [algorithm] ++ public_key).
Proof.
  intros Hf Hp Ha Hb Hl. unfold compute_key_tag. by rewrite compute_key_tag_rfc.
Qed.

Lemma key_tag_rfc4034_witness :
  compute_key_tag 257 3 8 [1; 2; 255] = rfc_key_tag [1; 1; 3; 8; 1; 2; 255].
Proof.
  apply (key_tag_rfc4034 257 3 8 [1; 2; 255]); [width|width|width| |simpl; lia].
  repeat constructor; by vm_compute.
Defined.

(** The trust anchors are the two published root keys: their key tags are 20326 and 38696,
    their RDATA is the wire form of their fields, and a set of DNSKEYs is accepted against
    them exactly when it contains a key of algorithm 8 with one of the two public keys. *)
Theorem root_anchors_spec dnskeys :
  map (λ k, compute_key_tag ROOT_KSK_FLAGS 3 ROOT_KSK_ALGORITHM k)
    [ROOT_KSK_2017_PUBLIC_KEY; ROOT_KSK_2024_PUBLIC_KEY] = [20326; 38696] ∧
  Forall rr_ok TRUST_ANCHORS ∧
  (validate_dnskeys_against_root_anchor dnskeys = true ↔
   ∃ dk flags protocol public_key, dk ∈ dnskeys ∧
     rr_parsed dk = Some (RData.DNSKEY flags protocol 8 public_key) ∧
     (public_key = ROOT_KSK_2017_PUBLIC_KEY ∨ public_key = ROOT_KSK_2024_PUBLIC_KEY)).
Proof.
  split; [by vm_compute|]. split.
  - assert (Hk : ∀ k, bytes_ok k → length k = 260%nat → rr_ok (trust_anchor k)).
    { intros k Hk Hlen.
      assert (Hrl : rr_rdlength (trust_anchor k) = 264) by (unfold trust_anchor; cbn [rr_rdlength]; by rewrite Hlen).
      assert (Hdl : length (rr_rdata (trust_anchor k)) = 264%nat)
        by (unfold trust_anchor; cbn [rr_rdata]; rewrite !length_app, Hlen; done).
      unfold rr_ok, rdlength_exact. rewrite Hrl, Hdl.
      split; [exists []; split; [constructor|done]|].
      split; [by vm_compute|]. split; [by vm_compute|]. split; [by vm_compute|]. split; [done|].
      split; [width|]. eexists. split; [done|]. split; [|done]. split; [done|].
      split; [by vm_compute|]. split; [by vm_compute|]. split; [by vm_compute|exact Hk]. }
    unfold TRUST_ANCHORS. cbn [map]. apply Forall_cons_2; [|apply Forall_cons_2; [|constructor]];
      apply Hk; try done; unfold bytes_ok; refine (bool_decide_unpack _ _); by vm_compute.
  - unfold validate_dnskeys_against_root_anchor. rewrite existsb_elem. unfold same_dnskey. split.
    + intros (dk & Hin & (ta & Hta & Hs)%existsb_elem). exists dk.
      destruct (rr_parsed dk) as [[]|]; try done.
      unfold TRUST_ANCHORS in Hta. cbn [map] in Hta.
      apply elem_of_cons in Hta as [->|[->|?%elem_of_nil]%elem_of_cons]; [..|done];
        cbn [rr_parsed trust_anchor] in Hs; rewrite andb_true_iff, !bool_decide_eq_true in Hs;
        destruct Hs as [-> ->]; eauto 10.
    + intros (dk & f & p & k & Hin & Hp & Hk). exists dk. split; [done|].
      rewrite existsb_elem. exists (trust_anchor k). rewrite Hp.
      split; [unfold TRUST_ANCHORS; destruct Hk as [-> | ->]; [by left|by right; left]|].
      cbn. by rewrite !bool_decide_eq_true_2.
Qed.

(** C35: the bytes a signature is checked over do not depend on the order of the records, nor on
    the letter case of their owner names: two RRsets that agree up to permutation and case of
    printable names give the same signed data. *)
Theorem signed_data_canonical rrsig rrset rrset' :
  let same r r' :=
    rr_rtype r = rr_rtype r' ∧ rr_rclass r = rr_rclass r' ∧ rr_parsed r = rr_parsed r' ∧
    ∃ ls ls', labels_ok ls ∧ Forall text_label ls ∧ labels_ok ls' ∧ Forall text_label ls' ∧
      rr_name r = name_wire ls ∧ rr_name r' = name_wire ls' ∧
      map ascii_lower ls = map ascii_lower ls' in
  (rrset ≡ₚ rrset' → build_signed_data rrsig rrset = build_signed_data rrsig rrset') ∧
  (Forall2 same rrset rrset' → build_signed_data rrsig rrset = build_signed_data rrsig rrset').
Proof.
  intros same. unfold build_signed_data. destruct (rr_parsed rrsig) as [[]|]; try done. split.
  - intros Hp. do 8 f_equal. f_equal. apply sort_bytes_proper. by rewrite Hp.
  - intros H2. do 8 f_equal. do 2 f_equal. induction H2 as [|r r' l l' Hs _ IH]; [done|].
    cbn [map]. rewrite IH. f_equal.
    destruct Hs as (Ht & Hc & Hp & ls & ls' & Hl & Htx & Hl' & Htx' & Hn & Hn' & Heq).
    unfold record_to_canonical_wire, record_rdata_canonical.
    rewrite Ht, Hc, Hp, Hn, Hn', !name_to_wire_wire by done. by rewrite Heq.
Qed.

Lemma signed_data_canonical_witness :
  let sig := mkRR [0] 46 1 0 0 [] (Some (RData.RRSIG 1 8 1 60 2 1 7 [0] [9])) in
  let a := mkRR [1; 97; 0] 1 1 5 4 [1; 2; 3; 4] (Some (RData.A [1; 2; 3; 4])) in
  let b := mkRR [1; 97; 0] 1 1 9 4 [0; 2; 3; 4] (Some (RData.A [0; 2; 3; 4])) in
  build_signed_data sig [a; b] = build_signed_data sig [b; a].
Proof.
  cbn zeta. refine (proj1 (signed_data_canonical _ _ _) _). apply perm_swap.
Defined.

(** C8: an RRset is Secure exactly when its RRSIG is within its validity period and one of the
    DNSKEYs with the signature's algorithm and key tag verifies it over the canonical form of
    the records; outside the period, or without such a key, it is Bogus. *)
Theorem validate_rrset_spec `{Crypto} now rrsig records dnskeys :
  (validate_rrset now rrsig records dnskeys = ValidationResult.Secure ↔
   ∃ tc algorithm labels ottl expiration inception key_tag signer signature dk,
     rr_parsed rrsig = Some (RData.RRSIG tc algorithm labels ottl expiration inception key_tag
                               signer signature) ∧
     is_rrsig_time_valid now expiration inception = true ∧ dk ∈ dnskeys ∧
     key_verifies algorithm key_tag (build_signed_data rrsig records) signature dk) ∧
  (validate_rrset now rrsig records dnskeys = ValidationResult.Indeterminate ↔ is_RRSIG rrsig = false) ∧
  validate_rrset now rrsig records dnskeys ≠ ValidationResult.Insecure.
Proof.
  unfold validate_rrset, is_RRSIG.
  destruct (rr_parsed rrsig) as [[| | | | | | | | |tc a l o e i k n s| | | | |]|] eqn:E;
    try (split_and!; [split; [done|naive_solver]|done|done]).
  destruct (is_rrsig_time_valid now e i) eqn:Ht; cbn [negb].
  - destruct (some_key_verifies a k (build_signed_data rrsig records) s dnskeys) eqn:Hk.
    + split_and!; [|done|done]. split; [|done]. intros _.
      apply some_key_verifies_iff in Hk as (dk & Hin & Hv). eauto 20.
    + split_and!; [|done|done]. split; [done|].
      intros (? & ? & ? & ? & ? & ? & ? & ? & ? & dk & [= <- <- <- <- <- <- <- <- <-] & _ & Hin & Hv).
      assert (Hex : some_key_verifies a k (build_signed_data rrsig records) s dnskeys = true)
        by (apply some_key_verifies_iff; eauto). congruence.
  - split_and!; [|done|done]. split; [done|].
    intros (? & ? & ? & ? & ? & ? & ? & ? & ? & dk & [= <- <- <- <- <- <- <- <- <-] & Hv & _).
    congruence.
Qed.

(** The chain's signature gate: [verify_rrset_signed] accepts exactly when the RRset is not
    empty and some RRSIG among the records that covers its type is made, within its validity
    period, by one of the given keys. *)
Theorem verify_rrset_signed_spec `{Crypto} now records rrset_type signing_keys :
  let rrset := filter (λ r, rr_rtype r = rrset_type) records in
  verify_rrset_signed now records rrset_type signing_keys = true ↔
  rrset ≠ [] ∧
  ∃ r dk algorithm labels ottl expiration inception key_tag signer signature,
    r ∈ records ∧ dk ∈ signing_keys ∧
    rr_parsed r = Some (RData.RRSIG rrset_type algorithm labels ottl expiration inception key_tag
                          signer signature) ∧
    is_rrsig_time_valid now expiration inception = true ∧
    key_verifies algorithm key_tag (build_signed_data r rrset) signature dk.
Proof.
  intros rrset. unfold verify_rrset_signed. fold rrset. case_decide as Hne.
  { split; [done|]. by intros [? _]. }
  rewrite existsb_elem. split.
  - intros (r & Hin & Hr). split; [done|]. exists r.
    destruct (rr_parsed r) as [[]|] eqn:E; try done.
    apply andb_true_iff in Hr as [->%bool_decide_eq_true (dk & Hdk & Hv)%existsb_elem].
    apply rrsig_verified_by_iff in Hv as (? & ? & ? & ? & ? & ? & ? & ? & ? & Hp & Ht & Hk).
    rewrite E in Hp. injection Hp as <- <- <- <- <- <- <- <- <-. eauto 20.
  - intros (_ & r & dk & ? & ? & ? & ? & ? & ? & ? & ? & Hin & Hdk & Hp & Ht & Hk).
    exists r. split; [done|]. rewrite Hp, bool_decide_eq_true_2 by done. apply existsb_elem.
    exists dk. split; [done|]. apply rrsig_verified_by_iff. eauto 20.
Qed.

(** the validity window: on times below 2^31 a signature is valid from five minutes before
    its inception to its expiration; but the inception test is not the serial-number test of
    RFC 4034 section 3.1.5 in general: past 2038 a signature whose inception lies in the serial
    future is accepted, because the plain comparison is taken as an alternative. *)
Theorem rrsig_time_window now expiration inception :
  (0 ≤ now < 2 ^ 31 → 0 ≤ expiration < 2 ^ 31 → 0 ≤ inception < 2 ^ 31 →
   is_rrsig_time_valid now expiration inception = true ↔
   inception - 300 ≤ now ∧ now ≤ expiration) ∧
  (∃ now' exp' inc', is_u32 now' ∧ is_u32 exp' ∧ is_u32 inc' ∧
     2 ^ 31 ≤ u32 (now' - inc') ∧ 300 < u32 (inc' - now') ∧
     is_rrsig_time_valid now' exp' inc' = true).
Proof.
  split.
  - intros Hn He Hi. unfold is_rrsig_time_valid, u32.
    rewrite andb_true_iff, orb_true_iff, !bool_decide_eq_true.
    rewrite (Z.mod_small now) by lia. rewrite (Z.mod_small (now + 300)) by lia.
    assert (Hsub : ∀ x y, 0 ≤ x < 2 ^ 31 → 0 ≤ y < 2 ^ 31 →
              (x - y) mod 4294967296 < 2 ^ 31 ↔ y ≤ x).
    { intros x y Hx Hy. destruct (decide (y ≤ x)).
      - rewrite Z.mod_small by lia. lia.
      - replace (x - y) with ((x - y + 4294967296) + -1 * 4294967296) by lia.
        rewrite Z.mod_add, Z.mod_small by lia. lia. }
    rewrite !Hsub by lia. lia.
  - exists 3000000000, 3000000100, 100. split_and!; by vm_compute.
Qed.

Lemma rrsig_time_window_witness : is_rrsig_time_valid 1000 2000 1300 = true.
Proof. apply (rrsig_time_window 1000 2000 1300); lia. Defined.

(** [verify_ds] checks what RFC 4034 section 5.1.4 asks, tag, algorithm, and the digest of
    the owner name and the key's RDATA; but [validate_dnskeys_against_ds] calls it with an
    empty owner, so that it hashes the root's name: it accepts DS records whose digests were
    made for the keys of a zone other than the root only if SHA-256 or SHA-384 collides. *)
Theorem ds_owner_is_root `{Crypto} ds dnskey owner tag algo dtype digest flags protocol dk_algo pk :
  rr_parsed ds = Some (RData.DS tag algo dtype digest) →
  rr_parsed dnskey = Some (RData.DNSKEY flags protocol dk_algo pk) →
  (verify_ds ds dnskey owner = true ↔
   compute_key_tag flags protocol dk_algo pk = tag ∧ dk_algo = algo ∧
   ((dtype = 2 ∧ sha256 (name_to_wire owner ++ dnskey_rdata flags protocol dk_algo pk) = digest) ∨
    (dtype = 4 ∧ sha384 (name_to_wire owner ++ dnskey_rdata flags protocol dk_algo pk) = digest))) ∧
  (∀ l ls, label_ok l →
     (dtype = 2 → digest = sha256 (name_wire (l :: ls) ++ dnskey_rdata flags protocol dk_algo pk)) →
     (dtype = 4 → digest = sha384 (name_wire (l :: ls) ++ dnskey_rdata flags protocol dk_algo pk)) →
     validate_dnskeys_against_ds [dnskey] [ds] = true →
     ∃ x y, x ≠ y ∧ (sha256 x = sha256 y ∨ sha384 x = sha384 y)).
Proof.
  intros Hds Hdk.
  assert (Hv : ∀ owner, verify_ds ds dnskey owner = true ↔
   compute_key_tag flags protocol dk_algo pk = tag ∧ dk_algo = algo ∧
   ((dtype = 2 ∧ sha256 (name_to_wire owner ++ dnskey_rdata flags protocol dk_algo pk) = digest) ∨
    (dtype = 4 ∧ sha384 (name_to_wire owner ++ dnskey_rdata flags protocol dk_algo pk) = digest))).
  { intros o. unfold verify_ds. rewrite Hds, Hdk. case_decide as Hd.
    { split; [done|]. intros (? & ? & _). by destruct Hd. }
    assert (compute_key_tag flags protocol dk_algo pk = tag ∧ dk_algo = algo) as [Htag Halgo].
    { destruct (decide (compute_key_tag flags protocol dk_algo pk = tag)),
        (decide (dk_algo = algo)); naive_solver. }
    destruct (decide (dtype = 2)) as [->|]; [rewrite bool_decide_eq_true; naive_solver|].
    destruct (decide (dtype = 4)) as [->|]; [rewrite bool_decide_eq_true; naive_solver|].
    split; [|naive_solver]. repeat case_match; try done; lia. }
  split; [apply Hv|]. intros l ls Hl H2 H4. unfold validate_dnskeys_against_ds.
  rewrite decide_False by (by intros [?|?]). cbn [forallb existsb]. rewrite orb_false_r, andb_true_r.
  rewrite Hv. intros (_ & _ & Hdig). destruct Hl as [_ Hl].
  assert (Hne : name_to_wire [] ++ dnskey_rdata flags protocol dk_algo pk ≠
                name_wire (l :: ls) ++ dnskey_rdata flags protocol dk_algo pk).
  { change (name_to_wire []) with [0]. rewrite name_wire_cons. cbn [app]. intros [= E]. lia. }
  eexists _, _. split; [exact Hne|].
  destruct Hdig as [[Hd Hs]|[Hd Hs]]; [left|right]; rewrite Hs; auto.
Qed.

(** A toy instance: digests are the data, and a signature is good when it is the data. *)
Definition toy_crypto : Crypto := {|
  rsa_pkcs1_sha256_verify n e d s := bool_decide (s = d);
  ecdsa_p256_fixed_verify k d s := bool_decide (s = d);
  ecdsa_p384_fixed_verify k d s := bool_decide (s = d);
  p256_key := unit; p256_sig := bytes; p256_from_sec1 _ := Some ();
  p256_sig_from_der s := Some s; p256_verify _ d s := bool_decide (s = d);
  p384_key := unit; p384_sig := bytes; p384_from_sec1 _ := Some ();
  p384_sig_from_der s := Some s; p384_verify _ d s := bool_decide (s = d);
  ed25519_key := unit; ed25519_from_bytes _ := Some ();
  ed25519_verify _ d s := bool_decide (s = d);
  sha1 x := x; sha256 x := x; sha384 x := x;
|}.

Definition sample_dnskey : ResourceRecord :=
  mkRR [0] 48 1 0 0 [] (Some (RData.DNSKEY 257 3 8 [5])).
Definition sample_ds : ResourceRecord :=
  mkRR [0] 43 1 0 0 [] (Some (RData.DS (compute_key_tag 257 3 8 [5]) 8 2
    (name_wire [[97]] ++ dnskey_rdata 257 3 8 [5]))).

Lemma ds_owner_is_root_witness : @verify_ds toy_crypto sample_ds sample_dnskey [97] = true.
Proof.
  refine (proj2 (proj1 (@ds_owner_is_root toy_crypto sample_ds sample_dnskey [97]
    (compute_key_tag 257 3 8 [5]) 8 2
    (name_wire [[97]] ++ dnskey_rdata 257 3 8 [5]) 257 3 8 [5] eq_refl eq_refl)) _).
  split_and!; [done|done|]. left. split; [done|]. by vm_compute.
Defined.

(** Walking up the zones: the parent of a name is the name without its first label, the
    root has none, and so the walk from any name reaches the root in as many steps as it has
    labels. *)
Theorem parent_zone_walk l ls :
  labels_ok (l :: ls) →
  parent_zone (name_wire (l :: ls)) = Some (name_wire ls) ∧
  parent_zone (name_wire []) = None ∧ is_root_zone (name_wire []) = true ∧
  is_root_zone (name_wire (l :: ls)) = false ∧
  Nat.iter (length (l :: ls)) (λ z, z ≫= parent_zone) (Some (name_wire (l :: ls))) =
    Some (name_wire []).
Proof.
  intros Hls.
  assert (Hroot : ∀ l ls, labels_ok (l :: ls) → is_root_zone (name_wire (l :: ls)) = false).
  { intros k ks [[_ Hk] _]%labels_ok_cons. unfold is_root_zone. rewrite name_wire_cons.
    apply andb_false_iff. left. apply bool_decide_eq_false_2. cbn [length].
    rewrite length_app. pose proof (name_wire_nonempty ks). lia. }
  assert (Hparent : ∀ l ls, labels_ok (l :: ls) → parent_zone (name_wire (l :: ls)) = Some (name_wire ls)).
  { intros k ks Hks. unfold parent_zone. rewrite Hroot by done.
    apply labels_ok_cons in Hks as [[_ Hk] Hks]. pose proof (name_wire_nonempty ks).
    rewrite name_wire_cons. cbn [length nth]. rewrite length_app, Nat2Z.id.
    rewrite !decide_False by lia. cbn [Nat.add drop]. rewrite drop_app_length.
    case_decide as Hd; [|done]. destruct Hd as [Hd|[Hd1 Hd2]].
    - rewrite Hd in *. simpl in *. lia.
    - destruct (name_wire ks) as [|x [|y w]]; simpl in *; try lia. by subst x. }
  split_and!; [by apply Hparent|done|done|by apply Hroot|].
  induction (l :: ls) as [|k ks IH]; [done|]. cbn [length]. rewrite Nat.iter_succ_r.
  cbn [mbind option_bind]. rewrite Hparent by done. apply IH. by apply labels_ok_cons in Hls as [_ ?].
Qed.

Lemma parent_zone_walk_witness :
  parent_zone (name_wire [[97]; [98]]) = Some (name_wire [[98]]).
Proof. apply (parent_zone_walk [97] [[98]]). repeat constructor; by vm_compute. Defined.
