(* ===== verification/Denial.v ===== *)
(** * DNSSEC: denial of existence (src/dnssec/mod.rs, lines 1239-1767)

    NSEC type bitmaps, the canonical order of names and what an NSEC record
    covers, NSEC3 hashes, and the validation of a denial against the cached
    keys.  Names are presentation strings, as in the source. *)

From stdpp Require Import strings.
From S2P Require Import Prelude Order Str Types Names NameCodec Lru Cache Dnssec.
#[local] Open Scope Z_scope.

(** ** Type bitmaps *)

(** The [while] loop of [type_bitmap_contains]; each round moves on by at
    least two bytes. *)
Fixpoint bitmap_loop (fuel : nat) (bitmap : bytes) (target_window : Z) (byte_offset : nat)
    (bit_mask : Z) (pos : nat) : bool :=
  match fuel with
  | O => false
  | S fuel =>
    if decide (pos + 2 <= length bitmap)%nat then
      let window := nth pos bitmap 0 in
      let bmap_len := Z.to_nat (nth (pos + 1) bitmap 0) in
      if decide (length bitmap < pos + 2 + bmap_len)%nat then false
      else if decide (window = target_window ∧ (byte_offset < bmap_len)%nat) then
        bool_decide (Z.land (nth (pos + 2 + byte_offset) bitmap 0) bit_mask ≠ 0)
      else bitmap_loop fuel bitmap target_window byte_offset bit_mask (pos + (2 + bmap_len))
    else false
  end.

Definition type_bitmap_contains (bitmap : bytes) (qtype : Z) : bool :=
  let target_window := u8 (qtype / 256) in
  let target_bit := u8 (qtype mod 256) in
  let byte_offset := Z.to_nat (target_bit / 8) in
  let bit_mask := Z.shiftr 128 (target_bit mod 8) in
  bitmap_loop (S (length bitmap)) bitmap target_window byte_offset bit_mask 0.

(** ** The canonical order of names *)

(** [split('.').filter(|l| !l.is_empty())] *)
Definition nonempty_labels (a : str) : list str := filter (λ l, l ≠ []) (split_on DOT a).

(** The loop over the zipped labels: the first difference, if any. *)
Fixpoint zip_cmp (a b : list str) : comparison :=
  match a, b with
  | la :: a, lb :: b =>
    match bytes_cmp (ascii_lower la) (ascii_lower lb) with
    | Eq => zip_cmp a b
    | other => other
    end
  | _, _ => Eq
  end.

Definition canonical_dns_name_order (a b : str) : comparison :=
  match zip_cmp (rev (nonempty_labels a)) (rev (nonempty_labels b)) with
  | Eq => Nat.compare (length (nonempty_labels a)) (length (nonempty_labels b))
  | other => other
  end.

Definition nsec_covers_name (owner next qname : str) : bool :=
  let on := canonical_dns_name_order owner next in
  let qo := canonical_dns_name_order qname owner in
  let qn := canonical_dns_name_order qname next in
  match on with
  | Gt | Eq => bool_decide (qo = Gt) || bool_decide (qn = Lt)
  | Lt => bool_decide (qo = Gt) && bool_decide (qn = Lt)
  end.

Definition is_NSEC (r : ResourceRecord) : bool :=
  match rr_parsed r with Some (RData.NSEC _ _) => true | _ => false end.

(** The candidates, the longest first. *)
Fixpoint closest_encloser_loop (labels : list str) (zone_nsecs : list ResourceRecord)
    : option str :=
  match labels with
  | [] => None
  | _ :: rest =>
    let candidate := join [DOT] labels in
    if existsb (λ r, is_NSEC r && eq_ignore_ascii_case (labels_to_string (rr_name r)) candidate)
         zone_nsecs
    then Some candidate
    else closest_encloser_loop rest zone_nsecs
  end.

Definition closest_encloser (qname : str) (zone_nsecs : list ResourceRecord) : option str :=
  closest_encloser_loop (nonempty_labels qname) zone_nsecs.

Definition nsec_proves_nodata (owner qname : str) (bitmap : bytes) (qtype : Z) : bool :=
  eq_ignore_ascii_case owner qname && negb (type_bitmap_contains bitmap qtype) &&
  negb (type_bitmap_contains bitmap 5).

(** ** NSEC3 *)

Definition MAX_NSEC3_ITERATIONS : Z := 500.

Definition nsec3_hash `{Crypto} (name : str) (algorithm iterations : Z) (salt : bytes)
    : option bytes :=
  if decide (algorithm ≠ 1) then None
  else if decide (MAX_NSEC3_ITERATIONS < iterations) then None
  else
    let hash := sha1 (name_to_wire name ++ salt) in
    Some (Nat.iter (Z.to_nat iterations) (λ hash, sha1 (hash ++ salt)) hash).

(** The lookup table: the base32hex value of a character below 128. *)
Definition base32hex_lut (ch : Z) : Z :=
  if decide (48 <= ch <= 57) then ch - 48
  else if decide (65 <= ch <= 86) then ch - 55
  else if decide (97 <= ch <= 118) then ch - 87
  else 255.

Fixpoint base32hex_loop (input : bytes) (bits bit_count : Z) (output : bytes) : option bytes :=
  match input with
  | [] => Some output
  | ch :: input =>
    if decide (ch = 61) then Some output
    else if decide (128 <= ch) then None
    else
      let val := base32hex_lut ch in
      if decide (val = 255) then None
      else
        let bits := Z.lor (u64 (Z.shiftl bits 5)) val in
        let bit_count := bit_count + 5 in
        if decide (8 <= bit_count) then
          let bit_count := bit_count - 8 in
          let output := output ++ [u8 (Z.shiftr bits bit_count)] in
          let bits := Z.land bits (Z.shiftl 1 bit_count - 1) in
          base32hex_loop input bits bit_count output
        else base32hex_loop input bits bit_count output
  end.

Definition base32hex_decode (input : str) : option bytes := base32hex_loop input 0 0 [].

(** [split('.').next()] always yields a first piece. *)
Definition nsec3_owner_hash (domain : str) : option bytes :=
  match split_on DOT domain with
  | [] => None
  | first_label :: _ => base32hex_decode first_label
  end.

(** [<] on byte slices. *)
Definition bytes_lt (a b : bytes) : bool := bool_decide (bytes_cmp a b = Lt).

Definition nsec3_hash_in_range (owner_hash next_hash target_hash : bytes) : bool :=
  if bytes_lt owner_hash next_hash
  then bytes_lt owner_hash target_hash && bytes_lt target_hash next_hash
  else bytes_lt owner_hash target_hash || bytes_lt target_hash next_hash.

Definition nsec3_any_covers (decoded : list (bytes * ResourceRecord)) (target : bytes) : bool :=
  existsb (λ p : bytes * ResourceRecord,
    match rr_parsed p.2 with
    | Some (RData.NSEC next_domain _) =>
      let next_hashed_owner := default [] (nsec3_owner_hash (labels_to_string next_domain)) in
      nsec3_hash_in_range p.1 next_hashed_owner target
    | _ => false
    end) decoded.

Definition parent_zone_str (zone : str) : str :=
  if decide (zone = [DOT] ∨ zone = []) then [DOT] else
  match list_find (eq DOT) zone with
  | Some (pos, _) => drop (pos + 1) zone
  | None => [DOT]
  end.

(** ** Validation *)

Section validation.
Context {C : Type → Type} `{LruOps cache_key C} `{Crypto}.

(** The first RRSIG that is signed by [name] and covers [qtype]. *)
Definition find_covering_rrsig (all_rrsigs : list ResourceRecord) (name : bytes) (qtype : Z)
    : option ResourceRecord :=
  find (λ r,
    match rr_parsed r with
    | Some (RData.RRSIG type_covered _ _ _ _ _ _ signer_name _) =>
      bool_decide (signer_name = name) && bool_decide (type_covered = qtype)
    | _ => false
    end) all_rrsigs.

(** The loop over the denial RRsets; [clk] is the clock of the [i]-th cache lookup. *)
Fixpoint verify_denial_rrsets (now : Z) (clk : nat → nat → Z) (i : nat)
    (all_rrsigs : list ResourceRecord)
    (rrsets : list (bytes * Z * list ResourceRecord)) (cache : DnsCache C) : bool * DnsCache C :=
  match rrsets with
  | [] => (true, cache)
  | (name, qtype, rrset) :: rrsets =>
    match find_covering_rrsig all_rrsigs name qtype with
    | None => (false, cache)
    | Some rrsig =>
      match rr_parsed rrsig with
      | Some (RData.RRSIG _ algorithm _ _ signature_expiration signature_inception key_tag
                signer_name signature) =>
        if negb (is_rrsig_time_valid now signature_expiration signature_inception)
        then (false, cache)
        else
          let '(found, cache) := lookup_cache cache (clk i) signer_name 48 1 in
          match found with
          | None => (false, cache)
          | Some (dnskeys, _) =>
            let signed_data := build_signed_data rrsig rrset in
            let verified :=
              existsb (λ dk,
                match rr_parsed dk with
                | Some (RData.DNSKEY flags protocol dk_algo public_key) =>
                  bool_decide (dk_algo = algorithm) &&
                  bool_decide (compute_key_tag flags protocol dk_algo public_key = key_tag) &&
                  verify_signature algorithm public_key signed_data signature
                | _ => false
                end) dnskeys in
            if negb verified then (false, cache)
            else verify_denial_rrsets now clk (S i) all_rrsigs rrsets cache
          end
      | _ => verify_denial_rrsets now clk i all_rrsigs rrsets cache
      end
    end
  end.

Definition verify_authority_rrsigs (now : Z) (clk : nat → nat → Z)
    (authorities all_rrsigs : list ResourceRecord) (denial_type : Z) (cache : DnsCache C)
    : bool * DnsCache C :=
  let denial_records := filter (λ r, rr_rtype r = denial_type) authorities in
  let denial_rrsets := group_rrsets denial_records in
  let '(ok, cache) := verify_denial_rrsets now clk 0 all_rrsigs denial_rrsets cache in
  (ok && bool_decide (denial_rrsets ≠ []), cache).

(** Does some NSEC record cover [name]? *)
Definition nsecs_cover (nsecs : list ResourceRecord) (name : str) : bool :=
  existsb (λ r,
    match rr_parsed r with
    | Some (RData.NSEC next_domain _) =>
      nsec_covers_name (labels_to_string (rr_name r)) (labels_to_string next_domain) name
    | _ => false
    end) nsecs.

(** The verdict on verified NSEC records. *)
Definition nsec_verdict (nsecs : list ResourceRecord) (qname : str) (qtype : Z) (is_nxdomain : bool)
    : DnssecStatus.t :=
  if is_nxdomain then
    let name_covered := nsecs_cover nsecs qname in
    let wildcard_denied :=
      match closest_encloser qname nsecs with
      | Some ce =>
        let wildcard := [42; DOT] ++ ce in
        existsb (λ r,
          match rr_parsed r with
          | Some (RData.NSEC next_domain _) =>
            nsec_covers_name (labels_to_string (rr_name r)) (labels_to_string next_domain) wildcard ||
            eq_ignore_ascii_case (labels_to_string (rr_name r)) wildcard
          | _ => false
          end) nsecs
      | None => true
      end in
    if name_covered && wildcard_denied then DnssecStatus.Secure else DnssecStatus.Bogus
  else
    let nodata_proven :=
      existsb (λ r,
        match rr_parsed r with
        | Some (RData.NSEC _ type_bit_maps) =>
          nsec_proves_nodata (labels_to_string (rr_name r)) qname type_bit_maps qtype
        | _ => false
        end) nsecs in
    if nodata_proven then DnssecStatus.Secure else DnssecStatus.Bogus.

(** The loop over the ancestors of [qname] in the NSEC3 case: the labels of the
    closest encloser, and the next closer name's hash. *)
Fixpoint nsec3_proven (decoded : list (bytes * ResourceRecord)) (prev : list str)
    (labels : list str) : bool :=
  match labels with
  | [] => false
  | _ :: rest =>
    let here :=
      match nsec3_hash (join [DOT] labels) 1 0 [] with
      | None => false
      | Some ce_hash =>
        if negb (existsb (λ p : bytes * ResourceRecord, bool_decide (p.1 = ce_hash)) decoded)
        then false
        else
          match nsec3_hash (join [DOT] prev) 1 0 [] with
          | None => false
          | Some nc_hash =>
            if negb (nsec3_any_covers decoded nc_hash) then false
            else
              match nsec3_hash ([42; DOT] ++ join [DOT] labels) 1 0 [] with
              | None => false
              | Some wc_hash => nsec3_any_covers decoded wc_hash
              end
          end
      end in
    if here then true else nsec3_proven decoded labels rest
  end.

Definition nsec3_verdict (nsec3s : list ResourceRecord) (qname : str) (qtype : Z)
    (is_nxdomain : bool) : DnssecStatus.t :=
  match nsec3_hash qname 1 0 [] with
  | None => DnssecStatus.Indeterminate
  | Some qname_hash =>
    let decoded := omap (λ r,
      if is_NSEC r
      then (λ h, (h, r)) <$> nsec3_owner_hash (labels_to_string (rr_name r))
      else None) nsec3s in
    if is_nxdomain then
      let labels := nonempty_labels qname in
      match labels with
      | [] => DnssecStatus.Bogus
      | _ :: rest =>
        if nsec3_proven decoded labels rest then DnssecStatus.Secure else DnssecStatus.Bogus
      end
    else
      let nodata := existsb (λ p : bytes * ResourceRecord,
        match rr_parsed p.2 with
        | Some (RData.NSEC _ type_bit_maps) =>
          bool_decide (p.1 = qname_hash) && negb (type_bitmap_contains type_bit_maps qtype) &&
          negb (type_bitmap_contains type_bit_maps 5)
        | _ => false
        end) decoded in
      if nodata then DnssecStatus.Secure else DnssecStatus.Bogus
  end.

Definition validate_denial (now : Z) (clk : nat → nat → Z)
    (authorities all_rrsigs : list ResourceRecord) (qname : str) (qtype : Z) (is_nxdomain : bool)
    (cache : DnsCache C) : DnssecStatus.t * DnsCache C :=
  let nsecs := filter (λ r, is_NSEC r = true) authorities in
  if decide (nsecs ≠ []) then
    let '(ok, cache) := verify_authority_rrsigs now clk authorities all_rrsigs 47 cache in
    if negb ok then (DnssecStatus.Indeterminate, cache)
    else (nsec_verdict nsecs qname qtype is_nxdomain, cache)
  else
    let nsec3s := filter (λ r, is_NSEC r = true) authorities in
    if decide (nsec3s ≠ []) then
      let '(ok, cache) := verify_authority_rrsigs now clk authorities all_rrsigs 50 cache in
      if negb ok then (DnssecStatus.Indeterminate, cache)
      else (nsec3_verdict nsec3s qname qtype is_nxdomain, cache)
    else (DnssecStatus.Indeterminate, cache).
End validation.

(** ** Lemmas on the canonical order *)

(** What the canonical order compares: the labels in lower case, from the root down. *)
Definition canonical_key (a : str) : list bytes := map ascii_lower (rev (nonempty_labels a)).

Abbreviation key_cmp := (lex_cmp bytes_cmp).

Lemma zip_cmp_lex x y :
  match zip_cmp x y with Eq => Nat.compare (length x) (length y) | other => other end =
  key_cmp (map ascii_lower x) (map ascii_lower y).
Proof.
  revert y. induction x as [|a x IH]; intros [|b y]; try done. cbn [zip_cmp map lex_cmp length].
  destruct (bytes_cmp (ascii_lower a) (ascii_lower b)); [|done..].
  rewrite <-IH. by rewrite Nat.compare_succ.
Qed.

Lemma canonical_order_key a b :
  canonical_dns_name_order a b = key_cmp (canonical_key a) (canonical_key b).
Proof.
  unfold canonical_dns_name_order, canonical_key. rewrite <-zip_cmp_lex. by rewrite !length_rev.
Qed.

Lemma key_cmp_gt x y : key_cmp x y = Gt ↔ key_cmp y x = Lt.
Proof. apply (cmp_gt_lt key_cmp). Qed.

(** ** Lemmas on type bitmaps *)

(** The windows of a bitmap, and the types they list. *)
Definition window_ok (w : Z * bytes) : Prop :=
  is_u8 w.1 ∧ bytes_ok w.2 ∧ (length w.2 <= 255)%nat.
Definition window_wire (w : Z * bytes) : bytes := w.1 :: Z.of_nat (length w.2) :: w.2.
Definition bitmap_wire (ws : list (Z * bytes)) : bytes := concat (map window_wire ws).

(** RFC 4034 section 4.1.2: bit [i] of window [w], from the left, stands for type [256 w + i]. *)
Definition window_lists (qtype : Z) (w : Z * bytes) : Prop :=
  w.1 = qtype / 256 ∧
  ∃ b, w.2 !! Z.to_nat (qtype mod 256 / 8) = Some b ∧ Z.testbit b (7 - qtype mod 8) = true.

Lemma land_mask b k : 0 ≤ k ≤ 7 → Z.land b (Z.shiftr 128 k) ≠ 0 ↔ Z.testbit b (7 - k) = true.
Proof.
  intros Hk. assert (Hs : Z.shiftr 128 k = 2 ^ (7 - k)).
  { rewrite Z.shiftr_div_pow2 by lia. change 128 with (2 ^ 7).
    rewrite <-Z.pow_sub_r by lia. done. }
  rewrite Hs. destruct (Z.testbit b (7 - k)) eqn:E.
  - split; [done|]. intros _ Hz.
    assert (Ht : Z.testbit (Z.land b (2 ^ (7 - k))) (7 - k) = true)
      by (rewrite Z.land_spec, E, Z.pow2_bits_true by lia; done).
    by rewrite Hz, Z.bits_0 in Ht.
  - split; [|done]. intros Hz. destruct Hz. apply Z.bits_inj'. intros n Hn.
    rewrite Z.land_spec, Z.bits_0. destruct (decide (n = 7 - k)) as [->|].
    + by rewrite E.
    + rewrite Z.pow2_bits_false by lia. by rewrite andb_false_r.
Qed.

Lemma nth_app_add {A} (pre l : list A) n d : nth (length pre + n) (pre ++ l) d = nth n l d.
Proof. rewrite app_nth2 by lia. f_equal. lia. Qed.

Lemma bitmap_loop_windows fuel pre ws tw k mask :
  Forall window_ok ws → (length (bitmap_wire ws) < fuel)%nat →
  bitmap_loop fuel (pre ++ bitmap_wire ws) tw k mask (length pre) = true ↔
  ∃ i w, ws !! i = Some w ∧ w.1 = tw ∧
    (∀ j w', (j < i)%nat → ws !! j = Some w' → ¬ (w'.1 = tw ∧ (k < length w'.2)%nat)) ∧
    ∃ b, w.2 !! k = Some b ∧ Z.land b mask ≠ 0.
Proof.
  intros Hws. revert fuel pre. induction Hws as [|[w bs] ws (_ & _ & Hlen) Hws IH];
    intros [|fuel] pre Hf; try lia; cbn [bitmap_loop].
  { rewrite decide_False by (unfold bitmap_wire; rewrite length_app; simpl; lia).
    split; [done|]. by intros (i & w & ? & _). }
  assert (Hwire : bitmap_wire ((w, bs) :: ws) = w :: Z.of_nat (length bs) :: bs ++ bitmap_wire ws) by done.
  rewrite Hwire in *. cbn [length] in Hf. rewrite length_app in Hf. simpl in Hlen.
  rewrite decide_True by (rewrite length_app; simpl; lia).
  pose proof (nth_app_add pre (w :: Z.of_nat (length bs) :: bs ++ bitmap_wire ws) 0 0) as N0.
  rewrite Nat.add_0_r in N0. rewrite N0, (nth_app_add pre). cbn [nth].
  rewrite Nat2Z.id. rewrite decide_False by (rewrite length_app; simpl; rewrite length_app; lia).
  case_decide as Hd.
  - destruct Hd as [-> Hk]. rewrite bool_decide_eq_true.
    rewrite <-Nat.add_assoc, (nth_app_add pre). cbn [Nat.add nth]. rewrite app_nth1 by done.
    assert (Hlk : bs !! k = Some (nth k bs 0)).
    { rewrite nth_lookup. destruct (lookup_lt_is_Some_2 bs k Hk) as [x ->]. done. }
    split.
    + intros Hm. exists 0%nat, (tw, bs). split_and!; [done|done|lia|]. by exists (nth k bs 0).
    + intros (i & w' & Hi & Hw' & Hmin & b & Hb & Hm). destruct i as [|i].
      * injection Hi as <-. simpl in Hb. rewrite Hlk in Hb. by injection Hb as ->.
      * destruct (Hmin 0%nat (tw, bs)); [lia|done|done].
  - specialize (IH fuel (pre ++ w :: Z.of_nat (length bs) :: bs)).
    replace (pre ++ w :: Z.of_nat (length bs) :: bs ++ bitmap_wire ws)
      with ((pre ++ w :: Z.of_nat (length bs) :: bs) ++ bitmap_wire ws) by (by rewrite <-app_assoc).
    replace (length pre + (2 + length bs))%nat with (length (pre ++ w :: Z.of_nat (length bs) :: bs))
      by (rewrite length_app; simpl; lia).
    rewrite IH by lia. split.
    + intros (i & w' & Hi & Hw' & Hmin & Hb). exists (S i), w'. split_and!; [done|done| |done].
      intros [|j] w'' Hj; [|apply Hmin; lia]. intros [= <-]. done.
    + intros (i & w' & Hi & Hw' & Hmin & b & Hb & Hm). destruct i as [|i].
      * injection Hi as <-. destruct Hd. split; [done|]. by apply lookup_lt_Some in Hb.
      * exists i, w'. split_and!; [done|done| |eauto]. intros j w'' Hj. apply (Hmin (S j)). lia.
Qed.

(** ** Lemmas on base32hex *)

(** The number a list of digits writes, the most significant first. *)
Definition digits_value (base acc : Z) (ds : list Z) : Z := foldl (λ acc d, acc * base + d) acc ds.

Lemma digits_value_cons base acc d ds :
  digits_value base acc (d :: ds) = digits_value base (acc * base + d) ds.
Proof. done. Qed.
Lemma digits_value_snoc base acc ds d :
  digits_value base acc (ds ++ [d]) = digits_value base acc ds * base + d.
Proof. unfold digits_value. by rewrite foldl_app. Qed.

(** A character of the base32hex alphabet, in either case, and its value. *)
Definition base32hex_digit (ch : Z) : Prop := is_u8 ch ∧ ch < 128 ∧ base32hex_lut ch ≠ 255.

Lemma base32hex_lut_range ch : base32hex_digit ch → 0 ≤ base32hex_lut ch < 32 ∧ ch ≠ 61.
Proof.
  unfold base32hex_digit, base32hex_lut. intros (_ & _ & H). repeat case_decide; try done; lia.
Qed.

(** What the decoder has read: the value so far is that of the output, with the pending bits
    appended. *)
Definition base32hex_inv (n N bits bit_count : Z) (output : bytes) : Prop :=
  bytes_ok output ∧ 0 ≤ bit_count < 8 ∧ 0 ≤ bits < 2 ^ bit_count ∧
  5 * n = 8 * Z.of_nat (length output) + bit_count ∧
  N = digits_value 256 0 output * 2 ^ bit_count + bits.

Lemma base32hex_step n N bits bit_count output val :
  base32hex_inv n N bits bit_count output → 0 ≤ val < 32 →
  Z.lor (u64 (Z.shiftl bits 5)) val = bits * 32 + val ∧
  (bit_count + 5 < 8 → base32hex_inv (n + 1) (N * 32 + val) (bits * 32 + val) (bit_count + 5) output) ∧
  (8 ≤ bit_count + 5 →
   base32hex_inv (n + 1) (N * 32 + val)
     (Z.land (bits * 32 + val) (Z.shiftl 1 (bit_count + 5 - 8) - 1)) (bit_count + 5 - 8)
     (output ++ [u8 (Z.shiftr (bits * 32 + val) (bit_count + 5 - 8))])).
Proof.
  intros (Hout & Hbc & Hbits & Hlen & HN) Hval.
  assert (Hpow : 2 ^ bit_count ≤ 128) by (change 128 with (2 ^ 7); apply Z.pow_le_mono_r; lia).
  split.
  { unfold u64. rewrite Z.shiftl_mul_pow2 by lia. rewrite Z.mod_small by lia.
    rewrite <-Z.shiftl_mul_pow2 by lia. by rewrite lor_shiftl_add by lia. }
  split.
  - intros Hlt. split_and!; [done|lia|lia|lia| |lia|].
    + rewrite Z.pow_add_r by lia. change (2 ^ 5) with 32. lia.
    + rewrite Z.pow_add_r by lia. change (2 ^ 5) with 32. subst N. lia.
  - intros Hge. set (k := bit_count + 5 - 8). assert (Hbk : bit_count = k + 3) by lia.
    assert (Hp : 2 ^ bit_count = 8 * 2 ^ k) by (rewrite Hbk, Z.pow_add_r by lia; lia).
    assert (Hk0 : 0 < 2 ^ k) by (apply Z.pow_pos_nonneg; lia).
    rewrite Z.shiftl_1_l, land_ones_mod, Z.shiftr_div_pow2 by lia.
    assert (Hq : 0 ≤ (bits * 32 + val) / 2 ^ k < 256)
      by (split; [apply Z.div_pos; lia|apply Z.div_lt_upper_bound; lia]).
    rewrite u8_id by done. pose proof (Z.mod_pos_bound (bits * 32 + val) (2 ^ k) Hk0).
    split_and!; [|lia|lia|lia|lia| |].
    + apply bytes_ok_app. split; [done|]. by constructor.
    + rewrite length_app. simpl. lia.
    + rewrite digits_value_snoc. rewrite HN, Hp.
      pose proof (Z.div_mod (bits * 32 + val) (2 ^ k)). lia.
Qed.

Lemma base32hex_loop_digits input n N bits bit_count output :
  Forall base32hex_digit input → base32hex_inv n N bits bit_count output →
  ∃ out bits' bit_count', base32hex_loop input bits bit_count output = Some out ∧
    base32hex_inv (n + Z.of_nat (length input)) (digits_value 32 N (map base32hex_lut input))
      bits' bit_count' out.
Proof.
  intros Hin. revert n N bits bit_count output.
  induction Hin as [|ch input Hch Hin IH]; intros n N bits bit_count output Hinv;
    cbn [base32hex_loop map length].
  { exists output, bits, bit_count. by rewrite Z.add_0_r. }
  destruct (base32hex_lut_range ch Hch) as [Hr Heq]. destruct Hch as (_ & Hlt & Hne).
  rewrite !decide_False by lia.
  destruct (base32hex_step n N bits bit_count output _ Hinv Hr) as (Hor & Hsmall & Hbig).
  rewrite Hor, digits_value_cons. replace (n + Z.of_nat (S (length input)))
    with (n + 1 + Z.of_nat (length input)) by lia.
  case_decide as Hd; apply IH; [by apply Hbig|apply Hsmall; lia].
Qed.

Lemma base32hex_loop_end input rest bits bit_count output :
  Forall base32hex_digit input →
  base32hex_loop (input ++ 61 :: rest) bits bit_count output = base32hex_loop input bits bit_count output.
Proof.
  intros Hin. revert bits bit_count output.
  induction Hin as [|ch input Hch Hin IH]; intros bits bit_count output; [done|].
  cbn [app base32hex_loop]. by rewrite !IH.
Qed.

Lemma base32hex_loop_bad input ch rest bits bit_count output :
  Forall base32hex_digit input → is_u8 ch → ch ≠ 61 → ¬ base32hex_digit ch →
  base32hex_loop (input ++ ch :: rest) bits bit_count output = None.
Proof.
  intros Hin Hu Hne Hch. revert bits bit_count output.
  induction Hin as [|c input Hc Hin IH]; intros bits bit_count output; cbn [app base32hex_loop].
  - rewrite decide_False by done. case_decide; [done|]. rewrite decide_True; [done|].
    destruct (decide (base32hex_lut ch = 255)); [done|]. destruct Hch. split_and!; [done|lia|done].
  - destruct (base32hex_lut_range c Hc) as [_ Hc61]. destruct Hc as (_ & Hlt & Hne255).
    rewrite !decide_False by lia. case_decide; apply IH.
Qed.

Lemma digits_value_app base acc ds es :
  digits_value base acc (ds ++ es) = digits_value base (digits_value base acc ds) es.
Proof. unfold digits_value. by rewrite foldl_app. Qed.

(** Digits below the base are determined by their number and their value. *)
Lemma digits_value_inj base ds es :
  0 < base → length ds = length es →
  Forall (λ d, 0 ≤ d < base) ds → Forall (λ d, 0 ≤ d < base) es →
  digits_value base 0 ds = digits_value base 0 es → ds = es.
Proof.
  intros Hb. revert es. induction ds as [|d ds IH] using rev_ind; intros es Hlen Hds Hes Hv.
  { by destruct es. }
  destruct es as [|e es _] using rev_ind; [rewrite length_app in Hlen; simpl in *; lia|].
  rewrite !length_app in Hlen. simpl in Hlen. rewrite !digits_value_snoc in Hv.
  apply Forall_app in Hds as [Hds [Hd _]%Forall_cons], Hes as [Hes [He _]%Forall_cons].
  assert (Heq : digits_value base 0 ds = digits_value base 0 es ∧ d = e)
    by (apply (Z.div_mod_unique base); [left; exact Hd|left; exact He|lia]).
  destruct Heq as [Hvv ->]. f_equal. apply IH; try done; lia.
Qed.

(** The encoder of RFC 4648 section 7, without padding, as a reference. *)
Fixpoint digits_of (base : Z) (n : nat) (x : Z) : list Z :=
  match n with
  | O => []
  | S n => digits_of base n (x / base) ++ [x mod base]
  end.

Definition base32hex_char (d : Z) : Z := if decide (d < 10) then 48 + d else 55 + d.

Definition base32hex_encode (bs : bytes) : str :=
  let n := (8 * Z.of_nat (length bs) + 4) / 5 in
  let pad := 5 * n - 8 * Z.of_nat (length bs) in
  map base32hex_char (digits_of 32 (Z.to_nat n) (digits_value 256 0 bs * 2 ^ pad)).

Lemma digits_of_length base n x : length (digits_of base n x) = n.
Proof. revert x. induction n as [|n IH]; intros x; [done|]. cbn [digits_of]. rewrite length_app, IH. simpl. lia. Qed.

Lemma digits_of_range base n x : 0 < base → Forall (λ d, 0 ≤ d < base) (digits_of base n x).
Proof.
  intros Hb. revert x. induction n as [|n IH]; intros x; [constructor|]. cbn [digits_of].
  apply Forall_app. split; [apply IH|]. constructor; [by apply Z.mod_pos_bound|constructor].
Qed.

Lemma digits_of_value base n x :
  0 < base → 0 ≤ x < base ^ Z.of_nat n → digits_value base 0 (digits_of base n x) = x.
Proof.
  intros Hb. revert x. induction n as [|n IH]; intros x Hx.
  { simpl in *. lia. }
  rewrite Nat2Z.inj_succ, Z.pow_succ_r in Hx by lia. cbn [digits_of].
  rewrite digits_value_snoc, IH; [pose proof (Z.div_mod x base); lia|].
  split; [apply Z.div_pos; lia|apply Z.div_lt_upper_bound; lia].
Qed.

Lemma digits_value_range base ds :
  0 < base → Forall (λ d, 0 ≤ d < base) ds →
  0 ≤ digits_value base 0 ds < base ^ Z.of_nat (length ds).
Proof.
  intros Hb. induction ds as [|d ds IH] using rev_ind; intros Hds; [done|].
  apply Forall_app in Hds as [Hds [Hd _]%Forall_cons]. specialize (IH Hds).
  rewrite digits_value_snoc, length_app. simpl.
  rewrite Nat.add_1_r, Nat2Z.inj_succ, Z.pow_succ_r by lia. nia.
Qed.

Lemma base32hex_char_digit d :
  0 ≤ d < 32 → base32hex_digit (base32hex_char d) ∧ base32hex_lut (base32hex_char d) = d.
Proof.
  intros Hd. unfold base32hex_digit, base32hex_char, base32hex_lut, is_u8.
  repeat case_decide; lia.
Qed.

Lemma base32hex_encode_digits bs :
  Forall base32hex_digit (base32hex_encode bs) ∧
  map base32hex_lut (base32hex_encode bs) =
    digits_of 32 (Z.to_nat ((8 * Z.of_nat (length bs) + 4) / 5))
      (digits_value 256 0 bs *
       2 ^ (5 * ((8 * Z.of_nat (length bs) + 4) / 5) - 8 * Z.of_nat (length bs))).
Proof.
  unfold base32hex_encode. cbn zeta. set (ds := digits_of _ _ _).
  assert (Hr : Forall (λ d, 0 ≤ d < 32) ds) by by apply digits_of_range.
  clearbody ds. induction Hr as [|d ds Hd Hr [IH1 IH2]]; [by repeat constructor|].
  destruct (base32hex_char_digit d Hd) as [H1 H2]. cbn [map]. rewrite IH2, H2.
  split; [by constructor|done].
Qed.

Lemma base32hex_decode_value input rest :
  Forall base32hex_digit input → (rest = [] ∨ ∃ r, rest = 61 :: r) →
  let n := Z.of_nat (length input) in
  ∃ out, base32hex_decode (input ++ rest) = Some out ∧ bytes_ok out ∧
    Z.of_nat (length out) = 5 * n / 8 ∧
    digits_value 256 0 out = digits_value 32 0 (map base32hex_lut input) / 2 ^ (5 * n mod 8).
Proof.
  intros Hin Hrest n.
  assert (Hloop : base32hex_decode (input ++ rest) = base32hex_loop input 0 0 []).
  { unfold base32hex_decode. destruct Hrest as [->|[r ->]]; [by rewrite app_nil_r|].
    by apply base32hex_loop_end. }
  destruct (base32hex_loop_digits input 0 0 0 0 []) as (out & b & bc & Hl & Hok & Hbc & Hb & Hlen & HN);
    [done|by split_and!; [constructor|..]|].
  exists out. rewrite Hloop, Hl. rewrite Z.add_0_l in Hlen. fold n in Hlen.
  assert (Hmod : 5 * n mod 8 = bc) by (Z.to_euclidean_division_equations; lia).
  split_and!; [done|done|Z.to_euclidean_division_equations; lia|].
  rewrite Hmod, HN, Z.add_comm, Z.div_add by (apply Z.pow_nonzero; lia).
  by rewrite Z.div_small.
Qed.

(** ** Properties *)

(** C36: the comparison of names is a total order on what names have in common up to letter
    case and empty labels, the labels from the root down in lower case, compared as byte
    strings (RFC 4034 section 6.1); an NSEC record covers exactly the names strictly between
    its owner and its next name, or, when it is the last of the zone, those after the owner
    or before the next name; so it never covers the names it links. *)
Theorem nsec_covers_spec owner next qname :
  LawfulCmp key_cmp ∧
  (∀ a b, canonical_dns_name_order a b = key_cmp (canonical_key a) (canonical_key b)) ∧
  (canonical_dns_name_order owner next = Lt →
   nsec_covers_name owner next qname = true ↔
   canonical_dns_name_order owner qname = Lt ∧ canonical_dns_name_order qname next = Lt) ∧
  (canonical_dns_name_order owner next ≠ Lt →
   nsec_covers_name owner next qname = true ↔
   canonical_dns_name_order owner qname = Lt ∨ canonical_dns_name_order qname next = Lt) ∧
  (canonical_key qname = canonical_key owner ∨ canonical_key qname = canonical_key next →
   nsec_covers_name owner next qname = false).
Proof.
  assert (Hlt : canonical_dns_name_order owner next = Lt →
   nsec_covers_name owner next qname = true ↔
   canonical_dns_name_order owner qname = Lt ∧ canonical_dns_name_order qname next = Lt).
  { intros E. unfold nsec_covers_name. rewrite E, andb_true_iff, !bool_decide_eq_true.
    by rewrite !canonical_order_key, key_cmp_gt. }
  assert (Hge : canonical_dns_name_order owner next ≠ Lt →
   nsec_covers_name owner next qname = true ↔
   canonical_dns_name_order owner qname = Lt ∨ canonical_dns_name_order qname next = Lt).
  { intros E. unfold nsec_covers_name. destruct (canonical_dns_name_order owner next); try done;
      rewrite orb_true_iff, !bool_decide_eq_true; by rewrite !canonical_order_key, key_cmp_gt. }
  split_and!; [apply _|apply canonical_order_key|done|done|].
  intros Hk. apply not_true_is_false. intros Hc.
  assert (Hirr : ∀ k, key_cmp k k = Eq) by (intros k; apply (cmp_refl key_cmp)).
  destruct (decide (canonical_dns_name_order owner next = Lt)) as [E|E].
  - apply Hlt in Hc as [H1 H2]; [|done]. rewrite !canonical_order_key in H1, H2.
    destruct Hk as [Hk|Hk]; [rewrite Hk, Hirr in H1|rewrite Hk, Hirr in H2]; done.
  - apply Hge in Hc; [|done]. rewrite canonical_order_key in E, Hc. rewrite canonical_order_key in Hc.
    destruct Hk as [Hk|Hk]; rewrite Hk in Hc; rewrite Hirr in Hc; destruct Hc; done.
Qed.

Lemma nsec_covers_spec_witness :
  nsec_covers_name [97] [99] [66] = true ∧ nsec_covers_name [97] [99] [65; DOT] = false.
Proof.
  split.
  - destruct (nsec_covers_spec [97] [99] [66]) as (_ & _ & Hlt & _).
    apply Hlt; [by vm_compute|split; by vm_compute].
  - destruct (nsec_covers_spec [97] [99] [65; DOT]) as (_ & _ & _ & _ & Hself).
    apply Hself. left. by vm_compute.
Defined.

(** a type bitmap made of windows as RFC 4034 section 4.1.2 lays them out is read back
    exactly: [type_bitmap_contains] finds the types whose bit is set, whatever windows and
    lengths the bitmap has. *)
Theorem type_bitmap_spec ws qtype :
  Forall window_ok ws → NoDup ws.*1 → is_u16 qtype →
  type_bitmap_contains (bitmap_wire ws) qtype = true ↔ Exists (window_lists qtype) ws.
Proof.
  intros Hws Hnd Hq. unfold type_bitmap_contains.
  pose proof (bitmap_loop_windows (S (length (bitmap_wire ws))) [] ws) as Hloop.
  cbn [app length] in Hloop. rewrite Hloop by (done || lia).
  assert (Hw : u8 (qtype / 256) = qtype / 256) by (apply u8_id; unfold is_u8, is_u16 in *; Z.to_euclidean_division_equations; lia).
  assert (Hb : u8 (qtype mod 256) = qtype mod 256) by apply Zmod_mod.
  assert (Hm : (qtype mod 256) mod 8 = qtype mod 8) by (Z.to_euclidean_division_equations; lia).
  assert (H8 : 0 ≤ qtype mod 8 ≤ 7) by (Z.to_euclidean_division_equations; lia).
  rewrite Hw, Hb, Hm.
  rewrite Exists_exists. unfold window_lists. split.
  - intros (i & w & Hi & Hw1 & _ & b & Hlk & Hbit). exists w. split; [by apply list_elem_of_lookup_2 in Hi|].
    split; [done|]. exists b. split; [done|]. by apply land_mask.
  - intros (w & (i & Hi)%list_elem_of_lookup & Hw1 & b & Hlk & Hbit). exists i, w.
    split_and!; [done|done| |exists b; split; [done|by apply land_mask]].
    intros j w' Hj Hj' [Hw' _]. assert (j = i); [|lia].
    apply (NoDup_lookup (ws.*1) j i (qtype / 256)); [done|..];
      rewrite list_lookup_fmap; [by rewrite Hj', <-Hw'|by rewrite Hi, <-Hw1].
Qed.

Lemma type_bitmap_spec_witness :
  type_bitmap_contains (bitmap_wire [(0, [64; 1]); (1, [64])]) 15 = true.
Proof.
  apply (type_bitmap_spec [(0, [64; 1]); (1, [64])] 15).
  - repeat constructor; simpl; (width || lia).
  - by apply (bool_decide_unpack _).
  - width.
  - left. split; [done|]. exists 1. by split.
Defined.

(** [base32hex_decode] reads RFC 4648 base32hex in either letter case: digits up to the end
    or to the padding give the bytes whose value is theirs without the bits left over, any
    other character makes it fail, and it inverts the encoder. *)
Theorem base32hex_spec input rest ch bs :
  Forall base32hex_digit input → is_u8 ch → bytes_ok bs →
  let n := Z.of_nat (length input) in
  ((rest = [] ∨ ∃ r, rest = 61 :: r) →
   ∃ out, base32hex_decode (input ++ rest) = Some out ∧ bytes_ok out ∧
     Z.of_nat (length out) = 5 * n / 8 ∧
     digits_value 256 0 out = digits_value 32 0 (map base32hex_lut input) / 2 ^ (5 * n mod 8)) ∧
  (¬ base32hex_digit ch → ch ≠ 61 → base32hex_decode (input ++ ch :: rest) = None) ∧
  base32hex_decode (base32hex_encode bs) = Some bs.
Proof.
  intros Hin Hch Hbs n. split_and!; [by apply base32hex_decode_value|by intros; apply base32hex_loop_bad|].
  destruct (base32hex_encode_digits bs) as [Hd Hlut].
  destruct (base32hex_decode_value (base32hex_encode bs) [] Hd) as (out & Hout & Hok & Hlen & Hv);
    [by left|]. rewrite app_nil_r in Hout. rewrite Hout. f_equal.
  set (L := Z.of_nat (length bs)) in *. set (m := (8 * L + 4) / 5) in *.
  assert (Hm : 0 ≤ 5 * m - 8 * L < 5) by (subst m; Z.to_euclidean_division_equations; lia).
  assert (Henc : Z.of_nat (length (base32hex_encode bs)) = m).
  { rewrite <-(length_map base32hex_lut), Hlut, digits_of_length. fold L. lia. }
  rewrite Henc in Hlen, Hv.
  assert (Hrange : 0 ≤ digits_value 256 0 bs < 256 ^ L) by (apply digits_value_range; [lia|done]).
  assert (Hpow : 32 ^ m = 256 ^ L * 2 ^ (5 * m - 8 * L)).
  { change 32 with (2 ^ 5). change 256 with (2 ^ 8). rewrite <-!Z.pow_mul_r, <-Z.pow_add_r by lia.
    f_equal. lia. }
  assert (H2 : 0 < 2 ^ (5 * m - 8 * L)) by (apply Z.pow_pos_nonneg; lia).
  rewrite Hlut in Hv. rewrite digits_of_value in Hv by (rewrite ?Z2Nat.id by lia; nia).
  assert (Hmod : 5 * m mod 8 = 5 * m - 8 * L) by (Z.to_euclidean_division_equations; lia).
  rewrite Hmod, Z.div_mul in Hv by lia.
  apply (digits_value_inj 256); [lia| |done|done|done].
  apply Nat2Z.inj. rewrite Hlen. fold L. Z.to_euclidean_division_equations; lia.
Qed.

Lemma base32hex_spec_witness :
  base32hex_decode [67; 80; 78; 109; 117; 111; 103] = Some [102; 111; 111; 98] ∧
  base32hex_decode [67; 36; 71] = None.
Proof.
  assert (H67 : base32hex_digit 67) by (split_and!; by vm_compute).
  split.
  - destruct (base32hex_spec [] [] 0 [102; 111; 111; 98]) as (_ & _ & <-);
      [constructor|width|repeat constructor; by vm_compute|]. by vm_compute.
  - apply (base32hex_spec [67] [71] 36 []); [by repeat constructor|width|constructor| |done].
    intros (_ & _ & Hl). by destruct Hl.
Defined.

(** ** What a denial is worth *)

Section denial_properties.
Context {C : Type → Type} `{LruLaws cache_key C} `{Crypto}.

(** A list of unparsed records verifies nothing. *)
Lemma unparsed_keys_verify_nothing (f : ResourceRecord → Z → Z → Z → bytes → bool) recs :
  Forall (λ r, rr_parsed r = None) recs →
  existsb (λ dk,
    match rr_parsed dk with
    | Some (RData.DNSKEY flags protocol dk_algo public_key) => f dk flags protocol dk_algo public_key
    | _ => false
    end) recs = false.
Proof. induction 1 as [|r recs Hr _ IH]; [done|]. cbn [existsb]. by rewrite Hr, IH. Qed.

Lemma verify_denial_rrsets_fails T (cache : DnsCache C) now clk i all_rrsigs rrsets :
  cache_ok T cache → rrsets ≠ [] →
  (verify_denial_rrsets now clk i all_rrsigs rrsets cache).1 = false.
Proof.
  intros Hok Hne. destruct rrsets as [|[[name qtype] rrset] rrsets]; [done|].
  cbn [verify_denial_rrsets].
  destruct (find_covering_rrsig all_rrsigs name qtype) as [rrsig|] eqn:Hfind; [|done].
  apply find_some in Hfind as [_ Hp].
  destruct (rr_parsed rrsig) as [[]|]; try done. case_match; [done|].
  destruct (lookup_cache cache (clk i) signer_name 48 1) as [found cache'] eqn:Hl.
  destruct found as [[recs ttl]|]; [|done].
  assert (Hrecs : Forall (λ r, rr_parsed r = None) recs).
  { eapply (lookup_cache_unparsed T cache (clk i) signer_name 48 1 recs ttl); [done|]. by rewrite Hl. }
  rewrite (unparsed_keys_verify_nothing (λ _ flags protocol dk_algo public_key, _)) by done. done.
Qed.

(** C34: the keys that [verify_authority_rrsigs] checks a denial with come from the cache, and
    the cache hands records out unparsed: so in every cache the operations can reach, no
    signature of a denial verifies, and [validate_denial] never answers anything but
    Indeterminate, whatever the authority section holds. *)
Theorem denial_always_indeterminate T (cache : DnsCache C) now clk authorities all_rrsigs denial_type
    qname qtype is_nxdomain :
  cache_reachable T cache →
  (verify_authority_rrsigs now clk authorities all_rrsigs denial_type cache).1 = false ∧
  (validate_denial now clk authorities all_rrsigs qname qtype is_nxdomain cache).1 =
    DnssecStatus.Indeterminate.
Proof.
  intros Hok%cache_reachable_ok.
  assert (Hv : ∀ dt, (verify_authority_rrsigs now clk authorities all_rrsigs dt cache).1 = false).
  { intros dt. unfold verify_authority_rrsigs. set (rrsets := group_rrsets _).
    pose proof (verify_denial_rrsets_fails T cache now clk 0 all_rrsigs rrsets Hok) as Hf.
    destruct (verify_denial_rrsets _ _ _ _ _ _) as [ok cache']. cbn [fst] in *.
    destruct (decide (rrsets = [])) as [->|Hne]; [by rewrite andb_false_r|by rewrite Hf]. }
  split; [apply Hv|]. unfold validate_denial.
  pose proof (Hv 47) as H47. pose proof (Hv 50) as H50.
  destruct (verify_authority_rrsigs now clk authorities all_rrsigs 47 cache) as [o1 c1].
  destruct (verify_authority_rrsigs now clk authorities all_rrsigs 50 cache) as [o2 c2].
  cbn [fst] in *. subst o1 o2. by repeat case_decide.
Qed.
End denial_properties.

(** The zone [a.], its NSEC record with the signature that [toy_crypto] accepts, and its key
    in the cache: everything a proof of non-existence needs. *)
Definition sample_nsec : ResourceRecord :=
  mkRR [1; 97; 0] 47 1 60 0 [] (Some (RData.NSEC [1; 99; 1; 97; 0] [0; 1; 64])).
Definition sample_rrsig (signature : bytes) : ResourceRecord :=
  mkRR [1; 97; 0] 46 1 60 0 []
    (Some (RData.RRSIG 47 8 1 60 2000 1000 (compute_key_tag 257 3 8 [1; 3; 7]) [1; 97; 0] signature)).
Definition sample_signed : ResourceRecord :=
  sample_rrsig (build_signed_data (sample_rrsig []) [sample_nsec]).
Definition denial_cache : DnsCache (alru cache_key) :=
  insert (with_max_entries 10) (λ _, 5) [1; 97; 0] 48 1 300 (dnskey_rdata 257 3 8 [1; 3; 7]) 7.

Lemma denial_always_indeterminate_witness :
  nsec_verdict [sample_nsec] [98; DOT; 97] 1 true = DnssecStatus.Secure ∧
  is_Some (lookup_cache denial_cache (λ _, 6) [1; 97; 0] 48 1).1 ∧
  (@validate_denial _ _ toy_crypto 1500 (λ _ _, 6) [sample_nsec] [sample_signed] [98; DOT; 97] 1 true
     denial_cache).1 = DnssecStatus.Indeterminate.
Proof.
  split_and!; [by vm_compute|vm_compute; by eexists|].
  apply (@denial_always_indeterminate (alru cache_key) _ _ _ toy_crypto 5 denial_cache 1500
           (λ _ _, 6) [sample_nsec] [sample_signed] 47 [98; DOT; 97] 1 true).
  apply (reach_step 0 5 (with_max_entries 10)); [constructor|lia|].
  constructor; [split; lia|width].
Defined.
