(* ===== verification/Blocklist.v ===== *)
(** * The blocklist (src/blocklist.rs)

    The parsing of block lists and custom records, the sets it fills, and
    the decision on a queried name.  A string is here the list of its
    Unicode scalar values; the source looks for ASCII characters only, so a
    byte position in it is a position in this list, except in
    [parse_custom_dns_entry], where the difference is a panic.  The
    downloads and file reads are parameters. *)

From stdpp Require Import strings gmap.
From S2P Require Import Prelude Str.
#[local] Open Scope Z_scope.

(** ** Characters and strings of the standard library *)

(** [str::to_lowercase]: the Unicode tables, of which only the ASCII part is fixed here. *)
Class Unicode := {
  to_lowercase : str → str;
  to_lowercase_ascii s : Forall (λ c, 0 <= c < 128) s → to_lowercase s = ascii_lower s;
}.

(** [char::is_whitespace]: the characters with the property White_Space. *)
Definition is_whitespace (c : Z) : bool :=
  bool_decide (9 <= c <= 13) || bool_decide (c = 32) || bool_decide (c = 133) ||
  bool_decide (c = 160) || bool_decide (c = 5760) || bool_decide (8192 <= c <= 8202) ||
  bool_decide (c = 8232) || bool_decide (c = 8233) || bool_decide (c = 8239) ||
  bool_decide (c = 8287) || bool_decide (c = 12288).

Definition is_ascii_digit (c : Z) : bool := between 48 c 57.
Definition is_ascii_hexdigit (c : Z) : bool :=
  between 48 c 57 || between 65 c 70 || between 97 c 102.

(** [str::trim_start], [str::trim] *)
Fixpoint trim_start (s : str) : str :=
  match s with
  | [] => []
  | c :: s' => if is_whitespace c then trim_start s' else s
  end.
Definition trim (s : str) : str := reverse (trim_start (reverse (trim_start s))).

(** [str::strip_prefix], [str::strip_suffix], [str::starts_with], [str::contains] *)
Fixpoint strip_prefix (p s : str) : option str :=
  match p, s with
  | [], _ => Some s
  | x :: p, y :: s => if decide (x = y) then strip_prefix p s else None
  | _ :: _, [] => None
  end.
Definition strip_suffix (p s : str) : option str :=
  reverse <$> strip_prefix (reverse p) (reverse s).
Definition starts_with (p s : str) : bool := bool_decide (is_Some (strip_prefix p s)).
Definition contains (c : Z) (s : str) : bool := bool_decide (c ∈ s).

(** [str::find]: the position of the first character that satisfies [P]. *)
Fixpoint find_char (P : Z → bool) (s : str) : option nat :=
  match s with
  | [] => None
  | c :: s => if P c then Some 0%nat else S <$> find_char P s
  end.

(** [str::split_whitespace] *)
Fixpoint split_whitespace_aux (word : str) (s : str) : list str :=
  match s with
  | [] => if decide (word = []) then [] else [word]
  | c :: s =>
    if is_whitespace c then
      if decide (word = []) then split_whitespace_aux [] s
      else word :: split_whitespace_aux [] s
    else split_whitespace_aux (word ++ [c]) s
  end.
Definition split_whitespace (s : str) : list str := split_whitespace_aux [] s.

(** [str::lines]: a line ends with a line feed, of which a carriage return before it is part. *)
Definition strip_cr (s : str) : str := default s (strip_suffix [13] s).
Fixpoint lines_of (pieces : list str) : list str :=
  match pieces with
  | [] => []
  | [last] => if decide (last = []) then [] else [last]
  | piece :: pieces => strip_cr piece :: lines_of pieces
  end.
Definition lines (s : str) : list str := lines_of (split_on 10 s).

(** A string literal. *)
Definition lit (s : string) : str := map (λ a, Z.of_nat (Ascii.nat_of_ascii a)) (String.list_ascii_of_string s).

(** ** Data *)

Module BlocklistMode.
Inductive t : Type := None | Adblock | Malware | All.
#[global] Instance t_eq_dec : EqDecision t.
Proof. solve_decision. Defined.

Definition from_str (s : str) : t :=
  if decide (s = lit "adblock") then Adblock
  else if decide (s = lit "malware") then Malware
  else if decide (s = lit "all") then All
  else None.
End BlocklistMode.

Module BlockResponse.
Inductive t : Type := Nxdomain | Nullroute.
#[global] Instance t_eq_dec : EqDecision t.
Proof. solve_decision. Defined.

Definition from_str (s : str) : t := if decide (s = lit "nullroute") then Nullroute else Nxdomain.
End BlockResponse.

Module BlockAction.
Inductive t : Type :=
  | Nxdomain
  | NullrouteV4 (ip : str)
  | NullrouteV6 (ip : str)
  | Custom (value : str).
#[global] Instance t_eq_dec : EqDecision t.
Proof. solve_decision. Defined.
End BlockAction.

Record BlocklistStats := mkStats {
  total_blocked : nat;
  total_whitelisted : nat;
  total_custom : nat;
  stats_sources_loaded : nat;
  queries_blocked : Z;
  last_refresh : option str;
  stats_errors : Z;
}.

(** The blocklist's part of [ServerConfig]. *)
Record BlocklistConfig := mkConfig {
  cfg_blocklist_mode : str;
  cfg_blocklist_sources : list str;
  cfg_blocklist : list str;
  cfg_whitelist : list str;
  cfg_custom_dns : list str;
  cfg_nullroute : str;
  cfg_nullroute_v6 : str;
  cfg_block_response : str;
}.

Record Blocklist := mkBlocklist {
  bl_enabled : bool;
  bl_mode : BlocklistMode.t;
  bl_blocked : gset str;
  bl_whitelist : gset str;
  bl_custom : gmap str str;
  bl_sources : list str;
  bl_nullroute_v4 : str;
  bl_nullroute_v6 : str;
  bl_block_response : BlockResponse.t;
  bl_stats : BlocklistStats;
}.

Definition with_blocked (blocked : gset str) (self : Blocklist) : Blocklist :=
  mkBlocklist (bl_enabled self) (bl_mode self) blocked (bl_whitelist self) (bl_custom self)
    (bl_sources self) (bl_nullroute_v4 self) (bl_nullroute_v6 self) (bl_block_response self)
    (bl_stats self).
Definition with_stats (stats : BlocklistStats) (self : Blocklist) : Blocklist :=
  mkBlocklist (bl_enabled self) (bl_mode self) (bl_blocked self) (bl_whitelist self)
    (bl_custom self) (bl_sources self) (bl_nullroute_v4 self) (bl_nullroute_v6 self)
    (bl_block_response self) stats.

(** ** Parsing *)

Section parsing.
Context `{Unicode}.

Definition normalise_domain (domain : str) : str :=
  let d := to_lowercase (trim domain) in
  let d := trim_end_matches DOT d in
  match strip_prefix (lit "*.") d with
  | Some suffix => suffix
  | None => if decide (d = lit "*") then [] else d
  end.

Definition strip_inline_comment (line : str) : str :=
  match find_char (λ c, bool_decide (c = 35)) line with
  | Some pos => trim (take pos line)
  | None => line
  end.

Definition looks_like_ip (s : str) : bool :=
  if contains DOT s && forallb (λ c, is_ascii_digit c || bool_decide (c = DOT)) s then true
  else if contains 58 s then
    forallb (λ c, is_ascii_hexdigit c || bool_decide (c = 58) || bool_decide (c = DOT)) s
  else false.

Definition parse_hosts_line (line : str) : option str :=
  let line := trim line in
  if decide (line = []) then None else
  match split_whitespace line with
  | [] => None
  | ip :: parts =>
    if negb (looks_like_ip ip) && bool_decide (ip ≠ lit "0") then None else
    match parts with
    | [] => None
    | domain :: _ =>
      let domain := normalise_domain domain in
      if decide (domain = []) then None else Some domain
    end
  end.

Definition parse_domain_line (line : str) : option str :=
  let line := trim line in
  if decide (line = []) then None else
  if looks_like_ip line || bool_decide (line = lit "0") || bool_decide (line = lit "localhost")
  then None
  else
    let cleaned :=
      match strip_prefix (lit "||") line with
      | Some rest => default rest (strip_suffix (lit "^") rest)
      | None => line
      end in
    let domain := normalise_domain cleaned in
    if bool_decide (domain = []) || contains 47 domain || contains 32 domain then None
    else Some domain.

(** [entry[..pos].trim()] and [entry[pos + 1..].trim()]: the second slice starts inside a
    character when the one at [pos] is longer than a byte. *)
Definition split_entry (pos : nat) (entry : str) : outcome unit (str * str) :=
  if decide (128 <= nth pos entry 0) then Panic
  else Ok (trim (take pos entry), trim (drop (pos + 1) entry)).

Definition parse_custom_dns_entry (entry : str) : outcome unit (str * str) :=
  let entry := trim entry in
  match find_char (λ c, bool_decide (c = 61)) entry with
  | Some pos => split_entry pos entry
  | None =>
    match find_char (λ c, bool_decide (c = 58)) entry with
    | Some pos => split_entry pos entry
    | None =>
      match find_char is_whitespace entry with
      | Some pos => split_entry pos entry
      | None => Ok (entry, [])
      end
    end
  end.

(** The loop over the positions of [domain], from the right, and the final reversal. *)
Definition domain_parents (domain : str) : list str :=
  reverse (foldl (λ parents i, if decide (domain !! i = Some DOT) then parents ++ [drop (i + 1) domain]
                               else parents) [] (reverse (seq 0 (length domain)))).
End parsing.

(** ** Operations *)

(** The downloads and file reads of [load_source]: whether a client can be built, and what a
    request gives within its timeout, the status and the body if it could be read. *)
Class Sources := {
  http_client_builds : bool;
  http_get : str → option (Z * option str);
  read_to_string : str → option str;
}.

Section operations.
Context `{Unicode}.

(** A [for] loop that inserts the normalised entries. *)
Fixpoint normalised_set (entries : list str) (acc : gset str) : gset str :=
  match entries with
  | [] => acc
  | entry :: entries =>
    let normalised := normalise_domain entry in
    normalised_set entries (if decide (normalised = []) then acc else {[normalised]} ∪ acc)
  end.

Fixpoint custom_records (entries : list str) (acc : gmap str str) : outcome unit (gmap str str) :=
  match entries with
  | [] => Ok acc
  | entry :: entries =>
    '(domain, value) ← parse_custom_dns_entry entry;
    let normalised := normalise_domain domain in
    custom_records entries
      (if decide (normalised ≠ [] ∧ value ≠ []) then <[normalised := value]> acc else acc)
  end.

Definition blocklist_new (config : BlocklistConfig) : outcome unit Blocklist :=
  let mode := BlocklistMode.from_str (cfg_blocklist_mode config) in
  let enabled := bool_decide (mode ≠ BlocklistMode.None) in
  let initial_blocked := normalised_set (cfg_blocklist config) ∅ in
  let initial_whitelist := normalised_set (cfg_whitelist config) ∅ in
  initial_custom ← custom_records (cfg_custom_dns config) ∅;
  Ok (mkBlocklist enabled mode initial_blocked initial_whitelist initial_custom
        (cfg_blocklist_sources config) (cfg_nullroute config) (cfg_nullroute_v6 config)
        (BlockResponse.from_str (cfg_block_response config)) (mkStats 0 0 0 0 0 None 0)).

Definition is_enabled (self : Blocklist) : bool := bl_enabled self.
Definition mode (self : Blocklist) : BlocklistMode.t := bl_mode self.

Definition block_action (self : Blocklist) : BlockAction.t :=
  match bl_block_response self with
  | BlockResponse.Nxdomain => BlockAction.Nxdomain
  | BlockResponse.Nullroute => BlockAction.NullrouteV4 (bl_nullroute_v4 self)
  end.

Fixpoint custom_parent_loop (parents : list str) (custom : gmap str str) : option BlockAction.t :=
  match parents with
  | [] => None
  | parent :: parents =>
    match custom !! parent with
    | Some value =>
      if decide (value = [] ∨ value = lit "none") then None else Some (BlockAction.Custom value)
    | None => custom_parent_loop parents custom
    end
  end.
Definition check_custom_parent (domain : str) (custom : gmap str str) : option BlockAction.t :=
  custom_parent_loop (domain_parents domain) custom.

Fixpoint parent_custom_loop (parents : list str) (custom : gmap str str) : option str :=
  match parents with
  | [] => None
  | parent :: parents =>
    match custom !! parent with
    | Some value => Some value
    | None => parent_custom_loop parents custom
    end
  end.
Definition find_parent_custom (domain : str) (custom : gmap str str) : option str :=
  parent_custom_loop (domain_parents domain) custom.

Definition is_whitelisted_parent (domain : str) (whitelist : gset str) : bool :=
  existsb (λ parent, bool_decide (parent ∈ whitelist)) (domain_parents domain).
Definition is_blocked_parent (domain : str) (blocked : gset str) : bool :=
  existsb (λ parent, bool_decide (parent ∈ blocked)) (domain_parents domain).

Definition is_blocked (self : Blocklist) (domain : str) : option BlockAction.t :=
  if negb (bl_enabled self) then None else
  let normalised := normalise_domain domain in
  if decide (normalised = []) then None else
  match bl_custom self !! normalised with
  | Some value =>
    if decide (value = [] ∨ value = lit "none") then None else Some (BlockAction.Custom value)
  | None =>
    match check_custom_parent normalised (bl_custom self) with
    | Some action => Some action
    | None =>
      if decide (normalised ∈ bl_whitelist self) then None
      else if is_whitelisted_parent normalised (bl_whitelist self) then None
      else if decide (normalised ∈ bl_blocked self) then Some (block_action self)
      else if is_blocked_parent normalised (bl_blocked self) then Some (block_action self)
      else None
    end
  end.

Definition get_custom (self : Blocklist) (domain : str) : option str :=
  if negb (bl_enabled self) then None else
  let normalised := normalise_domain domain in
  if decide (normalised = []) then None else
  match bl_custom self !! normalised with
  | Some value => Some value
  | None => find_parent_custom normalised (bl_custom self)
  end.

Definition stats (self : Blocklist) : BlocklistStats := bl_stats self.

Definition record_blocked (self : Blocklist) : Blocklist :=
  let s := bl_stats self in
  with_stats (mkStats (total_blocked s) (total_whitelisted s) (total_custom s)
                (stats_sources_loaded s) ((queries_blocked s + 1) mod 2 ^ 64) (last_refresh s)
                (stats_errors s)) self.

(** [blocked.insert(domain)], and whether the domain is new. *)
Definition insert_domain (domain : str) (blocked : gset str) (count : nat) : gset str * nat :=
  if decide (domain ∈ blocked) then (blocked, count) else ({[domain]} ∪ blocked, S count).

Fixpoint parse_lines (ls : list str) (blocked : gset str) (count : nat) : gset str * nat :=
  match ls with
  | [] => (blocked, count)
  | line :: ls =>
    let line := trim line in
    if bool_decide (line = []) || starts_with (lit "#") line then parse_lines ls blocked count
    else
      let line := strip_inline_comment line in
      match parse_hosts_line line with
      | Some domain =>
        if decide (domain = []) then parse_lines ls blocked count
        else let '(blocked, count) := insert_domain domain blocked count in
             parse_lines ls blocked count
      | None =>
        match parse_domain_line line with
        | Some domain =>
          if decide (domain = []) then parse_lines ls blocked count
          else let '(blocked, count) := insert_domain domain blocked count in
               parse_lines ls blocked count
        | None => parse_lines ls blocked count
        end
      end
  end.

Definition parse_and_insert (self : Blocklist) (data : str) : nat * Blocklist :=
  let '(blocked, count) := parse_lines (lines data) (bl_blocked self) 0 in
  (count, with_blocked blocked self).

Context `{Sources}.

Definition fetch_url (url : str) : option str :=
  if negb http_client_builds then None else
  '(status, text) ← http_get url;
  if decide (200 <= status <= 299) then text else None.

Definition load_source (self : Blocklist) (source : str) : option nat * Blocklist :=
  let data :=
    if starts_with (lit "http://") source || starts_with (lit "https://") source
    then fetch_url source else read_to_string source in
  match data with
  | None => (None, self)
  | Some data => let '(count, self) := parse_and_insert self data in (Some count, self)
  end.

(** The loop over the sources: how many were loaded, and how many failed. *)
Fixpoint load_sources (sources : list str) (self : Blocklist) (sources_loaded : nat) (errors : Z)
    : nat * Z * Blocklist :=
  match sources with
  | [] => (sources_loaded, errors, self)
  | source :: sources =>
    match load_source self source with
    | (Some _, self) => load_sources sources self (S sources_loaded) errors
    | (None, self) => load_sources sources self sources_loaded (errors + 1)
    end
  end.

Definition load (now : str) (self : Blocklist) : Blocklist :=
  if negb (bl_enabled self) || bool_decide (bl_mode self = BlocklistMode.None) then self else
  let '(sources_loaded, errors, self) := load_sources (bl_sources self) self 0 0 in
  let s := bl_stats self in
  with_stats (mkStats (size (bl_blocked self)) (size (bl_whitelist self)) (size (bl_custom self))
                sources_loaded (queries_blocked s) (Some now) ((stats_errors s + errors) mod 2 ^ 64))
    self.

(** One round of the loop of [refresh], after its sleep. *)
Definition refresh_round (now : str) (self : Blocklist) : Blocklist :=
  let self := with_blocked ∅ self in
  let '(sources_loaded, errors, self) := load_sources (bl_sources self) self 0 0 in
  let s := bl_stats self in
  with_stats (mkStats (size (bl_blocked self)) (total_whitelisted s) (total_custom s)
                sources_loaded (queries_blocked s) (Some now) ((stats_errors s + errors) mod 2 ^ 64))
    self.

(** [refresh]: it returns at once when there is nothing to do; otherwise [n] rounds of its
    endless loop. *)
Definition refresh (nows : list str) (self : Blocklist) : Blocklist :=
  if negb (bl_enabled self) || bool_decide (bl_mode self = BlocklistMode.None) then self
  else foldl (λ self now, refresh_round now self) self nows.
End operations.

(** ** Specification *)

(** [p] is a parent domain of [d]. *)
Definition parent_of (d p : str) : Prop := ∃ pre, d = pre ++ DOT :: p.

(** [d] or one of its parents is in [X]. *)
Definition covered (X : gset str) (d : str) : Prop := d ∈ X ∨ ∃ p, parent_of d p ∧ p ∈ X.

(** [p] is the closest parent of [d] that has a custom record, which is [v]. *)
Definition closest_custom (custom : gmap str str) (d p v : str) : Prop :=
  parent_of d p ∧ custom !! p = Some v ∧
  ∀ q, parent_of d q → (length p < length q)%nat → custom !! q = None.

Definition disabled_value (v : str) : Prop := v = [] ∨ v = lit "none".

(** The domain that a line of a block list adds. *)
Definition line_domain `{Unicode} (line : str) : option str :=
  let line := trim line in
  if bool_decide (line = []) || starts_with (lit "#") line then None
  else
    let line := strip_inline_comment line in
    match parse_hosts_line line with
    | Some domain => Some domain
    | None => parse_domain_line line
    end.

(** The domains of the lines, and of the text of a list. *)
Definition lines_domains `{Unicode} (ls : list str) : gset str :=
  list_to_set (omap line_domain ls).
Definition list_domains `{Unicode} (data : str) : gset str := lines_domains (lines data).

Definition source_data `{Sources} (source : str) : option str :=
  if starts_with (lit "http://") source || starts_with (lit "https://") source
  then fetch_url source else read_to_string source.

(** The domains of every source that can be read. *)
Definition sources_domains `{Unicode, Sources} (sources : list str) : gset str :=
  ⋃ (list_domains <$> omap source_data sources).

(** ** Lemmas *)

(** The parents, the closest first. *)
Fixpoint parents (d : str) : list str :=
  match d with
  | [] => []
  | c :: d => if decide (c = DOT) then d :: parents d else parents d
  end.

Lemma foldl_push {A B} (P : A → Prop) `{∀ x, Decision (P x)} (f : A → B) l acc :
  foldl (λ acc i, if decide (P i) then acc ++ [f i] else acc) acc l = acc ++ map f (filter P l).
Proof.
  revert acc. induction l as [|x l IH]; intros acc; cbn [foldl]; [by rewrite app_nil_r|].
  rewrite IH, filter_cons. case_decide; [|done]. by rewrite <-app_assoc.
Qed.

Lemma filter_reverse {A} (P : A → Prop) `{∀ x, Decision (P x)} (l : list A) :
  filter P (reverse l) = reverse (filter P l).
Proof.
  induction l as [|x l IH]; [done|]. rewrite reverse_cons, filter_app, IH.
  destruct (decide (P x)).
  - by rewrite !filter_cons_True, filter_nil, reverse_cons.
  - by rewrite !filter_cons_False, filter_nil, app_nil_r.
Qed.

Lemma filter_map_comm {A B} (P : B → Prop) `{∀ x, Decision (P x)} (f : A → B) (l : list A) :
  filter P (f <$> l) = f <$> filter (λ x, P (f x)) l.
Proof.
  induction l as [|x l IH]; [done|]. rewrite fmap_cons, !filter_cons, IH.
  by destruct (decide (P (f x))).
Qed.

Lemma domain_parents_eq d : domain_parents d = parents d.
Proof.
  unfold domain_parents. rewrite (foldl_push (λ i, d !! i = Some DOT) (λ i, drop (i + 1) d)).
  rewrite app_nil_l, filter_reverse. rewrite <-(fmap_reverse (λ i, drop (i + 1) d)), reverse_involutive.
  induction d as [|c d IH]; [done|]. cbn [length seq parents].
  rewrite <-IH, <-fmap_S_seq, filter_cons, filter_map_comm.
  assert (Htail : (λ i : nat, drop (i + 1) (c :: d)) <$>
            (S <$> filter (λ i : nat, (c :: d) !! S i = Some DOT) (seq 0 (length d))) =
          (λ i : nat, drop (i + 1) d) <$> filter (λ i : nat, d !! i = Some DOT) (seq 0 (length d)))
    by (by rewrite <-list_fmap_compose).
  destruct (decide (c = DOT)) as [->|Hc].
  - rewrite decide_True by done. rewrite fmap_cons, Htail. done.
  - rewrite decide_False by (intros [= ?]; done). exact Htail.
Qed.

Lemma parents_spec d p : p ∈ parents d ↔ parent_of d p.
Proof.
  unfold parent_of. induction d as [|c d IH]; cbn [parents].
  { split; [by intros ?%elem_of_nil|]. intros [[|? pre] ?]; simplify_eq. }
  assert (Hd : (∃ pre, c :: d = pre ++ DOT :: p) ↔ (c = DOT ∧ p = d) ∨ ∃ pre, d = pre ++ DOT :: p).
  { split.
    - intros [[|x pre] E]; simplify_eq/=; eauto.
    - intros [[-> ->]|[pre ->]]; [by exists []|by exists (c :: pre)]. }
  rewrite Hd, <-IH. case_decide; [rewrite elem_of_cons|]; naive_solver.
Qed.

(** The parents get shorter. *)
Lemma parents_shorter d p : p ∈ parents d → (length p < length d)%nat.
Proof. rewrite parents_spec. intros [pre ->]. rewrite length_app. simpl. lia. Qed.

Lemma existsb_covered (X : gset str) d :
  existsb (λ p, bool_decide (p ∈ X)) (domain_parents d) = true ↔ ∃ p, parent_of d p ∧ p ∈ X.
Proof.
  rewrite domain_parents_eq, existsb_exists. split.
  - intros (p & Hp & Hx%bool_decide_eq_true). exists p. split; [|done].
    by apply parents_spec, list_elem_of_In.
  - intros (p & Hp & Hx). exists p. split; [by apply list_elem_of_In, parents_spec|].
    by apply bool_decide_eq_true.
Qed.

(** A parent is determined by its length. *)
Lemma parent_of_length d p q : parent_of d p → parent_of d q → length p = length q → p = q.
Proof.
  intros [pre Hp] [pre' Hq] Hlen. rewrite Hp in Hq.
  apply app_inj_2 in Hq as [_ [= ->]]; [done|]. simpl. by rewrite Hlen.
Qed.

(** The checks of the whitelist and of the block list. *)
Lemma lists_decide (W B : gset str) d (action : BlockAction.t) :
  let verdict :=
    if decide (d ∈ W) then None
    else if existsb (λ p, bool_decide (p ∈ W)) (domain_parents d) then None
    else if decide (d ∈ B) then Some action
    else if existsb (λ p, bool_decide (p ∈ B)) (domain_parents d) then Some action
    else None in
  (covered W d → verdict = None) ∧
  (¬ covered W d → covered B d → verdict = Some action) ∧
  (¬ covered W d → ¬ covered B d → verdict = None).
Proof.
  unfold covered. rewrite <-!existsb_covered. cbn zeta.
  destruct (existsb _ (domain_parents d)), (existsb _ (domain_parents d)), (decide (d ∈ W)),
    (decide (d ∈ B)); naive_solver.
Qed.

(** The loops over the parents stop at the closest one with a record. *)
Lemma custom_loops (custom : gmap str str) d :
  match parent_custom_loop (parents d) custom with
  | Some v =>
    (∃ p, p ∈ parents d ∧ custom !! p = Some v ∧
      ∀ q, q ∈ parents d → (length p < length q)%nat → custom !! q = None) ∧
    custom_parent_loop (parents d) custom =
      if decide (v = [] ∨ v = lit "none") then None else Some (BlockAction.Custom v)
  | None =>
    (∀ q, q ∈ parents d → custom !! q = None) ∧ custom_parent_loop (parents d) custom = None
  end.
Proof.
  induction d as [|c d IH]; cbn [parents].
  { split; [by intros q ?%elem_of_nil|done]. }
  case_decide as Hc; [|done]. cbn [parent_custom_loop custom_parent_loop].
  destruct (custom !! d) as [v|] eqn:E.
  - split; [|done]. exists d. split_and!; [by left|done|].
    intros q [->|Hq%parents_shorter]%elem_of_cons ?; lia.
  - destruct (parent_custom_loop (parents d) custom) as [v|].
    + destruct IH as [(p & Hp & Hv & Hmin) ->]. split; [|done]. exists p.
      split_and!; [by right|done|]. intros q [->|Hq]%elem_of_cons ?; [done|by apply Hmin].
    + destruct IH as [Hn ->]. split; [|done]. intros q [->|Hq]%elem_of_cons; [done|by apply Hn].
Qed.

Section lists.
Context `{Unicode}.

Lemma parse_hosts_line_nonempty line d : parse_hosts_line line = Some d → d ≠ [].
Proof.
  unfold parse_hosts_line. intros Hp. repeat case_match; simplify_eq; try done.
Qed.

Lemma parse_domain_line_nonempty line d : parse_domain_line line = Some d → d ≠ [].
Proof.
  unfold parse_domain_line. cbn zeta. case_decide; [done|]. case_match; [done|].
  set (n := normalise_domain _). clearbody n.
  destruct (decide (n = [])) as [->|]; [done|]. case_match; [done|]. by intros [= <-].
Qed.

(** One line: it adds its domain and counts it when it is new. *)
Lemma parse_lines_step line (ls : list str) blocked count :
  parse_lines (line :: ls) blocked count =
  match line_domain line with
  | Some d =>
    let '(blocked, count) := insert_domain d blocked count in parse_lines ls blocked count
  | None => parse_lines ls blocked count
  end.
Proof.
  cbn [parse_lines]. unfold line_domain. case_match; [done|].
  destruct (parse_hosts_line _) as [d|] eqn:E.
  { apply parse_hosts_line_nonempty in E. by rewrite decide_False. }
  destruct (parse_domain_line _) as [d|] eqn:E'; [|done].
  apply parse_domain_line_nonempty in E'. by rewrite decide_False.
Qed.

Lemma parse_lines_spec (ls : list str) (blocked : gset str) count :
  ∃ n, parse_lines ls blocked count =
         (lines_domains ls ∪ blocked, (count + n)%nat) ∧
       size (lines_domains ls ∪ blocked) = (size blocked + n)%nat.
Proof.
  revert blocked count. induction ls as [|line ls IH]; intros blocked count.
  { exists 0%nat. cbn. rewrite union_empty_l_L. split; [f_equal|]; lia. }
  rewrite parse_lines_step. unfold lines_domains in *. cbn [omap list_omap]. destruct (line_domain line) as [d|]; [|apply IH].
  unfold insert_domain. rewrite list_to_set_cons. case_decide as Hd.
  - destruct (IH blocked count) as (n & -> & Hs). exists n.
    assert (Heq : {[d]} ∪ list_to_set (C:=gset str) (omap line_domain ls) ∪ blocked =
                  list_to_set (omap line_domain ls) ∪ blocked) by set_solver.
    by rewrite Heq.
  - destruct (IH ({[d]} ∪ blocked) (S count)) as (n & -> & Hs). exists (S n).
    assert (Heq : {[d]} ∪ list_to_set (C:=gset str) (omap line_domain ls) ∪ blocked =
                  list_to_set (omap line_domain ls) ∪ ({[d]} ∪ blocked)) by set_solver.
    rewrite Heq, Hs. rewrite size_union by set_solver. rewrite size_singleton.
    split; [f_equal|]; lia.
Qed.

Lemma parse_and_insert_blocked self data :
  ∃ n, parse_and_insert self data =
         (n, with_blocked (list_domains data ∪ bl_blocked self) self) ∧
       size (list_domains data ∪ bl_blocked self) = (size (bl_blocked self) + n)%nat.
Proof.
  unfold parse_and_insert.
  destruct (parse_lines_spec (lines data) (bl_blocked self) 0) as (n & -> & Hs).
  by exists n.
Qed.

Context `{Sources}.

Lemma omap_length_le {A B} (f : A → option B) (l : list A) : (length (omap f l) ≤ length l)%nat.
Proof. induction l as [|x l IH]; cbn; [lia|]. destruct (f x); cbn; lia. Qed.

Lemma load_sources_spec sources self k e :
  load_sources sources self k e =
  ((k + length (omap source_data sources))%nat,
   e + Z.of_nat (length sources - length (omap source_data sources)),
   with_blocked (sources_domains sources ∪ bl_blocked self) self).
Proof.
  revert self k e. induction sources as [|source sources IH]; intros self k e.
  { unfold sources_domains. simpl. rewrite union_empty_l_L. destruct self.
    unfold with_blocked. simpl. apply f_equal2; [apply f_equal2; lia|done]. }
  cbn [load_sources]. unfold load_source. fold (source_data source).
  unfold sources_domains in *. cbn [omap list_omap].
  pose proof (omap_length_le source_data sources) as Hle.
  destruct (source_data source) as [data|].
  - destruct (parse_and_insert_blocked self data) as (n & -> & _). rewrite IH.
    assert (Hb : ⋃ (list_domains <$> data :: omap source_data sources) ∪ bl_blocked self =
                 ⋃ (list_domains <$> omap source_data sources) ∪ (list_domains data ∪ bl_blocked self))
      by (cbn [fmap list_fmap union_list foldr]; set_solver).
    rewrite Hb. cbn [length]. unfold with_blocked at 1 2. cbn [bl_blocked].
    apply f_equal2; [apply f_equal2; lia|done].
  - rewrite IH. cbn [length]. apply f_equal2; [apply f_equal2; lia|done].
Qed.
End lists.

(** [str::find] finds the first character. *)
Lemma find_char_Some (P : Z → bool) s i :
  find_char P s = Some i ↔
  (∃ c, s !! i = Some c ∧ P c = true) ∧ ∀ j d, (j < i)%nat → s !! j = Some d → P d = false.
Proof.
  revert i. induction s as [|c s IH]; intros i; cbn [find_char].
  { split; [done|]. by intros [(c & ? & _) _]. }
  destruct (P c) eqn:E.
  - split.
    + intros [= <-]. split; [by exists c|]. intros; lia.
    + intros [_ Hmin]. destruct i as [|i]; [done|].
      by rewrite (Hmin 0%nat c) in E by (lia || done).
  - destruct i as [|i].
    + split; [by destruct (find_char P s)|]. intros [(c' & [= <-] & ?) _]. congruence.
    + assert (Hs : (S <$> find_char P s) = Some (S i) ↔ find_char P s = Some i)
        by (destruct (find_char P s); naive_solver).
      rewrite Hs, IH. split; (intros [Hc Hmin]; split; [done|]).
      * intros [|j] d Hj Hd; [by injection Hd as <-|]. apply (Hmin j); [lia|done].
      * intros j d Hj Hd. apply (Hmin (S j)); [lia|done].
Qed.

Lemma find_char_None (P : Z → bool) s : find_char P s = None ↔ ∀ c, c ∈ s → P c = false.
Proof.
  induction s as [|c s IH]; cbn [find_char].
  { split; [|done]. by intros _ c ?%elem_of_nil. }
  destruct (P c) eqn:E.
  - split; [done|]. intros Hall. rewrite (Hall c) in E; [done|by left].
  - rewrite fmap_None, IH. split.
    + intros Hall d [->|Hd]%elem_of_cons; auto.
    + intros Hall d Hd. apply Hall. by right.
Qed.

Lemma find_char_byte b s : find_char (λ c, bool_decide (c = b)) s = None ↔ b ∉ s.
Proof.
  rewrite find_char_None. split.
  - intros Hall Hin. specialize (Hall b Hin). by rewrite bool_decide_eq_true_2 in Hall.
  - intros Hni c Hc. apply bool_decide_eq_false_2. by intros ->.
Qed.

Lemma split_entry_ascii pos entry c :
  entry !! pos = Some c → split_entry pos entry = Panic ↔ 128 <= c.
Proof.
  intros Hc. unfold split_entry. rewrite nth_lookup, Hc. cbn [default]. by case_decide.
Qed.

Lemma parse_custom_panics entry :
  parse_custom_dns_entry entry = Panic ↔
  61 ∉ trim entry ∧ 58 ∉ trim entry ∧
  ∃ i c, trim entry !! i = Some c ∧ is_whitespace c = true ∧ 128 <= c ∧
    ∀ j d, (j < i)%nat → trim entry !! j = Some d → is_whitespace d = false.
Proof.
  unfold parse_custom_dns_entry. set (e := trim entry). clearbody e.
  assert (Hbyte : ∀ b i, b < 128 → find_char (λ c, bool_decide (c = b)) e = Some i →
            b ∈ e ∧ split_entry i e ≠ Panic).
  { intros b i Hb [(c & Hc & ->%bool_decide_eq_true) _]%find_char_Some.
    split; [by eapply list_elem_of_lookup_2|]. rewrite (split_entry_ascii i e b Hc). lia. }
  destruct (find_char (λ c, bool_decide (c = 61)) e) as [i|] eqn:E1.
  { apply Hbyte in E1 as [??]; [|lia]. split; [done|by intros (? & _)]. }
  destruct (find_char (λ c, bool_decide (c = 58)) e) as [i|] eqn:E2.
  { apply Hbyte in E2 as [??]; [|lia]. split; [done|by intros (_ & ? & _)]. }
  rewrite find_char_byte in E1, E2.
  destruct (find_char is_whitespace e) as [i|] eqn:E3.
  - pose proof E3 as [(c & Hc & Hw) Hmin]%find_char_Some. rewrite (split_entry_ascii i e c Hc).
    split; [intros; split_and!; [done..|by exists i, c]|].
    intros (_ & _ & i' & c' & Hc' & Hw' & Hge & Hmin').
    assert (Hf : find_char is_whitespace e = Some i') by (apply find_char_Some; eauto).
    rewrite E3 in Hf. injection Hf as <-. rewrite Hc in Hc'. by injection Hc' as <-.
  - split; [done|]. intros (_ & _ & i & c & Hc & Hw & _).
    rewrite find_char_None in E3. rewrite (E3 c) in Hw; [done|by eapply list_elem_of_lookup_2].
Qed.

Lemma parse_custom_no_error entry :
  parse_custom_dns_entry entry ≠ Diverge ∧ ∀ e, parse_custom_dns_entry entry ≠ Err e.
Proof. unfold parse_custom_dns_entry, split_entry. split; intros; repeat case_match; done. Qed.

Lemma custom_records_panics `{Unicode} entries acc :
  custom_records entries acc = Panic ↔ ∃ e, e ∈ entries ∧ parse_custom_dns_entry e = Panic.
Proof.
  revert acc. induction entries as [|e entries IH]; intros acc; cbn [custom_records].
  { split; [done|]. by intros (e & ?%elem_of_nil & _). }
  assert (Hcons : (∃ e', e' ∈ e :: entries ∧ parse_custom_dns_entry e' = Panic) ↔
            parse_custom_dns_entry e = Panic ∨ ∃ e', e' ∈ entries ∧ parse_custom_dns_entry e' = Panic).
  { setoid_rewrite elem_of_cons. naive_solver. }
  rewrite Hcons. destruct (parse_custom_dns_entry e) as [[d v]| | |] eqn:E; cbn [mbind outcome_bind].
  - rewrite IH. naive_solver.
  - by apply (proj2 (parse_custom_no_error e)) in E.
  - naive_solver.
  - by apply (proj1 (parse_custom_no_error e)) in E.
Qed.

(** ** Properties *)

(** C22: the decision on a name, for an enabled list: a custom record of the name itself comes
    first, and one that is empty or ["none"] lets the name pass; then the closest parent with a
    custom record, when that is neither; then a name that is whitelisted, itself or through a
    parent, passes; then one that is blocked, itself or through a parent, is blocked, and every
    other name passes.  A parent whose record is ["none"] does not let the name pass: it hides
    the custom records of the parents above, and the other lists still decide. *)
Theorem is_blocked_spec `{Unicode} self domain :
  let d := normalise_domain domain in
  let custom := bl_custom self in
  (bl_enabled self = false ∨ d = [] → is_blocked self domain = None) ∧
  (bl_enabled self = true → d ≠ [] →
   (∀ v, custom !! d = Some v → disabled_value v → is_blocked self domain = None) ∧
   (∀ v, custom !! d = Some v → ¬ disabled_value v →
      is_blocked self domain = Some (BlockAction.Custom v)) ∧
   (∀ p v, custom !! d = None → closest_custom custom d p v → ¬ disabled_value v →
      is_blocked self domain = Some (BlockAction.Custom v)) ∧
   (custom !! d = None →
    (∀ p v, closest_custom custom d p v → disabled_value v) →
    (covered (bl_whitelist self) d → is_blocked self domain = None) ∧
    (¬ covered (bl_whitelist self) d → covered (bl_blocked self) d →
       is_blocked self domain = Some (block_action self)) ∧
    (¬ covered (bl_whitelist self) d → ¬ covered (bl_blocked self) d →
       is_blocked self domain = None))).
Proof.
  cbn zeta. unfold is_blocked. set (d := normalise_domain domain). split.
  { intros [-> | ->]; [done|]. by destruct (bl_enabled self). }
  intros -> Hd. cbn [negb]. rewrite decide_False by done.
  pose proof (custom_loops (bl_custom self) d) as Hloops.
  unfold check_custom_parent. rewrite domain_parents_eq.
  split_and!.
  - intros v -> Hv. by rewrite decide_True.
  - intros v -> Hv. by rewrite decide_False.
  - intros p v -> (Hp & Hv & Hmin) Hne.
    destruct (parent_custom_loop (parents d) (bl_custom self)) as [v'|].
    + destruct Hloops as [(p' & Hp' & Hv' & Hmin') ->]. apply parents_spec in Hp'.
      assert (p = p') as <-.
      { apply (parent_of_length d); [done..|]. destruct (lt_eq_lt_dec (length p) (length p')) as [[Hl|Hl]|Hl];
          [|done|].
        - specialize (Hmin p' Hp' Hl). congruence.
        - specialize (Hmin' p). rewrite parents_spec in Hmin'. specialize (Hmin' Hp Hl). congruence. }
      rewrite Hv in Hv'. injection Hv' as <-. by rewrite decide_False.
    + destruct Hloops as [Hnone _]. rewrite (Hnone p) in Hv; [done|]. by apply parents_spec.
  - intros -> Hdis.
    assert (Hno : custom_parent_loop (parents d) (bl_custom self) = None).
    { destruct (parent_custom_loop (parents d) (bl_custom self)) as [v'|]; [|by destruct Hloops].
      destruct Hloops as [(p' & Hp' & Hv' & Hmin') ->]. rewrite decide_True; [done|].
      apply (Hdis p'). split_and!; [by apply parents_spec|done|].
      intros q Hq. apply Hmin'. by apply parents_spec. }
    rewrite Hno. unfold is_whitelisted_parent, is_blocked_parent.
    apply (lists_decide (bl_whitelist self) (bl_blocked self) d (block_action self)).
Qed.

(** ASCII strings in lower case, and sources without data. *)
Definition ascii_unicode : Unicode := {|
  to_lowercase := ascii_lower; to_lowercase_ascii s _ := eq_refl |}.
Definition sample_list : Blocklist :=
  mkBlocklist true BlocklistMode.All {[lit "ads.com"]} {[lit "ok.ads.com"]}
    {[lit "lan" := lit "10.0.0.1"]} [lit "list.txt"] (lit "0.0.0.0") (lit "::")
    BlockResponse.Nullroute (mkStats 0 0 0 0 0 None 0).

Lemma is_blocked_spec_witness :
  @is_blocked ascii_unicode sample_list (lit "Tracker.ADS.com.") =
    Some (BlockAction.NullrouteV4 (lit "0.0.0.0")) ∧
  @is_blocked ascii_unicode sample_list (lit "x.ok.ads.com") = None ∧
  @is_blocked ascii_unicode sample_list (lit "lan") = Some (BlockAction.Custom (lit "10.0.0.1")).
Proof.
  pose proof (@is_blocked_spec ascii_unicode sample_list) as Hspec. cbv zeta in Hspec.
  assert (Hn : ∀ d,
            forallb (λ p, bool_decide (bl_custom sample_list !! p = None)) (parents d) = true →
            ∀ p v, closest_custom (bl_custom sample_list) d p v → disabled_value v).
  { intros d Hall p v (Hp%parents_spec%list_elem_of_In & Hv & _). rewrite forallb_forall in Hall.
    specialize (Hall p Hp). apply bool_decide_eq_true in Hall. congruence. }
  assert (Hcov : ∀ (X : gset str) d,
            bool_decide (d ∈ X) || existsb (λ p, bool_decide (p ∈ X)) (domain_parents d) = true ↔
            covered X d).
  { intros X d. unfold covered. rewrite orb_true_iff, bool_decide_eq_true, existsb_covered. done. }
  split_and!.
  - destruct (Hspec (lit "Tracker.ADS.com.")) as [_ H].
    destruct (H eq_refl ltac:(by vm_compute)) as (_ & _ & _ & Hl).
    destruct Hl as (_ & Hb & _); [by vm_compute|apply Hn; by vm_compute|].
    apply Hb; [rewrite <-Hcov; by vm_compute|apply Hcov; by vm_compute].
  - destruct (Hspec (lit "x.ok.ads.com")) as [_ H].
    destruct (H eq_refl ltac:(by vm_compute)) as (_ & _ & _ & Hl).
    destruct Hl as (Hw & _); [by vm_compute|apply Hn; by vm_compute|].
    apply Hw, Hcov. by vm_compute.
  - destruct (Hspec (lit "lan")) as [_ H].
    destruct (H eq_refl ltac:(by vm_compute)) as (_ & Hv & _ & _).
    apply Hv; [by vm_compute|]. intros [?|?]; by vm_compute.
Defined.

(** C38: loading: the text of a source adds the domains of its lines and nothing else, and the
    count is the number of new ones, so that loading it again adds nothing; [load] adds the
    domains of the sources that can be read to the manual entries; but a refresh starts from
    the empty set, and its result depends on the sources alone: the manual entries are gone
    after the first round. *)
Theorem list_loading_spec `{Unicode, Sources} self data now :
  (∃ n, parse_and_insert self data = (n, with_blocked (list_domains data ∪ bl_blocked self) self) ∧
     size (list_domains data ∪ bl_blocked self) = (size (bl_blocked self) + n)%nat) ∧
  (parse_and_insert (parse_and_insert self data).2 data).1 = 0%nat ∧
  (bl_enabled self = true → bl_mode self ≠ BlocklistMode.None →
   bl_blocked (load now self) = sources_domains (bl_sources self) ∪ bl_blocked self ∧
   total_blocked (bl_stats (load now self)) = size (bl_blocked (load now self)) ∧
   ∀ nows, bl_blocked (refresh (now :: nows) self) = sources_domains (bl_sources self) ∧
     bl_whitelist (refresh (now :: nows) self) = bl_whitelist self ∧
     bl_custom (refresh (now :: nows) self) = bl_custom self).
Proof.
  split_and!.
  - apply parse_and_insert_blocked.
  - destruct (parse_and_insert_blocked self data) as (n & -> & _). cbn [snd].
    destruct (parse_and_insert_blocked (with_blocked (list_domains data ∪ bl_blocked self) self) data)
      as (m & -> & Hs). cbn [bl_blocked with_blocked fst] in *.
    rewrite assoc_L, union_idemp_L in Hs by apply _. lia.
  - intros Hen Hmode. unfold load, refresh. rewrite Hen, bool_decide_eq_false_2 by done.
    cbn [negb orb]. rewrite load_sources_spec. split_and!; [done|done|]. intros nows.
    assert (Hround : ∀ now s, bl_sources s = bl_sources self → bl_whitelist s = bl_whitelist self →
              bl_custom s = bl_custom self →
              let s' := refresh_round now s in
              bl_sources s' = bl_sources self ∧ bl_whitelist s' = bl_whitelist self ∧
              bl_custom s' = bl_custom self ∧ bl_blocked s' = sources_domains (bl_sources self)).
    { intros t s Hs Hw Hc. unfold refresh_round. rewrite load_sources_spec. cbn. rewrite Hs.
      by rewrite union_empty_r_L. }
    cbn [foldl]. destruct (Hround now self) as (Hs & Hw & Hc & Hb); [done..|].
    clear Hen Hmode. generalize dependent (refresh_round now self).
    induction nows as [|t nows IH]; intros s Hs Hw Hc Hb; [done|]. cbn [foldl].
    destruct (Hround t s) as (? & ? & ? & ?); [done..|]. by apply IH.
Qed.

Definition no_sources : Sources := {|
  http_client_builds := true; http_get _ := None; read_to_string _ := None |}.

Lemma list_loading_spec_witness :
  bl_blocked (@refresh ascii_unicode no_sources [lit "now"] sample_list) = ∅ ∧
  bl_blocked (@load ascii_unicode no_sources (lit "now") sample_list) = {[lit "ads.com"]}.
Proof.
  destruct (@list_loading_spec ascii_unicode no_sources sample_list [] (lit "now")) as (_ & _ & H).
  destruct (H eq_refl ltac:(done)) as (-> & _ & Hr). destruct (Hr []) as (-> & _ & _).
  split; by vm_compute.
Defined.

(** [parse_custom_dns_entry] panics exactly when the trimmed entry has neither ['='] nor
    [':'] and its first whitespace is a character longer than a byte, such as a no-break
    space; and the constructor panics exactly when one of the custom entries does. *)
Theorem custom_entry_panics `{Unicode} config entry :
  (parse_custom_dns_entry entry = Panic ↔
   61 ∉ trim entry ∧ 58 ∉ trim entry ∧
   ∃ i c, trim entry !! i = Some c ∧ is_whitespace c = true ∧ 128 <= c ∧
     ∀ j d, (j < i)%nat → trim entry !! j = Some d → is_whitespace d = false) ∧
  (blocklist_new config = Panic ↔
   ∃ e, e ∈ cfg_custom_dns config ∧ parse_custom_dns_entry e = Panic).
Proof.
  split; [apply parse_custom_panics|].
  unfold blocklist_new. rewrite <-(custom_records_panics (cfg_custom_dns config) ∅).
  destruct (custom_records _ _); split; done.
Qed.

Definition nbsp_entry : str := lit "a" ++ [160] ++ lit "b".
Definition nbsp_config : BlocklistConfig := mkConfig (lit "all") [] [] [] [nbsp_entry] [] [] [].

Lemma custom_entry_panics_witness : @blocklist_new ascii_unicode nbsp_config = Panic.
Proof.
  destruct (@custom_entry_panics ascii_unicode nbsp_config nbsp_entry) as [He Hnew].
  apply Hnew. exists nbsp_entry. split; [by left|]. apply He.
  split_and!; [by apply (bool_decide_unpack _); vm_compute..|].
  exists 1%nat, 160. split_and!; [by vm_compute|by vm_compute|done|].
  intros [|j] d ?; [|lia]. intros [= <-]. by vm_compute.
Defined.
