(* ===== verification/RootHints.v ===== *)
(** * Root hints (src/resolver/root_hints.rs) *)

From stdpp Require Import strings.
From S2P Require Import Prelude.
#[local] Open Scope Z_scope.

(** [std::net::IpAddr], by octets. *)
Inductive IpAddr : Type :=
  | V4 (octets : bytes)
  | V6 (octets : bytes).
#[export] Instance IpAddr_eq_dec : EqDecision IpAddr.
Proof. solve_decision. Defined.
#[export] Instance IpAddr_countable : Countable IpAddr.
Proof.
  refine (inj_countable'
    (λ ip, match ip with V4 o => inl o | V6 o => inr o end)
    (λ x : bytes + bytes, match x with inl o => V4 o | inr o => V6 o end) _).
  by intros [].
Defined.

Record RootServer := mkRootServer {
  root_name : string;
  root_ipv4 : bytes;
  root_ipv6 : option bytes;
}.

(** [Ipv6Addr::new], from the eight segments. *)
Definition ipv6_new (segments : list Z) : bytes := concat (map to_be16 segments).

Definition ROOT_SERVERS : list RootServer := [
  mkRootServer "a.root-servers.net" [198; 41; 0; 4]
    (Some (ipv6_new [8193; 1283; 47678; 0; 0; 0; 0; 11824]));
  mkRootServer "b.root-servers.net" [170; 247; 170; 53]
    (Some (ipv6_new [10241; 440; 16; 11; 0; 0; 0; 1]));
  mkRootServer "c.root-servers.net" [192; 33; 4; 12]
    (Some (ipv6_new [8193; 1280; 2; 0; 0; 0; 0; 12]));
  mkRootServer "d.root-servers.net" [199; 7; 91; 13]
    (Some (ipv6_new [8193; 1280; 45; 0; 0; 0; 0; 13]));
  mkRootServer "e.root-servers.net" [192; 203; 230; 10]
    (Some (ipv6_new [8193; 1280; 168; 0; 0; 0; 0; 14]));
  mkRootServer "f.root-servers.net" [192; 5; 5; 241]
    (Some (ipv6_new [8193; 1280; 47; 0; 0; 0; 0; 15]));
  mkRootServer "g.root-servers.net" [192; 112; 36; 4]
    (Some (ipv6_new [8193; 1280; 18; 0; 0; 0; 0; 3341]));
  mkRootServer "h.root-servers.net" [198; 97; 190; 53]
    (Some (ipv6_new [8193; 1280; 1; 0; 0; 0; 0; 83]));
  mkRootServer "i.root-servers.net" [192; 36; 148; 17]
    (Some (ipv6_new [8193; 2046; 0; 0; 0; 0; 0; 83]));
  mkRootServer "j.root-servers.net" [192; 58; 128; 30]
    (Some (ipv6_new [8193; 1283; 3111; 0; 0; 0; 0; 11824]));
  mkRootServer "k.root-servers.net" [193; 0; 14; 129]
    (Some (ipv6_new [8193; 2045; 0; 0; 0; 0; 0; 1]));
  mkRootServer "l.root-servers.net" [199; 7; 83; 42]
    (Some (ipv6_new [8193; 1280; 159; 0; 0; 0; 0; 66]));
  mkRootServer "m.root-servers.net" [202; 12; 27; 33]
    (Some (ipv6_new [8193; 3523; 0; 0; 0; 0; 0; 53]))].

Definition initial_root_addrs : list IpAddr :=
  concat (map (λ server,
    V4 (root_ipv4 server) :: match root_ipv6 server with Some v6 => [V6 v6] | None => [] end)
    ROOT_SERVERS).

(** Thirteen servers with an address of each version, all different. *)
Lemma initial_root_addrs_ok : length initial_root_addrs = 26%nat ∧ NoDup initial_root_addrs.
Proof. split; [done|]. apply (bool_decide_unpack _). by vm_compute. Qed.
