(* ===== verification/Rtt.v ===== *)
(** * Round-trip times and server health (src/resolver/recursive.rs, lines 53-75, 130-273,
    366-529, 1418-1430, 1498-1507)

    The table of smoothed round-trip times, by which the servers of a query
    are sorted, its file, and the health checks that put a penalty on servers
    that do not answer.  [Upstream] sorts by the table and records in it.

    Times are binary64 numbers, here [spec_float], the Standard Library's
    executable model of IEEE 754.  The comparisons of a sort also move the
    servers to the front of the LRU map, in an order that the sort does not
    fix: that is not modelled. *)

From Stdlib Require Import SpecFloat.
From stdpp Require Import gmap sorting strings.
From S2P Require Import Prelude Str Lru Cache Blocklist RootHints.
#[local] Open Scope Z_scope.

(** ** Binary64 *)

Abbreviation f64 := spec_float.

Definition f64_mul : f64 → f64 → f64 := SFmul 53 1024.
Definition f64_add : f64 → f64 → f64 := SFadd 53 1024.
Definition f64_div : f64 → f64 → f64 := SFdiv 53 1024.
Definition f64_of_Z (z : Z) : f64 := binary_normalize 53 1024 z 0 false.

(** [f64::from_bits]; the payload of a NaN is dropped. *)
Definition f64_of_bits (w : Z) : f64 :=
  let s := Z.testbit w 63 in
  let e := Z.land (Z.shiftr w 52) 2047 in
  let m := Z.land w (2 ^ 52 - 1) in
  if decide (e = 0) then
    if decide (m = 0) then S754_zero s else S754_finite s (Z.to_pos m) (-1074)
  else if decide (e = 2047) then
    if decide (m = 0) then S754_infinity s else S754_nan
  else S754_finite s (Z.to_pos (m + 2 ^ 52)) (e - 1075).

(** [f64::to_bits] *)
Definition f64_to_bits (f : f64) : Z :=
  let sign (s : bool) := if s then 2 ^ 63 else 0 in
  match f with
  | S754_zero s => sign s
  | S754_infinity s => sign s + 2047 * 2 ^ 52
  | S754_nan => 2047 * 2 ^ 52 + 2 ^ 51
  | S754_finite s m e =>
    sign s + (if decide (Zpos m < 2 ^ 52) then Zpos m else (e + 1075) * 2 ^ 52 + (Zpos m - 2 ^ 52))
  end.

(** [u64::to_be_bytes], [u64::from_be_bytes] *)
Definition to_be64 (w : Z) : bytes := to_be32 (Z.shiftr w 32) ++ to_be32 (Z.land w (2 ^ 32 - 1)).
Definition be64 (l : bytes) : Z :=
  be32 (nth 0 l 0) (nth 1 l 0) (nth 2 l 0) (nth 3 l 0) * 2 ^ 32 +
  be32 (nth 4 l 0) (nth 5 l 0) (nth 6 l 0) (nth 7 l 0).

(** The literals 0.7 and 0.3. *)
Definition F_0_7 : f64 := f64_of_bits 4604480259023595110.
Definition F_0_3 : f64 := f64_of_bits 4599075939470750515.

(** [Duration::as_secs_f64() * 1000.0], of nanoseconds. *)
Definition ms_of (elapsed : Z) : f64 :=
  f64_mul (f64_add (f64_of_Z (elapsed / SEC)) (f64_div (f64_of_Z (elapsed mod SEC)) (f64_of_Z SEC)))
    (f64_of_Z 1000).

(** ** The file *)

(** [PathBuf::push] of a relative component, on Unix. *)
Definition path_push (path component : str) : str :=
  match last path with
  | None => component
  | Some c => if decide (c = 47) then path ++ component else path ++ [47] ++ component
  end.

(** [home] is the variable HOME; on Windows the path is below APPDATA.  The directory is made on the
    way, whatever comes of that. *)
Definition rtt_cache_path (home : option str) : str :=
  path_push (path_push (default (lit "/tmp") home) (lit ".fastdns")) (lit "rtt_cache.dat").

Example path_of_root : rtt_cache_path (Some (lit "/var/root")) = lit "/var/root/.fastdns/rtt_cache.dat".
Proof. reflexivity. Qed.

(** One turn of the loop: the entry at [pos] and where the next begins; [None] ends the loop. *)
Definition load_entry (buf : bytes) (pos : nat) : option (option IpAddr * f64 * Z * nat) :=
  let ip_len := Z.to_nat (nth pos buf 0) in
  let pos := (pos + 1)%nat in
  if decide (length buf < pos + ip_len + 8 + 8)%nat then None else
  let ip_bytes := take ip_len (drop pos buf) in
  let pos := (pos + ip_len)%nat in
  let rtt_ms := f64_of_bits (be64 (take 8 (drop pos buf))) in
  let pos := (pos + 8)%nat in
  let timestamp := be64 (take 8 (drop pos buf)) in
  let pos := (pos + 8)%nat in
  let ip := if decide (ip_len = 4)%nat then Some (V4 ip_bytes)
            else if decide (ip_len = 16)%nat then Some (V6 ip_bytes) else None in
  Some (ip, rtt_ms, timestamp, pos).

(** The entries of a file, before the test of their age. *)
Fixpoint load_loop (fuel : nat) (buf : bytes) (pos : nat) : list (IpAddr * f64 * Z) :=
  match fuel with
  | O => []
  | S fuel =>
    if decide (pos < length buf)%nat then
      match load_entry buf pos with
      | None => []
      | Some (Some ip, rtt_ms, timestamp, pos) => (ip, rtt_ms, timestamp) :: load_loop fuel buf pos
      | Some (None, _, _, pos) => load_loop fuel buf pos
      end
    else []
  end.

(** [now.saturating_sub(3600) == 0] *)
Definition loads (now : Z) : bool := bool_decide (Z.max 0 (now - 3600) = 0).

(** The insertions; [wall i] and [clk i] are the clocks at the [i]-th entry. *)
Fixpoint load_insert (wall clk : nat → Z) (i : nat) (entries : list (IpAddr * f64 * Z))
    (map : gmap IpAddr (f64 * Z)) : gmap IpAddr (f64 * Z) :=
  match entries with
  | [] => map
  | (ip, rtt_ms, _) :: entries =>
    load_insert wall clk (S i) entries (if loads (wall i) then <[ip := (rtt_ms, clk i)]> map else map)
  end.

(** [file] is what could be read, if anything. *)
Definition load_rtt_cache (file : option bytes) (wall clk : nat → Z) : gmap IpAddr (f64 * Z) :=
  match file with
  | Some buf => load_insert wall clk 0 (load_loop (length buf) buf 0) ∅
  | None => ∅
  end.

Definition rtt_entry (now : Z) (entry : IpAddr * f64) : bytes :=
  match entry.1 with
  | V4 octets => [4] ++ octets
  | V6 octets => [16] ++ octets
  end ++ to_be64 (f64_to_bits entry.2) ++ to_be64 now.

(** What [save_rtt_cache] writes. *)
Definition save_rtt_cache (now : Z) (rtt_data : list (IpAddr * f64)) : bytes :=
  concat (map (rtt_entry now) rtt_data).

(** ** The table *)

Section table.
Context {C : Type → Type} `{LruOps IpAddr C}.

Abbreviation Table := (C (f64 * Z)%type).

(** A measured time, smoothed with what is known. *)
Definition record_rtt (now : Z) (server : IpAddr) (rtt_ms : f64) (table : Table) : Table :=
  let '(found, table) := lru_get server table in
  let smoothed := match found with
                  | Some (avg, _) => f64_add (f64_mul avg F_0_7) (f64_mul rtt_ms F_0_3)
                  | None => rtt_ms
                  end in
  lru_put server (smoothed, now) table.

(** The table of a new resolver: the entries of the file, in the order the map yields them. *)
Definition initial_rtt (persisted_rtt : list (IpAddr * (f64 * Z))) : Table :=
  foldl (λ table p, lru_put p.1 p.2 table) (lru_new 256) persisted_rtt.

(** The order of the sorts: [partial_cmp], where what cannot be compared counts as equal. *)
Definition rtt_le (default_ms : f64) (table : Table) (a b : IpAddr) : bool :=
  let rtt server := match lru_peek server table with Some (rtt, _) => rtt | None => default_ms end in
  match SFcompare (rtt a) (rtt b) with Some Gt => false | _ => true end.

(** [sort_by], which is stable. *)
Fixpoint insert_by (le : IpAddr → IpAddr → bool) (x : IpAddr) (l : list IpAddr) : list IpAddr :=
  match l with
  | [] => [x]
  | y :: l' => if le x y then x :: l else y :: insert_by le x l'
  end.
Definition sort_by (le : IpAddr → IpAddr → bool) (l : list IpAddr) : list IpAddr :=
  foldr (insert_by le) [] l.

(** The servers of a query, the fastest first. *)
Definition sort_servers (table : Table) (servers : list IpAddr) : list IpAddr :=
  sort_by (rtt_le (f64_of_Z 500) table) servers.

(** ** Health checks *)

Definition HEALTH_CHECK_COUNT : nat := 5.
Definition HEALTH_PENALTY_THRESHOLD : Z := 3.
Definition HEALTH_PENALTY_MS : f64 := f64_of_Z 2000.

Record ServerHealth := mkHealth {
  consecutive_failures : Z;
  last_success : option Z;
}.
Definition ServerHealth_default : ServerHealth := mkHealth 0 None.

(** The entries that are kept at the start of a cycle. *)
Definition health_kept (now : Z) (h : ServerHealth) : Prop :=
  match last_success h with
  | Some ts => now - 3600 * SEC ≤ ts
  | None => consecutive_failures h < HEALTH_PENALTY_THRESHOLD
  end.
#[export] Instance health_kept_dec now h : Decision (health_kept now h).
Proof. unfold health_kept. destruct (last_success h); apply _. Defined.

Definition prune_health (now : Z) (health : gmap IpAddr ServerHealth) : gmap IpAddr ServerHealth :=
  filter (λ p, health_kept now p.2) health.

Definition servers_to_check (table : Table) : list IpAddr :=
  take HEALTH_CHECK_COUNT (sort_by (rtt_le (f64_of_Z 999) table) (map fst (lru_iter table))).

(** What a check gives: no socket, an answer after some nanoseconds, or none. *)
Inductive check_result :=
  | Unbound
  | Replied (elapsed : Z)
  | Lost.

(** The check of one server; [clk] is the clock at the end of it. *)
Definition check_server (clk : IpAddr → nat → Z) (answer : IpAddr → check_result)
    (state : Table * gmap IpAddr ServerHealth) (server : IpAddr) : Table * gmap IpAddr ServerHealth :=
  let '(table, health) := state in
  match answer server with
  | Unbound => (table, health)
  | Replied elapsed =>
    (record_rtt (clk server 0%nat) server (ms_of elapsed) table,
     <[server := mkHealth 0 (Some (clk server 1%nat))]> health)
  | Lost =>
    let h := default ServerHealth_default (health !! server) in
    let h := mkHealth (u32 (consecutive_failures h + 1)) (last_success h) in
    let health := <[server := h]> health in
    if decide (HEALTH_PENALTY_THRESHOLD <= consecutive_failures h) then
      let '(found, table) := lru_get server table in
      match found with
      | Some (avg, _) =>
        (lru_put server (f64_add avg HEALTH_PENALTY_MS, clk server 0%nat) table, health)
      | None => (table, health)
      end
    else (table, health)
  end.

(** One cycle of the health-check task, from [now] on. *)
Definition health_cycle (now : Z) (clk : IpAddr → nat → Z) (answer : IpAddr → check_result)
    (state : Table * gmap IpAddr ServerHealth) : Table * gmap IpAddr ServerHealth :=
  let '(table, health) := state in
  foldl (check_server clk answer) (table, prune_health now health) (servers_to_check table).

(** [DnsCache::hit_rate] (src/resolver/cache.rs), whose sum wraps in a release build. *)
Definition hit_rate {D : Type → Type} (self : DnsCache D) : f64 :=
  let total := u64 (hits self + misses self) in
  if decide (total = 0) then f64_of_Z 0 else f64_div (f64_of_Z (hits self)) (f64_of_Z total).

(** ** The other background tasks *)

(** The clean-up of the truncation cache. *)
Definition truncation_cleanup (now : Z) (tc : gmap IpAddr Z) : gmap IpAddr Z :=
  filter (λ p, now < p.2) tc.

End table.

(** ** Lemmas *)

Lemma insert_by_perm le x l : insert_by le x l ≡ₚ x :: l.
Proof.
  induction l as [|y l IH]; cbn [insert_by]; [done|]. destruct (le x y); [done|]. by rewrite IH, Permutation_swap.
Qed.
Lemma sort_by_perm le l : sort_by le l ≡ₚ l.
Proof. induction l as [|x l IH]; cbn; [done|]. by rewrite insert_by_perm, IH. Qed.
Lemma sort_servers_perm {C : Type → Type} `{LruOps IpAddr C} (table : C (f64 * Z)%type) servers :
  sort_servers table servers ≡ₚ servers.
Proof. apply sort_by_perm. Qed.

Lemma be64_to_be64 w post : 0 ≤ w < 2 ^ 64 → be64 (take 8 (to_be64 w ++ post)) = w.
Proof.
  intros Hw. unfold be64, to_be64, to_be32. cbn [app take nth].
  rewrite Z.shiftr_div_pow2 by lia. change (2 ^ 32 - 1) with (Z.ones 32). rewrite Z.land_ones by lia.
  rewrite !be32_to_be32; [|unfold is_u32; Z.div_mod_to_equations; lia..]. Z.div_mod_to_equations. lia.
Qed.

Lemma length_to_be64 w : length (to_be64 w) = 8%nat.
Proof. done. Qed.

Lemma digits2_pos_bounds m : 2 ^ (Zpos (digits2_pos m) - 1) ≤ Zpos m < 2 ^ Zpos (digits2_pos m).
Proof.
  induction m as [m IH|m IH|]; cbn [digits2_pos]; [| |done].
  all: rewrite Pos2Z.inj_succ in *; replace (Z.succ (Zpos (digits2_pos m)) - 1) with (Zpos (digits2_pos m)) by lia.
  all: rewrite Z.pow_succ_r by lia; replace (2 ^ Zpos (digits2_pos m)) with (2 * 2 ^ (Zpos (digits2_pos m) - 1)) in *
    by (rewrite <-Z.pow_succ_r by lia; f_equal; lia); lia.
Qed.

(** A number as a [f64] can hold it; NaN is excluded, whose payload is not modelled. *)
Definition f64_ok (f : f64) : Prop := valid_binary 53 1024 f = true ∧ f ≠ S754_nan.

Lemma f64_finite_bounds s m e :
  f64_ok (S754_finite s m e) →
  (e = -1074 ∧ Zpos m < 2 ^ 53) ∨ (-1074 ≤ e ≤ 971 ∧ 2 ^ 52 ≤ Zpos m < 2 ^ 53).
Proof.
  intros [Hv _]. cbn in Hv. unfold bounded, canonical_mantissa in Hv.
  apply andb_prop in Hv as [Hc%Z.eqb_eq He%Zle_bool_imp_le].
  unfold fexp, emin in Hc. pose proof (digits2_pos_bounds m) as [Hlo Hhi].
  assert (Hd : Zpos (digits2_pos m) ≤ 53) by lia.
  assert (Hlt : Zpos m < 2 ^ 53) by (eapply Z.lt_le_trans; [exact Hhi|apply Z.pow_le_mono_r; lia]).
  destruct (decide (Zpos (digits2_pos m) = 53)) as [E|E]; [right|left; split; [lia|done]].
  rewrite E in Hlo. change (53 - 1) with 52 in Hlo. lia.
Qed.

Lemma f64_bits_range f : f64_ok f → 0 ≤ f64_to_bits f < 2 ^ 64.
Proof.
  intros Hf. destruct f as [[]|[]| |s m e]; cbn [f64_to_bits]; try done.
  pose proof (f64_finite_bounds s m e Hf). destruct s; case_decide; lia.
Qed.

Lemma f64_bits_roundtrip f : f64_ok f → f64_of_bits (f64_to_bits f) = f.
Proof.
  intros Hf. destruct f as [[]|[]| |s m e]; try done.
  pose proof (f64_finite_bounds s m e Hf) as Hb.
  assert (Hw : ∃ ex fr, f64_to_bits (S754_finite s m e) = Z.b2z s * 2 ^ 63 + ex * 2 ^ 52 + fr ∧
            0 ≤ ex < 2047 ∧ 0 ≤ fr < 2 ^ 52 ∧
            ((ex = 0 ∧ fr = Zpos m ∧ e = -1074) ∨ (0 < ex ∧ fr = Zpos m - 2 ^ 52 ∧ ex = e + 1075))).
  { cbn [f64_to_bits]. case_decide as Hm.
    - exists 0, (Zpos m). destruct s; cbn [Z.b2z]; lia.
    - exists (e + 1075), (Zpos m - 2 ^ 52). destruct s; cbn [Z.b2z]; lia. }
  destruct Hw as (ex & fr & -> & Hex & Hfr & Hcase). unfold f64_of_bits.
  assert (Hs : Z.testbit (Z.b2z s * 2 ^ 63 + ex * 2 ^ 52 + fr) 63 = s).
  { rewrite Z.testbit_odd, Z.shiftr_div_pow2 by lia.
    replace (_ / 2 ^ 63) with (Z.b2z s) by (destruct s; cbn [Z.b2z]; Z.div_mod_to_equations; lia). by destruct s. }
  assert (He : Z.land (Z.shiftr (Z.b2z s * 2 ^ 63 + ex * 2 ^ 52 + fr) 52) 2047 = ex).
  { change 2047 with (Z.ones 11). rewrite Z.land_ones, Z.shiftr_div_pow2 by lia.
    destruct s; cbn [Z.b2z]; Z.div_mod_to_equations; lia. }
  assert (Hm : Z.land (Z.b2z s * 2 ^ 63 + ex * 2 ^ 52 + fr) (2 ^ 52 - 1) = fr).
  { change (2 ^ 52 - 1) with (Z.ones 52). rewrite Z.land_ones by lia.
    destruct s; cbn [Z.b2z]; Z.div_mod_to_equations; lia. }
  rewrite Hs, He, Hm. destruct Hcase as [(-> & -> & ->)|(Hpos & -> & ->)].
  - by rewrite decide_True, decide_False.
  - rewrite decide_False, decide_False by lia. f_equal; lia.
Qed.

(** ** The file *)

Definition entry_ok (entry : IpAddr * f64) : Prop :=
  f64_ok entry.2 ∧ match entry.1 with V4 o => length o = 4%nat | V6 o => length o = 16%nat end.

Lemma load_entry_saved now entry pre post :
  entry_ok entry → 0 ≤ now < 2 ^ 64 →
  load_entry (pre ++ rtt_entry now entry ++ post) (length pre) =
    Some (Some entry.1, entry.2, now, length (pre ++ rtt_entry now entry)).
Proof.
  destruct entry as [ip rtt]. intros [Hf Hip] Hnow. cbn [fst snd] in *.
  assert (Hshape : ∃ n octets, rtt_entry now (ip, rtt) =
            Z.of_nat n :: octets ++ to_be64 (f64_to_bits rtt) ++ to_be64 now ∧ length octets = n ∧
            (if decide (n = 4)%nat then Some (V4 octets)
             else if decide (n = 16)%nat then Some (V6 octets) else None) = Some ip).
  { unfold rtt_entry. destruct ip as [o|o]; cbn [fst snd]; exists (length o), o; rewrite Hip; done. }
  destruct Hshape as (n & octets & -> & Hlen & Hres). unfold load_entry.
  rewrite app_nth2, Nat.sub_diag by lia. cbn [nth app]. rewrite Nat2Z.id.
  set (buf := pre ++ _).
  assert (Hdrop : drop (length pre + 1) buf = octets ++ to_be64 (f64_to_bits rtt) ++ to_be64 now ++ post).
  { subst buf. rewrite <-drop_drop, drop_app_length. cbn [drop app]. by rewrite <-!app_assoc. }
  assert (Hbuf : length buf = (length pre + 1 + n + 16 + length post)%nat).
  { subst buf. rewrite length_app. cbn [length app]. rewrite !length_app, !length_to_be64. lia. }
  assert (Hdrop2 : drop (length pre + 1 + n) buf = to_be64 (f64_to_bits rtt) ++ to_be64 now ++ post)
    by (by rewrite <-drop_drop, Hdrop, <-Hlen, drop_app_length).
  assert (Hdrop3 : drop (length pre + 1 + n + 8) buf = to_be64 now ++ post)
    by (rewrite <-drop_drop, Hdrop2, <-(length_to_be64 (f64_to_bits rtt)); by rewrite drop_app_length).
  rewrite decide_False by lia. rewrite Hdrop, Hdrop2, Hdrop3.
  assert (Htake : ∀ l, take n (octets ++ l) = octets) by (intros; by rewrite <-Hlen, take_app_length).
  rewrite Htake, Hres.
  rewrite !be64_to_be64, f64_bits_roundtrip by auto using f64_bits_range. repeat f_equal.
  rewrite length_app. cbn [length]. rewrite !length_app, !length_to_be64. lia.
Qed.

Lemma load_loop_saved now entries pre fuel :
  Forall entry_ok entries → 0 ≤ now < 2 ^ 64 → (length entries <= fuel)%nat →
  load_loop fuel (pre ++ save_rtt_cache now entries) (length pre) =
    map (λ entry, (entry.1, entry.2, now)) entries.
Proof.
  intros Hok Hnow. revert pre fuel. induction Hok as [|entry entries He Hok IH]; intros pre fuel Hf.
  { rewrite app_nil_r. destruct fuel; [done|]. cbn [load_loop]. by rewrite decide_False by lia. }
  destruct fuel as [|fuel]; [cbn in Hf; lia|]. cbn [load_loop]. unfold save_rtt_cache. cbn [map concat].
  assert (Hne : (0 < length (rtt_entry now entry))%nat).
  { unfold rtt_entry. destruct entry as [[] ?]; cbn [fst]; rewrite <-app_assoc; cbn; lia. }
  rewrite decide_True by (rewrite !length_app; lia). rewrite load_entry_saved by done.
  rewrite app_assoc. f_equal. apply IH. cbn in Hf. lia.
Qed.

Lemma save_length now entries : (length entries <= length (save_rtt_cache now entries))%nat.
Proof.
  unfold save_rtt_cache. induction entries as [|entry entries IH]; cbn [map concat length]; [lia|].
  assert (Hne : (0 < length (rtt_entry now entry))%nat).
  { unfold rtt_entry. destruct entry as [[] ?]; cbn [fst]; rewrite <-app_assoc; cbn; lia. }
  rewrite length_app. lia.
Qed.

(** The file of round-trip times reads back entry by entry as it was written, but what is
    loaded from it, whatever it holds, is nothing, unless the clock stands in the first hour of
    1970: the test meant for the age of an entry looks at the clock alone. *)
Theorem rtt_file_useless now entries file wall clk :
  (Forall entry_ok entries → 0 ≤ now < 2 ^ 64 →
   load_loop (length (save_rtt_cache now entries)) (save_rtt_cache now entries) 0 =
     map (λ entry, (entry.1, entry.2, now)) entries) ∧
  ((∀ i, 3600 < wall i) → load_rtt_cache file wall clk = ∅).
Proof.
  split.
  - intros Hok Hnow. by apply (load_loop_saved now entries [] _ Hok Hnow), save_length.
  - intros Hwall. unfold load_rtt_cache. destruct file as [buf|]; [|done].
    generalize (load_loop (length buf) buf 0). intros l. generalize 0%nat.
    induction l as [|[[ip rtt] ts] l IH]; intros i; cbn [load_insert]; [done|].
    assert (loads (wall i) = false) as ->; [|apply IH].
    unfold loads. apply bool_decide_eq_false. specialize (Hwall i). lia.
Qed.

Lemma rtt_file_useless_witness :
  load_rtt_cache (Some (save_rtt_cache 1700000000 [(V4 [9; 9; 9; 9], f64_of_Z 20)]))
    (λ _, 1700000010) (λ _, 0) = ∅.
Proof. apply (rtt_file_useless 0 []). intros _. lia. Defined.

(** ** Health *)

(** Cycles in which no server answers, at the given times. *)
Definition dead_cycles {C : Type → Type} `{LruOps IpAddr C}
    (times : list (Z * (IpAddr → nat → Z))) (state : C (f64 * Z)%type * gmap IpAddr ServerHealth)
    : C (f64 * Z)%type * gmap IpAddr ServerHealth :=
  foldl (λ state t, health_cycle t.1 t.2 (λ _, Lost) state) state times.

Abbreviation T0 := (alru IpAddr).

(** The state after [n] failed checks of the only server. *)
Definition dead_state (server : IpAddr) (rtt : f64) (n : nat) (state : T0 (f64 * Z)%type * gmap IpAddr ServerHealth)
    : Prop :=
  ∃ t, state.1 = mkAlru 256 [(server, (Nat.iter (n / 3) (λ avg, f64_add avg HEALTH_PENALTY_MS) rtt, t))] ∧
  state.2 !! server =
    match n with O => None | S m => Some (mkHealth (Z.of_nat (m mod 3) + 1) None) end.

Lemma health_prune_lookup now health server :
  prune_health now health !! server =
    match health !! server with
    | Some h => if decide (health_kept now h) then Some h else None
    | None => None
    end.
Proof.
  unfold prune_health. destruct (health !! server) as [h|] eqn:E.
  - case_decide.
    + by apply map_lookup_filter_Some.
    + apply map_lookup_filter_None. right. intros h' E'. simplify_eq. by cbn.
  - apply map_lookup_filter_None. by left.
Qed.

Lemma third_step n :
  (n mod 3 = 2 ∧ S n / 3 = S (n / 3) ∧ S n mod 3 = 0 ∨
   n mod 3 < 2 ∧ S n / 3 = n / 3 ∧ S n mod 3 = S (n mod 3))%nat.
Proof.
  pose proof (Nat.div_mod_eq n 3). pose proof (Nat.div_mod_eq (S n) 3).
  pose proof (Nat.mod_upper_bound n 3). pose proof (Nat.mod_upper_bound (S n) 3). lia.
Qed.

(** The counter of a server that has never answered after another failed check. *)
Lemma dead_counter server now (n : nat) (health : gmap IpAddr ServerHealth) :
  health !! server = match n with O => None | S m => Some (mkHealth (Z.of_nat (m mod 3) + 1) None) end →
  consecutive_failures (default ServerHealth_default (prune_health now health !! server)) =
    Z.of_nat (n mod 3) ∧
  last_success (default ServerHealth_default (prune_health now health !! server)) = None.
Proof.
  intros Hh. rewrite health_prune_lookup, Hh. destruct n as [|m]; [done|].
  unfold health_kept, HEALTH_PENALTY_THRESHOLD. cbn [last_success consecutive_failures].
  destruct (third_step m) as [(E & _ & ->)|(E & _ & ->)].
  - rewrite decide_False by lia. done.
  - rewrite decide_True by lia. simpl. rewrite Nat2Z.inj_succ. split; [lia|done].
Qed.

(** The LRU map that holds one server. *)
Lemma only_remove {V} (server : IpAddr) (v : V) : al_remove server [(server, v)] = [].
Proof. unfold al_remove. rewrite filter_cons_False by (cbn; tauto). done. Qed.
Lemma only_get {V} (server : IpAddr) (v : V) :
  lru_get server (mkAlru 256 [(server, v)]) = (Some v, mkAlru 256 [(server, v)]).
Proof.
  unfold lru_get, alru_ops. cbn [al_find al_items al_cap].
  by rewrite only_remove, decide_True by done.
Qed.
Lemma only_put {V} (server : IpAddr) (v w : V) :
  lru_put server w (mkAlru 256 [(server, v)]) = mkAlru 256 [(server, w)].
Proof. unfold lru_put, alru_ops. cbn [al_items al_cap]. by rewrite only_remove. Qed.

Lemma dead_cycle_step server rtt n now clk state :
  dead_state server rtt n state → dead_state server rtt (S n) (health_cycle now clk (λ _, Lost) state).
Proof.
  destruct state as [table health]. intros (t & Ht & Hh). cbn [fst snd] in Ht, Hh. unfold health_cycle.
  set (avg := Nat.iter _ _ _) in *.
  assert (Hcheck : servers_to_check table = [server]) by by rewrite Ht.
  rewrite Hcheck. cbn [foldl]. unfold check_server.
  destruct (dead_counter server now n health Hh) as [-> ->].
  pose proof (Nat.mod_upper_bound n 3) as Hn. unfold u32. rewrite Z.mod_small by lia.
  cbn [consecutive_failures]. unfold HEALTH_PENALTY_THRESHOLD.
  destruct (third_step n) as [(E & E' & _)|(E & E' & _)].
  - rewrite decide_True by lia. rewrite Ht, only_get, only_put. unfold dead_state. rewrite E'.
    exists (clk server 0%nat). split; [done|]. cbn [snd]. by rewrite lookup_insert_eq.
  - rewrite decide_False by lia. unfold dead_state. rewrite E'.
    exists t. split; [done|]. cbn [snd]. by rewrite lookup_insert_eq.
Qed.

Lemma dead_cycles_state server rtt n times state :
  dead_state server rtt n state → dead_state server rtt (n + length times) (dead_cycles times state).
Proof.
  unfold dead_cycles. revert n state. induction times as [|[now clk] times IH]; intros n state Hs; cbn.
  - by rewrite Nat.add_0_r.
  - replace (n + S (length times))%nat with (S n + length times)%nat by lia.
    by apply IH, dead_cycle_step.
Qed.

(** A server that never answers a health check is forgotten after every third failure: its
    counter of consecutive failures runs through 1, 2, 3 again and again, and only every third
    failure, not every failure from the third on, adds the penalty to its round-trip time. *)
Theorem dead_server_penalty server rtt t times :
  (0 < length times)%nat →
  let state := dead_cycles times (mkAlru 256 [(server, (rtt, t))], ∅) in
  consecutive_failures <$> state.2 !! server = Some (Z.of_nat ((length times - 1) mod 3) + 1) ∧
  fst <$> lru_peek server state.1 =
    Some (Nat.iter (length times / 3) (λ avg, f64_add avg HEALTH_PENALTY_MS) rtt).
Proof.
  intros Hn. cbv zeta. destruct (dead_cycles_state server rtt 0 times (mkAlru 256 [(server, (rtt, t))], ∅))
    as (t' & -> & ->); [by exists t|].
  destruct (length times) as [|n]; [lia|]. change (0 + S n)%nat with (S n).
  rewrite Nat.sub_succ, Nat.sub_0_r. split; [done|].
  unfold lru_peek, alru_ops, al_items. cbn [al_find]. by rewrite decide_True by done.
Qed.

(** A server known at 20 ms that fails four checks. *)
Lemma dead_server_penalty_witness :
  let server := V4 [9; 9; 9; 9] in
  let state := dead_cycles [(30, λ _ _, 31); (60, λ _ _, 61); (90, λ _ _, 91); (120, λ _ _, 121)]
                 (mkAlru 256 [(server, (f64_of_Z 20, 0))], ∅) in
  consecutive_failures <$> state.2 !! server = Some 1 ∧
  fst <$> lru_peek server state.1 = Some (f64_of_Z 2020).
Proof.
  destruct (dead_server_penalty (V4 [9; 9; 9; 9]) (f64_of_Z 20) 0
    [(30, λ _ _, 31); (60, λ _ _, 61); (90, λ _ _, 91); (120, λ _ _, 121)]) as [Hc Hr]; [cbn; lia|].
  cbv zeta. rewrite Hc, Hr. split; reflexivity.
Defined.
