(* ===== verification/Upstream.v ===== *)
(** * Queries to name servers (src/resolver/recursive.rs, lines 77-130, 1345-1531, 2266-2369)

    The state of the resolver, the pool of TCP connections, and the exchange
    with the name servers: building a query, one task per server with its
    truncation cache, its fall-back to TCP and its round-trip time, and the
    first answer that comes in.  The operating system is the class [Env].

    Guards are held as the source holds them: the one on the truncation cache
    over a whole exchange over TCP, the one on the pool over a connect.

    The tasks of a query run concurrently in the source and go on after the
    first answer.  Here they run one after the other in the order in which
    they end, which the environment picks, and those that have not ended when
    the first answer comes in go on as tasks of their own.  The mutex of the
    map of server health is left out: one task alone uses the map. *)

From Stdlib Require Import SpecFloat.
From stdpp Require Import gmap strings.
From S2P Require Import Prelude Constants Str Types Names NameCodec Rdata Message Async Lru Cache RootHints Rtt.
#[local] Open Scope Z_scope.

(** ** The environment *)

Class Env (N : Type) := {
  (** The readings of [Instant::now] (nanoseconds) and of [SystemTime::now] (seconds) in one
      step. *)
  env_clock : N → (nat → Z) * N;
  env_wall : N → (nat → Z) * N;
  (** [rand::thread_rng().gen::<u16>()] *)
  env_random : N → Z * N;
  (** A new socket, [bind] and [send_to]: whether they succeed; and what [recv_from] then gives
      until the timeout, [None] being an error. *)
  env_send : IpAddr → bytes → N → bool * N;
  env_recv : IpAddr → bytes → N → list (option bytes) * N;
  (** TCP within the timeout: a connection, a whole write, an exact read; and a write that has
      ended in time, be it with an error. *)
  env_connect : IpAddr → N → option nat * N;
  env_write : nat → bytes → N → bool * N;
  env_read : nat → nat → N → option bytes * N;
  env_write_in_time : nat → bytes → N → bool * N;
  (** The exchange of a health check. *)
  env_ping : IpAddr → bytes → N → check_result * N;
  (** Which of the tasks still running ends next. *)
  env_pick : N → nat * N;
  (** Whether the time of a resolution with a timeout is up. *)
  env_timed_out : N → bool * N;
}.

(** ** The pool of TCP connections *)

Definition TCP_POOL_PER_SERVER : nat := 2.
Definition TCP_POOL_IDLE_TIMEOUT : Z := 60 * SEC.

Abbreviation TcpPool := (gmap IpAddr (list (nat * Z))).

Definition pool_fresh (now : Z) (c : nat * Z) : Prop :=
  duration_since now c.2 < TCP_POOL_IDLE_TIMEOUT.
#[export] Instance pool_fresh_dec now c : Decision (pool_fresh now c).
Proof. unfold pool_fresh. apply _. Defined.

(** The [while let Some(..) = streams.pop()] loop, on the reversed list. *)
Fixpoint pop_fresh (now : Z) (rev_streams : list (nat * Z)) : option nat * list (nat * Z) :=
  match rev_streams with
  | [] => (None, [])
  | c :: rev_streams =>
    if decide (pool_fresh now c) then (Some c.1, rev_streams) else pop_fresh now rev_streams
  end.

Definition pool_acquire (now : Z) (server : IpAddr) (pool : TcpPool) : option nat * TcpPool :=
  match pool !! server with
  | Some streams =>
    let '(found, rest) := pop_fresh now (reverse streams) in
    (found, <[server := reverse rest]> pool)
  | None => (None, pool)
  end.

Definition pool_release (now : Z) (server : IpAddr) (stream : nat) (pool : TcpPool) : TcpPool :=
  let streams := filter (pool_fresh now) (default [] (pool !! server)) in
  <[server := if decide (length streams < TCP_POOL_PER_SERVER)%nat
              then streams ++ [(stream, now)] else streams]> pool.

Definition pool_cleanup (now : Z) (pool : TcpPool) : TcpPool :=
  omap (λ streams : list (nat * Z),
    let streams := filter (pool_fresh now) streams in
    if decide (streams = []) then None else Some streams) pool.

(** ** The state of the resolver *)

Definition MAX_ITERATIONS : nat := 32.
Definition MAX_CNAME_DEPTH : nat := 10.
Definition NS_CACHE_MAX : nat := Z.to_nat 4096.
Definition DELEGATION_CACHE_MAX : nat := Z.to_nat 1024.
Definition DELEGATION_CACHE_TTL : Z := 7200 * SEC.
Definition TRUNCATION_CACHE_TTL : Z := 300 * SEC.

Record ResolverStats := mkRStats {
  st_total_queries : Z;
  st_cache_hits : Z;
  st_cache_misses : Z;
  st_failed_queries : Z;
  st_served_stale : Z;
  st_avg_resolve_time_ms : f64;
  st_min_resolve_time_ms : f64;
  st_max_resolve_time_ms : f64;
}.

(** [C] is the LRU map under the DNS cache, [D] the one under the two caches keyed by names, [R]
    the one under the round-trip times.  [r_spawned] are the background refreshes that
    [resolve_with_ad] has started. *)
Record RecursiveResolver (C D R : Type → Type) (N : Type) := mkResolver {
  r_cache : DnsCache C;
  r_ns_cache : D (list IpAddr);
  r_delegation_cache : D (list IpAddr * Z)%type;
  r_stats : ResolverStats;
  r_server_rtt : R (f64 * Z)%type;
  r_server_health : gmap IpAddr ServerHealth;
  r_tcp_pool : TcpPool;
  r_truncation_cache : gmap IpAddr Z;
  r_spawned : list (str * Z * Z);
  r_env : N;
}.
Arguments mkResolver {C D R N}.
Arguments r_cache {C D R N}.
Arguments r_ns_cache {C D R N}.
Arguments r_delegation_cache {C D R N}.
Arguments r_stats {C D R N}.
Arguments r_server_rtt {C D R N}.
Arguments r_server_health {C D R N}.
Arguments r_tcp_pool {C D R N}.
Arguments r_truncation_cache {C D R N}.
Arguments r_spawned {C D R N}.
Arguments r_env {C D R N}.

Section upstream.
Context {C D R : Type → Type} {N : Type} `{LruOps cache_key C} `{LruOps bytes D} `{LruOps IpAddr R} `{Env N}.

Abbreviation St := (RecursiveResolver C D R N).

(** ** Actions on one part of the state *)

Definition set_cache (x : DnsCache C) (s : St) : St :=
  mkResolver x (r_ns_cache s) (r_delegation_cache s) (r_stats s)
    (r_server_rtt s) (r_server_health s) (r_tcp_pool s) (r_truncation_cache s) (r_spawned s) (r_env s).
Definition set_ns_cache (x : D (list IpAddr)) (s : St) : St :=
  mkResolver (r_cache s) x (r_delegation_cache s) (r_stats s)
    (r_server_rtt s) (r_server_health s) (r_tcp_pool s) (r_truncation_cache s) (r_spawned s) (r_env s).
Definition set_delegation_cache (x : D (list IpAddr * Z)%type) (s : St) : St :=
  mkResolver (r_cache s) (r_ns_cache s) x (r_stats s)
    (r_server_rtt s) (r_server_health s) (r_tcp_pool s) (r_truncation_cache s) (r_spawned s) (r_env s).
Definition set_stats (x : ResolverStats) (s : St) : St :=
  mkResolver (r_cache s) (r_ns_cache s) (r_delegation_cache s) x
    (r_server_rtt s) (r_server_health s) (r_tcp_pool s) (r_truncation_cache s) (r_spawned s) (r_env s).
Definition set_server_rtt (x : R (f64 * Z)%type) (s : St) : St :=
  mkResolver (r_cache s) (r_ns_cache s) (r_delegation_cache s) (r_stats s)
    x (r_server_health s) (r_tcp_pool s) (r_truncation_cache s) (r_spawned s) (r_env s).
Definition set_server_health (x : gmap IpAddr ServerHealth) (s : St) : St :=
  mkResolver (r_cache s) (r_ns_cache s) (r_delegation_cache s) (r_stats s)
    (r_server_rtt s) x (r_tcp_pool s) (r_truncation_cache s) (r_spawned s) (r_env s).
Definition set_tcp_pool (x : TcpPool) (s : St) : St :=
  mkResolver (r_cache s) (r_ns_cache s) (r_delegation_cache s) (r_stats s)
    (r_server_rtt s) (r_server_health s) x (r_truncation_cache s) (r_spawned s) (r_env s).
Definition set_truncation_cache (x : gmap IpAddr Z) (s : St) : St :=
  mkResolver (r_cache s) (r_ns_cache s) (r_delegation_cache s) (r_stats s)
    (r_server_rtt s) (r_server_health s) (r_tcp_pool s) x (r_spawned s) (r_env s).
Definition set_spawned (x : list (str * Z * Z)) (s : St) : St :=
  mkResolver (r_cache s) (r_ns_cache s) (r_delegation_cache s) (r_stats s)
    (r_server_rtt s) (r_server_health s) (r_tcp_pool s) (r_truncation_cache s) x (r_env s).
Definition set_env (x : N) (s : St) : St :=
  mkResolver (r_cache s) (r_ns_cache s) (r_delegation_cache s) (r_stats s)
    (r_server_rtt s) (r_server_health s) (r_tcp_pool s) (r_truncation_cache s) (r_spawned s) x.

Definition use_env {A} (f : N → A * N) : RM St A :=
  act (λ s, let '(a, x) := f (r_env s) in (a, set_env x s)).
(** The deadline of [Async.timeout]. *)
Definition timed_out (s : St) : bool * St := let '(b, x) := env_timed_out (r_env s) in (b, set_env x s).
Definition use_cache {A} (f : DnsCache C → A * DnsCache C) : RM St A :=
  act (λ s, let '(a, x) := f (r_cache s) in (a, set_cache x s)).
Definition use_ns_cache {A} (f : D (list IpAddr) → A * D (list IpAddr)) : RM St A :=
  act (λ s, let '(a, x) := f (r_ns_cache s) in (a, set_ns_cache x s)).
Definition use_delegation_cache {A} (f : D (list IpAddr * Z)%type → A * D (list IpAddr * Z)%type) : RM St A :=
  act (λ s, let '(a, x) := f (r_delegation_cache s) in (a, set_delegation_cache x s)).
Definition use_server_rtt {A} (f : R (f64 * Z)%type → A * R (f64 * Z)%type) : RM St A :=
  act (λ s, let '(a, x) := f (r_server_rtt s) in (a, set_server_rtt x s)).
Definition use_server_health {A} (f : gmap IpAddr ServerHealth → A * gmap IpAddr ServerHealth) : RM St A :=
  act (λ s, let '(a, x) := f (r_server_health s) in (a, set_server_health x s)).
Definition use_pool {A} (f : TcpPool → A * TcpPool) : RM St A :=
  act (λ s, let '(a, x) := f (r_tcp_pool s) in (a, set_tcp_pool x s)).
Definition use_truncation_cache {A} (f : gmap IpAddr Z → A * gmap IpAddr Z) : RM St A :=
  act (λ s, let '(a, x) := f (r_truncation_cache s) in (a, set_truncation_cache x s)).
Definition use_stats (f : ResolverStats → ResolverStats) : RM St unit :=
  act (λ s, ((), set_stats (f (r_stats s)) s)).
Definition spawn (job : str * Z * Z) : RM St unit :=
  act (λ s, ((), set_spawned (r_spawned s ++ [job]) s)).

(** One reading of the clock. *)
Definition instant_now : RM St Z := clk ← use_env env_clock; mret (clk 0%nat).

(** ** Building a query *)

Definition build_query_static (name : bytes) (rtype rclass id : Z) (dnssec_ok recursive : bool)
    : DnsResult bytes :=
  let question := mkQuestion name rtype rclass in
  let header := Header_new_query id recursive in
  let opt := OptRecord_new dnssec_ok in
  let opt := mkOptRecord (u16 MAX_EDNS_PAYLOAD) (o_ext_rcode opt) (o_edns_version opt)
               (o_dnssec_ok opt) (o_options opt) in
  let additionals := [OptRecord_to_resource_record opt] in
  encode_message (mkMessage header [question] [] [] additionals).

(** ** One server *)

Definition frame (query_bytes : bytes) : bytes :=
  to_be16 (u16 (Z.of_nat (length query_bytes))) ++ query_bytes.

(** [query_via_tcp_pool] *)
Definition query_via_tcp_pool (query_bytes : bytes) (server : IpAddr) : RM St (option bytes) :=
  stream ← with_lock PoolLock (
    now ← instant_now;
    pooled ← use_pool (pool_acquire now server);
    match pooled with
    | Some stream => mret (Some stream)
    | None => use_env (env_connect server)
    end);
  match stream with
  | None => mret None
  | Some stream =>
    ok ← use_env (env_write stream (frame query_bytes));
    if negb ok then mret None else
    len_buf ← use_env (env_read stream 2);
    match len_buf with
    | None => mret None
    | Some len_buf =>
      let response_len := Z.to_nat (be16 (nth 0 len_buf 0) (nth 1 len_buf 0)) in
      if decide (response_len = 0)%nat then mret None else
      response_data ← use_env (env_read stream response_len);
      match response_data with
      | None => mret None
      | Some response_data =>
        _ ← with_lock PoolLock (
          now ← instant_now;
          use_pool (λ pool, ((), pool_release now server stream pool)));
        mret (Some response_data)
      end
    end
  end.

(** The time a connection takes; the write must end in time, but may fail. *)
Definition measure_tcp_rtt (query_bytes : bytes) (server : IpAddr) : RM St (option f64) :=
  start ← instant_now;
  stream ← use_env (env_connect server);
  match stream with
  | None => mret None
  | Some stream =>
    now ← instant_now;
    in_time ← use_env (env_write_in_time stream (frame query_bytes));
    mret (if (in_time : bool) then Some (ms_of (duration_since now start)) else None)
  end.

Definition record_server_rtt (server : IpAddr) (rtt_ms : f64) : RM St unit :=
  with_lock RttLock (
    now ← instant_now;
    use_server_rtt (λ table, ((), record_rtt now server rtt_ms table))).

(** The loop over the datagrams: the first with the expected id is decoded; an error of
    [recv_from] or the timeout end it. *)
Fixpoint recv_loop (expected_id : Z) (datagrams : list (option bytes)) : DnsResult (option Message) :=
  match datagrams with
  | [] => Ok None
  | None :: _ => Ok None
  | Some data :: datagrams =>
    let data := take 8192 data in
    if decide (2 <= length data)%nat then
      if decide (be16 (nth 0 data 0) (nth 1 data 0) = expected_id) then
        outcome_ok (decode_message data)
      else recv_loop expected_id datagrams
    else recv_loop expected_id datagrams
  end.

(** A server that has truncated before: TCP, under the guard of the truncation cache; [None]
    when the server is not one. *)
Definition truncated_before (q : bytes) (server : IpAddr) : RM St (option (option Message)) :=
  with_lock TruncationLock (
    truncated ← use_truncation_cache (λ tc, (bool_decide (is_Some (tc !! server)), tc));
    if negb truncated then mret None else
    tcp_data ← query_via_tcp_pool q server;
    match tcp_data with
    | None => mret (Some None)
    | Some tcp_data =>
      m ← lift (outcome_ok (decode_message tcp_data));
      match m with
      | None => mret (Some None)
      | Some m =>
        rtt_ms ← measure_tcp_rtt q server;
        _ ← (match rtt_ms with Some rtt_ms => record_server_rtt server rtt_ms | None => mret () end);
        mret (Some (Some m))
      end
    end).

(** The retry over TCP of a truncated response; [None] when there is none. *)
Definition tcp_fallback (q : bytes) (server : IpAddr) (m : Message) : RM St (option (option Message)) :=
  if negb (h_tc (m_header m)) then mret None else
  _ ← with_lock TruncationLock (
    now ← instant_now;
    use_truncation_cache (λ tc, ((), <[server := now + TRUNCATION_CACHE_TTL]> tc)));
  tcp_data ← query_via_tcp_pool q server;
  match tcp_data with
  | Some tcp_data => lift (Some <$> outcome_ok (decode_message tcp_data))
  | None => mret None
  end.

(** The task that [query_servers_concurrent] spawns for a server. *)
Definition server_task (q : bytes) (expected_id : Z) (server : IpAddr) : RM St (option Message) :=
  early ← truncated_before q server;
  match early with
  | Some answer => mret answer
  | None =>
    send_start ← instant_now;
    sent ← use_env (env_send server q);
    if negb sent then mret None else
    datagrams ← use_env (env_recv server q);
    msg ← lift (recv_loop expected_id datagrams);
    match msg with
    | None => mret None
    | Some m =>
      retried ← tcp_fallback q server m;
      match retried with
      | Some answer => mret answer
      | None =>
        now ← instant_now;
        _ ← record_server_rtt server (ms_of (duration_since now send_start));
        mret (Some m)
      end
    end
  end.

(** ** All servers at once *)

(** The servers in the order in which their tasks end. *)
Fixpoint completion_order (fuel : nat) (servers : list IpAddr) : RM St (list IpAddr) :=
  match fuel, servers with
  | S fuel, first :: _ =>
    i ← use_env env_pick;
    let i := (i mod length servers)%nat in
    rest ← completion_order fuel (delete i servers);
    mret (nth i servers first :: rest)
  | _, _ => mret []
  end.

(** The tasks that nobody waits for any more. *)
Fixpoint detach_tasks (q : bytes) (expected_id : Z) (servers : list IpAddr) : RM St unit :=
  match servers with
  | [] => mret ()
  | server :: servers => _ ← fork (server_task q expected_id server); detach_tasks q expected_id servers
  end.

(** The tasks: a panic ends its own task only, and a task that hangs never ends. *)
Fixpoint run_tasks (q : bytes) (expected_id : Z) (hung : bool) (servers : list IpAddr)
    : RM St (option Message) :=
  match servers with
  | [] => if hung then lift Diverge else mret None
  | server :: servers =>
    result ← attempt (server_task q expected_id server);
    match result with
    | Ok (Some m) => _ ← detach_tasks q expected_id servers; mret (Some m)
    | Diverge => run_tasks q expected_id true servers
    | _ => run_tasks q expected_id hung servers
    end
  end.

Definition query_servers_concurrent (query_bytes : bytes) (expected_id : Z)
    (servers : list IpAddr) : RM St (option Message) :=
  if decide (servers = []) then mret None else
  sorted_servers ← with_lock RttLock (use_server_rtt (λ table, (sort_servers table servers, table)));
  order ← completion_order (length sorted_servers) sorted_servers;
  run_tasks query_bytes expected_id false order.

Definition query_rd1 (name : bytes) (rtype rclass : Z) (servers : list IpAddr)
    : RM St (option Message) :=
  if decide (servers = []) then mret None else
  id ← use_env env_random;
  query_bytes ← try (lift (build_query_static name rtype rclass id true true));
  match query_bytes with
  | None => mret None
  | Some query_bytes => query_servers_concurrent query_bytes id servers
  end.
End upstream.
