(* ===== verification/Exchange.v ===== *)
(** * What a query to name servers gives (src/resolver/recursive.rs)

    The properties of [Upstream]: the pool never hands a connection to two
    exchanges, and a query to several servers returns what one of the live
    servers answers, in whatever order the tasks end. *)

From stdpp Require Import gmap strings.
From S2P Require Import Prelude Constants Str Types Names NameCodec Rdata Message Async Lru Cache RootHints Rtt.
From S2P Require Import Upstream.
#[local] Open Scope Z_scope.

(** ** The connection pool *)

(** The connections in the pool. *)
Definition pool_streams (pool : TcpPool) : list nat :=
  (concat ((map_to_list pool).*2)).*1.

(** The pool and the connections that exchanges hold.  Closed connections are in neither. *)
Inductive pool_step : TcpPool * list nat → TcpPool * list nat → Prop :=
  | pool_step_acquire now server pool held c pool' :
    pool_acquire now server pool = (Some c, pool') →
    pool_step (pool, held) (pool', c :: held)
  | pool_step_acquire_none now server pool held pool' :
    pool_acquire now server pool = (None, pool') →
    pool_step (pool, held) (pool', held)
  | pool_step_connect pool held c :
    c ∉ pool_streams pool → c ∉ held →
    pool_step (pool, held) (pool, c :: held)
  | pool_step_release now server pool held held' c :
    held ≡ₚ c :: held' →
    pool_step (pool, held) (pool_release now server c pool, held')
  | pool_step_close pool held held' c :
    held ≡ₚ c :: held' →
    pool_step (pool, held) (pool, held')
  | pool_step_cleanup now pool held :
    pool_step (pool, held) (pool_cleanup now pool, held).

Definition pool_inv (s : TcpPool * list nat) : Prop :=
  NoDup (pool_streams s.1 ++ s.2) ∧
  map_Forall (λ _ streams, (length streams <= TCP_POOL_PER_SERVER)%nat) s.1.

Lemma pool_streams_empty : pool_streams ∅ = [].
Proof. done. Qed.

Lemma pool_streams_insert server streams pool :
  pool_streams (<[server := streams]> pool) ≡ₚ streams.*1 ++ pool_streams (delete server pool).
Proof.
  unfold pool_streams. rewrite <-insert_delete_eq, map_to_list_insert by apply lookup_delete_eq.
  by rewrite fmap_cons, concat_cons, fmap_app.
Qed.

Lemma pool_streams_lookup server pool :
  pool_streams pool ≡ₚ (default [] (pool !! server)).*1 ++ pool_streams (delete server pool).
Proof.
  destruct (pool !! server) as [streams|] eqn:E; cbn [default].
  - by rewrite <-pool_streams_insert, insert_id.
  - by rewrite delete_id.
Qed.

(** Shrinking one server's list. *)
Lemma pool_streams_shrink server streams pool :
  streams.*1 ⊆+ (default [] (pool !! server)).*1 →
  pool_streams (<[server := streams]> pool) ⊆+ pool_streams pool.
Proof.
  intros Hs. rewrite pool_streams_insert, (pool_streams_lookup server pool). by apply submseteq_app.
Qed.

Lemma NoDup_submseteq_app {A} (l l' k : list A) : l' ⊆+ l → NoDup (l ++ k) → NoDup (l' ++ k).
Proof.
  intros (r & ->)%submseteq_Permutation Hnd. rewrite <-app_assoc in Hnd.
  apply NoDup_app in Hnd as (H1 & H2 & H3). apply NoDup_app in H3 as (H4 & H5 & H6).
  apply NoDup_app. split_and!; [done| |done]. intros x Hx Hk. apply (H2 x Hx).
  apply elem_of_app. by right.
Qed.

Lemma pop_fresh_suffix now l c rest :
  pop_fresh now l = (c, rest) →
  ∃ dropped, l = dropped ++ rest ∧
    match c with
    | Some c => ∃ dropped' t, dropped = dropped' ++ [(c, t)] ∧ pool_fresh now (c, t) ∧
                  Forall (λ x, ¬ pool_fresh now x) dropped'
    | None => rest = [] ∧ Forall (λ x, ¬ pool_fresh now x) dropped
    end.
Proof.
  revert c rest. induction l as [|[x t] l IH]; intros c rest; cbn [pop_fresh].
  { intros [= <- <-]. by exists []. }
  case_decide as Hf.
  - intros [= <- <-]. exists [(x, t)]. split; [done|]. by exists [], t.
  - intros E. destruct (IH _ _ E) as (dropped & -> & Hc). exists ((x, t) :: dropped).
    split; [done|]. destruct c as [c|]; [|destruct Hc; split; [done|by constructor]].
    destruct Hc as (d & t' & -> & Hfresh & Hd). exists ((x, t) :: d), t'.
    split_and!; [done|done|by constructor].
Qed.

(** What acquiring does to the connections. *)
Lemma pool_acquire_streams now server pool c pool' :
  pool_acquire now server pool = (c, pool') →
  option_list c ++ pool_streams pool' ⊆+ pool_streams pool ∧
  (map_Forall (λ _ streams, (length streams <= TCP_POOL_PER_SERVER)%nat) pool →
   map_Forall (λ _ streams, (length streams <= TCP_POOL_PER_SERVER)%nat) pool').
Proof.
  unfold pool_acquire. destruct (pool !! server) as [streams|] eqn:E; [|by intros [= <- <-]].
  destruct (pop_fresh now (reverse streams)) as [found rest] eqn:Hp. intros [= <- <-].
  destruct (pop_fresh_suffix _ _ _ _ Hp) as (dropped & Hrev & Hc).
  assert (Hsub : option_list found ++ rest.*1 ⊆+ streams.*1).
  { transitivity ((reverse streams).*1); [|by rewrite reverse_Permutation]. rewrite Hrev, fmap_app.
    apply submseteq_app; [|done]. destruct found as [c|]; [|apply submseteq_nil_l].
    destruct Hc as (d & t & -> & _). rewrite fmap_app. cbn. by apply submseteq_inserts_l. }
  split.
  - rewrite pool_streams_insert, (pool_streams_lookup server pool), E. cbn [default].
    rewrite app_assoc. apply submseteq_app; [|done]. by rewrite reverse_Permutation.
  - intros Hlen. apply map_Forall_insert_2; [|done]. rewrite length_reverse.
    apply Nat.le_trans with (length streams); [|by apply (Hlen server)].
    rewrite <-(length_reverse streams), Hrev, length_app. lia.
Qed.

Lemma pool_release_streams now server c pool :
  pool_streams (pool_release now server c pool) ⊆+ c :: pool_streams pool ∧
  (map_Forall (λ _ streams, (length streams <= TCP_POOL_PER_SERVER)%nat) pool →
   map_Forall (λ _ streams, (length streams <= TCP_POOL_PER_SERVER)%nat)
     (pool_release now server c pool)).
Proof.
  unfold pool_release. set (streams := filter (pool_fresh now) _).
  assert (Hs : streams.*1 ⊆+ (default [] (pool !! server)).*1).
  { apply fmap_submseteq, sublist_submseteq, sublist_filter. }
  clearbody streams. split.
  - case_decide; [|by apply submseteq_cons, pool_streams_shrink].
    rewrite pool_streams_insert, (pool_streams_lookup server pool), fmap_app, (Permutation_app_comm streams.*1).
    cbn. apply submseteq_skip. by apply submseteq_app.
  - intros Hlen. apply map_Forall_insert_2; [|done]. case_decide as Hl.
    + rewrite length_app. cbn. lia.
    + apply submseteq_length in Hs. rewrite !length_fmap in Hs.
      destruct (pool !! server) as [l|] eqn:E; cbn in Hs; [|lia]. apply Hlen in E. cbn in E. lia.
Qed.

Lemma pool_cleanup_streams now pool :
  pool_streams (pool_cleanup now pool) ⊆+ pool_streams pool ∧
  (map_Forall (λ _ streams, (length streams <= TCP_POOL_PER_SERVER)%nat) pool →
   map_Forall (λ _ streams, (length streams <= TCP_POOL_PER_SERVER)%nat) (pool_cleanup now pool)).
Proof.
  unfold pool_cleanup. split.
  - induction pool as [|server streams pool Hnone IH] using map_ind; [done|].
    rewrite omap_insert, pool_streams_insert, delete_id by done.
    assert (Hnone' : ∀ f : list (nat * Z) → option (list (nat * Z)), omap f pool !! server = None)
      by (intros f; by rewrite lookup_omap, Hnone).
    case_decide; [rewrite delete_id by apply Hnone'; by apply submseteq_inserts_l|].
    rewrite pool_streams_insert, delete_id by apply Hnone'.
    apply submseteq_app; [|done]. apply fmap_submseteq, sublist_submseteq, sublist_filter.
  - intros Hlen server streams. rewrite lookup_omap. destruct (pool !! server) as [l|] eqn:E; [|done].
    cbn. case_decide; [done|]. intros [= <-]. apply Hlen in E. cbn in E.
    pose proof (length_filter (pool_fresh now) l). lia.
Qed.

Lemma pool_step_inv s s' : pool_step s s' → pool_inv s → pool_inv s'.
Proof.
  intros Hstep [Hnd Hlen]. destruct Hstep as [now server pool held c pool' E|now server pool held pool' E
    |pool held c Hp Hh|now server pool held held' c Hh|pool held held' c Hh|now pool held];
    unfold pool_inv in *; cbn [fst snd] in *.
  - destruct (pool_acquire_streams _ _ _ _ _ E) as [Hsub Hl]. split; [|by apply Hl].
    rewrite <-Permutation_middle. change (NoDup (([c] ++ pool_streams pool') ++ held)).
    by eapply NoDup_submseteq_app.
  - destruct (pool_acquire_streams _ _ _ _ _ E) as [Hsub Hl]. split; [|by apply Hl].
    by eapply NoDup_submseteq_app.
  - split; [|done]. rewrite <-Permutation_middle. apply NoDup_cons. split; [|done].
    by intros [?|?]%elem_of_app.
  - destruct (pool_release_streams now server c pool) as [Hsub Hl]. split; [|by apply Hl].
    eapply NoDup_submseteq_app; [exact Hsub|]. rewrite Hh, <-Permutation_middle in Hnd. exact Hnd.
  - split; [|done]. rewrite Hh, <-Permutation_middle in Hnd. by apply NoDup_cons in Hnd as [_ ?].
  - destruct (pool_cleanup_streams now pool) as [Hsub Hl]. split; [|by apply Hl].
    by eapply NoDup_submseteq_app.
Qed.

Lemma pool_reachable_inv s s' : rtc pool_step s s' → pool_inv s → pool_inv s'.
Proof. induction 1; eauto using pool_step_inv. Qed.

(** C33: however exchanges connect, acquire, release and close connections and the pool is cleaned,
    no connection is held by two exchanges, none that is held is in the pool, and the pool keeps
    at most two per server; what an exchange acquires has been idle for less than a minute, and
    it gets nothing only when no connection to the server is. *)
Theorem tcp_pool_exclusive pool held :
  rtc pool_step (∅, []) (pool, held) →
  NoDup held ∧ (∀ c, c ∈ held → c ∉ pool_streams pool) ∧
  (∀ server streams, pool !! server = Some streams → (length streams <= 2)%nat) ∧
  (∀ now server c pool', pool_acquire now server pool = (Some c, pool') →
     c ∉ held ∧ c ∉ pool_streams pool' ∧
     ∃ last_used, (c, last_used) ∈ default [] (pool !! server) ∧
       duration_since now last_used < 60 * SEC) ∧
  (∀ now server pool', pool_acquire now server pool = (None, pool') →
     ∀ c, c ∈ default [] (pool !! server) → ¬ pool_fresh now c).
Proof.
  intros Hr. apply pool_reachable_inv in Hr as [Hnd Hlen];
    [|split; [apply NoDup_nil_2|apply map_Forall_empty]].
  cbn [fst snd] in *. pose proof Hnd as (Hp & Hdisj & Hh)%NoDup_app. split_and!; [done| |exact Hlen| |].
  - intros c Hc Hin. by apply (Hdisj c).
  - intros now server c pool' E. destruct (pool_acquire_streams _ _ _ _ _ E) as [Hsub _].
    apply (NoDup_submseteq_app _ _ held Hsub) in Hnd. cbn in Hnd. apply NoDup_cons in Hnd as [Hc _].
    rewrite elem_of_app in Hc. split_and!; [naive_solver..|].
    unfold pool_acquire in E. destruct (pool !! server) as [streams|]; [|done].
    destruct (pop_fresh now (reverse streams)) as [found rest] eqn:Ep. injection E as -> <-.
    apply pop_fresh_suffix in Ep as (dropped & Hrev & d & t & -> & Hf & _). exists t. split; [|exact Hf].
    cbn. rewrite <-elem_of_reverse, Hrev, !elem_of_app. left. right. by left.
  - intros now server pool' E c. unfold pool_acquire in E.
    destruct (pool !! server) as [streams|]; [|by intros []%elem_of_nil].
    destruct (pop_fresh now (reverse streams)) as [found rest] eqn:Ep. injection E as -> <-.
    cbn. rewrite <-elem_of_reverse.
    apply pop_fresh_suffix in Ep as (dropped & -> & -> & Hf). rewrite app_nil_r.
    rewrite Forall_forall in Hf. apply Hf.
Qed.

(** One exchange connects and releases; the next one acquires what it left. *)
Lemma tcp_pool_exclusive_witness :
  let server := V4 [10; 0; 0; 1] in
  NoDup [7%nat] ∧ pool_acquire 5 server (pool_release 1 server 7 ∅) = (Some 7%nat, {[ server := [] ]}).
Proof.
  split; [|by vm_compute].
  refine (proj1 (tcp_pool_exclusive {[ V4 [10; 0; 0; 1] := [] ]} [7%nat] _)).
  eapply rtc_l; [apply (pool_step_connect ∅ [] 7); by intros []%elem_of_nil|].
  eapply rtc_l; [by apply (pool_step_release 1 (V4 [10; 0; 0; 1]))|].
  eapply rtc_l; [|apply rtc_refl].
  apply (pool_step_acquire 5 (V4 [10; 0; 0; 1])). by vm_compute.
Defined.

(** ** A query to several servers *)

(** A network in which what a server sends back depends on the query alone. *)
Class Stateless (N : Type) `{Env N} := {
  net_send : IpAddr → bytes → bool;
  net_recv : IpAddr → bytes → list (option bytes);
  stateless_send ip q n : (env_send ip q n).1 = net_send ip q;
  stateless_recv ip q n : (env_recv ip q n).1 = net_recv ip q;
}.

(** The state after an exchange over UDP: round-trip times and the environment have moved on. *)
Definition with_net {C D R : Type → Type} {N : Type} (s : RecursiveResolver C D R N)
    (net : R (f64 * Z)%type * N) : RecursiveResolver C D R N :=
  set_env net.2 (set_server_rtt net.1 s).

Section exchange.
Context {C D R : Type → Type} {N : Type} `{LruOps cache_key C} `{LruOps bytes D} `{LruOps IpAddr R} `{Stateless N}.
Abbreviation St := (RecursiveResolver C D R N).

(** What the datagrams of a server amount to. *)
Definition reply (server : IpAddr) (q : bytes) (id : Z) : DnsResult (option Message) :=
  if net_send server q then recv_loop id (net_recv server q) else Ok None.

(** A computation whose effect is of this kind. *)
Definition nets {A} (c : RM St A) (s : St) (r : DnsResult A) : Prop := ∃ net, c s = (r, with_net s net).

Lemma with_net_id (s : St) : with_net s (r_server_rtt s, r_env s) = s.
Proof. by destruct s. Qed.

Lemma nets_done {A} (r : DnsResult A) (s : St) : nets (Done r) s r.
Proof. exists (r_server_rtt s, r_env s). by rewrite with_net_id. Qed.
Lemma nets_bind {A B} (c : RM St A) (f : A → RM St B) s a r :
  nets c s (Ok a) → (∀ net, nets (f a) (with_net s net) r) → nets (c ≫= f) s r.
Proof.
  intros [net E] Hf. unfold nets. rewrite (bind_step _ _ _ _ _ E).
  destruct (Hf net) as [net' ->]. by exists net'.
Qed.
Lemma nets_use_env {A} (f : N → A * N) (s : St) : nets (use_env f) s (Ok (f (r_env s)).1).
Proof. exists (r_server_rtt s, (f (r_env s)).2). unfold use_env. rewrite run_act. by destruct (f (r_env s)), s. Qed.
Lemma nets_use_server_rtt {A} (f : R (f64 * Z)%type → A * R (f64 * Z)%type) (s : St) :
  nets (use_server_rtt f) s (Ok (f (r_server_rtt s)).1).
Proof. exists ((f (r_server_rtt s)).2, r_env s). unfold use_server_rtt. rewrite run_act. by destruct (f (r_server_rtt s)), s. Qed.
Lemma nets_instant_now (s : St) : ∃ now, nets instant_now s (Ok now).
Proof.
  eexists. eapply nets_bind; [apply nets_use_env|]. intros net. apply nets_done.
Qed.
Lemma nets_with_lock {A} m (c : RM St A) s r : nets c s r → nets (with_lock m c) s r.
Proof. unfold nets. by rewrite run_with_lock. Qed.
Lemma nets_record_rtt server rtt_ms (s : St) : nets (record_server_rtt server rtt_ms) s (Ok ()).
Proof.
  apply nets_with_lock. destruct (nets_instant_now s) as [now Hnow].
  eapply nets_bind; [exact Hnow|]. intros net. apply nets_use_server_rtt.
Qed.

(** Servers that are asked over UDP and do not truncate. *)
Definition plain (s : St) (servers : list IpAddr) (q : bytes) (id : Z) : Prop :=
  ∀ server, server ∈ servers → r_truncation_cache s !! server = None ∧
    ∀ m, reply server q id = Ok (Some m) → h_tc (m_header m) = false.

Lemma nets_send server q (s : St) : nets (use_env (env_send server q)) s (Ok (net_send server q)).
Proof. rewrite <-(stateless_send server q (r_env s)). apply nets_use_env. Qed.
Lemma nets_recv server q (s : St) : nets (use_env (env_recv server q)) s (Ok (net_recv server q)).
Proof. rewrite <-(stateless_recv server q (r_env s)). apply nets_use_env. Qed.

Lemma truncated_before_no q server (s : St) :
  r_truncation_cache s !! server = None → nets (truncated_before q server) s (Ok None).
Proof.
  intros Htr. apply nets_with_lock. apply (nets_bind _ _ _ false); [|intros net; apply nets_done].
  exists (r_server_rtt s, r_env s). unfold use_truncation_cache. rewrite run_act, Htr.
  rewrite (bool_decide_eq_false_2 (is_Some None)) by (by intros []). by destruct s.
Qed.

Lemma server_task_reply q id server (s : St) :
  plain s [server] q id → nets (server_task q id server) s (reply server q id).
Proof.
  intros Hp. destruct (Hp server) as [Htr Htc]; [by left|]. unfold server_task, reply in *.
  eapply nets_bind; [by apply truncated_before_no|]. intros net1.
  destruct (nets_instant_now (with_net s net1)) as [start Hstart].
  eapply nets_bind; [exact Hstart|]. intros net2. eapply nets_bind; [apply nets_send|]. intros net3.
  destruct (net_send server q); cbn [negb]; [|apply nets_done].
  eapply nets_bind; [apply nets_recv|]. intros net4.
  destruct (recv_loop id (net_recv server q)) as [[m|]| | |]; try apply nets_done.
  eapply nets_bind; [apply nets_done|]. intros net5. unfold tcp_fallback. rewrite (Htc m) by done.
  eapply nets_bind; [apply nets_done|]. intros net6.
  match goal with |- nets _ ?s' _ => destruct (nets_instant_now s') as [now Hnow] end.
  eapply nets_bind; [exact Hnow|]. intros net7.
  eapply nets_bind; [apply nets_record_rtt|]. intros net8. apply nets_done.
Qed.

(** An answer, when some server has one, is what one of the servers has sent. *)
Definition first_reply (servers : list IpAddr) (q : bytes) (id : Z) (r : DnsResult (option Message)) : Prop :=
  (∃ server m, server ∈ servers ∧ reply server q id = Ok (Some m)) →
  ∃ server m, server ∈ servers ∧ reply server q id = Ok (Some m) ∧ r = Ok (Some m).

(** The tasks still at work when the answer is there. *)
Lemma detach_tasks_nets q id servers (s : St) :
  plain s servers q id → nets (detach_tasks q id servers) s (Ok ()).
Proof.
  revert s. induction servers as [|server servers IH]; intros s Hp; cbn [detach_tasks]; [apply nets_done|].
  destruct (server_task_reply q id server s) as [net E].
  { intros x Hx%list_elem_of_singleton. subst x. apply Hp. by left. }
  eapply nets_bind; [exists net; by rewrite run_fork, E|]. intros net'. apply IH.
  intros x Hx. apply (Hp x). by right.
Qed.

Lemma run_tasks_reply q id hung servers (s : St) :
  plain s servers q id →
  ∃ r, nets (run_tasks q id hung servers) s r ∧ first_reply servers q id r.
Proof.
  revert hung s. induction servers as [|server servers IH]; intros hung s Hp; cbn [run_tasks].
  { exists (if hung then Diverge else Ok None).
    split; [destruct hung; apply nets_done|]. by intros (server & m & Hin%elem_of_nil & _). }
  assert (Hrest : ∀ net, plain (with_net s net) servers q id) by (intros net x Hx; apply (Hp x); by right).
  destruct (server_task_reply q id server s) as [net E].
  { intros x Hx%list_elem_of_singleton. subst x. apply Hp. by left. }
  assert (Hatt : attempt (server_task q id server) s = (Ok (reply server q id), with_net s net))
    by (by rewrite run_attempt, E).
  assert (Hnext : ∀ hung, (∀ m, reply server q id ≠ Ok (Some m)) →
            ∃ r net', run_tasks q id hung servers (with_net s net) = (r, with_net s net') ∧
              first_reply (server :: servers) q id r).
  { intros hung' Hno. destruct (IH hung' (with_net s net) (Hrest net)) as (r & [net' E'] & Hr).
    exists r, net'. split; [exact E'|].
    intros (x & m & [->|Hx]%elem_of_cons & Hm); [by destruct (Hno m)|].
    destruct Hr as (y & m' & Hy & Hm' & ->); [by eauto|]. exists y, m'. split; [by right|done]. }
  unfold nets. rewrite (bind_step _ _ _ _ _ Hatt).
  destruct (reply server q id) as [[m|]|e| |] eqn:Er.
  { destruct (detach_tasks_nets q id servers (with_net s net) (Hrest net)) as [net' E'].
    exists (Ok (Some m)). split; [exists net'; by rewrite (bind_step _ _ _ _ _ E')|]. intros _.
    exists server, m. split; [by left|done]. }
  all: edestruct Hnext as (r & net' & E' & Hr); [by intros|]; exists r; split; [by exists net'|exact Hr].
Qed.

Lemma completion_order_run fuel servers (s : St) :
  (length servers <= fuel)%nat →
  ∃ order, nets (completion_order fuel servers) s (Ok order) ∧ order ≡ₚ servers.
Proof.
  revert servers s. induction fuel as [|fuel IH]; intros [|first servers] s Hf; cbn [completion_order].
  1, 3: exists []; split; [apply nets_done|done].
  { cbn in Hf. lia. }
  set (i := ((env_pick (r_env s)).1 mod length (first :: servers))%nat).
  assert (Hi : (i < length (first :: servers))%nat) by (by apply Nat.mod_upper_bound).
  destruct (nets_use_env env_pick s) as [net Hpick].
  destruct (IH (delete i (first :: servers)) (with_net s net)) as (rest & [net' E] & Hrest).
  { rewrite length_delete by (by apply lookup_lt_is_Some). cbn in *. lia. }
  exists (nth i (first :: servers) first :: rest). split.
  { exists net'. rewrite (bind_step _ _ _ _ _ Hpick). fold i. by rewrite (bind_step _ _ _ _ _ E). }
  rewrite Hrest. symmetry. apply delete_Permutation.
  by destruct (nth_lookup_or_length (first :: servers) i first) as [?|?]; [|lia].
Qed.

(** One server that answers is enough, whatever the others do and in whatever order. *)
Lemma query_servers_concurrent_reply q id servers (s : St) :
  plain s servers q id → (∃ server m, server ∈ servers ∧ reply server q id = Ok (Some m)) →
  ∃ server m, nets (query_servers_concurrent q id servers) s (Ok (Some m)) ∧
    server ∈ servers ∧ reply server q id = Ok (Some m).
Proof.
  intros Hp Hlive. unfold query_servers_concurrent.
  rewrite decide_False by (intros ->; destruct Hlive as (? & ? & []%elem_of_nil & _)).
  destruct (nets_with_lock RttLock _ s _ (nets_use_server_rtt (λ table, (sort_servers table servers, table)) s))
    as [net Esort]. cbn [fst] in Esort. set (sorted := sort_servers _ servers) in *.
  destruct (completion_order_run (length sorted) sorted (with_net s net)) as (order & [net' E] & Hperm); [done|].
  assert (Hsort : sorted ≡ₚ servers) by apply sort_servers_perm. rewrite Hsort in Hperm.
  destruct (run_tasks_reply q id false order (with_net s net')) as (r & [net'' E'] & Hr).
  { intros x Hx. apply (Hp x). by rewrite <-Hperm. }
  destruct Hr as (server & m & Hin & Hm & ->).
  { destruct Hlive as (server & m & Hin & Hm). exists server, m. by rewrite Hperm. }
  exists server, m. rewrite Hperm in Hin. split; [|done]. exists net''.
  rewrite (bind_step _ _ _ _ _ Esort). cbv beta. by rewrite (bind_step _ _ _ _ _ E).
Qed.
End exchange.
