(* ===== verification/Resolver.v ===== *)
(** * The recursive resolver (src/resolver/recursive.rs)

    The caches of delegations and of name server addresses, the walk from the
    root (query minimisation, referrals, aliases, negative answers), the
    DNSSEC checks on an answer and the walk up its chain of trust, and the
    entry point [resolve_with_ad] with its cache and stale answers.

    [resolve_recursive] calls itself for aliases and for the names of name
    servers, and, through [resolve], for the keys of a zone: the definition
    takes fuel for the nesting of the calls.  The resolutions of name server
    names, which the source polls concurrently, run one after the other, and a
    stale refresh that runs out of time has done its work. *)

From Stdlib Require Import SpecFloat.
From stdpp Require Import gmap strings.
From S2P Require Import Prelude Constants Str Types Names NameCodec Rdata Message Async Lru Cache RootHints Rtt.
From S2P Require Import Upstream Dnssec Server.
#[local] Open Scope Z_scope.

(** ** Signatures, parsed or raw *)

(** [rrsig_type_covered], and its copy in [validate_dnssec_chain]. *)
Definition rrsig_type_covered (r : ResourceRecord) : option Z :=
  match rr_parsed r with
  | Some (RData.RRSIG type_covered _ _ _ _ _ _ _ _) => Some type_covered
  | _ =>
    if decide (rr_rtype r = 46 ∧ (2 <= length (rr_rdata r))%nat)
    then Some (be16 (nth 0 (rr_rdata r) 0) (nth 1 (rr_rdata r) 0)) else None
  end.

(** The loop over the labels of the signer's name. *)
Fixpoint signer_loop (fuel : nat) (rdata : bytes) (pos : nat) (name : bytes) : bytes :=
  match fuel with
  | O => name
  | S fuel =>
    match rdata !! pos with
    | None => name
    | Some b =>
      let len := Z.to_nat b in
      if decide (len = 0)%nat then name ++ [0]
      else if decide (length rdata < pos + 1 + len)%nat then name
      else signer_loop fuel rdata (pos + (1 + len)) (name ++ [b] ++ take len (drop (pos + 1) rdata))
    end
  end.

Definition rrsig_signer_name (r : ResourceRecord) : option bytes :=
  match rr_parsed r with
  | Some (RData.RRSIG _ _ _ _ _ _ _ signer_name _) => Some signer_name
  | _ =>
    if decide (rr_rtype r = 46 ∧ (18 < length (rr_rdata r))%nat) then
      let name := signer_loop (length (rr_rdata r)) (rr_rdata r) 18 [] in
      if decide (name = []) then None else Some name
    else None
  end.

Definition of_type (t : Z) (records : list ResourceRecord) : list ResourceRecord :=
  filter (λ r, rr_rtype r = t) records.

(** ** DNSSEC validation of an answer *)

(** The [for] loops of [validate_dnssec]: the first result that is neither Secure nor
    Indeterminate.  [now i] is the clock at the [i]-th signature. *)
Fixpoint rrsig_loop `{Crypto} (now : nat → Z) (i : nat) (rrsigs records dnskeys : list ResourceRecord)
    : option ValidationResult.t :=
  match rrsigs with
  | [] => None
  | rrsig :: rrsigs =>
    match validate_rrset (now i) rrsig records dnskeys with
    | ValidationResult.Secure | ValidationResult.Indeterminate =>
      rrsig_loop now (S i) rrsigs records dnskeys
    | other => Some other
    end
  end.

Definition validate_dnssec `{Crypto} (dnssec_ok : bool) (now : nat → Z)
    (records rrsigs dnskeys : list ResourceRecord) : ValidationResult.t :=
  if negb dnssec_ok then ValidationResult.Indeterminate
  else if decide (rrsigs = [] ∨ dnskeys = []) then ValidationResult.Indeterminate
  else
    let answer_rrsigs := filter (λ r, rrsig_type_covered r ≠ Some 48) rrsigs in
    let dnskey_rrsigs := filter (λ r, rrsig_type_covered r = Some 48) rrsigs in
    match rrsig_loop now 0 answer_rrsigs records dnskeys with
    | Some other => other
    | None =>
      match rrsig_loop now (length answer_rrsigs) dnskey_rrsigs dnskeys dnskeys with
      | Some other => other
      | None => ValidationResult.Secure
      end
    end.

(** [rotate_left(1)] when there is more than one server. *)
Definition rotate (nameservers : list IpAddr) : list IpAddr :=
  match nameservers with
  | first :: (_ :: _) as rest => rest ++ [first]
  | _ => nameservers
  end.

Definition rr_ip (enable_ipv6 : bool) (r : ResourceRecord) : option IpAddr :=
  match rr_parsed r with
  | Some (RData.A ip) => Some (V4 ip)
  | Some (RData.AAAA ip) => if enable_ipv6 then Some (V6 ip) else None
  | _ => None
  end.

Section resolver.
Context {C D R : Type → Type} {N : Type} `{LruOps cache_key C} `{LruOps bytes D} `{LruOps IpAddr R} `{Env N} `{Crypto}.

Abbreviation St := (RecursiveResolver C D R N).

(** [persisted_rtt] is what [load_rtt_cache] gives, in the order the map yields it. *)
Definition resolver_new (enable_ipv6 dnssec_ok : bool) (cache_size : nat)
    (persisted_rtt : list (IpAddr * (f64 * Z))) (n : N) : St :=
  let zero := f64_of_Z 0 in
  mkResolver (with_max_entries cache_size) (lru_new NS_CACHE_MAX) (lru_new DELEGATION_CACHE_MAX)
    (mkRStats 0 0 0 0 0 zero zero zero) (initial_rtt persisted_rtt) ∅ ∅ ∅ [] n.

(** ** The caches

    Each function says which guards its caller holds. *)

(** Under the guard of the cache. *)
Definition cache_lookup (name : bytes) (rtype rclass : Z) : RM St (option (list ResourceRecord * Z)) :=
  clk ← use_env env_clock; use_cache (λ c, lookup_cache c clk name rtype rclass).

(** Under the guard of the cache. *)
Definition cache_insert_records (records : list ResourceRecord) : RM St unit :=
  clk ← use_env env_clock; use_cache (λ c, ((), insert_records c clk records)).

(** One record of a response, under the guards of both caches. *)
Definition cache_record (enable_ipv6 : bool) (rec : ResourceRecord) : RM St unit :=
  _ ← (if decide (rr_rtype rec ≠ 41 ∧ rr_rtype rec ≠ 46 ∧ rr_rtype rec ≠ 48)
       then cache_insert_records [rec] else mret ());
  if decide (rr_rtype rec = 1 ∨ rr_rtype rec = 28) then
    match rr_ip enable_ipv6 rec with
    | Some ip =>
      existing ← use_ns_cache (lru_get (rr_name rec));
      let existing := default [] existing in
      if decide (ip ∈ existing) then mret ()
      else use_ns_cache (λ nc, ((), lru_put (rr_name rec) (existing ++ [ip]) nc))
    | None => mret ()
    end
  else mret ().

Fixpoint cache_records (enable_ipv6 : bool) (records : list ResourceRecord) : RM St unit :=
  match records with
  | [] => mret ()
  | rec :: records => _ ← cache_record enable_ipv6 rec; cache_records enable_ipv6 records
  end.

Definition cache_response (enable_ipv6 : bool) (msg : Message) : RM St unit :=
  with_lock CacheLock (with_lock NsCacheLock (
    cache_records enable_ipv6 (m_answers msg ++ m_authorities msg ++ m_additionals msg))).

(** The loop over the suffixes of [name], the longest first. *)
Fixpoint delegation_loop (fuel : nat) (name : bytes) (offset : nat) : RM St (option (list IpAddr)) :=
  match fuel with
  | O => mret None
  | S fuel =>
    match name !! offset with
    | None => mret None
    | Some b =>
      let suffix := drop offset name in
      if decide (length suffix <= 1)%nat then mret None else
      entry ← use_delegation_cache (lru_get suffix);
      match entry with
      | Some (servers, expiry) =>
        now ← instant_now;
        if decide (now < expiry) then mret (Some servers)
        else delegation_loop fuel name (offset + (1 + Z.to_nat b))
      | None => delegation_loop fuel name (offset + (1 + Z.to_nat b))
      end
    end
  end.

(** Under the guard of the delegation cache. *)
Definition find_cached_delegation (name : bytes) : RM St (option (list IpAddr)) :=
  delegation_loop (length name) name 0.

Definition cached_delegation (name : bytes) : RM St (option (list IpAddr)) :=
  with_lock DelegationLock (find_cached_delegation name).

Definition cache_delegation (zone_name : bytes) (server_ips : list IpAddr) : RM St unit :=
  now ← instant_now;
  with_lock DelegationLock (
    use_delegation_cache (λ dc, ((), lru_put zone_name (server_ips, now + DELEGATION_CACHE_TTL) dc))).

Definition cached_addresses (ns_name : bytes) : RM St (option (list IpAddr)) :=
  with_lock NsCacheLock (use_ns_cache (lru_get ns_name)).

(** [resolve_dnssec]: the cache only. *)
Definition resolver_resolve_dnssec (name : str) (rtype rclass : Z) : RM St (list ResourceRecord) :=
  match encode_domain_name name with
  | Ok encoded =>
    found ← with_lock CacheLock (cache_lookup encoded rtype rclass);
    mret (match found with Some (records, _) => records | None => [] end)
  | _ => mret []
  end.

(** ** The chain of trust

    Its verdict only ends up in the log: the reasons leave out the zone's name. *)

(** The addresses in the additional section for one name server, any version. *)
Definition glue_ips (additionals : list ResourceRecord) (ns_name : bytes) : list IpAddr :=
  omap (λ r,
    if domain_names_equal (rr_name r) ns_name && bool_decide (rr_rtype r = 1 ∨ rr_rtype r = 28)
    then rr_ip true r else None) additionals.

Fixpoint zone_server_loop (additionals ns_records : list ResourceRecord) (ips : list IpAddr)
    : RM St (list IpAddr) :=
  match ns_records with
  | [] => mret ips
  | ns :: ns_records =>
    match rr_parsed ns with
    | Some (RData.NS ns_name) =>
      let ips := ips ++ glue_ips additionals ns_name in
      if decide (ips = []) then
        cached ← cached_addresses ns_name;
        zone_server_loop additionals ns_records (default [] cached)
      else zone_server_loop additionals ns_records ips
    | _ => zone_server_loop additionals ns_records ips
    end
  end.

Definition get_nameservers_for_zone (zone : bytes) : RM St (list IpAddr) :=
  cached ← cached_delegation zone;
  match cached with
  | Some servers => mret servers
  | None =>
    cached ← cached_addresses zone;
    match cached with
    | Some ips => mret ips
    | None =>
      if is_root_zone zone then mret initial_root_addrs else
      id ← use_env env_random;
      query_bytes ← try (lift (build_query_static zone 2 1 id false false));
      match query_bytes with
      | None => mret []
      | Some query_bytes =>
        msg ← query_servers_concurrent query_bytes id initial_root_addrs;
        match msg with
        | None => mret []
        | Some msg => zone_server_loop (m_additionals msg) (of_type 2 (m_authorities msg)) []
        end
      end
    end
  end.

Definition query_zone (name zone : bytes) (rtype : Z) : RM St (option Message) :=
  id ← use_env env_random;
  query_bytes ← try (lift (build_query_static name rtype 1 id true false));
  match query_bytes with
  | None => mret None
  | Some query_bytes =>
    nameservers ← get_nameservers_for_zone zone;
    if decide (nameservers = []) then mret None
    else query_servers_concurrent query_bytes id nameservers
  end.

Definition query_ds_records (child_name parent_zone : bytes)
    : RM St (option (list ResourceRecord * list ResourceRecord * list ResourceRecord)) :=
  msg ← query_zone child_name parent_zone 43;
  mret (match msg with
        | None => None
        | Some msg =>
          let ds_records := of_type 43 (m_answers msg) in
          if decide (ds_records = []) then None
          else Some (ds_records, of_type 46 (m_answers msg ++ m_authorities msg),
                     of_type 48 (m_authorities msg ++ m_additionals msg))
        end).

(** The signer of the first signature, when it is parsed. *)
Definition first_signer (rrsigs : list ResourceRecord) (zone : bytes) : bytes :=
  match rrsigs with
  | r :: _ =>
    match rr_parsed r with
    | Some (RData.RRSIG _ _ _ _ _ _ _ signer_name _) => signer_name
    | _ => zone
    end
  | [] => zone
  end.

Definition query_dnskey_records (zone : bytes)
    : RM St (option (list ResourceRecord * list ResourceRecord * bytes)) :=
  msg ← query_zone zone zone 48;
  mret (match msg with
        | None => None
        | Some msg =>
          let dnskeys := of_type 48 (m_answers msg) in
          if decide (dnskeys = []) then None
          else
            let dnskey_rrsigs := of_type 46 (m_answers msg ++ m_authorities msg) in
            Some (dnskeys, dnskey_rrsigs, first_signer dnskey_rrsigs zone)
        end).

(** The loop over the signatures of the DS records. *)
Fixpoint ds_rrsig_loop (now : nat → Z) (i : nat) (rrsigs ds_records dnskeys : list ResourceRecord)
    : bool :=
  match rrsigs with
  | [] => true
  | rrsig :: rrsigs =>
    match validate_rrset (now i) rrsig ds_records dnskeys with
    | ValidationResult.Secure | ValidationResult.Indeterminate =>
      ds_rrsig_loop now (S i) rrsigs ds_records dnskeys
    | _ => false
    end
  end.

Fixpoint validate_dnssec_chain (fuel : nat) (zone_name : bytes)
    (dnskeys rrsigs : list ResourceRecord) (signer_name : bytes) (depth : nat)
    : RM St ValidationResult.t :=
  if decide (10 < depth)%nat
  then mret (ValidationResult.Bogus "Chain-of-trust depth exceeded") else
  match fuel with
  | O => lift Diverge
  | S fuel =>
    let dnskey_rrsigs := filter (λ r, rrsig_type_covered r = Some 48) rrsigs in
    if decide (dnskey_rrsigs = [])
    then mret (ValidationResult.Bogus "No DNSKEY RRSIG found for chain validation") else
    if is_root_zone zone_name || is_root_zone signer_name then
      mret (if validate_dnskeys_against_root_anchor dnskeys then ValidationResult.Secure
            else ValidationResult.Bogus "Root DNSKEY does not match trust anchor")
    else
      let parent := default [0] (parent_zone zone_name) in
      ds_result ← query_ds_records zone_name parent;
      match ds_result with
      | None => mret ValidationResult.Insecure
      | Some (ds_records, ds_rrsigs, parent_dnskeys) =>
        if negb (validate_dnskeys_against_ds dnskeys ds_records)
        then mret (ValidationResult.Bogus "No DNSKEY matches parent DS records") else
        wall ← use_env env_wall;
        if negb (ds_rrsig_loop wall 0 ds_rrsigs ds_records parent_dnskeys)
        then mret (ValidationResult.Bogus "DS RRSIG validation failed") else
        parent_result ← query_dnskey_records parent;
        match parent_result with
        | None =>
          mret (if is_root_zone parent && validate_dnskeys_against_root_anchor parent_dnskeys
                then ValidationResult.Secure else ValidationResult.Indeterminate)
        | Some (keys, parent_dnskey_rrsigs, _) =>
          let parent_signer := first_signer parent_dnskey_rrsigs parent in
          validate_dnssec_chain fuel parent keys parent_dnskey_rrsigs parent_signer (depth + 1)
        end
      end
  end.

(** ** Resolution

    [rec] is [resolve_recursive] itself, on a resolver with or without DNSSEC: the
    definitions up to [resolve_recursive] are its body. *)

Section body.
Context (enable_ipv6 : bool).
Context (rec : bool → bytes → Z → Z → nat → bool → RM St (list ResourceRecord * bool)).

Definition stats_hit (s : ResolverStats) : ResolverStats :=
  mkRStats (u64 (st_total_queries s + 1)) (u64 (st_cache_hits s + 1)) (st_cache_misses s)
    (st_failed_queries s) (st_served_stale s)
    (st_avg_resolve_time_ms s) (st_min_resolve_time_ms s) (st_max_resolve_time_ms s).
Definition stats_miss (s : ResolverStats) : ResolverStats :=
  mkRStats (st_total_queries s) (st_cache_hits s) (u64 (st_cache_misses s + 1))
    (st_failed_queries s) (st_served_stale s)
    (st_avg_resolve_time_ms s) (st_min_resolve_time_ms s) (st_max_resolve_time_ms s).
Definition stats_stale (s : ResolverStats) : ResolverStats :=
  mkRStats (st_total_queries s) (st_cache_hits s) (st_cache_misses s)
    (st_failed_queries s) (u64 (st_served_stale s + 1))
    (st_avg_resolve_time_ms s) (st_min_resolve_time_ms s) (st_max_resolve_time_ms s).
Definition stats_failed (s : ResolverStats) : ResolverStats :=
  mkRStats (st_total_queries s) (st_cache_hits s) (st_cache_misses s)
    (u64 (st_failed_queries s + 1)) (st_served_stale s)
    (st_avg_resolve_time_ms s) (st_min_resolve_time_ms s) (st_max_resolve_time_ms s).

(** The literals 0.95 and 0.05. *)
Definition F_0_95 : f64 := f64_of_bits 4606732058837280358.
Definition F_0_05 : f64 := f64_of_bits 4587366580439587226.

(** A resolution that took [ms]. *)
Definition stats_total (ms : f64) (s : ResolverStats) : ResolverStats :=
  let total := u64 (st_total_queries s + 1) in
  let avg := if decide (total <= 1) then ms
             else f64_add (f64_mul (st_avg_resolve_time_ms s) F_0_95) (f64_mul ms F_0_05) in
  let least := if SFeqb (st_min_resolve_time_ms s) (f64_of_Z 0) || SFltb ms (st_min_resolve_time_ms s)
               then ms else st_min_resolve_time_ms s in
  let most := if SFltb (st_max_resolve_time_ms s) ms then ms else st_max_resolve_time_ms s in
  mkRStats total (st_cache_hits s) (st_cache_misses s) (st_failed_queries s) (st_served_stale s)
    avg least most.

Definition resolve_recursive_stale (dnssec_ok : bool) (name : bytes) (rtype rclass : Z)
    : RM St (list ResourceRecord * bool) :=
  timeout timed_out (DnsError.Transport "stale refresh timed out") [] (rec dnssec_ok name rtype rclass 0 true).

(** The recursive resolution of [resolve_with_ad], with what it records afterwards. *)
Definition resolve_fresh (dnssec_ok : bool) (start : Z) (encoded_name : bytes) (rtype rclass : Z)
    : RM St (list ResourceRecord * bool) :=
  result ← catch (rec dnssec_ok encoded_name rtype rclass 0 true);
  now ← instant_now;
  _ ← with_lock StatsLock (use_stats (stats_total (ms_of (duration_since now start))));
  match result with
  | inl answer => _ ← with_lock CacheLock (cache_insert_records answer.1); mret answer
  | inr e => _ ← with_lock StatsLock (use_stats stats_failed); throw e
  end.

(** The answer from the cache; the guard is held until the hit is counted. *)
Definition resolve_cached (name : str) (encoded_name : bytes) (rtype rclass : Z)
    : RM St (option (list ResourceRecord)) :=
  with_lock CacheLock (
    found ← cache_lookup encoded_name rtype rclass;
    match found with
    | Some (records, ttl) =>
      _ ← with_lock StatsLock (
        _ ← use_stats stats_hit;
        if decide (ttl < 120) then spawn (name, rtype, rclass) else mret ());
      mret (Some records)
    | None => mret None
    end).

Definition resolver_resolve_with_ad (dnssec_ok : bool) (name : str) (rtype rclass : Z)
    : RM St (list ResourceRecord * bool) :=
  start ← instant_now;
  encoded_name ← lift (encode_domain_name name);
  found ← resolve_cached name encoded_name rtype rclass;
  match found with
  | Some records => mret (records, false)
  | None =>
    _ ← with_lock StatsLock (use_stats stats_miss);
    stale_records ← with_lock CacheLock (
      clk ← use_env env_clock;
      use_cache (λ c, lookup_stale c clk encoded_name rtype rclass));
    match stale_records with
    | Some stale =>
      refresh ← try (resolve_recursive_stale dnssec_ok encoded_name rtype rclass);
      match refresh with
      | Some (fresh_records, _) =>
        _ ← with_lock CacheLock (cache_insert_records fresh_records);
        mret (fresh_records, false)
      | None => _ ← with_lock StatsLock (use_stats stats_stale); mret (stale, false)
      end
    | None => resolve_fresh dnssec_ok start encoded_name rtype rclass
    end
  end.

Definition resolve (dnssec_ok : bool) (name : str) (rtype rclass : Z) : RM St (list ResourceRecord) :=
  r ← resolver_resolve_with_ad dnssec_ok name rtype rclass;
  mret r.1.

(** *** The signatures and keys for an answer *)

(** The RD=1 fallback. *)
Definition rd1_fallback (name : bytes) (rtype rclass : Z) (nameservers : list IpAddr)
    (rrsigs dnskeys : list ResourceRecord) : RM St (list ResourceRecord * list ResourceRecord) :=
  if decide ((rrsigs = [] ∨ dnskeys = []) ∧ nameservers ≠ []) then
    rd1_msg ← query_rd1 name rtype rclass nameservers;
    mret (match rd1_msg with
          | None => (rrsigs, dnskeys)
          | Some m =>
            let records := m_answers m ++ m_authorities m in
            (if decide (rrsigs = []) then of_type 46 records else rrsigs,
             if decide (dnskeys = []) then of_type 48 records else dnskeys)
          end)
  else mret (rrsigs, dnskeys).

(** The merge of the cached signatures that cover the keys. *)
Fixpoint merge_rrsigs (cached rrsigs : list ResourceRecord) : list ResourceRecord :=
  match cached with
  | [] => rrsigs
  | rr :: cached =>
    if bool_decide (rrsig_type_covered rr = Some 48) &&
       negb (existsb (λ r, bool_decide (rr_rtype r = 46) && bool_decide (rr_name r = rr_name rr) &&
                           bool_decide (rr_rdata r = rr_rdata rr)) rrsigs)
    then merge_rrsigs cached (rrsigs ++ [rr])
    else merge_rrsigs cached rrsigs
  end.

(** The signer of the first parsed signature. *)
Fixpoint find_signer (rrsigs : list ResourceRecord) : option bytes :=
  match rrsigs with
  | [] => None
  | r :: rrsigs =>
    match rr_parsed r with
    | Some (RData.RRSIG _ _ _ _ _ _ _ signer_name _) => Some signer_name
    | _ => find_signer rrsigs
    end
  end.

Definition resolve_dnskeys (name : bytes) (rclass : Z) (rrsigs dnskeys : list ResourceRecord)
    : RM St (list ResourceRecord * list ResourceRecord) :=
  if decide (rrsigs ≠ [] ∧ dnskeys = []) then
    let zone_str := labels_to_string (default name (find_signer rrsigs)) in
    resolved ← try (resolve true zone_str 48 rclass);
    match resolved with
    | Some ((_ :: _) as records) =>
      cached ← resolver_resolve_dnssec zone_str 46 rclass;
      mret (merge_rrsigs cached rrsigs, records)
    | _ => mret (rrsigs, dnskeys)
    end
  else mret (rrsigs, dnskeys).

(** The walk over the parents of an unsigned answer: an error when one has DS records. *)
Fixpoint ds_guard (name : bytes) (rclass : Z) (check_labels : nat) : RM St unit :=
  match check_labels with
  | O => mret ()
  | S fewer =>
    if decide (2 <= check_labels)%nat then
      zone_bytes ← lift (name_prefix name check_labels);
      ds_records ← resolver_resolve_dnssec (labels_to_string zone_bytes) 43 rclass;
      if decide (ds_records ≠ [])
      then throw (DnsError.Malformed "DNSSEC: signed zone returned unsigned answer")
      else ds_guard name rclass fewer
    else mret ()
  end.

(** What the validation of an answer decides: the AD bit, or an error. *)
Definition dnssec_verdict (name : bytes) (total_labels : nat) (rclass : Z)
    (direct rrsigs dnskeys : list ResourceRecord) : RM St bool :=
  wall ← use_env env_wall;
  match validate_dnssec true wall direct rrsigs dnskeys with
  | ValidationResult.Secure => mret true
  | ValidationResult.Bogus _ =>
    throw (DnsError.Malformed "DNSSEC validation failed: signature invalid or expired")
  | ValidationResult.Insecure => mret false
  | ValidationResult.Indeterminate =>
    if decide (dnskeys ≠ [] ∧ rrsigs = [])
    then throw (DnsError.Malformed "DNSSEC: DNSKEYs without RRSIGs for signed zone")
    else if decide (rrsigs = [] ∧ (2 <= total_labels)%nat)
    then _ ← ds_guard name rclass (total_labels - 1); mret false
    else mret false
  end.

(** The chain of trust, whatever its verdict. *)
Definition check_chain (rrsigs dnskeys : list ResourceRecord) : RM St unit :=
  match dnskeys, filter (λ r, rrsig_type_covered r = Some 48) rrsigs with
  | dk :: _, r :: _ =>
    let zone := rr_name dk in
    let signer := default zone (rrsig_signer_name r) in
    _ ← validate_dnssec_chain 11 zone dnskeys rrsigs signer 0;
    mret ()
  | _, _ => mret ()
  end.

Definition check_answer (dnssec_ok : bool) (name : bytes) (total_labels : nat) (rtype rclass : Z)
    (nameservers : list IpAddr) (msg : Message) (direct : list ResourceRecord) : RM St bool :=
  if dnssec_ok && bool_decide (rtype ≠ 46 ∧ rtype ≠ 48 ∧ rtype ≠ 43) then
    let records := m_answers msg ++ m_authorities msg in
    material ← rd1_fallback name rtype rclass nameservers (of_type 46 records) (of_type 48 records);
    material ← resolve_dnskeys name rclass material.1 material.2;
    ad_bit ← dnssec_verdict name total_labels rclass direct material.1 material.2;
    _ ← check_chain material.1 material.2;
    mret ad_bit
  else mret false.

(** *** Negative answers *)

Definition validate_negative_dnssec_response (dnssec_ok : bool) (msg : Message) (name : bytes)
    (rclass qtype : Z) : RM St (bool * list ResourceRecord) :=
  let soa_records := of_type 6 (m_authorities msg) in
  let rrsigs := of_type 46 (m_authorities msg) in
  let nsec_records := of_type 47 (m_authorities msg) in
  let nsec3_records := of_type 50 (m_authorities msg) in
  if decide (dnssec_ok = false ∨ rrsigs = []) then mret (false, soa_records) else
  let zone_name := match soa_records with r :: _ => rr_name r | [] => name end in
  let zone_str := labels_to_string zone_name in
  resolved ← try (resolve dnssec_ok zone_str 48 rclass);
  let dnskeys := default [] resolved in
  if decide (dnskeys = []) then mret (false, soa_records) else
  match validate_negative_dnssec soa_records nsec_records nsec3_records rrsigs dnskeys name qtype with
  | ValidationResult.Secure => mret (true, soa_records)
  | _ => mret (false, soa_records)
  end.

(** *** Referrals *)

(** The loop over the NS records: the addresses known, and the names to resolve. *)
Fixpoint referral_loop (additionals ns_records : list ResourceRecord) (new_servers : list IpAddr)
    (ns_to_resolve : list bytes) : RM St (list IpAddr * list bytes) :=
  match ns_records with
  | [] => mret (new_servers, ns_to_resolve)
  | ns :: ns_records =>
    let ns_name_bytes := match rr_parsed ns with Some (RData.NS name) => name | _ => rr_rdata ns end in
    let glue := filter (λ r, domain_names_equal (rr_name r) ns_name_bytes = true ∧
                             (rr_rtype r = 1 ∨ enable_ipv6 = true ∧ rr_rtype r = 28)) additionals in
    if decide (glue ≠ []) then
      referral_loop additionals ns_records (new_servers ++ omap (rr_ip enable_ipv6) glue) ns_to_resolve
    else
      cached ← cached_addresses ns_name_bytes;
      match cached with
      | Some cached => referral_loop additionals ns_records (new_servers ++ cached) ns_to_resolve
      | None => referral_loop additionals ns_records new_servers (ns_to_resolve ++ [ns_name_bytes])
      end
  end.

(** The addresses of one name server's name. *)
Definition resolve_ns_name (rclass : Z) (depth : nat) (ns_name : bytes) : RM St (list IpAddr) :=
  resolved ← try (rec false ns_name 1 rclass (depth + 1) false);
  mret (match resolved with
        | Some (records, _) =>
          omap (λ r, match rr_parsed r with Some (RData.A ip) => Some (V4 ip) | _ => None end) records
        | None => []
        end).

Fixpoint resolve_ns_names_concurrently (ns_names : list bytes) (rclass : Z) (depth : nat)
    : RM St (list (bytes * list IpAddr)) :=
  match ns_names with
  | [] => mret []
  | ns_name :: ns_names =>
    if domain_names_equal ns_name [0] then resolve_ns_names_concurrently ns_names rclass depth
    else
      ips ← resolve_ns_name rclass depth ns_name;
      rest ← resolve_ns_names_concurrently ns_names rclass depth;
      mret ((ns_name, ips) :: rest)
  end.

(** The results: each non-empty one is cached and adds its addresses. *)
Fixpoint add_resolved (results : list (bytes * list IpAddr)) (new_servers : list IpAddr)
    : RM St (list IpAddr) :=
  match results with
  | [] => mret new_servers
  | (ns_name, ips) :: results =>
    if decide (ips = []) then add_resolved results new_servers
    else
      _ ← with_lock NsCacheLock (use_ns_cache (λ nc, ((), lru_put ns_name ips nc)));
      add_resolved results (new_servers ++ ips)
  end.

(** The new servers of a referral; none when there is no usable one. *)
Definition follow_referral (rclass : Z) (depth : nat) (msg : Message) : RM St (list IpAddr) :=
  let ns_records := of_type 2 (m_authorities msg) in
  known ← referral_loop (m_additionals msg) ns_records [] [];
  results ← resolve_ns_names_concurrently known.2 rclass depth;
  new_servers ← add_resolved results known.1;
  _ ← (match ns_records with
       | zone :: _ =>
         if decide (new_servers = []) then mret () else cache_delegation (rr_name zone) new_servers
       | [] => mret ()
       end);
  mret new_servers.

(** *** One iteration *)

(** How an iteration ends: with the answer, or with the servers and the number of labels for
    the next one. *)
Inductive iteration_result :=
  | Answered (answer : list ResourceRecord * bool)
  | Next (nameservers : list IpAddr) (revealed_labels : nat).

(** The chase of an alias: [cname] is the first CNAME record of the name. *)
Definition chase (name : bytes) (rtype rclass : Z) (depth : nat) (dnssec_ok : bool)
    (nameservers : list IpAddr) (cname : ResourceRecord) (target : bytes) : RM St iteration_result :=
  sub ← rec dnssec_ok target rtype rclass (depth + 1) true;
  _ ← cache_delegation name nameservers;
  mret (Answered (cname :: sub.1, sub.2)).

(** The end of an iteration that found no way on. *)
Definition no_progress (nameservers : list IpAddr) (revealed_labels total_labels : nat)
    (msg : Message) : iteration_result :=
  let revealed_labels :=
    if decide ((revealed_labels < total_labels)%nat ∧ of_type 2 (m_authorities msg) = [])
    then total_labels else revealed_labels in
  Next (rotate nameservers) revealed_labels.

(** From the referral on. *)
Definition refer_or_deny (dnssec_ok : bool) (name : bytes) (rtype rclass : Z) (depth : nat)
    (nameservers : list IpAddr) (revealed_labels total_labels : nat) (msg : Message)
    : RM St iteration_result :=
  new_servers ← (if decide (of_type 2 (m_authorities msg) = []) then mret []
                 else follow_referral rclass depth msg);
  if decide (new_servers ≠ []) then
    mret (Next new_servers
            (if decide (revealed_labels < total_labels)%nat then revealed_labels + 1
             else revealed_labels)%nat)
  else
    let soa := of_type 6 (m_authorities msg) in
    if decide (soa ≠ []) then
      if decide (h_rcode (m_header msg) = 3) then
        if existsb (λ r, domain_names_equal (rr_name r) name) soa
        then throw (DnsError.NxDomain soa false)
        else mret (no_progress nameservers revealed_labels total_labels msg)
      else if decide (h_rcode (m_header msg) = 0) then
        negative ← validate_negative_dnssec_response dnssec_ok msg name rclass rtype;
        mret (Answered ([], negative.1))
      else mret (no_progress nameservers revealed_labels total_labels msg)
    else mret (no_progress nameservers revealed_labels total_labels msg).

(** What is done with a response with code 0. *)
Definition process_answer (dnssec_ok : bool) (name : bytes) (rtype rclass : Z) (depth : nat)
    (nameservers : list IpAddr) (revealed_labels total_labels : nat) (msg : Message)
    : RM St iteration_result :=
  let direct := filter (λ r, domain_names_equal (rr_name r) name = true ∧ rr_rtype r = rtype)
                  (m_answers msg) in
  if decide (direct ≠ []) then
    ad_bit ← check_answer dnssec_ok name total_labels rtype rclass nameservers msg direct;
    _ ← cache_delegation name nameservers;
    mret (Answered (direct, ad_bit))
  else
    let cnames := filter (λ r, domain_names_equal (rr_name r) name = true ∧ rr_rtype r = 5)
                    (m_answers msg) in
    match cnames with
    | cname :: _ =>
      match rr_parsed cname with
      | Some (RData.CNAME target) =>
        chase name rtype rclass depth dnssec_ok nameservers cname target
      | _ =>
        if decide (rr_rdata cname ≠ [])
        then chase name rtype rclass depth dnssec_ok nameservers cname (rr_rdata cname)
        else refer_or_deny dnssec_ok name rtype rclass depth nameservers revealed_labels
               total_labels msg
      end
    | [] => refer_or_deny dnssec_ok name rtype rclass depth nameservers revealed_labels
              total_labels msg
    end.

Definition iteration (dnssec_ok : bool) (name : bytes) (rtype rclass : Z) (depth total_labels : nat)
    (nameservers : list IpAddr) (revealed_labels : nat) : RM St iteration_result :=
  if decide (nameservers = []) then throw (DnsError.Malformed "no nameservers to query") else
  minimized_name ← lift (if decide (revealed_labels < total_labels)%nat
                         then name_prefix name revealed_labels else Ok name);
  id ← use_env env_random;
  query_bytes ← lift (build_query_static minimized_name rtype rclass id dnssec_ok false);
  response ← query_servers_concurrent query_bytes id nameservers;
  match response with
  | None => mret (Next (rotate nameservers) revealed_labels)
  | Some msg =>
    _ ← cache_response enable_ipv6 msg;
    if decide (h_rcode (m_header msg) = 3) then
      negative ← validate_negative_dnssec_response dnssec_ok msg name rclass 0;
      throw (DnsError.NxDomain negative.2 negative.1)
    else if decide (h_rcode (m_header msg) ≠ 0) then
      mret (Next (if decide (total_labels <= revealed_labels)%nat then rotate nameservers
                  else nameservers) revealed_labels)
    else process_answer dnssec_ok name rtype rclass depth nameservers revealed_labels
           total_labels msg
  end.

Fixpoint iterate (n : nat) (dnssec_ok : bool) (name : bytes) (rtype rclass : Z)
    (depth total_labels : nat) (nameservers : list IpAddr) (revealed_labels : nat)
    : RM St (list ResourceRecord * bool) :=
  match n with
  | O => throw (DnsError.Malformed "maximum iterations exceeded")
  | S n =>
    result ← iteration dnssec_ok name rtype rclass depth total_labels nameservers revealed_labels;
    match result with
    | Answered answer => mret answer
    | Next nameservers revealed_labels =>
      iterate n dnssec_ok name rtype rclass depth total_labels nameservers revealed_labels
    end
  end.

Definition resolve_body (dnssec_ok : bool) (name : bytes) (rtype rclass : Z) (depth : nat)
    (qname_minimize : bool) : RM St (list ResourceRecord * bool) :=
  if decide (MAX_CNAME_DEPTH < depth)%nat
  then throw (DnsError.Malformed "CNAME chain too deep") else
  let total_labels := count_labels name in
  cached ← cached_delegation name;
  match cached with
  | Some servers =>
    iterate MAX_ITERATIONS dnssec_ok name rtype rclass depth total_labels servers total_labels
  | None =>
    iterate MAX_ITERATIONS dnssec_ok name rtype rclass depth total_labels initial_root_addrs
      (if qname_minimize then 1%nat else total_labels)
  end.
End body.

(** [fuel] bounds the nesting of the calls. *)
Fixpoint resolve_recursive (enable_ipv6 : bool) (fuel : nat) (dnssec_ok : bool) (name : bytes)
    (rtype rclass : Z) (depth : nat) (qname_minimize : bool)
    : RM St (list ResourceRecord * bool) :=
  match fuel with
  | O => lift Diverge
  | S fuel => resolve_body enable_ipv6 (resolve_recursive enable_ipv6 fuel) dnssec_ok name rtype
                rclass depth qname_minimize
  end.

Definition resolve_with_ad (enable_ipv6 dnssec_ok : bool) (fuel : nat) (name : str)
    (rtype rclass : Z) : RM St (list ResourceRecord * bool) :=
  resolver_resolve_with_ad (resolve_recursive enable_ipv6 fuel) dnssec_ok name rtype rclass.

(** ** Background tasks

    One round of each periodic task of [spawn_background_tasks], and the refresh that
    [resolve_with_ad] spawns. *)

Definition purge_task : RM St unit :=
  with_lock CacheLock (clk ← use_env env_clock; use_cache (λ c, ((), purge_expired c clk))).
Definition pool_task : RM St unit :=
  with_lock PoolLock (now ← instant_now; use_pool (λ pool, ((), pool_cleanup now pool))).
Definition truncation_task : RM St unit :=
  now ← instant_now;
  with_lock TruncationLock (use_truncation_cache (λ tc, ((), truncation_cleanup now tc))).

(** What the task writes to the file, when it writes. *)
Definition rtt_save_task : RM St (option bytes) :=
  entries ← with_lock RttLock (use_server_rtt (λ table, (map (λ p, (p.1, p.2.1)) (lru_iter table), table)));
  if decide (entries = []) then mret None else
  wall ← use_env env_wall; mret (Some (save_rtt_cache (wall 0%nat) entries)).

(** The table of times and the map of server health together. *)
Definition use_health {A} (f : R (f64 * Z)%type * gmap IpAddr ServerHealth →
    A * (R (f64 * Z)%type * gmap IpAddr ServerHealth)) : RM St A :=
  act (λ s, let '(a, (table, health)) := f (r_server_rtt s, r_server_health s) in
            (a, set_server_health health (set_server_rtt table s))).

(** The check of one server.  The mutex of the times is held when they are changed. *)
Definition ping_server (root_query : bytes) (server : IpAddr) : RM St unit :=
  result ← use_env (env_ping server root_query);
  clk ← use_env env_clock;
  let check := use_health (λ state, ((), check_server (λ _, clk) (λ _, result) state server)) in
  match result with
  | Unbound => mret ()
  | Replied _ => with_lock RttLock check
  | Lost =>
    failures ← use_server_health (λ health,
      (u32 (consecutive_failures (default ServerHealth_default (health !! server)) + 1), health));
    if decide (HEALTH_PENALTY_THRESHOLD <= failures) then with_lock RttLock check else check
  end.

Fixpoint ping_loop (root_query : bytes) (servers : list IpAddr) : RM St unit :=
  match servers with
  | [] => mret ()
  | server :: servers => _ ← ping_server root_query server; ping_loop root_query servers
  end.

Definition health_task : RM St unit :=
  now ← instant_now;
  _ ← use_server_health (λ health, ((), prune_health now health));
  servers ← with_lock RttLock (use_server_rtt (λ table, (servers_to_check table, table)));
  if decide (servers = []) then mret () else
  id ← use_env env_random;
  root_query ← try (lift (build_query_static [0] 1 1 id false false));
  ping_loop (default [] root_query) servers.

(** A background refresh that [resolve_with_ad] has spawned. *)
Definition background_refresh (enable_ipv6 dnssec_ok : bool) (fuel : nat) (job : str * Z * Z)
    : RM St (option (list ResourceRecord * bool)) :=
  let '(name, rtype, rclass) := job in
  encoded ← try (lift (encode_domain_name name));
  try (resolve_recursive enable_ipv6 fuel dnssec_ok (default [] encoded) rtype rclass 0 true).

(** A spawned refresh leaves the list. *)
Definition unspawn (i : nat) : RM St unit := act (λ s, ((), set_spawned (delete i (r_spawned s)) s)).

(** The endpoints of the program: [cache_stats] and [flush_cache]. *)
Definition cache_stats : RM St (Z * Z) :=
  with_lock CacheLock (use_cache (λ c, ((hits c, misses c), c))).
Definition flush_cache : RM St unit := with_lock CacheLock (use_cache (λ c, ((), clear c))).

(** The resolver behind the servers of [Server]. *)
#[export] Instance recursive_resolver (enable_ipv6 dnssec_ok : bool) (fuel : nat) : Resolver St := {
  Server.resolve_with_ad s name rtype rclass :=
    resolve_with_ad enable_ipv6 dnssec_ok fuel name rtype rclass s;
  Server.resolve_dnssec s name rtype rclass :=
    let '(r, s) := resolver_resolve_dnssec name rtype rclass s in
    (match r with Ok records => records | _ => [] end, s);
}.
End resolver.
