(* ===== verification/Resolution.v ===== *)
(** * What the recursive resolver promises (src/resolver/recursive.rs)

    What an answer consists of, whatever the name servers do, and when
    resolution ends. *)

From stdpp Require Import gmap strings.
From S2P Require Import Prelude Constants Str Types Names NameCodec Rdata Message Async Lru Cache RootHints Rtt.
From S2P Require Import Upstream Dnssec Server Resolver.
#[local] Open Scope Z_scope.

(** ** Answers *)

(** [records] answer a question for [rtype] at [name]: [n] aliases, each the CNAME record of
    the name before it, and then records of the last name and of the type, or none. *)
Inductive answers (rtype : Z) : nat → bytes → list ResourceRecord → Prop :=
  | answers_direct name records :
    Forall (λ r, domain_names_equal (rr_name r) name = true ∧ rr_rtype r = rtype) records →
    answers rtype 0 name records
  | answers_alias n name cname target records :
    domain_names_equal (rr_name cname) name = true → rr_rtype cname = 5 →
    rr_parsed cname = Some (RData.CNAME target) ∨
      (∀ t, rr_parsed cname ≠ Some (RData.CNAME t)) ∧ rr_rdata cname = target →
    answers rtype n target records →
    answers rtype (S n) name (cname :: records).

Section answers.
Context {C D R : Type → Type} {N : Type} `{LruOps cache_key C} `{LruOps bytes D} `{LruOps IpAddr R} `{Env N} `{Crypto}.
Context (enable_ipv6 : bool).
Abbreviation St := (RecursiveResolver C D R N).
Context (rec : bool → bytes → Z → Z → nat → bool → RM St (list ResourceRecord * bool)).

(** What is asked of a call from depth [depth]: at most [10 - depth] aliases, and no AD bit
    without DNSSEC. *)
Definition answer_ok (dnssec_ok : bool) (rtype : Z) (name : bytes) (depth : nat)
    (a : list ResourceRecord * bool) : Prop :=
  (∃ n, answers rtype n name a.1 ∧ (n + depth <= 10)%nat) ∧ (dnssec_ok = false → a.2 = false).

Hypothesis rec_ok : ∀ dnssec_ok name rtype rclass depth minimize,
  ensures (rec dnssec_ok name rtype rclass depth minimize) (λ a,
    (depth <= 10)%nat ∧ answer_ok dnssec_ok rtype name depth a).

Definition result_ok (dnssec_ok : bool) (rtype : Z) (name : bytes) (depth : nat)
    (r : iteration_result) : Prop :=
  match r with
  | Answered a => answer_ok dnssec_ok rtype name depth a
  | Next _ _ => True
  end.

Lemma chase_ok dnssec_ok name rtype rclass depth nameservers cname target :
  domain_names_equal (rr_name cname) name = true → rr_rtype cname = 5 →
  rr_parsed cname = Some (RData.CNAME target) ∨
    (∀ t, rr_parsed cname ≠ Some (RData.CNAME t)) ∧ rr_rdata cname = target →
  ensures (chase rec name rtype rclass depth dnssec_ok nameservers cname target)
    (result_ok dnssec_ok rtype name depth).
Proof.
  intros Hn Ht Htarget. unfold chase. eapply gives_bind; [apply rec_ok|].
  intros [records ad] (Hd & (n & Hans & Hle) & Had). apply ensures_bind_any. intros _.
  apply gives_ret. split; [|exact Had]. exists (S n). cbn [fst].
  split; [by eapply answers_alias|lia].
Qed.

Lemma negative_no_ad dnssec_ok msg name rclass qtype :
  dnssec_ok = false →
  ensures (validate_negative_dnssec_response rec dnssec_ok msg name rclass qtype)
    (λ a, a.1 = false).
Proof.
  intros ->. unfold validate_negative_dnssec_response. rewrite decide_True by (by left).
  by apply gives_ret.
Qed.

Lemma refer_or_deny_ok dnssec_ok name rtype rclass depth nameservers revealed total msg :
  (depth <= 10)%nat →
  ensures (refer_or_deny enable_ipv6 rec dnssec_ok name rtype rclass depth nameservers revealed
             total msg) (result_ok dnssec_ok rtype name depth).
Proof.
  intros Hd. unfold refer_or_deny. apply ensures_bind_any. intros servers.
  repeat case_decide; try (apply gives_ret; done).
  { case_match; [apply gives_throw|by apply gives_ret]. }
  apply (gives_bind _ _ (λ a, dnssec_ok = false → a.1 = false)).
  - apply ensures_impl; [apply _|]. by apply negative_no_ad.
  - intros a Ha. apply gives_ret. split; [|exact Ha]. exists 0%nat.
    split; [by apply answers_direct|cbn; lia].
Qed.

Lemma check_answer_no_ad name total rtype rclass nameservers msg direct :
  ensures (check_answer rec false name total rtype rclass nameservers msg direct)
    (λ ad, ad = false).
Proof. unfold check_answer. by apply gives_ret. Qed.

Lemma process_answer_ok dnssec_ok name rtype rclass depth nameservers revealed total msg :
  (depth <= 10)%nat →
  ensures (process_answer enable_ipv6 rec dnssec_ok name rtype rclass depth nameservers revealed
             total msg) (result_ok dnssec_ok rtype name depth).
Proof.
  intros Hd. unfold process_answer. case_decide as Hdirect.
  - apply (gives_bind _ _ (λ ad, dnssec_ok = false → ad = false)).
    { apply ensures_impl; [apply _|]. intros ->. apply check_answer_no_ad. }
    intros ad Had. apply ensures_bind_any. intros _. apply gives_ret. split; [|exact Had].
    exists 0%nat. split; [|lia]. apply answers_direct. apply Forall_forall.
    by intros r [? _]%list_elem_of_filter.
  - destruct (filter (λ r, domain_names_equal (rr_name r) name = true ∧ rr_rtype r = 5)
                (m_answers msg)) as [|cname cnames] eqn:Hc; [by apply refer_or_deny_ok|].
    assert (Hin : cname ∈ filter (λ r, domain_names_equal (rr_name r) name = true ∧ rr_rtype r = 5)
                            (m_answers msg)) by (rewrite Hc; by left).
    apply list_elem_of_filter in Hin as [[Hn Ht] _].
    destruct (rr_parsed cname) as [[]|] eqn:Hp;
      first [ by apply chase_ok; [..|left]
            | case_decide; [|by apply refer_or_deny_ok]; apply chase_ok; [done..|];
              right; split; [by rewrite Hp|done] ].
Qed.

Lemma iteration_ok dnssec_ok name rtype rclass depth total nameservers revealed :
  (depth <= 10)%nat →
  ensures (iteration enable_ipv6 rec dnssec_ok name rtype rclass depth total nameservers revealed)
    (result_ok dnssec_ok rtype name depth).
Proof.
  intros Hd. unfold iteration. case_decide; [apply gives_throw|].
  do 3 (apply ensures_bind_any; intros ?). apply ensures_bind_any. intros [msg|];
    [|by apply gives_ret].
  apply ensures_bind_any. intros _. case_decide.
  { apply ensures_bind_any. intros ?. apply gives_throw. }
  case_decide; [by apply gives_ret|by apply process_answer_ok].
Qed.

Lemma iterate_ok n dnssec_ok name rtype rclass depth total nameservers revealed :
  (depth <= 10)%nat →
  ensures (iterate enable_ipv6 rec n dnssec_ok name rtype rclass depth total nameservers revealed)
    (answer_ok dnssec_ok rtype name depth).
Proof.
  intros Hd. revert nameservers revealed. induction n as [|n IH]; intros nameservers revealed;
    cbn [iterate]; [apply gives_throw|].
  eapply gives_bind; [by apply iteration_ok|]. intros [a|ns rv] Ha; [by apply gives_ret|apply IH].
Qed.

Lemma resolve_body_ok dnssec_ok name rtype rclass depth minimize :
  ensures (resolve_body enable_ipv6 rec dnssec_ok name rtype rclass depth minimize) (λ a,
    (depth <= 10)%nat ∧ answer_ok dnssec_ok rtype name depth a).
Proof.
  unfold resolve_body, MAX_CNAME_DEPTH. case_decide; [apply gives_throw|].
  apply ensures_bind_any. intros cached. eapply gives_weaken with (P := answer_ok dnssec_ok rtype name depth).
  - destruct cached; apply iterate_ok; lia.
  - intros a Ha. split; [lia|done].
Qed.
End answers.

Lemma resolve_recursive_ok {C D R : Type → Type} {N : Type} `{LruOps cache_key C} `{LruOps bytes D} `{LruOps IpAddr R} `{Env N} `{Crypto}
    enable_ipv6 fuel dnssec_ok name rtype rclass depth minimize :
  ensures
    (resolve_recursive enable_ipv6 fuel dnssec_ok name rtype rclass depth minimize
      : RM (RecursiveResolver C D R N) _) (λ a,
    (depth <= 10)%nat ∧ answer_ok dnssec_ok rtype name depth a).
Proof.
  revert dnssec_ok name rtype rclass depth minimize.
  induction fuel as [|fuel IH]; intros; [by apply gives_lift|]. by apply resolve_body_ok.
Qed.

(** ** Termination *)

Create HintDb halts.

Lemma halts_bind {E A B} (c : outcome E A) (f : A → outcome E B) :
  halts c → (∀ a, halts (f a)) → halts (c ≫= f).
Proof. destruct c; cbn; auto; by intros ? ?. Qed.
Lemma halts_Ok {E A} (a : A) : halts (E:=E) (Ok a).
Proof. done. Qed.
Lemma halts_Err {E A} (e : E) : halts (A:=A) (Err e).
Proof. done. Qed.
Lemma halts_idx {E A} (l : list A) i : halts (idx (E:=E) l i).
Proof. unfold idx. by destruct (l !! i). Qed.
Lemma halts_slice {E A} (l : list A) a b : halts (slice (E:=E) l a b).
Proof. unfold slice. by case_decide. Qed.
Lemma halts_slice_from {E A} (l : list A) a : halts (slice_from (E:=E) l a).
Proof. unfold slice_from. by case_decide. Qed.
Lemma halts_write_slice {E A} (l : list A) a b src : halts (write_slice (E:=E) l a b src).
Proof. unfold write_slice. by case_decide. Qed.
Lemma halts_outcome_ok {E A} (c : outcome E A) : halts c → halts (E:=E) (outcome_ok c).
Proof. by destruct c. Qed.
#[export] Hint Resolve halts_Ok halts_Err halts_idx halts_slice halts_slice_from halts_write_slice
  halts_outcome_ok : halts.

(** Step through binds, matches and tests. *)
Ltac halts_steps :=
  repeat first
    [ solve [auto with halts]
    | apply halts_bind; [|intros ?]
    | case_match | case_decide ].

Lemma write_items_halts {A} (f : A → bytes → DnsResult (bytes * nat)) xs buf offset :
  (∀ x buf, halts (f x buf)) → halts (write_items f xs buf offset).
Proof.
  intros Hf. revert buf offset. induction xs as [|x xs IH]; intros; cbn [write_items]; halts_steps.
Qed.

Lemma Question_to_bytes_halts q buf : halts (Question_to_bytes q buf).
Proof. unfold Question_to_bytes. halts_steps. Qed.
Lemma ResourceRecord_to_bytes_halts r buf : halts (ResourceRecord_to_bytes r buf).
Proof. unfold ResourceRecord_to_bytes. cbn zeta. halts_steps. Qed.
Lemma Header_to_bytes_halts h buf : halts (Header_to_bytes h buf).
Proof. unfold Header_to_bytes. cbn zeta. halts_steps. Qed.
#[export] Hint Resolve Question_to_bytes_halts ResourceRecord_to_bytes_halts Header_to_bytes_halts
  write_items_halts : halts.

Lemma encode_message_halts m : halts (encode_message m).
Proof. unfold encode_message, Message_to_bytes. cbn zeta. generalize MAX_DNS_MESSAGE_SIZE. intros. halts_steps. Qed.

Lemma name_prefix_loop_halts fuel name skip i count result :
  halts (name_prefix_loop fuel name skip i count result).
Proof.
  revert i count result. induction fuel as [|fuel IH]; intros; cbn [name_prefix_loop];
    halts_steps; apply IH.
Qed.

Lemma name_prefix_halts name n : halts (name_prefix name n).
Proof. unfold name_prefix. case_decide; [done|]. apply halts_bind; [apply name_prefix_loop_halts|done]. Qed.

Lemma encode_domain_name_halts name : halts (encode_domain_name name).
Proof.
  unfold encode_domain_name. cbn zeta. case_decide; [done|].
  generalize (split_on DOT (trim_end_matches DOT name)), (@nil Z). intros labels.
  induction labels as [|l labels IH]; intros encoded; cbn [encode_labels]; halts_steps.
Qed.
#[export] Hint Resolve encode_message_halts name_prefix_halts encode_domain_name_halts : halts.

(** A network that delivers no packet on which [decode_message] hangs. *)
Class QuietEnv (N : Type) `{Env N} : Prop := {
  quiet_recv ip q n d : Some d ∈ (env_recv ip q n).1 → halts (decode_message (take 8192 d));
  quiet_read c k n d : (env_read c k n).1 = Some d → halts (decode_message d);
}.

#[export] Hint Extern 1 (ends (lift _)) => apply ends_lift; halts_steps : ends.

Ltac ends_steps :=
  repeat first
    [ solve [auto with ends]
    | apply ends_bind; [|intros ?]
    | apply ends_with_lock | apply ends_try | apply ends_catch | apply ends_timeout
    | case_match | case_decide ].

Section termination.
Context {C D R : Type → Type} {N : Type} `{LruOps cache_key C} `{LruOps bytes D} `{LruOps IpAddr R} `{QuietEnv N} `{Crypto}.
Abbreviation St := (RecursiveResolver C D R N).

Lemma instant_now_ends : ends (instant_now : RM St Z).
Proof. unfold instant_now. ends_steps. Qed.
Hint Resolve instant_now_ends : ends.

Lemma query_via_tcp_pool_ends q server : ends (query_via_tcp_pool q server : RM St (option bytes)).
Proof. unfold query_via_tcp_pool. cbn zeta. ends_steps. Qed.
Hint Resolve query_via_tcp_pool_ends : ends.

(** What TCP gives comes from the network. *)
Definition decodable (r : option bytes) : Prop := ∀ d, r = Some d → halts (decode_message d).

Lemma query_via_tcp_pool_quiet q server :
  ensures (query_via_tcp_pool q server : RM St (option bytes)) decodable.
Proof.
  unfold query_via_tcp_pool. cbn zeta. apply ensures_bind_any. intros stream.
  case_match; [|by apply gives_ret]. apply ensures_bind_any. intros ok.
  case_match; [by apply gives_ret|]. apply ensures_bind_any. intros [len|]; [|by apply gives_ret].
  case_decide; [by apply gives_ret|]. apply (gives_bind _ _ decodable).
  - apply gives_act. intros s _. split; [done|]. intros d E. destruct (env_read _ _ (r_env s)) as [r n1] eqn:Er. cbn in E. subst r.
    eapply quiet_read. by rewrite Er.
  - intros [data|] Hd; [|by apply gives_ret]. apply ensures_bind_any. intros ?.
    apply gives_ret. by intros ? [= <-]; apply Hd.
Qed.

Lemma recv_loop_halts id ip q n :
  halts (recv_loop id (env_recv ip q n).1).
Proof.
  assert (Hall : ∀ d, Some d ∈ (env_recv ip q n).1 → halts (decode_message (take 8192 d)))
    by (intros d; apply quiet_recv).
  induction (env_recv ip q n).1 as [|[d|] ds IH]; cbn [recv_loop]; [done| |done].
  assert (halts (recv_loop id ds)) by (apply IH; intros d' Hd'; apply Hall; by right).
  repeat case_decide; [|done..]. apply halts_outcome_ok, Hall. by left.
Qed.

(** What is made of the data from TCP. *)
Lemma tcp_then_ends {A} q server (f : option bytes → RM St A) :
  (∀ r, decodable r → ends (f r)) → ends (tcp_data ← query_via_tcp_pool q server; f tcp_data).
Proof. apply ends_bind_ensures; [apply query_via_tcp_pool_ends|apply query_via_tcp_pool_quiet]. Qed.

Lemma record_server_rtt_ends server ms : ends (record_server_rtt server ms : RM St unit).
Proof. unfold record_server_rtt. ends_steps. Qed.
Hint Resolve record_server_rtt_ends : ends.

Lemma truncated_before_ends q server : ends (truncated_before q server : RM St (option (option Message))).
Proof.
  apply ends_with_lock, ends_bind; [auto with ends|]. intros []; [|apply ends_ret]. cbn [negb].
  apply tcp_then_ends. intros [d|] Hd; [|apply ends_ret].
  apply ends_bind; [apply ends_lift, halts_outcome_ok; by apply Hd|].
  intros ?. unfold measure_tcp_rtt. ends_steps.
Qed.

Lemma tcp_fallback_ends q server m : ends (tcp_fallback q server m : RM St (option (option Message))).
Proof.
  unfold tcp_fallback. case_match; [apply ends_ret|]. apply ends_bind; [ends_steps|]. intros _.
  apply tcp_then_ends. intros [d|] Hd; [|apply ends_ret]. apply ends_lift.
  specialize (Hd d eq_refl). by destruct (decode_message d).
Qed.
Hint Resolve truncated_before_ends tcp_fallback_ends : ends.

Lemma server_task_ends q id server : ends (server_task q id server : RM St (option Message)).
Proof.
  unfold server_task. apply ends_bind; [auto with ends|]. intros []; [ends_steps|].
  apply ends_bind; [auto with ends|]. intros start. apply ends_bind; [auto with ends|].
  intros []; [|apply ends_ret]. cbn [negb].
  apply (ends_bind_ensures _ _ (λ ds, halts (recv_loop id ds))); [auto with ends| |].
  { apply gives_act. intros s _. split; [done|]. pose proof (recv_loop_halts id server q (r_env s)) as Hr.
    by destruct (env_recv server q (r_env s)). }
  intros ds Hds. apply ends_bind; [by apply ends_lift|]. intros [m|]; ends_steps.
Qed.
Hint Resolve server_task_ends : ends.

Lemma detach_tasks_ends q id servers : ends (detach_tasks q id servers : RM St unit).
Proof. induction servers as [|server servers IH]; cbn [detach_tasks]; ends_steps. Qed.
Hint Resolve detach_tasks_ends : ends.

Lemma run_tasks_ends q id servers : ends (run_tasks q id false servers : RM St (option Message)).
Proof.
  induction servers as [|server servers IH]; cbn [run_tasks]; [apply ends_ret|].
  apply (ends_bind_ensures _ _ halts); [auto with ends| |].
  { apply wp_attempt. eapply wp_mono; [apply server_task_ends|]. by intros r Hr a [= <-]. }
  intros [[m|]| | |] Hr; try done. ends_steps.
Qed.

Lemma completion_order_ends fuel servers : ends (completion_order fuel servers : RM St (list IpAddr)).
Proof.
  revert servers. induction fuel as [|fuel IH]; intros [|first servers]; cbn [completion_order]; ends_steps.
Qed.
Hint Resolve run_tasks_ends completion_order_ends : ends.

Lemma query_servers_concurrent_ends q id servers :
  ends (query_servers_concurrent q id servers : RM St (option Message)).
Proof. unfold query_servers_concurrent. ends_steps. Qed.
Hint Resolve query_servers_concurrent_ends : ends.

Lemma cache_records_ends enable_ipv6 records : ends (cache_records enable_ipv6 records : RM St unit).
Proof.
  induction records as [|rec records IH]; cbn [cache_records]; [done|].
  apply ends_bind; [|done]. unfold cache_record, cache_insert_records. ends_steps.
Qed.

Lemma find_cached_delegation_ends name : ends (find_cached_delegation name : RM St (option (list IpAddr))).
Proof.
  unfold find_cached_delegation. generalize (length name), 0%nat. intros fuel.
  induction fuel as [|fuel IH]; intros offset; cbn [delegation_loop]; ends_steps.
Qed.

Lemma cache_delegation_ends zone ips : ends (cache_delegation zone ips : RM St unit).
Proof. unfold cache_delegation. ends_steps. Qed.
Hint Resolve cache_records_ends find_cached_delegation_ends cache_delegation_ends : ends.
Lemma cached_delegation_ends name : ends (cached_delegation name : RM St (option (list IpAddr))).
Proof. unfold cached_delegation. ends_steps. Qed.
Lemma cached_addresses_ends name : ends (cached_addresses name : RM St (option (list IpAddr))).
Proof. unfold cached_addresses. ends_steps. Qed.
Hint Resolve cached_delegation_ends cached_addresses_ends : ends.

(** The body of a call without DNSSEC, when the calls one level down end. *)
Section body_ends.
Context (enable_ipv6 : bool) (depth : nat).
Context (rec : bool → bytes → Z → Z → nat → bool → RM St (list ResourceRecord * bool)).
Hypothesis rec_ends : ∀ name rtype rclass minimize, ends (rec false name rtype rclass (depth + 1) minimize).
Hint Resolve rec_ends : ends.

Lemma referral_loop_ends additionals ns_records servers names :
  ends (referral_loop enable_ipv6 additionals ns_records servers names : RM St (list IpAddr * list bytes)).
Proof.
  revert servers names. induction ns_records as [|ns ns_records IH]; intros; cbn [referral_loop];
    cbn zeta; ends_steps; apply IH.
Qed.

Lemma resolve_ns_names_ends names rclass :
  ends (resolve_ns_names_concurrently rec names rclass depth).
Proof.
  induction names as [|name names IH]; cbn [resolve_ns_names_concurrently]; [done|].
  unfold resolve_ns_name. ends_steps.
Qed.

Lemma add_resolved_ends results servers : ends (add_resolved results servers : RM St (list IpAddr)).
Proof.
  revert servers. induction results as [|[name ips] results IH]; intros; cbn [add_resolved]; ends_steps.
Qed.
Hint Resolve referral_loop_ends resolve_ns_names_ends add_resolved_ends : ends.

Lemma follow_referral_ends rclass msg : ends (follow_referral enable_ipv6 rec rclass depth msg).
Proof. unfold follow_referral. cbn zeta. ends_steps. Qed.

Lemma negative_ends msg name rclass qtype :
  ends (validate_negative_dnssec_response rec false msg name rclass qtype).
Proof.
  unfold validate_negative_dnssec_response. rewrite decide_True by (by left). done.
Qed.

Lemma check_answer_ends name total rtype rclass servers msg direct :
  ends (check_answer rec false name total rtype rclass servers msg direct).
Proof. done. Qed.
Hint Resolve follow_referral_ends negative_ends check_answer_ends : ends.

Lemma process_answer_ends name rtype rclass servers revealed total msg :
  ends (process_answer enable_ipv6 rec false name rtype rclass depth servers revealed total msg).
Proof. unfold process_answer, chase, refer_or_deny. cbn zeta. ends_steps. Qed.
Hint Resolve process_answer_ends : ends.

Lemma iteration_ends name rtype rclass total servers revealed :
  ends (iteration enable_ipv6 rec false name rtype rclass depth total servers revealed).
Proof.
  unfold iteration, build_query_static, cache_response. case_decide; [done|].
  apply ends_bind; [apply ends_lift; by case_decide; auto with halts|]. intros ?. ends_steps.
Qed.

Lemma iterate_ends n name rtype rclass total servers revealed :
  ends (iterate enable_ipv6 rec n false name rtype rclass depth total servers revealed).
Proof.
  revert servers revealed. induction n as [|n IH]; intros; cbn [iterate]; [done|].
  apply ends_bind; [apply iteration_ends|]. intros []; [done|apply IH].
Qed.

Lemma resolve_body_ends name rtype rclass minimize :
  ends (resolve_body enable_ipv6 rec false name rtype rclass depth minimize).
Proof.
  unfold resolve_body. case_decide; [done|]. apply ends_bind; [auto with ends|].
  intros []; apply iterate_ends.
Qed.
End body_ends.

(** The entry point, when the resolutions it starts end. *)
Lemma resolve_with_ad_ends (rec : bool → bytes → Z → Z → nat → bool → RM St (list ResourceRecord * bool))
    name rtype rclass :
  (∀ encoded, ends (rec false encoded rtype rclass 0%nat true)) →
  ends (resolver_resolve_with_ad rec false name rtype rclass).
Proof.
  intros Hrec. unfold resolver_resolve_with_ad, resolve_cached, cache_lookup, resolve_recursive_stale,
    resolve_fresh, cache_insert_records. ends_steps.
Qed.

Lemma resolve_recursive_ends enable_ipv6 fuel name rtype rclass depth minimize :
  (11 < fuel + depth)%nat → (0 < fuel)%nat →
  ends (resolve_recursive enable_ipv6 fuel false name rtype rclass depth minimize : RM St _).
Proof.
  revert name rtype rclass depth minimize. induction fuel as [|fuel IH]; intros name rtype rclass depth minimize Hf Hpos; [lia|].
  cbn [resolve_recursive]. destruct (decide (MAX_CNAME_DEPTH < depth)%nat) as [Hd|Hd].
  { unfold resolve_body. by rewrite decide_True. }
  unfold MAX_CNAME_DEPTH in Hd. apply resolve_body_ends. intros. apply IH; lia.
Qed.
End termination.
#[export] Hint Resolve instant_now_ends query_via_tcp_pool_ends record_server_rtt_ends truncated_before_ends
  server_task_ends cache_records_ends find_cached_delegation_ends : ends.

(** ** Properties *)

Section properties.
Context {C D R : Type → Type} {N : Type} `{LruLaws cache_key C} `{LruOps bytes D} `{LruOps IpAddr R} `{Env N} `{Crypto}.
Abbreviation St := (RecursiveResolver C D R N).

(** C5: whatever the name servers answer, the records that a resolution returns form a chain
    from the name that was asked for: at most ten CNAME records, each for the target of the one
    before, and then only records of the last name and of the type asked for; and the AD flag is
    never set when DNSSEC is off. *)
Theorem resolution_sound enable_ipv6 fuel dnssec_ok name rtype rclass depth minimize (s s' : St)
    records ad :
  resolve_recursive enable_ipv6 fuel dnssec_ok name rtype rclass depth minimize s =
    (Ok (records, ad), s') →
  (∃ n, answers rtype n name records ∧ (n + depth <= 10)%nat) ∧ (dnssec_ok = false → ad = false).
Proof.
  intros E. eapply gives_run in E as [_ E]; [|apply resolve_recursive_ok|done]. by destruct E.
Qed.

(** C23: without DNSSEC, and on a network that delivers no packet on which the decoder hangs, every
    resolution ends: twelve nested calls are enough for every name, whatever else the servers
    answer, and so are they for the entry point of the servers. *)
Theorem resolution_terminates `{!QuietEnv N} enable_ipv6 fuel name rtype rclass (s : St) :
  (12 <= fuel)%nat →
  (∀ encoded minimize,
     (resolve_recursive enable_ipv6 fuel false encoded rtype rclass 0 minimize s).1 ≠ Diverge) ∧
  (Resolver.resolve_with_ad enable_ipv6 false fuel name rtype rclass s).1 ≠ Diverge.
Proof.
  intros Hf. split.
  { intros. apply ends_run, resolve_recursive_ends; lia. }
  apply ends_run, resolve_with_ad_ends. intros. apply resolve_recursive_ends; lia.
Qed.

End properties.

(** A network without an answer. *)
Definition silent_env : Env unit := {|
  env_clock n := (λ _, 0, n);
  env_wall n := (λ _, 0, n);
  env_random n := (7, n);
  env_send _ _ n := (true, n);
  env_recv _ _ n := ([], n);
  env_connect _ n := (None, n);
  env_write _ _ n := (false, n);
  env_read _ _ n := (None, n);
  env_write_in_time _ _ n := (false, n);
  env_ping _ _ n := (Unbound, n);
  env_pick n := (0%nat, n);
  env_timed_out n := (false, n);
|}.
#[local] Existing Instances silent_env toy_crypto.
#[local] Instance silent_quiet : QuietEnv unit.
Proof. split; [|done]. by intros ip q n d Hd%elem_of_nil. Qed.

Lemma resolution_terminates_witness :
  (Resolver.resolve_with_ad false false 12 [120] 1 1
     (resolver_new false false 100 [] tt : RecursiveResolver (alru cache_key) (alru bytes) (alru IpAddr) unit)).1 ≠ Diverge.
Proof. refine (proj2 (resolution_terminates false 12 [120] 1 1 _ _)). lia. Defined.
