(* ===== verification/Completeness.v ===== *)
(** * Resolution finds what the name servers serve (src/resolver/recursive.rs)

    On a network whose servers delegate with glue, from the root or from the
    servers of a cached delegation to a server that has the answer, resolution
    without DNSSEC returns the answer: it is enough that at each step one server
    answers, and all that answer agree to make progress, without truncation. *)

From stdpp Require Import gmap strings.
From S2P Require Import Prelude Constants Str Types Names NameCodec Rdata Message Async Lru Cache RootHints Rtt.
From S2P Require Import Upstream Exchange Dnssec Server Resolver Resolution.
#[local] Open Scope Z_scope.

(** ** Delegation chains *)

Section leads.
Context {N : Type} `{Stateless N}.
Context (enable_ipv6 : bool) (name : bytes) (rtype rclass : Z) (Q : list ResourceRecord → Prop).

(** The records of a message that answer the question. *)
Definition direct_answers (m : Message) : list ResourceRecord :=
  filter (λ r, domain_names_equal (rr_name r) name = true ∧ rr_rtype r = rtype) (m_answers m).
Definition aliases (m : Message) : list ResourceRecord :=
  filter (λ r, domain_names_equal (rr_name r) name = true ∧ rr_rtype r = 5) (m_answers m).

(** The addresses that come with an NS record. *)
Definition glue_of (m : Message) (ns : ResourceRecord) : list ResourceRecord :=
  filter (λ r, domain_names_equal (rr_name r)
                 (match rr_parsed ns with Some (RData.NS name) => name | _ => rr_rdata ns end) = true ∧
               (rr_rtype r = 1 ∨ enable_ipv6 = true ∧ rr_rtype r = 28)) (m_additionals m).
Definition glue_servers (m : Message) : list IpAddr :=
  concat (map (λ ns, omap (rr_ip enable_ipv6) (glue_of m ns)) (of_type 2 (m_authorities m))).

(** The query that is sent when [revealed] labels of the name are shown. *)
Definition query_for (revealed : nat) (id : Z) : DnsResult bytes :=
  minimized ← (if decide (revealed < count_labels name)%nat then name_prefix name revealed else Ok name);
  build_query_static minimized rtype rclass id false false.

(** In at most [k] steps: one server answers, none truncates, and every answer is either the
    records asked for, and these satisfy [Q], or a delegation with glue from which [k - 1]
    steps lead on. *)
Fixpoint leads (k : nat) (servers : list IpAddr) (revealed : nat) : Prop :=
  match k with
  | O => False
  | S k =>
    ∀ id, (∃ n, (env_random n).1 = id) → ∃ q, query_for revealed id = Ok q ∧
      (∃ server m, server ∈ servers ∧ reply server q id = Ok (Some m)) ∧
      (∀ server m, server ∈ servers → reply server q id = Ok (Some m) →
         h_tc (m_header m) = false ∧ h_rcode (m_header m) = 0 ∧
         ((direct_answers m ≠ [] ∧ Q (direct_answers m)) ∨
          (direct_answers m = [] ∧ aliases m = [] ∧ glue_servers m ≠ [] ∧
           Forall (λ ns, glue_of m ns ≠ []) (of_type 2 (m_authorities m)) ∧
           leads k (glue_servers m)
             (if decide (revealed < count_labels name)%nat then revealed + 1 else revealed)%nat)))
  end.
End leads.

(** ** Computations that always succeed *)

Section quiet.
Context {C D R : Type → Type} {N : Type} `{LruOps cache_key C} `{LruOps bytes D} `{LruOps IpAddr R} `{Stateless N} `{Crypto}.
Abbreviation St := (RecursiveResolver C D R N).

(** [c] succeeds and marks no server as truncating. *)
Definition quiet {A} (c : RM St A) : Prop :=
  ∀ s, ∃ a s', c s = (Ok a, s') ∧ r_truncation_cache s' = r_truncation_cache s.

Lemma quiet_ret {A} (a : A) : quiet (mret a).
Proof. intros s. by exists a, s. Qed.
Lemma quiet_bind {A B} (c : RM St A) (f : A → RM St B) :
  quiet c → (∀ a, quiet (f a)) → quiet (c ≫= f).
Proof.
  intros Hc Hf s. destruct (Hc s) as (a & s1 & E & Htr). destruct (Hf a s1) as (b & s2 & E' & Htr').
  exists b, s2. rewrite (bind_step _ _ _ _ _ E). split; [done|congruence].
Qed.
Lemma quiet_with_lock {A} m (c : RM St A) : quiet c → quiet (with_lock m c).
Proof. intros Hc s. rewrite run_with_lock. apply Hc. Qed.
Lemma quiet_act {A} (f : St → A * St) :
  (∀ s, r_truncation_cache (f s).2 = r_truncation_cache s) → quiet (act f).
Proof. intros Hf s. rewrite run_act. by eexists _, _. Qed.
Lemma quiet_use_env {A} (f : N → A * N) : quiet (use_env f).
Proof. apply quiet_act. intros s. by destruct (f (r_env s)). Qed.
Lemma quiet_use_cache {A} (f : DnsCache C → A * DnsCache C) : quiet (use_cache f).
Proof. apply quiet_act. intros s. by destruct (f (r_cache s)). Qed.
Lemma quiet_use_ns_cache {A} (f : D (list IpAddr) → A * D (list IpAddr)) : quiet (use_ns_cache f).
Proof. apply quiet_act. intros s. by destruct (f (r_ns_cache s)). Qed.
Lemma quiet_use_delegation_cache {A}
    (f : D (list IpAddr * Z)%type → A * D (list IpAddr * Z)%type) : quiet (use_delegation_cache f).
Proof. apply quiet_act. intros s. by destruct (f (r_delegation_cache s)). Qed.
End quiet.

Create HintDb quiet.
#[export] Hint Resolve quiet_ret quiet_use_env quiet_use_cache quiet_use_ns_cache
  quiet_use_delegation_cache : quiet.

Ltac quiet_steps :=
  repeat first
    [ solve [auto with quiet]
    | apply quiet_bind; [|intros ?]
    | apply quiet_with_lock
    | case_match | case_decide ].

Section completeness.
Context {C D R : Type → Type} {N : Type} `{LruOps cache_key C} `{LruOps bytes D} `{LruOps IpAddr R} `{Stateless N} `{Crypto}.
Abbreviation St := (RecursiveResolver C D R N).

Lemma cache_response_quiet enable_ipv6 m : quiet (cache_response enable_ipv6 m : RM St unit).
Proof.
  unfold cache_response. do 2 apply quiet_with_lock. induction (_ ++ _ ++ _) as [|r records IH]; cbn [cache_records]; [quiet_steps|].
  apply quiet_bind; [|done]. unfold cache_record, cache_insert_records. quiet_steps.
Qed.

Lemma cache_delegation_quiet zone servers : quiet (cache_delegation zone servers : RM St unit).
Proof. unfold cache_delegation, instant_now. quiet_steps. Qed.

Lemma find_cached_delegation_quiet name : quiet (find_cached_delegation name : RM St (option (list IpAddr))).
Proof.
  unfold find_cached_delegation. generalize (length name), 0%nat. intros fuel.
  induction fuel as [|fuel IH]; intros offset; cbn [delegation_loop]; unfold instant_now; quiet_steps.
Qed.

(** A delegation with glue needs no further query. *)
Lemma referral_loop_glue enable_ipv6 m ns_records servers names (s : St) :
  Forall (λ ns, glue_of enable_ipv6 m ns ≠ []) ns_records →
  referral_loop enable_ipv6 (m_additionals m) ns_records servers names s =
    (Ok (servers ++ concat (map (λ ns, omap (rr_ip enable_ipv6) (glue_of enable_ipv6 m ns)) ns_records),
         names), s).
Proof.
  intros Hall. revert servers. induction Hall as [|ns ns_records Hns _ IH]; intros servers.
  { by rewrite app_nil_r. }
  cbn [referral_loop map concat]. cbn zeta. fold (glue_of enable_ipv6 m ns).
  rewrite decide_True by done. by rewrite IH, app_assoc.
Qed.

Lemma follow_referral_glue enable_ipv6 rec rclass depth m (s : St) :
  Forall (λ ns, glue_of enable_ipv6 m ns ≠ []) (of_type 2 (m_authorities m)) →
  ∃ s', follow_referral enable_ipv6 rec rclass depth m s = (Ok (glue_servers enable_ipv6 m), s') ∧
    r_truncation_cache s' = r_truncation_cache s.
Proof.
  intros Hglue. unfold follow_referral. cbn zeta.
  rewrite (bind_step _ _ _ _ _ (referral_loop_glue _ _ _ [] [] s Hglue)). cbn [fst snd app].
  fold (glue_servers enable_ipv6 m).
  rewrite (bind_step _ _ s [] s), (bind_step _ _ s (glue_servers enable_ipv6 m) s) by done.
  assert (Hc : quiet (match of_type 2 (m_authorities m) with
                      | zone :: _ => if decide (glue_servers enable_ipv6 m = []) then mret ()
                                     else cache_delegation (rr_name zone) (glue_servers enable_ipv6 m)
                      | [] => mret ()
                      end : RM St unit)).
  { destruct (of_type 2 _); [apply quiet_ret|]. case_decide; [apply quiet_ret|apply cache_delegation_quiet]. }
  destruct (Hc s) as ([] & s' & E & Htr). rewrite (bind_step _ _ _ _ _ E). by exists s'.
Qed.

(** One answer that makes progress. *)
Lemma process_answer_progress enable_ipv6 rec name rtype rclass depth servers revealed m (s : St) :
  (direct_answers name rtype m ≠ [] →
   ∃ s', process_answer enable_ipv6 rec false name rtype rclass depth servers revealed (count_labels name) m s =
     (Ok (Answered (direct_answers name rtype m, false)), s')) ∧
  (direct_answers name rtype m = [] → aliases name m = [] → glue_servers enable_ipv6 m ≠ [] →
   Forall (λ ns, glue_of enable_ipv6 m ns ≠ []) (of_type 2 (m_authorities m)) →
   ∃ s', process_answer enable_ipv6 rec false name rtype rclass depth servers revealed (count_labels name) m s =
     (Ok (Next (glue_servers enable_ipv6 m)
            (if decide (revealed < count_labels name)%nat then revealed + 1 else revealed)%nat), s') ∧
     r_truncation_cache s' = r_truncation_cache s).
Proof.
  unfold process_answer. fold (direct_answers name rtype m) (aliases name m). split.
  - intros Hd. rewrite decide_True by done. unfold check_answer. cbn [andb].
    rewrite (bind_step _ _ s false s) by done.
    destruct (cache_delegation_quiet name servers s) as ([] & s' & E & _).
    rewrite (bind_step _ _ _ _ _ E). by exists s'.
  - intros -> -> Hne Hglue. rewrite decide_False by (intros Hx; by apply Hx). unfold refer_or_deny.
    rewrite (decide_False (P:=of_type 2 (m_authorities m) = []))
      by (intros E; apply Hne; unfold glue_servers; by rewrite E).
    destruct (follow_referral_glue enable_ipv6 rec rclass depth m s Hglue) as (s' & E & Htr).
    rewrite (bind_step _ _ _ _ _ E). rewrite decide_True by done. by exists s'.
Qed.

(** One iteration: the query, the first answer, and what is made of it. *)
Lemma iteration_answer enable_ipv6 rec name rtype rclass depth servers revealed q server (s : St) :
  let id := (env_random (r_env s)).1 in
  query_for name rtype rclass revealed id = Ok q → r_truncation_cache s = ∅ →
  (∀ server m, server ∈ servers → reply server q id = Ok (Some m) →
     h_tc (m_header m) = false ∧ h_rcode (m_header m) = 0) →
  server ∈ servers → (∃ m, reply server q id = Ok (Some m)) →
  ∃ server m s', server ∈ servers ∧ reply server q id = Ok (Some m) ∧ r_truncation_cache s' = ∅ ∧
    iteration enable_ipv6 rec false name rtype rclass depth (count_labels name) servers revealed s =
      process_answer enable_ipv6 rec false name rtype rclass depth servers revealed (count_labels name) m s'.
Proof.
  intros id Hq Htr Hall Hin [m0 Hm0]. destruct (nets_use_env env_random s) as [net1 Eid]. fold id in Eid.
  set (s1 := with_net s net1) in *.
  destruct (query_servers_concurrent_reply q id servers s1) as (x & m & [net2 Eq] & Hx & Hm); [|by eauto|].
  { intros x Hx. split; [cbn; by rewrite Htr|]. intros m Hm. by apply (Hall x m). }
  destruct (cache_response_quiet enable_ipv6 m (with_net s1 net2)) as ([] & s2 & Ec & Htr2).
  exists x, m, s2. split_and!; [done|done|by rewrite Htr2|].
  destruct (Hall x m Hx Hm) as [_ Hcode]. unfold query_for in Hq. unfold iteration.
  rewrite decide_False by (intros ->; by apply elem_of_nil in Hin).
  destruct (if decide (revealed < count_labels name)%nat then name_prefix name revealed else Ok name)
    as [minimized| | |]; try done. cbn in Hq.
  rewrite (bind_step _ _ s minimized s), (bind_step _ _ _ _ _ Eid) by done.
  rewrite Hq, (bind_step _ _ s1 q s1), (bind_step _ _ _ _ _ Eq), (bind_step _ _ _ _ _ Ec) by done.
  rewrite Hcode. rewrite decide_False by done. rewrite decide_False by (by intros []). done.
Qed.

Lemma iterate_leads enable_ipv6 rec name rtype rclass depth Q k n servers revealed (s : St) :
  leads enable_ipv6 name rtype rclass Q k servers revealed → (k <= n)%nat → r_truncation_cache s = ∅ →
  ∃ records s', iterate enable_ipv6 rec n false name rtype rclass depth (count_labels name) servers revealed s =
    (Ok (records, false), s') ∧ Q records.
Proof.
  revert n servers revealed s. induction k as [|k IH]; intros n servers revealed s; cbn [leads]; [done|].
  intros Hleads Hn Htr. destruct n as [|n]; [lia|]. cbn [iterate].
  destruct (Hleads (env_random (r_env s)).1) as (q & Hq & (server & m0 & Hin0 & Hm0) & Hall); [by eexists|].
  destruct (iteration_answer enable_ipv6 rec name rtype rclass depth servers revealed q server s Hq Htr)
    as (x & m & s2 & Hin & Hm & Htr2 & Hit); [|done|by eexists|].
  { intros x m Hx Hm. by destruct (Hall x m Hx Hm) as (? & ? & _). }
  destruct (Hall x m Hin Hm) as (_ & _ & Hprogress). clear Hall.
  destruct (process_answer_progress enable_ipv6 rec name rtype rclass depth servers revealed m s2)
    as [Hdirect Hnext].
  destruct Hprogress as [[Hd HQ]|(Hd & Ha & Hne & Hglue & Hrest)].
  - destruct (Hdirect Hd) as (s' & Ep). rewrite <-Hit in Ep. rewrite (bind_step _ _ _ _ _ Ep).
    by eexists _, s'.
  - destruct (Hnext Hd Ha Hne Hglue) as (s' & Ep & Htr'). rewrite <-Hit in Ep.
    rewrite (bind_step _ _ _ _ _ Ep). apply (IH n _ _ s' Hrest); [lia|]. by rewrite Htr'.
Qed.

(** Where a resolution starts: at the servers of the closest cached delegation, with the whole
    name, or at the root servers. *)
Definition starts_at (name : bytes) (minimize : bool) (found : option (list IpAddr)) : list IpAddr * nat :=
  match found with
  | Some servers => (servers, count_labels name)
  | None => (initial_root_addrs, if minimize then 1%nat else count_labels name)
  end.

(** C6: resolution without DNSSEC finds the answer, on a network whose replies depend on the server
    and the query alone: when, from the servers of the closest cached delegation, or without one
    from the root servers, a chain of at most 32 delegations with glue leads to servers that answer
    the question with records that satisfy [Q]; when at each step at least one server answers the
    minimised query, none that answers truncates, and all that answer agree in this; and when no
    server is known to truncate.  Then whatever the servers do that do not answer, and in whatever
    order the answers come, the resolution returns records that satisfy [Q], without the AD flag. *)
Theorem resolution_complete enable_ipv6 fuel name rtype rclass minimize Q k found (s : St) :
  r_truncation_cache s = ∅ → (find_cached_delegation name s).1 = Ok found → (k <= 32)%nat →
  leads enable_ipv6 name rtype rclass Q k (starts_at name minimize found).1 (starts_at name minimize found).2 →
  ∃ records s',
    resolve_recursive enable_ipv6 (S fuel) false name rtype rclass 0 minimize s =
      (Ok (records, false), s') ∧ Q records.
Proof.
  intros Htr Hfresh Hk Hleads. cbn [resolve_recursive]. unfold resolve_body.
  rewrite decide_False by (unfold MAX_CNAME_DEPTH; lia).
  destruct (find_cached_delegation_quiet name s) as (found' & s1 & E & Htr1).
  assert (found' = found) as -> by (rewrite E in Hfresh; by injection Hfresh).
  unfold cached_delegation. erewrite bind_step by (rewrite run_with_lock; exact E). cbn zeta.
  destruct found as [servers|]; (eapply iterate_leads; [exact Hleads|by unfold MAX_ITERATIONS|by rewrite Htr1]).
Qed.
End completeness.

(** ** A small network

    The zone "b", delegated by the root servers to one server with glue; it holds the address of
    "a.b", and "c.b" as an alias of it.  One of the root servers is down. *)

Module Toy.
Definition zone_b : bytes := [1; 98; 0].
Definition name_a : bytes := [1; 97; 1; 98; 0].
Definition name_c : bytes := [1; 99; 1; 98; 0].
Definition name_ns : bytes := [2; 110; 115; 1; 98; 0].
Definition authority : IpAddr := V4 [10; 0; 0; 1].

Definition ns_b : ResourceRecord := mkRR zone_b 2 1 300 6 name_ns (Some (RData.NS name_ns)).
Definition glue_b : ResourceRecord := mkRR name_ns 1 1 300 4 [10; 0; 0; 1] (Some (RData.A [10; 0; 0; 1])).
Definition address_a : ResourceRecord := mkRR name_a 1 1 300 4 [192; 0; 2; 1] (Some (RData.A [192; 0; 2; 1])).
Definition alias_c : ResourceRecord := mkRR name_c 5 1 300 5 name_a (Some (RData.CNAME name_a)).

(** The sections of the response of the server of "b", or of a root server. *)
Definition sections (authoritative : bool) (qname : bytes)
    : list ResourceRecord * list ResourceRecord * list ResourceRecord :=
  if authoritative
  then (if decide (qname = name_c) then [alias_c] else [address_a], [], [])
  else ([], [ns_b], [glue_b]).

Definition datagrams (authoritative : bool) (q : bytes) : list (option bytes) :=
  match decode_message q with
  | Ok m =>
    match m_questions m with
    | question :: _ =>
      let '(an, ns, ar) := sections authoritative (q_name question) in
      match encode_message (mkMessage (Header_new_response (h_id (m_header m)) 0) [question] an ns ar) with
      | Ok reply => [Some reply]
      | _ => []
      end
    | [] => []
    end
  | _ => []
  end.

#[local] Instance env : Env unit := {
  env_clock n := (λ _, 0, n);
  env_wall n := (λ _, 0, n);
  env_random n := (7, n);
  env_send ip _ n := (bool_decide (ip ≠ V4 [198; 41; 0; 4]), n);
  env_recv ip q n := (datagrams (bool_decide (ip = authority)) q, n);
  env_connect _ n := (None, n);
  env_write _ _ n := (false, n);
  env_read _ _ n := (None, n);
  env_write_in_time _ _ n := (false, n);
  env_ping _ _ n := (Unbound, n);
  env_pick n := (3%nat, n);
  env_timed_out n := (false, n);
}.

#[local] Instance stateless : Stateless unit := {
  net_send ip _ := bool_decide (ip ≠ V4 [198; 41; 0; 4]);
  net_recv ip q := datagrams (bool_decide (ip = authority)) q;
  stateless_send _ _ _ := eq_refl;
  stateless_recv _ _ _ := eq_refl;
}.


Abbreviation state := (RecursiveResolver (alru cache_key) (alru bytes) (alru IpAddr) unit).
Definition fresh : state := resolver_new false false 100 [] tt.

(** The resolution of a name, its records and the state it ends in. *)
Definition resolving (name : bytes) : DnsResult (list ResourceRecord * bool) * state :=
  @resolve_recursive (alru cache_key) (alru bytes) (alru IpAddr) unit _ _ _ _ toy_crypto false 3 false name 1 1 0 true fresh.
Definition records_of (r : DnsResult (list ResourceRecord * bool)) : list ResourceRecord :=
  match r with Ok (records, _) => records | _ => [] end.
End Toy.
#[local] Existing Instances Toy.env Toy.stateless toy_crypto.
Lemma resolution_complete_witness :
  ∃ records s', resolve_recursive false 1 false Toy.name_a 1 1 0 true Toy.fresh =
      (Ok (records, false), s') ∧
    records = [Toy.address_a].
Proof.
  refine (resolution_complete false 0 Toy.name_a 1 1 true (λ records, records = [Toy.address_a]) 2
            None Toy.fresh _ _ _ _); [done|by vm_compute|lia|].
  intros id [n <-]. eexists. split; [by vm_compute|]. split.
  { exists (V4 [170; 247; 170; 53]). eexists. split; [|by vm_compute].
    apply (bool_decide_unpack _). by vm_compute. }
  intros server m Hin. unfold reply. cbn [net_send net_recv Toy.stateless].
  rewrite (bool_decide_eq_false_2 (server = Toy.authority))
    by (intros ->; revert Hin; apply (bool_decide_unpack _); by vm_compute).
  destruct (bool_decide (server ≠ _)); [|done]. intros E. vm_compute in E. injection E as <-.
  split_and!; [done..|right]. split_and!; [by vm_compute|by vm_compute|by vm_compute| |].
  { apply (bool_decide_unpack _). by vm_compute. }
  intros id [n' <-]. eexists. split; [by vm_compute|]. split.
  { exists Toy.authority. eexists. split; [|by vm_compute]. apply (bool_decide_unpack _). by vm_compute. }
  intros x m' Hx. assert (x = Toy.authority) as -> by (revert Hx; vm_compute; by intros ->%list_elem_of_singleton).
  intros E. vm_compute in E. injection E as <-. split_and!; [done..|left]. by vm_compute.
Defined.

Lemma resolution_sound_witness :
  ∃ n, answers 1 n Toy.name_c (Toy.records_of (Toy.resolving Toy.name_c).1) ∧ (n + 0 <= 10)%nat.
Proof.
  refine (proj1 (resolution_sound false 3 false Toy.name_c 1 1 0 true Toy.fresh
                   (Toy.resolving Toy.name_c).2 _ false _)).
  vm_compute. reflexivity.
Defined.
