(* ===== verification/Adversary.v ===== *)
(** * What name servers can do to the resolver (src/resolver/recursive.rs)

    A zone whose answers keep the resolver busy forever, what the DNSSEC check
    accepts, and what a response can put into the cache. *)

From stdpp Require Import gmap strings.
From S2P Require Import Prelude Constants Str Types Names NameCodec Rdata Message Async Lru Cache RootHints Rtt.
From S2P Require Import Upstream Exchange Dnssec Server Resolver Resolution.
#[local] Open Scope Z_scope.

(** ** A hostile zone

    Every query is answered with NXDOMAIN, an SOA record and a signature.  The signature is
    enough to make the resolver ask for the keys of the zone, and that query is answered the
    same way. *)

Definition hostile_zone : bytes := [1; 120; 0].

Definition hostile_soa : ResourceRecord :=
  mkRR hostile_zone 6 1 0 22 (replicate 22 0)
    (Some (RData.SOA [0] [0] 0 0 0 0 0)).
Definition hostile_rrsig : ResourceRecord :=
  mkRR hostile_zone 46 1 0 20 (replicate 20 0)
    (Some (RData.RRSIG 0 0 0 0 0 0 0 [0] [0])).

Definition hostile_header (id : Z) : Header := mkHeader id true 0 true false false false 0 false false 3 1 0 2 0.

Definition hostile_reply (query : bytes) : list (option bytes) :=
  match decode_message query with
  | Ok m =>
    match encode_message (mkMessage (hostile_header (h_id (m_header m))) (m_questions m) []
                            [hostile_soa; hostile_rrsig] []) with
    | Ok reply => [Some reply]
    | _ => []
    end
  | _ => []
  end.

#[export] Instance hostile_env : Env unit := {
  env_clock n := (λ _, 0, n);
  env_wall n := (λ _, 0, n);
  env_random n := (7, n);
  env_send _ _ n := (true, n);
  env_recv _ q n := (hostile_reply q, n);
  env_connect _ n := (None, n);
  env_write _ _ n := (false, n);
  env_read _ _ n := (None, n);
  env_write_in_time _ _ n := (false, n);
  env_ping _ _ n := (Unbound, n);
  env_pick n := (0%nat, n);
  env_timed_out n := (false, n);
}.

#[export] Instance hostile_stateless : Stateless unit := {
  net_send _ _ := true;
  net_recv _ q := hostile_reply q;
  stateless_send _ _ _ := eq_refl;
  stateless_recv _ _ _ := eq_refl;
}.

#[local] Abbreviation C0 := (alru cache_key).
#[local] Abbreviation D0 := (alru bytes).
#[local] Abbreviation R0 := (alru IpAddr).
#[local] Abbreviation S0 := (RecursiveResolver C0 D0 R0 unit).

Definition hostile_message (rtype : Z) : Message :=
  mkMessage (hostile_header 7) [mkQuestion hostile_zone rtype 1] [] [hostile_soa; hostile_rrsig] [].

(** Addresses, and the keys that the resolver asks for. *)
Definition hostile_types : list Z := [1; 28; 48].

Lemma hostile_keys : 48 ∈ hostile_types.
Proof. unfold hostile_types. rewrite !elem_of_cons. auto. Qed.

Lemma hostile_answer rtype :
  rtype ∈ hostile_types →
  ∃ query, build_query_static hostile_zone rtype 1 7 true false = Ok query ∧
    recv_loop 7 (hostile_reply query) = Ok (Some (hostile_message rtype)).
Proof.
  unfold hostile_types. rewrite !elem_of_cons, elem_of_nil.
  intros [->|[->|[->|[]]]]; eexists; (split; [by vm_compute|]; by vm_compute).
Qed.

Section hostile.
Context `{Crypto}.

(** The states that resolution in the hostile zone goes through: nothing is cached. *)
Definition hostile_state (s : S0) : Prop :=
  ∃ n m k mx h ms nsc st rtt health pool sp,
    s = mkResolver (mkCache (lru_new n) (lru_new m) mx h ms) nsc (lru_new k) st rtt health pool ∅ sp tt.

(** A computation that stays in them. *)
Definition stays {A} (c : RM S0 A) (a : A) : Prop :=
  ∀ s, hostile_state s → ∃ s', c s = (Ok a, s') ∧ hostile_state s'.

Lemma hostile_query query m :
  recv_loop 7 (hostile_reply query) = Ok (Some m) → h_tc (m_header m) = false →
  stays (query_servers_concurrent query 7 initial_root_addrs) (Some m).
Proof.
  intros Hq Htc s (n & n' & k & mx & h & ms & nsc & st & rtt & health & pool & sp & ->).
  assert (Hreply : ∀ server, reply server query 7 = Ok (Some m)) by done.
  set (s := mkResolver _ _ _ _ _ _ _ _ _ _).
  destruct (query_servers_concurrent_reply query 7 initial_root_addrs s)
    as (server & m' & [net E] & _ & Hm').
  - intros server _. split; [done|]. intros m' Hm'. rewrite Hreply in Hm'. by injection Hm' as <-.
  - exists (V4 [198; 41; 0; 4]), m. split; [by left|done].
  - rewrite Hreply in Hm'. injection Hm' as <-. exists (with_net s net). split; [done|].
    destruct net as [rtt' []]. by repeat eexists.
Qed.

Lemma hostile_uncached : stays (cached_delegation hostile_zone) None.
Proof.
  intros s (n & m & k & mx & h & ms & nsc & st & rtt & health & pool & sp & ->).
  eexists. split; [reflexivity|]. by repeat eexists.
Qed.

Lemma hostile_cache_response rtype : stays (cache_response false (hostile_message rtype)) ().
Proof.
  intros s (n & m & k & mx & h & ms & nsc & st & rtt & health & pool & sp & ->).
  eexists. split; [reflexivity|]. by repeat eexists.
Qed.

Lemma hostile_random : stays (use_env env_random) 7.
Proof. intros s Hs. exists s. split; [|done]. by destruct s as [? ? ? ? ? ? ? ? ? []]. Qed.

Lemma hostile_resolve rec rtype s :
  hostile_state s →
  ∃ s', hostile_state s' ∧
    resolver_resolve_with_ad rec true [120] rtype 1 s = resolve_fresh rec true 0 hostile_zone rtype 1 s'.
Proof.
  intros (n & m & k & mx & h & ms & nsc & st & rtt & health & pool & sp & ->).
  eexists. split; [|reflexivity]. by repeat eexists.
Qed.

Lemma hostile_state_new size : hostile_state (resolver_new false true size [] tt).
Proof. by repeat eexists. Qed.

(** A resolution below that does not end. *)
Lemma fresh_diverges rec rtype (s s1 s2 : S0) :
  resolver_resolve_with_ad rec true [120] rtype 1 s = resolve_fresh rec true 0 hostile_zone rtype 1 s1 →
  rec true hostile_zone rtype 1 0%nat true s1 = (Diverge, s2) →
  resolver_resolve_with_ad rec true [120] rtype 1 s = (Diverge, s2).
Proof. intros -> E. unfold resolve_fresh. by rewrite run_bind, run_catch, E. Qed.

Lemma hostile_diverges fuel rtype s :
  rtype ∈ hostile_types → hostile_state s →
  ∃ s', resolve_recursive false fuel true hostile_zone rtype 1 0 true s = (Diverge, s').
Proof.
  revert rtype s. induction fuel as [|fuel IH]; intros rtype s Ht Hs; [by eexists|]. cbn [resolve_recursive].
  unfold resolve_body. rewrite decide_False by (unfold MAX_CNAME_DEPTH; lia).
  change (count_labels hostile_zone) with 1%nat.
  destruct (hostile_uncached s Hs) as (s1 & E1 & Hs1). rewrite (bind_step _ _ _ _ _ E1). cbn zeta.
  change MAX_ITERATIONS with (S 31). cbn [iterate]. set (rec := resolve_recursive false fuel) in *.
  assert (Hit : ∃ s', iteration false rec true hostile_zone rtype 1 0 1 initial_root_addrs 1 s1 = (Diverge, s')).
  { unfold iteration. rewrite decide_False by done. rewrite (decide_False (P:=(1 < 1)%nat)) by lia.
    rewrite (bind_step _ _ s1 hostile_zone s1) by done.
    destruct (hostile_random s1 Hs1) as (s2 & E2 & Hs2). rewrite (bind_step _ _ _ _ _ E2).
    destruct (hostile_answer rtype Ht) as (query & Hq & Hr). rewrite Hq, (bind_step _ _ s2 query s2) by done.
    destruct (hostile_query query _ Hr eq_refl s2 Hs2) as (s3 & E3 & Hs3). rewrite (bind_step _ _ _ _ _ E3).
    destruct (hostile_cache_response rtype s3 Hs3) as (s4 & E4 & Hs4). rewrite (bind_step _ _ _ _ _ E4).
    rewrite decide_True by done. unfold validate_negative_dnssec_response.
    rewrite decide_False by (by intros [?|?]). change (labels_to_string _) with [120]. unfold resolve.
    destruct (hostile_resolve rec 48 s4 Hs4) as (s5 & Hs5 & Hrw).
    destruct (IH 48 s5 hostile_keys Hs5) as (s6 & Hdiv). exists s6. cbn zeta.
    rewrite run_bind, run_bind, run_try, run_bind, (fresh_diverges _ _ _ _ _ Hrw Hdiv). done. }
  destruct Hit as (s' & Hit). exists s'. by rewrite run_bind, Hit.
Qed.
End hostile.

(** ** The DNSSEC check on an answer *)

Section validation.
Context `{Crypto}.

(** A signature does not stand in the way: it is good, or it could not be parsed. *)
Definition passes (t : Z) (rrsig : ResourceRecord) (records dnskeys : list ResourceRecord) : Prop :=
  validate_rrset t rrsig records dnskeys = ValidationResult.Secure ∨
  validate_rrset t rrsig records dnskeys = ValidationResult.Indeterminate.

Lemma rrsig_loop_None t i rrsigs records dnskeys :
  rrsig_loop (λ _, t) i rrsigs records dnskeys = None ↔
  Forall (λ r, passes t r records dnskeys) rrsigs.
Proof.
  revert i. induction rrsigs as [|r rrsigs IH]; intros i; cbn [rrsig_loop]; [done|].
  rewrite Forall_cons, <-(IH (S i)). unfold passes.
  destruct (validate_rrset t r records dnskeys); naive_solver.
Qed.

Lemma rrsig_loop_bogus now i rrsigs records dnskeys other :
  rrsig_loop now i rrsigs records dnskeys = Some other →
  ∃ reason, other = ValidationResult.Bogus reason.
Proof.
  revert i. induction rrsigs as [|r rrsigs IH]; intros i; cbn [rrsig_loop]; [done|].
  unfold validate_rrset at 1.
  destruct (rr_parsed r) as [[]|]; try apply IH.
  destruct (negb _); [intros [= <-]; eauto|].
  destruct (some_key_verifies _ _ _ _ _); [apply IH|intros [= <-]; eauto].
Qed.

Lemma rrsig_loop_unparsed now i rrsigs records dnskeys :
  Forall (λ r, is_RRSIG r = false) rrsigs → rrsig_loop now i rrsigs records dnskeys = None.
Proof.
  intros Hall. revert i. induction Hall as [|r rrsigs Hr Hall IH]; intros i; cbn [rrsig_loop]; [done|].
  unfold validate_rrset. unfold is_RRSIG in Hr. destruct (rr_parsed r) as [[]|]; try done; apply IH.
Qed.

Lemma validate_dnssec_unparsed now records rrsigs dnskeys :
  rrsigs ≠ [] → dnskeys ≠ [] → (∀ r, r ∈ rrsigs → is_RRSIG r = false) →
  validate_dnssec true now records rrsigs dnskeys = ValidationResult.Secure.
Proof.
  intros Hr Hk Hraw. unfold validate_dnssec. cbn [negb]. rewrite decide_False by naive_solver.
  by rewrite !rrsig_loop_unparsed
    by (apply Forall_forall; intros r [_ Hin]%list_elem_of_filter; by apply Hraw).
Qed.
End validation.

(** ** What a response does to the cache *)

Section caching.
Context {C D R : Type → Type} {N : Type} `{LruOps cache_key C} `{LruOps bytes D} `{LruOps IpAddr R} `{Env N}.
Abbreviation St := (RecursiveResolver C D R N).

Lemma use_env_run {A} (f : N → A * N) (s : St) :
  use_env f s = (Ok (f (r_env s)).1, set_env (f (r_env s)).2 s).
Proof. unfold use_env. rewrite run_act. by destruct (f (r_env s)). Qed.

Lemma instant_now_run (s : St) :
  instant_now s = (Ok ((env_clock (r_env s)).1 0%nat), set_env (env_clock (r_env s)).2 s).
Proof. unfold instant_now. by rewrite run_bind, use_env_run. Qed.

Lemma cache_insert_run records (s : St) :
  cache_insert_records records s =
    (Ok (), set_cache (insert_records (r_cache s) (env_clock (r_env s)).1 records)
              (set_env (env_clock (r_env s)).2 s)).
Proof.
  unfold cache_insert_records, use_cache. by rewrite run_bind, use_env_run, run_act.
Qed.

(** What is done with an address does not touch the cache. *)
Lemma use_ns_cache_keeps_cache {A} (f : D (list IpAddr) → A * D (list IpAddr)) (s : St) :
  r_cache (use_ns_cache f s).2 = r_cache s.
Proof. unfold use_ns_cache. rewrite run_act. by destruct (f (r_ns_cache s)). Qed.

Lemma cache_response_one enable_ipv6 h qs r (s s' : St) :
  rr_rtype r ≠ 41 → rr_rtype r ≠ 46 → rr_rtype r ≠ 48 →
  cache_response enable_ipv6 (mkMessage h qs [] [] [r]) s = (Ok (), s') →
  r_cache s' = insert (r_cache s) (env_clock (r_env s)).1 (rr_name r) (rr_rtype r) (rr_rclass r)
                 (rr_ttl r) (rr_rdata r) (rr_rdlength r).
Proof.
  intros H41 H46 H48. unfold cache_response. rewrite !run_with_lock.
  cbn [m_answers m_authorities m_additionals app cache_records]. unfold cache_record.
  rewrite (decide_True (P:=rr_rtype r ≠ 41 ∧ rr_rtype r ≠ 46 ∧ rr_rtype r ≠ 48)) by (by split_and!).
  rewrite !run_bind, cache_insert_run. set (s1 := set_cache _ _).
  change (insert _ _ _ _ _ _ _ _) with (r_cache s1). clearbody s1.
  case_decide; [|by intros [= <-]]. destruct (rr_ip enable_ipv6 r) as [ip|]; [|by intros [= <-]].
  rewrite run_bind. pose proof (use_ns_cache_keeps_cache (lru_get (rr_name r)) s1) as Hget.
  destruct (use_ns_cache (lru_get (rr_name r)) s1) as [[found| | |] s2]; try done. cbn [snd] in Hget.
  case_decide; [by intros [= <-]|]. set (put := λ nc, _).
  pose proof (use_ns_cache_keeps_cache put s2) as Hput.
  destruct (use_ns_cache put s2) as [[[]| | |] s3]; try done. cbn [snd] in Hput. intros [= <-]. congruence.
Qed.

Lemma cache_lookup_found (s : St) t name rtype rclass found :
  (env_clock (r_env s)).1 = (λ _, t) →
  (lookup_cache (r_cache s) (λ _, t) name rtype rclass).1 = Some found →
  ∃ s', cache_lookup name rtype rclass s = (Ok (Some found), s').
Proof.
  intros Hclk Hl. unfold cache_lookup, use_cache. rewrite run_bind, use_env_run, run_act, Hclk.
  cbn [r_cache set_env]. destruct (lookup_cache _ _ _ _ _) as [r c]. cbn [fst] in Hl. subst r. by eexists.
Qed.
End caching.

(** ** Properties *)

Section dnssec_properties.
Context `{Crypto}.

(** C24: with DNSSEC on, a resolution may never end: in a zone that answers every query with
    NXDOMAIN, an SOA record and any signature, the keys of the zone are asked for, that query
    is denied with another signature, and so on.  However many nested calls are allowed, a
    fresh resolver needs more, for addresses and for keys. *)
Theorem resolution_may_not_end fuel rtype size :
  rtype ∈ hostile_types →
  (resolve_recursive false fuel true hostile_zone rtype 1 0 true
     (resolver_new false true size [] tt : S0)).1 = Diverge ∧
  (Resolver.resolve_with_ad false true fuel [120] rtype 1
     (resolver_new false true size [] tt : S0)).1 = Diverge.
Proof.
  intros Ht. pose proof (hostile_state_new size) as Hs. split.
  { by destruct (hostile_diverges fuel rtype _ Ht Hs) as (s' & ->). }
  unfold Resolver.resolve_with_ad.
  destruct (hostile_resolve (resolve_recursive false fuel) rtype _ Hs) as (s1 & Hs1 & Hrw).
  destruct (hostile_diverges fuel rtype s1 Ht Hs1) as (s2 & Hdiv).
  by rewrite (fresh_diverges _ _ _ _ _ Hrw Hdiv).
Qed.

(** C25: the check of an answer gives Secure exactly when DNSSEC is on, there are signatures and
    keys, and no signature fails: those over keys against the keys, all others against the
    answer.  Which records a signature covers plays no part, and one that could not be parsed
    does not fail. *)
Theorem validate_dnssec_spec dnssec_ok t records rrsigs dnskeys :
  (validate_dnssec dnssec_ok (λ _, t) records rrsigs dnskeys = ValidationResult.Secure ↔
   dnssec_ok = true ∧ rrsigs ≠ [] ∧ dnskeys ≠ [] ∧
   ∀ r, r ∈ rrsigs →
     passes t r (if decide (rrsig_type_covered r = Some 48) then dnskeys else records) dnskeys) ∧
  (validate_dnssec dnssec_ok (λ _, t) records rrsigs dnskeys = ValidationResult.Indeterminate ↔
   dnssec_ok = false ∨ rrsigs = [] ∨ dnskeys = []) ∧
  validate_dnssec dnssec_ok (λ _, t) records rrsigs dnskeys ≠ ValidationResult.Insecure.
Proof.
  unfold validate_dnssec. destruct dnssec_ok; cbn [negb]; [|naive_solver].
  case_decide as Hempty; [naive_solver|].
  set (others := filter (λ r, rrsig_type_covered r ≠ Some 48) rrsigs).
  set (keys := filter (λ r, rrsig_type_covered r = Some 48) rrsigs).
  assert (Hall : (∀ r, r ∈ rrsigs → passes t r
            (if decide (rrsig_type_covered r = Some 48) then dnskeys else records) dnskeys) ↔
          Forall (λ r, passes t r records dnskeys) others ∧
          Forall (λ r, passes t r dnskeys dnskeys) keys).
  { rewrite !Forall_forall. subst others keys. setoid_rewrite list_elem_of_filter. split.
    - intros Hp. split; intros r [Hc Hr]; specialize (Hp r Hr); by case_decide.
    - intros [Ho Hk] r Hr. case_decide; auto. }
  rewrite Hall. clear Hall.
  rewrite <-(rrsig_loop_None t 0), <-(rrsig_loop_None t (length others)).
  pose proof (rrsig_loop_bogus (λ _, t) 0 others records dnskeys) as Ho.
  pose proof (rrsig_loop_bogus (λ _, t) (length others) keys dnskeys dnskeys) as Hk.
  destruct (rrsig_loop _ _ others _ _) as [[]|], (rrsig_loop _ _ keys _ _) as [[]|]; naive_solver.
Qed.
End dnssec_properties.

Section properties.
Context {C D R : Type → Type} {N : Type} `{LruLaws cache_key C} `{LruOps bytes D} `{LruOps IpAddr R} `{Env N} `{Crypto}.
Abbreviation St := (RecursiveResolver C D R N).

(** a response can put any record into the cache: nothing relates the names of its records
    to the question or to the zone of the server.  A record in the additional section of any
    message, of a type that is cached and with data that is new, is what a client that asks for
    its name gets until its TTL is over, without a query to the servers of that name.  The clock
    is read once at the start of the resolution and then for the lookup. *)
Theorem cache_takes_any_record enable_ipv6 dnssec_ok rec h qs r (s s' : St) T t t' name :
  cache_ok T (r_cache s) → is_u32 (rr_ttl r) → 0 < rr_ttl r →
  rr_rtype r ≠ 41 → rr_rtype r ≠ 46 → rr_rtype r ≠ 48 →
  (∀ es, lru_peek (rr_name r, rr_rtype r, rr_rclass r) (c_entries (r_cache s)) = Some es →
     rr_rdata r ∉ entry_rdata <$> es) →
  (env_clock (r_env s)).1 = (λ _, t) → (env_clock (env_clock (r_env s')).2).1 = (λ _, t') →
  t ≤ t' < t + Z.min (rr_ttl r) 86400 * SEC →
  encode_domain_name name = Ok (rr_name r) →
  cache_response enable_ipv6 (mkMessage h qs [] [] [r]) s = (Ok (), s') →
  ∃ records s'',
    resolver_resolve_with_ad (C:=C) (D:=D) (R:=R) rec dnssec_ok name (rr_rtype r) (rr_rclass r) s' =
      (Ok (records, false), s'') ∧
    mkRR (rr_name r) (rr_rtype r) (rr_rclass r)
      ((t + Z.min (rr_ttl r) 86400 * SEC - t') / SEC) (rr_rdlength r) (rr_rdata r) None ∈ records.
Proof.
  intros Hok Hu Hpos H41 H46 H48 Hnew Hclk Hclk' Ht Hname Hresp.
  apply cache_response_one in Hresp; [|done..]. rewrite Hclk in Hresp.
  destruct (insert_lookup_found (r_cache s) t t' (rr_name r) (rr_rtype r) (rr_rclass r) (rr_ttl r)
              (rr_rdata r) (rr_rdlength r) T Hok Hu Hpos Ht Hnew) as (recs & ttl & Hl & Hin).
  rewrite <-Hresp in Hl. unfold resolver_resolve_with_ad.
  rewrite run_bind, instant_now_run. set (s1 := set_env _ s'). rewrite Hname, (bind_step _ _ s1 (rr_name r) s1) by done.
  destruct (cache_lookup_found s1 t' (rr_name r) (rr_rtype r) (rr_rclass r) (recs, ttl) Hclk' Hl)
    as [s2 Hs2].
  assert (Hc : ∃ s3, resolve_cached name (rr_name r) (rr_rtype r) (rr_rclass r) s1 = (Ok (Some recs), s3)).
  { unfold resolve_cached. rewrite run_with_lock, (bind_step _ _ _ _ _ Hs2), run_bind, run_with_lock.
    case_decide; by eexists. }
  destruct Hc as [s3 Hs3]. rewrite (bind_step _ _ _ _ _ Hs3). by eexists _, _.
Qed.
(** C29: an answer gets the AD flag without a signature that verifies: it is enough that the
    message holds a key and an RRSIG record whose data does not parse and does not begin with
    the type of keys. *)
Theorem ad_bit_forged rec name total_labels rtype rclass nameservers msg direct (s : St) :
  rtype ≠ 46 → rtype ≠ 48 → rtype ≠ 43 →
  of_type 48 (m_answers msg ++ m_authorities msg) ≠ [] →
  of_type 46 (m_answers msg ++ m_authorities msg) ≠ [] →
  (∀ r, r ∈ of_type 46 (m_answers msg ++ m_authorities msg) →
     is_RRSIG r = false ∧ rrsig_type_covered r ≠ Some 48) →
  ∃ s', check_answer rec true name total_labels rtype rclass nameservers msg direct s = (Ok true, s').
Proof.
  intros H46 H48 H43. unfold check_answer.
  rewrite (bool_decide_eq_true_2 (rtype ≠ 46 ∧ rtype ≠ 48 ∧ rtype ≠ 43)) by (by split_and!).
  cbn [andb]. set (dnskeys := of_type 48 _). set (rrsigs := of_type 46 _). intros Hk Hs Hraw.
  unfold rd1_fallback. rewrite decide_False by naive_solver.
  rewrite (bind_step _ _ s (rrsigs, dnskeys) s) by done. cbn [fst snd].
  unfold resolve_dnskeys. rewrite decide_False by naive_solver.
  rewrite (bind_step _ _ s (rrsigs, dnskeys) s) by done. cbn [fst snd].
  assert (Hverdict : ∃ s', dnssec_verdict name total_labels rclass direct rrsigs dnskeys s = (Ok true, s')).
  { unfold dnssec_verdict. rewrite run_bind, use_env_run.
    rewrite validate_dnssec_unparsed; [by eexists|done..|]. intros r Hr. by apply Hraw. }
  destruct Hverdict as (s' & Hv). rewrite (bind_step _ _ _ _ _ Hv). exists s'. unfold check_chain.
  rewrite (filter_none (λ r, rrsig_type_covered r = Some 48))
    by (apply Forall_forall; intros r Hr; by apply Hraw).
  by destruct dnskeys.
Qed.
End properties.

(** ** Concrete cases *)

#[local] Existing Instance toy_crypto.

Lemma resolution_may_not_end_witness :
  (Resolver.resolve_with_ad false true 1000 [120] 1 1 (resolver_new false true 100 [] tt : S0)).1 = Diverge.
Proof.
  refine (proj2 (resolution_may_not_end 1000 1 100 _)). unfold hostile_types. rewrite !elem_of_cons. auto.
Defined.

(** An address for "x", in the additional section of a message about anything. *)
Lemma cache_takes_any_record_witness :
  ∃ records s'',
    resolver_resolve_with_ad (C:=C0) (D:=D0) (R:=R0) (resolve_recursive false 12) true [120] 1 1
      (cache_response false
         (mkMessage (hostile_header 7) [] [] [] [mkRR hostile_zone 1 1 300 4 [6; 6; 6; 6] None])
         (resolver_new false true 100 [] tt)).2 = (Ok (records, false), s'') ∧
    mkRR hostile_zone 1 1 300 4 [6; 6; 6; 6] None ∈ records.
Proof.
  refine (cache_takes_any_record false true (resolve_recursive false 12) (hostile_header 7) []
            (mkRR hostile_zone 1 1 300 4 [6; 6; 6; 6] None) (resolver_new false true 100 [] tt : S0) _ 0 0 0
            [120] _ _ _ _ _ _ _ _ _ _ _ _);
    [apply cache_ok_new; apply Nat.ltb_lt; by vm_compute|cbn [rr_ttl]; width|done..| |done|].
  - cbn [rr_ttl]. unfold SEC. lia.
  - by vm_compute.
Defined.

(** Any address is taken for authenticated next to a key and an RRSIG of one byte. *)
Lemma ad_bit_forged_witness :
  let key := mkRR hostile_zone 48 1 300 4 [1; 0; 3; 8] (Some (RData.DNSKEY 256 3 8 [])) in
  let rrsig := mkRR hostile_zone 46 1 300 1 [9] None in
  let forged := mkRR hostile_zone 1 1 300 4 [6; 6; 6; 6] (Some (RData.A [6; 6; 6; 6])) in
  ∃ s', check_answer (resolve_recursive false 12) true hostile_zone 1 1 1 [V4 [10; 0; 0; 1]]
      (mkMessage (hostile_header 7) [] [forged; key; rrsig] [] []) [forged]
      (resolver_new false true 100 [] tt : S0) = (Ok true, s').
Proof.
  cbn zeta. apply ad_bit_forged; [done..|].
  intros r Hr. cbn in Hr. apply list_elem_of_singleton in Hr as ->. split; [done|]. by vm_compute.
Defined.
