(* ===== verification/Validation.v ===== *)
(** * Validation over the network (src/dnssec/mod.rs, lines 129-523 and 602-754)

    [validate_response]: the signatures of a response, the keys of their
    signers, fetched through the cache and by UDP, and the walk up the chain
    of trust to the pinned keys of the root.

    The operations share the cache, the counters and the network: they are
    written in the monad [RM] over [ValidationCtx].  The walk takes fuel for
    its depth, of which twelve levels are enough. *)

From stdpp Require Import gmap strings.
From S2P Require Import Prelude Constants Str Types Names NameCodec Rdata Message Async Lru Cache RootHints.
From S2P Require Import Upstream Exchange Dnssec Denial Resolution.
#[local] Open Scope Z_scope.

(** ** The world outside *)

Definition SocketAddr : Type := IpAddr * Z.

(** What a socket gives: a datagram, an error of [bind], [send_to] or [recv_from], or nothing,
    for which [recv_from] waits. *)
Inductive received :=
  | Datagram (data : bytes)
  | Failed
  | Nothing.

Class Net (N : Type) := {
  net_instant : N → (nat → Z) * N;
  net_wall : N → (nat → Z) * N;
  net_random : N → Z * N;
  net_exchange : SocketAddr → bytes → N → received * N;
  (** [str::to_lowercase] on UTF-8, of which only the ASCII part is fixed here. *)
  net_lowercase : str → str;
  net_lowercase_ascii s : Forall (λ c, 0 <= c < 128) s → net_lowercase s = ascii_lower s;
}.

(** ** Data *)

Record ValidationStats := mkVStats {
  dnskey_cache_hits : Z;
  dnskey_fetches : Z;
  ds_cache_hits : Z;
  ds_fetches : Z;
  elapsed_ms : Z;
}.

(** The shared state of [ValidationCtx]; the hints and the anchors are arguments, and the
    empty [SrttCache] is left out. *)
Record ValidationCtx (C : Type → Type) (N : Type) := mkCtx {
  v_cache : DnsCache C;
  v_stats : ValidationStats;
  v_env : N;
}.
Arguments mkCtx {C N}.
Arguments v_cache {C N}.
Arguments v_stats {C N}.
Arguments v_env {C N}.

Inductive RrsetVerdict := RrsetVerified | RrsetBogus.
Inductive RrsigOutcome := RrsigVerified | RrsigChainBogus | NoMatchingKey.
Inductive KeyOutcome := KeyVerified | KeyChainBogus | KeySkip.

Definition is_DNSKEY (r : ResourceRecord) : bool :=
  match rr_parsed r with Some (RData.DNSKEY _ _ _ _) => true | _ => false end.
Definition is_DS (r : ResourceRecord) : bool :=
  match rr_parsed r with Some (RData.DS _ _ _ _) => true | _ => false end.

Section validation.
Context {C : Type → Type} {N : Type} `{LruOps cache_key C} `{Net N} `{Crypto}.

Abbreviation St := (ValidationCtx C N).

Definition v_use_cache {A} (f : DnsCache C → A * DnsCache C) : RM St A :=
  act (λ s, let '(a, c) := f (v_cache s) in (a, mkCtx c (v_stats s) (v_env s))).
Definition v_use_stats (f : ValidationStats → ValidationStats) : RM St unit :=
  act (λ s, ((), mkCtx (v_cache s) (f (v_stats s)) (v_env s))).
Definition v_stats_now : RM St ValidationStats := act (λ s, (v_stats s, s)).
Definition v_use_env {A} (f : N → A * N) : RM St A :=
  act (λ s, let '(a, n) := f (v_env s) in (a, mkCtx (v_cache s) (v_stats s) n)).

(** The wall clock of one check. *)
Definition wall_now : RM St Z := wall ← v_use_env net_wall; mret (wall 0%nat).

(** ** Fetching *)

Definition udp_query (query_bytes : bytes) (server : SocketAddr) (expected_id : Z)
    : RM St (option Message) :=
  r ← v_use_env (net_exchange server query_bytes);
  match r with
  | Failed => mret None
  | Nothing => lift Diverge
  | Datagram data =>
    let data := take 8192 data in
    if decide (2 <= length data)%nat then
      if decide (be16 (nth 0 data 0) (nth 1 data 0) = expected_id)
      then lift (outcome_ok (decode_message data)) else mret None
    else mret None
  end.

Definition build_query (name : str) (rtype rclass : Z) : RM St (option bytes) :=
  encoded ← try (lift (encode_domain_name name));
  match encoded with
  | None => mret None
  | Some encoded =>
    id ← v_use_env net_random;
    let opt := OptRecord_new true in
    let opt := mkOptRecord 4096 (o_ext_rcode opt) (o_edns_version opt) (o_dnssec_ok opt) (o_options opt) in
    lift (outcome_ok (encode_message
      (mkMessage (Header_new_query id false) [mkQuestion encoded rtype rclass] [] []
         [OptRecord_to_resource_record opt])))
  end.

(** The loop over the servers, one after the other. *)
Fixpoint query_loop (query_bytes : bytes) (expected_id rtype : Z) (servers : list SocketAddr)
    : RM St (list ResourceRecord) :=
  match servers with
  | [] => mret []
  | server :: servers =>
    msg ← udp_query query_bytes server expected_id;
    match msg with
    | Some msg =>
      let records := filter (λ r, rr_rtype r = rtype) (m_answers msg) in
      if decide (records ≠ []) then mret records
      else query_loop query_bytes expected_id rtype servers
    | None => query_loop query_bytes expected_id rtype servers
    end
  end.

Definition query_rtype (zone : str) (rtype rclass : Z) (servers : list SocketAddr)
    : RM St (list ResourceRecord) :=
  query_bytes ← build_query zone rtype rclass;
  match query_bytes with
  | None => mret []
  | Some query_bytes =>
    let expected_id := be16 (nth 0 query_bytes 0) (nth 1 query_bytes 0) in
    query_loop query_bytes expected_id rtype servers
  end.

(** The body that [fetch_dnskeys] and [fetch_ds] share, with what each counts. *)
Definition fetch (rtype : Z) (count_fetch count_hit : ValidationStats → ValidationStats)
    (zone : str) (root_hints : list SocketAddr) : RM St (list ResourceRecord) :=
  encoded ← try (lift (encode_domain_name zone));
  found ← (match encoded with
           | Some encoded =>
             clk ← v_use_env net_instant; v_use_cache (λ c, lookup_cache c clk encoded rtype 1)
           | None => mret None
           end);
  match found with
  | Some (records, _) => mret records
  | None =>
    _ ← v_use_stats count_fetch;
    records ← query_rtype zone rtype 1 root_hints;
    if decide (records ≠ [] ∧ is_Some encoded) then
      clk ← v_use_env net_instant;
      _ ← v_use_cache (λ c, ((), insert_records c clk records));
      _ ← v_use_stats count_hit;
      mret records
    else mret records
  end.

Definition count_dnskey_fetch (s : ValidationStats) : ValidationStats :=
  mkVStats (dnskey_cache_hits s) (u16 (dnskey_fetches s + 1)) (ds_cache_hits s) (ds_fetches s) (elapsed_ms s).
Definition count_dnskey_hit (s : ValidationStats) : ValidationStats :=
  mkVStats (u16 (dnskey_cache_hits s + 1)) (dnskey_fetches s) (ds_cache_hits s) (ds_fetches s) (elapsed_ms s).
Definition count_ds_fetch (s : ValidationStats) : ValidationStats :=
  mkVStats (dnskey_cache_hits s) (dnskey_fetches s) (ds_cache_hits s) (u16 (ds_fetches s + 1)) (elapsed_ms s).
Definition count_ds_hit (s : ValidationStats) : ValidationStats :=
  mkVStats (dnskey_cache_hits s) (dnskey_fetches s) (u16 (ds_cache_hits s + 1)) (ds_fetches s) (elapsed_ms s).

Definition fetch_dnskeys : str → list SocketAddr → RM St (list ResourceRecord) :=
  fetch 48 count_dnskey_fetch count_dnskey_hit.
Definition fetch_ds : str → list SocketAddr → RM St (list ResourceRecord) :=
  fetch 43 count_ds_fetch count_ds_hit.

(** ** The chain of trust *)

(** A check of the signatures of an RRset, at the time it is made. *)
Definition check_rrset_signed (records : list ResourceRecord) (rrset_type : Z)
    (signing_keys : list ResourceRecord) : RM St bool :=
  now ← wall_now; mret (verify_rrset_signed now records rrset_type signing_keys).

Fixpoint validate_chain (fuel : nat) (zone : str) (zone_records : list ResourceRecord)
    (root_hints : list SocketAddr) (trust_anchors : list ResourceRecord) (depth : Z)
    : RM St DnssecStatus.t :=
  match fuel with
  | O => lift Diverge
  | S fuel =>
    let zone_dnskeys := filter (λ r, is_DNSKEY r = true) zone_records in
    if decide (MAX_CHAIN_DEPTH < depth) then mret DnssecStatus.Indeterminate else
    let anchor_present := existsb (λ dk, existsb (λ ta, same_dnskey dk ta) trust_anchors) zone_dnskeys in
    if anchor_present then
      ok ← check_rrset_signed zone_records 48 trust_anchors;
      mret (if (ok : bool) then DnssecStatus.Secure else DnssecStatus.Bogus)
    else if decide (zone = [DOT] ∨ zone = []) then mret DnssecStatus.Indeterminate else
    let parent := parent_zone_str zone in
    ds_response ← fetch_ds zone root_hints;
    let ds_records := filter (λ r, is_DS r = true) ds_response in
    if decide (ds_records = []) then mret DnssecStatus.Insecure else
    let ds_authenticated_ksks := filter (λ dk, existsb (λ ds, verify_ds ds dk zone) ds_records = true) zone_dnskeys in
    if decide (ds_authenticated_ksks = []) then mret DnssecStatus.Bogus else
    ok ← check_rrset_signed zone_records 48 ds_authenticated_ksks;
    if negb ok then mret DnssecStatus.Bogus else
    parent_records ← fetch_dnskeys parent root_hints;
    if decide (parent_records = []) then mret DnssecStatus.Indeterminate else
    parent_status ← validate_chain fuel parent parent_records root_hints trust_anchors (depth + 1);
    if decide (parent_status ≠ DnssecStatus.Secure) then mret parent_status else
    ok ← check_rrset_signed ds_response 43 parent_records;
    mret (if (ok : bool) then DnssecStatus.Secure else DnssecStatus.Bogus)
  end.

(** ** The signatures of a response *)

Definition try_verify_with_key (fuel : nat) (dk rrsig : ResourceRecord) (rrset : list ResourceRecord)
    (signer_name : str) (dnskey_response : list ResourceRecord) (root_hints : list SocketAddr)
    : RM St KeyOutcome :=
  now ← wall_now;
  if negb (rrsig_verified_by now rrsig dk rrset) then mret KeySkip else
  chain_status ← validate_chain fuel signer_name dnskey_response root_hints TRUST_ANCHORS 0;
  mret (match chain_status with
        | DnssecStatus.Secure => KeyVerified
        | DnssecStatus.Bogus => KeyChainBogus
        | _ => KeySkip
        end).

(** The loop over the keys. *)
Fixpoint key_loop (fuel : nat) (dnskeys : list ResourceRecord) (rrsig : ResourceRecord)
    (rrset : list ResourceRecord) (signer_name : str) (dnskey_response : list ResourceRecord)
    (root_hints : list SocketAddr) : RM St RrsigOutcome :=
  match dnskeys with
  | [] => mret NoMatchingKey
  | dk :: dnskeys =>
    outcome ← try_verify_with_key fuel dk rrsig rrset signer_name dnskey_response root_hints;
    match outcome with
    | KeyVerified => mret RrsigVerified
    | KeyChainBogus => mret RrsigChainBogus
    | KeySkip => key_loop fuel dnskeys rrsig rrset signer_name dnskey_response root_hints
    end
  end.

Definition try_verify_rrsig (fuel : nat) (rrsig : ResourceRecord) (rrset : list ResourceRecord)
    (root_hints : list SocketAddr) : RM St RrsigOutcome :=
  match rr_parsed rrsig with
  | Some (RData.RRSIG _ _ _ _ _ _ _ signer_name _) =>
    dnskey_response ← fetch_dnskeys (labels_to_string signer_name) root_hints;
    let dnskeys := filter (λ r, is_DNSKEY r = true) dnskey_response in
    if decide (dnskeys = []) then mret NoMatchingKey
    else key_loop fuel dnskeys rrsig rrset (labels_to_string signer_name) dnskey_response root_hints
  | _ => mret NoMatchingKey
  end.

Fixpoint verify_rrset (fuel : nat) (rrset matching_rrsigs : list ResourceRecord)
    (root_hints : list SocketAddr) : RM St RrsetVerdict :=
  match matching_rrsigs with
  | [] => mret RrsetBogus
  | rrsig :: matching_rrsigs =>
    outcome ← try_verify_rrsig fuel rrsig rrset root_hints;
    match outcome with
    | RrsigVerified => mret RrsetVerified
    | RrsigChainBogus => mret RrsetBogus
    | NoMatchingKey => verify_rrset fuel rrset matching_rrsigs root_hints
    end
  end.

Definition rrsig_matches (name : bytes) (qtype : Z) (r : ResourceRecord) : bool :=
  match rr_parsed r with
  | Some (RData.RRSIG type_covered _ _ _ _ _ _ signer_name _) =>
    bool_decide (signer_name = name) && bool_decide (type_covered = qtype)
  | _ => false
  end.

Definition matching_rrsigs_for (all_rrsigs : list ResourceRecord) (name : bytes) (qtype : Z)
    : list ResourceRecord :=
  filter (λ r, rrsig_matches name qtype r = true) all_rrsigs.

(** The signers in lower case, each once. *)
Fixpoint signer_zones (all_rrsigs : list ResourceRecord) (zones : list str) : list str :=
  match all_rrsigs with
  | [] => zones
  | r :: all_rrsigs =>
    match rr_parsed r with
    | Some (RData.RRSIG _ _ _ _ _ _ _ signer_name _) =>
      let lower := net_lowercase (labels_to_string signer_name) in
      signer_zones all_rrsigs (if decide (lower ∈ zones) then zones else zones ++ [lower])
    | _ => signer_zones all_rrsigs zones
    end
  end.

Fixpoint prefetch_loop (zones : list str) (root_hints : list SocketAddr) : RM St unit :=
  match zones with
  | [] => mret ()
  | zone :: zones => _ ← fetch_dnskeys zone root_hints; prefetch_loop zones root_hints
  end.

Definition prefetch_signer_dnskeys (all_rrsigs : list ResourceRecord) (root_hints : list SocketAddr)
    : RM St unit :=
  prefetch_loop (signer_zones all_rrsigs []) root_hints.

(** The loop over the RRsets: whether none is Bogus. *)
Fixpoint rrsets_loop (fuel : nat) (all_rrsigs : list ResourceRecord)
    (rrsets : list (bytes * Z * list ResourceRecord)) (root_hints : list SocketAddr) : RM St bool :=
  match rrsets with
  | [] => mret true
  | (name, qtype, rrset) :: rrsets =>
    let matching_rrsigs := matching_rrsigs_for all_rrsigs name qtype in
    if decide (matching_rrsigs = []) then rrsets_loop fuel all_rrsigs rrsets root_hints
    else
      verdict ← verify_rrset fuel rrset matching_rrsigs root_hints;
      match verdict with
      | RrsetBogus => mret false
      | RrsetVerified => rrsets_loop fuel all_rrsigs rrsets root_hints
      end
  end.

Definition finish (start : Z) (status : DnssecStatus.t) : RM St (DnssecStatus.t * ValidationStats) :=
  clk ← v_use_env net_instant;
  let elapsed := u64 (duration_since (clk 0%nat) start / 1000000) in
  st ← v_stats_now;
  mret (status, mkVStats (dnskey_cache_hits st) (dnskey_fetches st) (ds_cache_hits st)
                  (ds_fetches st) elapsed).

(** What a response without answers proves. *)
Definition denial_status (response : Message) (all_rrsigs : list ResourceRecord) : RM St DnssecStatus.t :=
  let '(qname, qtype_num) :=
    match m_questions response with q :: _ => (q_name q, q_type q) | [] => ([0], 0) end in
  let is_nxdomain := bool_decide (h_rcode (m_header response) = 3) in
  now ← wall_now;
  clk ← v_use_env net_instant;
  v_use_cache (validate_denial now (λ i j, clk (i + j)%nat) (m_authorities response) all_rrsigs
                 (labels_to_string qname) qtype_num is_nxdomain).

Definition validate_response (fuel : nat) (response : Message) (root_hints : list SocketAddr)
    : RM St (DnssecStatus.t * ValidationStats) :=
  clk ← v_use_env net_instant;
  let start := clk 0%nat in
  let all_rrsigs := filter (λ r, is_RRSIG r = true)
                      (m_answers response ++ m_authorities response ++ m_additionals response) in
  if decide (all_rrsigs = []) then finish start DnssecStatus.Insecure else
  _ ← prefetch_signer_dnskeys all_rrsigs root_hints;
  let rrsets := group_rrsets (m_answers response) in
  ok ← rrsets_loop fuel all_rrsigs rrsets root_hints;
  if negb ok then finish start DnssecStatus.Bogus else
  if decide (rrsets = []) then
    denial ← denial_status response all_rrsigs;
    finish start denial
  else finish start DnssecStatus.Secure.
End validation.

(** ** Specification: the chain of trust *)

Section trust.
Context `{Crypto}.

(** The records of a zone are trusted: they hold a pinned key and a pinned key signs the keys;
    or keys that the DS records of the zone commit to sign the keys, and trusted records of the
    parent sign the DS records. *)
Inductive trusted : str → list ResourceRecord → Prop :=
  | trusted_anchor zone records dk ta now :
    dk ∈ records → ta ∈ TRUST_ANCHORS → same_dnskey dk ta = true →
    verify_rrset_signed now records 48 TRUST_ANCHORS = true →
    trusted zone records
  | trusted_delegation zone records ds_response ksks parent_records now now' :
    ksks ≠ [] →
    (∀ dk, dk ∈ ksks → dk ∈ records ∧ ∃ ds, ds ∈ ds_response ∧ verify_ds ds dk zone = true) →
    verify_rrset_signed now records 48 ksks = true →
    trusted (parent_zone_str zone) parent_records →
    verify_rrset_signed now' ds_response 43 parent_records = true →
    trusted zone records.

End trust.

Section soundness.
Context {C : Type → Type} {N : Type} `{LruOps cache_key C} `{Net N} `{Crypto}.
Abbreviation St := (ValidationCtx C N).

Lemma check_rrset_signed_ok records t keys :
  ensures (check_rrset_signed records t keys : RM St bool)
    (λ ok, ok = true → ∃ now, verify_rrset_signed now records t keys = true).
Proof.
  unfold check_rrset_signed. apply ensures_bind_any. intros now. apply gives_ret. by exists now.
Qed.

Lemma validate_chain_sound fuel zone records root_hints depth :
  ensures (validate_chain fuel zone records root_hints TRUST_ANCHORS depth : RM St _)
    (λ status, status = DnssecStatus.Secure → trusted zone records).
Proof.
  revert zone records depth. induction fuel as [|fuel IH]; intros zone records depth;
    cbn [validate_chain]; [by apply gives_lift|]. cbn zeta.
  case_decide; [by apply gives_ret|].
  destruct (existsb _ (filter _ records)) eqn:Hanchor.
  { eapply gives_bind; [apply check_rrset_signed_ok|]. intros ok Hok. apply gives_ret.
    destruct ok; [|done]. intros _. destruct Hok as [now Hok]; [done|].
    apply existsb_exists in Hanchor as (dk & Hdk & (ta & Hta & Hsame)%existsb_exists).
    apply list_elem_of_In, list_elem_of_filter in Hdk as [_ Hdk]. apply list_elem_of_In in Hta.
    by eapply trusted_anchor. }
  case_decide; [by apply gives_ret|]. apply ensures_bind_any. intros ds_response.
  case_decide; [by apply gives_ret|].
  set (ksks := filter (λ dk, existsb _ _ = true) _). case_decide as Hksks; [by apply gives_ret|].
  eapply gives_bind; [apply check_rrset_signed_ok|]. intros ok Hok.
  destruct ok; cbn [negb]; [|by apply gives_ret]. destruct Hok as [now Hok]; [done|].
  apply ensures_bind_any. intros parent_records. case_decide; [by apply gives_ret|].
  eapply gives_bind; [apply IH|]. intros status Hparent. case_decide as Hs; [by apply gives_ret|].
  eapply gives_bind; [apply check_rrset_signed_ok|]. intros ok' Hok'. apply gives_ret.
  destruct ok'; [|done]. intros _. destruct Hok' as [now' Hok']; [done|].
  eapply trusted_delegation; [exact Hksks| |exact Hok| |exact Hok'].
  - intros dk (Hv & (_ & Hdk)%list_elem_of_filter)%list_elem_of_filter. split; [done|].
    apply existsb_exists in Hv as (ds & Hds & Hv). exists ds. split; [|done].
    by apply list_elem_of_In, list_elem_of_filter in Hds as [_ ?].
  - apply Hparent. destruct status; first [done|by destruct Hs].
Qed.

End soundness.

(** ** Termination *)

(** A network that answers every query with something other than a packet on which the decoder
    hangs. *)
Class QuietNet (N : Type) `{Net N} : Prop := {
  quiet_exchange server q n : (net_exchange server q n).1 ≠ Nothing;
  quiet_datagram server q n d : (net_exchange server q n).1 = Datagram d →
    halts (decode_message (take 8192 d));
}.

Section ends.
Context {C : Type → Type} {N : Type} `{LruOps cache_key C} `{QuietNet N} `{Crypto}.
Abbreviation St := (ValidationCtx C N).

Lemma v_use_cache_ends {A} (f : DnsCache C → A * DnsCache C) : ends (v_use_cache f : RM St A).
Proof. apply ends_act. Qed.
Lemma v_use_stats_ends f : ends (v_use_stats f : RM St unit).
Proof. apply ends_act. Qed.
Lemma v_stats_now_ends : ends (v_stats_now : RM St _).
Proof. apply ends_act. Qed.
Lemma v_use_env_ends {A} (f : N → A * N) : ends (v_use_env f : RM St A).
Proof. apply ends_act. Qed.
Hint Resolve v_use_cache_ends v_use_stats_ends v_stats_now_ends v_use_env_ends : ends.

Lemma udp_query_ends q server id : ends (udp_query q server id : RM St (option Message)).
Proof.
  unfold udp_query. apply (ends_bind_ensures _ _ (λ r, r ≠ Nothing ∧
    ∀ d, r = Datagram d → halts (decode_message (take 8192 d)))); [auto with ends| |].
  { apply gives_act. intros s _. split; [done|].
    pose proof (quiet_exchange server q (v_env s)) as Hnothing.
    pose proof (quiet_datagram server q (v_env s)) as Hdata. by destruct (net_exchange server q (v_env s)). }
  intros [d| |] [Hnothing Hd]; [|apply ends_ret|done]. cbn zeta. specialize (Hd d eq_refl). ends_steps.
Qed.
Hint Resolve udp_query_ends : ends.

Lemma query_rtype_ends zone rtype rclass servers :
  ends (query_rtype zone rtype rclass servers : RM St (list ResourceRecord)).
Proof.
  unfold query_rtype, build_query. ends_steps.
  induction servers as [|server servers IH]; cbn [query_loop]; ends_steps.
Qed.
Hint Resolve query_rtype_ends : ends.

Lemma fetch_ends rtype f g zone hints : ends (fetch rtype f g zone hints : RM St (list ResourceRecord)).
Proof. unfold fetch. ends_steps. Qed.
Lemma fetch_dnskeys_ends zone hints : ends (fetch_dnskeys zone hints : RM St (list ResourceRecord)).
Proof. apply fetch_ends. Qed.
Lemma fetch_ds_ends zone hints : ends (fetch_ds zone hints : RM St (list ResourceRecord)).
Proof. apply fetch_ends. Qed.
Lemma check_rrset_signed_ends records t keys : ends (check_rrset_signed records t keys : RM St bool).
Proof. unfold check_rrset_signed, wall_now. ends_steps. Qed.
Hint Resolve fetch_dnskeys_ends fetch_ds_ends check_rrset_signed_ends : ends.

Lemma validate_chain_ends fuel zone records hints anchors depth :
  0 <= depth → MAX_CHAIN_DEPTH + 1 < Z.of_nat fuel + depth → (0 < fuel)%nat →
  ends (validate_chain fuel zone records hints anchors depth : RM St DnssecStatus.t).
Proof.
  unfold MAX_CHAIN_DEPTH. revert zone records depth.
  induction fuel as [|fuel IH]; intros zone records depth Hd Hf Hpos; [lia|].
  cbn [validate_chain]. cbn zeta. unfold MAX_CHAIN_DEPTH. case_decide; [done|].
  case_match; [ends_steps|]. case_decide; [done|]. apply ends_bind; [auto with ends|]. intros ds.
  case_decide; [done|]. case_decide; [done|]. apply ends_bind; [auto with ends|]. intros [|]; [|done].
  cbn [negb]. apply ends_bind; [auto with ends|]. intros parent. case_decide; [done|].
  apply ends_bind; [apply IH; lia|]. intros status. ends_steps.
Qed.

Lemma key_loop_ends fuel dnskeys rrsig rrset zone response hints :
  (12 <= fuel)%nat → ends (key_loop fuel dnskeys rrsig rrset zone response hints : RM St RrsigOutcome).
Proof.
  intros Hf. induction dnskeys as [|dk dnskeys IH]; cbn [key_loop]; [done|].
  apply ends_bind; [|intros []; [done|done|exact IH]].
  unfold try_verify_with_key, wall_now. apply ends_bind; [ends_steps|]. intros now.
  case_match; [done|]. apply ends_bind; [|done].
  apply validate_chain_ends; unfold MAX_CHAIN_DEPTH; lia.
Qed.

Lemma verify_rrset_ends fuel rrset rrsigs hints :
  (12 <= fuel)%nat → ends (verify_rrset fuel rrset rrsigs hints : RM St RrsetVerdict).
Proof.
  intros Hf. induction rrsigs as [|rrsig rrsigs IH]; cbn [verify_rrset]; [done|].
  apply ends_bind; [|intros []; [done|done|exact IH]].
  unfold try_verify_rrsig. destruct (rr_parsed rrsig) as [[]|]; try done.
  apply ends_bind; [auto with ends|]. intros response. cbn zeta. case_decide; [done|].
  by apply key_loop_ends.
Qed.

Lemma rrsets_loop_ends fuel all_rrsigs rrsets hints :
  (12 <= fuel)%nat → ends (rrsets_loop fuel all_rrsigs rrsets hints : RM St bool).
Proof.
  intros Hf. induction rrsets as [|[[name qtype] rrset] rrsets IH]; cbn [rrsets_loop]; [done|].
  cbn zeta. case_decide; [done|]. apply ends_bind; [by apply verify_rrset_ends|]. by intros [].
Qed.

Lemma prefetch_loop_ends zones hints : ends (prefetch_loop zones hints : RM St unit).
Proof. induction zones as [|zone zones IH]; cbn [prefetch_loop]; ends_steps. Qed.

Lemma finish_ends start status : ends (finish start status : RM St _).
Proof. unfold finish. cbn zeta. ends_steps. Qed.
Hint Resolve rrsets_loop_ends prefetch_loop_ends finish_ends : ends.

Lemma validate_response_ends fuel response hints :
  (12 <= fuel)%nat → ends (validate_response fuel response hints : RM St _).
Proof.
  intros Hf. unfold validate_response, prefetch_signer_dnskeys, denial_status, wall_now. cbn zeta. ends_steps.
Qed.
End ends.

(** ** What the network and the cache give is never signed

    The queries keep the records of one type and the cache gives back unparsed records: a
    fetched set of keys or DS records holds no signature. *)

(** The datagrams are bytes, and the clock stays below [T]. *)
Class NetWithin (N : Type) `{Net N} (T : Z) : Prop := {
  net_bytes server q n d : (net_exchange server q n).1 = Datagram d → bytes_ok d;
  net_bounded n i : (net_instant n).1 i ≤ T;
}.

Section unsigned.
Context {C : Type → Type} {N : Type} {T : Z} `{LruLaws cache_key C} `{Net N} `{!NetWithin N T} `{Crypto}.
Abbreviation St := (ValidationCtx C N).

(** From a good cache, [c] leads to a good cache and gives a value with [Q]. *)
Abbreviation triple := (gives (λ s : St, cache_ok T (v_cache s))).

Lemma gives_use_env {A} (f : N → A * N) (Q : A → Prop) : (∀ n, Q (f n).1) → triple (v_use_env f) Q.
Proof. intros HQ. apply gives_act. intros s Hs. specialize (HQ (v_env s)). by destruct (f (v_env s)). Qed.
Lemma gives_use_stats f : triple (v_use_stats f) (λ _, True).
Proof. by apply gives_act. Qed.
Lemma gives_wall_now : triple wall_now (λ _, True).
Proof. unfold wall_now. apply gives_then; [by apply gives_use_env|]. intros. by apply gives_ret. Qed.
(** Code that leaves the state alone. *)
Lemma gives_pure {A} (r : DnsResult A) : triple (lift r) (λ _, True).
Proof. by apply gives_lift. Qed.

Definition unsigned (records : list ResourceRecord) : Prop := Forall (λ r, is_RRSIG r = false) records.

Lemma typed_unsigned rtype r : rtype ≠ 46 → rr_typed r → rr_rtype r = rtype → is_RRSIG r = false.
Proof.
  intros Hne (_ & _ & _ & _ & _ & Hp) <-. unfold is_RRSIG. destruct (rr_parsed r) as [[]|]; try done.
  by destruct Hp as [[? _] _].
Qed.

(** Records of one type, fresh from the network. *)
Definition fetched_ok (records : list ResourceRecord) : Prop :=
  unsigned records ∧ Forall (λ r, is_u32 (rr_ttl r)) records.

Lemma fetched_ok_nil : fetched_ok [].
Proof. split; constructor. Qed.
Hint Resolve fetched_ok_nil : core.

Lemma query_loop_unsigned q id rtype servers :
  rtype ≠ 46 → triple (query_loop q id rtype servers) fetched_ok.
Proof.
  intros Hne. induction servers as [|server servers IH]; cbn [query_loop]; [by apply gives_ret|].
  apply (gives_bind _ _ (λ m : option Message, ∀ msg, m = Some msg → message_typed msg)).
  - unfold udp_query. apply (gives_bind _ _ (λ r : received, ∀ d, r = Datagram d → bytes_ok d)).
    { apply gives_use_env. intros n d. apply net_bytes. }
    intros r Hr. destruct r as [d| |]; [|by apply gives_ret|by apply gives_lift].
    repeat case_decide; try by apply gives_ret. apply gives_lift. intros m Hm msg ->.
    apply outcome_ok_inv in Hm. eapply Message_from_bytes_typed; [|exact Hm].
    specialize (Hr d eq_refl). apply Forall_take, Hr.
  - intros [msg|] Hm; [|apply IH]. cbn zeta. case_decide; [|apply IH]. apply gives_ret.
    destruct (Hm msg eq_refl) as (_ & _ & Han & _). rewrite Forall_forall in Han.
    split; apply Forall_forall; intros r [Hr Hin]%list_elem_of_filter.
    + eapply typed_unsigned; eauto.
    + by apply Han in Hin as (_ & _ & _ & ? & _).
Qed.

Lemma fetch_unsigned rtype f g zone hints :
  rtype ≠ 46 → triple (fetch rtype f g zone hints) unsigned.
Proof.
  intros Hne. unfold fetch, query_rtype, build_query.
  apply gives_then; [by apply keeps_try, gives_pure|]. intros encoded.
  apply (gives_bind _ _ (λ found, ∀ records ttl, found = Some (records, ttl) → unsigned records)).
  { destruct encoded as [encoded|]; [|by apply gives_ret].
    apply (gives_bind _ _ (λ clk : nat → Z, ∀ i, clk i ≤ T)); [apply gives_use_env; intros; apply net_bounded|].
    intros clk Hclk. apply gives_act. intros s Hs.
    pose proof (lookup_cache_ok T (v_cache s) clk encoded rtype 1 Hclk Hs) as Hok.
    pose proof (lookup_cache_unparsed T (v_cache s) clk encoded rtype 1) as Hun.
    destruct (lookup_cache _ _ _ _ _) as [found c]. split; [exact Hok|].
    cbn [fst]. intros records ttl ->. eapply Forall_impl; [by eapply Hun|]. intros r Hr. unfold is_RRSIG. by rewrite Hr. }
  intros [[records ttl]|] Hfound; [apply gives_ret; by eapply Hfound|].
  apply gives_then; [apply gives_use_stats|]. intros _.
  apply (gives_bind _ _ fetched_ok).
  { apply gives_then; [|intros [q|]; [by apply query_loop_unsigned|by apply gives_ret]].
    apply gives_then; [by apply keeps_try, gives_pure|]. intros [e|]; [|by apply gives_ret].
    apply gives_then; [by apply gives_use_env|]. intros id. by apply gives_lift. }
  intros records [Huns Httl]. case_decide; [|by apply gives_ret].
  apply (gives_bind _ _ (λ clk : nat → Z, ∀ i, clk i ≤ T)); [apply gives_use_env; intros; apply net_bounded|].
  intros clk Hclk. apply gives_then.
  { apply gives_act. intros s Hs. split; [|done]. by apply insert_records_ok. }
  intros _. apply gives_then; [apply gives_use_stats|]. intros _. by apply gives_ret.
Qed.

(** No walk over unsigned records ends Secure. *)
Lemma check_unsigned records t keys :
  unsigned records → triple (check_rrset_signed records t keys) (λ ok, ok = false).
Proof.
  intros Hu. unfold check_rrset_signed. apply gives_then; [apply gives_wall_now|]. intros now.
  apply gives_ret. unfold verify_rrset_signed. case_decide; [done|]. unfold unsigned in Hu.
  clear -Hu. revert Hu. generalize (filter (λ r, rr_rtype r = t) records). intros rrset Hu.
  induction Hu as [|r records Hr Hu IH]; [done|]. cbn [existsb]. unfold is_RRSIG in Hr.
  by destruct (rr_parsed r) as [[]|].
Qed.

Lemma validate_chain_unsigned fuel zone records hints anchors depth :
  unsigned records →
  triple (validate_chain fuel zone records hints anchors depth) (λ status, status ≠ DnssecStatus.Secure).
Proof.
  intros Hu. destruct fuel as [|fuel]; cbn [validate_chain]; [by apply gives_lift|]. cbn zeta.
  case_decide; [by apply gives_ret|]. case_match.
  { eapply gives_bind; [by apply check_unsigned|]. intros ok ->. by apply gives_ret. }
  case_decide; [by apply gives_ret|]. unfold fetch_ds. apply gives_then.
  { eapply gives_weaken; [by apply fetch_unsigned|done]. }
  intros ds. case_decide; [by apply gives_ret|]. case_decide; [by apply gives_ret|].
  eapply gives_bind; [by apply check_unsigned|]. intros ok ->. by apply gives_ret.
Qed.

Lemma key_loop_unsigned fuel dnskeys rrsig rrset zone response hints :
  unsigned response →
  triple (key_loop fuel dnskeys rrsig rrset zone response hints) (λ o, o ≠ RrsigVerified).
Proof.
  intros Hu. induction dnskeys as [|dk dnskeys IH]; cbn [key_loop]; [by apply gives_ret|].
  apply (gives_bind _ _ (λ o, o ≠ KeyVerified)); [|intros []; [done|intros; by apply gives_ret|done]].
  unfold try_verify_with_key. apply gives_then; [apply gives_wall_now|]. intros now.
  case_match; [by apply gives_ret|]. eapply gives_bind; [by apply validate_chain_unsigned|].
  intros status Hs. apply gives_ret. by destruct status.
Qed.

Lemma verify_rrset_unsigned fuel rrset rrsigs hints :
  triple (verify_rrset fuel rrset rrsigs hints) (λ v, v = RrsetBogus).
Proof.
  induction rrsigs as [|rrsig rrsigs IH]; cbn [verify_rrset]; [by apply gives_ret|].
  apply (gives_bind _ _ (λ o, o ≠ RrsigVerified)); [|intros []; [done|intros; by apply gives_ret|done]].
  unfold try_verify_rrsig. destruct (rr_parsed rrsig) as [[]|]; try by apply gives_ret.
  unfold fetch_dnskeys. eapply gives_bind; [by apply fetch_unsigned|]. intros response Hu. cbn zeta.
  case_decide; [by apply gives_ret|by apply key_loop_unsigned].
Qed.

(** So the loop over the RRsets succeeds exactly when none has a matching signature. *)
Definition some_matched (all_rrsigs : list ResourceRecord)
    (rrsets : list (bytes * Z * list ResourceRecord)) : Prop :=
  ∃ name qtype rrset, (name, qtype, rrset) ∈ rrsets ∧ matching_rrsigs_for all_rrsigs name qtype ≠ [].

Lemma rrsets_loop_unsigned fuel all_rrsigs rrsets hints :
  triple (rrsets_loop fuel all_rrsigs rrsets hints) (λ ok : bool,
    if ok then ¬ some_matched all_rrsigs rrsets else some_matched all_rrsigs rrsets).
Proof.
  induction rrsets as [|[[name qtype] rrset] rrsets IH]; cbn [rrsets_loop].
  { apply gives_ret. by intros (n & q & r & Hin%elem_of_nil & _). }
  cbn zeta. case_decide as Hm.
  - eapply gives_weaken; [apply IH|]. intros [] Hok.
    + intros (n & q & r & [[= -> -> ->]|Hin]%elem_of_cons & Hne); [done|]. apply Hok. by exists n, q, r.
    + destruct Hok as (n & q & r & Hin & Hne). exists n, q, r. split; [by right|done].
  - eapply gives_bind; [apply verify_rrset_unsigned|]. intros v ->. apply gives_ret.
    exists name, qtype, rrset. split; [by left|done].
Qed.

Lemma some_matched_iff all_rrsigs rrsets :
  some_matched all_rrsigs rrsets ↔
  ∃ name qtype rrset r a l o e i k sig, (name, qtype, rrset) ∈ rrsets ∧ r ∈ all_rrsigs ∧
    rr_parsed r = Some (RData.RRSIG qtype a l o e i k name sig).
Proof.
  split.
  - intros (name & qtype & rrset & Hin & Hne).
    destruct (matching_rrsigs_for all_rrsigs name qtype) as [|r rs] eqn:E; [done|].
    assert (Hr : r ∈ matching_rrsigs_for all_rrsigs name qtype) by (rewrite E; by left).
    apply list_elem_of_filter in Hr as [Hm Hr]. unfold rrsig_matches in Hm.
    destruct (rr_parsed r) as [[]|] eqn:Ep; try done.
    apply andb_prop in Hm as [<-%bool_decide_eq_true_1 <-%bool_decide_eq_true_1].
    by repeat eexists.
  - intros (name & qtype & rrset & r & a & l & o & e & i & k & sig & Hin & Hr & Hp).
    exists name, qtype, rrset. split; [done|]. intros Hnil.
    enough (r ∈ matching_rrsigs_for all_rrsigs name qtype) by (rewrite Hnil in *; by eapply elem_of_nil).
    apply list_elem_of_filter. split; [|done]. unfold rrsig_matches. rewrite Hp.
    by rewrite !bool_decide_eq_true_2.
Qed.

Lemma prefetch_loop_triple zones hints : triple (prefetch_loop zones hints) (λ _, True).
Proof.
  induction zones as [|zone zones IH]; cbn [prefetch_loop]; [by apply gives_ret|].
  apply gives_then; [|done]. unfold fetch_dnskeys. eapply gives_weaken; [by apply fetch_unsigned|done].
Qed.

Lemma finish_triple start status : triple (finish start status) (λ r, r.1 = status).
Proof.
  unfold finish. apply gives_then; [by apply gives_use_env|]. intros clk. cbn zeta.
  apply gives_then; [by apply gives_act|]. intros st. by apply gives_ret.
Qed.
End unsigned.

(** ** Properties *)

Section properties.
Context {C : Type → Type} {N : Type} `{LruOps cache_key C} `{Net N} `{Crypto}.
Abbreviation St := (ValidationCtx C N).

(** C30: the walk up the chain of trust is sound: records for which it ends Secure hold a pinned
    root key that signs their keys, or their keys are signed by keys that signed DS records of
    the parent commit to, and so on up to a pinned key. *)
Theorem validate_chain_trusted fuel zone records root_hints depth (s s' : St) :
  validate_chain fuel zone records root_hints TRUST_ANCHORS depth s = (Ok DnssecStatus.Secure, s') →
  trusted zone records.
Proof. intros E. eapply gives_run in E as [_ E]; [|apply validate_chain_sound|done]. by apply E. Qed.

(** Validation ends when every query is answered: twelve levels are enough for the walk, on
    a network that delivers no packet on which the decoder hangs. *)
Theorem validate_response_terminates `{!QuietNet N} fuel response root_hints (s : St) :
  (12 <= fuel)%nat → (validate_response fuel response root_hints s).1 ≠ Diverge.
Proof. intros Hf. by apply ends_run, validate_response_ends. Qed.
End properties.

Section inverted.
Context {C : Type → Type} {N : Type} {T : Z} `{LruLaws cache_key C} `{Net N} `{!NetWithin N T} `{Crypto}.
Abbreviation St := (ValidationCtx C N).

(** C9: validation tells apart the wrong things: without a signature a response is Insecure; an
    answer is Secure exactly when no signature of the response is by the zone of an RRset's own
    name and covers its type, so that nothing is verified at all, and Bogus when one is, however
    good it is: the queries for keys drop the signatures over the keys, and keys from the cache
    are not parsed. *)
Theorem validate_response_inverted fuel response root_hints (s s' : St) status stats :
  let all_rrsigs := filter (λ r, is_RRSIG r = true)
                      (m_answers response ++ m_authorities response ++ m_additionals response) in
  let matched := ∃ name qtype rrset r a l o e i k sig,
    (name, qtype, rrset) ∈ group_rrsets (m_answers response) ∧ r ∈ all_rrsigs ∧
    rr_parsed r = Some (RData.RRSIG qtype a l o e i k name sig) in
  cache_ok T (v_cache s) → group_rrsets (m_answers response) ≠ [] →
  validate_response fuel response root_hints s = (Ok (status, stats), s') →
  (all_rrsigs = [] → status = DnssecStatus.Insecure) ∧
  (all_rrsigs ≠ [] → (status = DnssecStatus.Secure ∧ ¬ matched) ∨
                     (status = DnssecStatus.Bogus ∧ matched)).
Proof.
  intros all_rrsigs matched Hs Hne E.
  set (Q := λ r : DnssecStatus.t * ValidationStats,
    (all_rrsigs = [] → r.1 = DnssecStatus.Insecure) ∧
    (all_rrsigs ≠ [] → (r.1 = DnssecStatus.Secure ∧ ¬ matched) ∨ (r.1 = DnssecStatus.Bogus ∧ matched))).
  enough (HQ : gives (λ s : St, cache_ok T (v_cache s)) (validate_response fuel response root_hints) Q)
    by (by destruct (gives_run _ _ _ _ _ HQ Hs E)).
  unfold validate_response. apply gives_then; [by apply gives_use_env|]. intros clk. cbn zeta.
  fold all_rrsigs. case_decide as Hsig.
  { eapply gives_weaken; [apply finish_triple|]. by intros r Hr. }
  apply gives_then; [apply prefetch_loop_triple|]. intros _.
  eapply gives_bind; [apply rrsets_loop_unsigned|]. intros ok Hok.
  destruct ok; rewrite some_matched_iff in Hok; fold matched in Hok; cbn [negb].
  - rewrite decide_False by done. eapply gives_weaken; [apply finish_triple|]. intros r Hr.
    split; [done|]. by left.
  - eapply gives_weaken; [apply finish_triple|]. intros r Hr. split; [done|]. by right.
Qed.
End inverted.

(** ** Concrete cases *)

Section concrete.

(** A network of which every socket fails. *)
#[local] Instance failing_net : Net unit := {
  net_instant n := (λ _, 0, n);
  net_wall n := (λ _, 1000, n);
  net_random n := (7, n);
  net_exchange _ _ n := (Failed, n);
  net_lowercase := ascii_lower;
  net_lowercase_ascii s _ := eq_refl;
}.
#[local] Instance failing_quiet : QuietNet unit.
Proof. by split. Qed.
#[local] Instance failing_within : NetWithin unit 0.
Proof. by split. Qed.
#[local] Existing Instance toy_crypto.

Abbreviation C0 := (alru cache_key).
Definition fresh_ctx : ValidationCtx C0 unit := mkCtx (with_max_entries 10) (mkVStats 0 0 0 0 0) tt.

(** The pinned keys, and a signature over them that the toy cryptography accepts. *)
Definition root_rrsig (signature : bytes) : ResourceRecord :=
  mkRR [0] 46 1 0 0 []
    (Some (RData.RRSIG 48 8 0 172800 2000 500
             (compute_key_tag ROOT_KSK_FLAGS 3 ROOT_KSK_ALGORITHM ROOT_KSK_2017_PUBLIC_KEY) [0] signature)).
Definition root_records : list ResourceRecord :=
  TRUST_ANCHORS ++ [root_rrsig (build_signed_data (root_rrsig []) TRUST_ANCHORS)].

Lemma validate_chain_trusted_witness : trusted [DOT] root_records.
Proof.
  refine (validate_chain_trusted 1 [DOT] root_records [] 0 fresh_ctx fresh_ctx _). vm_compute. reflexivity.
Defined.

Lemma validate_response_terminates_witness :
  (validate_response 12 (mkMessage (Header_new_response 1 0) [] root_records [] []) [] fresh_ctx).1 ≠ Diverge.
Proof. apply validate_response_terminates. lia. Defined.

(** An address of "a.b", with a signature over something else by "b". *)
Definition forged_response : Message :=
  mkMessage (Header_new_response 1 0) []
    [mkRR [1; 97; 1; 98; 0] 1 1 60 4 [6; 6; 6; 6] (Some (RData.A [6; 6; 6; 6]));
     mkRR [1; 97; 1; 98; 0] 46 1 60 0 [] (Some (RData.RRSIG 16 8 0 60 0 0 0 [1; 98; 0] [9]))] [] [].

Lemma validate_response_inverted_witness :
  (validate_response 12 forged_response [] fresh_ctx).1 =
    Ok (DnssecStatus.Secure, mkVStats 0 1 0 0 0) ∧
  ∀ r qtype a l o e i k sig, r ∈ m_answers forged_response →
    rr_parsed r ≠ Some (RData.RRSIG qtype a l o e i k [1; 97; 1; 98; 0] sig).
Proof.
  split; [by vm_compute|].
  destruct (proj2 (validate_response_inverted 12 forged_response [] fresh_ctx
    (validate_response 12 forged_response [] fresh_ctx).2 DnssecStatus.Secure (mkVStats 0 1 0 0 0)
    ltac:(apply cache_ok_new; apply Nat.ltb_lt; by vm_compute) ltac:(done) ltac:(by vm_compute)) ltac:(done))
    as [[_ H]|[H _]]; [|done].
  intros r qtype a l o e i k sig Hr Hp. cbn in Hr. rewrite !elem_of_cons in Hr.
  destruct Hr as [->|[->|Hr%elem_of_nil]]; [done|cbn in Hp; congruence|done].
Defined.
End concrete.
