(* ===== verification/NetAddr.v ===== *)
(** * Socket addresses of the standard library

    The parser of [std::net] for addresses as text, and their display text,
    which the configuration, the health check and the display of records
    use.  As in [Blocklist], a string is the list of its characters. *)

From stdpp Require Import strings pretty.
From S2P Require Import Prelude Str Types RootHints Upstream Blocklist.
#[local] Open Scope Z_scope.

(** [SocketAddr]; the scope of an IPv6 address is not kept, the source never reads it. *)
Record SocketAddr := mkSocketAddr { sa_ip : IpAddr; sa_port : Z }.

(** ** The parser *)

(** A parser takes its input from the front; [None] leaves the input as it was. *)
Definition parser (A : Type) : Type := str → option (A * str).

Definition read_given_char (c : Z) : parser () := λ s,
  match s with
  | x :: s => if decide (x = c) then Some ((), s) else None
  | [] => None
  end.

(** [char::to_digit(radix)], for a radix of 10 or 16. *)
Definition to_digit (radix c : Z) : option Z :=
  if decide (48 <= c <= 57) then Some (c - 48)
  else if decide (radix = 16) then
    if decide (97 <= c <= 102) then Some (c - 87)
    else if decide (65 <= c <= 70) then Some (c - 55) else None
  else None.

(** The digits at the front of the input. *)
Fixpoint read_digits (radix : Z) (s : str) : list Z * str :=
  match s with
  | c :: s' =>
    match to_digit radix c with
    | Some d => let '(ds, rest) := read_digits radix s' in (d :: ds, rest)
    | None => ([], s)
    end
  | [] => ([], [])
  end.

Definition digits_value (radix : Z) (ds : list Z) : Z := foldl (λ acc d, acc * radix + d) 0 ds.

(** [read_number]: at most [max_digits] digits, where given, and a value below [bound]. *)
Definition read_number (radix : Z) (max_digits : option nat) (allow_zero_prefix : bool) (bound : Z) : parser Z := λ s,
  let '(ds, rest) := read_digits radix s in
  let too_long := match max_digits with Some n => bool_decide (n < length ds)%nat | None => false end in
  let leading_zero := bool_decide (head s = Some 48) && bool_decide (1 < length ds)%nat in
  if too_long || bool_decide (ds = []) || (negb allow_zero_prefix && leading_zero) ||
     bool_decide (bound <= digits_value radix ds)
  then None else Some (digits_value radix ds, rest).

(** [read_separator]: the separator stands before every element but the first. *)
Definition read_separator {A} (sep : Z) (index : nat) (inner : parser A) : parser A := λ s,
  match index with
  | O => inner s
  | S _ => '(_, s) ← read_given_char sep s; inner s
  end.

Definition read_ipv4_addr : parser bytes := λ s,
  let octet index := read_separator DOT index (read_number 10 (Some 3%nat) false 256) in
  '(a, s) ← octet 0%nat s; '(b, s) ← octet 1%nat s; '(c, s) ← octet 2%nat s; '(d, s) ← octet 3%nat s;
  Some ([a; b; c; d], s).

Definition COLON : Z := 58.

(** [read_groups]: up to [limit] groups from the [i]-th on, and whether an IPv4 address ended them. *)
Fixpoint read_groups (n : nat) (limit i : nat) (s : str) : list Z * bool * str :=
  match n with
  | O => ([], false, s)
  | S n =>
    let ipv4 := if decide (i < limit - 1)%nat then read_separator COLON i read_ipv4_addr s else None in
    match ipv4 with
    | Some (octets, s) =>
      ([be16 (nth 0 octets 0) (nth 1 octets 0); be16 (nth 2 octets 0) (nth 3 octets 0)], true, s)
    | None =>
      match read_separator COLON i (read_number 16 (Some 4%nat) true 65536) s with
      | Some (g, s) =>
        let '(groups, ipv4, s) := read_groups n limit (S i) s in (g :: groups, ipv4, s)
      | None => ([], false, s)
      end
    end
  end.

Definition segments_bytes (groups : list Z) : bytes := concat (map to_be16 groups).

Definition read_ipv6_addr : parser bytes := λ s,
  let '(head, head_ipv4, s) := read_groups 8 8 0 s in
  if decide (length head = 8)%nat then Some (segments_bytes head, s) else
  if (head_ipv4 : bool) then None else
  '(_, s) ← read_given_char COLON s; '(_, s) ← read_given_char COLON s;
  let limit := (8 - (length head + 1))%nat in
  let '(tail, _, s) := read_groups limit limit 0 s in
  Some (segments_bytes (head ++ replicate (8 - length head - length tail) 0 ++ tail), s).

Definition read_port : parser Z := λ s,
  '(_, s) ← read_given_char COLON s; read_number 10 None true 65536 s.

Definition read_scope_id : parser Z := λ s,
  '(_, s) ← read_given_char 37 s; read_number 10 None true (2 ^ 32) s.

Definition read_socket_addr_v4 : parser SocketAddr := λ s,
  '(ip, s) ← read_ipv4_addr s; '(port, s) ← read_port s; Some (mkSocketAddr (V4 ip) port, s).

Definition read_socket_addr_v6 : parser SocketAddr := λ s,
  '(_, s) ← read_given_char 91 s; '(ip, s) ← read_ipv6_addr s;
  let s := match read_scope_id s with Some (_, s) => s | None => s end in
  '(_, s) ← read_given_char 93 s; '(port, s) ← read_port s; Some (mkSocketAddr (V6 ip) port, s).

(** [str::parse::<SocketAddr>()]: all of the input has to be read. *)
Definition parse_socket_addr (s : str) : option SocketAddr :=
  let read := match read_socket_addr_v4 s with Some r => Some r | None => read_socket_addr_v6 s end in
  match read with
  | Some (addr, []) => Some addr
  | _ => None
  end.

(** [str::parse::<IpAddr>()] *)
Definition parse_ip_addr (s : str) : option IpAddr :=
  let read := match read_ipv4_addr s with
              | Some (ip, s) => Some (V4 ip, s)
              | None => '(ip, s) ← read_ipv6_addr s; Some (V6 ip, s)
              end in
  match read with
  | Some (ip, []) => Some ip
  | _ => None
  end.

(** ** Display *)

(** A number in decimal and, without leading zeros, in lower-case hexadecimal. *)
Definition dec (z : Z) : str := lit (pretty z).

Definition hex_digit (d : Z) : Z := if decide (d < 10) then 48 + d else 87 + d.
Fixpoint hex_digits (fuel : nat) (z : Z) (acc : str) : str :=
  match fuel with
  | O => acc
  | S fuel =>
    let acc := hex_digit (z mod 16) :: acc in
    if decide (z / 16 = 0) then acc else hex_digits fuel (z / 16) acc
  end.
Definition hex (z : Z) : str := hex_digits 4 z [].

Definition ipv4_to_string (octets : bytes) : str := join [DOT] (map dec octets).

Fixpoint segments_of (octets : bytes) : list Z :=
  match octets with
  | a :: b :: octets => be16 a b :: segments_of octets
  | _ => []
  end.

(** The length of the run of zeros at the front. *)
Fixpoint zero_run (l : list Z) : nat :=
  match l with
  | x :: l => if decide (x = 0) then S (zero_run l) else O
  | [] => O
  end.
(** Start and length of the first longest run of zeros. *)
Fixpoint longest_zeros (i : nat) (l : list Z) (best : nat * nat) : nat * nat :=
  match l with
  | [] => best
  | _ :: l' => longest_zeros (S i) l' (if decide (best.2 < zero_run l)%nat then (i, zero_run l) else best)
  end.

Definition ipv6_to_string (octets : bytes) : str :=
  let segments := segments_of octets in
  if decide (take 6 segments = [0; 0; 0; 0; 0; 65535]) then
    lit "::ffff:" ++ ipv4_to_string (drop 12 octets)
  else
    let '(start, len) := longest_zeros 0 segments (0, 0)%nat in
    let groups l := join [COLON] (map hex l) in
    if decide (1 < len)%nat then
      groups (take start segments) ++ [COLON; COLON] ++ groups (drop (start + len) segments)
    else groups segments.

Definition ip_to_string (ip : IpAddr) : str :=
  match ip with V4 octets => ipv4_to_string octets | V6 octets => ipv6_to_string octets end.

Definition socket_addr_to_string (addr : SocketAddr) : str :=
  match sa_ip addr with
  | V4 octets => ipv4_to_string octets
  | V6 octets => [91] ++ ipv6_to_string octets ++ [93]
  end ++ [COLON] ++ dec (sa_port addr).

(** ** Examples *)

Example parse_v4 : parse_socket_addr (lit "127.0.0.1:53") = Some (mkSocketAddr (V4 [127; 0; 0; 1]) 53).
Proof. by vm_compute. Qed.
Example parse_v6 :
  parse_socket_addr (lit "[2001:db8::1:0]:853") =
    Some (mkSocketAddr (V6 [32; 1; 13; 184; 0; 0; 0; 0; 0; 0; 0; 0; 0; 1; 0; 0]) 853).
Proof. by vm_compute. Qed.
Example parse_bad :
  map parse_socket_addr [lit "127.0.0.01:53"; lit "127.0.0.1"; lit "127.0.0.1:65536"; lit "::1:53"; lit "host:53"] =
    [None; None; None; None; None].
Proof. by vm_compute. Qed.
Example print_v6 :
  map (λ s, ip_to_string <$> parse_ip_addr (lit s)) ["2001:DB8:0:0:1::"; "::"; "1:0:2::3:0"; "::ffff:1.2.3.4"; "1:2:3:4:5:6:7:0"] =
    map (λ s, Some (lit s)) ["2001:db8:0:0:1::"; "::"; "1:0:2::3:0"; "::ffff:1.2.3.4"; "1:2:3:4:5:6:7:0"].
Proof. by vm_compute. Qed.
