(* ===== verification/Config.v ===== *)
(** * Configuration (src/config.rs)

    The configuration file, its defaults, the options that override it, its
    validation, and the conversion to the server's configuration.  The
    deserialisation by serde and toml and the file system are classes. *)

From stdpp Require Import strings pretty.
From S2P Require Import Prelude Str Blocklist NetAddr.
#[local] Open Scope Z_scope.

(** ** Data *)

Definition DEFAULT_BIND : str := lit "127.0.0.1:53".
Definition DEFAULT_CACHE_SIZE : Z := 50000.
Definition MAX_CACHE_SIZE : Z := 10000000.

Record FastDnsConfig := mkFastDnsConfig {
  fc_bind : str;
  fc_ipv6 : bool;
  fc_dnssec : bool;
  fc_no_prefetch : bool;
  fc_cache_size : Z;
  fc_verbose : bool;
  fc_upstream : option str;
  fc_doh : bool;
  fc_dot : bool;
  fc_blocklist_mode : str;
  fc_blocklist_sources : list str;
  fc_blocklist : list str;
  fc_whitelist : list str;
  fc_custom_dns : list str;
  fc_nullroute : str;
  fc_nullroute_v6 : str;
  fc_block_response : str;
  fc_rate_limit_qps : Z;
  fc_rate_limit_burst : Z;
  fc_log_file : str;
  fc_log_level : str;
  fc_api_bind : str;
  fc_metrics : bool;
  fc_tls_cert : str;
  fc_tls_key : str;
  fc_dnssec_policy : str;
  fc_config_path : option str;
}.

Definition FastDnsConfig_default : FastDnsConfig := {|
  fc_bind := DEFAULT_BIND;
  fc_ipv6 := false;
  fc_dnssec := false;
  fc_no_prefetch := false;
  fc_cache_size := DEFAULT_CACHE_SIZE;
  fc_verbose := false;
  fc_upstream := None;
  fc_doh := false;
  fc_dot := false;
  fc_blocklist_mode := lit "none";
  fc_blocklist_sources := [
    lit "https://raw.githubusercontent.com/StevenBlack/hosts/master/hosts";
    lit "https://s3.amazonaws.com/lists.disconnect.me/simple_tracking.txt";
    lit "https://s3.amazonaws.com/lists.disconnect.me/simple_ad.txt"];
  fc_blocklist := [];
  fc_whitelist := [];
  fc_custom_dns := [];
  fc_nullroute := lit "0.0.0.0";
  fc_nullroute_v6 := lit "::";
  fc_block_response := lit "nxdomain";
  fc_rate_limit_qps := 100;
  fc_rate_limit_burst := 200;
  fc_log_file := [];
  fc_log_level := lit "info";
  fc_api_bind := [];
  fc_metrics := false;
  fc_tls_cert := [];
  fc_tls_key := [];
  fc_dnssec_policy := lit "ad";
  fc_config_path := None;
|}.

(** The options that can override the file. *)
Record CliOverrides := mkCliOverrides {
  co_bind : option str;
  co_ipv6 : bool;
  co_dnssec : bool;
  co_no_prefetch : bool;
  co_cache_size : option Z;
  co_verbose : bool;
  co_upstream : option str;
  co_doh : bool;
  co_dot : bool;
  co_blocklist_mode : option str;
  co_log_file : option str;
  co_log_level : option str;
  co_api_bind : option str;
  co_metrics : bool;
}.

(** The server's configuration (src/server/udp.rs). *)
Record ServerConfig := mkServerConfig {
  sc_bind_addr : SocketAddr;
  sc_enable_ipv6 : bool;
  sc_dnssec_ok : bool;
  sc_prefetch_domains : list str;
  sc_cache_size : Z;
  sc_verbose : bool;
  sc_upstream : option str;
  sc_rate_limit_qps : Z;
  sc_rate_limit_burst : Z;
  sc_log_file : str;
  sc_api_bind : option str;
  sc_metrics_enabled : bool;
  sc_dnssec_policy : str;
  sc_blocklist_mode : str;
  sc_blocklist_sources : list str;
  sc_blocklist : list str;
  sc_whitelist : list str;
  sc_custom_dns : list str;
  sc_nullroute : str;
  sc_nullroute_v6 : str;
  sc_block_response : str;
}.

(** The part of it that the blocklist reads. *)
Definition server_blocklist (config : ServerConfig) : BlocklistConfig :=
  mkConfig (sc_blocklist_mode config) (sc_blocklist_sources config) (sc_blocklist config)
    (sc_whitelist config) (sc_custom_dns config) (sc_nullroute config) (sc_nullroute_v6 config)
    (sc_block_response config).

Definition PREFETCH_DOMAINS : list str := map lit [
    "google.com"; "youtube.com"; "facebook.com"; "amazon.com"; "wikipedia.org"; "twitter.com";
    "instagram.com"; "microsoft.com"; "apple.com"; "cloudflare.com"; "whatsapp.com"; "reddit.com";
    "linkedin.com"; "netflix.com"; "tiktok.com"; "zoom.us"; "office.com"; "live.com";
    "microsoftonline.com"; "duckduckgo.com"; "bing.com"; "yahoo.com"; "baidu.com"; "pinterest.com";
    "tumblr.com"; "discord.com"; "twitch.tv"; "github.com"; "stackoverflow.com"; "gitlab.com";
    "adobe.com"; "salesforce.com"; "oracle.com"; "ibm.com"; "samsung.com"; "huawei.com";
    "xiaomi.com"; "nokia.com"; "paypal.com"; "ebay.com"; "aliexpress.com"; "alibaba.com";
    "shopify.com"; "etsy.com"; "walmart.com"; "target.com"; "bestbuy.com"; "homedepot.com";
    "costco.com"; "ikea.com"; "imdb.com"; "rottentomatoes.com"; "spotify.com"; "soundcloud.com";
    "bandcamp.com"; "vimeo.com"; "dailymotion.com"; "medium.com"; "wordpress.com"; "blogger.com";
    "godaddy.com"; "namecheap.com"; "googleapis.com"; "gmail.com"; "googlemail.com";
    "fonts.googleapis.com"; "fonts.gstatic.com"; "fbcdn.net"; "facebook.net"; "messenger.com";
    "amazonaws.com"; "aws.amazon.com"; "cloudfront.net"; "icloud.com"; "icloud-content.com";
    "azure.com"; "azureedge.net"; "azurefd.net"; "office365.com"; "sharepoint.com"; "outlook.com";
    "hotmail.com"; "msn.com"; "xbox.com"; "xboxlive.com"; "skype.com"; "teams.microsoft.com";
    "nuget.org"; "docs.microsoft.com"; "akamai.net"; "akamaiedge.net"; "akamaihd.net"; "fastly.net";
    "fastlylb.net"; "cloudflare.net"; "cloudflare-dns.com"; "jsdelivr.net"; "cdnjs.cloudflare.com";
    "twimg.com"; "t.co"; "snapchat.com"; "sc-cdn.net"; "telegram.org"; "t.me"; "discordapp.net";
    "discord.com"; "digitalocean.com"; "linode.com"; "vultr.com"; "heroku.com"; "herokuapp.com";
    "netlify.com"; "vercel.com"; "mongodb.com"; "supabase.com"; "docker.com"; "docker.io";
    "kubernetes.io"; "npmjs.com"; "pypi.org"; "crates.io"; "cnn.com"; "bbc.com"; "bbc.co.uk";
    "nytimes.com"; "wsj.com"; "washingtonpost.com"; "reuters.com"; "bloomberg.com"; "chase.com";
    "bankofamerica.com"; "wellsfargo.com"; "americanexpress.com"; "discover.com"; "netflix.com";
    "netflix.net"; "nflxvideo.net"; "hulu.com"; "disneyplus.com"; "primevideo.com"; "roblox.com";
    "epicgames.com"; "steampowered.com"; "steamcdn-a.akamaihd.net"; "battle.net"; "blizzard.com";
    "nintendo.com"; "playstation.com"; "iana.org"; "icann.org"; "ietf.org"].

(** ** Operations *)

(** The file system, and [toml::from_str] at the type [FastDnsConfig]: the container attribute
    [serde(default)] takes from the defaults what a document leaves out. *)
Class ConfigFiles := {
  path_exists : str → bool;
  config_text : str → option str;
  toml_from_str : str → option FastDnsConfig;
}.

Definition with_config_path (path : str) (self : FastDnsConfig) : FastDnsConfig := {|
  fc_bind := fc_bind self;
  fc_ipv6 := fc_ipv6 self;
  fc_dnssec := fc_dnssec self;
  fc_no_prefetch := fc_no_prefetch self;
  fc_cache_size := fc_cache_size self;
  fc_verbose := fc_verbose self;
  fc_upstream := fc_upstream self;
  fc_doh := fc_doh self;
  fc_dot := fc_dot self;
  fc_blocklist_mode := fc_blocklist_mode self;
  fc_blocklist_sources := fc_blocklist_sources self;
  fc_blocklist := fc_blocklist self;
  fc_whitelist := fc_whitelist self;
  fc_custom_dns := fc_custom_dns self;
  fc_nullroute := fc_nullroute self;
  fc_nullroute_v6 := fc_nullroute_v6 self;
  fc_block_response := fc_block_response self;
  fc_rate_limit_qps := fc_rate_limit_qps self;
  fc_rate_limit_burst := fc_rate_limit_burst self;
  fc_log_file := fc_log_file self;
  fc_log_level := fc_log_level self;
  fc_api_bind := fc_api_bind self;
  fc_metrics := fc_metrics self;
  fc_tls_cert := fc_tls_cert self;
  fc_tls_key := fc_tls_key self;
  fc_dnssec_policy := fc_dnssec_policy self;
  fc_config_path := Some path;
|}.

Definition from_file `{ConfigFiles} (path : str) : FastDnsConfig :=
  if negb (path_exists path) then FastDnsConfig_default else
  match config_text path with
  | Some content =>
    match toml_from_str content with
    | Some cfg => with_config_path path cfg
    | None => FastDnsConfig_default
    end
  | None => FastDnsConfig_default
  end.

(** What the options say takes precedence. *)
Definition merge_cli (self : FastDnsConfig) (cli : CliOverrides) : FastDnsConfig := {|
  fc_bind := match co_bind cli with Some v => v | None => fc_bind self end;
  fc_ipv6 := if co_ipv6 cli then true else fc_ipv6 self;
  fc_dnssec := if co_dnssec cli then true else fc_dnssec self;
  fc_no_prefetch := if co_no_prefetch cli then true else fc_no_prefetch self;
  fc_cache_size := match co_cache_size cli with Some v => v | None => fc_cache_size self end;
  fc_verbose := if co_verbose cli then true else fc_verbose self;
  fc_upstream := match co_upstream cli with Some v => Some v | None => fc_upstream self end;
  fc_doh := if co_doh cli then true else fc_doh self;
  fc_dot := if co_dot cli then true else fc_dot self;
  fc_blocklist_mode := match co_blocklist_mode cli with Some v => v | None => fc_blocklist_mode self end;
  fc_blocklist_sources := fc_blocklist_sources self;
  fc_blocklist := fc_blocklist self;
  fc_whitelist := fc_whitelist self;
  fc_custom_dns := fc_custom_dns self;
  fc_nullroute := fc_nullroute self;
  fc_nullroute_v6 := fc_nullroute_v6 self;
  fc_block_response := fc_block_response self;
  fc_rate_limit_qps := fc_rate_limit_qps self;
  fc_rate_limit_burst := fc_rate_limit_burst self;
  fc_log_file := match co_log_file cli with Some v => v | None => fc_log_file self end;
  fc_log_level := match co_log_level cli with Some v => v | None => fc_log_level self end;
  fc_api_bind := match co_api_bind cli with Some v => v | None => fc_api_bind self end;
  fc_metrics := if co_metrics cli then true else fc_metrics self;
  fc_tls_cert := fc_tls_cert self;
  fc_tls_key := fc_tls_key self;
  fc_dnssec_policy := fc_dnssec_policy self;
  fc_config_path := fc_config_path self;
|}.

(** The texts of the errors, in order; none is [Ok]. *)
Definition validate_errors (self : FastDnsConfig) : list str :=
  (match parse_socket_addr (fc_bind self) with
   | None => [lit "Invalid bind address '" ++ fc_bind self ++ lit "'"]
   | Some _ => []
   end) ++
  (if decide (fc_cache_size self = 0) then [lit "Cache size must be > 0"] else []) ++
  (if decide (MAX_CACHE_SIZE < fc_cache_size self) then
     [lit "Cache size " ++ dec (fc_cache_size self) ++ lit " exceeds maximum " ++ dec MAX_CACHE_SIZE]
   else []) ++
  (match fc_upstream self with
   | Some up =>
     match parse_socket_addr up with
     | None => [lit "Invalid upstream address '" ++ up ++ lit "'"]
     | Some _ => []
     end
   | None => []
   end) ++
  (if decide (fc_block_response self ≠ lit "nxdomain" ∧ fc_block_response self ≠ lit "nullroute") then
     [lit "block_response must be 'nxdomain' or 'nullroute'"]
   else []) ++
  (if decide (fc_blocklist_mode self ∈ map lit ["none"; "adblock"; "malware"; "all"]) then []
   else [lit "blocklist_mode must be 'none', 'adblock', 'malware', or 'all'"]) ++
  (if decide (fc_dnssec_policy self ∈ map lit ["ad"; "enforce"; "off"]) then []
   else [lit "dnssec_policy must be 'ad', 'enforce', or 'off'"]).

Definition validate (self : FastDnsConfig) : () + list str :=
  let errors := validate_errors self in
  if decide (errors = []) then inl () else inr errors.

(** [expect] panics on an address that does not parse. *)
Definition to_server_config (self : FastDnsConfig) : outcome unit ServerConfig :=
  match parse_socket_addr (fc_bind self) with
  | None => Panic
  | Some bind_addr => Ok {|
    sc_bind_addr := bind_addr;
    sc_enable_ipv6 := fc_ipv6 self;
    sc_dnssec_ok := fc_dnssec self;
    sc_prefetch_domains := if fc_no_prefetch self then [] else PREFETCH_DOMAINS;
    sc_cache_size := fc_cache_size self;
    sc_verbose := fc_verbose self;
    sc_upstream := fc_upstream self;
    sc_rate_limit_qps := fc_rate_limit_qps self;
    sc_rate_limit_burst := fc_rate_limit_burst self;
    sc_log_file := fc_log_file self;
    sc_api_bind := if decide (fc_api_bind self = []) then None else Some (fc_api_bind self);
    sc_metrics_enabled := fc_metrics self;
    sc_dnssec_policy := fc_dnssec_policy self;
    sc_blocklist_mode := fc_blocklist_mode self;
    sc_blocklist_sources := fc_blocklist_sources self;
    sc_blocklist := fc_blocklist self;
    sc_whitelist := fc_whitelist self;
    sc_custom_dns := fc_custom_dns self;
    sc_nullroute := fc_nullroute self;
    sc_nullroute_v6 := fc_nullroute_v6 self;
    sc_block_response := fc_block_response self;
  |}
  end.

(** ** Lemmas *)

(** What validation asks for. *)
Definition accepted (self : FastDnsConfig) : Prop :=
  is_Some (parse_socket_addr (fc_bind self)) ∧
  (fc_cache_size self ≠ 0 ∧ fc_cache_size self <= MAX_CACHE_SIZE) ∧
  (∀ up, fc_upstream self = Some up → is_Some (parse_socket_addr up)) ∧
  (fc_block_response self = lit "nxdomain" ∨ fc_block_response self = lit "nullroute") ∧
  fc_blocklist_mode self ∈ map lit ["none"; "adblock"; "malware"; "all"] ∧
  fc_dnssec_policy self ∈ map lit ["ad"; "enforce"; "off"].

Lemma validate_errors_nil self : validate_errors self = [] ↔ accepted self.
Proof.
  unfold validate_errors, accepted. rewrite !app_nil. split.
  - intros (Hbind & Hcs & Hmax & Hup & Hresp & Hmode & Hpol). split_and!.
    + by destruct (parse_socket_addr (fc_bind self)).
    + intros E. by rewrite decide_True in Hcs.
    + destruct (decide (MAX_CACHE_SIZE < fc_cache_size self)); [done|lia].
    + intros up E. rewrite E in Hup. by destruct (parse_socket_addr up).
    + destruct (decide (_ ∧ _)) as [|Hn] in Hresp; [done|].
      destruct (decide (fc_block_response self = lit "nxdomain")); [by left|].
      destruct (decide (fc_block_response self = lit "nullroute")); [by right|]. tauto.
    + destruct (decide (fc_blocklist_mode self ∈ _)) in Hmode; done.
    + destruct (decide (fc_dnssec_policy self ∈ _)) in Hpol; done.
  - intros ([? ->] & [Hcs Hmax] & Hup & Hresp & Hmode & Hpol). split_and!; [done| | | | | |].
    + by rewrite decide_False.
    + by rewrite decide_False by lia.
    + destruct (fc_upstream self) as [up|]; [|done]. by destruct (Hup up) as [? ->].
    + rewrite decide_False by tauto. done.
    + by rewrite decide_True.
    + by rewrite decide_True.
Qed.

Lemma validate_inl self : validate self = inl () ↔ accepted self.
Proof. unfold validate. rewrite <-validate_errors_nil. by case_decide. Qed.

Lemma validate_inr self errors :
  validate self = inr errors → ¬ accepted self ∧ errors = validate_errors self ∧ errors ≠ [].
Proof. unfold validate. rewrite <-validate_errors_nil. case_decide; naive_solver. Qed.

Lemma default_accepted : accepted FastDnsConfig_default.
Proof. apply validate_errors_nil. by vm_compute. Qed.

(** The list has a name twice, and is not what its comment says. *)
Lemma prefetch_domains_length : length PREFETCH_DOMAINS = 151%nat.
Proof. done. Qed.
