(* ===== verification/BlocklistTests.v ===== *)
(** * The unit tests of the blocklist (src/blocklist.rs, lines 693-1084)

    The tests of the source, one definition per test with its assertions in
    their order, on the definitions of [Blocklist].  A guard on a set that a
    test takes to write in it is an update of that set here.  That they hold
    is a check of the model: what the authors expect of their code is what
    the definitions compute. *)

From stdpp Require Import strings gmap.
From S2P Require Import Prelude Str Blocklist RootHints NetAddr Config.
#[local] Open Scope Z_scope.
#[local] Existing Instance ascii_unicode.

(** ** Assertions *)

#[local] Instance outcome_eq_dec {E A : Type} `{EqDecision E, EqDecision A} : EqDecision (outcome E A).
Proof. solve_decision. Defined.

Definition assert_eq {A : Type} `{EqDecision A} (x y : A) : bool := bool_decide (x = y).
Definition assert_all (l : list bool) : bool := forallb id l.

(** [blocked.write().unwrap().insert(..)] and the like. *)
Definition insert_blocked (domain : str) (bl : Blocklist) : Blocklist := with_blocked ({[domain]} ∪ bl_blocked bl) bl.
Definition insert_whitelist (domain : str) (bl : Blocklist) : Blocklist :=
  mkBlocklist (bl_enabled bl) (bl_mode bl) (bl_blocked bl) ({[domain]} ∪ bl_whitelist bl) (bl_custom bl)
    (bl_sources bl) (bl_nullroute_v4 bl) (bl_nullroute_v6 bl) (bl_block_response bl) (bl_stats bl).
Definition insert_custom (domain value : str) (bl : Blocklist) : Blocklist :=
  mkBlocklist (bl_enabled bl) (bl_mode bl) (bl_blocked bl) (bl_whitelist bl) (<[domain := value]> (bl_custom bl))
    (bl_sources bl) (bl_nullroute_v4 bl) (bl_nullroute_v6 bl) (bl_block_response bl) (bl_stats bl).

(** A test on the list that [Blocklist::new] gives; a panic fails it. *)
Definition on_new (config : ServerConfig) (test : Blocklist → bool) : bool :=
  match blocklist_new (server_blocklist config) with Ok bl => test bl | _ => false end.

(** A line of a file. *)
Definition line (s : string) : str := lit s ++ [10].

Definition dummy_config : ServerConfig := {|
  sc_bind_addr := default (mkSocketAddr (V4 []) 0) (parse_socket_addr (lit "127.0.0.1:53"));
  sc_enable_ipv6 := false;
  sc_dnssec_ok := false;
  sc_prefetch_domains := [];
  sc_cache_size := 1000;
  sc_verbose := false;
  sc_upstream := None;
  sc_rate_limit_qps := 100;
  sc_rate_limit_burst := 200;
  sc_log_file := [];
  sc_api_bind := None;
  sc_metrics_enabled := false;
  sc_dnssec_policy := lit "ad";
  sc_blocklist_mode := lit "all";
  sc_blocklist_sources := [];
  sc_blocklist := [];
  sc_whitelist := [];
  sc_custom_dns := [];
  sc_nullroute := lit "0.0.0.0";
  sc_nullroute_v6 := lit "::";
  sc_block_response := lit "nxdomain";
|}.
(** It with another mode, or another response. *)
Definition with_mode_and_response (mode response : str) (config : ServerConfig) : ServerConfig := {|
  sc_bind_addr := sc_bind_addr config; sc_enable_ipv6 := sc_enable_ipv6 config;
  sc_dnssec_ok := sc_dnssec_ok config; sc_prefetch_domains := sc_prefetch_domains config;
  sc_cache_size := sc_cache_size config; sc_verbose := sc_verbose config; sc_upstream := sc_upstream config;
  sc_rate_limit_qps := sc_rate_limit_qps config; sc_rate_limit_burst := sc_rate_limit_burst config;
  sc_log_file := sc_log_file config; sc_api_bind := sc_api_bind config;
  sc_metrics_enabled := sc_metrics_enabled config; sc_dnssec_policy := sc_dnssec_policy config;
  sc_blocklist_mode := mode; sc_blocklist_sources := sc_blocklist_sources config;
  sc_blocklist := sc_blocklist config; sc_whitelist := sc_whitelist config;
  sc_custom_dns := sc_custom_dns config; sc_nullroute := lit "0.0.0.0";
  sc_nullroute_v6 := sc_nullroute_v6 config; sc_block_response := response |}.

(** ** Parsing *)

Definition test_normalise_domain : bool := assert_all [
  assert_eq (normalise_domain (lit "Example.COM")) (lit "example.com");
  assert_eq (normalise_domain (lit "EXAMPLE.COM.")) (lit "example.com");
  assert_eq (normalise_domain (lit "  Sub.Example.com  ")) (lit "sub.example.com");
  assert_eq (normalise_domain (lit "*.example.com")) (lit "example.com");
  assert_eq (normalise_domain []) []].

Definition test_domain_parents : bool := assert_all [
  assert_eq (domain_parents (lit "sub.example.com")) [lit "example.com"; lit "com"];
  assert_eq (domain_parents (lit "example.com")) [lit "com"];
  assert_eq (length (domain_parents (lit "com"))) 0%nat].

Definition test_parse_hosts_line : bool := assert_all [
  assert_eq (parse_hosts_line (lit "0.0.0.0 example.com")) (Some (lit "example.com"));
  assert_eq (parse_hosts_line (lit "127.0.0.1 bad.example.com")) (Some (lit "bad.example.com"));
  assert_eq (parse_hosts_line (lit "::1 bad.example.com")) (Some (lit "bad.example.com"));
  assert_eq (parse_hosts_line (lit "0 bad.example.com")) (Some (lit "bad.example.com"));
  assert_eq (parse_hosts_line (lit "0.0.0.0 example.com # comment")) (Some (lit "example.com"));
  assert_eq (parse_hosts_line (lit "example.com")) None;
  assert_eq (parse_hosts_line (lit "0.0.0.0")) None;
  assert_eq (parse_hosts_line []) None].

Definition test_parse_domain_line : bool := assert_all [
  assert_eq (parse_domain_line (lit "example.com")) (Some (lit "example.com"));
  assert_eq (parse_domain_line (lit "bad.example.com")) (Some (lit "bad.example.com"));
  assert_eq (parse_domain_line (lit "||example.com^")) (Some (lit "example.com"));
  assert_eq (parse_domain_line (lit "||example.com")) (Some (lit "example.com"));
  assert_eq (parse_domain_line (lit "0.0.0.0")) None;
  assert_eq (parse_domain_line (lit "127.0.0.1")) None;
  assert_eq (parse_domain_line (lit "localhost")) None;
  assert_eq (parse_domain_line (lit "# comment")) None].

Definition test_looks_like_ip : bool := assert_all [
  looks_like_ip (lit "0.0.0.0");
  looks_like_ip (lit "127.0.0.1");
  looks_like_ip (lit "::1");
  looks_like_ip (lit "2001:db8::1");
  looks_like_ip (lit "192.168.1.1");
  negb (looks_like_ip (lit "example.com"));
  negb (looks_like_ip (lit "localhost"))].

Definition test_parse_custom_dns_entry : bool := assert_all [
  assert_eq (parse_custom_dns_entry (lit "myhost.example.com=192.168.1.100"))
    (Ok (lit "myhost.example.com", lit "192.168.1.100"));
  assert_eq (parse_custom_dns_entry (lit "myhost.example.com 192.168.1.100"))
    (Ok (lit "myhost.example.com", lit "192.168.1.100"));
  assert_eq (parse_custom_dns_entry (lit "myhost.example.com:192.168.1.100"))
    (Ok (lit "myhost.example.com", lit "192.168.1.100"))].

Definition test_strip_inline_comment : bool := assert_all [
  assert_eq (strip_inline_comment (lit "example.com # block")) (lit "example.com");
  assert_eq (strip_inline_comment (lit "example.com")) (lit "example.com");
  assert_eq (strip_inline_comment (lit "# full comment")) []].

Definition test_blocklist_mode_from_str : bool := assert_all [
  assert_eq (BlocklistMode.from_str (lit "adblock")) BlocklistMode.Adblock;
  assert_eq (BlocklistMode.from_str (lit "malware")) BlocklistMode.Malware;
  assert_eq (BlocklistMode.from_str (lit "all")) BlocklistMode.All;
  assert_eq (BlocklistMode.from_str (lit "none")) BlocklistMode.None;
  assert_eq (BlocklistMode.from_str (lit "unknown")) BlocklistMode.None;
  assert_eq (BlocklistMode.from_str []) BlocklistMode.None].

Definition test_block_response_from_str : bool := assert_all [
  assert_eq (BlockResponse.from_str (lit "nullroute")) BlockResponse.Nullroute;
  assert_eq (BlockResponse.from_str (lit "nxdomain")) BlockResponse.Nxdomain;
  assert_eq (BlockResponse.from_str (lit "unknown")) BlockResponse.Nxdomain].

(** ** The sets *)

Definition test_parse_and_insert_hosts_format : bool :=
  on_new dummy_config (λ bl,
    let data := line "# Blocklist" ++ line "0.0.0.0 ads.example.com" ++ line "0.0.0.0 tracker.example.com" ++
                line "127.0.0.1 malware.example.com" ++ line "# More" ++ line "::1 bad.example.com" in
    let '(count, bl) := parse_and_insert bl data in
    assert_all [
      assert_eq count 4%nat;
      bool_decide (lit "ads.example.com" ∈ bl_blocked bl);
      bool_decide (lit "tracker.example.com" ∈ bl_blocked bl);
      bool_decide (lit "malware.example.com" ∈ bl_blocked bl);
      bool_decide (lit "bad.example.com" ∈ bl_blocked bl);
      negb (bool_decide (lit "good.example.com" ∈ bl_blocked bl))]).

Definition test_parse_and_insert_domain_format : bool :=
  on_new dummy_config (λ bl,
    let data := line "# Domain list" ++ line "ads.example.com" ++ line "tracker.example.com" ++
                line "malware.example.com" in
    let '(count, bl) := parse_and_insert bl data in
    assert_all [
      assert_eq count 3%nat;
      bool_decide (lit "ads.example.com" ∈ bl_blocked bl);
      bool_decide (lit "tracker.example.com" ∈ bl_blocked bl);
      bool_decide (lit "malware.example.com" ∈ bl_blocked bl)]).

Definition test_whitelist_overrides_blocklist : bool :=
  on_new dummy_config (λ bl,
    let bl := insert_blocked (lit "ads.example.com") bl in
    let bl := insert_whitelist (lit "ads.example.com") bl in
    assert_eq (is_blocked bl (lit "ads.example.com")) None).

Definition test_custom_overrides_everything : bool :=
  on_new dummy_config (λ bl,
    let bl := insert_blocked (lit "myhost.example.com") bl in
    let bl := insert_custom (lit "myhost.example.com") (lit "10.0.0.1") bl in
    assert_eq (is_blocked bl (lit "myhost.example.com")) (Some (BlockAction.Custom (lit "10.0.0.1")))).

Definition test_wildcard_blocklist_match : bool :=
  on_new dummy_config (λ bl,
    let bl := insert_blocked (lit "example.com") bl in
    assert_all [
      bool_decide (is_Some (is_blocked bl (lit "sub.example.com")));
      bool_decide (is_Some (is_blocked bl (lit "deep.sub.example.com")))]).

Definition test_custom_does_not_match_parent_if_exact_exists : bool :=
  on_new dummy_config (λ bl,
    let bl := insert_custom (lit "sub.example.com") (lit "10.0.0.5") bl in
    assert_all [
      assert_eq (is_blocked bl (lit "sub.example.com")) (Some (BlockAction.Custom (lit "10.0.0.5")));
      match is_blocked bl (lit "other.example.com") with
      | Some (BlockAction.Custom _) => false
      | _ => true
      end]).

Definition test_get_custom_exact : bool :=
  on_new dummy_config (λ bl,
    let bl := insert_custom (lit "myhost.example.com") (lit "10.0.0.1") bl in
    assert_all [
      assert_eq (get_custom bl (lit "myhost.example.com")) (Some (lit "10.0.0.1"));
      assert_eq (get_custom bl (lit "unknown.example.com")) None]).

Definition test_get_custom_parent_fallback : bool :=
  on_new dummy_config (λ bl,
    let bl := insert_custom (lit "example.com") (lit "10.0.0.1") bl in
    assert_eq (get_custom bl (lit "sub.example.com")) (Some (lit "10.0.0.1"))).

(** ** Actions and counters *)

Definition test_block_action_nxdomain : bool :=
  on_new dummy_config (λ bl, assert_eq (block_action bl) BlockAction.Nxdomain).

Definition test_block_action_nullroute : bool :=
  on_new (with_mode_and_response (lit "all") (lit "nullroute") dummy_config) (λ bl,
    assert_eq (block_action bl) (BlockAction.NullrouteV4 (lit "0.0.0.0"))).

Definition test_disabled_blocklist : bool :=
  on_new (with_mode_and_response (lit "none") (lit "nxdomain") dummy_config) (λ bl,
    let bl := insert_blocked (lit "ads.example.com") bl in
    assert_eq (is_blocked bl (lit "ads.example.com")) None).

Definition test_records_blocked : bool :=
  on_new dummy_config (λ bl,
    let bl := record_blocked (record_blocked bl) in
    assert_eq (queries_blocked (stats bl)) 2).

Definition test_stats_after_load : bool :=
  on_new dummy_config (λ bl,
    let bl := insert_blocked (lit "b.com") (insert_blocked (lit "a.com") bl) in
    let bl := insert_whitelist (lit "c.com") bl in
    assert_all [
      assert_eq (total_blocked (stats bl)) 0%nat;
      assert_eq (total_whitelisted (stats bl)) 0%nat]).

(** All of them, in the order of the file. *)
Definition tests : list bool := [
  test_normalise_domain; test_domain_parents; test_parse_hosts_line; test_parse_domain_line;
  test_looks_like_ip; test_parse_custom_dns_entry; test_strip_inline_comment;
  test_blocklist_mode_from_str; test_block_response_from_str; test_parse_and_insert_hosts_format;
  test_parse_and_insert_domain_format; test_whitelist_overrides_blocklist;
  test_custom_overrides_everything; test_wildcard_blocklist_match;
  test_custom_does_not_match_parent_if_exact_exists; test_get_custom_exact;
  test_get_custom_parent_fallback; test_block_action_nxdomain; test_block_action_nullroute;
  test_disabled_blocklist; test_records_blocked; test_stats_after_load].

(** The 22 tests pass. *)
Theorem unit_tests_pass : length tests = 22%nat ∧ assert_all tests = true.
Proof. split; [done|by vm_compute]. Qed.
