(* ===== verification/App.v ===== *)
(** * The running program (src/main.rs, src/api.rs, and the loops of src/server/udp.rs and
    src/server/tcp.rs)

    The start in server mode, and the process that runs from there on: the
    two receive loops with their permits, the tasks they spawn, the HTTP
    endpoints, the loading of the blocklist, the prefetches and the signal
    to stop.  The process is a state with one step for each event; the
    events come in any order.  A task runs when the event for it comes, to
    its end; the steps of two resolutions interleave in [Concurrency].  A panic
    ends the task or loop it happens in, as tokio has it, and one that runs for
    ever keeps its permit.  The sockets are taken to be bound, and there is
    always a thread for a task: the process in which that may fail, and its end,
    are in [Process].

    The recursive resolver is a class, with the one of [Resolver] as instance. *)

From stdpp Require Import gmap strings.
From Stdlib Require Import SpecFloat.
From S2P Require Import Prelude Str Types Message Async Lru Cache RootHints Upstream Server Blocklist NetAddr Config Rtt Dnssec Resolver.
#[local] Open Scope Z_scope.

(** ** The resolver *)

Class Engine (S : Type) := {
  engine_resolver :: Server.Resolver S;
  (** [RecursiveResolver::new], when a socket could be bound. *)
  engine_new : bool → bool → Z → S;
  engine_cache_stats : S → Z * Z;
  engine_flush_cache : S → S;
  (** One of the tasks that the resolver has spawned runs; an error when there is none of that
      number. *)
  engine_background : nat → S → outcome unit S;
}.

(** The recursive resolver with the two flags it is made with. *)
Section recursive_engine.
Context {C D R : Type → Type} {N : Type} `{LruOps cache_key C} `{LruOps bytes D} `{LruOps IpAddr R} `{Env N} `{Crypto}.

Abbreviation St := (RecursiveResolver C D R N).

(** A task ends however its code does, unless that never ends. *)
Definition ended {A} (r : DnsResult A * St) : outcome unit St :=
  match r with (Diverge, _) => Diverge | (_, s) => Ok s end.

Definition background_task (ipv6 dnssec : bool) (fuel i : nat) (s : St) : outcome unit St :=
  match i with
  | 0%nat => ended (purge_task s)
  | 1%nat => ended (pool_task s)
  | 2%nat => ended (truncation_task s)
  | 3%nat => ended (health_task s)
  | 4%nat => ended (rtt_save_task s)
  | Datatypes.S (Datatypes.S (Datatypes.S (Datatypes.S (Datatypes.S i)))) =>
    match r_spawned s !! i with
    | Some job => ended ((_ ← unspawn i; background_refresh ipv6 dnssec fuel job) s)
    | None => Err ()
    end
  end.

#[export] Instance flagged_resolver (fuel : nat) : Server.Resolver (bool * bool * RecursiveResolver C D R N) := {
  Server.resolve_with_ad s name rtype rclass :=
    let '(ipv6, dnssec, s) := s in
    let '(r, s) := @Server.resolve_with_ad _ (recursive_resolver ipv6 dnssec fuel) s name rtype rclass in
    (r, (ipv6, dnssec, s));
  Server.resolve_dnssec s name rtype rclass :=
    let '(ipv6, dnssec, s) := s in
    let '(r, s) := @Server.resolve_dnssec _ (recursive_resolver ipv6 dnssec fuel) s name rtype rclass in
    (r, (ipv6, dnssec, s));
}.

#[export] Instance recursive_engine (fuel : nat) (persisted_rtt : list (IpAddr * (f64 * Z))) (n : N)
    : Engine (bool * bool * RecursiveResolver C D R N) := {
  engine_resolver := flagged_resolver fuel;
  engine_new ipv6 dnssec cache_size := (ipv6, dnssec, resolver_new ipv6 dnssec (Z.to_nat cache_size) persisted_rtt n);
  engine_cache_stats s := match (cache_stats s.2).1 with Ok stats => stats | _ => (0, 0) end;
  engine_flush_cache s := (s.1, (flush_cache s.2).2);
  engine_background i s := pair s.1 <$> background_task s.1.1 s.1.2 fuel i s.2;
}.
End recursive_engine.

(** ** The HTTP endpoints (src/api.rs) *)

Inductive api_request := GetHealth | GetStats | PostCacheFlush | GetBlocklistStats | PostBlocklistReload.

Inductive api_response :=
  | HealthResponse (status : str) (uptime_secs : Z)
  | StatsResponse (total_queries blocked_queries cache_hits cache_misses : Z) (cache_hit_rate : f64)
      (cache_size : Z)
  | FlushResponse (status message : str)
  | BlocklistStatsResponse (enabled : bool) (total_blocked total_queries : Z) (rules_loaded : nat)
  | ReloadResponse (status message : str)
  | ErrorResponse (status_code : Z) (error : str).

(** The routes: what a method and a path lead to. *)
Definition build_router (method path : str) : option api_request :=
  if decide (method = lit "GET" ∧ path = lit "/api/health") then Some GetHealth
  else if decide (method = lit "GET" ∧ path = lit "/api/stats") then Some GetStats
  else if decide (method = lit "POST" ∧ path = lit "/api/cache/flush") then Some PostCacheFlush
  else if decide (method = lit "GET" ∧ path = lit "/api/blocklist/stats") then Some GetBlocklistStats
  else if decide (method = lit "POST" ∧ path = lit "/api/blocklist/reload") then Some PostBlocklistReload
  else None.

(** ** The state *)

(** The UDP receive loop: at work, in a computation that does not end, ended by a panic, or
    stopped by a signal. *)
Inductive loop_state := Listening | Stuck | Died | Stopped.

Section app.
Context {S T : Type} `{Engine S} `{TcpStream T} `{Unicode} `{Sources}.

Record App := mkApp {
  app_resolver : S;
  app_blocklist : option Blocklist;
  app_query_count : Z;
  app_blocked_count : Z;
  app_start_time : Z;
  (** Whether the endpoints are served. *)
  app_api : bool;
  app_prefetch : list str;
  app_udp : loop_state;
  app_query_permits : nat;
  app_queries : list (bytes * SocketAddr);
  app_connection_permits : nat;
  app_connections : list T;
}.

Inductive output :=
  | Packet (data : bytes) (dst : SocketAddr)
  | Closed (stream : T)
  | Http (response : api_response).

Inductive event :=
  (** What [recv_from] gives, and the buffer. *)
  | Datagram (result : nat * SocketAddr + io_error) (buf : bytes)
  (** The task of a query, or of a connection, runs. *)
  | QueryTask (i : nat)
  | Connection (result : T + io_error)
  | ConnectionTask (i : nat)
  | Request (method path : str) (now : Z)
  | BlocklistLoad (now : str)
  (** A domain of the prefetch list is resolved for A or AAAA. *)
  | Prefetch (i : nat) (aaaa : bool)
  | Background (i : nat)
  | Signal.

(** *** Updates *)

Definition with_resolver (r : S) (a : App) : App :=
  mkApp r (app_blocklist a) (app_query_count a) (app_blocked_count a) (app_start_time a) (app_api a)
    (app_prefetch a) (app_udp a) (app_query_permits a) (app_queries a) (app_connection_permits a)
    (app_connections a).
Definition with_blocklist (bl : option Blocklist) (a : App) : App :=
  mkApp (app_resolver a) bl (app_query_count a) (app_blocked_count a) (app_start_time a) (app_api a)
    (app_prefetch a) (app_udp a) (app_query_permits a) (app_queries a) (app_connection_permits a)
    (app_connections a).
Definition with_udp (u : loop_state) (a : App) : App :=
  mkApp (app_resolver a) (app_blocklist a) (app_query_count a) (app_blocked_count a)
    (app_start_time a) (app_api a) (app_prefetch a) u (app_query_permits a) (app_queries a)
    (app_connection_permits a) (app_connections a).
Definition with_queries (permits : nat) (queries : list (bytes * SocketAddr)) (a : App) : App :=
  mkApp (app_resolver a) (app_blocklist a) (app_query_count a) (app_blocked_count a)
    (app_start_time a) (app_api a) (app_prefetch a) (app_udp a) permits queries
    (app_connection_permits a) (app_connections a).
Definition with_connections (permits : nat) (connections : list T) (a : App) : App :=
  mkApp (app_resolver a) (app_blocklist a) (app_query_count a) (app_blocked_count a)
    (app_start_time a) (app_api a) (app_prefetch a) (app_udp a) (app_query_permits a)
    (app_queries a) permits connections.

(** ** The handlers of the endpoints *)

Definition health_handler (now : Z) (state : App) : api_response :=
  HealthResponse (lit "ok") (duration_since now (app_start_time state) / SEC).

Definition stats_handler (state : App) : api_response :=
  let total := app_query_count state in
  let blocked := app_blocked_count state in
  let '(hits, misses) := engine_cache_stats (app_resolver state) in
  let rate := if decide (total = 0) then f64_of_Z 0
              else f64_div (f64_of_Z hits) (f64_of_Z (u64 (hits + misses))) in
  StatsResponse total blocked hits misses rate 0.

Definition cache_flush_handler (state : App) : App * api_response :=
  (with_resolver (engine_flush_cache (app_resolver state)) state,
   FlushResponse (lit "ok") (lit "DNS cache flushed successfully")).

Definition blocklist_stats_handler (state : App) : api_response :=
  let total_blocked := app_blocked_count state in
  let total_queries := app_query_count state in
  match app_blocklist state with
  | Some _ => BlocklistStatsResponse true total_blocked total_queries 0
  | None => BlocklistStatsResponse false total_blocked total_queries 0
  end.

Definition blocklist_reload_handler (state : App) : api_response :=
  match app_blocklist state with
  | Some _ => ReloadResponse (lit "ok") (lit "Blocklist reload initiated")
  | None => ErrorResponse 400 (lit "Blocklist is not enabled")
  end.

Definition serve_api (now : Z) (request : api_request) (state : App) : App * api_response :=
  match request with
  | GetHealth => (state, health_handler now state)
  | GetStats => (state, stats_handler state)
  | PostCacheFlush => cache_flush_handler state
  | GetBlocklistStats => (state, blocklist_stats_handler state)
  | PostBlocklistReload => (state, blocklist_reload_handler state)
  end.

(** ** The loops and their tasks *)

(** One turn of the UDP loop. *)
Definition udp_turn (result : nat * SocketAddr + io_error) (buf : bytes) (a : App) : App * list output :=
  let src := match result with inl (_, src) => src | inr _ => mkSocketAddr (V4 []) 0 end in
  let received := match result with inl (len, _) => inl len | inr e => inr e end in
  match handle_recv received buf (app_query_permits a) with
  | Ok (SpawnQuery data) =>
    (with_queries (app_query_permits a - 1) (app_queries a ++ [(data, src)]) a, [])
  | Ok (SendBusy response) => (a, [Packet response src])
  | Ok Drop | Err _ => (a, [])
  | Panic => (with_udp Died a, [])
  | Diverge => (with_udp Stuck a, [])
  end.

(** The task of a query: [None] when it never ends. *)
Definition query_task (i : nat) (a : App) : option (App * list output) :=
  '(data, src) ← app_queries a !! i;
  let h := handle_query (app_resolver a) data in
  match hd_result h with
  | Diverge => None
  | _ =>
    Some (with_queries (app_query_permits a + 1) (delete i (app_queries a)) (with_resolver (hd_resolver h) a),
          map (λ packet, Packet packet src) (hd_sent h))
  end.

(** One turn of the TCP loop; at capacity the connection is closed. *)
Definition tcp_turn (result : T + io_error) (a : App) : App * list output :=
  match result with
  | inl stream =>
    if decide (0 < app_connection_permits a)%nat then
      (with_connections (app_connection_permits a - 1) (app_connections a ++ [stream]) a, [])
    else (a, [Closed stream])
  | inr e => (a, [])
  end.

Definition connection_task (i : nat) (a : App) : option (App * list output) :=
  stream ← app_connections a !! i;
  let '(result, stream, resolver) := handle_tcp_connection stream (app_resolver a) in
  match result with
  | Diverge => None
  | _ =>
    Some (with_connections (app_connection_permits a + 1) (delete i (app_connections a))
            (with_resolver resolver a), [Closed stream])
  end.

(** [prefetch], whose errors are dropped. *)
Definition prefetch (name : str) (rtype : Z) (resolver : S) : option S :=
  let '(result, resolver) := Server.resolve_with_ad resolver name rtype 1 in
  match result with
  | Diverge => None
  | _ => Some resolver
  end.

(** An event in a state; [None] when it cannot happen there. *)
Definition step (a : App) (e : event) : option (App * list output) :=
  match e with
  | Datagram result buf =>
    match app_udp a with Listening => Some (udp_turn result buf a) | _ => None end
  | QueryTask i => query_task i a
  | Connection result => Some (tcp_turn result a)
  | ConnectionTask i => connection_task i a
  | Request method path now =>
    if app_api a then
      request ← build_router method path;
      let '(a, response) := serve_api now request a in Some (a, [Http response])
    else None
  | BlocklistLoad now =>
    bl ← app_blocklist a; Some (with_blocklist (Some (load now bl)) a, [])
  | Prefetch i aaaa =>
    domain ← app_prefetch a !! i;
    resolver ← prefetch domain (if (aaaa : bool) then 28 else 1) (app_resolver a);
    Some (with_resolver resolver a, [])
  | Background i =>
    match engine_background i (app_resolver a) with
    | Ok resolver => Some (with_resolver resolver a, [])
    | _ => None
    end
  | Signal => Some (with_udp (match app_udp a with Listening => Stopped | u => u end) a, [])
  end.

(** A sequence of events; those that cannot happen are skipped. *)
Fixpoint run (a : App) (events : list event) : App * list output :=
  match events with
  | [] => (a, [])
  | e :: events =>
    let '(a, out) := default (a, []) (step a e) in
    let '(a, outs) := run a events in
    (a, out ++ outs)
  end.

(** ** The start *)

(** The servers' part of [main], from the configuration on; a panic ends the program. *)
Definition start (now : Z) (config : ServerConfig) : outcome unit App :=
  let resolver := engine_new (sc_enable_ipv6 config) (sc_dnssec_ok config) (sc_cache_size config) in
  blocklist ← (if decide (sc_blocklist_mode config ≠ lit "none") then
                 bl ← blocklist_new (server_blocklist config); Ok (Some bl)
               else Ok None);
  let api := match sc_api_bind config with
             | Some bind => bool_decide (is_Some (parse_socket_addr bind))
             | None => false
             end in
  Ok (mkApp resolver blocklist 0 0 now api (sc_prefetch_domains config) Listening
        MAX_CONCURRENT_QUERIES [] MAX_CONNECTIONS []).

(** Why [main] exits before it serves. *)
Inductive exit_reason :=
  | ConfigurationErrors (errors : list str)
  | PrivilegedPort (port : Z).

(** [check_bind_privileges], on Unix. *)
Definition check_bind_privileges (is_root : bool) (bind : str) : outcome exit_reason unit :=
  match parse_socket_addr bind with
  | Some addr =>
    if decide (sa_port addr < 1024) then
      if is_root then Ok () else Err (PrivilegedPort (sa_port addr))
    else Ok ()
  | None => Ok ()
  end.

(** [main] without the options for one query, the health check and the service. *)
Definition main `{ConfigFiles} (config_path : str) (cli : CliOverrides) (is_root : bool) (now : Z)
    : outcome exit_reason App :=
  let config := merge_cli (from_file config_path) cli in
  match validate config with
  | inr errors => Err (ConfigurationErrors errors)
  | inl () =>
    _ ← check_bind_privileges is_root (fc_bind config);
    match to_server_config config with
    | Ok server_config =>
      match start now server_config with
      | Ok app => Ok app
      | Diverge => Diverge
      | _ => Panic
      end
    | Diverge => Diverge
    | _ => Panic
    end
  end.
End app.
Arguments App : clear implicits.
Arguments output : clear implicits.
Arguments event : clear implicits.

(** ** Lemmas *)

Section lemmas.
Context {S T : Type} `{Engine S} `{TcpStream T} `{Unicode} `{Sources}.

Abbreviation App := (App S T).
Abbreviation output := (output T).
Abbreviation event := (event T).

(** A property that every step keeps holds after every sequence of events. *)
Lemma run_invariant (P : App → Prop) (events : list event) (a : App) :
  (∀ a e a' out, P a → step a e = Some (a', out) → P a') → P a → P (run a events).1.
Proof.
  intros Hstep. revert a. induction events as [|e events IH]; intros a Ha; cbn [run]; [done|].
  destruct (step a e) as [[a' out]|] eqn:E; simpl.
  - specialize (IH a' (Hstep _ _ _ _ Ha E)). revert IH. by destruct (run a' events).
  - specialize (IH a Ha). revert IH. by destruct (run a events).
Qed.

(** The same for what the steps put out. *)
Lemma run_outputs (P : App → Prop) (Q : output → Prop) (events : list event) (a : App) :
  (∀ a e a' out, P a → step a e = Some (a', out) → P a' ∧ Forall Q out) →
  P a → Forall Q (run a events).2.
Proof.
  intros Hstep. revert a. induction events as [|e events IH]; intros a Ha; cbn [run]; [constructor|].
  destruct (step a e) as [[a' out]|] eqn:E; simpl.
  - destruct (Hstep _ _ _ _ Ha E) as [Ha' Hout]. specialize (IH a' Ha').
    revert IH. destruct (run a' events). cbn. intros IH. by apply Forall_app.
  - specialize (IH a Ha). revert IH. by destruct (run a events).
Qed.

Lemma run_app (events events' : list event) (a : App) :
  run a (events ++ events') =
    let '(a1, out1) := run a events in let '(a2, out2) := run a1 events' in (a2, out1 ++ out2).
Proof.
  revert a. induction events as [|e events IH]; intros a; cbn [run app].
  - by destruct (run a events').
  - destruct (default (a, []) (step a e)) as [a1 out]. rewrite IH.
    destruct (run a1 events) as [a2 out2]. destruct (run a2 events'). by rewrite app_assoc.
Qed.

(** *** Permits *)

(** Every permit is free or held by a task. *)
Definition permits_ok (a : App) : Prop :=
  (app_query_permits a + length (app_queries a) = MAX_CONCURRENT_QUERIES)%nat ∧
  (app_connection_permits a + length (app_connections a) = MAX_CONNECTIONS)%nat.

Lemma handle_recv_spawn received buf permits data :
  handle_recv received buf permits = Ok (SpawnQuery data) → (0 < permits)%nat.
Proof.
  unfold handle_recv. destruct received as [len|]; [|done].
  destruct (slice buf 0 len); cbn; try done. case_decide; [done|].
  destruct (quick_error_response _ _) as [[]| | |]; done.
Qed.

Lemma udp_turn_permits result buf (a : App) : permits_ok a → permits_ok (udp_turn result buf a).1.
Proof.
  intros [Hq Hc]. unfold udp_turn.
  destruct (handle_recv _ _ _) as [[data|response|]| | |] eqn:E; [|done..].
  apply handle_recv_spawn in E. split; [|done]. cbn. rewrite length_app. cbn. lia.
Qed.

Lemma delete_permits {A} (l : list A) i x p n :
  l !! i = Some x → (p + length l = n)%nat → (p + 1 + length (delete i l) = n)%nat.
Proof.
  intros Hl Hp. pose proof (lookup_lt_Some _ _ _ Hl). rewrite length_delete by (by eexists). lia.
Qed.

Lemma serve_api_frame now request (a : App) :
  ∃ r, (serve_api now request a).1 = with_resolver r a.
Proof. destruct request; cbn; eauto; exists (app_resolver a); by destruct a. Qed.

(** The shape of a step: which parts of the state it leaves alone. *)
Lemma step_permits (a : App) e a' out : permits_ok a → step a e = Some (a', out) → permits_ok a'.
Proof.
  intros Hp Hs. pose proof Hp as [Hq Hc]. destruct e as [result buf|i|result|i|method path now|now|i aaaa|i|].
  - cbn in Hs. destruct (app_udp a); [|done..]. simplify_eq.
    pose proof (udp_turn_permits result buf a Hp) as Hp'. by rewrite Hs in Hp'.
  - cbn in Hs. unfold query_task in Hs. destruct (app_queries a !! i) as [[data src]|] eqn:Ei; [|done].
    cbn in Hs. destruct (hd_result _); simplify_eq; (split; [|done]); cbn; by eapply delete_permits.
  - cbn in Hs. unfold tcp_turn in Hs. destruct result; [case_decide|]; simplify_eq; [|done..].
    split; [done|]. cbn. rewrite length_app. cbn. lia.
  - cbn in Hs. unfold connection_task in Hs. destruct (app_connections a !! i) as [stream|] eqn:Ei; [|done].
    cbn in Hs. destruct (handle_tcp_connection _ _) as [[result ?] ?].
    destruct result; simplify_eq; (split; [done|]); cbn; by eapply delete_permits.
  - cbn in Hs. destruct (app_api a); [|done]. destruct (build_router method path) as [request|]; [|done].
    cbn in Hs. destruct (serve_api_frame now request a) as [r Hr].
    destruct (serve_api now request a). cbn in Hr. by simplify_eq.
  - cbn in Hs. destruct (app_blocklist a); [|done]. by simplify_eq/=.
  - cbn in Hs. destruct (app_prefetch a !! i); [|done]. cbn in Hs.
    destruct (prefetch _ _ _); [|done]. by simplify_eq/=.
  - cbn in Hs. destruct (engine_background _ _); [|done..]. by simplify_eq/=.
  - by simplify_eq/=.
Qed.

Lemma start_fields now config (a : App) :
  start now config = Ok a →
  app_resolver a = engine_new (sc_enable_ipv6 config) (sc_dnssec_ok config) (sc_cache_size config) ∧
  app_query_count a = 0 ∧ app_blocked_count a = 0 ∧
  app_api a = match sc_api_bind config with
              | Some bind => bool_decide (is_Some (parse_socket_addr bind))
              | None => false
              end ∧
  app_prefetch a = sc_prefetch_domains config ∧ app_udp a = Listening ∧
  app_query_permits a = MAX_CONCURRENT_QUERIES ∧ app_queries a = [] ∧
  app_connection_permits a = MAX_CONNECTIONS ∧ app_connections a = [].
Proof.
  unfold start. intros Hs.
  destruct (if decide (sc_blocklist_mode config ≠ lit "none") then _ else _) as [bl| | |]; [|done..].
  cbn in Hs. by simplify_eq.
Qed.

(** No step counts anything. *)
Lemma step_counts (a : App) e a' out :
  step a e = Some (a', out) →
  app_query_count a' = app_query_count a ∧ app_blocked_count a' = app_blocked_count a.
Proof.
  intros Hs. destruct e as [result buf|i|result|i|method path now|now|i aaaa|i|]; cbn in Hs.
  - destruct (app_udp a); [|done..]. unfold udp_turn in Hs.
    destruct (handle_recv _ _ _) as [[]| | |]; by simplify_eq/=.
  - unfold query_task in Hs. destruct (app_queries a !! i) as [[data src]|]; [|done].
    cbn in Hs. destruct (hd_result _); by simplify_eq/=.
  - unfold tcp_turn in Hs. destruct result; [case_decide|]; by simplify_eq/=.
  - unfold connection_task in Hs. destruct (app_connections a !! i) as [stream|]; [|done].
    cbn in Hs. destruct (handle_tcp_connection _ _) as [[result ?] ?]. destruct result; by simplify_eq/=.
  - destruct (app_api a); [|done]. destruct (build_router method path) as [request|]; [|done].
    cbn in Hs. destruct (serve_api_frame now request a) as [r Hr].
    destruct (serve_api now request a). cbn in Hr. by simplify_eq/=.
  - destruct (app_blocklist a); [|done]. by simplify_eq/=.
  - destruct (app_prefetch a !! i); [|done]. cbn in Hs. destruct (prefetch _ _ _); [|done]. by simplify_eq/=.
  - destruct (engine_background _ _); [|done..]. by simplify_eq/=.
  - by simplify_eq/=.
Qed.

(** *** Connections that send nothing *)

(** Any event but that a connection is served. *)
Definition unserved (e : event) : Prop := match e with ConnectionTask _ => False | _ => True end.

Lemma step_connections (a : App) e a' out :
  unserved e → step a e = Some (a', out) →
  app_connection_permits a' = match e with
                              | Connection (inl _) => (app_connection_permits a - 1)%nat
                              | _ => app_connection_permits a
                              end.
Proof.
  intros He Hs. destruct e as [result buf|i|result|i|method path now|now|i aaaa|i|]; cbn in Hs.
  - destruct (app_udp a); [|done..]. unfold udp_turn in Hs.
    destruct (handle_recv _ _ _) as [[]| | |]; by simplify_eq/=.
  - unfold query_task in Hs. destruct (app_queries a !! i) as [[data src]|]; [|done].
    cbn in Hs. destruct (hd_result _); by simplify_eq/=.
  - unfold tcp_turn in Hs. destruct result; [case_decide|]; simplify_eq/=; [done|lia|done].
  - done.
  - destruct (app_api a); [|done]. destruct (build_router method path) as [request|]; [|done].
    cbn in Hs. destruct (serve_api_frame now request a) as [r Hr].
    destruct (serve_api now request a). cbn in Hr. by simplify_eq/=.
  - destruct (app_blocklist a); [|done]. by simplify_eq/=.
  - destruct (app_prefetch a !! i); [|done]. cbn in Hs. destruct (prefetch _ _ _); [|done]. by simplify_eq/=.
  - destruct (engine_background _ _); [|done..]. by simplify_eq/=.
  - by simplify_eq/=.
Qed.

Lemma run_connections (streams : list T) (a : App) :
  app_connection_permits (run a (map (λ s, Connection (inl s)) streams)).1 =
    (app_connection_permits a - length streams)%nat.
Proof.
  revert a. induction streams as [|s streams IH]; intros a; cbn [map run length]; [cbn; lia|].
  destruct (step a (Connection (inl s))) as [[a1 out]|] eqn:E; [|done]. cbn [default].
  pose proof (step_connections a (Connection (inl s)) a1 out I E) as Ha1. cbn in Ha1. specialize (IH a1).
  unfold default, id. destruct (run a1 _). cbn in *. lia.
Qed.

Lemma run_unserved (events : list event) (a : App) :
  Forall unserved events → app_connection_permits a = 0%nat → app_connection_permits (run a events).1 = 0%nat.
Proof.
  revert a. induction events as [|e events IH]; intros a He Ha; cbn [run]; [done|].
  apply Forall_cons in He as [He Hes]. destruct (step a e) as [[a1 out]|] eqn:E; cbn.
  - specialize (IH a1 Hes). destruct (run a1 events). cbn in *. apply IH.
    rewrite (step_connections _ _ _ _ He E). destruct e as [| |[]| | | | | |]; lia.
  - specialize (IH a Hes Ha). by destruct (run a events).
Qed.

(** The TCP server waits for the bytes of a query without a timeout: 512 connections that send
    nothing keep all permits, and until one of them is closed every other is turned away. *)
Lemma tcp_server_starved now config (a : App) (streams : list T) (events : list event) stream :
  start now config = Ok a → length streams = MAX_CONNECTIONS → Forall unserved events →
  let a' := (run a (map (λ s, Connection (inl s)) streams ++ events)).1 in
  step a' (Connection (inl stream)) = Some (a', [Closed stream]).
Proof.
  intros Hs Hlen Hev a'. assert (Hp : app_connection_permits a' = 0%nat).
  { subst a'. rewrite run_app. pose proof (run_connections streams a) as Hc.
    destruct (run a (map _ streams)) as [a1 out1]. cbn [fst] in Hc.
    pose proof (run_unserved events a1 Hev) as Hu. destruct (run a1 events) as [a2 out2]. apply Hu.
    destruct (start_fields _ _ _ Hs) as (_ & _ & _ & _ & _ & _ & _ & _ & Hperm & _). lia. }
  cbn. unfold tcp_turn. by rewrite Hp.
Qed.

(** *** The start *)

Lemma custom_records_outcome entries acc :
  match custom_records entries acc with Ok _ | Panic => True | _ => False end.
Proof.
  revert acc. induction entries as [|e entries IH]; intros acc; cbn [custom_records]; [done|].
  pose proof (parse_custom_no_error e) as [Hd He]. destruct (parse_custom_dns_entry e) as [[]|err| |]; cbn.
  - apply IH.
  - by destruct (He err).
  - done.
  - done.
Qed.

(** The start fails on the custom records alone. *)
Lemma start_outcome now config :
  let panics := sc_blocklist_mode config ≠ lit "none" ∧
                ∃ e, e ∈ sc_custom_dns config ∧ parse_custom_dns_entry e = Panic in
  match start (S:=S) (T:=T) now config with
  | Ok _ => ¬ panics
  | Panic => panics
  | _ => False
  end.
Proof.
  cbv zeta. unfold start. case_decide; [|by intros []]. unfold blocklist_new. cbn [server_blocklist cfg_custom_dns].
  pose proof (custom_records_outcome (sc_custom_dns config) ∅) as Ho.
  pose proof (custom_records_panics (sc_custom_dns config) ∅) as Hp.
  destruct (custom_records _ _); cbn in *; [|done| |done].
  - by intros [_ ?%Hp].
  - split; [done|]. by apply Hp.
Qed.

Lemma privileged_port is_root addr :
  match (if decide (sa_port addr < 1024) then
           if is_root : bool then Ok () else Err (PrivilegedPort (sa_port addr)) else Ok ()) with
  | Ok _ => is_root = true ∨ 1024 <= sa_port addr
  | Err (PrivilegedPort port) => is_root = false ∧ port < 1024
  | _ => False
  end.
Proof. case_decide; [destruct is_root; auto|right; lia]. Qed.

(** *** What the replies depend on *)

(** The state without what belongs to the endpoints and the blocklist. *)
Definition dns_part (a : App) : App :=
  mkApp (app_resolver a) None 0 0 0 (app_api a) (app_prefetch a) (app_udp a)
    (app_query_permits a) (app_queries a) (app_connection_permits a) (app_connections a).

(** The packets that are sent and the connections with what was written to them. *)
Definition dns_outputs (outs : list output) : list output :=
  omap (λ o, match o with Http _ => None | _ => Some o end) outs.

Lemma dns_outputs_app l k : dns_outputs (l ++ k) = dns_outputs l ++ dns_outputs k.
Proof. apply omap_app. Qed.

Lemma dns_part_with_resolver r (a b : App) :
  dns_part a = dns_part b → dns_part (with_resolver r a) = dns_part (with_resolver r b).
Proof. destruct a, b. by intros [= -> -> -> -> -> -> -> ->]. Qed.

(** The step of the DNS part alone. *)
Definition dns_next (a : App) (e : event) : App * list output :=
  let '(a', out) := default (a, []) (step a e) in (dns_part a', dns_outputs out).

Lemma dns_next_part (a b : App) e : dns_part a = dns_part b → dns_next a e = dns_next b e.
Proof.
  intros Hab. destruct a as [r bl qc bc st api pre udp qp qs cp cs], b as [r' bl' qc' bc' st' api' pre' udp' qp' qs' cp' cs'].
  unfold dns_part in Hab. cbn in Hab. injection Hab as <- <- <- <- <- <- <- <-.
  unfold dns_next. destruct e as [result buf|i|result|i|method path now|now|i aaaa|i|]; cbn [step app_udp app_api app_prefetch app_blocklist].
  - destruct udp; [|done..]. cbn. unfold udp_turn. cbn [app_query_permits].
    by destruct (handle_recv _ _ _) as [[]| | |].
  - unfold query_task. cbn [app_queries]. destruct (qs !! i) as [[data src]|]; [|done]. cbn.
    by destruct (hd_result _).
  - unfold tcp_turn. cbn [app_connection_permits]. destruct result; [by case_decide|done].
  - unfold connection_task. cbn [app_connections]. destruct (cs !! i) as [stream|]; [|done]. cbn.
    destruct (handle_tcp_connection _ _) as [[result ?] ?]. by destruct result.
  - destruct api; [|done]. destruct (build_router method path) as [request|]; [|done]. by destruct request.
  - by destruct bl, bl'.
  - destruct (pre !! i); [|done]. cbn. by destruct (prefetch _ _ _).
  - cbn. by destruct (engine_background _ _).
  - done.
Qed.

Lemma run_dns_part (events : list event) (a b : App) :
  dns_part a = dns_part b → dns_outputs (run a events).2 = dns_outputs (run b events).2.
Proof.
  revert a b. induction events as [|e events IH]; intros a b Hab; [done|].
  pose proof (dns_next_part a b e Hab) as Hn. unfold dns_next in Hn. cbn [run].
  destruct (default (a, []) (step a e)) as [a' out], (default (b, []) (step b e)) as [b' out'].
  apply pair_equal_spec in Hn as [Ha' Hout]. specialize (IH a' b' Ha'). revert IH.
  destruct (run a' events), (run b' events). cbn [snd]. intros IH. by rewrite !dns_outputs_app, IH, Hout.
Qed.

(** *** Queries that never end *)

(** A question whose name is a pointer to the id, whose bytes are the same pointer. *)
Definition cyclic_query : bytes := [192; 0; 1; 0; 0; 1; 0; 0; 0; 0; 0; 0; 192; 0; 0; 1; 0; 1].
Definition cyclic_datagram (src : SocketAddr) : event := Datagram (inl (18%nat, src)) cyclic_query.

Lemma cyclic_handled (resolver : S) : hd_result (handle_query resolver cyclic_query) = Diverge.
Proof.
  unfold handle_query. by replace (decode_message cyclic_query) with (@Diverge DnsError.t Message) by by vm_compute.
Qed.

Lemma cyclic_received permits :
  handle_recv (inl 18%nat) cyclic_query permits =
    if decide (0 < permits)%nat then Ok (SpawnQuery cyclic_query) else Diverge.
Proof.
  unfold handle_recv. replace (slice cyclic_query 0 18) with (@Ok DnsError.t bytes cyclic_query) by by vm_compute.
  cbn [mbind outcome_bind]. case_decide; [done|].
  by replace (quick_error_response cyclic_query 2) with (@Diverge DnsError.t (option bytes)) by by vm_compute.
Qed.

Lemma attack_queries n src (a : App) :
  app_udp a = Listening → (n <= app_query_permits a)%nat →
  run a (replicate n (cyclic_datagram src)) =
    (with_queries (app_query_permits a - n) (app_queries a ++ replicate n (cyclic_query, src)) a, []).
Proof.
  revert a. induction n as [|n IH]; intros a Hu Hn; cbn [replicate run].
  { rewrite Nat.sub_0_r, app_nil_r. by destruct a. }
  unfold cyclic_datagram at 1. cbn [step]. rewrite Hu. unfold udp_turn. rewrite cyclic_received.
  rewrite decide_True by lia. simpl. rewrite IH; [|done|cbn; lia]. cbn.
  rewrite <-app_assoc. unfold with_queries. cbn. do 2 f_equal. lia.
Qed.

(** The loop is stuck, and no task will end. *)
Definition udp_dead (a : App) : Prop :=
  app_udp a = Stuck ∧ Forall (λ q, q.1 = cyclic_query) (app_queries a).

Lemma udp_dead_step (a : App) e a' out :
  udp_dead a → step a e = Some (a', out) →
  udp_dead a' ∧ Forall (λ o, ∀ data dst, o ≠ Packet data dst) out.
Proof.
  intros [Hu Hqs] Hs. destruct e as [result buf|i|result|i|method path now|now|i aaaa|i|]; cbn in Hs.
  - by rewrite Hu in Hs.
  - unfold query_task in Hs. destruct (app_queries a !! i) as [[data src]|] eqn:Ei; [|done].
    cbn in Hs. pose proof (Forall_lookup_1 _ _ _ _ Hqs Ei) as Hd. cbn in Hd. subst data.
    by rewrite cyclic_handled in Hs.
  - unfold tcp_turn in Hs. destruct result; [case_decide|]; simplify_eq; repeat constructor; done.
  - unfold connection_task in Hs. destruct (app_connections a !! i) as [stream|]; [|done].
    cbn in Hs. destruct (handle_tcp_connection _ _) as [[result ?] ?].
    destruct result; simplify_eq; repeat constructor; done.
  - destruct (app_api a); [|done]. destruct (build_router method path) as [request|]; [|done].
    cbn in Hs. destruct (serve_api_frame now request a) as [r Hr].
    destruct (serve_api now request a). cbn in Hr. simplify_eq. repeat constructor; done.
  - destruct (app_blocklist a); [|done]. simplify_eq/=. repeat constructor; done.
  - destruct (app_prefetch a !! i); [|done]. cbn in Hs. destruct (prefetch _ _ _); [|done].
    simplify_eq/=. repeat constructor; done.
  - destruct (engine_background _ _); [|done..]. simplify_eq/=. repeat constructor; done.
  - simplify_eq. split; [|constructor]. split; cbn; [by rewrite Hu|done].
Qed.

(** *** Who is answered *)

(** The query in an event, with its sender. *)
Definition received (e : event) : list (bytes * SocketAddr) :=
  match e with
  | Datagram (inl (len, src)) buf => [(take len buf, src)]
  | _ => []
  end.
Definition packets (outs : list output) : list (bytes * SocketAddr) :=
  omap (λ o, match o with Packet data dst => Some (data, dst) | _ => None end) outs.

(** A packet that answers one of the queries, sent to its sender. *)
Definition answered (queries : list (bytes * SocketAddr)) (packet : bytes * SocketAddr) : Prop :=
  ∃ query, (query, packet.2) ∈ queries ∧ answers_query query packet.1.

Lemma answered_mono queries queries' packet :
  queries ⊆ queries' → answered queries packet → answered queries' packet.
Proof. intros Hs (query & Hq & Ha). exists query. eauto. Qed.

(** What one step does to the open queries and the packets. *)
Definition accounts (queries : list (bytes * SocketAddr)) (a' : App) (out : list output) : Prop :=
  app_queries a' ⊆ queries ∧ (length (packets out) + length (app_queries a') <= length queries)%nat ∧
  Forall (answered queries) (packets out).

Lemma accounts_same (a' : App) out extra : packets out = [] → accounts (app_queries a' ++ extra) a' out.
Proof.
  intros Hout. unfold accounts. rewrite Hout, length_app.
  split_and!; [set_solver|cbn; lia|constructor].
Qed.

Lemma handle_recv_cases len buf permits :
  match handle_recv (inl len) buf permits with
  | Ok (SpawnQuery data) => data = take len buf
  | Ok (SendBusy response) => bytes_ok (take len buf) → answers_query (take len buf) response
  | _ => True
  end.
Proof.
  unfold handle_recv. destruct (slice buf 0 len) as [data|e| |] eqn:Es; [|done..].
  unfold slice in Es. case_decide; [|done]. injection Es as <-. rewrite drop_0, Nat.sub_0_r.
  cbn [mbind outcome_bind].
  case_decide; [done|]. destruct (quick_error_response _ _) as [[response|]| | |] eqn:Eq; [|done..].
  cbn. intros Hb. by eapply quick_error_answers.
Qed.

Lemma udp_turn_accounts result buf (a : App) :
  Forall (λ q, bytes_ok q.1) (received (Datagram result buf)) →
  accounts (app_queries a ++ received (Datagram result buf)) (udp_turn result buf a).1 (udp_turn result buf a).2.
Proof.
  intros Hb. unfold udp_turn. destruct result as [[len src]|e]; [|by apply accounts_same].
  pose proof (handle_recv_cases len buf (app_query_permits a)) as Hr.
  destruct (handle_recv _ _ _) as [[data|response|]|e| |]; [| | | | |];
    try by first [apply accounts_same|apply (accounts_same (with_udp _ a))].
  - subst data. unfold accounts. cbn. split_and!; [done|lia|constructor].
  - unfold accounts. cbn. rewrite length_app. cbn. split_and!; [set_solver|lia|].
    constructor; [|constructor]. exists (take len buf). apply Forall_cons in Hb as [Hb _].
    split; [set_solver|auto].
Qed.

Lemma packets_map (l : list bytes) src : packets (map (λ data, Packet data src) l) = map (λ data, (data, src)) l.
Proof. induction l as [|data l IH]; [done|]. cbn [map]. by rewrite <-IH. Qed.

Lemma query_task_accounts i (a a' : App) out :
  Forall (λ q, bytes_ok q.1) (app_queries a) → query_task i a = Some (a', out) →
  accounts (app_queries a) a' out.
Proof.
  intros Hb. unfold query_task. destruct (app_queries a !! i) as [[data src]|] eqn:Ei; [|done]. cbn [mbind option_bind].
  pose proof (Forall_lookup_1 _ _ _ _ Hb Ei) as Hd. cbn in Hd.
  destruct (udp_replies_answer (app_resolver a) data Hd) as [Hlen Hans].
  set (h := handle_query (app_resolver a) data) in *. intros Ht.
  assert (a' = with_queries (app_query_permits a + 1) (delete i (app_queries a)) (with_resolver (hd_resolver h) a) ∧
          out = map (λ packet, Packet packet src) (hd_sent h)) as [-> ->]
    by (destruct (hd_result h); [by injection Ht as <- <-..|done]).
  unfold accounts. rewrite packets_map, length_map. cbn [app_queries with_queries].
  pose proof (lookup_lt_Some _ _ _ Ei). rewrite length_delete by (by eexists). split_and!; [|lia|].
  - intros q Hq. apply list_elem_of_lookup in Hq as [j Hj]. destruct (decide (j < i)%nat).
    + rewrite list_lookup_delete_lt in Hj by done. by eapply list_elem_of_lookup_2.
    + rewrite list_lookup_delete_ge in Hj by lia. by eapply list_elem_of_lookup_2.
  - apply Forall_map, Forall_forall. intros p Hin. exists data. split; [|by apply Hans].
    by eapply list_elem_of_lookup_2.
Qed.

Lemma step_accounts (a : App) e a' out :
  Forall (λ q, bytes_ok q.1) (app_queries a ++ received e) → step a e = Some (a', out) →
  accounts (app_queries a ++ received e) a' out.
Proof.
  intros Hb Hs. apply Forall_app in Hb as [Hbq Hbe].
  destruct e as [result buf|i|result|i|method path now|now|i aaaa|i|]; cbn [step] in Hs.
  - destruct (app_udp a); [|done..]. injection Hs as Hs. pose proof (udp_turn_accounts result buf a Hbe) as Ha.
    by rewrite Hs in Ha.
  - cbn [received]. rewrite app_nil_r. by eapply query_task_accounts.
  - unfold tcp_turn in Hs. destruct result; [case_decide|]; simplify_eq; by apply (accounts_same (with_connections _ _ a)) || by apply accounts_same.
  - unfold connection_task in Hs. destruct (app_connections a !! i) as [stream|]; [|done].
    cbn in Hs. destruct (handle_tcp_connection _ _) as [[result ?] r].
    destruct result; simplify_eq; by apply (accounts_same (with_connections _ _ (with_resolver r a))).
  - destruct (app_api a); [|done]. destruct (build_router method path) as [request|]; [|done].
    cbn in Hs. destruct (serve_api_frame now request a) as [r Hr].
    destruct (serve_api now request a). cbn in Hr. simplify_eq. by apply (accounts_same (with_resolver r a)).
  - destruct (app_blocklist a) as [bl|]; [|done]. simplify_eq/=. by apply (accounts_same (with_blocklist _ a)).
  - destruct (app_prefetch a !! i); [|done]. cbn in Hs. destruct (prefetch _ _ _); [|done].
    simplify_eq/=. by apply (accounts_same (with_resolver _ a)).
  - destruct (engine_background _ _); [|done..]. simplify_eq/=. by apply (accounts_same (with_resolver _ a)).
  - simplify_eq. by apply (accounts_same (with_udp _ a)).
Qed.

Lemma run_accounts (events : list event) queries (a : App) :
  Forall (λ q, bytes_ok q.1) (queries ++ concat (map received events)) → app_queries a ⊆ queries →
  let '(a', outs) := run a events in
  (length (packets outs) + length (app_queries a') <= length (app_queries a) + length (concat (map received events)))%nat ∧
  Forall (answered (queries ++ concat (map received events))) (packets outs).
Proof.
  revert queries a. induction events as [|e events IH]; intros queries a Hb Hq; cbn [run map concat].
  { cbn. split; [lia|constructor]. }
  cbn [map concat] in Hb. rewrite app_assoc in Hb.
  assert (Hstep : accounts (app_queries a ++ received e) (default (a, []) (step a e)).1 (default (a, []) (step a e)).2).
  { destruct (step a e) as [[a' out]|] eqn:E; [|by apply accounts_same].
    apply step_accounts; [|done]. apply Forall_app in Hb as [Hb _]. rewrite Forall_forall in *.
    intros q. rewrite elem_of_app. intros [Hin|Hin]; apply Hb, elem_of_app; auto. }
  destruct (default (a, []) (step a e)) as [a1 out]. destruct Hstep as (Hsub & Hlen & Hans). cbn [fst snd] in *.
  specialize (IH (queries ++ received e) a1 Hb). destruct (run a1 events) as [a2 outs].
  destruct IH as [Hlen' Hans']; [set_solver|]. unfold packets in *. rewrite omap_app, !length_app in *. split; [lia|].
  apply Forall_app. rewrite app_assoc. split; [|done].
  eapply Forall_impl; [done|]. intros p. apply answered_mono. set_solver.
Qed.
End lemmas.

(** ** Properties *)

Section properties.
Context {S T : Type} `{Engine S} `{TcpStream T} `{Unicode} `{Sources}.

(** C31: once the servers run, every permit is free or held by a task, so that at most 1024 queries
    and 512 connections are worked on at a time, whatever comes in and however tasks end. *)
Theorem tasks_bounded now config (a : App S T) (events : list (event T)) :
  start now config = Ok a →
  let a' := (run a events).1 in
  permits_ok a' ∧ (length (app_queries a') <= Z.to_nat 1024)%nat ∧ (length (app_connections a') <= 512)%nat.
Proof.
  intros Hs a'. assert (Hp : permits_ok a').
  { apply run_invariant; [intros; by eapply step_permits|].
    destruct (start_fields _ _ _ Hs) as (_ & _ & _ & _ & _ & _ & Hq & Hqs & Hc & Hcs).
    unfold permits_ok. by rewrite Hq, Hqs, Hc, Hcs. }
  split; [done|]. destruct Hp as [Hq Hc]. unfold MAX_CONCURRENT_QUERIES, MAX_CONNECTIONS in *. lia.
Qed.

(** C19: the replies to queries depend on nothing in the configuration but the flags for IPv6 and
    DNSSEC, the size of the cache, the domains to prefetch, and whether the endpoints are served:
    the blocklist, custom records, the upstream server, the rate limits, the DNSSEC policy and the
    metrics flag have no effect on them. *)
Theorem options_ignored now1 now2 config1 config2 (a1 a2 : App S T) (events : list (event T)) :
  start now1 config1 = Ok a1 → start now2 config2 = Ok a2 →
  sc_enable_ipv6 config1 = sc_enable_ipv6 config2 → sc_dnssec_ok config1 = sc_dnssec_ok config2 →
  sc_cache_size config1 = sc_cache_size config2 →
  sc_prefetch_domains config1 = sc_prefetch_domains config2 →
  sc_api_bind config1 = sc_api_bind config2 →
  dns_outputs (run a1 events).2 = dns_outputs (run a2 events).2.
Proof.
  intros Hs1 Hs2 Hv6 Hdo Hsize Hpre Hapi. apply run_dns_part.
  destruct (start_fields _ _ _ Hs1) as (Hr & _ & _ & Ha & Hp & Hu & Hq & Hqs & Hc & Hcs).
  destruct (start_fields _ _ _ Hs2) as (Hr' & _ & _ & Ha' & Hp' & Hu' & Hq' & Hqs' & Hc' & Hcs').
  unfold dns_part. rewrite Hr, Hr', Ha, Ha', Hp, Hp', Hu, Hu', Hq, Hq', Hqs, Hqs', Hc, Hc', Hcs, Hcs'.
  by rewrite Hv6, Hdo, Hsize, Hpre, Hapi.
Qed.

(** C20: [main] serves exactly when the configuration, the file's values overridden by the options,
    is valid, the port may be bound, and no custom record makes the blocklist panic; otherwise it
    exits with all the errors, or with the port.  It always gets that far. *)
Theorem main_spec `{ConfigFiles} path cli is_root now :
  let file := from_file path in
  let c := merge_cli file cli in
  match main (S:=S) (T:=T) path cli is_root now with
  | Ok a =>
    accepted c ∧
    (∃ addr, parse_socket_addr (default (fc_bind file) (co_bind cli)) = Some addr ∧
             (is_root = true ∨ 1024 <= sa_port addr)) ∧
    app_resolver a = engine_new (co_ipv6 cli || fc_ipv6 file) (co_dnssec cli || fc_dnssec file)
                       (default (fc_cache_size file) (co_cache_size cli)) ∧
    app_prefetch a = (if co_no_prefetch cli || fc_no_prefetch file then [] else PREFETCH_DOMAINS) ∧
    app_udp a = Listening
  | Err (ConfigurationErrors errors) => ¬ accepted c ∧ errors = validate_errors c ∧ errors ≠ []
  | Err (PrivilegedPort port) => accepted c ∧ is_root = false ∧ port < 1024
  | Panic => accepted c ∧ fc_blocklist_mode c ≠ lit "none" ∧
             ∃ e, e ∈ fc_custom_dns c ∧ parse_custom_dns_entry e = Panic
  | Diverge => False
  end.
Proof.
  cbv zeta. unfold main. destruct (validate (merge_cli (from_file path) cli)) as [[]|errors] eqn:Ev.
  2: { by apply validate_inr in Ev. }
  apply validate_inl in Ev. pose proof Ev as [[addr Ha] _].
  unfold check_bind_privileges, to_server_config. rewrite Ha.
  pose proof (privileged_port is_root addr) as Hport.
  destruct (if decide (sa_port addr < 1024) then _ else _) as [[]|[]| |]; cbn; [|done|naive_solver|done..].
  match goal with |- context [start now ?c] => pose proof (start_outcome (S:=S) (T:=T) now c) as Ho;
    pose proof (start_fields (S:=S) (T:=T) now c) as Hf; destruct (start now c) as [a|e| |] end; [|done..].
  destruct (Hf a eq_refl) as (Hr & _ & _ & _ & Hp & Hu & _). cbn in Hr, Hp. split_and!; [done| | | |done].
  - exists addr. split; [|done]. rewrite <-Ha. cbn. by destruct (co_bind cli).
  - rewrite Hr. by destruct (co_ipv6 cli), (co_dnssec cli), (co_cache_size cli).
  - rewrite Hp. by destruct (co_no_prefetch cli).
Qed.

(** 1025 datagrams of 18 bytes end the UDP service: each of the first 1024 holds a task, and
    its permit, for ever, as its name is a pointer to itself; the next one is answered by the
    receive loop itself, which never comes back, and no UDP packet is sent again whatever follows. *)
Theorem udp_server_killed now config (a : App S T) src (events : list (event T)) :
  start now config = Ok a →
  let '(a', sent) := run a (replicate (Z.to_nat 1025) (cyclic_datagram src)) in
  sent = [] ∧ app_udp a' = Stuck ∧
  Forall (λ o, ∀ data dst, o ≠ Packet data dst) (run a' events).2.
Proof.
  intros Hs. destruct (start_fields _ _ _ Hs) as (_ & _ & _ & _ & _ & Hu & Hq & Hqs & _ & _).
  change (Z.to_nat 1025) with (MAX_CONCURRENT_QUERIES + 1)%nat. rewrite replicate_add, run_app.
  rewrite attack_queries by (rewrite ?Hq; done). rewrite Hqs, Hq, Nat.sub_diag.
  assert (Hheld : Forall (λ q, q.1 = cyclic_query) (replicate MAX_CONCURRENT_QUERIES (cyclic_query, src)))
    by by apply Forall_replicate.
  revert Hheld. generalize (replicate MAX_CONCURRENT_QUERIES (cyclic_query, src)) as held. intros held Hheld.
  cbn [app replicate run]. unfold cyclic_datagram. cbn [step with_queries app_udp]. rewrite Hu.
  unfold udp_turn. cbn [with_queries app_query_permits]. rewrite cyclic_received, decide_False by lia.
  simpl default. cbn [app]. split_and!; [done|done|].
  apply (run_outputs udp_dead); [intros; by eapply udp_dead_step|].
  done.
Qed.

(** over UDP every packet that is ever sent answers, with its id and the QR bit, a datagram that
    was received, and goes to the sender of that datagram; and there are no more packets than
    datagrams, those that still wait for their task not counted. *)
Theorem packets_answered now config (a : App S T) (events : list (event T)) :
  start now config = Ok a →
  Forall (λ q, bytes_ok q.1) (concat (map received events)) →
  let '(a', outs) := run a events in
  (length (packets outs) + length (app_queries a') <= length (concat (map received events)))%nat ∧
  ∀ data dst, (data, dst) ∈ packets outs →
    ∃ query, (query, dst) ∈ concat (map received events) ∧ answers_query query data.
Proof.
  intros Hs Hb. destruct (start_fields _ _ _ Hs) as (_ & _ & _ & _ & _ & _ & _ & Hqs & _).
  pose proof (run_accounts events [] a Hb) as Hr. rewrite Hqs in Hr. destruct (run a events) as [a' outs].
  destruct Hr as [Hlen Hans]; [set_solver|]. split; [done|]. intros data dst Hin.
  rewrite Forall_forall in Hans. by apply (Hans (data, dst)).
Qed.

(** the statistics of the endpoints never move: whatever the servers have done, the number of
    queries, of blocked queries, the hit rate and the size of the cache are reported as zero, and
    a reload of the blocklist, which is answered with "ok", leaves it as it is. *)
Theorem statistics_constant now config (a : App S T) (events : list (event T)) clock :
  start now config = Ok a →
  let a' := (run a events).1 in
  (∃ hits misses, serve_api clock GetStats a' = (a', StatsResponse 0 0 hits misses (f64_of_Z 0) 0)) ∧
  (∃ enabled, serve_api clock GetBlocklistStats a' = (a', BlocklistStatsResponse enabled 0 0 0)) ∧
  (serve_api clock PostBlocklistReload a').1 = a'.
Proof.
  intros Hs a'. assert (Hz : app_query_count a' = 0 ∧ app_blocked_count a' = 0).
  { apply (run_invariant (λ a, app_query_count a = 0 ∧ app_blocked_count a = 0)).
    - intros b e b' out Hb He. by rewrite !(proj1 (step_counts _ _ _ _ He)), !(proj2 (step_counts _ _ _ _ He)).
    - by destruct (start_fields _ _ _ Hs) as (_ & ? & ? & _). }
  destruct Hz as [Hq Hb]. split_and!; [| |done].
  - cbn [serve_api]. unfold stats_handler. rewrite Hq, Hb.
    destruct (engine_cache_stats _) as [h m]. by exists h, m.
  - cbn [serve_api]. unfold blocklist_stats_handler. rewrite Hq, Hb.
    destruct (app_blocklist a'); by eexists.
Qed.
End properties.

(** ** A concrete process *)

Module Toy.
#[export] Instance canned_engine : Engine canned := {
  engine_resolver := canned_resolver;
  engine_new _ _ _ := sample_answer;
  engine_cache_stats _ := (3, 4);
  engine_flush_cache s := s;
  engine_background _ s := Ok s;
}.
#[export] Instance no_sources : Sources := {|
  http_client_builds := true; http_get _ := None; read_to_string _ := None |}.
#[export] Instance no_files : ConfigFiles := {|
  path_exists _ := false; config_text _ := None; toml_from_str _ := None |}.

Definition no_options : CliOverrides :=
  mkCliOverrides None false false true None false None false false None None None None false.
(** A blocklist, custom records, an upstream server and a rate limit. *)
Definition filtering : FastDnsConfig := {|
  fc_bind := DEFAULT_BIND; fc_ipv6 := false; fc_dnssec := false; fc_no_prefetch := true;
  fc_cache_size := DEFAULT_CACHE_SIZE; fc_verbose := false; fc_upstream := Some (lit "1.1.1.1:53");
  fc_doh := true; fc_dot := false; fc_blocklist_mode := lit "all"; fc_blocklist_sources := [];
  fc_blocklist := [lit "a"]; fc_whitelist := []; fc_custom_dns := [lit "b = 10.0.0.1"];
  fc_nullroute := lit "0.0.0.0"; fc_nullroute_v6 := lit "::"; fc_block_response := lit "nullroute";
  fc_rate_limit_qps := 1; fc_rate_limit_burst := 1; fc_log_file := []; fc_log_level := lit "info";
  fc_api_bind := []; fc_metrics := true; fc_tls_cert := []; fc_tls_key := [];
  fc_dnssec_policy := lit "enforce"; fc_config_path := None |}.

Definition server_config (c : FastDnsConfig) : ServerConfig :=
  match to_server_config c with
  | Ok sc => sc
  | _ => mkServerConfig (mkSocketAddr (V4 []) 0) false false [] 0 false None 0 0 [] None false [] [] [] [] [] [] [] [] []
  end.
Definition plain_config : ServerConfig := server_config (merge_cli FastDnsConfig_default no_options).
Definition client : SocketAddr := mkSocketAddr (V4 [192; 0; 2; 9]) 5353.
Definition process `{Unicode} (config : ServerConfig) : App canned mem_stream :=
  match start 0 config with
  | Ok a => a
  | _ => mkApp sample_answer None 0 0 0 false [] Died 0 [] 0 []
  end.
Definition a_query : list (event mem_stream) := [Datagram (inl (19%nat, client)) sample_query_bytes; QueryTask 0].
End Toy.
#[local] Existing Instances ascii_unicode Toy.canned_engine Toy.no_sources Toy.no_files.

Lemma tasks_bounded_witness :
  permits_ok (run (Toy.process Toy.plain_config) Toy.a_query).1.
Proof.
  apply (tasks_bounded 0 Toy.plain_config (Toy.process Toy.plain_config) Toy.a_query). reflexivity.
Defined.

(** The blocked name is answered as without the blocklist. *)
Lemma options_ignored_witness :
  let filtering := Toy.process (Toy.server_config Toy.filtering) in
  is_Some (app_blocklist filtering) ∧
  length (run filtering Toy.a_query).2 = 1%nat ∧
  dns_outputs (run filtering Toy.a_query).2 =
    dns_outputs (run (Toy.process Toy.plain_config) Toy.a_query).2.
Proof.
  split; [by eexists|]. split; [reflexivity|].
  apply (options_ignored 0 0 (Toy.server_config Toy.filtering) Toy.plain_config); reflexivity.
Defined.

Lemma udp_server_killed_witness :
  Forall (λ o, ∀ data dst, o ≠ Packet data dst)
    (run (run (Toy.process Toy.plain_config) (replicate (Z.to_nat 1025) (cyclic_datagram Toy.client))).1
       Toy.a_query).2.
Proof.
  pose proof (udp_server_killed 0 Toy.plain_config (Toy.process Toy.plain_config) Toy.client Toy.a_query eq_refl) as Hk.
  destruct (run (Toy.process Toy.plain_config) (replicate _ _)). apply Hk.
Defined.

Lemma packets_answered_witness :
  let '(a', outs) := run (Toy.process Toy.plain_config) Toy.a_query in
  ∀ data dst, (data, dst) ∈ packets outs →
    ∃ query, (query, dst) ∈ [(sample_query_bytes, Toy.client)] ∧ answers_query query data.
Proof.
  pose proof (packets_answered 0 Toy.plain_config (Toy.process Toy.plain_config) Toy.a_query eq_refl) as Hp.
  destruct (run (Toy.process Toy.plain_config) Toy.a_query) as [a' outs].
  apply Hp. repeat constructor; by vm_compute.
Defined.

Lemma statistics_constant_witness :
  ∃ hits misses, (serve_api 7 GetStats (run (Toy.process Toy.plain_config) Toy.a_query).1).2 =
    StatsResponse 0 0 hits misses (f64_of_Z 0) 0.
Proof.
  destruct (statistics_constant 0 Toy.plain_config (Toy.process Toy.plain_config) Toy.a_query 7 eq_refl)
    as [(h & m & ->) _]. by exists h, m.
Defined.

(** The defaults are served to root, and need root. *)
Example main_default :
  main (S:=canned) (T:=mem_stream) [] Toy.no_options false 0 = Err (PrivilegedPort 53).
Proof. reflexivity. Qed.
