(* ===== verification/Process.v ===== *)
(** * The life of the process (src/main.rs, lines 58-148 and 420-531, and src/server/udp.rs,
    lines 52-127)

    [App] is what the servers do; here is the process around it: the runtime
    with its worker threads, the sockets that may not be bound, the task that
    waits for a signal, the wait of [main] for the servers, the pause before
    the end, and the end itself, for which the runtime waits for its threads.
    The service for Windows is the same with the UDP server alone.

    A task runs on a worker thread.  One that waits for what never comes does
    not hold its thread; one that computes for ever does, and when no thread
    is left nothing happens any more: sockets and timers are the threads' work
    too.  [Hang] is the event of a task that never comes back. *)

From stdpp Require Import gmap strings.
From S2P Require Import Prelude Str Types Message Async Lru Cache RootHints Prefetch Server Blocklist NetAddr Config App.
#[local] Open Scope Z_scope.

(** ** The state *)

(** The program as a daemon, or as a service of Windows. *)
Inductive kind := Daemon | Service.

(** The life of [main]: it waits for the servers, pauses since a time, drops the runtime, and is
    over. *)
Inductive phase := Serving | Grace (since : Z) | Leaving | Exited.

Definition SHUTDOWN_GRACE_PERIOD : Z := 5 * SEC.

(** The sockets that can be bound: the resolver's, and those of the servers. *)
Record Sockets := mkSockets { so_resolver : bool; so_udp : bool; so_tcp : bool; so_api : bool }.

Section process.
Context {S T : Type} `{Engine S} `{TcpStream T} `{Unicode} `{Sources}.

(** [p_query_hung] and [p_connection_hung] go with the tasks of [p_app] and say which will never
    come back; [p_idle] counts the worker threads that are not in a computation without end, of
    [p_workers]. *)
Record Process := mkProcess {
  p_kind : kind;
  p_app : App S T;
  p_tcp : bool;
  p_prefetcher : option Prefetcher;
  p_blocklist_loads : bool;
  p_query_hung : list bool;
  p_connection_hung : list bool;
  p_workers : nat;
  p_idle : nat;
  p_waits_signal : bool;
  p_cancel : bool;
  p_phase : phase;
}.

Inductive process_event :=
  (** An event of the servers. *)
  | Handle (e : event T)
  (** The task of an event starts and never comes back; whether it computes or waits. *)
  | Hang (e : event T) (busy : bool)
  (** The prefetch task moves on by itself. *)
  | Prefetching (now : Z) (e : pf_event)
  (** SIGINT or SIGTERM, or the stop of the service; the UDP loop sees the flag. *)
  | Terminate
  | SeeFlag
  (** [main] sees that a server has ended; its pause is over; the threads have come to rest. *)
  | Join (now : Z)
  | GraceOver (now : Z)
  | Shutdown.

(** *** Updates *)

Definition with_app (a : App S T) (p : Process) : Process :=
  mkProcess (p_kind p) a (p_tcp p) (p_prefetcher p) (p_blocklist_loads p) (p_query_hung p) (p_connection_hung p)
    (p_workers p) (p_idle p) (p_waits_signal p) (p_cancel p) (p_phase p).
Definition with_prefetcher (pf : option Prefetcher) (p : Process) : Process :=
  mkProcess (p_kind p) (p_app p) (p_tcp p) pf (p_blocklist_loads p) (p_query_hung p) (p_connection_hung p)
    (p_workers p) (p_idle p) (p_waits_signal p) (p_cancel p) (p_phase p).
Definition with_loads (loads : bool) (p : Process) : Process :=
  mkProcess (p_kind p) (p_app p) (p_tcp p) (p_prefetcher p) loads (p_query_hung p) (p_connection_hung p)
    (p_workers p) (p_idle p) (p_waits_signal p) (p_cancel p) (p_phase p).
Definition with_hung (queries connections : list bool) (p : Process) : Process :=
  mkProcess (p_kind p) (p_app p) (p_tcp p) (p_prefetcher p) (p_blocklist_loads p) queries connections
    (p_workers p) (p_idle p) (p_waits_signal p) (p_cancel p) (p_phase p).
Definition with_idle (idle : nat) (p : Process) : Process :=
  mkProcess (p_kind p) (p_app p) (p_tcp p) (p_prefetcher p) (p_blocklist_loads p) (p_query_hung p) (p_connection_hung p)
    (p_workers p) idle (p_waits_signal p) (p_cancel p) (p_phase p).
Definition with_signal (waits cancel : bool) (p : Process) : Process :=
  mkProcess (p_kind p) (p_app p) (p_tcp p) (p_prefetcher p) (p_blocklist_loads p) (p_query_hung p) (p_connection_hung p)
    (p_workers p) (p_idle p) waits cancel (p_phase p).
Definition with_phase (ph : phase) (p : Process) : Process :=
  mkProcess (p_kind p) (p_app p) (p_tcp p) (p_prefetcher p) (p_blocklist_loads p) (p_query_hung p) (p_connection_hung p)
    (p_workers p) (p_idle p) (p_waits_signal p) (p_cancel p) ph.

(** ** The servers *)

(** The servers' tasks get on while [main] waits or pauses and a thread is left. *)
Definition alive (p : Process) : Prop :=
  (0 < p_idle p)%nat ∧ match p_phase p with Serving | Grace _ => True | Leaving | Exited => False end.
#[export] Instance alive_dec p : Decision (alive p).
Proof. unfold alive. destruct (p_phase p); apply _. Defined.

(** The running future of a domain of the prefetch list. *)
Definition prefetching (pf : Prefetcher) (domain : nat) : option nat :=
  fst <$> list_find (λ r, rn_domain r = domain) (pf_running pf).

(** What the prefetch task is like after a lookup; [None] when the lookup does not run. *)
Definition prefetched (p : Process) (domain : nat) (aaaa : bool) : option Prefetcher :=
  pf ← p_prefetcher p;
  i ← prefetching pf domain;
  pf_step (length (app_prefetch (p_app p))) 0 (Lookup i aaaa) pf.

(** Whether the task of an event is there to run. *)
Definition may_run (p : Process) (e : event T) : Prop :=
  match e with
  | QueryTask i => p_query_hung p !! i = Some false
  | ConnectionTask i => p_connection_hung p !! i = Some false
  | Connection _ => p_tcp p = true
  | BlocklistLoad _ => p_blocklist_loads p = true
  | Prefetch domain aaaa => is_Some (prefetched p domain aaaa)
  | Signal => False
  | _ => True
  end.
#[export] Instance may_run_dec p e : Decision (may_run p e).
Proof. destruct e; cbn; apply _. Defined.

(** The tasks that are there after an event of the servers. *)
Definition track (e : event T) (a : App S T) (p : Process) : Process :=
  match e with
  | Datagram _ _ =>
    if decide (length (p_query_hung p) < length (app_queries a))%nat
    then with_hung (p_query_hung p ++ [false]) (p_connection_hung p) p else p
  | QueryTask i => with_hung (delete i (p_query_hung p)) (p_connection_hung p) p
  | Connection _ =>
    if decide (length (p_connection_hung p) < length (app_connections a))%nat
    then with_hung (p_query_hung p) (p_connection_hung p ++ [false]) p else p
  | ConnectionTask i => with_hung (p_query_hung p) (delete i (p_connection_hung p)) p
  | BlocklistLoad _ => with_loads false p
  | Prefetch domain aaaa => with_prefetcher (prefetched p domain aaaa) p
  | _ => p
  end.

(** The receive loop of a daemon is a task, that of the service runs in the thread of the
    service. *)
Definition stuck_workers (p : Process) (a : App S T) : nat :=
  match p_kind p, app_udp (p_app p), app_udp a with
  | Daemon, Listening, Stuck => 1
  | _, _, _ => 0
  end.

Definition handle (e : event T) (p : Process) : option (Process * list (output T)) :=
  if decide (alive p ∧ may_run p e) then
    '(a, out) ← step (p_app p) e;
    Some (with_app a (with_idle (p_idle p - stuck_workers p a) (track e a p)), out)
  else None.

(** The task of an event never comes back: what it waits for, or computes, has no end. *)
Definition endless (p : Process) (e : event T) (busy : bool) : Prop :=
  match e with
  | QueryTask i =>
    match app_queries (p_app p) !! i with
    | Some (data, _) => hd_result (handle_query (app_resolver (p_app p)) data) = Diverge ∧
                        (decode_message data = Diverge → busy = true)
    | None => False
    end
  | ConnectionTask i =>
    match app_connections (p_app p) !! i with
    | Some stream => (handle_tcp_connection stream (app_resolver (p_app p))).1.1 = Diverge
    | None => False
    end
  | Prefetch domain aaaa =>
    match app_prefetch (p_app p) !! domain with
    | Some name => prefetch name (if (aaaa : bool) then 28 else 1) (app_resolver (p_app p)) = None
    | None => False
    end
  | Background i => engine_background i (app_resolver (p_app p)) = Diverge
  | _ => False
  end.

(** The prefetch task is one task, which a computation without end keeps; a lookup that waits for
    ever is dropped with its timeout. *)
Definition hung (e : event T) (busy : bool) (p : Process) : Process :=
  match e with
  | QueryTask i => with_hung (<[i := true]> (p_query_hung p)) (p_connection_hung p) p
  | ConnectionTask i => with_hung (p_query_hung p) (<[i := true]> (p_connection_hung p)) p
  | Prefetch _ _ => if busy then with_prefetcher None p else p
  | _ => p
  end.

(** ** Steps *)

(** The main future waits for one of the servers to end; the TCP server ends only when it cannot be
    bound, and a service has none. *)
Definition server_ended (p : Process) : Prop :=
  (app_udp (p_app p) = Died ∨ app_udp (p_app p) = Stopped) ∨ (p_kind p = Daemon ∧ p_tcp p = false).

#[export] Instance loop_state_eq_dec : EqDecision loop_state.
Proof. solve_decision. Defined.
#[export] Instance phase_eq_dec : EqDecision phase.
Proof. solve_decision. Defined.
#[export] Instance kind_eq_dec : EqDecision kind.
Proof. solve_decision. Defined.
#[export] Instance server_ended_dec p : Decision (server_ended p).
Proof. unfold server_ended. apply _. Defined.

Inductive pstep : Process → process_event → Process → list (output T) → Prop :=
  | step_handle p e p' out : handle e p = Some (p', out) → pstep p (Handle e) p' out
  | step_hang p e busy :
    alive p → may_run p e → endless p e busy →
    pstep p (Hang e busy) (with_idle (p_idle p - if busy then 1 else 0) (hung e busy p)) []
  | step_prefetching p now e pf pf' :
    alive p → p_prefetcher p = Some pf → (∀ i aaaa, e ≠ Lookup i aaaa) →
    pf_step (length (app_prefetch (p_app p))) now e pf = Some pf' →
    pstep p (Prefetching now e) (with_prefetcher (Some pf') p) []
  | step_terminate p :
    alive p → p_waits_signal p = true → pstep p Terminate (with_signal false true p) []
  (** Nobody waits for a second signal, and with no thread left nobody hears the first. *)
  | step_ignored p :
    ¬ (alive p ∧ p_waits_signal p = true) → p_phase p ≠ Exited → pstep p Terminate p []
  | step_see_flag p :
    alive p → p_cancel p = true → app_udp (p_app p) = Listening →
    pstep p SeeFlag (with_app (with_udp Stopped (p_app p)) p) []
  | step_join p now :
    p_phase p = Serving → server_ended p →
    pstep p (Join now) (with_phase (match p_kind p with Daemon => Grace now | Service => Leaving end) p) []
  | step_grace_over p since now :
    p_phase p = Grace since → (0 < p_idle p)%nat → since + SHUTDOWN_GRACE_PERIOD <= now →
    pstep p (GraceOver now) (with_phase Leaving p) []
  (** The runtime is dropped when no thread is in a task. *)
  | step_shutdown p :
    p_phase p = Leaving → p_idle p = p_workers p → pstep p Shutdown (with_phase Exited p) [].

(** A sequence of steps, with what they put out. *)
Inductive psteps : Process → list process_event → Process → list (output T) → Prop :=
  | psteps_nil p : psteps p [] p []
  | psteps_cons p e p1 out es p2 outs :
    pstep p e p1 out → psteps p1 es p2 outs → psteps p (e :: es) p2 (out ++ outs).

(** ** The start *)

(** [start_api]: whether the endpoints are served. *)
Definition start_api (bind_addr : str) (bound : bool) : bool :=
  match parse_socket_addr bind_addr with
  | Some addr => bound
  | None => false
  end.

(** The servers with the sockets that could be bound, and the process around them. *)
Definition bound_app (sockets : Sockets) (config : ServerConfig) (a : App S T) : App S T :=
  mkApp (app_resolver a) (app_blocklist a) (app_query_count a) (app_blocked_count a) (app_start_time a)
    (match sc_api_bind config with Some api_bind => start_api api_bind (so_api sockets) | None => false end)
    (app_prefetch a) (if so_udp sockets then Listening else Stopped)
    (app_query_permits a) (app_queries a) (app_connection_permits a) (app_connections a).

Definition daemon (workers : nat) (sockets : Sockets) (config : ServerConfig) (a : App S T) : Process :=
  mkProcess Daemon (bound_app sockets config a) (so_tcp sockets)
    (if decide (so_udp sockets = true ∧ app_prefetch a ≠ []) then Some prefetcher_new else None)
    (bool_decide (is_Some (app_blocklist a))) [] [] workers workers true false Serving.

(** The part of [main] that serves, from the making of the runtime on. *)
Definition launch (workers : nat) (sockets : Sockets) (now : Z) (config : ServerConfig) : outcome unit Process :=
  if negb (so_resolver sockets) then Panic else
  a ← start now config; Ok (daemon workers sockets config a).

(** [my_service_main]: the resolver and the UDP server, on the configuration that [main] has left in
    [CONFIG]. *)
Definition my_service_main (workers : nat) (sockets : Sockets) (now : Z) (config : ServerConfig)
    : outcome unit Process :=
  if negb (so_resolver sockets) then Panic else
  let resolver := engine_new (sc_enable_ipv6 config) (sc_dnssec_ok config) (sc_cache_size config) in
  let a := mkApp resolver None 0 0 now false (sc_prefetch_domains config)
             (if so_udp sockets then Listening else Stopped) MAX_CONCURRENT_QUERIES [] MAX_CONNECTIONS [] in
  Ok (mkProcess Service a false
        (if decide (so_udp sockets = true ∧ app_prefetch a ≠ []) then Some prefetcher_new else None)
        false [] [] workers workers true false Serving).
End process.
Arguments Process : clear implicits.
Arguments process_event : clear implicits.

(** ** Lemmas *)

Section lemmas.
Context {S T : Type} `{Engine S} `{TcpStream T} `{Unicode} `{Sources}.

Abbreviation Process := (Process S T).
Abbreviation process_event := (process_event T).

(** The cases of a step. *)
Ltac step_cases Hs :=
  destruct Hs as [p e p' out Eh|p e busy Ha Hm He|p now e pf pf' Ha Ep Hne E|p Ha Hw|p Hn Hp|p Ha Hc Hu
                 |p now Hp He|p since now Hp Hi Hn|p Hp Hi].

Lemma psteps_app (p p1 p2 : Process) es1 es2 out1 out2 :
  psteps p es1 p1 out1 → psteps p1 es2 p2 out2 → psteps p (es1 ++ es2) p2 (out1 ++ out2).
Proof.
  induction 1 as [|p e p1 out es p3 outs Hs _ IH]; intros Hr; [done|]. cbn. rewrite <-app_assoc.
  econstructor; [exact Hs|auto].
Qed.

Lemma psteps_one (p p' : Process) e out : pstep p e p' out → psteps p [e] p' out.
Proof. intros Hs. rewrite <-(app_nil_r out). econstructor; [exact Hs|constructor]. Qed.

(** A predicate that every step keeps. *)
Lemma psteps_invariant (P : Process → Prop) (p p' : Process) es outs :
  (∀ p e p' out, P p → pstep p e p' out → P p') → P p → psteps p es p' outs → P p'.
Proof. intros Hstep Hp. induction 1; eauto. Qed.

(** What an event of the servers does. *)
Lemma handle_inv e (p p' : Process) out :
  handle e p = Some (p', out) →
  alive p ∧ may_run p e ∧ ∃ a, step (p_app p) e = Some (a, out) ∧
    p' = with_app a (with_idle (p_idle p - stuck_workers p a) (track e a p)).
Proof.
  unfold handle. case_decide as Hc; [|done]. destruct Hc as [Ha Hm]. intros ([a o] & E & [= <- <-])%bind_Some.
  split_and!; [done..|]. by exists a.
Qed.

(** [track] leaves all but the tasks alone. *)
Lemma track_frame e a (p : Process) :
  p_kind (track e a p) = p_kind p ∧ p_tcp (track e a p) = p_tcp p ∧ p_workers (track e a p) = p_workers p ∧
  p_waits_signal (track e a p) = p_waits_signal p ∧ p_cancel (track e a p) = p_cancel p ∧
  p_phase (track e a p) = p_phase p.
Proof. destruct e; cbn; by repeat case_decide. Qed.

Lemma hung_frame e busy (p : Process) :
  p_kind (hung e busy p) = p_kind p ∧ p_tcp (hung e busy p) = p_tcp p ∧ p_workers (hung e busy p) = p_workers p ∧
  p_app (hung e busy p) = p_app p ∧ p_waits_signal (hung e busy p) = p_waits_signal p ∧
  p_cancel (hung e busy p) = p_cancel p ∧ p_phase (hung e busy p) = p_phase p.
Proof. destruct e; cbn; by destruct busy. Qed.

(** *** The servers' part *)

(** The events of the servers among those of the process. *)
Definition app_events (es : list process_event) : list (event T) :=
  omap (λ e, match e with Handle e => Some e | SeeFlag => Some Signal | _ => None end) es.

Lemma pstep_app (p p' : Process) e out : pstep p e p' out → run (p_app p) (app_events [e]) = (p_app p', out).
Proof.
  intros Hs. step_cases Hs; try done.
  - apply handle_inv in Eh as (_ & _ & a & E & ->). unfold app_events. cbn. rewrite E. cbn. by rewrite app_nil_r.
  - cbn. by destruct (hung_frame e busy p) as (_ & _ & _ & -> & _).
  - cbn. by rewrite Hu.
Qed.

Lemma psteps_run (p p' : Process) es outs :
  psteps p es p' outs → run (p_app p) (app_events es) = (p_app p', outs).
Proof.
  induction 1 as [|p e p1 out es p2 outs Hs _ IH]; [done|].
  change (e :: es) with ([e] ++ es). unfold app_events. rewrite omap_app. fold (app_events [e]) (app_events es).
  rewrite run_app, (pstep_app _ _ _ _ Hs). by rewrite IH.
Qed.

(** *** The threads *)

Lemma pstep_workers (p p' : Process) e out :
  pstep p e p' out → p_workers p' = p_workers p ∧ p_kind p' = p_kind p ∧ p_tcp p' = p_tcp p ∧ (p_idle p' <= p_idle p)%nat.
Proof.
  intros Hs. step_cases Hs; try (split_and!; done).
  - apply handle_inv in Eh as (_ & _ & a & _ & ->). cbn. destruct (track_frame e a p) as (-> & -> & -> & _).
    split_and!; [done..|lia].
  - cbn. destruct (hung_frame e busy p) as (-> & -> & -> & _). split_and!; [done..|]. destruct busy; lia.
Qed.

(** A process that has lost a thread never ends. *)
Definition short (p : Process) : Prop := (p_idle p < p_workers p)%nat ∧ p_phase p ≠ Exited.

Lemma pstep_phase (p p' : Process) e out :
  pstep p e p' out → p_phase p' = p_phase p ∨
    (∃ now, e = Join now ∧ p_phase p = Serving ∧ server_ended p ∧
      p_phase p' = match p_kind p with Daemon => Grace now | Service => Leaving end) ∨
    (∃ since now, e = GraceOver now ∧ p_phase p = Grace since ∧ since + SHUTDOWN_GRACE_PERIOD <= now ∧ p_phase p' = Leaving) ∨
    (e = Shutdown ∧ p_phase p = Leaving ∧ p_idle p = p_workers p ∧ p_phase p' = Exited).
Proof.
  intros Hs. step_cases Hs; try (left; done).
  - left. apply handle_inv in Eh as (_ & _ & a & _ & ->). cbn. apply track_frame.
  - left. cbn. apply hung_frame.
  - right; left. by exists now.
  - right; right; left. by exists since, now.
  - right; right; right. done.
Qed.

Lemma short_step (p p' : Process) e out : short p → pstep p e p' out → short p'.
Proof.
  intros [Hi Hp] Hs. destruct (pstep_workers _ _ _ _ Hs) as (Hw & Hk & _ & Hle). split; [lia|].
  destruct (pstep_phase _ _ _ _ Hs) as [->|[(now & _ & _ & _ & ->)|[(? & ? & _ & _ & _ & ->)|(_ & _ & Hid & _)]]];
    [done|by destruct (p_kind p)|done|lia].
Qed.

(** With no thread left nothing happens to the servers. *)
Definition frozen (p : Process) : Prop := p_idle p = 0%nat ∧ p_phase p = Serving ∧ ¬ server_ended p.

Lemma frozen_step (p p' : Process) e out : frozen p → pstep p e p' out → p' = p ∧ out = [].
Proof.
  intros (Hidle & Hserving & Hservers) Hs.
  assert (¬ alive p) as Hdead by (intros [? _]; lia).
  step_cases Hs; try done; try congruence.
  by apply handle_inv in Eh as (Hal & _).
Qed.

Lemma frozen_psteps (p p' : Process) es outs : frozen p → psteps p es p' outs → p' = p ∧ outs = [].
Proof.
  intros Hf. induction 1 as [|p e p1 out es p2 outs Hs _ IH]; [done|].
  destruct (frozen_step _ _ _ _ Hf Hs) as [-> ->]. by apply IH in Hf as [-> ->].
Qed.

(** *** Datagrams that take the threads *)

(** The process serves, with at least [n] permits for queries. *)
Definition open_to (n : nat) (p : Process) : Prop :=
  p_phase p = Serving ∧ app_udp (p_app p) = Listening ∧ (p_kind p = Service ∨ p_tcp p = true) ∧
  (n <= app_query_permits (p_app p))%nat ∧ length (p_query_hung p) = length (app_queries (p_app p)).

(** The datagram whose name is a pointer to itself, and the run of its task. *)
Definition attack (src : SocketAddr) (i : nat) : list process_event :=
  [Handle (cyclic_datagram src); Hang (QueryTask i) true].

Lemma attack_one n src (p : Process) :
  open_to (Datatypes.S n) p → (0 < p_idle p)%nat →
  ∃ p', psteps p (attack src (length (app_queries (p_app p)))) p' [] ∧ open_to n p' ∧
    p_idle p' = (p_idle p - 1)%nat ∧ length (app_queries (p_app p')) = Datatypes.S (length (app_queries (p_app p))).
Proof.
  intros (Hp & Hu & Ht & Hn & Hl) Hi.
  assert (alive p) as Ha by (split; [done|by rewrite Hp]).
  pose (a := with_queries (app_query_permits (p_app p) - 1) (app_queries (p_app p) ++ [(cyclic_query, src)]) (p_app p)).
  assert (step (p_app p) (cyclic_datagram src) = Some (a, [])) as Es.
  { unfold cyclic_datagram. cbn [step]. rewrite Hu. unfold udp_turn. rewrite cyclic_received.
    by rewrite decide_True by lia. }
  pose (p1 := with_app a (with_hung (p_query_hung p ++ [false]) (p_connection_hung p) p)).
  assert (pstep p (Handle (cyclic_datagram src)) p1 []) as Hs1.
  { constructor. unfold handle. rewrite decide_True by done. rewrite Es. cbn [mbind option_bind].
    unfold cyclic_datagram, track. rewrite decide_True by (rewrite Hl; cbn; rewrite length_app; cbn; lia).
    unfold stuck_workers. cbn [app_udp a with_queries]. rewrite Hu. destruct (p_kind p); rewrite Nat.sub_0_r; by destruct p. }
  pose (p2 := with_idle (p_idle p1 - 1) (hung (QueryTask (length (app_queries (p_app p)))) true p1)).
  assert (pstep p1 (Hang (QueryTask (length (app_queries (p_app p)))) true) p2 []) as Hs2.
  { apply step_hang; [done| |].
    - cbn. by rewrite <-Hl, lookup_app_r, Nat.sub_diag.
    - cbn. rewrite lookup_app_r, Nat.sub_diag by done. cbn. split; [apply cyclic_handled|done]. }
  exists p2. split_and!.
  - exact (psteps_app _ _ _ _ _ _ _ (psteps_one _ _ _ _ Hs1) (psteps_one _ _ _ _ Hs2)).
  - split_and!; cbn; [done|done|done|lia|]. rewrite length_insert, !length_app, Hl. done.
  - done.
  - cbn. rewrite length_app. cbn. lia.
Qed.

(** As many of them as there are threads. *)
Fixpoint attacks (src : SocketAddr) (i n : nat) : list process_event :=
  match n with O => [] | Datatypes.S n => attack src i ++ attacks src (Datatypes.S i) n end.

Lemma attack_all n src (p : Process) :
  open_to n p → p_idle p = n →
  ∃ p', psteps p (attacks src (length (app_queries (p_app p))) n) p' [] ∧ open_to 0 p' ∧ p_idle p' = 0%nat.
Proof.
  revert p. induction n as [|n IH]; intros p Ho Hi; cbn [attacks]; [exists p; by split; [constructor|]|].
  destruct (attack_one n src p Ho) as (p1 & Hs1 & Ho1 & Hi1 & Hl1); [lia|].
  destruct (IH p1 Ho1) as (p2 & Hs2 & Ho2 & Hi2); [lia|]. rewrite Hl1 in Hs2.
  exists p2. split; [|done]. exact (psteps_app _ _ _ _ _ _ _ Hs1 Hs2).
Qed.

Lemma open_serving n (p : Process) : open_to n p → ¬ server_ended p.
Proof. intros (_ & Hu & Ht & _) [[E|E]|[Ek Et]]; destruct Ht; congruence. Qed.

(** *** The start *)

Lemma launch_inv workers sockets now config (p : Process) :
  launch workers sockets now config = Ok p →
  so_resolver sockets = true ∧ p_kind p = Daemon ∧ p_tcp p = so_tcp sockets ∧ p_workers p = workers ∧
  p_idle p = workers ∧ p_waits_signal p = true ∧ p_cancel p = false ∧ p_phase p = Serving ∧
  p_query_hung p = [] ∧ p_connection_hung p = [] ∧ app_queries (p_app p) = [] ∧ app_connections (p_app p) = [] ∧
  app_query_permits (p_app p) = MAX_CONCURRENT_QUERIES ∧
  app_udp (p_app p) = if so_udp sockets then Listening else Stopped.
Proof.
  unfold launch. destruct (so_resolver sockets); [|done]. cbn [negb].
  destruct (start now config) as [a| | |] eqn:Es; [|done..]. cbn.
  apply start_fields in Es as (_ & _ & _ & _ & _ & _ & Hq & Hqs & _ & Hcs). intros [= <-]. cbn. by rewrite Hqs, Hcs, Hq.
Qed.

(** *** The receive loop *)

Lemma step_udp (a a' : App S T) e out :
  step a e = Some (a', out) → e ≠ Signal →
  app_udp a' = app_udp a ∨ (app_udp a = Listening ∧ (app_udp a' = Stuck ∨ app_udp a' = Died)).
Proof.
  intros Hs Hne. destruct e as [result buf|i|result|i|method path now|now|i aaaa|i|]; cbn in Hs; try (left; congruence).
  - destruct (app_udp a) eqn:Eu; [|done..]. unfold udp_turn in Hs.
    destruct (handle_recv _ _ _) as [[]| | |]; simplify_eq/=; auto.
  - left. unfold query_task in Hs. destruct (app_queries a !! i) as [[data src]|]; [|done].
    cbn in Hs. destruct (hd_result _); by simplify_eq/=.
  - left. unfold tcp_turn in Hs. destruct result; [case_decide|]; by simplify_eq/=.
  - left. unfold connection_task in Hs. destruct (app_connections a !! i) as [stream|]; [|done].
    cbn in Hs. destruct (handle_tcp_connection _ _) as [[result ?] ?]. destruct result; by simplify_eq/=.
  - left. destruct (app_api a); [|done]. destruct (build_router method path) as [request|]; [|done].
    cbn in Hs. destruct (serve_api_frame now request a) as [r Hr].
    destruct (serve_api now request a). cbn in Hr. by simplify_eq/=.
  - left. destruct (app_blocklist a); [|done]. by simplify_eq/=.
  - left. destruct (app_prefetch a !! i); [|done]. cbn in Hs. destruct (prefetch _ _ _); [|done]. by simplify_eq/=.
  - left. destruct (engine_background _ _); [|done..]. by simplify_eq/=.
Qed.

(** A daemon whose receive loop computes for ever has lost a thread. *)
Lemma pstep_udp (p p' : Process) e out :
  pstep p e p' out →
  app_udp (p_app p') = app_udp (p_app p) ∨
  (app_udp (p_app p) = Listening ∧
    (app_udp (p_app p') = Died ∨ (app_udp (p_app p') = Stopped ∧ p_cancel p = true) ∨
     (app_udp (p_app p') = Stuck ∧ (p_kind p = Daemon → (p_idle p' < p_idle p)%nat)))).
Proof.
  intros Hs. step_cases Hs; try (left; done).
  - apply handle_inv in Eh as ([Hi _] & Hm & a & E & ->). cbn.
    destruct (step_udp _ _ _ _ E) as [Hu|[Hu [Hu'|Hu']]]; [by intros ->|by left|right..].
    + split; [done|]. right; right. split; [done|]. intros Hk. unfold stuck_workers. rewrite Hk, Hu, Hu'. lia.
    + split; [done|]. by left.
  - left. cbn. by destruct (hung_frame e busy p) as (_ & _ & _ & -> & _).
  - right. split; [done|]. right; left. by split.
Qed.

(** *** Traces *)

(** What holds of the events so far and the state. *)
Lemma psteps_trace (P : list process_event → Process → Prop) (p p' : Process) es outs :
  (∀ es q e q' out, P es q → pstep q e q' out → P (es ++ [e]) q') → P [] p → psteps p es p' outs → P es p'.
Proof.
  intros Hstep Hp Hs. change es with ([] ++ es). revert Hp. generalize ([] : list process_event) as before.
  induction Hs as [p|p e p1 out es p2 outs Hs _ IH]; intros before Hp; [by rewrite app_nil_r|].
  change (e :: es) with ([e] ++ es). rewrite app_assoc. apply IH. by eapply Hstep.
Qed.

(** Why the servers of a daemon end. *)
Definition cause (sockets : Sockets) (es : list process_event) (p : Process) : Prop :=
  Terminate ∈ es ∨ app_udp (p_app p) = Died ∨ so_udp sockets = false ∨ so_tcp sockets = false.

Record life (workers : nat) (sockets : Sockets) (es : list process_event) (p : Process) : Prop := {
  life_kind : p_kind p = Daemon;
  life_tcp : p_tcp p = so_tcp sockets;
  life_workers : p_workers p = workers;
  life_idle : (p_idle p <= workers)%nat;
  life_signal : p_cancel p = negb (p_waits_signal p);
  life_cancel : p_cancel p = true → Terminate ∈ es;
  life_stopped : app_udp (p_app p) = Stopped → so_udp sockets = false ∨ p_cancel p = true;
  life_stuck : app_udp (p_app p) = Stuck → (p_idle p < workers)%nat;
  life_phase : match p_phase p with
               | Serving => True
               | Grace since => Join since ∈ es ∧ cause sockets es p
               | Leaving => ∃ t1 t2, Join t1 ∈ es ∧ GraceOver t2 ∈ es ∧ t1 + SHUTDOWN_GRACE_PERIOD <= t2 ∧ cause sockets es p
               | Exited => p_idle p = workers ∧
                   ∃ t1 t2, Join t1 ∈ es ∧ GraceOver t2 ∈ es ∧ t1 + SHUTDOWN_GRACE_PERIOD <= t2 ∧ cause sockets es p
               end;
}.

Lemma pstep_signal (p p' : Process) e out :
  pstep p e p' out →
  (p_cancel p' = p_cancel p ∧ p_waits_signal p' = p_waits_signal p) ∨
  (e = Terminate ∧ p_cancel p' = true ∧ p_waits_signal p' = false).
Proof.
  intros Hs. step_cases Hs; try (left; done); [left..|by right].
  - apply handle_inv in Eh as (_ & _ & a & _ & ->). cbn. by destruct (track_frame e a p) as (_ & _ & _ & -> & -> & _).
  - cbn. by destruct (hung_frame e busy p) as (_ & _ & _ & _ & -> & -> & _).
Qed.

(** Nothing comes after the end. *)
Lemma pstep_exited (p p' : Process) e out : p_phase p = Exited → ¬ pstep p e p' out.
Proof.
  intros Hx Hs. assert (¬ alive p) as Hdead by (intros [_ Hal]; by rewrite Hx in Hal).
  step_cases Hs; try done; try congruence. by apply handle_inv in Eh as (Hal & _).
Qed.

Lemma cause_step sockets es (p p' : Process) e out : cause sockets es p → pstep p e p' out → cause sockets (es ++ [e]) p'.
Proof.
  intros [Ht|[Hd|Hb]] Hs; [left; set_solver|right; left|by right; right].
  destruct (pstep_udp _ _ _ _ Hs) as [->|[Hu _]]; [done|congruence].
Qed.

(** The way out: its phases come one after the other. *)
Lemma life_step workers sockets es (p p' : Process) e out :
  life workers sockets es p → pstep p e p' out → life workers sockets (es ++ [e]) p'.
Proof.
  intros [Hk Ht Hw Hi Hsig Hc Hst Hsk Hph] Hs.
  destruct (pstep_workers _ _ _ _ Hs) as (Hw' & Hk' & Ht' & Hi').
  pose proof (λ Hcs, cause_step sockets es _ _ _ _ Hcs Hs) as Hcause.
  pose proof (pstep_signal _ _ _ _ Hs) as Hsignal. pose proof (pstep_udp _ _ _ _ Hs) as Hudp.
  split; [congruence|congruence|congruence|lia| | | | |].
  - destruct Hsignal as [[-> ->]|(_ & -> & ->)]; done.
  - destruct Hsignal as [[-> _]|(-> & _ & _)]; [|set_solver]. intros E. specialize (Hc E). set_solver.
  - intros E. assert (p_cancel p = true → p_cancel p' = true) as Hmono by (destruct Hsignal as [[-> _]|(_ & -> & _)]; done).
    destruct Hudp as [Hu|[_ [Hu|[[_ Hu]|[Hu _]]]]]; [|congruence|auto|congruence].
    rewrite Hu in E. destruct (Hst E); auto.
  - intros E. destruct Hudp as [Hu|[_ [Hu|[[Hu _]|[_ Hl]]]]]; [|congruence|congruence|specialize (Hl Hk); lia].
    rewrite Hu in E. specialize (Hsk E). lia.
  - destruct (pstep_phase _ _ _ _ Hs) as [->|[(now & -> & Hp & He & ->)|[(since & now & -> & Hp & Hn & ->)|(-> & Hp & Hid & ->)]]].
    + destruct (p_phase p) as [|since| |] eqn:Ep; [done| | |].
      * destruct Hph. split; [set_solver|auto].
      * destruct Hph as (t1 & t2 & ? & ? & ? & ?). exists t1, t2. split_and!; [set_solver..|done|auto].
      * by apply pstep_exited in Hs.
    + rewrite Hk. split; [set_solver|]. apply Hcause. destruct He as [[Hd|Hd]|[_ Hb]].
      * right; by left.
      * destruct (Hst Hd) as [Hb|Hcan]; [right; right; by left|left; auto].
      * right; right; right. congruence.
    + rewrite Hp in Hph. destruct Hph as [Hj Hcs]. exists since, now. split_and!; [set_solver..|done|auto].
    + rewrite Hp in Hph. destruct Hph as (t1 & t2 & ? & ? & ? & ?). split; [|exists t1, t2; split_and!; [set_solver..|done|auto]].
      inversion Hs; subst. cbn. congruence.
Qed.

Lemma launch_life workers sockets now config (p : Process) :
  launch workers sockets now config = Ok p → life workers sockets [] p.
Proof.
  intros Hl. apply launch_inv in Hl as (_ & Hk & Ht & Hw & Hi & Hws & Hc & Hp & _ & _ & _ & _ & _ & Hu).
  split; [done|done|done|lia|by rewrite Hc, Hws|congruence| | |by rewrite Hp].
  - rewrite Hu. destruct (so_udp sockets); [done|]. by left.
  - rewrite Hu. by destruct (so_udp sockets).
Qed.

Lemma psteps_life workers sockets now config (p p' : Process) es outs :
  launch workers sockets now config = Ok p → psteps p es p' outs → life workers sockets es p'.
Proof.
  intros Hl. apply (psteps_trace (life workers sockets)); [intros; by eapply life_step|by eapply launch_life].
Qed.

(** What [main] and the runtime do by themselves. *)
Definition winding_down (e : process_event) : Prop :=
  match e with SeeFlag | Join _ | GraceOver _ | Shutdown => True | _ => False end.

(** The process can be brought to its end so. *)
Definition winds_down (p : Process) : Prop :=
  ∃ es p', psteps p es p' [] ∧ p_phase p' = Exited ∧ Forall winding_down es.

Lemma psteps_silent (p p1 p2 : Process) e es : pstep p e p1 [] → psteps p1 es p2 [] → psteps p (e :: es) p2 [].
Proof. intros Hs Hr. exact (psteps_cons _ _ _ _ _ _ _ Hs Hr). Qed.

Lemma winds_down_step (p p1 : Process) e : pstep p e p1 [] → winding_down e → winds_down p1 → winds_down p.
Proof.
  intros Hs He (es & p' & Hr & Hx & Hf). exists (e :: es), p'.
  split_and!; [by eapply psteps_silent|done|by constructor].
Qed.

Lemma leaving_winds_down (p : Process) : p_phase p = Leaving → p_idle p = p_workers p → winds_down p.
Proof.
  intros Hp Hi. eapply (winds_down_step _ (with_phase Exited p) Shutdown); [by apply step_shutdown|done|].
  exists [], (with_phase Exited p). split_and!; [constructor|done|constructor].
Qed.

Lemma grace_winds_down (p : Process) since :
  p_phase p = Grace since → p_idle p = p_workers p → (0 < p_idle p)%nat → winds_down p.
Proof.
  intros Hp Hi Hpos.
  apply (winds_down_step _ (with_phase Leaving p) (GraceOver (since + SHUTDOWN_GRACE_PERIOD)));
    [by eapply step_grace_over|done|by apply leaving_winds_down].
Qed.

Lemma serving_winds_down (p : Process) :
  p_kind p = Daemon → p_phase p = Serving → server_ended p → p_idle p = p_workers p → (0 < p_idle p)%nat →
  winds_down p.
Proof.
  intros Hk Hp He Hi Hpos. pose proof (step_join p 0 Hp He) as Hj. rewrite Hk in Hj.
  apply (winds_down_step _ _ _ Hj); [done|by eapply grace_winds_down].
Qed.

(** A process that has lost no thread, and whose UDP loop is over or will see the flag, ends. *)
Lemma wind_down workers sockets es (p : Process) :
  life workers sockets es p → p_idle p = workers → (0 < workers)%nat →
  server_ended p ∨ p_cancel p = true ∨ p_phase p ≠ Serving → winds_down p.
Proof.
  intros Hlife Hid Hpos Hw. pose proof (life_workers _ _ _ _ Hlife) as Hws. pose proof (life_kind _ _ _ _ Hlife) as Hk.
  destruct (p_phase p) as [|since| |] eqn:Ep.
  - destruct (decide (server_ended p)) as [He|He]; [apply serving_winds_down; [done..|congruence|lia]|].
    destruct Hw as [|[Hc|]]; [done| |done].
    assert (app_udp (p_app p) = Listening) as Hu.
    { destruct (app_udp (p_app p)) eqn:Eu; [done| | |].
      - pose proof (life_stuck _ _ _ _ Hlife Eu). lia.
      - destruct He. left. by left.
      - destruct He. left. by right. }
    eapply (winds_down_step _ _ SeeFlag); [apply step_see_flag; [split; [lia|by rewrite Ep]|done|done]|done|].
    apply serving_winds_down; [done|done|by left; right|cbn; congruence|cbn; lia].
  - eapply grace_winds_down; [done|congruence|lia].
  - apply leaving_winds_down; [done|congruence].
  - exists [], p. split_and!; [constructor|done|constructor].
Qed.
End lemmas.

(** ** Properties *)

Section properties.
Context {S T : Type} `{Engine S} `{TcpStream T} `{Unicode} `{Sources}.

(** C15: a process is a run of its servers: what it puts out, and the state of the servers, are those
    of [App] on the events they have handled.  So every packet it ever sends answers, with its id
    and the QR bit, a datagram that it has received, and goes to the sender of that datagram. *)
Theorem process_runs_app workers sockets now config (p p' : Process S T) es outs :
  launch workers sockets now config = Ok p → psteps p es p' outs →
  run (p_app p) (app_events es) = (p_app p', outs) ∧
  (Forall (λ q, bytes_ok q.1) (concat (map received (app_events es))) →
   ∀ data dst, (data, dst) ∈ packets outs →
     ∃ query, (query, dst) ∈ concat (map received (app_events es)) ∧ answers_query query data).
Proof.
  intros Hl Hs. apply psteps_run in Hs as Hr. split; [done|]. intros Hb data dst Hin.
  apply launch_inv in Hl as (_ & _ & _ & _ & _ & _ & _ & _ & _ & _ & Hq & _).
  pose proof (run_accounts (app_events es) [] (p_app p) Hb) as Ha. rewrite Hr, Hq in Ha.
  destruct Ha as [_ Ha]; [done|]. rewrite Forall_forall in Ha. exact (Ha (data, dst) Hin).
Qed.

(** C17: one datagram of 18 bytes makes the process one that no signal ends, since the runtime waits
    for ever for the thread that decodes it; and as many as there are threads end all service, over
    UDP and TCP, HTTP and signals: whatever comes in after that, nothing is put out any more. *)
Theorem threads_exhausted workers sockets now config (p : Process S T) src :
  launch workers sockets now config = Ok p → so_udp sockets = true → so_tcp sockets = true →
  (0 < workers <= Z.to_nat 1024)%nat →
  (∃ p1, psteps p (attack src 0) p1 [] ∧ ∀ es p2 outs, psteps p1 es p2 outs → p_phase p2 ≠ Exited) ∧
  (∃ p1, psteps p (attacks src 0 workers) p1 [] ∧ ∀ es p2 outs, psteps p1 es p2 outs → p2 = p1 ∧ outs = []).
Proof.
  intros Hl Hudp Htcp Hw. apply launch_inv in Hl as (_ & Hk & Ht & Hws & Hi & _ & _ & Hp & Hqh & _ & Hq & _ & Hperm & Hu).
  rewrite Hudp in Hu. rewrite Htcp in Ht.
  assert (open_to (Z.to_nat 1024) p) as Ho.
  { split_and!; [done|done|by right|by rewrite Hperm|by rewrite Hqh, Hq]. }
  split.
  - destruct (attack_one (Z.to_nat 1023) src p) as (p1 & Hs & Ho1 & Hi1 & _); [exact Ho|lia|].
    rewrite Hq in Hs. exists p1. split; [exact Hs|]. intros es p2 outs Hr.
    assert (p_workers p1 = p_workers p) as Hw1.
    { eapply (psteps_invariant (λ q, p_workers q = p_workers p)); [|done|exact Hs].
      intros q e q' out E Hst. by rewrite (proj1 (pstep_workers _ _ _ _ Hst)). }
    assert (short p2) as [_ Hn]; [|done].
    eapply psteps_invariant; [intros; by eapply short_step| |exact Hr]. split; [lia|]. by rewrite (proj1 Ho1).
  - assert (open_to workers p) as Ho' by (destruct Ho as (? & ? & ? & ? & ?); split_and!; [done..|lia|done]).
    destruct (attack_all workers src p Ho' Hi) as (p1 & Hs & Ho1 & Hi1). rewrite Hq in Hs.
    exists p1. split; [exact Hs|]. intros es p2 outs Hr. eapply frozen_psteps; [|exact Hr].
    split_and!; [done|apply Ho1|by eapply open_serving].
Qed.

(** C18: the process ends only for a reason, a signal, a receive loop that has died of a panic, or a
    socket that could not be bound; five seconds after [main] has seen a server end; and with every
    thread at rest. *)
Theorem exit_causes workers sockets now config (p p' : Process S T) es outs :
  launch workers sockets now config = Ok p → psteps p es p' outs → p_phase p' = Exited →
  p_idle p' = workers ∧ cause sockets es p' ∧
  ∃ t1 t2, Join t1 ∈ es ∧ GraceOver t2 ∈ es ∧ t1 + SHUTDOWN_GRACE_PERIOD <= t2.
Proof.
  intros Hl Hs Hx. pose proof (life_phase _ _ _ _ (psteps_life _ _ _ _ _ _ _ _ Hl Hs)) as Hp. rewrite Hx in Hp.
  destruct Hp as (Hi & t1 & t2 & Hj & Hg & Ht & Hc). eauto 10.
Qed.

(** C16: as long as no thread is lost a signal ends the process: from every state it can be in, after
    the first signal, or when a socket could not be bound, [main] and the runtime bring it to its
    end by themselves. *)
Theorem graceful_stop workers sockets now config (p p' : Process S T) es outs :
  launch workers sockets now config = Ok p → psteps p es p' outs → p_idle p' = workers → (0 < workers)%nat →
  ∃ signal es' p2, psteps p' (signal ++ es') p2 [] ∧ p_phase p2 = Exited ∧ Forall winding_down es' ∧
    signal = if decide (p_waits_signal p' = false ∨ server_ended p' ∨ p_phase p' ≠ Serving) then [] else [Terminate].
Proof.
  intros Hl Hs Hid Hpos. pose proof (psteps_life _ _ _ _ _ _ _ _ Hl Hs) as Hlife.
  pose proof (life_signal _ _ _ _ Hlife) as Hsig.
  case_decide as Hc.
  - destruct (wind_down _ _ _ _ Hlife Hid Hpos) as (es' & p2 & Hs2 & Hx & Hf); [|by exists [], es', p2].
    destruct Hc as [Hw|[He|Hp]]; [right; left; by rewrite Hsig, Hw|by left|by right; right].
  - assert (p_waits_signal p' = true ∧ p_phase p' = Serving) as [Hw Hp].
    { split; [|by apply dec_stable; naive_solver]. destruct (p_waits_signal p'); naive_solver. }
    assert (pstep p' Terminate (with_signal false true p') []) as Ht.
    { apply step_terminate; [|done]. split; [lia|by rewrite Hp]. }
    destruct (wind_down workers sockets (es ++ [Terminate]) (with_signal false true p')) as (es' & p2 & Hs2 & Hx & Hf);
      [by eapply life_step|done|done|by right; left|].
    exists [Terminate], es', p2. split_and!; [|done|done|done].
    by eapply psteps_silent.
Qed.
End properties.

(** ** A concrete process *)

Module Host.
#[local] Existing Instances ascii_unicode Toy.canned_engine Toy.no_sources Toy.no_files.
Definition all_sockets : Sockets := mkSockets true true true true.
(** The daemon with its defaults and four threads. *)
Definition launched : outcome unit (Process canned mem_stream) := launch 4 all_sockets 0 Toy.plain_config.
Definition daemon : Process canned mem_stream :=
  match launched with
  | Ok p => p
  | _ => mkProcess Service (Toy.process Toy.plain_config) false None false [] [] 0 0 false false Exited
  end.
Lemma daemon_launched : launched = Ok daemon.
Proof. reflexivity. Qed.

(** A query that is answered. *)
Definition one_query : list (process_event mem_stream) :=
  [Handle (Datagram (inl (19%nat, Toy.client)) sample_query_bytes); Handle (QueryTask 0)].
Lemma query_answered : ∃ p out, psteps daemon one_query p out ∧ length (packets out) = 1%nat.
Proof.
  destruct (handle (Datagram (inl (19%nat, Toy.client)) sample_query_bytes) daemon) as [[p1 out1]|] eqn:E1; [|by vm_compute in E1].
  destruct (handle (QueryTask 0) p1) as [[p2 out2]|] eqn:E2.
  - exists p2, (out1 ++ (out2 ++ [])). split.
    + econstructor; [by constructor|]. econstructor; [by constructor|constructor].
    + assert (Hout : (λ o, length (packets o)) <$> (
        '(p1, out1) ← handle (Datagram (inl (19%nat, Toy.client)) sample_query_bytes) daemon;
        '(p2, out2) ← handle (QueryTask 0) p1; Some (out1 ++ (out2 ++ []))) = Some 1%nat) by by vm_compute.
      rewrite E1 in Hout. cbn [mbind option_bind] in Hout. rewrite E2 in Hout. by injection Hout.
  - assert (Hout : is_Some ('(p1, out1) ← handle (Datagram (inl (19%nat, Toy.client)) sample_query_bytes) daemon;
      handle (QueryTask 0) p1)) by (vm_compute; by eexists).
    rewrite E1 in Hout. cbn [mbind option_bind] in Hout. rewrite E2 in Hout. by destruct Hout.
Qed.

(** A signal and the end. *)
Lemma daemon_ends : ∃ es p, psteps daemon es p [] ∧ p_phase p = Exited.
Proof.
  assert (pstep daemon Terminate (with_signal false true daemon) []) as Ht.
  { apply step_terminate; [|done]. split; [apply Nat.ltb_lt; reflexivity|done]. }
  destruct (wind_down 4 all_sockets ([] ++ [Terminate]) (with_signal false true daemon)) as (es & p & Hs & Hx & _).
  - eapply life_step; [|exact Ht]. by eapply launch_life, daemon_launched.
  - done.
  - lia.
  - by right; left.
  - exists (Terminate :: es), p. split; [by eapply psteps_silent|done].
Qed.
End Host.
#[local] Existing Instances ascii_unicode Toy.canned_engine Toy.no_sources Toy.no_files.

Lemma process_runs_app_witness :
  ∃ p out, psteps Host.daemon Host.one_query p out ∧ length (packets out) = 1%nat ∧
    ∀ data dst, (data, dst) ∈ packets out →
      ∃ query, (query, dst) ∈ [(sample_query_bytes, Toy.client)] ∧ answers_query query data.
Proof.
  destruct Host.query_answered as (p & out & Hs & Hlen). exists p, out. split; [done|]. split; [done|].
  destruct (process_runs_app 4 Host.all_sockets 0 Toy.plain_config Host.daemon p Host.one_query out
    Host.daemon_launched Hs) as [_ Ha]. apply Ha. repeat constructor; by vm_compute.
Defined.

Lemma threads_exhausted_witness :
  ∃ p1, psteps Host.daemon (attacks Toy.client 0 4) p1 [] ∧
    ∀ es p2 outs, psteps p1 es p2 outs → p2 = p1 ∧ outs = [].
Proof.
  destruct (threads_exhausted 4 Host.all_sockets 0 Toy.plain_config Host.daemon Toy.client) as [_ H];
    [exact Host.daemon_launched|reflexivity|reflexivity|lia|exact H].
Defined.

Lemma exit_causes_witness :
  ∃ es p, psteps Host.daemon es p [] ∧ p_idle p = 4%nat ∧ cause Host.all_sockets es p.
Proof.
  destruct Host.daemon_ends as (es & p & Hs & Hx). exists es, p. split; [done|].
  destruct (exit_causes 4 Host.all_sockets 0 Toy.plain_config Host.daemon p es [] Host.daemon_launched Hs Hx)
    as (Hi & Hc & _). by split.
Defined.

Lemma graceful_stop_witness :
  ∃ es p2, psteps Host.daemon (Terminate :: es) p2 [] ∧ p_phase p2 = Exited ∧ Forall winding_down es.
Proof.
  destruct (graceful_stop 4 Host.all_sockets 0 Toy.plain_config Host.daemon Host.daemon [] []
    Host.daemon_launched (psteps_nil _) eq_refl ltac:(lia)) as (signal & es & p2 & Hs & Hx & Hf & ->).
  exists es, p2. rewrite decide_False in Hs; [by split|]. intros [?|[[[?|?]|[_ ?]]|?]]; done.
Defined.
