(* ===== verification/Served.v ===== *)
(** * What clients are told

    The invariant that joins the cache, the resolver and the process: every
    record in the cache is stored under its own name, type and class.  All
    operations of the resolver keep it, with or without DNSSEC and whatever
    the network delivers, and so does every event of the process; an answer
    is therefore a chain for the question, from the cache as from the
    network. *)

From stdpp Require Import gmap strings.
From S2P Require Import Prelude Constants Str Types Names NameCodec Rdata Message Async Lru Cache RootHints Rtt.
From S2P Require Import Upstream Dnssec Server Resolver Resolution Completeness Blocklist NetAddr Config App.
#[local] Open Scope Z_scope.

(** ** The cache *)

Section cache.
Context {C : Type → Type} `{LruLaws cache_key C}.

Definition entry_key (e : CacheEntry) : cache_key :=
  (rr_name (ce_record e), rr_rtype (ce_record e), rr_rclass (ce_record e)).

Definition keyed_store (c : C (list CacheEntry)) : Prop :=
  lru_ok c ∧ ∀ key es, lru_peek key c = Some es → Forall (λ e, entry_key e = key) es.
Definition keyed (c : DnsCache C) : Prop := keyed_store (c_entries c) ∧ keyed_store (c_stale c).

Lemma keyed_new n : (0 < n)%nat → keyed_store (lru_new n).
Proof. intros Hn. split; [by apply lru_new_ok|]. intros key es. by rewrite lru_peek_new. Qed.

Lemma keyed_clear c : keyed_store c → keyed_store (lru_clear c).
Proof. intros [Hok _]. split; [by apply lru_clear_ok|]. intros key es. by rewrite lru_peek_clear. Qed.

Lemma keyed_get key c : keyed_store c → keyed_store (lru_get key c).2.
Proof.
  intros [Hok Hk]. split; [by apply lru_get_ok|]. intros k es. rewrite lru_peek_get. apply Hk.
Qed.

Lemma keyed_put key es c :
  keyed_store c → Forall (λ e, entry_key e = key) es → keyed_store (lru_put key es c).
Proof.
  intros [Hok Hk] Hes. split; [by apply lru_put_ok|]. intros k v Hv.
  apply lru_put_inv in Hv as [[-> ->]|[_ Hv]]; [done|by apply Hk|done].
Qed.

Lemma keyed_modify key es c :
  keyed_store c → Forall (λ e, entry_key e = key) es → keyed_store (lru_modify key es c).
Proof.
  intros [Hok Hk] Hes. split; [by apply lru_modify_ok|]. intros k v Hv.
  apply lru_modify_inv in Hv as [[-> ->]|[_ Hv]]; [done|by apply Hk].
Qed.

Lemma keyed_pop key c : keyed_store c → keyed_store (lru_pop key c).
Proof.
  intros [Hok Hk]. split; [by apply lru_pop_ok|]. intros k v Hv. apply lru_pop_inv in Hv as [_ Hv]. by apply Hk.
Qed.

Lemma keyed_pop_all keys c : keyed_store c → keyed_store (lru_pop_all keys c).
Proof. unfold lru_pop_all. revert c. induction keys; intros c Hc; cbn; auto using keyed_pop. Qed.

(** The entries found are those of the key. *)
Lemma keyed_found key c es c' :
  keyed_store c → lru_get key c = (Some es, c') →
  keyed_store c' ∧ Forall (λ e, entry_key e = key) es.
Proof.
  intros Hc E. pose proof (keyed_get key c Hc) as Hc'. rewrite E in Hc'. split; [done|].
  apply (proj2 Hc). by rewrite <-lru_get_peek, E.
Qed.
Lemma keyed_missed key c c' : keyed_store c → lru_get key c = (None, c') → keyed_store c'.
Proof. intros Hc E. pose proof (keyed_get key c Hc) as Hc'. by rewrite E in Hc'. Qed.

Lemma with_max_entries_keyed max : keyed (with_max_entries max : DnsCache C).
Proof. split; apply keyed_new; unfold STALE_MAX_ENTRIES; lia. Qed.

Lemma insert_keyed c clk name rtype rclass ttl rdata rdlength :
  keyed c → keyed (insert c clk name rtype rclass ttl rdata rdlength).
Proof.
  intros [He Hs]. unfold insert. case_decide; [done|]. cbn zeta.
  destruct (lru_get (name, rtype, rclass) (c_entries c)) as [[vec|] entries] eqn:E.
  - apply keyed_found in E as [He' Hvec]; [|done]. case_match; [by split|]. split; [|done].
    apply keyed_modify; [done|]. apply Forall_app. split; [|by constructor].
    case_decide; [by apply Forall_drop|done].
  - apply keyed_missed in E; [|done]. split; [|done]. apply keyed_put; [done|by constructor].
Qed.

Lemma insert_records_keyed c clk records : keyed c → keyed (insert_records c clk records).
Proof.
  revert c clk. induction records as [|r records IH]; intros c clk Hc; [done|].
  cbn [insert_records]. by apply IH, insert_keyed.
Qed.

Lemma split_expired_keyed key clk i es :
  Forall (λ e, entry_key e = key) es →
  Forall (λ e, entry_key e = key) (split_expired clk i es).1 ∧
  Forall (λ e, entry_key e = key) (split_expired clk i es).2.
Proof.
  intros Hes. revert i. induction Hes as [|e es He Hes IH]; intros i; cbn [split_expired]; [by split|].
  specialize (IH (S i)). destruct (split_expired clk (S i) es) as [fresh stale], IH.
  destruct (is_expired (clk i) e); (split; [|]); cbn [fst snd]; first [done|by constructor].
Qed.

(** A record with the key of a question. *)
Definition keyed_record (name : bytes) (rtype rclass : Z) (r : ResourceRecord) : Prop :=
  rr_name r = name ∧ rr_rtype r = rtype ∧ rr_rclass r = rclass.

Lemma fresh_records_keyed name rtype rclass clk i es m :
  Forall (λ e, entry_key e = (name, rtype, rclass)) es →
  Forall (keyed_record name rtype rclass) (fresh_records clk i es m).1.
Proof.
  intros Hes. revert i m. induction Hes as [|e es He Hes IH]; intros i m; cbn [fresh_records]; [done|].
  specialize (IH (S i) (Z.min m (ttl_remaining (clk i) e))).
  destruct (fresh_records _ _ _ _) as [recs m']. constructor; [|done]. unfold entry_key in He. by simplify_eq.
Qed.

Lemma lookup_keyed c clk name rtype rclass r c' :
  keyed c → lookup_cache c clk name rtype rclass = (r, c') →
  keyed c' ∧ ∀ records ttl, r = Some (records, ttl) → Forall (keyed_record name rtype rclass) records.
Proof.
  intros [He Hs]. unfold lookup_cache.
  destruct (lru_get (name, rtype, rclass) (c_entries c)) as [[es|] entries] eqn:E.
  2: { apply keyed_missed in E; [|done]. by intros [= <- <-]. }
  apply keyed_found in E as [He' Hes]; [|done].
  destruct (split_expired_keyed _ clk 0 es Hes) as [Hf Hst].
  destruct (split_expired clk 0 es) as [fresh stale]. cbn [fst snd] in *.
  assert (Hs' : keyed_store (if decide (stale = []) then c_stale c
                             else lru_put (name, rtype, rclass) stale (c_stale c))).
  { case_decide; [done|]. by apply keyed_put. }
  destruct (decide (fresh = [])); intros [= <- <-].
  - split; [|done]. split; [by apply keyed_pop|done].
  - split; [split; [by apply keyed_modify|done]|]. intros records ttl [= Hr].
    pose proof (fresh_records_keyed name rtype rclass clk (length es) fresh (2 ^ 32 - 1) Hf) as Hk.
    by rewrite Hr in Hk.
Qed.

Lemma lookup_stale_keyed c clk name rtype rclass r c' :
  keyed c → lookup_stale c clk name rtype rclass = (r, c') →
  keyed c' ∧ ∀ records, r = Some records → Forall (keyed_record name rtype rclass) records.
Proof.
  intros [He Hs]. unfold lookup_stale.
  destruct (lru_get (name, rtype, rclass) (c_stale c)) as [[es|] stale] eqn:E.
  2: { apply keyed_missed in E; [|done]. by intros [= <- <-]. }
  apply keyed_found in E as [Hs' Hes]; [|done]. case_decide; intros [= <- <-].
  - split; [|done]. split; [done|by apply keyed_pop].
  - split; [done|]. intros records [= <-]. apply Forall_map, Forall_forall. intros e [_ Hin]%list_elem_of_filter.
    rewrite Forall_forall in Hes. specialize (Hes _ Hin). unfold entry_key in Hes. by simplify_eq.
Qed.

Lemma clear_keyed c : keyed c → keyed (clear c).
Proof. intros [He Hs]. split; by apply keyed_clear. Qed.

Lemma purge_keyed c clk : keyed c → keyed (purge_expired c clk).
Proof. intros [He Hs]. split; [done|]. by apply keyed_pop_all. Qed.
End cache.

(** ** The resolver *)

(** A name that the encoder gave is equal to itself. *)
Lemma names_equal_loop_refl fuel ls :
  Forall encodable ls → (length ls < fuel)%nat → names_equal_loop fuel (name_wire ls) (name_wire ls) = true.
Proof.
  intros Hls. revert fuel. induction Hls as [|l ls Hl Hls IH]; intros fuel Hf;
    (destruct fuel as [|fuel]; [lia|]); cbn [names_equal_loop]; [done|].
  unfold encodable in Hl. rewrite name_wire_cons, decide_False by lia. rewrite decide_False by lia.
  rewrite Nat2Z.id, match_label_app, decide_True by done. apply IH. cbn in Hf. lia.
Qed.

Lemma encoded_equal name nm : encode_domain_name name = Ok nm → domain_names_equal nm nm = true.
Proof.
  unfold encode_domain_name. cbn zeta. case_decide; [by intros [= <-]|].
  intros E. pose proof (encode_labels_inv _ _ _ E) as Hls.
  rewrite encode_labels_Ok in E by done. cbn [app] in E. injection E as <-.
  set (ls := map ascii_lower _). apply names_equal_loop_refl.
  - apply Forall_map. eapply Forall_impl; [done|]. intros l. unfold encodable. by rewrite length_ascii_lower.
  - unfold name_wire. rewrite length_app. pose proof (length_labels_wire ls). cbn. lia.
Qed.

Section resolver.
Context {C D R : Type → Type} {N : Type} `{LruLaws cache_key C} `{LruOps bytes D} `{LruOps IpAddr R} `{Env N} `{Crypto}.
Abbreviation St := (RecursiveResolver C D R N).

(** What every action of the resolver keeps, and so every interleaving. *)
Definition keyed_state (s : St) : Prop := keyed (r_cache s).
Abbreviation tidy c := (keeps keyed_state c).

Lemma tidy_act {A} (f : St → A * St) : (∀ s, r_cache (f s).2 = r_cache s) → tidy (act f).
Proof. intros Hf. apply gives_act. intros s Hs. split; [|done]. unfold keyed_state. by rewrite Hf. Qed.
Lemma tidy_use_cache {A} (f : DnsCache C → A * DnsCache C) :
  (∀ c, keyed c → keyed (f c).2) → tidy (use_cache f).
Proof. intros Hf. apply gives_act. intros s Hs. specialize (Hf _ Hs). by destruct (f (r_cache s)). Qed.
Lemma tidy_use_env {A} (f : N → A * N) : tidy (use_env f).
Proof. apply tidy_act. intros s. by destruct (f (r_env s)). Qed.
Lemma tidy_timed_out (s : St) : keyed_state s → keyed_state (timed_out s).2.
Proof. unfold timed_out. by destruct (env_timed_out (r_env s)). Qed.
Lemma tidy_use_ns_cache {A} (f : D (list IpAddr) → A * D (list IpAddr)) : tidy (use_ns_cache f).
Proof. apply tidy_act. intros s. by destruct (f (r_ns_cache s)). Qed.
Lemma tidy_use_delegation_cache {A} (f : D (list IpAddr * Z)%type → A * D (list IpAddr * Z)%type) :
  tidy (use_delegation_cache f).
Proof. apply tidy_act. intros s. by destruct (f (r_delegation_cache s)). Qed.
Lemma tidy_use_pool {A} (f : TcpPool → A * TcpPool) : tidy (use_pool f).
Proof. apply tidy_act. intros s. by destruct (f (r_tcp_pool s)). Qed.
Lemma tidy_use_truncation_cache {A} (f : gmap IpAddr Z → A * gmap IpAddr Z) : tidy (use_truncation_cache f).
Proof. apply tidy_act. intros s. by destruct (f (r_truncation_cache s)). Qed.
Lemma tidy_use_server_rtt {A} (f : R (f64 * Z)%type → A * R (f64 * Z)%type) : tidy (use_server_rtt f).
Proof. apply tidy_act. intros s. by destruct (f (r_server_rtt s)). Qed.
Lemma tidy_use_server_health {A} (f : gmap IpAddr ServerHealth → A * gmap IpAddr ServerHealth) :
  tidy (use_server_health f).
Proof. apply tidy_act. intros s. by destruct (f (r_server_health s)). Qed.
Lemma tidy_use_health {A} (f : R (f64 * Z)%type * gmap IpAddr ServerHealth →
    A * (R (f64 * Z)%type * gmap IpAddr ServerHealth)) : tidy (use_health f).
Proof. apply tidy_act. intros s. by destruct (f _) as [? []]. Qed.
Lemma tidy_use_stats f : tidy (use_stats f).
Proof. by apply tidy_act. Qed.
Lemma tidy_spawn job : tidy (spawn job).
Proof. by apply tidy_act. Qed.
Lemma tidy_unspawn i : tidy (unspawn i).
Proof. by apply tidy_act. Qed.
Lemma tidy_ret {A} (a : A) : tidy (mret a).
Proof. by apply gives_ret. Qed.
Lemma tidy_throw {A} e : tidy (throw (A:=A) e).
Proof. apply gives_throw. Qed.
Lemma tidy_lift {A} (r : DnsResult A) : tidy (lift r).
Proof. by apply gives_lift. Qed.
#[local] Create HintDb tidy.
Hint Resolve tidy_ret tidy_throw tidy_lift tidy_use_env tidy_use_ns_cache tidy_use_delegation_cache
  tidy_use_pool tidy_use_truncation_cache tidy_use_server_rtt tidy_use_server_health tidy_use_health
  tidy_use_stats tidy_spawn tidy_unspawn : tidy.

(** Step through binds, matches and tests. *)
Ltac tidy_steps :=
  repeat first
    [ solve [auto with tidy]
    | apply gives_then; [|intros ?]
    | apply gives_with_lock | apply keeps_try | apply keeps_catch | apply keeps_attempt | apply gives_fork
    | case_match | case_decide ].

Lemma instant_now_tidy : tidy instant_now.
Proof. unfold instant_now. tidy_steps. Qed.
Lemma cache_lookup_tidy name rtype rclass : tidy (cache_lookup name rtype rclass).
Proof.
  unfold cache_lookup. tidy_steps. apply tidy_use_cache. intros c Hc.
  destruct (lookup_cache _ _ _ _ _) eqn:E. by apply lookup_keyed in E as [? _].
Qed.
Lemma cache_insert_records_tidy records : tidy (cache_insert_records records).
Proof. unfold cache_insert_records. tidy_steps. apply tidy_use_cache. intros c. apply insert_records_keyed. Qed.
Hint Resolve instant_now_tidy cache_lookup_tidy cache_insert_records_tidy : tidy.

Lemma cache_response_tidy enable_ipv6 msg : tidy (cache_response enable_ipv6 msg).
Proof.
  unfold cache_response. do 2 apply gives_with_lock.
  generalize (m_answers msg ++ m_authorities msg ++ m_additionals msg). intros records.
  induction records as [|r records IH]; cbn [cache_records]; [apply tidy_ret|].
  apply gives_then; [|intros _; apply IH]. unfold cache_record. tidy_steps.
Qed.

Lemma find_cached_delegation_tidy name : tidy (find_cached_delegation name).
Proof.
  unfold find_cached_delegation. generalize (length name), 0%nat. intros fuel.
  induction fuel as [|fuel IH]; intros offset; cbn [delegation_loop]; tidy_steps.
Qed.
Lemma cached_delegation_tidy name : tidy (cached_delegation name).
Proof. apply gives_with_lock, find_cached_delegation_tidy. Qed.
Lemma cached_addresses_tidy name : tidy (cached_addresses name).
Proof. apply gives_with_lock, tidy_use_ns_cache. Qed.
Lemma cache_delegation_tidy zone ips : tidy (cache_delegation zone ips).
Proof. unfold cache_delegation. tidy_steps. Qed.
Lemma resolve_dnssec_tidy name rtype rclass : tidy (resolver_resolve_dnssec name rtype rclass).
Proof. unfold resolver_resolve_dnssec. tidy_steps. Qed.
Hint Resolve cache_response_tidy cached_delegation_tidy cached_addresses_tidy cache_delegation_tidy resolve_dnssec_tidy : tidy.

Lemma query_via_tcp_pool_tidy q server : tidy (query_via_tcp_pool q server).
Proof. unfold query_via_tcp_pool. cbn zeta. tidy_steps. Qed.
Hint Resolve query_via_tcp_pool_tidy : tidy.
Lemma server_task_tidy q id server : tidy (server_task q id server).
Proof. unfold server_task, truncated_before, tcp_fallback, measure_tcp_rtt, record_server_rtt. tidy_steps. Qed.

Hint Resolve server_task_tidy : tidy.
Lemma detach_tasks_tidy q id servers : tidy (detach_tasks q id servers).
Proof. induction servers as [|server servers IH]; cbn [detach_tasks]; tidy_steps. Qed.
Hint Resolve detach_tasks_tidy : tidy.
Lemma run_tasks_tidy q id hung servers : tidy (run_tasks q id hung servers).
Proof. revert hung. induction servers as [|server servers IH]; intros hung; cbn [run_tasks]; tidy_steps. Qed.
Lemma completion_order_tidy fuel servers : tidy (completion_order fuel servers).
Proof.
  revert servers. induction fuel as [|fuel IH]; intros [|first servers]; cbn [completion_order]; tidy_steps.
Qed.
Hint Resolve run_tasks_tidy completion_order_tidy : tidy.
Lemma query_servers_tidy q id servers : tidy (query_servers_concurrent q id servers).
Proof. unfold query_servers_concurrent. tidy_steps. Qed.
Hint Resolve query_servers_tidy : tidy.
Lemma query_rd1_tidy name rtype rclass servers : tidy (query_rd1 name rtype rclass servers).
Proof. unfold query_rd1. tidy_steps. Qed.
Hint Resolve query_rd1_tidy : tidy.

Lemma zone_server_loop_tidy additionals ns_records ips : tidy (zone_server_loop additionals ns_records ips).
Proof.
  revert ips. induction ns_records as [|ns ns_records IH]; intros; cbn [zone_server_loop]; cbn zeta; tidy_steps.
Qed.
Hint Resolve zone_server_loop_tidy : tidy.
Lemma nameservers_for_zone_tidy zone : tidy (get_nameservers_for_zone zone).
Proof. unfold get_nameservers_for_zone. tidy_steps. Qed.
Hint Resolve nameservers_for_zone_tidy : tidy.
Lemma query_zone_tidy name zone rtype : tidy (query_zone name zone rtype).
Proof. unfold query_zone. tidy_steps. Qed.
Hint Resolve query_zone_tidy : tidy.

Lemma validate_chain_tidy fuel zone dnskeys rrsigs signer depth :
  tidy (validate_dnssec_chain fuel zone dnskeys rrsigs signer depth).
Proof.
  revert zone dnskeys rrsigs signer depth. induction fuel as [|fuel IH]; intros; cbn [validate_dnssec_chain];
    cbn zeta; unfold query_ds_records, query_dnskey_records; tidy_steps.
Qed.
Hint Resolve validate_chain_tidy : tidy.

(** The body of a call, when the calls one level down keep it. *)
Section body.
Context (enable_ipv6 : bool).
Context (rec : bool → bytes → Z → Z → nat → bool → RM St (list ResourceRecord * bool)).
Hypothesis rec_tidy : ∀ dnssec_ok name rtype rclass depth minimize,
  tidy (rec dnssec_ok name rtype rclass depth minimize).
Hint Resolve rec_tidy : tidy.

Lemma stale_refresh_tidy dnssec_ok name rtype rclass :
  tidy (resolve_recursive_stale rec dnssec_ok name rtype rclass).
Proof. apply gives_timeout; [apply tidy_timed_out|apply rec_tidy]. Qed.

Lemma resolve_fresh_tidy dnssec_ok start name rtype rclass :
  tidy (resolve_fresh rec dnssec_ok start name rtype rclass).
Proof. unfold resolve_fresh. tidy_steps. Qed.

Lemma resolve_cached_tidy name encoded rtype rclass : tidy (resolve_cached name encoded rtype rclass).
Proof. unfold resolve_cached. tidy_steps. Qed.
Hint Resolve stale_refresh_tidy resolve_fresh_tidy resolve_cached_tidy : tidy.

Lemma stale_lookup_tidy clk name rtype rclass :
  tidy (use_cache (λ c, lookup_stale c clk name rtype rclass)).
Proof.
  apply tidy_use_cache. intros c Hc. destruct (lookup_stale _ _ _ _ _) eqn:E.
  by apply lookup_stale_keyed in E as [? _].
Qed.
Hint Resolve stale_lookup_tidy : tidy.

Lemma resolve_with_ad_tidy dnssec_ok name rtype rclass :
  tidy (resolver_resolve_with_ad rec dnssec_ok name rtype rclass).
Proof. unfold resolver_resolve_with_ad. tidy_steps. Qed.
Hint Resolve resolve_with_ad_tidy : tidy.
Lemma resolve_tidy dnssec_ok name rtype rclass : tidy (resolve rec dnssec_ok name rtype rclass).
Proof. unfold resolve. tidy_steps. Qed.
Hint Resolve resolve_tidy : tidy.

Lemma ds_guard_tidy name rclass n : tidy (ds_guard name rclass n).
Proof. induction n as [|n IH]; cbn [ds_guard]; tidy_steps. Qed.
Hint Resolve ds_guard_tidy : tidy.
Lemma check_answer_tidy dnssec_ok name total rtype rclass servers msg direct :
  tidy (check_answer rec dnssec_ok name total rtype rclass servers msg direct).
Proof.
  unfold check_answer, rd1_fallback, resolve_dnskeys, dnssec_verdict, check_chain. cbn zeta. tidy_steps.
Qed.
Lemma negative_tidy dnssec_ok msg name rclass qtype :
  tidy (validate_negative_dnssec_response rec dnssec_ok msg name rclass qtype).
Proof. unfold validate_negative_dnssec_response. cbn zeta. tidy_steps. Qed.
Hint Resolve check_answer_tidy negative_tidy : tidy.

Lemma referral_loop_tidy additionals ns_records servers names :
  tidy (referral_loop enable_ipv6 additionals ns_records servers names).
Proof.
  revert servers names. induction ns_records as [|ns ns_records IH]; intros; cbn [referral_loop];
    cbn zeta; tidy_steps.
Qed.
Lemma resolve_ns_names_tidy names rclass depth : tidy (resolve_ns_names_concurrently rec names rclass depth).
Proof.
  induction names as [|name names IH]; cbn [resolve_ns_names_concurrently]; [apply tidy_ret|].
  unfold resolve_ns_name. tidy_steps.
Qed.
Lemma add_resolved_tidy results servers : tidy (add_resolved results servers).
Proof.
  revert servers. induction results as [|[name ips] results IH]; intros; cbn [add_resolved]; tidy_steps.
Qed.
Hint Resolve referral_loop_tidy resolve_ns_names_tidy add_resolved_tidy : tidy.
Lemma follow_referral_tidy rclass depth msg : tidy (follow_referral enable_ipv6 rec rclass depth msg).
Proof. unfold follow_referral. cbn zeta. tidy_steps. Qed.
Hint Resolve follow_referral_tidy : tidy.

Lemma process_answer_tidy dnssec_ok name rtype rclass depth servers revealed total msg :
  tidy (process_answer enable_ipv6 rec dnssec_ok name rtype rclass depth servers revealed total msg).
Proof. unfold process_answer, chase, refer_or_deny. cbn zeta. tidy_steps. Qed.
Hint Resolve process_answer_tidy : tidy.
Lemma iteration_tidy dnssec_ok name rtype rclass depth total servers revealed :
  tidy (iteration enable_ipv6 rec dnssec_ok name rtype rclass depth total servers revealed).
Proof. unfold iteration. tidy_steps. Qed.
Lemma iterate_tidy n dnssec_ok name rtype rclass depth total servers revealed :
  tidy (iterate enable_ipv6 rec n dnssec_ok name rtype rclass depth total servers revealed).
Proof.
  revert servers revealed. induction n as [|n IH]; intros; cbn [iterate]; [apply tidy_throw|].
  apply gives_then; [apply iteration_tidy|]. intros []; [apply tidy_ret|apply IH].
Qed.
Hint Resolve iterate_tidy : tidy.
Lemma resolve_body_tidy dnssec_ok name rtype rclass depth minimize :
  tidy (resolve_body enable_ipv6 rec dnssec_ok name rtype rclass depth minimize).
Proof. unfold resolve_body. cbn zeta. tidy_steps. Qed.
End body.

Lemma resolve_recursive_tidy enable_ipv6 fuel dnssec_ok name rtype rclass depth minimize :
  tidy (resolve_recursive enable_ipv6 fuel dnssec_ok name rtype rclass depth minimize).
Proof.
  revert dnssec_ok name rtype rclass depth minimize. induction fuel as [|fuel IH]; intros; [apply tidy_lift|].
  by apply resolve_body_tidy.
Qed.

(** *** Answers *)

Lemma gives_use_cache {A} (f : DnsCache C → A * DnsCache C) (Q : A → Prop) :
  (∀ c a c', keyed c → f c = (a, c') → keyed c' ∧ Q a) → gives keyed_state (use_cache f) Q.
Proof.
  intros Hf. apply gives_act. intros s Hs. destruct (f (r_cache s)) as [a c] eqn:E. by apply (Hf _ _ _ Hs).
Qed.

(** What an answer to a client is. *)
Definition served (dnssec_ok : bool) (nm : bytes) (rtype : Z) (a : list ResourceRecord * bool) : Prop :=
  (∃ n, answers rtype n nm a.1 ∧ (n <= 10)%nat) ∧ (dnssec_ok = false → a.2 = false).

Lemma keyed_served dnssec_ok nm rtype rclass records :
  domain_names_equal nm nm = true → Forall (keyed_record nm rtype rclass) records →
  served dnssec_ok nm rtype (records, false).
Proof.
  intros Hnm Hk. split; [|done]. exists 0%nat. split; [|lia]. apply answers_direct.
  eapply Forall_impl; [done|]. by intros r (-> & -> & _).
Qed.

Section entry.
Context (enable_ipv6 : bool) (fuel : nat).
Abbreviation rec := (resolve_recursive (C:=C) (D:=D) (R:=R) (N:=N) enable_ipv6 fuel).

Lemma rec_served dnssec_ok nm rtype rclass :
  ensures (rec dnssec_ok nm rtype rclass 0 true) (served dnssec_ok nm rtype).
Proof.
  eapply gives_weaken; [apply resolve_recursive_ok|].
  intros a (_ & (n & Hn & Hle) & Had). split; [exists n; split; [done|lia]|done].
Qed.

Lemma rec_tidy dnssec_ok nm rtype rclass depth minimize : tidy (rec dnssec_ok nm rtype rclass depth minimize).
Proof. apply resolve_recursive_tidy. Qed.
Hint Resolve rec_tidy : tidy.

Lemma resolve_fresh_served dnssec_ok start nm rtype rclass :
  ensures (resolve_fresh rec dnssec_ok start nm rtype rclass) (served dnssec_ok nm rtype).
Proof.
  unfold resolve_fresh. eapply gives_bind; [apply gives_catch, rec_served|]. intros r Hr.
  do 2 (apply ensures_bind_any; intros ?). destruct r as [answer|e].
  - apply ensures_bind_any. intros _. by apply gives_ret, Hr.
  - apply ensures_bind_any. intros _. apply gives_throw.
Qed.

Lemma stale_refresh_served dnssec_ok nm rtype rclass :
  ensures (resolve_recursive_stale rec dnssec_ok nm rtype rclass) (served dnssec_ok nm rtype).
Proof.
  apply gives_timeout; [done|apply rec_served].
Qed.

(** Records from the cache. *)
Definition keyed_result (nm : bytes) (rtype rclass : Z) (r : option (list ResourceRecord)) : Prop :=
  ∀ records, r = Some records → Forall (keyed_record nm rtype rclass) records.

Lemma resolve_cached_keyed name nm rtype rclass :
  gives keyed_state (resolve_cached name nm rtype rclass) (keyed_result nm rtype rclass).
Proof.
  apply gives_with_lock. apply (gives_bind _ _ (λ r, ∀ records ttl, r = Some (records, ttl) →
    Forall (keyed_record nm rtype rclass) records)).
  { unfold cache_lookup. apply gives_then; [apply tidy_use_env|]. intros clk.
    apply gives_use_cache. intros c r c' Hc E. by eapply lookup_keyed. }
  intros [[records ttl]|] Hfound; [|by apply gives_ret].
  apply gives_then; [tidy_steps|]. intros _. apply gives_ret. intros ? [= <-]. by eapply Hfound.
Qed.

Lemma lookup_stale_keyed_result clk nm rtype rclass :
  gives keyed_state (use_cache (λ c, lookup_stale c clk nm rtype rclass)) (keyed_result nm rtype rclass).
Proof. apply gives_use_cache. intros c r c' Hc E. by eapply lookup_stale_keyed. Qed.

Lemma resolve_with_ad_served dnssec_ok name rtype rclass :
  gives keyed_state (resolver_resolve_with_ad rec dnssec_ok name rtype rclass) (λ a,
    ∃ nm, encode_domain_name name = Ok nm ∧ served dnssec_ok nm rtype a).
Proof.
  unfold resolver_resolve_with_ad. apply gives_then; [apply instant_now_tidy|]. intros start.
  apply (gives_bind _ _ (λ nm, encode_domain_name name = Ok nm)); [by apply gives_lift|].
  intros nm Hnm. pose proof (encoded_equal _ _ Hnm) as Hrefl.
  eapply gives_bind; [apply resolve_cached_keyed|]. intros [records|] Hfound.
  { apply gives_ret. exists nm. split; [done|]. eapply keyed_served; [done|]. by eapply Hfound. }
  apply gives_then; [tidy_steps|]. intros _.
  eapply gives_bind; [apply gives_with_lock, gives_then; [apply tidy_use_env|intros clk; apply lookup_stale_keyed_result]|].
  intros [stale|] Hstale.
  - eapply gives_bind; [apply gives_try, gives_strengthen;
      [by apply stale_refresh_tidy, rec_tidy|apply stale_refresh_served]|].
    intros [[fresh ad]|] Hfresh; cbn beta.
    + apply gives_then; [apply gives_with_lock, cache_insert_records_tidy|]. intros _. apply gives_ret. exists nm.
      split; [done|]. destruct (Hfresh _ eq_refl) as [Hans _]. by split.
    + apply gives_then; [tidy_steps|]. intros _. apply gives_ret. exists nm.
      split; [done|]. eapply keyed_served; [done|]. by apply Hstale.
  - apply gives_strengthen; [by apply resolve_fresh_tidy, rec_tidy|].
    eapply gives_weaken; [apply resolve_fresh_served|]. intros a Ha. by exists nm.
Qed.
End entry.

(** *** The tasks in the background *)

Lemma flush_cache_tidy : tidy flush_cache.
Proof. apply gives_with_lock, tidy_use_cache. intros c. apply clear_keyed. Qed.

Lemma purge_task_tidy : tidy purge_task.
Proof.
  apply gives_with_lock, gives_then; [apply tidy_use_env|]. intros clk. apply tidy_use_cache.
  intros c. apply purge_keyed.
Qed.
Lemma ping_loop_tidy q servers : tidy (ping_loop q servers).
Proof.
  induction servers as [|server servers IH]; cbn [ping_loop]; unfold ping_server; cbn zeta; tidy_steps.
Qed.
Hint Resolve ping_loop_tidy instant_now_tidy : tidy.
Lemma health_task_tidy : tidy health_task.
Proof. unfold health_task. tidy_steps. Qed.
Lemma background_refresh_tidy ipv6 dnssec fuel job : tidy (background_refresh ipv6 dnssec fuel job).
Proof. destruct job as [[name rtype] rclass]. unfold background_refresh. tidy_steps. apply resolve_recursive_tidy. Qed.

Lemma pool_task_tidy : tidy pool_task.
Proof. unfold pool_task. tidy_steps. Qed.
Lemma truncation_task_tidy : tidy truncation_task.
Proof. unfold truncation_task. tidy_steps. Qed.
Lemma rtt_save_task_tidy : tidy rtt_save_task.
Proof. unfold rtt_save_task. tidy_steps. Qed.

Lemma tidy_run {A} (c : RM St A) s : tidy c → keyed (r_cache s) → keyed (r_cache (c s).2).
Proof. intros Hc Hs. by apply (wp_run keyed_state c _ s Hc). Qed.
End resolver.

(** ** The process *)

(** A property of the resolver's state that its operations keep is kept by the servers. *)
Section kept.
Context {S T : Type} `{Engine S} `{TcpStream T} `{Unicode} `{Sources}.
Context (P : S → Prop).
Hypothesis resolve_P : ∀ r name rtype rclass, P r → P (Server.resolve_with_ad r name rtype rclass).2.
Hypothesis dnssec_P : ∀ r name rtype rclass, P r → P (Server.resolve_dnssec r name rtype rclass).2.
Hypothesis flush_P : ∀ r, P r → P (engine_flush_cache r).
Hypothesis background_P : ∀ i r r', P r → engine_background i r = Ok r' → P r'.

Lemma additionals_kept r qname qclass wants : P r → P (dnssec_additionals r qname qclass wants).2.
Proof.
  intros Hr. unfold dnssec_additionals. destruct wants; [|done].
  pose proof (resolve_P r (extract_zone qname) 48 qclass Hr) as Hk1.
  destruct (Server.resolve_with_ad r (extract_zone qname) 48 qclass) as [keys r1].
  pose proof (dnssec_P r1 qname 46 qclass Hk1) as Hk2.
  destruct (Server.resolve_dnssec r1 qname 46 qclass) as [rrsigs r2]. by destruct keys.
Qed.

Lemma send_reply_resolver (r : S) reply : hd_resolver (send_reply r reply) = r.
Proof. by destruct reply as [[]| | |]. Qed.

Lemma handle_query_kept r query : P r → P (hd_resolver (handle_query r query)).
Proof.
  intros Hr. unfold handle_query. destruct (decode_message query) as [request|e| |];
    rewrite ?send_reply_resolver; try done.
  destruct (h_qr (m_header request)); [done|]. destruct (m_questions request) as [|q qs]; [done|]. cbn zeta.
  pose proof (resolve_P r (Question_name_str q) (q_type q) (q_class q) Hr) as Hk1.
  destruct (Server.resolve_with_ad r _ _ _) as [[[records ad]|e| |] r1]; try done.
  - pose proof (additionals_kept r1 (Question_name_str q) (q_class q) (client_wants_dnssec request) Hk1) as Hk2.
    destruct (dnssec_additionals _ _ _ _) as [adds r2]. by rewrite send_reply_resolver.
  - by destruct e; rewrite send_reply_resolver.
Qed.

Lemma tcp_reply_kept r query : P r → P (tcp_reply r query).2.
Proof.
  intros Hr. unfold tcp_reply. destruct (decode_message query) as [request|e| |]; try done.
  destruct (h_qr (m_header request)); [done|]. destruct (m_questions request) as [|q qs]; [done|]. cbn zeta.
  pose proof (resolve_P r (Question_name_str q) (q_type q) (q_class q) Hr) as Hk1.
  destruct (Server.resolve_with_ad r _ _ _) as [[[records ad]|e| |] r1]; try done.
  - pose proof (additionals_kept r1 (Question_name_str q) (q_class q) (client_wants_dnssec request) Hk1) as Hk2.
    by destruct (dnssec_additionals _ _ _ _) as [adds r2].
  - by destruct e.
Qed.

Lemma connection_kept (stream : T) r : P r → P (handle_tcp_connection stream r).2.
Proof.
  intros Hr. unfold handle_tcp_connection. destruct (read_exact stream 2) as [[len|e] s1]; [|done].
  cbn zeta. case_decide; [done|]. destruct (read_exact s1 _) as [[query|e] s2]; [|done].
  pose proof (tcp_reply_kept r query Hr) as Ht. destruct (tcp_reply r query) as [[[reply|]|e| |] r1]; try done.
  by destruct (write_tcp_response s2 reply).
Qed.

Lemma step_kept (a : App S T) e a' out :
  P (app_resolver a) → step a e = Some (a', out) → P (app_resolver a').
Proof.
  intros Hr Hs. destruct e as [result buf|i|result|i|method path now|now|i aaaa|i|]; cbn in Hs.
  - destruct (app_udp a); [|done..]. unfold udp_turn in Hs.
    destruct (handle_recv _ _ _) as [[]| | |]; by simplify_eq/=.
  - unfold query_task in Hs. destruct (app_queries a !! i) as [[data src]|]; [|done]. cbn in Hs.
    pose proof (handle_query_kept _ data Hr). destruct (hd_result _); by simplify_eq/=.
  - unfold tcp_turn in Hs. destruct result; [case_decide|]; by simplify_eq/=.
  - unfold connection_task in Hs. destruct (app_connections a !! i) as [stream|]; [|done]. cbn in Hs.
    pose proof (connection_kept stream _ Hr). destruct (handle_tcp_connection _ _) as [[result ?] ?].
    destruct result; by simplify_eq/=.
  - destruct (app_api a); [|done]. destruct (build_router method path) as [[]|]; simplify_eq/=; auto.
  - destruct (app_blocklist a); [|done]. by simplify_eq/=.
  - destruct (app_prefetch a !! i) as [domain|]; [|done]. cbn in Hs. unfold prefetch in Hs.
    pose proof (resolve_P _ domain (if aaaa then 28 else 1) 1 Hr).
    destruct (Server.resolve_with_ad _ _ _ _) as [[] ?]; by simplify_eq/=.
  - destruct (engine_background _ _) eqn:E; [|done..]. simplify_eq/=. by eapply background_P.
  - by simplify_eq/=.
Qed.

Lemma run_kept (a : App S T) (events : list (event T)) :
  P (app_resolver a) → P (app_resolver (run a events).1).
Proof. intros Ha. apply (run_invariant (λ a, P (app_resolver a))); [intros; by eapply step_kept|done]. Qed.
End kept.

Section engine.
Context {C D R : Type → Type} {N T : Type} `{LruLaws cache_key C} `{LruOps bytes D} `{LruOps IpAddr R} `{Env N} `{Crypto}
  `{TcpStream T} `{Unicode} `{Sources}.
Context (fuel : nat) (persisted_rtt : list (IpAddr * (f64 * Z))) (n : N).
Abbreviation St := (RecursiveResolver C D R N).
Abbreviation Live := (bool * bool * St)%type.
#[local] Existing Instance recursive_engine.
#[local] Instance live_engine : Engine Live := recursive_engine fuel persisted_rtt n.

(** The flags and the cache of a running resolver. *)
Definition sound (ipv6 dnssec : bool) (r : Live) : Prop := r.1 = (ipv6, dnssec) ∧ keyed (r_cache r.2).

(** What the interface of the servers comes down to. *)
Lemma live_resolve_run v6 do s name rtype rclass :
  Server.resolve_with_ad (v6, do, s) name rtype rclass =
    ((Resolver.resolve_with_ad v6 do fuel name rtype rclass s).1,
     (v6, do, (Resolver.resolve_with_ad v6 do fuel name rtype rclass s).2)).
Proof.
  unfold Server.resolve_with_ad, engine_resolver, live_engine, recursive_engine, flagged_resolver.
  unfold Server.resolve_with_ad, recursive_resolver. by destruct (Async.run _ s).
Qed.
Lemma live_dnssec_run v6 do s name rtype rclass :
  (Server.resolve_dnssec (v6, do, s) name rtype rclass).2 =
    (v6, do, (resolver_resolve_dnssec name rtype rclass s).2).
Proof.
  unfold Server.resolve_dnssec, engine_resolver, live_engine, recursive_engine, flagged_resolver.
  unfold Server.resolve_dnssec, recursive_resolver. by destruct (Async.run _ s).
Qed.

Lemma live_resolve ipv6 dnssec r name rtype rclass :
  sound ipv6 dnssec r → sound ipv6 dnssec (Server.resolve_with_ad r name rtype rclass).2.
Proof.
  destruct r as [[v6 do] s]. intros [Hf Hk]. rewrite live_resolve_run. split; [done|].
  apply tidy_run; [|done]. apply resolve_with_ad_tidy, resolve_recursive_tidy.
Qed.

Lemma live_dnssec ipv6 dnssec r name rtype rclass :
  sound ipv6 dnssec r → sound ipv6 dnssec (Server.resolve_dnssec r name rtype rclass).2.
Proof.
  destruct r as [[v6 do] s]. intros [Hf Hk]. rewrite live_dnssec_run. split; [done|].
  apply tidy_run; [|done]. apply resolve_dnssec_tidy.
Qed.

Lemma live_flush ipv6 dnssec r : sound ipv6 dnssec r → sound ipv6 dnssec (engine_flush_cache r).
Proof. destruct r as [f s]. intros [Hf Hk]. split; [done|]. by apply tidy_run; [apply flush_cache_tidy|]. Qed.

Lemma ended_keyed {A} (c : RM St A) s s' :
  keeps keyed_state c → keyed (r_cache s) → ended (c s) = Ok s' → keyed (r_cache s').
Proof.
  intros Hc Hs. pose proof (tidy_run c s Hc Hs). unfold ended. destruct (c s) as [[]]; cbn in *; by intros [= <-].
Qed.

Lemma live_background ipv6 dnssec i r r' :
  sound ipv6 dnssec r → engine_background i r = Ok r' → sound ipv6 dnssec r'.
Proof.
  destruct r as [f s]. intros [Hf Hk] Hb. cbn in Hb. destruct (background_task _ _ _ _ _) as [s'| | |] eqn:Eb; [|done..]. injection Hb as <-.
  split; [done|]. cbn [snd] in *. unfold background_task in Eb. destruct i as [|[|[|[|[|i]]]]].
  6: { destruct (r_spawned s !! i) as [job|]; [|done]. eapply ended_keyed; [|exact Hk|exact Eb].
       apply gives_then; [apply tidy_unspawn|]. intros _. apply background_refresh_tidy. }
  all: eapply ended_keyed; [|exact Hk|exact Eb].
  - apply purge_task_tidy.
  - apply pool_task_tidy.
  - apply truncation_task_tidy.
  - apply health_task_tidy.
  - apply rtt_save_task_tidy.
Qed.

(** C10: in every state the process can reach, whatever the clients have asked, whatever the name
    servers have answered, and with the cache, the stale records and the refreshes in play: what a
    client is told about a name is a chain of at most ten aliases from that name, and then records
    of the last name and of the type asked for; and without DNSSEC the AD flag is never set. *)
Theorem served_answers now config (a : App Live T) (events : list (event T)) name rtype rclass
    records ad r' :
  start now config = Ok a →
  Server.resolve_with_ad (app_resolver (run a events).1) name rtype rclass = (Ok (records, ad), r') →
  ∃ nm, encode_domain_name name = Ok nm ∧
    (∃ k, answers rtype k nm records ∧ (k <= 10)%nat) ∧
    (sc_dnssec_ok config = false → ad = false).
Proof.
  intros Hs Hr. destruct (start_fields _ _ _ Hs) as [Hinit _].
  assert (Hsound : sound (sc_enable_ipv6 config) (sc_dnssec_ok config) (app_resolver (run a events).1)).
  { apply run_kept; eauto using live_resolve, live_dnssec, live_flush, live_background.
    rewrite Hinit. split; [done|]. apply with_max_entries_keyed. }
  destruct (app_resolver (run a events).1) as [[v6 do] s]. destruct Hsound as [[= -> ->] Hk].
  rewrite live_resolve_run in Hr. injection Hr as Hr _.
  destruct (Resolver.resolve_with_ad _ _ _ _ _ _ s) as [res s'] eqn:E. cbn [fst] in Hr. subst res.
  eapply gives_run in E as [_ E]; [|apply resolve_with_ad_served|exact Hk]. done.
Qed.
End engine.

(** The process over the small network of [Completeness], before and after a query for "c.b". *)
Definition toy_query : bytes := [0; 7; 1; 0; 0; 1; 0; 0; 0; 0; 0; 0; 1; 99; 1; 98; 0; 0; 1; 0; 1].
#[local] Existing Instances ascii_unicode App.Toy.no_sources Completeness.Toy.env toy_crypto.
#[local] Hint Extern 0 (Engine _) => exact (live_engine 4 [] tt) : typeclass_instances.

Definition toy_events : list (event mem_stream) := [Datagram (inl (21%nat, App.Toy.client)) toy_query; QueryTask 0].

(** What a client is told about a name when the process that [started] has seen these events. *)
Definition told (started : outcome unit (App (bool * bool * Completeness.Toy.state) mem_stream)) (name : str)
    : DnsResult (list ResourceRecord * bool) :=
  match started with
  | Ok a => (Server.resolve_with_ad (app_resolver (run a toy_events).1) name 1 1).1
  | _ => Panic
  end.

Lemma served_answers_witness :
  told (start 0 App.Toy.plain_config) [99; 46; 98] =
    Ok ([Completeness.Toy.alias_c; Completeness.Toy.address_a], false) ∧
  ∃ nm, encode_domain_name [99; 46; 98] = Ok nm ∧
    (∃ k, answers 1 k nm [Completeness.Toy.alias_c; Completeness.Toy.address_a] ∧ (k <= 10)%nat) ∧
    (sc_dnssec_ok App.Toy.plain_config = false → false = false).
Proof.
  assert (Htold : told (start 0 App.Toy.plain_config) [99; 46; 98] =
    Ok ([Completeness.Toy.alias_c; Completeness.Toy.address_a], false)) by (vm_compute; reflexivity).
  split; [exact Htold|]. destruct (start 0 App.Toy.plain_config) as [a| | |] eqn:Hs; [|discriminate Htold..].
  unfold told in Htold. destruct (Server.resolve_with_ad _ _ _ _) as [r r'] eqn:Hr. cbn [fst] in Htold. subst r.
  exact (served_answers 4 [] tt 0 App.Toy.plain_config a toy_events [99; 46; 98] 1 1 _ false r' Hs Hr).
Defined.
