(* ===== verification/Concurrency.v ===== *)
(** * Many resolutions at once

    The resolver under [Scheduler]: clients' questions, lookups of cached
    signatures, refreshes, prefetches and the periodic tasks arrive at any time and
    take their actions in any order.

    What a client is told is right under every such order
    ([answers_interleaved]).  On a network that delivers no packet on which the
    decoder hangs, no task waits for ever: the mutexes are taken in one order
    ([mutex_order]) and nothing runs for ever without DNSSEC
    ([queries_finish]).  On any other network one packet can end the service:
    the reply over TCP of a server that has truncated before is decoded under
    the mutex of the truncation cache, and while that is held no query gets
    past it ([resolver_killed]). *)

From stdpp Require Import gmap strings.
From S2P Require Import Prelude Constants Str Types Names NameCodec Rdata Message Async Scheduler Lru Cache RootHints Rtt.
From S2P Require Import Upstream Dnssec Server Resolver Resolution Completeness Served.
#[local] Open Scope Z_scope.

(** ** The tasks *)

Abbreviation Question := (str * Z * Z)%type.
Abbreviation Answer := (list ResourceRecord * bool)%type.

Section tasks.
Context {C D R : Type → Type} {N : Type} `{LruOps cache_key C} `{LruOps bytes D} `{LruOps IpAddr R} `{Env N} `{Crypto}.
Abbreviation St := (RecursiveResolver C D R N).

(** A task whose value is dropped. *)
Definition dropped {A} (c : RM St A) : RM St unit := _ ← c; mret ().

(** A lookup of the prefetch at the start, which is dropped after its three seconds. *)
Definition prefetch_task (enable_ipv6 dnssec_ok : bool) (fuel : nat) (name : str) (rtype : Z) : RM St unit :=
  dropped (timeout timed_out (DnsError.Transport "deadline has elapsed") []
    (Resolver.resolve_with_ad enable_ipv6 dnssec_ok fuel name rtype 1)).

(** A client's question, and all else that uses the resolver: the lookup of signatures for an
    answer, a refresh that was spawned, a prefetch, the periodic tasks, and the endpoints of the program. *)
Inductive service (enable_ipv6 dnssec_ok : bool) (fuel : nat) : Thread St Question Answer → Prop :=
  | serve_query name rtype rclass :
    service enable_ipv6 dnssec_ok fuel
      (Client (name, rtype, rclass) (Resolver.resolve_with_ad enable_ipv6 dnssec_ok fuel name rtype rclass))
  | serve_dnssec name rtype rclass :
    service enable_ipv6 dnssec_ok fuel (Task (dropped (resolver_resolve_dnssec name rtype rclass)))
  | serve_refresh job :
    service enable_ipv6 dnssec_ok fuel (Task (dropped (background_refresh enable_ipv6 dnssec_ok fuel job)))
  | serve_purge : service enable_ipv6 dnssec_ok fuel (Task purge_task)
  | serve_pool : service enable_ipv6 dnssec_ok fuel (Task pool_task)
  | serve_truncation : service enable_ipv6 dnssec_ok fuel (Task truncation_task)
  | serve_rtt : service enable_ipv6 dnssec_ok fuel (Task (dropped rtt_save_task))
  | serve_health : service enable_ipv6 dnssec_ok fuel (Task health_task)
  | serve_flush : service enable_ipv6 dnssec_ok fuel (Task flush_cache)
  | serve_stats : service enable_ipv6 dnssec_ok fuel (Task (dropped cache_stats))
  | serve_prefetch name rtype :
    service enable_ipv6 dnssec_ok fuel (Task (prefetch_task enable_ipv6 dnssec_ok fuel name rtype)).
End tasks.

(** ** Answers *)

Section answers.
Context {C D R : Type → Type} {N : Type} `{LruLaws cache_key C} `{LruOps bytes D} `{LruOps IpAddr R} `{Env N} `{Crypto}.
Abbreviation St := (RecursiveResolver C D R N).
Context (enable_ipv6 dnssec_ok : bool) (fuel : nat).
Abbreviation served_thread := (thread_wp (L:=Question) (A:=Answer) keyed_state (λ (q : Question) r,
  ∀ a, r = Ok a → ∃ nm, encode_domain_name q.1.1 = Ok nm ∧ served dnssec_ok nm q.1.2 a)).

Lemma cache_stats_tidy : keeps keyed_state (cache_stats : RM St _).
Proof. apply gives_with_lock, tidy_use_cache. done. Qed.

Lemma dropped_wp {A} (c : RM St A) : keeps keyed_state c → wp keyed_state (dropped c) (λ _, True).
Proof. intros Hc. eapply wp_mono; [apply (gives_then c _ (λ _, True)); [done|]|done]. intros a. by apply gives_ret. Qed.

Lemma service_tidy th : service enable_ipv6 dnssec_ok fuel th → served_thread th.
Proof.
  assert (∀ c : RM St unit, keeps keyed_state c → wp keyed_state c (λ _, True)) as Hk.
  { intros c Hc. by eapply wp_mono. }
  destruct 1 as [name rtype rclass| | | | | | | | | |name rtype]; unfold thread_wp.
  - apply resolve_with_ad_served.
  - apply dropped_wp, resolve_dnssec_tidy.
  - apply dropped_wp, background_refresh_tidy.
  - apply Hk, purge_task_tidy.
  - apply Hk, pool_task_tidy.
  - apply Hk, truncation_task_tidy.
  - apply dropped_wp, rtt_save_task_tidy.
  - apply Hk, health_task_tidy.
  - apply Hk, flush_cache_tidy.
  - apply dropped_wp, cache_stats_tidy.
  - apply dropped_wp, gives_timeout; [apply tidy_timed_out|].
    eapply gives_keeps, resolve_with_ad_served.
Qed.

Lemma new_keyed persisted_rtt cache_size (n : N) :
  keyed_state (resolver_new enable_ipv6 dnssec_ok cache_size persisted_rtt n : St).
Proof. apply with_max_entries_keyed. Qed.

Lemma reachable_sound cache_size persisted_rtt (n : N) w :
  reachable (service enable_ipv6 dnssec_ok fuel)
    (idle (resolver_new enable_ipv6 dnssec_ok cache_size persisted_rtt n : St)) w →
  sound_world keyed_state (λ (q : Question) r,
    ∀ a, r = Ok a → ∃ nm, encode_domain_name q.1.1 = Ok nm ∧ served dnssec_ok nm q.1.2 a) w.
Proof. apply adequacy; [apply service_tidy|apply sound_idle, new_keyed]. Qed.

(** C11: whatever the name servers answer, in whatever order questions, refreshes, prefetches,
    flushes and the periodic tasks arrive, however their actions interleave, and wherever a refresh
    or a prefetch is dropped because its time is up, every record in the cache is stored under its
    own name, type and class, and what a client is told about a name is a chain of at most ten
    aliases from it and then records of the type asked for, without the AD flag when DNSSEC is
    off. *)
Theorem answers_interleaved cache_size persisted_rtt (n : N) w :
  reachable (service enable_ipv6 dnssec_ok fuel)
    (idle (resolver_new enable_ipv6 dnssec_ok cache_size persisted_rtt n : St)) w →
  keyed (r_cache (w_state w)) ∧
  ∀ i name rtype rclass a, w_threads w !! i = Some (Client (name, rtype, rclass) (Done (Ok a))) →
    ∃ nm, encode_domain_name name = Ok nm ∧ served dnssec_ok nm rtype a.
Proof.
  intros Hw%reachable_sound. split; [apply Hw|]. intros i name rtype rclass a Ei.
  exact (sound_client _ _ _ _ _ _ Hw Ei a eq_refl).
Qed.
End answers.

(** ** The order of the mutexes *)

Ltac above_order := repeat constructor; cbn; lia.

Ltac orderly_steps :=
  repeat first
    [ solve [auto with orderly]
    | apply orderly_bind; [|intros ?]
    | apply orderly_with_lock; [above_order|solve [ends_steps]|]
    | apply orderly_try | apply orderly_catch | apply orderly_attempt | apply orderly_timeout
    | case_match | case_decide ].

Section order.
Context {C D R : Type → Type} {N : Type} `{LruOps cache_key C} `{LruOps bytes D} `{LruOps IpAddr R} `{QuietEnv N} `{Crypto}.
Abbreviation St := (RecursiveResolver C D R N).
Abbreviation orderly := (orderly (S:=St)).

Lemma instant_now_orderly held : orderly held (instant_now : RM St Z).
Proof. unfold instant_now. orderly_steps. Qed.
Hint Resolve instant_now_orderly : orderly.

Lemma cache_lookup_orderly held name rtype rclass : orderly held (cache_lookup name rtype rclass).
Proof. unfold cache_lookup. orderly_steps. Qed.
Lemma cache_lookup_ends name rtype rclass : ends (cache_lookup name rtype rclass : RM St _).
Proof. unfold cache_lookup. ends_steps. Qed.
Lemma cache_insert_records_orderly held records : orderly held (cache_insert_records records).
Proof. unfold cache_insert_records. orderly_steps. Qed.
Lemma cache_insert_records_ends records : ends (cache_insert_records records : RM St _).
Proof. unfold cache_insert_records. ends_steps. Qed.
Hint Resolve cache_lookup_orderly cache_insert_records_orderly : orderly.
Hint Resolve cache_lookup_ends cache_insert_records_ends : ends.

Lemma cache_response_orderly enable_ipv6 msg : orderly [] (cache_response enable_ipv6 msg).
Proof.
  unfold cache_response. orderly_steps. 
  generalize (m_answers msg ++ m_authorities msg ++ m_additionals msg). intros records.
  induction records as [|r records IH]; cbn [cache_records]; [auto with orderly|].
  apply orderly_bind; [|intros _; apply IH]. unfold cache_record. orderly_steps.
Qed.

Lemma find_cached_delegation_orderly held name : orderly held (find_cached_delegation name).
Proof.
  unfold find_cached_delegation. generalize (length name), 0%nat. intros fuel.
  induction fuel as [|fuel IH]; intros offset; cbn [delegation_loop]; orderly_steps.
Qed.
Hint Resolve find_cached_delegation_orderly : orderly.
Lemma cached_delegation_orderly name : orderly [] (cached_delegation name).
Proof. unfold cached_delegation. orderly_steps. Qed.
Lemma cached_addresses_orderly name : orderly [] (cached_addresses name).
Proof. unfold cached_addresses. orderly_steps. Qed.
Lemma cache_delegation_orderly zone ips : orderly [] (cache_delegation zone ips).
Proof. unfold cache_delegation. orderly_steps. Qed.
Lemma resolve_dnssec_orderly name rtype rclass : orderly [] (resolver_resolve_dnssec name rtype rclass).
Proof. unfold resolver_resolve_dnssec. orderly_steps. Qed.
Hint Resolve cache_response_orderly cached_delegation_orderly cached_addresses_orderly
  cache_delegation_orderly resolve_dnssec_orderly : orderly.

(** *** Queries *)

Lemma query_via_tcp_pool_orderly held q server :
  above PoolLock held → orderly held (query_via_tcp_pool q server).
Proof.
  intros Hp. unfold query_via_tcp_pool. cbn zeta. orderly_steps.
  all: apply orderly_with_lock; [done|ends_steps|orderly_steps].
Qed.
Lemma record_server_rtt_orderly held server ms : above RttLock held → orderly held (record_server_rtt server ms).
Proof. intros Hp. apply orderly_with_lock; [done|ends_steps|orderly_steps]. Qed.
Hint Extern 1 (Scheduler.orderly _ (query_via_tcp_pool _ _)) => apply query_via_tcp_pool_orderly; above_order : orderly.
Hint Extern 1 (Scheduler.orderly _ (record_server_rtt _ _)) => apply record_server_rtt_orderly; above_order : orderly.

Lemma server_task_orderly q id server : orderly [] (server_task q id server).
Proof.
  unfold server_task. apply orderly_bind.
  - apply orderly_with_lock; [above_order| |unfold measure_tcp_rtt; orderly_steps].
    eapply ends_with_lock_inv, truncated_before_ends.
  - intros early. unfold tcp_fallback. orderly_steps.
Qed.
Hint Resolve server_task_orderly : orderly.

Lemma detach_tasks_orderly q id servers : orderly [] (detach_tasks q id servers).
Proof.
  induction servers as [|server servers IH]; cbn [detach_tasks]; [auto with orderly|].
  apply orderly_bind; [by apply orderly_fork, server_task_orderly|done].
Qed.
Hint Resolve detach_tasks_orderly : orderly.
Lemma run_tasks_orderly q id hung servers : orderly [] (run_tasks q id hung servers).
Proof. revert hung. induction servers as [|server servers IH]; intros hung; cbn [run_tasks]; orderly_steps. Qed.
Lemma completion_order_orderly fuel servers : orderly [] (completion_order fuel servers).
Proof.
  revert servers. induction fuel as [|fuel IH]; intros [|first servers]; cbn [completion_order]; orderly_steps.
Qed.
Hint Resolve run_tasks_orderly completion_order_orderly : orderly.
Lemma query_servers_orderly q id servers : orderly [] (query_servers_concurrent q id servers).
Proof. unfold query_servers_concurrent. orderly_steps. Qed.
Hint Resolve query_servers_orderly : orderly.
Lemma query_rd1_orderly name rtype rclass servers : orderly [] (query_rd1 name rtype rclass servers).
Proof. unfold query_rd1. orderly_steps. Qed.
Hint Resolve query_rd1_orderly : orderly.

Lemma zone_server_loop_orderly additionals ns_records ips :
  orderly [] (zone_server_loop additionals ns_records ips).
Proof.
  revert ips. induction ns_records as [|ns ns_records IH]; intros; cbn [zone_server_loop]; cbn zeta; orderly_steps.
Qed.
Hint Resolve zone_server_loop_orderly : orderly.
Lemma nameservers_for_zone_orderly zone : orderly [] (get_nameservers_for_zone zone).
Proof. unfold get_nameservers_for_zone. orderly_steps. Qed.
Hint Resolve nameservers_for_zone_orderly : orderly.
Lemma query_zone_orderly name zone rtype : orderly [] (query_zone name zone rtype).
Proof. unfold query_zone. orderly_steps. Qed.
Hint Resolve query_zone_orderly : orderly.

Lemma validate_chain_orderly fuel zone dnskeys rrsigs signer depth :
  orderly [] (validate_dnssec_chain fuel zone dnskeys rrsigs signer depth).
Proof.
  revert zone dnskeys rrsigs signer depth. induction fuel as [|fuel IH]; intros; cbn [validate_dnssec_chain];
    cbn zeta; unfold query_ds_records, query_dnskey_records; orderly_steps.
Qed.
Hint Resolve validate_chain_orderly : orderly.

(** *** Resolution *)

Section body.
Context (enable_ipv6 : bool).
Context (rec : bool → bytes → Z → Z → nat → bool → RM St (list ResourceRecord * bool)).
Hypothesis rec_orderly : ∀ dnssec_ok name rtype rclass depth minimize,
  orderly [] (rec dnssec_ok name rtype rclass depth minimize).
Hint Resolve rec_orderly : orderly.

Lemma resolve_with_ad_orderly dnssec_ok name rtype rclass :
  orderly [] (resolver_resolve_with_ad rec dnssec_ok name rtype rclass).
Proof.
  unfold resolver_resolve_with_ad, resolve_cached, resolve_recursive_stale, resolve_fresh. orderly_steps.
Qed.
Hint Resolve resolve_with_ad_orderly : orderly.
Lemma resolve_orderly dnssec_ok name rtype rclass : orderly [] (resolve rec dnssec_ok name rtype rclass).
Proof. unfold resolve. orderly_steps. Qed.
Hint Resolve resolve_orderly : orderly.

Lemma ds_guard_orderly name rclass n : orderly [] (ds_guard name rclass n).
Proof. induction n as [|n IH]; cbn [ds_guard]; orderly_steps. Qed.
Hint Resolve ds_guard_orderly : orderly.
Lemma check_answer_orderly dnssec_ok name total rtype rclass servers msg direct :
  orderly [] (check_answer rec dnssec_ok name total rtype rclass servers msg direct).
Proof.
  unfold check_answer, rd1_fallback, resolve_dnskeys, dnssec_verdict, check_chain. cbn zeta. orderly_steps.
Qed.
Lemma negative_orderly dnssec_ok msg name rclass qtype :
  orderly [] (validate_negative_dnssec_response rec dnssec_ok msg name rclass qtype).
Proof. unfold validate_negative_dnssec_response. cbn zeta. orderly_steps. Qed.
Hint Resolve check_answer_orderly negative_orderly : orderly.

Lemma referral_loop_orderly additionals ns_records servers names :
  orderly [] (referral_loop enable_ipv6 additionals ns_records servers names).
Proof.
  revert servers names. induction ns_records as [|ns ns_records IH]; intros; cbn [referral_loop];
    cbn zeta; orderly_steps.
Qed.
Lemma resolve_ns_names_orderly names rclass depth :
  orderly [] (resolve_ns_names_concurrently rec names rclass depth).
Proof.
  induction names as [|name names IH]; cbn [resolve_ns_names_concurrently]; [auto with orderly|].
  unfold resolve_ns_name. orderly_steps.
Qed.
Lemma add_resolved_orderly results servers : orderly [] (add_resolved results servers).
Proof.
  revert servers. induction results as [|[name ips] results IH]; intros; cbn [add_resolved]; orderly_steps.
Qed.
Hint Resolve referral_loop_orderly resolve_ns_names_orderly add_resolved_orderly : orderly.

Lemma process_answer_orderly dnssec_ok name rtype rclass depth servers revealed total msg :
  orderly [] (process_answer enable_ipv6 rec dnssec_ok name rtype rclass depth servers revealed total msg).
Proof. unfold process_answer, chase, refer_or_deny, follow_referral. cbn zeta. orderly_steps. Qed.
Hint Resolve process_answer_orderly : orderly.
Lemma iterate_orderly n dnssec_ok name rtype rclass depth total servers revealed :
  orderly [] (iterate enable_ipv6 rec n dnssec_ok name rtype rclass depth total servers revealed).
Proof.
  revert servers revealed. induction n as [|n IH]; intros; cbn [iterate]; [auto with orderly|].
  apply orderly_bind; [unfold iteration; orderly_steps|]. intros []; [auto with orderly|apply IH].
Qed.
Hint Resolve iterate_orderly : orderly.
Lemma resolve_body_orderly dnssec_ok name rtype rclass depth minimize :
  orderly [] (resolve_body enable_ipv6 rec dnssec_ok name rtype rclass depth minimize).
Proof. unfold resolve_body. cbn zeta. orderly_steps. Qed.
End body.

Lemma resolve_recursive_orderly enable_ipv6 fuel dnssec_ok name rtype rclass depth minimize :
  orderly [] (resolve_recursive enable_ipv6 fuel dnssec_ok name rtype rclass depth minimize).
Proof.
  revert dnssec_ok name rtype rclass depth minimize. induction fuel as [|fuel IH]; intros; [apply orderly_lift|].
  by apply resolve_body_orderly.
Qed.

(** *** The tasks *)

Lemma dropped_orderly {A} (c : RM St A) : orderly [] c → orderly [] (dropped c).
Proof. intros Hc. unfold dropped. orderly_steps. Qed.

Lemma ping_loop_orderly q servers : orderly [] (ping_loop q servers).
Proof.
  induction servers as [|server servers IH]; cbn [ping_loop]; unfold ping_server; cbn zeta; orderly_steps.
Qed.
Hint Resolve ping_loop_orderly dropped_orderly resolve_recursive_orderly : orderly.

Lemma service_orderly enable_ipv6 dnssec_ok fuel th :
  service enable_ipv6 dnssec_ok fuel th → finishing [] th.
Proof.
  intros Hth. apply orderly_finishing.
  destruct Hth as [name rtype rclass| |[[name rtype] rclass]| | | | | | | |];
    unfold prefetch_task, Resolver.resolve_with_ad, purge_task, pool_task, truncation_task, health_task, flush_cache;
    try apply dropped_orderly; unfold background_refresh, rtt_save_task, cache_stats;
    try (apply resolve_with_ad_orderly; intros); orderly_steps.
Qed.
End order.

Section progress.
Context {C D R : Type → Type} {N : Type} `{LruOps cache_key C} `{LruOps bytes D} `{LruOps IpAddr R} `{QuietEnv N} `{Crypto}.
Abbreviation St := (RecursiveResolver C D R N).
Context (enable_ipv6 : bool) (fuel : nat).
Abbreviation start dnssec_ok cache_size persisted_rtt n :=
  (idle (resolver_new enable_ipv6 dnssec_ok cache_size persisted_rtt n : St)).

Lemma reachable_orderly dnssec_ok cache_size persisted_rtt (n : N) w :
  reachable (service enable_ipv6 dnssec_ok fuel) (start dnssec_ok cache_size persisted_rtt n) w → disciplined w.
Proof. intros Hw. eapply reachable_disciplined; [apply service_orderly|apply disciplined_idle|exact Hw]. Qed.


Lemma service_halts th :
  (12 <= fuel)%nat → service (N:=N) (C:=C) (D:=D) (R:=R) enable_ipv6 false fuel th →
  thread_wp (λ _, True) (λ _ r, halts r) th.
Proof.
  intros Hf. destruct 1; unfold thread_wp; try (eapply wp_mono; [apply ensures_True|done]).
  apply resolve_with_ad_ends. intros. apply resolve_recursive_ends; lia.
Qed.

(** C12: without DNSSEC, on such a network, from every state the program can be in, however its
    tasks interleave: no schedule is infinite unless new tasks arrive, and when it is over every
    client that has asked has been given a result. *)
Theorem queries_finish cache_size persisted_rtt (n : N) w :
  (12 <= fuel)%nat →
  reachable (service enable_ipv6 false fuel) (start false cache_size persisted_rtt n) w →
  Acc (flip moves) w ∧
  ∀ w', rtc moves w w' → (∀ i, step i w' = None) →
    ∀ i q c, w_threads w !! i = Some (Client q c) →
      ∃ r, w_threads w' !! i = Some (Client q (Done r)) ∧ r ≠ Diverge.
Proof.
  intros Hf Hw. split; [apply moves_end|]. intros w' Hm Hstuck i q c Ei.
  pose proof (reachable_rtc _ _ _ _ Hw Hm) as Hw'. destruct (moves_client _ _ _ _ _ Hm Ei) as [c' Ei'].
  pose proof (no_deadlock w' (reachable_orderly _ _ _ _ _ Hw') Hstuck) as He.
  eapply Forall_lookup in He; [|done].
  destruct c' as [r| | | |]; [|done..]. exists r. split; [done|].
  eapply (sound_client (λ _, True) (λ _ r, halts r)); [|exact Ei'].
  eapply adequacy; [|apply sound_idle|exact Hw']; [|done]. intros th Hth. by apply service_halts.
Qed.

(** What the definitions compute for a question without interference is what one schedule of
    its task does, from every state in which no mutex is held. *)
Theorem run_is_schedule dnssec_ok q (w : World St Question Answer) :
  w_held w = ∅ →
  let c := Resolver.resolve_with_ad enable_ipv6 dnssec_ok fuel q.1.1 q.1.2 q.2 in
  ∃ w', rtc moves (arrive (Client q c) w) w' ∧ w_state w' = (c (w_state w)).2 ∧
    w_threads w' !! length (w_threads w) = Some (Client q (Done (c (w_state w)).1)).
Proof.
  intros Hheld c.
  destruct (run_schedule (Client q) (length (w_threads w)) c [] (arrive (Client q c) w))
    as (w' & Hm & Hs & [Ei _] & _).
  - done.
  - apply resolve_with_ad_orderly. intros. apply resolve_recursive_orderly.
  - constructor.
  - split; [cbn; by rewrite lookup_app_r, Nat.sub_diag|]. intros m j.
    cbn. rewrite Hheld, lookup_empty, elem_of_nil. split; [done|tauto].
  - by exists w'.
Qed.
End progress.

(** ** The mutex of the truncation cache *)

Section killed.
Context {C D R : Type → Type} {N : Type} `{LruLaws cache_key C} `{LruOps bytes D} `{LruOps IpAddr R} `{Env N} `{Crypto}.
Abbreviation St := (RecursiveResolver C D R N).

(** Nothing is cached, neither fresh nor stale. *)
Definition empty_store (c : C (list CacheEntry)) : Prop := lru_ok c ∧ ∀ key, lru_peek key c = None.
Definition empty_cache (s : St) : Prop := empty_store (c_entries (r_cache s)) ∧ empty_store (c_stale (r_cache s)).

Lemma empty_get key (c : C (list CacheEntry)) :
  empty_store c → (lru_get key c).1 = None ∧ empty_store (lru_get key c).2.
Proof.
  intros [Hok He]. split; [by rewrite lru_get_peek|]. split; [by apply lru_get_ok|]. intros k. by rewrite lru_peek_get.
Qed.
Lemma empty_new n : (0 < n)%nat → empty_store (lru_new n).
Proof. intros Hn. split; [by apply lru_new_ok|]. intros key. apply lru_peek_new. Qed.
Lemma empty_iter (c : C (list CacheEntry)) : lru_ok c → lru_iter c = [] → empty_store c.
Proof.
  intros Hok Hi. split; [done|]. intros key. destruct (lru_peek key c) as [es|] eqn:E; [|done].
  apply lru_iter_peek in E; [|done]. rewrite Hi in E. by apply elem_of_nil in E.
Qed.
Lemma empty_clear (c : C (list CacheEntry)) : empty_store c → empty_store (lru_clear c).
Proof. intros [Hok _]. split; [by apply lru_clear_ok|]. intros key. apply lru_peek_clear. Qed.
Lemma empty_pop_all keys (c : C (list CacheEntry)) : empty_store c → empty_store (lru_pop_all keys c).
Proof.
  unfold lru_pop_all. revert c. induction keys as [|key keys IH]; intros c Hc; cbn; [done|]. apply IH.
  destruct Hc as [Hok He]. split; [by apply lru_pop_ok|]. intros k.
  destruct (lru_peek k (lru_pop key c)) eqn:E; [|done]. apply lru_pop_inv in E as [_ E]. by rewrite He in E.
Qed.

Abbreviation idle_cache c := (keeps empty_cache c).
Abbreviation yields := (gives_without TruncationLock empty_cache).

Lemma idle_act {A} (f : St → A * St) : (∀ s, r_cache (f s).2 = r_cache s) → idle_cache (act f).
Proof. intros Hf. apply gives_act. intros s Hs. split; [|done]. unfold empty_cache. by rewrite Hf. Qed.
Lemma idle_use_env {A} (f : N → A * N) : idle_cache (use_env f).
Proof. apply idle_act. intros s. by destruct (f (r_env s)). Qed.
Lemma idle_timed_out (s : St) : empty_cache s → empty_cache (timed_out s).2.
Proof. unfold timed_out. by destruct (env_timed_out (r_env s)). Qed.
Lemma idle_use_delegation_cache {A} (f : D (list IpAddr * Z)%type → A * D (list IpAddr * Z)%type) :
  idle_cache (use_delegation_cache f).
Proof. apply idle_act. intros s. by destruct (f (r_delegation_cache s)). Qed.
Lemma idle_use_server_rtt {A} (f : R (f64 * Z)%type → A * R (f64 * Z)%type) : idle_cache (use_server_rtt f).
Proof. apply idle_act. intros s. by destruct (f (r_server_rtt s)). Qed.
Lemma idle_use_stats f : idle_cache (use_stats f).
Proof. by apply idle_act. Qed.
Lemma idle_ret {A} (a : A) : idle_cache (mret a).
Proof. by apply gives_ret. Qed.
Lemma idle_lift {A} (r : DnsResult A) : idle_cache (lift r).
Proof. by apply gives_lift. Qed.
#[local] Create HintDb idle.
Hint Resolve idle_use_env idle_use_delegation_cache idle_use_server_rtt idle_use_stats idle_ret idle_lift : idle.

Ltac idle_steps :=
  repeat first
    [ solve [auto with idle]
    | apply gives_then; [|intros ?]
    | apply gives_with_lock | apply keeps_try
    | case_match | case_decide ].

Lemma instant_now_idle : idle_cache instant_now.
Proof. unfold instant_now. idle_steps. Qed.
Hint Resolve instant_now_idle : idle.
Lemma cached_delegation_idle name : idle_cache (cached_delegation name).
Proof.
  apply gives_with_lock. unfold find_cached_delegation. generalize (length name), 0%nat. intros fuel.
  induction fuel as [|fuel IH]; intros offset; cbn [delegation_loop]; idle_steps.
Qed.
Lemma completion_order_idle fuel servers : idle_cache (completion_order fuel servers).
Proof.
  revert servers. induction fuel as [|fuel IH]; intros [|first servers]; cbn [completion_order]; idle_steps.
Qed.
Hint Resolve cached_delegation_idle completion_order_idle : idle.

(** Lookups find nothing. *)
Lemma cache_lookup_none name rtype rclass : gives empty_cache (cache_lookup name rtype rclass) (λ r, r = None).
Proof.
  apply gives_then; [apply idle_use_env|]. intros clk. apply gives_act. intros s [He Hs].
  destruct (empty_get (name, rtype, rclass) _ He) as [E Hget]. unfold lookup_cache.
  destruct (lru_get _ _) as [r entries]. cbn in E. by subst r.
Qed.
Lemma lookup_stale_none clk name rtype rclass :
  gives empty_cache (use_cache (λ c, lookup_stale c clk name rtype rclass)) (λ r, r = None).
Proof.
  apply gives_act. intros s [He Hs].
  destruct (empty_get (name, rtype, rclass) _ Hs) as [E Hget]. unfold lookup_stale.
  destruct (lru_get _ _) as [r stale]. cbn in E. by subst r.
Qed.

(** No server is asked: the task of each stops at the mutex. *)
Lemma server_task_stops q id server : yields (server_task q id server) (λ _, False).
Proof. apply (gives_without_bind _ _ _ _ (λ _, False)); [by apply gives_without_with_lock|by intros ? []]. Qed.

Lemma run_tasks_none q id hung servers : yields (run_tasks q id hung servers) (λ r, r = None).
Proof.
  revert hung. induction servers as [|server servers IH]; intros hung; cbn [run_tasks].
  - apply gives_without_keeps. case_match; [by apply gives_lift|by apply gives_ret].
  - eapply gives_without_bind; [apply gives_without_attempt, server_task_stops|].
    intros [a|e| |] Hr; [by destruct (Hr a)|apply IH..].
Qed.

Lemma query_servers_none q id servers : yields (query_servers_concurrent q id servers) (λ r, r = None).
Proof.
  unfold query_servers_concurrent. case_decide; [by apply gives_without_keeps, gives_ret|].
  apply gives_without_then; [idle_steps|]. intros sorted.
  apply gives_without_then; [idle_steps|]. intros order. apply run_tasks_none.
Qed.

Section body.
Context (enable_ipv6 : bool).

Lemma iterate_stops rec n dnssec_ok name rtype rclass depth total servers revealed :
  yields (iterate enable_ipv6 rec n dnssec_ok name rtype rclass depth total servers revealed) (λ _, False).
Proof.
  revert servers revealed. induction n as [|n IH]; intros; cbn [iterate].
  { apply gives_without_keeps, gives_throw. }
  apply (gives_without_bind _ _ _ _ (λ r, ∃ servers revealed, r = Next servers revealed)).
  - unfold iteration. case_decide; [apply gives_without_keeps, gives_throw|].
    do 3 (apply gives_without_then; [idle_steps|]; intros ?).
    eapply gives_without_bind; [apply query_servers_none|]. intros ? ->.
    apply gives_without_keeps, gives_ret. eauto.
  - intros ? (servers' & revealed' & ->). apply IH.
Qed.

Lemma resolve_recursive_stops fuel dnssec_ok name rtype rclass depth minimize :
  yields (resolve_recursive enable_ipv6 fuel dnssec_ok name rtype rclass depth minimize) (λ _, False).
Proof.
  destruct fuel as [|fuel]; [by apply gives_without_keeps, gives_lift|].
  cbn [resolve_recursive]. unfold resolve_body. case_decide; [apply gives_without_keeps, gives_throw|].
  cbn zeta. apply gives_without_then; [idle_steps|]. intros []; apply iterate_stops.
Qed.

Lemma resolve_with_ad_stops fuel dnssec_ok name rtype rclass :
  yields (Resolver.resolve_with_ad enable_ipv6 dnssec_ok fuel name rtype rclass) (λ _, False).
Proof.
  unfold Resolver.resolve_with_ad, resolver_resolve_with_ad.
  do 2 (apply gives_without_then; [idle_steps|]; intros ?).
  eapply (gives_without_bind _ _ _ _ (λ r, r = None)); [apply gives_without_keeps, gives_with_lock|].
  { eapply gives_bind; [apply cache_lookup_none|]. intros ? ->. by apply gives_ret. }
  intros ? ->. apply gives_without_then; [idle_steps|]. intros _.
  eapply gives_without_bind; [apply gives_without_keeps, gives_with_lock, gives_then;
    [apply idle_use_env|intros clk; apply lookup_stale_none]|].
  intros ? ->. unfold resolve_fresh.
  eapply gives_without_bind; [apply gives_without_catch, resolve_recursive_stops|]. intros r Hr.
  do 2 (apply gives_without_then; [idle_steps|]; intros ?). destruct r as [answer|e]; [by destruct (Hr answer)|].
  apply gives_without_then; [idle_steps|]. intros _. apply gives_without_keeps, gives_throw.
Qed.
End body.

(** *** The tasks *)

Lemma idle_use_server_health {A} (f : gmap IpAddr ServerHealth → A * gmap IpAddr ServerHealth) :
  idle_cache (use_server_health f).
Proof. apply idle_act. intros s. by destruct (f (r_server_health s)). Qed.
Lemma idle_use_health {A} (f : R (f64 * Z)%type * gmap IpAddr ServerHealth →
    A * (R (f64 * Z)%type * gmap IpAddr ServerHealth)) : idle_cache (use_health f).
Proof. apply idle_act. intros s. by destruct (f _) as [? []]. Qed.
Lemma idle_use_pool {A} (f : TcpPool → A * TcpPool) : idle_cache (use_pool f).
Proof. apply idle_act. intros s. by destruct (f (r_tcp_pool s)). Qed.
Lemma idle_use_truncation_cache {A} (f : gmap IpAddr Z → A * gmap IpAddr Z) : idle_cache (use_truncation_cache f).
Proof. apply idle_act. intros s. by destruct (f (r_truncation_cache s)). Qed.
Hint Resolve idle_use_server_health idle_use_health idle_use_pool idle_use_truncation_cache : idle.

Lemma ping_loop_idle q servers : idle_cache (ping_loop q servers).
Proof.
  induction servers as [|server servers IH]; cbn [ping_loop]; unfold ping_server; cbn zeta; idle_steps.
Qed.
Hint Resolve ping_loop_idle : idle.
Lemma purge_task_idle : idle_cache purge_task.
Proof.
  apply gives_with_lock, gives_then; [apply idle_use_env|]. intros clk. apply gives_act. intros s [He Hs].
  split; [|done]. split; [done|]. by apply empty_pop_all.
Qed.
Lemma flush_cache_idle : idle_cache flush_cache.
Proof. apply gives_with_lock, gives_act. intros s [He Hs]. split; [|done]. split; by apply empty_clear. Qed.
Lemma cache_stats_idle : idle_cache cache_stats.
Proof. apply gives_with_lock, gives_act. by intros s [He Hs]. Qed.
Lemma resolve_dnssec_idle name rtype rclass : idle_cache (resolver_resolve_dnssec name rtype rclass).
Proof.
  unfold resolver_resolve_dnssec. case_match; try apply idle_ret.
  apply gives_then; [|intros ?; apply idle_ret]. by eapply gives_with_lock, gives_keeps, cache_lookup_none.
Qed.

Lemma dropped_idle {A} (c : RM St A) : idle_cache c → idle_cache (dropped c).
Proof. intros Hc. by apply gives_then; [|intros ?; apply idle_ret]. Qed.

Lemma refresh_stops ipv6 dnssec_ok fuel job : yields (dropped (background_refresh ipv6 dnssec_ok fuel job)) (λ _, True).
Proof.
  destruct job as [[name rtype] rclass]. apply (gives_without_bind _ _ _ _ (λ _, True)).
  - apply gives_without_then; [idle_steps|]. intros encoded.
    eapply wp_without_mono; [apply gives_without_try, resolve_recursive_stops|]. done.
  - intros ? _. by apply gives_without_keeps, gives_ret.
Qed.

Lemma prefetch_stops ipv6 dnssec_ok fuel name rtype : yields (prefetch_task ipv6 dnssec_ok fuel name rtype) (λ _, True).
Proof.
  apply (gives_without_bind _ _ _ _ (λ _, True)); [|intros ? _; by apply gives_without_keeps, gives_ret].
  apply wp_without_timeout; [apply idle_timed_out|done|].
  eapply wp_without_mono; [apply resolve_with_ad_stops|]. done.
Qed.

(** What comes after. *)
Definition no_answer (_ : Question) (r : DnsResult Answer) : Prop := ∀ a, r ≠ Ok a.

Lemma service_stops ipv6 dnssec_ok fuel th :
  service ipv6 dnssec_ok fuel th → thread_wp_without TruncationLock empty_cache no_answer th.
Proof.
  assert (∀ c : RM St unit, idle_cache c → wp_without TruncationLock empty_cache c (λ _, True)) as Hk.
  { intros c Hc. apply wp_wp_without. by eapply wp_mono. }
  destruct 1 as [name rtype rclass| | | | | | | | | |name rtype]; unfold thread_wp_without.
  - eapply wp_without_mono; [apply resolve_with_ad_stops|]. intros r Hr a ->. by eapply Hr.
  - apply Hk, dropped_idle, resolve_dnssec_idle.
  - eapply wp_without_mono; [apply refresh_stops|done].
  - apply Hk, purge_task_idle.
  - apply Hk. unfold pool_task. idle_steps.
  - apply Hk. unfold truncation_task. idle_steps.
  - apply Hk, dropped_idle. unfold rtt_save_task. idle_steps.
  - apply Hk. unfold health_task. idle_steps.
  - apply Hk, flush_cache_idle.
  - apply Hk, dropped_idle, cache_stats_idle.
  - eapply wp_without_mono; [apply prefetch_stops|done].
Qed.

(** C13: when a task that holds the mutex of the truncation cache will never go on, nothing is cached
    and every other task has ended or waits for the mutex, then whatever happens the mutex is
    never released and no question that is asked from then on is ever answered.  One client's
    question and one name server lead there. *)
Theorem resolver_killed enable_ipv6 dnssec_ok fuel i (w w' : World St Question Answer) :
  jammed TruncationLock i w → empty_cache (w_state w) →
  Forall (blocked TruncationLock) (w_threads w) →
  reachable (service enable_ipv6 dnssec_ok fuel) w w' →
  jammed TruncationLock i w' ∧
  ∀ j q r, (length (w_threads w) <= j)%nat → w_threads w' !! j = Some (Client q (Done r)) → ∀ a, r ≠ Ok a.
Proof.
  intros Hj Hs Hth Hw.
  eapply (adequacy_without TruncationLock empty_cache i (length (w_threads w)) no_answer) in Hw;
    [|by apply service_stops|].
  - destruct Hw as (Hj' & _ & _ & Hth'). split; [done|]. intros j q r Hlen Ej.
    specialize (Hth' j _ Ej). rewrite decide_False in Hth' by lia. exact Hth'.
  - split; [done|]. split; [done|]. split; [done|]. intros j th Ej.
    rewrite decide_True by (by apply lookup_lt_Some in Ej). by eapply Forall_lookup in Hth.
Qed.
End killed.

(** ** Examples *)

(** A server whose datagram is cut short, so that it is asked over TCP, where it sends a query
    whose name is a cycle; its first connection fails. *)
Definition jamming_server : IpAddr := nth 0 initial_root_addrs (V4 []).
#[local] Instance jamming_env : Env nat := {
  env_clock n := (λ _, 0, n);
  env_wall n := (λ _, 0, n);
  env_random n := (7, n);
  env_send _ _ n := (true, n);
  env_recv server _ n :=
    (if decide (server = jamming_server) then [Some [0; 7; 130; 2; 0; 0; 0; 0; 0; 0; 0; 0]] else [], n);
  env_connect _ n := (if decide (n = 0)%nat then None else Some 0%nat, S n);
  env_write _ _ n := (true, n);
  env_read _ k n :=
    (Some (if decide (k = 2)%nat then [0; 18]
           else [192; 0; 1; 0; 0; 1; 0; 0; 0; 0; 0; 0; 192; 0; 0; 1; 0; 1]), n);
  env_write_in_time _ _ n := (true, n);
  env_ping _ _ n := (Unbound, n);
  env_pick n := (0%nat, n);
  env_timed_out n := (false, n);
}.
#[local] Existing Instance toy_crypto.

Definition toy_resolver {N : Type} (n : N) : RecursiveResolver (alru cache_key) (alru bytes) (alru IpAddr) N :=
  resolver_new false false 100 [] n.
Abbreviation toy_query := (Client ([120], 1, 1) (Resolver.resolve_with_ad false false 12 [120] 1 1)).

Definition is_jammed (w : World (RecursiveResolver (alru cache_key) (alru bytes) (alru IpAddr) nat) Question Answer) : bool :=
  bool_decide (w_held w !! TruncationLock = Some 0%nat) && bool_decide (Forall (blocked TruncationLock) (w_threads w)) &&
  bool_decide (length (w_threads w) = 26)%nat &&
  bool_decide (length (lru_iter (c_entries (r_cache (w_state w)))) = 0%nat) &&
  bool_decide (length (lru_iter (c_stale (r_cache (w_state w)))) = 0%nat).

(** One question is enough: its task stops with the mutex in its hands, and the tasks of the other
    servers wait for it. *)
Lemma world_jammed :
  ∃ w, rtc moves (arrive toy_query (idle (toy_resolver 0%nat))) w ∧ is_jammed w = true.
Proof. exists (turns (replicate 138 0%nat) (arrive toy_query (idle (toy_resolver 0%nat)))). split; [apply turns_moves|by vm_compute]. Qed.

Lemma resolver_killed_witness :
  ∃ w, reachable (service false false 12) (idle (toy_resolver 0%nat)) w ∧
    ∀ w', reachable (service false false 12) w w' →
      jammed TruncationLock 0 w' ∧
      ∀ j q r, (length (w_threads w) <= j)%nat → w_threads w' !! j = Some (Client q (Done r)) → ∀ a, r ≠ Ok a.
Proof.
  destruct world_jammed as (w & Hm & Hj). exists w.
  unfold is_jammed in Hj. rewrite !andb_true_iff, !bool_decide_eq_true in Hj.
  destruct Hj as ((((Hheld & Hb) & Hlen) & He) & Hs).
  assert (Hr : reachable (service false false 12) (idle (toy_resolver 0%nat)) w).
  { eapply reachable_rtc; [|exact Hm]. apply reach_arrive; [apply reach_start|apply serve_query]. }
  split; [done|]. pose proof (reachable_sound _ _ _ _ _ _ _ Hr) as [[[Hoke _] [Hoks _]] _].
  intros w' Hw. apply (resolver_killed false false 12 0%nat w w'); [| |done|done].
  - split; [done|]. destruct (lookup_lt_is_Some_2 (w_threads w) 0%nat) as [th Eth]; [lia|].
    exists th. split; [done|]. by eapply Forall_lookup in Hb.
  - split; (apply empty_iter; [done|]; by apply nil_length_inv).
Defined.

(** Two clients whose tasks take turns, for a name and an alias of it, and a flush in between. *)
Module Busy.
#[local] Existing Instance Toy.env.
Definition alias_query : Question := ([99; 46; 98], 1, 1).
Definition two_clients : World Toy.state Question Answer :=
  arrive (Task flush_cache)
    (arrive (Client ([97; 46; 98], 1, 1) (Resolver.resolve_with_ad false false 12 [97; 46; 98] 1 1))
       (arrive (Client alias_query (Resolver.resolve_with_ad false false 12 [99; 46; 98] 1 1))
          (idle Toy.fresh))).

Definition records_at (i : nat) (w : World Toy.state Question Answer) : list bytes :=
  match (w_threads w !! i : option (Thread Toy.state Question Answer)) with
  | Some (Client _ (Done (Ok a))) => map rr_rdata a.1
  | _ => []
  end.
Definition both_answered (w : World Toy.state Question Answer) : bool :=
  bool_decide (records_at 0 w = [Toy.name_a; [192; 0; 2; 1]]) && bool_decide (records_at 1 w = [[192; 0; 2; 1]]).

Lemma clients_answered :
  ∃ w, reachable (service false false 12) (idle Toy.fresh) w ∧ both_answered w = true.
Proof.
  exists (turns (concat (replicate 200 [0; 1; 2]%nat)) two_clients). split; [|by vm_compute].
  eapply reachable_rtc; [|apply turns_moves]. repeat (apply reach_arrive; [|constructor]). apply reach_start.
Qed.
End Busy.

Lemma answers_interleaved_witness :
  ∃ (w : World Toy.state Question Answer) i name rtype rclass a,
    w_threads w !! i = Some (Client (name, rtype, rclass) (Done (Ok a))) ∧
    map rr_rdata a.1 = [Toy.name_a; [192; 0; 2; 1]] ∧
    keyed (r_cache (w_state w)) ∧
    ∃ nm, encode_domain_name name = Ok nm ∧ served false nm rtype a.
Proof.
  destruct Busy.clients_answered as (w & Hw & Hb). unfold Busy.both_answered in Hb.
  rewrite andb_true_iff, !bool_decide_eq_true in Hb. destruct Hb as [Hb _]. unfold Busy.records_at in Hb.
  destruct (w_threads w !! 0%nat) as [[[[name rtype] rclass] [[a| | |]| | | |]|]|] eqn:E; try done.
  exists w, 0%nat, name, rtype, rclass, a. split; [done|]. split; [done|].
  destruct (answers_interleaved _ _ _ _ _ _ _ Hw) as [Hk Ha]. split; [done|]. by eapply Ha.
Defined.

(** A question on a network without an answer, and a flush. *)
Module Quiet.
#[local] Existing Instances silent_env silent_quiet.
Definition question : Thread (RecursiveResolver (alru cache_key) (alru bytes) (alru IpAddr) unit) Question Answer := toy_query.
Definition asked := arrive (Task flush_cache) (arrive question (idle (toy_resolver tt))).
Lemma asked_reachable : reachable (service false false 12) (idle (toy_resolver tt)) asked.
Proof. repeat (apply reach_arrive; [|constructor]). apply reach_start. Qed.
End Quiet.
#[local] Existing Instances silent_env silent_quiet.


Lemma queries_finish_witness :
  ∃ w r, rtc moves Quiet.asked w ∧ w_threads w !! 0%nat = Some (Client ([120], 1, 1) (Done r)) ∧ r ≠ Diverge.
Proof.
  destruct (comes_to_rest Quiet.asked) as (w & Hm & Hs).
  destruct (queries_finish false 12 100 [] tt Quiet.asked) as [_ Hq]; [lia|apply Quiet.asked_reachable|].
  destruct (Hq w Hm Hs 0%nat _ _ eq_refl) as (r & Er & Hr). by exists w, r.
Defined.

Lemma run_is_schedule_witness :
  ∃ w r, rtc moves (arrive toy_query (idle (toy_resolver tt))) w ∧
    w_threads w !! 0%nat = Some (Client ([120], 1, 1) (Done r)) ∧
    r = Err (DnsError.Malformed "maximum iterations exceeded").
Proof.
  destruct (run_is_schedule false 12 false ([120], 1, 1) (idle (toy_resolver tt)) eq_refl) as (w & Hm & _ & Ei).
  exists w. eexists. split; [exact Hm|]. split; [exact Ei|]. by vm_compute.
Defined.
