(* ===== verification/Transport.v ===== *)
(** * DNS over TLS and over HTTPS (src/transport/, and src/resolver/recursive.rs, lines 1377-1379
    and 1661-1735)

    The clients for the two transports, each with its fall-back to the next
    server, and the resolution of a name over HTTPS, which the program uses
    for a single query from the command line.  The TLS and HTTP libraries
    are classes; an error of theirs is the text they show. *)

From stdpp Require Import strings pretty.
From Stdlib Require Ascii String.
From S2P Require Import Prelude Constants Str Types Names NameCodec Message Async Lru Cache RootHints Upstream Server Blocklist NetAddr Dnssec Resolver.
#[local] Open Scope Z_scope.

(** The result of an operation under a timeout. *)
Inductive timed (A : Type) : Type :=
  | Elapsed
  | Failed (e : string)
  | InTime (a : A).
Arguments Elapsed {A}.
Arguments Failed {A}.
Arguments InTime {A}.

(** The derived [Debug] of [Option<DnsError>]: its escapes follow the Unicode tables. *)
Class DebugText := { debug_text : option DnsError.t → string }.

(** ** DNS over TLS (src/transport/dot.rs) *)

Module Dot.

(** [ServerName::try_from], the TCP and TLS connections, and the exact reads and whole writes of
    the encrypted stream. *)
Class TlsEnv (N : Type) := {
  tls_server_name : string → option string;
  tls_connect : string → N → timed nat * N;
  tls_handshake : string → nat → N → timed nat * N;
  tls_write : nat → bytes → N → timed unit * N;
  tls_read : nat → nat → N → timed bytes * N;
}.

Definition CLOUDFLARE_DOT : string * string := ("1.1.1.1", "cloudflare-dns.com").
Definition GOOGLE_DOT : string * string := ("8.8.8.8", "dns.google").
Definition QUAD9_DOT : string * string := ("9.9.9.9", "dns.quad9.net").
Definition DOT_PORT : Z := 853.

(** The length is cut down to 16 bits. *)
Definition wrap_dns_tcp (query : bytes) : bytes :=
  to_be16 (u16 (Z.of_nat (length query))) ++ query.

Section dot.
Context {N : Type} `{TlsEnv N} `{DebugText}.

(** [timeout(..).await.map_err(..)?.map_err(..)?] *)
Definition within {A} (on_timeout on_error : string) (op : N → timed A * N) : RM N A :=
  r ← act op;
  match r with
  | Elapsed => throw (DnsError.Transport on_timeout)
  | Failed e => throw (DnsError.Transport (on_error +:+ e))
  | InTime a => mret a
  end.

Definition ascii_string (s : str) : string :=
  String.string_of_list_ascii (map (λ c, Ascii.ascii_of_nat (Z.to_nat c)) s).

Definition dot_query (query_bytes : bytes) (server : IpAddr) (hostname : string) : RM N bytes :=
  _ ← (match tls_server_name hostname with
       | Some e => throw (DnsError.Transport ("Invalid DoT hostname '" +:+ hostname +:+ "': " +:+ e))
       | None => mret ()
       end : RM N unit);
  let addr := (ascii_string (ip_to_string server) +:+ ":" +:+ pretty DOT_PORT)%string in
  stream ← within ("DoT connection to " +:+ addr +:+ " timed out") "DoT connection failed: "
             (tls_connect addr);
  tls_stream ← within ("DoT TLS handshake to " +:+ hostname +:+ " timed out")
                 "DoT TLS handshake failed: " (tls_handshake hostname stream);
  _ ← within "DoT send timed out" "DoT send failed: " (tls_write tls_stream (wrap_dns_tcp query_bytes));
  len_buf ← within "DoT response length read timed out" "DoT response length read failed: "
              (tls_read tls_stream 2);
  let response_len := Z.to_nat (be16 (nth 0 len_buf 0) (nth 1 len_buf 0)) in
  if decide (Z.to_nat 65535 < response_len)%nat then
    throw (DnsError.Transport ("DoT response too large: " +:+ pretty response_len +:+ " bytes"))
  else within "DoT response data read timed out" "DoT response data read failed: "
         (tls_read tls_stream response_len).

(** The loop over the servers. *)
Fixpoint dot_loop (query_bytes : bytes) (servers : list (string * string)) (last_error : option DnsError.t)
    : RM N bytes :=
  match servers with
  | [] => throw (DnsError.Transport ("All DoT endpoints failed: " +:+ debug_text last_error))
  | (ip_str, hostname) :: servers =>
    match parse_ip_addr (lit ip_str) with
    | None => dot_loop query_bytes servers last_error
    | Some server =>
      r ← catch (dot_query query_bytes server hostname);
      match r with
      | inl response => mret response
      | inr e => dot_loop query_bytes servers (Some e)
      end
    end
  end.

Definition dot_query_with_fallback (query_bytes : bytes) : RM N bytes :=
  dot_loop query_bytes [CLOUDFLARE_DOT; GOOGLE_DOT; QUAD9_DOT] None.
End dot.
End Dot.

(** ** DNS over HTTPS (src/transport/doh.rs) *)

Module Doh.

(** A POST with the headers of RFC 8484: no response, or a status and its text, and the body, when
    it could be read. *)
Inductive response :=
  | SendError (e : string)
  | Response (status : Z) (status_text : string) (body : bytes + string).
Class HttpEnv (N : Type) := { http_post : string → bytes → N → response * N }.

Definition CLOUDFLARE_DOH : string := "https://cloudflare-dns.com/dns-query".
Definition GOOGLE_DOH : string := "https://dns.google/dns-query".
Definition QUAD9_DOH : string := "https://dns.quad9.net/dns-query".

Section doh.
Context {N : Type} `{HttpEnv N} `{DebugText}.

Definition doh_query (query_bytes : bytes) (endpoint : string) : RM N bytes :=
  response ← act (http_post endpoint query_bytes);
  match response with
  | SendError e => throw (DnsError.Transport ("DoH request failed: " +:+ e))
  | Response status text body =>
    if decide (¬ (200 <= status < 300)) then
      throw (DnsError.Transport ("DoH server returned HTTP " +:+ text))
    else
      match body with
      | inl response_bytes => mret response_bytes
      | inr e => throw (DnsError.Transport ("DoH response read failed: " +:+ e))
      end
  end.

Fixpoint doh_loop (query_bytes : bytes) (endpoints : list string) (last_error : option DnsError.t)
    : RM N bytes :=
  match endpoints with
  | [] => throw (DnsError.Transport ("All DoH endpoints failed: " +:+ debug_text last_error))
  | endpoint :: endpoints =>
    r ← catch (doh_query query_bytes endpoint);
    match r with
    | inl response => mret response
    | inr e => doh_loop query_bytes endpoints (Some e)
    end
  end.

Definition doh_query_with_fallback (query_bytes : bytes) : RM N bytes :=
  doh_loop query_bytes [CLOUDFLARE_DOH; GOOGLE_DOH; QUAD9_DOH] None.
End doh.

(** ** Resolution over HTTPS (src/resolver/recursive.rs) *)

Section resolver.
Context {C D R : Type → Type} {N : Type} `{LruOps cache_key C} `{LruOps bytes D} `{LruOps IpAddr R} `{Env N} `{Crypto}
  `{HttpEnv N} `{DebugText}.

Abbreviation St := (RecursiveResolver C D R N).

Definition build_query (dnssec_ok : bool) (name : bytes) (rtype rclass id : Z) : DnsResult bytes :=
  build_query_static name rtype rclass id dnssec_ok false.

(** A call of a transport: its error is shown in a new one. *)
Definition over_https (query_bytes : bytes) : RM St bytes :=
  r ← use_env (doh_query_with_fallback query_bytes);
  match r with
  | Err e => throw (DnsError.Transport ("DoH failed: " +:+ DnsError.fmt e))
  | _ => lift r
  end.

Definition decode_reply (response_data : bytes) : DnsResult Message :=
  match decode_message response_data with
  | Err e => Err (DnsError.Transport ("DoH response parse failed: " +:+ DnsError.fmt e))
  | r => r
  end.

(** The records of a response that answer the question themselves. *)
Definition own_records (encoded_name : bytes) (rtype : Z) (response : Message) : list ResourceRecord :=
  filter (λ r, domain_names_equal (rr_name r) encoded_name = true ∧ rr_rtype r = rtype) (m_answers response).

Definition resolve_via_doh (enable_ipv6 dnssec_ok : bool) (name : str) (rtype rclass : Z)
    : RM St (list ResourceRecord) :=
  encoded_name ← lift (encode_domain_name name);
  found ← with_lock CacheLock (cache_lookup encoded_name rtype rclass);
  match found with
  | Some (records, _) => mret records
  | None =>
    id ← use_env env_random;
    query_bytes ← lift (build_query dnssec_ok encoded_name rtype rclass id);
    response_data ← over_https query_bytes;
    response ← lift (decode_reply response_data);
    if decide (h_rcode (m_header response) = 3) then throw (DnsError.NxDomain [] false)
    else if decide (h_rcode (m_header response) ≠ 0) then
      throw (DnsError.Transport ("DoH returned rcode=" +:+ pretty (h_rcode (m_header response))))
    else
      let records := own_records encoded_name rtype response in
      if decide (records = []) then throw (DnsError.Malformed "DoH response had no matching records")
      else
        _ ← with_lock CacheLock (cache_insert_records records);
        _ ← cache_response enable_ipv6 response;
        mret records
  end.

(** The recursive resolution first. *)
Definition resolve_with_fallback (enable_ipv6 dnssec_ok : bool) (fuel : nat) (name : str)
    (rtype rclass : Z) : RM St (list ResourceRecord) :=
  r ← catch (resolve (resolve_recursive enable_ipv6 fuel) dnssec_ok name rtype rclass);
  match r with
  | inl records => mret records
  | inr _ => resolve_via_doh enable_ipv6 dnssec_ok name rtype rclass
  end.
End resolver.
End Doh.

(** ** Lemmas *)

(** A query has the RD bit it was built with. *)
Lemma query_rd name rtype rclass id dnssec_ok recursive query b :
  build_query_static name rtype rclass id dnssec_ok recursive = Ok query →
  query !! 2%nat = Some b → Z.testbit b 0 = recursive.
Proof.
  unfold build_query_static. intros (rest & ->)%encode_message_header. unfold header_wire. intros [= <-].
  rewrite (proj1 (flags_byte_bits _ 0 ltac:(lia))). rewrite header_flags_bits by lia.
  cbn. by destruct recursive.
Qed.
