(* ===== verification/Cli.v ===== *)
(** * The command line (src/main.rs, src/health.rs, src/dns/types.rs, lines 339-399)

    The modes of the program that do one thing and exit: a query, the health
    check and the installation as a service, with the text of a record they
    print.  What the program prints around the records is not modelled; the
    commands that install the service are in [Installer].  Strings are the
    bytes of their UTF-8 form here. *)

From stdpp Require Import strings pretty.
From S2P Require Import Prelude Constants Str Types Names NameCodec Rdata Message Async Lru Cache Upstream Blocklist NetAddr Config Transport.
#[local] Open Scope Z_scope.

(** ** The text of a record *)

Definition hex2 (b : Z) : str := [hex_digit (b / 16); hex_digit (b mod 16)].

Definition rdata_str (self : ResourceRecord) : str :=
  match rr_parsed self with
  | Some (RData.A ip) => ipv4_to_string ip
  | Some (RData.AAAA ip) => ipv6_to_string ip
  | Some (RData.CNAME target) | Some (RData.NS target) | Some (RData.PTR target) => labels_to_string target
  | Some (RData.MX preference exchange) => labels_to_string exchange ++ lit " " ++ dec preference
  | Some (RData.SOA _ _ _ _ _ _ _) => lit "(SOA)"
  | Some (RData.TXT parts) => concat parts
  | Some (RData.SRV priority weight port target) =>
    dec priority ++ lit " " ++ dec weight ++ lit " " ++ dec port ++ lit " " ++ labels_to_string target
  | Some (RData.RRSIG _ _ _ _ _ _ _ _ _) => lit "(RRSIG)"
  | Some (RData.DNSKEY _ _ _ _) => lit "(DNSKEY)"
  | Some (RData.NSEC _ _) => lit "(NSEC)"
  | Some (RData.DS key_tag algorithm digest_type _) =>
    lit "DS key_tag=" ++ dec key_tag ++ lit " alg=" ++ dec algorithm ++ lit " digest_type=" ++ dec digest_type
  | _ =>
    if decide (length (rr_rdata self) <= 20)%nat then
      lit "[" ++ join (lit ", ") (map hex2 (rr_rdata self)) ++ lit "]"
    else lit "<" ++ dec (Z.of_nat (length (rr_rdata self))) ++ lit " bytes>"
  end.

(** ** One query *)

(** [str::to_uppercase]: the Unicode tables, of which only the ASCII part is fixed here. *)
Definition to_ascii_uppercase (c : Z) : Z := if decide (97 <= c <= 122) then c - 32 else c.
Class UpperCase := {
  to_uppercase : str → str;
  to_uppercase_ascii s : Forall (λ c, 0 <= c < 128) s → to_uppercase s = map to_ascii_uppercase s;
}.

(** [None]: the program exits. *)
Definition parse_rtype `{UpperCase} (rtype_str : str) : option Z :=
  let s := to_uppercase rtype_str in
  if decide (s = lit "A") then Some 1
  else if decide (s = lit "AAAA") then Some 28
  else if decide (s = lit "CNAME") then Some 5
  else if decide (s = lit "MX") then Some 15
  else if decide (s = lit "NS") then Some 2
  else if decide (s = lit "TXT") then Some 16
  else if decide (s = lit "SOA") then Some 6
  else if decide (s = lit "SRV") then Some 33
  else None.

(** The fields of the line that is printed for a record. *)
Definition record_fields (rec : ResourceRecord) : list str :=
  [labels_to_string (rr_name rec); dec (rr_rtype rec); dec (rr_rclass rec); rdata_str rec; dec (rr_ttl rec)].

(** The query of the mode for DNS over TLS; a name that cannot be encoded is the empty one. *)
Definition dot_diagnostic_query (name : str) (rtype id : Z) : DnsResult bytes :=
  qname ← match encode_domain_name name with Err _ => Ok [] | r => r end;
  match encode_message (mkMessage (Header_new_query id false) [mkQuestion qname rtype 1] [] [] []) with
  | Err _ => Ok []
  | r => r
  end.

(** The records that are printed, or what went wrong: the transport, the decoding, or the rcode. *)
Inductive diagnostic :=
  | Resolved (records : list (list str))
  | Rcode (rcode : Z)
  | Unparsed (e : DnsError.t)
  | Unresolved (e : DnsError.t).

Definition run_diagnostic_query_dot {N} `{Dot.TlsEnv N} `{DebugText} (name : str) (rtype id : Z)
    : RM N diagnostic :=
  query_bytes ← lift (dot_diagnostic_query name rtype id);
  r ← catch (Dot.dot_query_with_fallback query_bytes);
  match r with
  | inl response_data =>
    response ← catch (lift (decode_message response_data));
    match response with
    | inl response =>
      if decide (h_rcode (m_header response) = 0) then
        mret (Resolved (map record_fields (m_answers response)))
      else mret (Rcode (h_rcode (m_header response)))
    | inr e => mret (Unparsed e)
    end
  | inr e => mret (Unresolved e)
  end.

(** The modes over UDP and HTTPS print what [resolve] gives. *)
Definition run_diagnostic_query {S} (resolve : RM S (list ResourceRecord)) : RM S diagnostic :=
  r ← catch resolve;
  match r with
  | inl records => mret (Resolved (map record_fields records))
  | inr e => mret (Unresolved e)
  end.

(** ** The health check (src/health.rs) *)

Record HealthReport := mkReport { report_ok : bool; report_detail : str }.

(** The socket: its errors as their texts, what comes back within two seconds, and the time it took. *)
Class HealthIo := {
  health_bind : option str;
  health_send : bytes → option str;
  health_recv : bytes → option (bytes + str);
  health_elapsed_ms : Z;
}.

(** The addresses among the answers. *)
Definition answer_ips (resp : Message) : list str :=
  omap (λ r, match rr_parsed r with
             | Some (RData.A ip) => Some (ipv4_to_string ip)
             | Some (RData.AAAA ip) => Some (ipv6_to_string ip)
             | _ => None
             end) (m_answers resp).

(** The report on a packet that came back. *)
Definition health_of_reply (bind_addr : SocketAddr) (domain : str) (elapsed_ms : Z) (data : bytes)
    : outcome unit HealthReport :=
  let addr := socket_addr_to_string bind_addr in
  match Message_from_bytes data with
  | Ok resp =>
    if decide (h_rcode (m_header resp) = 0) then
      let ips := answer_ips resp in
      let detail :=
        if decide (ips = []) then addr ++ lit " answered NOERROR in " ++ dec elapsed_ms ++ lit " ms"
        else addr ++ lit " resolved " ++ domain ++ [32; 226; 134; 146; 32] ++ join (lit ", ") ips ++
             lit " in " ++ dec elapsed_ms ++ lit " ms" in
      Ok (mkReport true detail)
    else Ok (mkReport false (addr ++ lit " answered RCODE=" ++ dec (h_rcode (m_header resp)) ++
                             lit " in " ++ dec elapsed_ms ++ lit " ms"))
  | Err e => Ok (mkReport false (lit "cannot parse response from " ++ addr ++ lit ": " ++ lit (DnsError.fmt e)))
  | Panic => Panic
  | Diverge => Diverge
  end.

Definition run_healthcheck `{HealthIo} (bind_addr : SocketAddr) (domain : str) : outcome unit HealthReport :=
  let addr := socket_addr_to_string bind_addr in
  match health_bind with
  | Some e => Ok (mkReport false (lit "cannot create socket: " ++ e))
  | None =>
    match Question_new domain 1 1 with
    | Ok question =>
      let msg := mkMessage (Header_new_query 4660 true) [question] [] [] [] in
      match Message_to_bytes msg (replicate MAX_UDP_PAYLOAD 0) with
      | Ok (buf, len) =>
        match health_send (take len buf) with
        | Some e => Ok (mkReport false (lit "cannot send query to " ++ addr ++ lit ": " ++ e))
        | None =>
          match health_recv (take len buf) with
          | Some (inl data) => health_of_reply bind_addr domain health_elapsed_ms (take MAX_UDP_PAYLOAD data)
          | Some (inr e) =>
            Ok (mkReport false (lit "error receiving response from " ++ addr ++ lit ": " ++ e))
          | None =>
            Ok (mkReport false (lit "timeout after 2000 ms " ++ [226; 128; 148] ++ lit " no response from " ++ addr))
          end
        end
      | Err e => Ok (mkReport false (lit "cannot encode query: " ++ lit (DnsError.fmt e)))
      | Panic => Panic
      | Diverge => Diverge
      end
    | Diverge => Diverge
    | _ => Panic
    end
  end.

(** ** The service *)

(** The options of the program, as [struct Cli] declares them. *)
Definition cli_options : list str := map lit [
  "-f"; "--config"; "-b"; "--bind"; "-6"; "--ipv6"; "-d"; "--dnssec"; "--no-prefetch"; "-c"; "--cache-size";
  "-v"; "--verbose"; "-u"; "--upstream"; "--doh"; "--dot"; "--blocklist-mode"; "--log-file"; "--log-level";
  "--api-bind"; "--metrics"; "--query"; "--query-type"; "--install-service"; "--uninstall-service";
  "--healthcheck"; "--healthcheck-domain"].

(** The options [generate_plist] writes, each with its value. *)
Definition plist_options (config : FastDnsConfig) : list (str * option str) :=
  [(lit "-b", Some (fc_bind config)); (lit "-c", Some (dec (fc_cache_size config)))] ++
  (if fc_dnssec config then [(lit "--dnssec", None)] else []) ++
  (if fc_ipv6 config then [(lit "--ipv6", None)] else []) ++
  (match fc_upstream config with
   | Some up =>
     (lit "--upstream", Some up) ::
     (if fc_doh config then [(lit "--doh", None)] else if fc_dot config then [(lit "--dot", None)] else [])
   | None => []
   end) ++
  (if decide (fc_blocklist_mode config ≠ lit "none") then
     [(lit "--blocklist-mode", Some (fc_blocklist_mode config))] else []) ++
  (if decide (fc_api_bind config ≠ []) then [(lit "--api-bind", Some (fc_api_bind config))] else []) ++
  (if fc_metrics config then [(lit "--metrics", None)] else []) ++
  (if decide (fc_log_file config ≠ []) then [(lit "--log-file", Some (fc_log_file config))] else []) ++
  (if decide (fc_log_level config ≠ lit "info") then [(lit "--log-level", Some (fc_log_level config))] else []) ++
  (if decide (fc_rate_limit_qps config ≠ 100) then
     [(lit "--rate-limit-qps", Some (dec (fc_rate_limit_qps config)))] else []).

Definition plist_args (config : FastDnsConfig) : list str :=
  lit "/usr/local/bin/fastdns" ::
  concat (map (λ o, o.1 :: match o.2 with Some v => [v] | None => [] end) (plist_options config)).

(** [str::replace] of a character. *)
Definition replace (c : Z) (by_ : str) (s : str) : str :=
  concat (map (λ x, if decide (x = c) then by_ else [x]) s).

Definition escape_xml (s : str) : str :=
  replace 39 (lit "&apos;") (replace 34 (lit "&quot;") (replace 62 (lit "&gt;") (replace 60 (lit "&lt;")
    (replace 38 (lit "&amp;") s)))).

(** The lines of the arguments in the file. *)
Definition plist_lines (config : FastDnsConfig) : str :=
  concat (map (λ arg, lit "        <string>" ++ escape_xml arg ++ lit "</string>" ++ [10]) (plist_args config)).

(** ** Lemmas *)

(** Every option that is written is one of the program's, but the one for the rate limit. *)
Lemma plist_options_known config :
  Forall (λ o, o.1 ∈ cli_options) (plist_options config) ↔ fc_rate_limit_qps config = 100.
Proof.
  assert (Hin : ∀ s, lit s ∈ cli_options ↔ bool_decide (lit s ∈ cli_options) = true)
    by (intros; by rewrite bool_decide_eq_true).
  unfold plist_options. rewrite !Forall_app. split.
  - intros (_ & _ & _ & _ & _ & _ & _ & _ & _ & Hlast). destruct (decide (fc_rate_limit_qps config = 100)) as [|Hq]; [done|].
    rewrite decide_True in Hlast by done. apply Forall_cons in Hlast as [Hlast _]. by apply Hin in Hlast.
  - intros ->. split_and!; repeat case_match; try done; repeat constructor; cbn [fst]; by apply Hin.
Qed.

(** The five replacements are one pass over the characters. *)
Definition escape_char (c : Z) : str :=
  if decide (c = 38) then lit "&amp;" else if decide (c = 60) then lit "&lt;"
  else if decide (c = 62) then lit "&gt;" else if decide (c = 34) then lit "&quot;"
  else if decide (c = 39) then lit "&apos;" else [c].

Lemma replace_app c t s s' : replace c t (s ++ s') = replace c t s ++ replace c t s'.
Proof. unfold replace. by rewrite map_app, concat_app. Qed.

Lemma escape_xml_chars s : escape_xml s = concat (map escape_char s).
Proof.
  induction s as [|c s IH]; [done|]. unfold escape_xml in *. cbn [map concat]. rewrite <-IH.
  change (c :: s) with ([c] ++ s). rewrite !replace_app. f_equal.
  unfold escape_char, replace. cbn [map concat].
  repeat (case_decide; [subst; by vm_compute|]). cbn [map concat app].
  repeat (rewrite decide_False by done; cbn [map concat app]). done.
Qed.

(** A reader of text with the five entities; [entity] is the name of one read so far. *)
Definition entity_char (name : str) : option Z :=
  if decide (name = lit "amp") then Some 38 else if decide (name = lit "lt") then Some 60
  else if decide (name = lit "gt") then Some 62 else if decide (name = lit "quot") then Some 34
  else if decide (name = lit "apos") then Some 39 else None.
Fixpoint xml_text (entity : option str) (s : str) : option str :=
  match s, entity with
  | [], None => Some []
  | [], Some _ => None
  | c :: s, None =>
    if decide (c = 38) then xml_text (Some []) s
    else if decide (c = 60) then None else cons c <$> xml_text None s
  | c :: s, Some name =>
    if decide (c = 59) then c ← entity_char name; cons c <$> xml_text None s
    else xml_text (Some (name ++ [c])) s
  end.

Lemma xml_entity t :
  xml_text None (lit "&amp;" ++ t) = cons 38 <$> xml_text None t ∧
  xml_text None (lit "&lt;" ++ t) = cons 60 <$> xml_text None t ∧
  xml_text None (lit "&gt;" ++ t) = cons 62 <$> xml_text None t ∧
  xml_text None (lit "&quot;" ++ t) = cons 34 <$> xml_text None t ∧
  xml_text None (lit "&apos;" ++ t) = cons 39 <$> xml_text None t.
Proof. split_and!; by vm_compute. Qed.

(** What is escaped reads back as it was. *)
Lemma xml_roundtrip s : xml_text None (escape_xml s) = Some s.
Proof.
  rewrite escape_xml_chars. induction s as [|c s IH]; [done|]. cbn [map concat].
  destruct (xml_entity (concat (map escape_char s))) as (Hamp & Hlt & Hgt & Hquot & Hapos). rewrite IH in *.
  unfold escape_char at 1. repeat (case_decide; [subst; done|]).
  cbn [app xml_text]. rewrite !decide_False by done. by rewrite IH.
Qed.

(** The health check reports success exactly on a packet that decodes and has rcode zero, whoever
    sent it and whatever id it has; its domain must be one that can be encoded. *)
Lemma run_healthcheck_ok `{HealthIo} bind_addr domain report :
  run_healthcheck bind_addr domain = Ok report → report_ok report = true →
  ∃ query data resp, health_bind = None ∧ health_send query = None ∧ health_recv query = Some (inl data) ∧
    Message_from_bytes (take MAX_UDP_PAYLOAD data) = Ok resp ∧ h_rcode (m_header resp) = 0.
Proof.
  unfold run_healthcheck. destruct health_bind; [by intros [= <-]|].
  destruct (Question_new _ _ _); [|done..].
  destruct (Message_to_bytes _ _) as [[buf len]|e| |]; [|by intros [= <-]|done..].
  destruct (health_send _) eqn:Es; [by intros [= <-]|].
  destruct (health_recv _) as [[data|e]|] eqn:Er; [|by intros [= <-]..].
  unfold health_of_reply. destruct (Message_from_bytes _) as [resp|e| |] eqn:Em; [|by intros [= <-]|done..].
  case_decide as Hr; [|by intros [= <-]]. intros _ _. by exists (take len buf), data, resp.
Qed.

Lemma run_healthcheck_no_err `{HealthIo} bind_addr domain e : run_healthcheck bind_addr domain ≠ Err e.
Proof. unfold run_healthcheck, health_of_reply. by repeat case_match. Qed.

Lemma run_healthcheck_panics `{HealthIo} bind_addr domain e :
  health_bind = None → encode_domain_name domain = Err e → run_healthcheck bind_addr domain = Panic.
Proof. unfold run_healthcheck, Question_new. by intros -> ->. Qed.
