(* ===== verification/TrustAnchor.v ===== *)
(** * The embedded root key (src/dnssec/trust_anchor.rs)

    The two constants of a file that no module declaration names, so that
    the program does not use it:
    the pinned keys the validation starts from are those of [Validation]. *)

From S2P Require Import Prelude Dnssec.
#[local] Open Scope Z_scope.

(** The digest of the root key. *)
Definition ROOT_KEY_DIGEST_SHA256 : bytes := [
   73; 253; 221; 115; 137; 216; 5; 222; 219; 208; 122; 3; 187; 185; 103; 29;
   232; 51; 208; 228; 113; 164; 52; 130; 66; 24; 237; 21; 78; 213; 25; 12].

(** The RDATA of the root key: flags 257, protocol 3, algorithm 8, then the public key. *)
Definition ROOT_DNSKEY_RDATA : bytes := [
   1; 1; 3; 8; 0; 0; 3; 1; 0; 1; 187; 175; 123; 207; 108; 164;
   202; 91; 35; 47; 96; 9; 150; 78; 67; 99; 51; 84; 141; 204; 115; 153;
   9; 77; 170; 119; 157; 14; 152; 179; 87; 72; 47; 54; 141; 204; 254; 7;
   242; 213; 127; 144; 47; 249; 248; 118; 15; 116; 26; 224; 90; 138; 62; 218;
   103; 128; 6; 29; 64; 76; 214; 129; 119; 91; 193; 91; 238; 169; 91; 100;
   67; 57; 43; 86; 74; 36; 16; 20; 79; 92; 58; 200; 91; 76; 183; 213;
   166; 124; 91; 28; 68; 125; 210; 125; 31; 10; 160; 42; 214; 28; 66; 194;
   35; 127; 128; 235; 67; 133; 237; 75; 70; 134; 22; 189; 211; 207; 39; 114;
   67; 43; 120; 110; 9; 183; 124; 167; 129; 60; 178; 209; 208; 209; 60; 12;
   195; 121; 127; 17; 0; 141; 21; 33; 144; 180; 24; 140; 102; 170; 156; 183;
   20; 88; 129; 118; 209; 14; 120; 28; 43; 216; 165; 142; 210; 62; 168; 77;
   107; 14; 176; 151; 252; 13; 92; 77; 124; 137; 29; 141; 195; 72; 74; 183;
   103; 106; 145; 150; 34; 235; 110; 40; 63; 154; 30; 68; 178; 21; 43; 221;
   42; 174; 92; 8; 10; 123; 182; 88; 146; 204; 12; 162; 53; 244; 85; 77;
   152; 149; 28; 228; 44; 109; 116; 63; 45; 154; 242; 83; 53; 125; 174; 15;
   239; 199; 134; 7; 187; 68; 155; 40; 44; 12; 43; 144; 53; 113; 124; 12;
   42; 135; 18; 29; 52; 195; 230; 42; 193; 66].

(** The key has another tag than the 20326 its comment names. *)
Lemma root_dnskey_tag : compute_key_tag 257 3 8 (drop 4 ROOT_DNSKEY_RDATA) = 15348.
Proof. by vm_compute. Qed.

(** The modulus, behind the exponent 65537, has 2048 bits as the comment says. *)
Lemma root_dnskey_modulus :
  take 4 ROOT_DNSKEY_RDATA = [1; 1; 3; 8] ∧ length (drop 10 ROOT_DNSKEY_RDATA) = 256%nat ∧
  length ROOT_KEY_DIGEST_SHA256 = 32%nat.
Proof. done. Qed.
