(* ===== verification/Installer.v ===== *)
(** * The installation as a service (src/main.rs, lines 750-1210, and src/system_dns.rs)

    What the options [--install-service] and [--uninstall-service] do on macOS
    and on Windows, with the functions of src/system_dns.rs: the commands of
    the operating system and the changes of files, in their order.  The system
    is the class [System], and what the program does to it is kept in a log.
    That a command ends the program itself is not modelled.  What is printed is
    left out, but for how the installation ends; so are the pauses between the
    commands. *)

From stdpp Require Import strings.
From S2P Require Import Prelude Constants Str Types Async Lru Cache Upstream Blocklist NetAddr Config Transport Cli.
#[local] Open Scope Z_scope.

(** ** The system *)

(** How a command ends: it cannot be started, or with its success and its output. *)
Inductive command_end := NotStarted | Exited (success : bool) (stdout : bytes).

Class System (M : Type) := {
  sys_command : str → list str → M → command_end * M;
  sys_exists : str → M → bool;
  sys_remove_file : str → M → bool * M;
  sys_create_dir_all : str → M → bool * M;
  sys_copy : str → str → M → bool * M;
  sys_set_permissions : str → Z → M → bool * M;
  (** [File::create] and [write_all]. *)
  sys_create : str → M → bool * M;
  sys_write_all : str → bytes → M → bool * M;
  sys_current_exe : M → option str;
  (** [String::from_utf8_lossy] *)
  sys_lossy : bytes → str;
}.

(** What the program does. *)
Inductive action :=
  | Command (program : str) (args : list str)
  | RemoveFile (path : str)
  | CreateDir (path : str)
  | Copy (from to : str)
  | SetPermissions (path : str) (mode : Z)
  | WriteFile (path : str) (content : bytes).

Record Host (M : Type) := mkHost { h_system : M; h_log : list action }.
Arguments mkHost {M}.
Arguments h_system {M}.
Arguments h_log {M}.

(** Code that acts on the system. *)
Definition Sys (M A : Type) : Type := Host M → A * Host M.
#[export] Instance Sys_ret {M} : MRet (Sys M) := λ A a h, (a, h).
#[export] Instance Sys_bind {M} : MBind (Sys M) := λ A B f c h, let '(a, h) := c h in f a h.

Section system.
Context {M : Type} `{System M}.

Definition perform {A} (a : action) (f : M → A * M) : Sys M A := λ h,
  let '(r, m) := f (h_system h) in (r, mkHost m (h_log h ++ [a])).

(** [Command::new(program).args(args)] with [status()] or [output()]. *)
Definition command (program : str) (args : list str) : Sys M (option (bool * bytes)) :=
  r ← perform (Command program args) (sys_command program args);
  mret (match r with
        | Exited success stdout => Some (success, stdout)
        | NotStarted => None
        end).

Definition exists_path (path : str) : Sys M bool := λ h, (sys_exists path (h_system h), h).
Definition current_exe : Sys M (option str) := λ h, (sys_current_exe (h_system h), h).
Definition remove_file (path : str) : Sys M bool := perform (RemoveFile path) (sys_remove_file path).
Definition create_dir_all (path : str) : Sys M bool := perform (CreateDir path) (sys_create_dir_all path).
Definition copy (from to : str) : Sys M bool := perform (Copy from to) (sys_copy from to).
Definition set_permissions (path : str) (mode : Z) : Sys M bool :=
  perform (SetPermissions path mode) (sys_set_permissions path mode).
(** A file that is created and written. *)
Definition write_file (path : str) (content : bytes) : Sys M bool :=
  perform (WriteFile path content) (λ m,
    let '(created, m) := sys_create path m in
    if (created : bool) then sys_write_all path content m else (false, m)).

(** The success of a command. *)
Definition succeeds (r : option (bool * bytes)) : bool :=
  match r with Some (success, _) => success | None => false end.

Definition PLIST_DAEMON : str := lit "/Library/LaunchDaemons/com.fastdns.daemon.plist".
Definition PLIST_HEALTH : str := lit "/Library/LaunchDaemons/com.fastdns.healthcheck.plist".
Definition INSTALLED_BINARY : str := lit "/usr/local/bin/fastdns".

(** ** src/system_dns.rs *)

(** An error is told by what has failed. *)
Inductive dns_error :=
  | CannotRun (program : str)
  | Refused (program : str)
  | Unsupported.

(** *** macOS *)

Definition install_service_macos (plist_path : str) : Sys M (unit + dns_error) :=
  _ ← command (lit "launchctl") [lit "unload"; plist_path];
  status ← command (lit "launchctl") [lit "load"; lit "-w"; plist_path];
  mret (match status with
        | None => inr (CannotRun (lit "launchctl"))
        | Some (success, _) => if (success : bool) then inl () else inr (Refused (lit "launchctl"))
        end).

Definition uninstall_service_macos (plist_path : str) : Sys M (unit + dns_error) :=
  status ← command (lit "launchctl") [lit "unload"; plist_path];
  mret (match status with
        | None => inr (CannotRun (lit "launchctl"))
        | Some (success, _) => if (success : bool) then inl () else inr (Refused (lit "launchctl"))
        end).

(** The lines of the output, without the first and without the empty ones. *)
Definition network_services (stdout : bytes) : list str :=
  filter (λ l, l ≠ []) (map trim (drop 1 (lines (sys_lossy stdout)))).

Definition get_network_services_macos : Sys M (list str + dns_error) :=
  output ← command (lit "networksetup") [lit "-listallnetworkservices"];
  mret (match output with
        | None => inr (CannotRun (lit "networksetup"))
        | Some (_, stdout) => inl (network_services stdout)
        end).

Fixpoint set_services (services : list str) (dns_server : str) : Sys M (unit + dns_error) :=
  match services with
  | [] => mret (inl ())
  | service :: services =>
    status ← command (lit "networksetup") [lit "-setdnsservers"; service; dns_server];
    match status with
    | None => mret (inr (CannotRun (lit "networksetup")))
    | Some _ => set_services services dns_server
    end
  end.

Definition set_system_dns_macos (dns_server : str) : Sys M (unit + dns_error) :=
  services ← get_network_services_macos;
  match services with
  | inr e => mret (inr e)
  | inl services => set_services services dns_server
  end.

(** *** Windows *)

(** The command line of the service; the path is quoted. *)
Definition bin_path (exe : option str) : str :=
  [34] ++ default (lit "fastdns.exe") exe ++ [34] ++ lit " -b 127.0.0.1:53 -c 250000 --dnssec".
Definition create_args (exe : option str) : list str :=
  [lit "create"; lit "FastDNS"; lit "binPath="; bin_path exe; lit "start="; lit "auto"; lit "DisplayName=";
   lit "FastDNS Recursive Resolver"; lit "type="; lit "own"; lit "error="; lit "normal"].

Definition install_service_windows : Sys M (unit + dns_error) :=
  exe ← current_exe;
  status ← command (lit "sc") (create_args exe);
  mret (match status with
        | None => inr (CannotRun (lit "sc"))
        | Some (success, _) => if (success : bool) then inl () else inr (Refused (lit "sc"))
        end).

Definition uninstall_service_windows : Sys M (unit + dns_error) :=
  _ ← command (lit "sc") [lit "stop"; lit "FastDNS"];
  status ← command (lit "sc") [lit "delete"; lit "FastDNS"];
  mret (match status with
        | None => inr (CannotRun (lit "sc"))
        | Some (success, _) => if (success : bool) then inl () else inr (Refused (lit "sc"))
        end).

Definition netsh_args (connection dns_server : str) : list str :=
  [lit "interface"; lit "ip"; lit "set"; lit "dns"; lit "name=" ++ [34] ++ connection ++ [34]; lit "static"; dns_server].

Definition set_system_dns_windows (dns_server : str) : Sys M (unit + dns_error) :=
  status ← command (lit "netsh") (netsh_args (lit "Local Area Connection") dns_server);
  match status with
  | None => mret (inr (CannotRun (lit "netsh")))
  | Some (success, _) =>
    if (success : bool) then mret (inl ()) else
    _ ← command (lit "netsh") (netsh_args (lit "Ethernet") dns_server);
    mret (inl ())
  end.

(** *** Elsewhere *)

Definition install_service_other : unit + dns_error := inr Unsupported.
Definition uninstall_service_other : unit + dns_error := inr Unsupported.
Definition set_system_dns_other : unit + dns_error := inr Unsupported.

(** ** The installation on macOS *)

Definition is_fastdns_running : Sys M bool :=
  out ← command (lit "pgrep") [lit "-x"; lit "fastdns"]; mret (succeeds out).

Definition is_launchd_service_loaded (label : str) : Sys M bool :=
  out ← command (lit "launchctl") [lit "print"; lit "system/" ++ label]; mret (succeeds out).

(** A loop over the two files of the daemons, for those that exist. *)
Fixpoint for_existing {A} (paths : list str) (f : str → Sys M A) : Sys M unit :=
  match paths with
  | [] => mret ()
  | path :: paths =>
    found ← exists_path path;
    _ ← (if (found : bool) then _ ← f path; mret () else mret ());
    for_existing paths f
  end.

Definition clean_old_installation : Sys M unit :=
  was_running ← is_fastdns_running;
  was_loaded ← is_launchd_service_loaded (lit "com.fastdns.daemon");
  installed ← exists_path INSTALLED_BINARY;
  if negb was_running && negb was_loaded && negb installed then mret () else
  _ ← (if (was_running : bool) then
         _ ← command (lit "pgrep") [lit "-x"; lit "fastdns"];
         _ ← command (lit "pkill") [lit "-9"; lit "fastdns"];
         mret ()
       else mret ());
  _ ← for_existing [PLIST_DAEMON; PLIST_HEALTH] (λ plist, command (lit "launchctl") [lit "unload"; plist]);
  _ ← for_existing [PLIST_DAEMON; PLIST_HEALTH] remove_file;
  _ ← for_existing [INSTALLED_BINARY] remove_file;
  _ ← command (lit "networksetup") [lit "-setdnsservers"; lit "Wi-Fi"; lit "empty"];
  _ ← command (lit "networksetup") [lit "-setdnsservers"; lit "Ethernet"; lit "empty"];
  _ ← command (lit "dscacheutil") [lit "-flushcache"];
  _ ← command (lit "killall") [lit "-HUP"; lit "mDNSResponder"];
  mret ().

(** The text of the file before and after the arguments. *)
Definition quoted (s : string) : str := [34] ++ lit s ++ [34].
Definition text_lines (ls : list str) : str := concat (map (λ l, l ++ [10]) ls).

Definition plist_header : str := text_lines [
  lit "<?xml version=" ++ quoted "1.0" ++ lit " encoding=" ++ quoted "UTF-8" ++ lit "?>";
  lit "<!DOCTYPE plist PUBLIC " ++ quoted "-//Apple//DTD PLIST 1.0//EN";
  lit "  " ++ quoted "http://www.apple.com/DTDs/PropertyList-1.0.dtd" ++ lit ">";
  lit "<plist version=" ++ quoted "1.0" ++ lit ">";
  lit "<dict>";
  lit "    <key>Label</key>";
  lit "    <string>com.fastdns.daemon</string>";
  lit "    <key>ProgramArguments</key>";
  lit "    <array>"].

Definition plist_footer : str := text_lines (map lit [
  "    </array>";
  "    <key>KeepAlive</key>";
  "    <dict>";
  "        <key>Crashed</key>";
  "        <true/>";
  "    </dict>";
  "    <key>RunAtLoad</key>";
  "    <true/>";
  "    <key>UserName</key>";
  "    <string>root</string>";
  "    <key>StandardOutPath</key>";
  "    <string>/var/log/fastdns.log</string>";
  "    <key>StandardErrorPath</key>";
  "    <string>/var/log/fastdns.error.log</string>";
  "    <key>EnvironmentVariables</key>";
  "    <dict>";
  "        <key>RUST_BACKTRACE</key>";
  "        <string>1</string>";
  "    </dict>";
  "    <key>ThrottleInterval</key>";
  "    <integer>5</integer>";
  "    <key>WatchPaths</key>";
  "    <array>";
  "        <string>/etc/resolv.conf</string>";
  "    </array>";
  "</dict>";
  "</plist>"]).

Definition plist_text (config : FastDnsConfig) : str := plist_header ++ plist_lines config ++ plist_footer.

Definition generate_plist (config : FastDnsConfig) (plist_path : str) : Sys M bool :=
  write_file plist_path (plist_text config).

(** How the installation ends: with what it says of the daemon, of the DNS settings and of the
    answer to a query. *)
Inductive install_end :=
  | CopyFailed
  | PlistFailed
  | Finished (loaded : bool) (dns : unit + dns_error) (verified : bool).

(** [launchctl load], and once more with the rights of an administrator. *)
Definition load_daemon : Sys M bool :=
  s ← command (lit "launchctl") [lit "load"; lit "-w"; PLIST_DAEMON];
  loaded ← (if succeeds s then mret true else
              s ← command (lit "osascript") [lit "-e";
                    lit "do shell script " ++ [34] ++ lit "launchctl load -w " ++ PLIST_DAEMON ++ [34] ++
                    lit " with administrator privileges"];
              mret (succeeds s));
  if (loaded : bool) then mret true else is_launchd_service_loaded (lit "com.fastdns.daemon").

Definition verify_resolution : Sys M bool :=
  output ← command (lit "dig") [lit "@127.0.0.1"; lit "google.com"; lit "+short"; lit "+timeout=3"];
  mret (match output with
        | Some (true, stdout) => bool_decide (filter (λ l, l ≠ []) (lines (sys_lossy stdout)) ≠ [])
        | _ => false
        end).

Definition install_service_route_macos (config : FastDnsConfig) : Sys M install_end :=
  _ ← clean_old_installation;
  exe ← current_exe;
  _ ← create_dir_all (lit "/usr/local/bin");
  copied ← copy (default (lit "target/release/fastdns") exe) INSTALLED_BINARY;
  if negb copied then mret CopyFailed else
  _ ← set_permissions INSTALLED_BINARY 493;
  generated ← generate_plist config PLIST_DAEMON;
  if negb generated then mret PlistFailed else
  _ ← set_permissions PLIST_DAEMON 420;
  loaded ← load_daemon;
  dns ← set_system_dns_macos (lit "127.0.0.1");
  verified ← verify_resolution;
  mret (Finished loaded dns verified).

(** Whether the service is said to be removed. *)
Definition uninstall_service_route_macos : Sys M bool :=
  status ← command (lit "sudo") [lit "bash"; lit "scripts/macos/uninstall.sh"];
  mret (succeeds status).

(** ** The installation on Windows *)

Inductive windows_end := Created | CreationFailed | NoServiceControl.

Definition install_service_route_windows : Sys M windows_end :=
  exe ← current_exe;
  _ ← command (lit "sc") [lit "stop"; lit "FastDNS"];
  _ ← command (lit "sc") [lit "delete"; lit "FastDNS"];
  status ← command (lit "sc") (create_args exe);
  match status with
  | Some (true, _) => _ ← command (lit "sc") [lit "start"; lit "FastDNS"]; mret Created
  | Some (false, _) => mret CreationFailed
  | None => mret NoServiceControl
  end.

Definition uninstall_service_route_windows : Sys M bool :=
  _ ← command (lit "sc") [lit "stop"; lit "FastDNS"];
  status ← command (lit "sc") [lit "delete"; lit "FastDNS"];
  mret (succeeds status).
End system.

(** ** Lemmas *)

Section lemmas.
Context {M : Type} `{System M}.

(** What has been done stays in the log. *)
Definition logs {A} (c : Sys M A) : Prop := ∀ h, ∃ new, h_log (c h).2 = h_log h ++ new.

Lemma logs_ret {A} (a : A) : logs (mret a).
Proof. intros h. exists []. cbn. by rewrite app_nil_r. Qed.
Lemma logs_bind {A B} (c : Sys M A) (f : A → Sys M B) : logs c → (∀ a, logs (f a)) → logs (c ≫= f).
Proof.
  intros Hc Hf h. destruct (Hc h) as [new Hn]. unfold mbind, Sys_bind. destruct (c h) as [a h'].
  destruct (Hf a h') as [new' Hn']. exists (new ++ new'). cbn in Hn. by rewrite Hn', Hn, app_assoc.
Qed.
Lemma logs_perform {A} a (f : M → A * M) : logs (perform a f).
Proof. intros h. exists [a]. unfold perform. by destruct (f (h_system h)). Qed.
Lemma logs_command program args : logs (command program args).
Proof. apply logs_bind; [apply logs_perform|]. intros []; apply logs_ret. Qed.

(** A command is in the log, and its result is the system's. *)
Lemma command_in_log program args h r h' :
  command program args h = (r, h') →
  Command program args ∈ h_log h' ∧
  (∀ success stdout, r = Some (success, stdout) →
     (sys_command program args (h_system h)).1 = Exited success stdout).
Proof.
  unfold command, perform, mbind, Sys_bind, mret, Sys_ret. destruct (sys_command program args (h_system h)) as [e m].
  intros [= <- <-]. cbn. split; [apply elem_of_app; right; by left|]. intros success stdout. by destruct e; intros; simplify_eq.
Qed.

Lemma bind_inv {A B} (c : Sys M A) (f : A → Sys M B) h b h' :
  (c ≫= f) h = (b, h') → ∃ a h1, c h = (a, h1) ∧ f a h1 = (b, h').
Proof. unfold mbind, Sys_bind. destruct (c h) as [a h1]. intros E. by exists a, h1. Qed.

Lemma logs_mono {A} (c : Sys M A) h r h' a : logs c → c h = (r, h') → a ∈ h_log h → a ∈ h_log h'.
Proof. intros Hc E Ha. destruct (Hc h) as [new Hn]. rewrite E in Hn. cbn in Hn. rewrite Hn. apply elem_of_app. by left. Qed.

(** Every service that is listed gets the server. *)
Lemma set_services_log services dns_server h h' :
  set_services services dns_server h = (inl (), h') →
  ∀ service, service ∈ services →
    Command (lit "networksetup") [lit "-setdnsservers"; service; dns_server] ∈ h_log h'.
Proof.
  revert h. induction services as [|s services IH]; intros h E service Hin; [by apply elem_of_nil in Hin|].
  cbn [set_services] in E. apply bind_inv in E as (r & h1 & Ec & E). destruct r as [r|]; [|done].
  apply elem_of_cons in Hin as [->|Hin]; [|by eapply IH].
  eapply (logs_mono (set_services services dns_server)); [|done|by eapply command_in_log].
  clear. induction services as [|s services IH]; cbn [set_services]; [apply logs_ret|].
  apply logs_bind; [apply logs_command|]. intros [r|]; [apply IH|apply logs_ret].
Qed.
End lemmas.

(** *** The arguments in the file *)

Definition strip (prefix s : str) : option str :=
  if decide (take (length prefix) s = prefix) then Some (drop (length prefix) s) else None.

Lemma strip_app prefix s : strip prefix (prefix ++ s) = Some s.
Proof. unfold strip. by rewrite take_app_length, decide_True, drop_app_length. Qed.

(** The text before the next tag, and the rest. *)
Fixpoint until_tag (s : str) : str * str :=
  match s with
  | [] => ([], [])
  | c :: s' => if decide (c = 60) then ([], s) else let '(t, rest) := until_tag s' in (c :: t, rest)
  end.

Lemma until_tag_app t s : 60 ∉ t → until_tag (t ++ 60 :: s) = (t, 60 :: s).
Proof.
  induction t as [|c t IH]; intros Ht; cbn; [done|].
  apply not_elem_of_cons in Ht as [Hc Ht]. by rewrite decide_False, IH.
Qed.

(** A reader of the [<string>] elements up to the end of the array. *)
Fixpoint read_args (fuel : nat) (s : str) : option (list str) :=
  match fuel with
  | O => None
  | S fuel =>
    match strip (lit "        <string>") s with
    | None => match strip (lit "    </array>") s with Some _ => Some [] | None => None end
    | Some s =>
      let '(t, s) := until_tag s in
      s ← strip (lit "</string>" ++ [10]) s;
      arg ← xml_text None t;
      cons arg <$> read_args fuel s
    end
  end.

Lemma escape_xml_no_tag s : 60 ∉ escape_xml s.
Proof.
  rewrite escape_xml_chars. induction s as [|c s IH]; cbn [map concat]; [by intros ?%elem_of_nil|].
  rewrite not_elem_of_app. split; [|done]. unfold escape_char.
  repeat (case_decide; [by apply (bool_decide_unpack _); vm_compute|]). rewrite list_elem_of_singleton. congruence.
Qed.

Lemma read_args_lines args s :
  strip (lit "        <string>") (lit "    </array>" ++ s) = None →
  read_args (S (length args))
    (concat (map (λ arg, lit "        <string>" ++ escape_xml arg ++ lit "</string>" ++ [10]) args) ++
     lit "    </array>" ++ s) = Some args.
Proof.
  intros Hend. induction args as [|arg args IH]; cbn [map concat length].
  - cbn [read_args app]. cbn [app] in Hend. by rewrite Hend, strip_app.
  - remember (S (length args)) as fuel. cbn [read_args]. rewrite <-!app_assoc, strip_app.
    change (lit "</string>" ++ ?x) with (60 :: lit "/string>" ++ x). rewrite until_tag_app by apply escape_xml_no_tag.
    change (60 :: lit "/string>" ++ [10] ++ ?x) with ((lit "</string>" ++ [10]) ++ x). rewrite strip_app.
    cbn [mbind option_bind]. rewrite xml_roundtrip. cbn [mbind option_bind]. by rewrite IH.
Qed.

(** ** Properties *)

Section properties.
Context {M : Type} `{System M}.

(** C40: the file of the service reads back as the program's arguments: whatever characters they hold,
    what follows the header is one string element for each, up to the end of the array. *)
Theorem plist_reads_back config :
  ∃ rest, plist_text config = plist_header ++ rest ∧
    read_args (S (length (plist_args config))) rest = Some (plist_args config).
Proof.
  exists (plist_lines config ++ plist_footer). split; [done|].
  change plist_footer with (lit "    </array>" ++ drop 12 plist_footer). by apply read_args_lines.
Qed.

(** When the copy and the file succeed, the DNS settings are changed whether or not the daemon
    could be loaded, and the result does not depend on it: every network service that the system
    lists then asks 127.0.0.1. *)
Theorem dns_without_daemon config (h h' : Host M) loaded verified :
  install_service_route_macos config h = (Finished loaded (inl ()) verified, h') →
  ∃ m success stdout,
    (sys_command (lit "networksetup") [lit "-listallnetworkservices"] m).1 = Exited success stdout ∧
    ∀ service, service ∈ network_services stdout →
      Command (lit "networksetup") [lit "-setdnsservers"; service; lit "127.0.0.1"] ∈ h_log h'.
Proof.
  unfold install_service_route_macos. intros E.
  apply bind_inv in E as (? & h1 & _ & E). apply bind_inv in E as (? & h2 & _ & E).
  apply bind_inv in E as (? & h3 & _ & E). apply bind_inv in E as (copied & h4 & _ & E).
  destruct copied; [|done]. cbn [negb] in E. apply bind_inv in E as (? & h5 & _ & E).
  apply bind_inv in E as (generated & h6 & _ & E). destruct generated; [|done]. cbn [negb] in E.
  apply bind_inv in E as (? & h7 & _ & E). apply bind_inv in E as (? & h8 & _ & E).
  apply bind_inv in E as (dns & h9 & Edns & E). apply bind_inv in E as (? & h10 & Ever & E).
  injection E as -> -> -> ->.
  apply bind_inv in Edns as (services & h11 & Eserv & Edns). destruct services as [services|]; [|done].
  apply bind_inv in Eserv as (out & h12 & Elist & Eserv). destruct out as [[success stdout]|]; [|done].
  injection Eserv as <- <-. apply command_in_log in Elist as [_ Elist]. eexists _, success, stdout.
  split; [by apply Elist|]. intros service Hin.
  eapply (logs_mono verify_resolution); [|exact Ever|by eapply set_services_log].
  apply logs_bind; [apply logs_command|]. intros ?. apply logs_ret.
Qed.
End properties.

(** ** Examples *)

(** A Mac with one network service, on which every command succeeds but the loading of a daemon. *)
#[local] Instance toy_system : System unit := {
  sys_command program args m :=
    (if decide (program = lit "networksetup") then Exited true (lit "All services" ++ [10] ++ lit "Wi-Fi" ++ [10])
     else Exited (negb (bool_decide (program ∈ [lit "pgrep"; lit "launchctl"; lit "osascript"]))) [], m);
  sys_exists _ _ := false;
  sys_remove_file _ m := (true, m);
  sys_create_dir_all _ m := (true, m);
  sys_copy _ _ m := (true, m);
  sys_set_permissions _ _ m := (true, m);
  sys_create _ m := (true, m);
  sys_write_all _ _ m := (true, m);
  sys_current_exe m := Some (lit "/Users/x/fastdns");
  sys_lossy b := b;
}.

(** The installation changes the DNS settings without a daemon. *)
Lemma dns_without_daemon_witness :
  ∃ h, install_service_route_macos FastDnsConfig_default (mkHost () []) = (Finished false (inl ()) false, h) ∧
  ∃ m success stdout,
    (sys_command (lit "networksetup") [lit "-listallnetworkservices"] m).1 = Exited success stdout ∧
    ∀ service, service ∈ network_services stdout →
      Command (lit "networksetup") [lit "-setdnsservers"; service; lit "127.0.0.1"] ∈ h_log h.
Proof.
  eexists. split; [by vm_compute|]. eapply (dns_without_daemon FastDnsConfig_default (mkHost () [])).
  by vm_compute.
Defined.
