(* ===== verification/Program.v ===== *)
(** * The program (src/main.rs, lines 134-352, 534-591 and 672-701)

    [main] from its arguments to its exit code: which of its modes it is in,
    and what that does.  The modes themselves are in the files on them, the
    daemon in [Process].  What clap makes of the command line is a record; the
    platform is a parameter, where the source has conditional compilation. *)

From stdpp Require Import gmap strings.
From S2P Require Import Prelude Constants Str Types Names NameCodec Message Async Lru Cache RootHints Rtt Upstream Dnssec.
From S2P Require Import Server Blocklist Resolver Resolution NetAddr Config App Process Transport Cli Installer.
#[local] Open Scope Z_scope.

(** ** Arguments *)

Record Cli := mkCli {
  cli_config : str;
  cli_bind : option str;
  cli_ipv6 : bool;
  cli_dnssec : bool;
  cli_no_prefetch : bool;
  cli_cache_size : option Z;
  cli_verbose : bool;
  cli_upstream : option str;
  cli_doh : bool;
  cli_dot : bool;
  cli_blocklist_mode : option str;
  cli_log_file : option str;
  cli_log_level : option str;
  cli_api_bind : option str;
  cli_metrics : bool;
  cli_query : option str;
  cli_query_type : str;
  cli_install_service : bool;
  cli_uninstall_service : bool;
  cli_healthcheck : bool;
  cli_healthcheck_domain : str;
}.

Definition cli_overrides (cli : Cli) : CliOverrides :=
  mkCliOverrides (cli_bind cli) (cli_ipv6 cli) (cli_dnssec cli) (cli_no_prefetch cli) (cli_cache_size cli)
    (cli_verbose cli) (cli_upstream cli) (cli_doh cli) (cli_dot cli) (cli_blocklist_mode cli)
    (cli_log_file cli) (cli_log_level cli) (cli_api_bind cli) (cli_metrics cli).

(** ** Logging *)

(** The filter in the environment, when there is a valid one, and whether files can be appended to
    in a directory. *)
Class LogIo := { env_filter : option str; appender_builds : str → bool }.

Inductive log_target := Stderr | LogFile (directory : str).

(** The filter, and where the log goes. *)
Definition init_logging `{LogIo} (config : FastDnsConfig) (prefer_stderr : bool) : str * log_target :=
  let log_level := if fc_verbose config then lit "debug" else fc_log_level config in
  let filter := default (lit "fastdns=" ++ log_level) env_filter in
  if bool_decide (fc_log_file config = []) || prefer_stderr then (filter, Stderr)
  else if appender_builds (fc_log_file config) then (filter, LogFile (fc_log_file config))
  else (filter, Stderr).

Definition one_shot (cli : Cli) : bool :=
  cli_healthcheck cli || bool_decide (is_Some (cli_query cli)) || cli_install_service cli || cli_uninstall_service cli.

(** ** The modes *)

Inductive Platform := MacOs | Windows | OtherUnix.
#[export] Instance Platform_eq_dec : EqDecision Platform.
Proof. solve_decision. Defined.

(** How the program ends, with what a query has printed; or the process that serves. *)
Inductive conclusion (S T : Type) :=
  | Exit (code : Z) (printed : option diagnostic)
  | Panicked
  (** The thread of a Windows service panics. *)
  | ServicePanicked
  | NeverEnds
  | Serves (process : Process S T).
Arguments Exit {S T}.
Arguments Panicked {S T}.
Arguments ServicePanicked {S T}.
Arguments NeverEnds {S T}.
Arguments Serves {S T}.

(** What the program finds around it: its platform, its rights, whether the service control manager
    has started it, the sockets it can bind, the threads of the runtime, and the clock. *)
Record Surroundings := mkSurroundings {
  su_platform : Platform;
  su_root : bool;
  su_dispatched : bool;
  su_sockets : Sockets;
  su_workers : nat;
  su_now : Z;
}.

Section program.
Context {S T M N : Type} {C D R : Type → Type} `{Engine S} `{TcpStream T} `{Unicode} `{Sources} `{ConfigFiles}
  `{System M} `{HealthIo} `{UpperCase} `{DebugText}
  `{LruOps cache_key C} `{LruOps bytes D} `{LruOps IpAddr R} `{Env N} `{Crypto} `{Doh.HttpEnv N} `{Dot.TlsEnv N} `{LogIo}.

Abbreviation St := (RecursiveResolver C D R N).
Abbreviation conclusion := (conclusion S T).

(** The conclusion of a mode whose code may panic. *)
Definition conclude {A} (f : A → conclusion) (r : outcome unit A) : conclusion :=
  match r with
  | Ok a => f a
  | Diverge => NeverEnds
  | _ => Panicked
  end.
(** A query prints what it has found, or what went wrong: a success in either case. *)
Definition printed (r : DnsResult diagnostic) : conclusion :=
  match r with
  | Ok d => Exit 0 (Some d)
  | Err e => Exit 0 None
  | Panic => Panicked
  | Diverge => NeverEnds
  end.

(** *** The service *)

Definition install_service_route (platform : Platform) (config : FastDnsConfig) (host : Host M)
    : conclusion * Host M :=
  match platform with
  | MacOs => (Exit 0 None, (install_service_route_macos config host).2)
  | Windows => (Exit 0 None, (install_service_route_windows host).2)
  | OtherUnix => (Exit 0 None, host)
  end.

Definition uninstall_service_route (platform : Platform) (host : Host M) : conclusion * Host M :=
  match platform with
  | MacOs => (Exit 0 None, (uninstall_service_route_macos host).2)
  | Windows => (Exit 0 None, (uninstall_service_route_windows host).2)
  | OtherUnix => (Exit 0 None, host)
  end.

(** [None] when the process is not one that the service control manager has started. *)
Definition run_as_service (su : Surroundings) (config : ServerConfig) : option conclusion :=
  if su_dispatched su then
    Some (match my_service_main (su_workers su) (su_sockets su) (su_now su) config with
          | Ok p => Serves p
          | Diverge => NeverEnds
          | _ => ServicePanicked
          end)
  else None.

(** *** One query *)

Definition diagnostic_resolver (su : Surroundings) (ipv6 dnssec : bool) (n : N) : option St :=
  if so_resolver (su_sockets su) then Some (resolver_new ipv6 dnssec (Z.to_nat 100000) [] n) else None.

(** [run_diagnostic_query] and [run_diagnostic_query_doh]: without a resolver nothing is printed but
    the error. *)
Definition diagnostic_query (su : Surroundings) (config : FastDnsConfig) (fuel : nat) (n : N) (name : str) (rtype : Z)
    : conclusion :=
  match diagnostic_resolver su (fc_ipv6 config) (fc_dnssec config) n with
  | Some s =>
    printed (run_diagnostic_query
      (resolve (resolve_recursive (fc_ipv6 config) fuel) (fc_dnssec config) name rtype 1) s).1
  | None => Exit 0 None
  end.

Definition diagnostic_query_doh (su : Surroundings) (config : FastDnsConfig) (n : N) (name : str) (rtype : Z)
    : conclusion :=
  match diagnostic_resolver su (fc_ipv6 config) (fc_dnssec config) n with
  | Some s =>
    printed (run_diagnostic_query (Doh.resolve_via_doh (fc_ipv6 config) (fc_dnssec config) name rtype 1) s).1
  | None => Exit 0 None
  end.

Definition query_mode (su : Surroundings) (config : FastDnsConfig) (cli : Cli) (fuel : nat) (n : N) (id : Z) (name : str)
    : conclusion :=
  match parse_rtype (cli_query_type cli) with
  | None => Exit 1 None
  | Some rtype =>
    if fc_doh config then diagnostic_query_doh su config n name rtype
    else if fc_dot config then printed (run_diagnostic_query_dot name rtype id n).1
    else diagnostic_query su config fuel n name rtype
  end.

(** *** [main] *)

Definition healthcheck_mode (config : FastDnsConfig) (cli : Cli) : conclusion :=
  match parse_socket_addr (fc_bind config) with
  | None => Panicked
  | Some addr =>
    conclude (λ report, Exit (if report_ok report then 0 else 1) None)
      (run_healthcheck addr (cli_healthcheck_domain cli))
  end.

Definition service_mode (su : Surroundings) (config : FastDnsConfig) : option conclusion :=
  if decide (su_platform su = Windows) then
    match to_server_config config with
    | Ok svc_config => run_as_service su svc_config
    | Diverge => Some NeverEnds
    | _ => Some Panicked
    end
  else None.

Definition server_mode (su : Surroundings) (config : FastDnsConfig) : conclusion :=
  conclude (λ server_config,
    conclude Serves (launch (su_workers su) (su_sockets su) (su_now su) server_config)) (to_server_config config).

(** From the check of the port on, which on Windows only warns. *)
Definition run_modes (su : Surroundings) (config : FastDnsConfig) (cli : Cli) (fuel : nat) (n : N) (id : Z) : conclusion :=
  match check_bind_privileges (su_root su || bool_decide (su_platform su = Windows)) (fc_bind config) with
  | Ok () =>
    match service_mode su config with
    | Some c => c
    | None =>
      match cli_query cli with
      | Some name => query_mode su config cli fuel n id name
      | None => server_mode su config
      end
    end
  | _ => Exit 1 None
  end.

(** The log, and how the program ends. *)
Definition program (su : Surroundings) (cli : Cli) (fuel : nat) (n : N) (id : Z) (host : Host M)
    : (str * log_target) * (conclusion * Host M) :=
  let config := merge_cli (from_file (cli_config cli)) (cli_overrides cli) in
  (init_logging config (one_shot cli || cli_verbose cli),
   match validate config with
   | inr errors => (Exit 1 None, host)
   | inl () =>
     if cli_install_service cli then install_service_route (su_platform su) config host
     else if cli_uninstall_service cli then uninstall_service_route (su_platform su) host
     else if cli_healthcheck cli then (healthcheck_mode config cli, host)
     else (run_modes su config cli fuel n id, host)
   end).
End program.

(** ** Lemmas *)

Section lemmas.
Context {S T M N : Type} {C D R : Type → Type} `{Engine S} `{TcpStream T} `{Unicode} `{Sources} `{ConfigFiles}
  `{System M} `{HealthIo} `{UpperCase} `{DebugText}
  `{LruOps cache_key C} `{LruOps bytes D} `{LruOps IpAddr R} `{Env N} `{Crypto} `{Doh.HttpEnv N} `{Dot.TlsEnv N} `{LogIo}.

Abbreviation St := (RecursiveResolver C D R N).
Abbreviation conclusion := (conclusion S T).

(** The exit code: [None] for a program that never ends, that serves, or that is a service whose
    thread has panicked.  A panic of the main thread ends a Rust program with 101. *)
Definition exit_code (c : conclusion) : option Z :=
  match c with
  | Exit code _ => Some code
  | Panicked => Some 101
  | ServicePanicked | NeverEnds | Serves _ => None
  end.

(** The port is one that only root may bind. *)
Definition unprivileged (su : Surroundings) (config : FastDnsConfig) : Prop :=
  su_platform su ≠ Windows ∧ su_root su = false ∧
  ∃ addr, parse_socket_addr (fc_bind config) = Some addr ∧ sa_port addr < 1024.

Lemma privileges_ok (su : Surroundings) config :
  match check_bind_privileges (su_root su || bool_decide (su_platform su = Windows)) (fc_bind config) with
  | Ok () => ¬ unprivileged su config
  | Err _ => unprivileged su config
  | _ => False
  end.
Proof.
  unfold check_bind_privileges, unprivileged. destruct (parse_socket_addr _) as [addr|].
  2: { by intros (_ & _ & addr & ? & _). }
  case_decide as Hp.
  - destruct (su_root su); cbn; [naive_solver|]. case_bool_decide; [naive_solver|]. eauto 10.
  - intros (_ & _ & addr' & [= <-] & ?). done.
Qed.

Lemma server_config_ok config : accepted config → ∃ sc, to_server_config config = Ok sc.
Proof. intros [[addr Ha] _]. unfold to_server_config. rewrite Ha. by eexists. Qed.

(** What [main] asks the operating system for cannot be had, or a custom record panics. *)
Definition cannot_start (su : Surroundings) (config : FastDnsConfig) : Prop :=
  so_resolver (su_sockets su) = false ∨
  fc_blocklist_mode config ≠ lit "none" ∧ ∃ e, e ∈ fc_custom_dns config ∧ parse_custom_dns_entry e = Panic.

Lemma server_code su config :
  accepted config →
  exit_code (server_mode su config : conclusion) = Some 101 ∧ cannot_start su config ∨
  exit_code (server_mode su config : conclusion) = None ∧ ¬ cannot_start su config.
Proof.
  intros [[addr Ha] _]. unfold server_mode, to_server_config, launch, cannot_start. rewrite Ha. cbn [conclude].
  destruct (so_resolver _); cbn [negb]; [|left; auto].
  match goal with |- context [start ?now ?sc] => pose proof (start_outcome (S:=S) (T:=T) now sc) as Ho; destruct (start now sc) end;
    cbn in *; [right|done|left|done]; naive_solver.
Qed.

(** The code for the end of a lookup: 0 with an answer or an error. *)
Definition lookup_code {A} (r : DnsResult A) : option Z :=
  match r with
  | Ok _ | Err _ => Some 0
  | Panic => Some 101
  | Diverge => None
  end.

(** The lookup of a query: over HTTPS, over TLS, where the reply is then decoded, or by recursion;
    without a resolver there is none. *)
Definition query_code (su : Surroundings) (config : FastDnsConfig) (fuel : nat) (n : N) (id : Z) (name : str) (rtype : Z)
    : option Z :=
  let with_resolver (lookup : St → option Z) :=
    match diagnostic_resolver su (fc_ipv6 config) (fc_dnssec config) n with Some s => lookup s | None => Some 0 end in
  if fc_doh config then
    with_resolver (λ s, lookup_code (Doh.resolve_via_doh (fc_ipv6 config) (fc_dnssec config) name rtype 1 s).1)
  else if fc_dot config then
    match dot_diagnostic_query name rtype id with
    | Ok query =>
      match (Dot.dot_query_with_fallback query n).1 with
      | Ok reply => lookup_code (decode_message reply)
      | r => lookup_code r
      end
    | r => lookup_code r
    end
  else
    with_resolver (λ s, lookup_code (resolve (resolve_recursive (fc_ipv6 config) fuel) (fc_dnssec config) name rtype 1 s).1).

Lemma query_code_cases su config fuel (n : N) id name rtype :
  let code := query_code su config fuel n id name rtype in code = None ∨ code = Some 0 ∨ code = Some 101.
Proof. cbv zeta. unfold query_code, lookup_code. repeat case_match; auto. Qed.

Lemma run_diagnostic_code {X} (lookup : RM X (list ResourceRecord)) s :
  exit_code (printed (run_diagnostic_query lookup s).1 : conclusion) = lookup_code (lookup s).1.
Proof.
  unfold run_diagnostic_query. rewrite run_bind, run_catch. by destruct (lookup s) as [[] ?].
Qed.

Lemma run_diagnostic_dot_code name rtype id (n : N) :
  exit_code (printed (run_diagnostic_query_dot name rtype id n).1 : conclusion) =
    match dot_diagnostic_query name rtype id with
    | Ok query =>
      match (Dot.dot_query_with_fallback query n).1 with
      | Ok reply => lookup_code (decode_message reply)
      | r => lookup_code r
      end
    | r => lookup_code r
    end.
Proof.
  unfold run_diagnostic_query_dot. destruct (dot_diagnostic_query name rtype id) as [query|e| |]; [|done..].
  erewrite bind_step by reflexivity. rewrite run_bind, run_catch.
  destruct (Dot.dot_query_with_fallback query n) as [[reply|e| |] n']; [|done..]. cbn.
  destruct (decode_message reply) as [response|e| |]; [|done..]. cbn. by case_decide.
Qed.

Lemma query_mode_code su config cli fuel (n : N) id name :
  exit_code (query_mode (C:=C) (D:=D) (R:=R) su config cli fuel n id name : conclusion) =
    match parse_rtype (cli_query_type cli) with
    | Some rtype => query_code su config fuel n id name rtype
    | None => Some 1
    end.
Proof.
  unfold query_mode, query_code, diagnostic_query, diagnostic_query_doh.
  destruct (parse_rtype _) as [rtype|]; [|done]. destruct (fc_doh config); [|destruct (fc_dot config)].
  - destruct (diagnostic_resolver _ _ _ _); [apply run_diagnostic_code|done].
  - apply run_diagnostic_dot_code.
  - destruct (diagnostic_resolver _ _ _ _); [apply run_diagnostic_code|done].
Qed.

Lemma health_code config cli addr :
  parse_socket_addr (fc_bind config) = Some addr →
  exit_code (healthcheck_mode config cli : conclusion) =
    match run_healthcheck addr (cli_healthcheck_domain cli) with
    | Ok report => Some (if report_ok report then 0 else 1)
    | Diverge => None
    | _ => Some 101
    end.
Proof. unfold healthcheck_mode. intros ->. by destruct (run_healthcheck _ _). Qed.

(** The service control manager of Windows has started the program. *)
Definition as_service (su : Surroundings) : Prop := su_platform su = Windows ∧ su_dispatched su = true.
#[export] Instance as_service_dec su : Decision (as_service su).
Proof. unfold as_service. apply _. Defined.

Lemma service_code su config :
  accepted config →
  match service_mode su config : option conclusion with
  | Some c => as_service su ∧ exit_code c = None
  | None => ¬ as_service su
  end.
Proof.
  intros Hc. unfold service_mode, run_as_service, as_service. destruct (server_config_ok config Hc) as [sc ->].
  case_decide; [|naive_solver]. destruct (su_dispatched su); [|naive_solver].
  by destruct (my_service_main (S:=S) (T:=T) _ _ _ _).
Qed.

Lemma modes_code su config cli fuel (n : N) id :
  accepted config →
  let code := exit_code (run_modes (C:=C) (D:=D) (R:=R) su config cli fuel n id : conclusion) in
  (unprivileged su config ∧ code = Some 1) ∨
  (¬ unprivileged su config ∧ as_service su ∧ code = None) ∨
  (¬ unprivileged su config ∧ ¬ as_service su ∧
   code = match cli_query cli with
          | Some name =>
            match parse_rtype (cli_query_type cli) with
            | Some rtype => query_code su config fuel n id name rtype
            | None => Some 1
            end
          | None => exit_code (server_mode su config : conclusion)
          end).
Proof.
  intros Hc code. subst code. unfold run_modes. pose proof (privileges_ok su config) as Hp.
  destruct (check_bind_privileges _ _) as [[]|e| |]; [right|by left|done..].
  pose proof (service_code su config Hc) as Hs. destruct (service_mode _ _) as [c|]; [left; naive_solver|right].
  split_and!; [done..|]. destruct (cli_query cli); [apply query_mode_code|done].
Qed.
End lemmas.

(** ** Properties *)

Section properties.
Context {S T M N : Type} {C D R : Type → Type} `{Engine S} `{TcpStream T} `{Unicode} `{Sources} `{ConfigFiles}
  `{System M} `{HealthIo} `{UpperCase} `{DebugText}
  `{LruOps cache_key C} `{LruOps bytes D} `{LruOps IpAddr R} `{Env N} `{Crypto} `{Doh.HttpEnv N} `{Dot.TlsEnv N} `{LogIo}.


(** Without an option for another mode the program is the daemon: it serves exactly what [main]
    of [App] starts, and is not there at all where that does not start. *)
Theorem program_serves (su : Surroundings) cli fuel (n : N) id (host : Host M) :
  su_platform su ≠ Windows → so_resolver (su_sockets su) = true →
  cli_query cli = None → cli_install_service cli = false → cli_uninstall_service cli = false → cli_healthcheck cli = false →
  let config := merge_cli (from_file (cli_config cli)) (cli_overrides cli) in
  program (S:=S) (T:=T) (C:=C) (D:=D) (R:=R) su cli fuel n id host =
    (init_logging config (cli_verbose cli),
     (match main (cli_config cli) (cli_overrides cli) (su_root su) (su_now su) with
     | Ok a =>
       match to_server_config config with
       | Ok server_config => Serves (daemon (su_workers su) (su_sockets su) server_config a)
       | _ => Panicked
       end
     | Err _ => Exit 1 None
     | Panic => Panicked
     | Diverge => NeverEnds
     end, host)).
Proof.
  intros Hw Hs Hq Hi Hu Hh config. unfold program, main, one_shot. fold config. rewrite Hi, Hu, Hh, Hq. f_equal.
  destruct (validate config) as [[]|errors]; [|done]. unfold run_modes, service_mode.
  rewrite bool_decide_false, orb_false_r, decide_False, Hq by done.
  destruct (check_bind_privileges _ _) as [[]|e| |] eqn:Ec; cbn [mbind outcome_bind]; [|done| |].
  - unfold server_mode. destruct (to_server_config config) as [sc| | |]; [|done..]. cbn. unfold launch. rewrite Hs. cbn.
    by destruct (start _ sc).
  - unfold check_bind_privileges in Ec. by repeat case_match.
  - unfold check_bind_privileges in Ec. by repeat case_match.
Qed.

(** The modes that do one thing and exit log to standard error, whatever the configuration says. *)
Lemma one_shot_stderr (su : Surroundings) cli fuel (n : N) id (host : Host M) :
  one_shot cli = true → (program (S:=S) (T:=T) (C:=C) (D:=D) (R:=R) su cli fuel n id host).1.2 = Stderr.
Proof. intros Ho. unfold program, init_logging. rewrite Ho, orb_true_r. done. Qed.
End properties.

(** ** Examples *)

(** A machine on which nothing can be reached. *)
Module Bare.
#[export] Instance bare_system : System unit := {
  sys_command _ _ m := (NotStarted, m);
  sys_exists _ _ := false;
  sys_remove_file _ m := (false, m);
  sys_create_dir_all _ m := (false, m);
  sys_copy _ _ m := (false, m);
  sys_set_permissions _ _ m := (false, m);
  sys_create _ m := (false, m);
  sys_write_all _ _ m := (false, m);
  sys_current_exe _ := None;
  sys_lossy s := s;
}.
#[export] Instance bare_health : HealthIo := {
  health_bind := None;
  health_send _ := None;
  health_recv _ := None;
  health_elapsed_ms := 0;
}.
#[export] Instance bare_upper : UpperCase := {
  to_uppercase := map to_ascii_uppercase;
  to_uppercase_ascii s _ := eq_refl;
}.
#[export] Instance bare_text : DebugText := { debug_text _ := EmptyString }.
#[export] Instance bare_http : Doh.HttpEnv unit := { Doh.http_post _ _ n := (Doh.SendError EmptyString, n) }.
#[export] Instance bare_tls : Dot.TlsEnv unit := {
  Dot.tls_server_name s := Some s;
  Dot.tls_connect _ n := (Elapsed, n);
  Dot.tls_handshake _ _ n := (Elapsed, n);
  Dot.tls_write _ _ n := (Elapsed, n);
  Dot.tls_read _ _ n := (Elapsed, n);
}.
#[export] Instance bare_log : LogIo := { env_filter := None; appender_builds _ := false }.
End Bare.
#[local] Existing Instances ascii_unicode Toy.canned_engine Toy.no_sources Toy.no_files.
#[local] Existing Instances Bare.bare_system Bare.bare_health Bare.bare_upper Bare.bare_text Bare.bare_http Bare.bare_tls Bare.bare_log.
#[local] Existing Instances silent_env toy_crypto.

(** No option, or a query. *)
Definition bare_cli (query : option str) : Cli :=
  mkCli (lit "fastdns.toml") None false false false None false None false false None None None None false
    query (lit "A") false false false (lit "google.com").
Definition unix (root : bool) : Surroundings := mkSurroundings OtherUnix root false Host.all_sockets 4 0.
Definition on_unix (root : bool) (cli : Cli) : conclusion canned mem_stream :=
  (program (C:=alru cache_key) (D:=alru bytes) (R:=alru IpAddr) (unix root) cli 12 tt 7 (mkHost tt [])).2.1.

(** A query of the user's is refused for the port that it does not bind; the superuser's fails, with
    a success. *)
Example query_refused : on_unix false (bare_cli (Some (lit "example.com"))) = Exit 1 None.
Proof. reflexivity. Qed.
Example query_failed :
  on_unix true (bare_cli (Some (lit "example.com"))) =
    Exit 0 (Some (Unresolved (DnsError.Malformed "maximum iterations exceeded"))).
Proof. by vm_compute. Qed.

Lemma program_serves_witness :
  ∃ p, on_unix true (bare_cli None) = Serves p ∧ p_phase p = Serving ∧ app_udp (p_app p) = Listening.
Proof.
  pose proof (program_serves (S:=canned) (T:=mem_stream) (C:=alru cache_key) (D:=alru bytes) (R:=alru IpAddr)
    (unix true) (bare_cli None) 12 tt 7 (mkHost tt [])
    ltac:(done) eq_refl eq_refl eq_refl eq_refl eq_refl) as Hp.
  unfold on_unix. rewrite Hp. eexists. split; [reflexivity|]. by split.
Defined.
